(* ===== verification/_CoqProject ===== *)
-Q . S2P
Prelude.v
Utf8.v
Types.v
Safety.v
Wire.v
Varint.v
Primitives.v
Encode.v
Decode.v
Codec.v
Roundtrip.v
Reencode.v
Topic.v
Receiver.v
Session.v
Channel.v
Subscriptions.v
Broker.v
PubSub.v
Interleaving.v
Context.v
Send.v
Protocol.v
Server.v
ServerFlow.v
Client.v
ClientFlow.v
Typed.v
System.v
Exec.v
EndToEnd.v
ExactlyOnce.v
ClientSystem.v
ClientExec.v
Interop.v
Conformance.v
