(* ===== verification/Prelude.v ===== *)
(** * A model of hotaru_mqtt

    hotaru_mqtt (src/src) is an MQTT 3.1.1 protocol implementation for the hotaru
    framework: a wire codec, a session and a channel per connection, a broker with
    its subscription tree, and the protocol flows of a server and of a client.
    This library translates it into Rocq definitions, one file per part, and
    proves what makes each part correct.

    ** How the program works

    A connection is an [MqttChannel] (channel.rs): a handle that all tasks of the
    connection clone, with a command queue to a writer actor and an [MqttSession]
    (session.rs) that allocates packet ids, parks the senders of outbound flows
    until their acks arrive, and stashes inbound QoS 2 publishes.  [handle_server]
    (protocol/server.rs) reads packets through the codec (codec/), admits a CONNECT
    under the limits of [MqttSafety] (safety.rs) and the broker's authenticator,
    registers the session with the [Broker] (broker.rs), answers and dispatches
    packets, and hands publishes to a worker that runs endpoint chains and then the
    broker's fanout.  [handle_client] (protocol/client.rs) is the other side.  Both
    send through protocol/send.rs.

    ** Files

    - [Prelude]: outcomes of Rust calls (Ok, Err, a panic, a loop out of fuel) as a
      monad, machine integers as [Z] with their casts, slices, shared lemmas,
      tactics and hint databases.
    - [Utf8]: the validation of [str::from_utf8].
    - [Types]: request.rs, packet.rs, error.rs: data, byte conversions, flag words,
      and what the Rust types guarantee ([packet_ok]).
    - [Safety]: safety.rs.  [Wire]: the transport as reader and writer.
    - [Varint], [Primitives], [Encode], [Decode], [Codec]: codec/ file by file.
      [Codec] proves totality, the table of errors, the allocation bound and the
      agreement of the two decoders.  [Roundtrip] proves that decoding inverts
      encoding, [Reencode] that encoding inverts decoding.
    - [Topic]: topic.rs: validators, parsers and printer of topic filters.
    - [Receiver]: the receiving half of QoS 2 as an interface, with exactly-once
      delivery proved from its laws; [Server] and [Client] are its instances.
    - [Session]: session.rs.  A [oneshot] channel is a cell; an invariant says that
      a waiter is unresolved exactly while one slot owns its sender.
    - [Channel]: channel.rs.  The writer actor is a step relation, because
      [tokio::select!] may take any ready branch and [notify_waiters] reaches only
      tasks that wait at that moment.
    - [Subscriptions], [Broker]: broker.rs.  A [World] holds all channels and the
      broker's tables; [broker_step] is the relation of reachable states.
    - [PubSub]: what the broker promises, as an abstract table of clients with its
      operations, and the refinement: [abs] reads that table off the broker's own.
    - [Interleaving]: the methods of the broker again, at the grain of their table
      operations: a call is a list of actions, and the actions of all running calls
      interleave ([micro_step]).
    - [Context]: context.rs.
    - [Send]: protocol/send.rs.  A suspended send is a value; [flow_run] lets
      anything happen to the connection while it waits.
    - [Protocol]: protocol/mod.rs.
    - [Server], [ServerFlow]: protocol/server.rs: the definitions and the dispatch
      theorems; the theorems about admission, loop and teardown.
    - [Client]: client.rs, protocol/client.rs, and [handle] of protocol/mod.rs.
      [ClientFlow]: the end of a connection in either role, and what ends the read
      loop.
    - [Typed]: a type invariant of everything on its way to the wire.
    - [System]: the server process: any number of connections, their workers and
      writers, over one broker, as a step relation ([system_step]) on how far each
      connection has come.  [Exec]: a scheduler that runs it by a script.
    - [EndToEnd], [ExactlyOnce]: a client, the server with its broker and the other
      clients composed, with nothing but bytes between them, up to QoS 1 and at
      QoS 2.
    - [ClientSystem]: the client process: its loop and writer and any number of
      requests in flight on one channel ([client_step]).  [ClientExec]: a scheduler
      for it.
    - [Interop]: a client and a server of the crate on one connection, each in any
      state it reaches, with the bytes the one has written as the input of the other.
    - [Conformance]: the crate's unit tests, and the server scenarios of its
      integration tests and its client tests as scripts, evaluated on the model.

    ** What is proved

    - Codec: encoding then decoding is the identity, on buffers and on streams, for
      every packet that fits the wire format; so is decoding then encoding, for
      every packet that was received, except a PUBLISH with packet id 0; a partial
      frame is left untouched; the decoders never panic or run on, report each error
      exactly in its case, agree with each other, and allocate at most the configured
      maximum; the two PUBLISH writers are equivalent.
    - Topics: fast validators accept what the parsers accept, exactly the grammar;
      printing and parsing are inverse; the broker's matcher implements the
      matching relation.
    - Session and send path: no waiter is stranded or served twice; an ack wakes
      exactly the waiter of its id and kind; a send succeeds only for acks that were
      dispatched, and always returns.
    - Channel: the wire carries a prefix of the accepted commands in order; close is
      idempotent and resolves all waiters.
    - Broker: an invariant of all reachable states; a publish reaches each matching
      subscriber once per subscription and nobody else; takeover, unregistration,
      subscribe and unsubscribe do exactly what they promise; a Will is delivered.
      All methods together refine the specification of [PubSub], in answers, tables
      and what happens to every channel.
    - Broker under concurrency: calls that interleave at every table operation keep
      an invariant, neither deadlock nor run for ever, and do what [Broker] says of
      them when they are not interrupted; a publish among them misses nobody who
      stays subscribed while it runs.
    - Server and client: admission lets nobody past the policy; replies are complete
      and exact; QoS 2 is exactly once; a connection leaves no session behind on any
      path, never panics and closes its channel; what ends it and with what result;
      a silent peer is dropped at its deadline; the Will comes after the backlog;
      keep-alive timers of both sides fit.
    - The whole server, for any number of peers and any order of its tasks: the
      broker's invariant; every session belongs to a connection that is still served
      or drained; at most one open connection is served per client id; nothing a peer
      sends puts a packet in a queue that a writer cannot encode, or anything but
      encoded packets on a wire; all connections can always be brought to an end, and
      leave empty tables.
    - The whole client, for any number of requests and any order of its tasks: a
      request returns a response only for its own acks, which came off the wire after
      it was made; the end of the connection releases the requests in flight; the
      connection and all requests can always be brought to an end.
    - End to end: the handshake, from the client's configuration to both sessions;
      a publish of each QoS, from the request to the endpoints of every subscriber
      and back to the publisher's result.
    - Both ends together: neither the client nor the server ever gives up on the other
      because of the form of the bytes it gets, wherever the line breaks.
    - Races and defects the code has: two registrations, or a teardown and a new
      session, of one client id; a PUBLISH ahead of the CONNACK; a lost PUBCOMP, a read dropped by the ping timer,
      packet id 1 twice at the wrap, closes that the writer misses, truncated length
      fields, a request with an oversized topic that takes its connection down.

    ** Fuel, time and concurrency

    Loops over a remaining length or a body take fuel bounded by the input (four
    bytes, or the body's length) and are proved never to use it up.  Timers are
    events: a definition takes whether a timer fired first, or an event list.  In
    [Broker], [Send], [Server] and [Client] each broker and session method is one
    step; where the code makes two lookups or two updates that others can see
    between, the halves are separate definitions ([wake_ack_guard] and
    [wake_ack_commit], [register_takeover] and [register_insert]).  [Interleaving]
    takes the broker's methods apart: one action is one operation on a table or a turn
    of a loop, those of [matching] over the tree included; the guard that
    [subscribe] and [unsubscribe] hold on their entry orders them with insertions and
    removals of that entry.  In [System] and [ClientSystem] a turn of a connection's
    loop, of its worker or of a writer is one step, taken when the code can take it, and
    so are the registration of a connection and its CONNACK, with the others in between:
    the open flag is tested between two [select!]s, and a shutdown notification needs a
    closed channel.  The order in which a [DashMap] is iterated is a parameter
    ([DashMapIter]) that every theorem holds for.

    ** Not modelled

    The framework (URL tree, runtime, transport) and user code behind it: the nodes
    a topic yields and the result of running one are parameters of the server and
    client.  The text of errors, the handles' [Clone] (a clone names the same
    connection), re-exports (lib.rs), the tests about other protocols on the same port
    and about timing alone.  Application code enters [System] as sends on a channel it
    holds and publishes through the broker's handle, of messages that fit a PUBLISH, and
    [ClientSystem] as requests, commands and session calls on its channel; the commands
    are packets that can be encoded, the requests need not be, except in [Interop].
    [PathPattern]
    of the framework is the type in [Topic], whose regular-expression case carries a
    parameter. *)

From stdpp Require Export base decidable list gmap numbers option strings.
From Stdlib Require Export ZArith Lia.

#[global] Open Scope Z_scope.

(** ** Outcomes

    A Rust call either returns [Ok], returns [Err], or panics (an index or
    slice out of range, [expect] on [None], [unreachable!()]).  [Loop] is the
    result of a fuelled loop that used up its fuel; theorems about the loops
    show that it is never produced. *)
Inductive outcome (E A : Type) : Type :=
  | Ok (a : A)
  | Err (e : E)
  | Panic
  | Loop.
Arguments Ok {E A} a.
Arguments Err {E A} e.
Arguments Panic {E A}.
Arguments Loop {E A}.

#[global] Instance outcome_ret E : MRet (outcome E) := λ A a, Ok a.
#[global] Instance outcome_bind E : MBind (outcome E) := λ A B f m,
  match m with
  | Ok a => f a
  | Err e => Err e
  | Panic => Panic
  | Loop => Loop
  end.

#[global] Instance outcome_eq_dec E A `{!EqDecision E, !EqDecision A} :
  EqDecision (outcome E A).
Proof. solve_decision. Defined.

(** [Option::ok_or]. *)
Definition ok_or {E A} (o : option A) (e : E) : outcome E A :=
  match o with Some a => Ok a | None => Err e end.

(** [Result::map_err]. *)
Definition map_err {E F A} (f : E → F) (m : outcome E A) : outcome F A :=
  match m with
  | Ok a => Ok a
  | Err e => Err (f e)
  | Panic => Panic
  | Loop => Loop
  end.

(** An outcome a caller can observe as a [Result]: neither a panic nor a loop
    without end. *)
Definition returns {E A} (m : outcome E A) : bool :=
  match m with Ok _ | Err _ => true | Panic | Loop => false end.

Definition is_ok {E A} (m : outcome E A) : bool :=
  match m with Ok _ => true | _ => false end.

(** The payload types of the source: [Bytes] and [Vec<u8>] are byte lists, and
    a [str] is the list of its UTF-8 bytes. *)
Abbreviation bytes := (list Z) (only parsing).
Abbreviation str := (list Z) (only parsing).

(** ** Machine integers

    A [w]-bit unsigned integer is a [Z] in its range; [as_u8] and [as_u16]
    are the truncating casts. *)
Definition u8_max : Z := 255.
Definition u16_max : Z := 65535.
Definition u64_max : Z := 18446744073709551615.
Definition as_u8 (z : Z) : Z := z mod 256.
Definition as_u16 (z : Z) : Z := z mod 65536.

Definition byte_ok (b : Z) : Prop := 0 ≤ b < 256.
Definition u16_ok (v : Z) : Prop := 0 ≤ v < 65536.
Definition bytes_ok (l : list Z) : Prop := Forall byte_ok l.

#[global] Instance byte_ok_dec b : Decision (byte_ok b).
Proof. unfold byte_ok; apply _. Defined.
#[global] Instance u16_ok_dec v : Decision (u16_ok v).
Proof. unfold u16_ok; apply _. Defined.
#[global] Instance bytes_ok_dec l : Decision (bytes_ok l).
Proof. unfold bytes_ok; apply _. Defined.

(** [u16::to_be_bytes] and [u16::from_be_bytes]. *)
Definition to_be_bytes (v : Z) : list Z := [as_u8 (v ≫ 8); as_u8 v].
Definition from_be_bytes (hi lo : Z) : Z := Z.lor (hi ≪ 8) lo.
Arguments to_be_bytes : simpl never.

(** ** Slices

    A [&[u8]], [Vec<u8>], [Bytes] or [str] is its list of bytes.  Indexing
    and slicing panic out of range, as in Rust. *)
Definition len {A} (l : list A) : Z := Z.of_nat (length l).

Definition index {E A} (l : list A) (i : Z) : outcome E A :=
  match l !! Z.to_nat i with
  | Some b => if 0 <=? i then Ok b else Panic
  | None => Panic
  end.

Definition slice {E A} (l : list A) (from to : Z) : outcome E (list A) :=
  if (0 <=? from) && (from <=? to) && (to <=? len l)
  then Ok (take (Z.to_nat (to - from)) (drop (Z.to_nat from) l))
  else Panic.

Definition slice_from {E A} (l : list A) (from : Z) : outcome E (list A) :=
  slice l from (len l).

(** String literals of the source, as UTF-8 bytes (all of them are ASCII). *)
Fixpoint str_of (s : string) : list Z :=
  match s with
  | EmptyString => []
  | String a s => Z.of_N (Ascii.N_of_ascii a) :: str_of s
  end.

(** ** Tactics and hint databases *)
Create HintDb mqtt discriminated.
Create Rewrite HintDb mqtt_len.

(** Splits an equation [m >>= k = Ok _] and the like into the case of [m]. *)
Ltac outcome_bind H :=
  match type of H with
  | @mbind _ _ _ _ ?k ?m = _ =>
      let E := fresh "E" in
      destruct m eqn:E; cbn [mbind outcome_bind] in H; try discriminate H
  end.

Ltac zify_bool :=
  repeat match goal with
  | H : (_ <=? _) = true |- _ => apply Z.leb_le in H
  | H : (_ <=? _) = false |- _ => apply Z.leb_gt in H
  | H : (_ <? _) = true |- _ => apply Z.ltb_lt in H
  | H : (_ <? _) = false |- _ => apply Z.ltb_ge in H
  | H : (_ =? _) = true |- _ => apply Z.eqb_eq in H
  | H : (_ =? _) = false |- _ => apply Z.eqb_neq in H
  | H : (_ && _) = true |- _ => apply andb_true_iff in H as [? ?]
  end.

(** ** Shared lemmas *)
Section outcomes.
Context {E : Type}.

Lemma bind_Ok {A B} (m : outcome E A) (k : A → outcome E B) b :
  m ≫= k = Ok b → ∃ a, m = Ok a ∧ k a = Ok b.
Proof. destruct m; naive_solver. Qed.

Lemma bind_returns {A B} (m : outcome E A) (k : A → outcome E B) :
  returns m = true →
  (∀ a, m = Ok a → returns (k a) = true) →
  returns (m ≫= k) = true.
Proof. destruct m; naive_solver. Qed.

Lemma ok_or_returns {A} (o : option A) (e : E) : returns (ok_or o e) = true.
Proof. by destruct o. Qed.
End outcomes.

Section bytes.
Lemma len_nonneg {A} (l : list A) : 0 ≤ len l.
Proof. unfold len; lia. Qed.

Lemma len_nil {A} : len (@nil A) = 0.
Proof. done. Qed.

Lemma len_cons {A} (a : A) l : len (a :: l) = 1 + len l.
Proof. unfold len; cbn [length]; lia. Qed.

Lemma len_app {A} (l k : list A) : len (l ++ k) = len l + len k.
Proof. unfold len; rewrite length_app; lia. Qed.

Lemma len_to_be_bytes v : len (to_be_bytes v) = 2.
Proof. done. Qed.

Lemma as_u8_ok z : byte_ok (as_u8 z).
Proof. unfold byte_ok, as_u8. apply Z.mod_pos_bound; lia. Qed.

Lemma as_u16_ok z : u16_ok (as_u16 z).
Proof. unfold u16_ok, as_u16. apply Z.mod_pos_bound; lia. Qed.

Lemma as_u8_small z : byte_ok z → as_u8 z = z.
Proof. intros. apply Z.mod_small, H. Qed.

Lemma as_u16_small z : u16_ok z → as_u16 z = z.
Proof. intros. apply Z.mod_small, H. Qed.

Lemma to_be_bytes_ok v : bytes_ok (to_be_bytes v).
Proof. repeat constructor; apply as_u8_ok. Qed.

(** The two bytes of a big-endian [u16] do not overlap. *)
Lemma from_be_bytes_add hi lo :
  byte_ok lo → from_be_bytes hi lo = hi * 256 + lo.
Proof.
  intros Hlo. unfold from_be_bytes.
  rewrite Z.shiftl_mul_pow2 by lia.
  change (2 ^ 8) with 256.
  rewrite <- Z.lxor_lor, <- Z.add_nocarry_lxor; try done.
  all: apply Z.bits_inj'; intros n Hn; rewrite Z.land_spec, Z.bits_0.
  all: change 256 with (2 ^ 8).
  all: destruct (decide (n < 8)).
  all: try (rewrite Z.mul_pow2_bits_low by lia; done).
  all: apply andb_false_iff; right; unfold byte_ok in Hlo.
  all: destruct (decide (lo = 0)) as [->|]; [apply Z.bits_0|].
  all: apply Z.bits_above_log2; [lia|].
  all: assert (Z.log2 lo < 8) by (apply Z.log2_lt_pow2; lia); lia.
Qed.

Lemma from_be_bytes_ok hi lo :
  byte_ok hi → byte_ok lo → u16_ok (from_be_bytes hi lo).
Proof.
  intros Hhi Hlo. rewrite from_be_bytes_add by done.
  unfold byte_ok, u16_ok in *; lia.
Qed.

Lemma from_to_be_bytes v :
  u16_ok v → from_be_bytes (as_u8 (v ≫ 8)) (as_u8 v) = v.
Proof.
  intros Hv. rewrite from_be_bytes_add by apply as_u8_ok.
  unfold as_u8, u16_ok in *. rewrite Z.shiftr_div_pow2 by lia.
  change (2 ^ 8) with 256. rewrite (Z.mod_small (v / 256)).
  - pose proof (Z.div_mod v 256); lia.
  - split; [apply Z.div_pos; lia | apply Z.div_lt_upper_bound; lia].
Qed.

Lemma bytes_ok_app l k : bytes_ok (l ++ k) ↔ bytes_ok l ∧ bytes_ok k.
Proof. apply Forall_app. Qed.

Lemma bytes_ok_take n l : bytes_ok l → bytes_ok (take n l).
Proof. apply Forall_take. Qed.

Lemma bytes_ok_drop n l : bytes_ok l → bytes_ok (drop n l).
Proof. apply Forall_drop. Qed.

Lemma str_of_ok s : bytes_ok (str_of s).
Proof.
  induction s as [|a s IH]; constructor; [|done].
  pose proof (Ascii.N_ascii_bounded a). unfold byte_ok; lia.
Qed.
End bytes.

(** Facts about single bytes are decided by evaluating them on the whole
    range. *)
Lemma range_check (P : Z → bool) n :
  forallb P (seqZ 0 n) = true → ∀ x, 0 ≤ x < n → P x = true.
Proof.
  rewrite forallb_forall. intros HP x Hx.
  apply HP, list_elem_of_In, elem_of_seqZ. lia.
Qed.

Section slices.
Context {E A : Type}.
Implicit Types l : list A.

Lemma index_in l i :
  0 ≤ i < len l → ∃ b, index (E:=E) l i = Ok b ∧ l !! Z.to_nat i = Some b.
Proof.
  intros [Hi Hl]. unfold index, len in *.
  destruct (lookup_lt_is_Some_2 l (Z.to_nat i)) as [b Hb]; [lia|].
  exists b. rewrite Hb. destruct (Z.leb_spec 0 i); [done|lia].
Qed.

Lemma index_Ok l i b : index (E:=E) l i = Ok b → l !! Z.to_nat i = Some b.
Proof. unfold index. repeat case_match; naive_solver. Qed.

Lemma slice_in l from to :
  0 ≤ from ≤ to → to ≤ len l →
  slice (E:=E) l from to = Ok (take (Z.to_nat (to - from)) (drop (Z.to_nat from) l)).
Proof.
  intros ? ?. unfold slice.
  rewrite !(proj2 (Z.leb_le _ _)) by lia. done.
Qed.

Lemma slice_from_in l from :
  0 ≤ from ≤ len l → slice_from (E:=E) l from = Ok (drop (Z.to_nat from) l).
Proof.
  intros ?. unfold slice_from. rewrite slice_in by lia.
  rewrite take_ge; [done|]. rewrite length_drop. unfold len in *; lia.
Qed.

Lemma slice_length l from to s :
  slice (E:=E) l from to = Ok s → len s = to - from.
Proof.
  unfold slice. case_match; [|done]. zify_bool. intros [= <-].
  unfold len in *. rewrite length_take, length_drop. lia.
Qed.
End slices.

#[export] Hint Resolve as_u8_ok as_u16_ok to_be_bytes_ok len_nonneg
  from_be_bytes_ok str_of_ok : mqtt.
#[export] Hint Rewrite @len_nil @len_cons @len_app len_to_be_bytes : mqtt_len.
