(* ===== verification/Utf8.v ===== *)
(** UTF-8 validity, as [std::str::from_utf8] decides it (used by
    [src/src/codec/primitives.rs]): the well-formed byte sequences of the
    Unicode standard, table 3-7, with overlong forms, surrogates and code
    points above U+10FFFF refused. *)

From S2P Require Import Prelude.

Definition in_range (lo hi b : Z) : bool := (lo <=? b) && (b <=? hi).

(** A continuation byte, 10xxxxxx. *)
Definition utf8_cont (b : Z) : bool := in_range 0x80 0xBF b.

(** The second byte of a three-byte sequence. *)
Definition utf8_second3 (b0 b1 : Z) : bool :=
  if b0 =? 0xE0 then in_range 0xA0 0xBF b1
  else if b0 =? 0xED then in_range 0x80 0x9F b1
  else in_range 0xE1 0xEF b0 && utf8_cont b1.

(** The second byte of a four-byte sequence. *)
Definition utf8_second4 (b0 b1 : Z) : bool :=
  if b0 =? 0xF0 then in_range 0x90 0xBF b1
  else if b0 =? 0xF4 then in_range 0x80 0x8F b1
  else in_range 0xF1 0xF3 b0 && utf8_cont b1.

Fixpoint utf8_valid (s : list Z) : bool :=
  match s with
  | [] => true
  | b0 :: s1 =>
      if in_range 0 0x7F b0 then utf8_valid s1
      else match s1 with
      | [] => false
      | b1 :: s2 =>
          if in_range 0xC2 0xDF b0 then utf8_cont b1 && utf8_valid s2
          else match s2 with
          | [] => false
          | b2 :: s3 =>
              if in_range 0xE0 0xEF b0
              then utf8_second3 b0 b1 && utf8_cont b2 && utf8_valid s3
              else match s3 with
              | [] => false
              | b3 :: s4 =>
                  utf8_second4 b0 b1 && utf8_cont b2 && utf8_cont b3 &&
                  utf8_valid s4
              end
          end
      end
  end.

(** ASCII text is valid. *)
Lemma utf8_ascii s : Forall (λ b, 0 ≤ b < 128) s → utf8_valid s = true.
Proof.
  induction 1 as [|b s Hb Hs IH]; [done|]. cbn [utf8_valid].
  unfold in_range. rewrite !(proj2 (Z.leb_le _ _)) by lia. done.
Qed.

Example utf8_two_byte : utf8_valid [0xC3; 0xA9] = true.
Proof. reflexivity. Qed.
Example utf8_overlong : utf8_valid [0xC0; 0x80] = false.
Proof. reflexivity. Qed.
Example utf8_surrogate : utf8_valid [0xED; 0xA0; 0x80] = false.
Proof. reflexivity. Qed.
Example utf8_truncated : utf8_valid [0xE2; 0x82] = false.
Proof. reflexivity. Qed.
