(* ===== verification/Types.v ===== *)
(** Data model: the plain data definitions of [src/src/request.rs],
    [src/src/packet.rs] and [src/src/error.rs], with the conversions between
    enums and their wire codes, and the type invariant of a [Packet] (what the
    Rust types guarantee: [u16] fields are in range, [str] fields are valid
    UTF-8, byte buffers hold bytes). *)

From S2P Require Import Prelude.
From S2P Require Import Utf8.

(** ** request.rs *)

Inductive QoS := AtMostOnce | AtLeastOnce | ExactlyOnce.

#[global] Instance QoS_eq_dec : EqDecision QoS.
Proof. solve_decision. Defined.

Definition qos_as_u8 (q : QoS) : Z :=
  match q with AtMostOnce => 0 | AtLeastOnce => 1 | ExactlyOnce => 2 end.

Definition qos_from_u8 (v : Z) : option QoS :=
  match v with
  | 0 => Some AtMostOnce
  | 1 => Some AtLeastOnce
  | 2 => Some ExactlyOnce
  | _ => None
  end.

(** [derive(PartialOrd, Ord)]: the order of the discriminants; [Ord::min]
    returns its first argument when the two are equal. *)
Definition qos_leb (a b : QoS) : bool := qos_as_u8 a <=? qos_as_u8 b.
Definition qos_min (a b : QoS) : QoS := if qos_leb a b then a else b.

Inductive SubackCode := Granted (q : QoS) | Failure.

#[global] Instance SubackCode_eq_dec : EqDecision SubackCode.
Proof. solve_decision. Defined.

Definition suback_as_u8 (c : SubackCode) : Z :=
  match c with Granted q => qos_as_u8 q | Failure => 0x80 end.

Definition suback_from_u8 (v : Z) : option SubackCode :=
  match v with
  | 0 => Some (Granted AtMostOnce)
  | 1 => Some (Granted AtLeastOnce)
  | 2 => Some (Granted ExactlyOnce)
  | 0x80 => Some Failure
  | _ => None
  end.

Record PublishRequest := mkPublishRequest {
  req_topic : str;
  req_payload : bytes;
  req_qos : QoS;
  req_retain : bool;
}.

Definition PublishRequest_default : PublishRequest :=
  mkPublishRequest [] [] AtMostOnce false.

Record IncomingPublish := mkIncomingPublish {
  inc_topic : str;
  inc_payload : bytes;
  inc_qos : QoS;
  inc_retain : bool;
  inc_dup : bool;
  inc_packet_id : option Z;
}.

Definition incoming_topic (i : IncomingPublish) : str := inc_topic i.
Definition incoming_payload (i : IncomingPublish) : bytes := inc_payload i.

Inductive PublishAck :=
  | Sent
  | Acknowledged (id : Z)
  | Completed (id : Z).

Record TopicFilter := mkTopicFilter { tf_filter : str; tf_qos : QoS }.

Definition TopicFilter_new (filter : str) (qos : QoS) : TopicFilter := mkTopicFilter filter qos.

Inductive MqttRequest :=
  | Request_Publish (r : PublishRequest)
  | Request_Subscribe (filters : list TopicFilter)
  | Request_Unsubscribe (topics : list str).

Inductive MqttResponse :=
  | Published (a : PublishAck)
  | Subscribed (codes : list SubackCode)
  | Unsubscribed.

Record Credentials := mkCredentials { cred_username : str; cred_password : bytes }.

Definition Credentials_new (username : str) (password : bytes) : Credentials :=
  mkCredentials username password.

Record WillMessage := mkWillMessage {
  wm_topic : str;
  wm_payload : bytes;
  wm_qos : QoS;
  wm_retain : bool;
}.

Definition WillMessage_new (topic : str) (payload : bytes) (qos : QoS) (retain : bool) :
    WillMessage := mkWillMessage topic payload qos retain.

(** ** packet.rs *)

Definition MQTT_SPEC_MAX_PACKET_SIZE : Z := 268435455.

Record PublishPacket := mkPublishPacket {
  pub_topic : str;
  pub_payload : bytes;
  pub_dup : bool;
  pub_qos : QoS;
  pub_retain : bool;
  pub_packet_id : option Z;
}.

(** [PublishPacket::with_id]. *)
Definition with_id (p : PublishPacket) (id : Z) : PublishPacket :=
  mkPublishPacket (pub_topic p) (pub_payload p) (pub_dup p) (pub_qos p)
    (pub_retain p) (Some id).

Record WillPacket := mkWillPacket {
  will_topic : str;
  will_payload : bytes;
  will_qos : QoS;
  will_retain : bool;
}.

Record ConnectPacket := mkConnectPacket {
  conn_client_id : str;
  conn_clean_session : bool;
  conn_keep_alive : Z;
  conn_username : option str;
  conn_password : option bytes;
  conn_will : option WillPacket;
}.

Inductive ConnackReturnCode :=
  | Accepted
  | UnacceptableProtocolVersion
  | IdentifierRejected
  | ServerUnavailable
  | BadUsernameOrPassword
  | NotAuthorized.

#[global] Instance ConnackReturnCode_eq_dec : EqDecision ConnackReturnCode.
Proof. solve_decision. Defined.

Definition connack_as_u8 (c : ConnackReturnCode) : Z :=
  match c with
  | Accepted => 0
  | UnacceptableProtocolVersion => 1
  | IdentifierRejected => 2
  | ServerUnavailable => 3
  | BadUsernameOrPassword => 4
  | NotAuthorized => 5
  end.

Definition connack_try_from (v : Z) : option ConnackReturnCode :=
  match v with
  | 0 => Some Accepted
  | 1 => Some UnacceptableProtocolVersion
  | 2 => Some IdentifierRejected
  | 3 => Some ServerUnavailable
  | 4 => Some BadUsernameOrPassword
  | 5 => Some NotAuthorized
  | _ => None
  end.

(** [Display]. *)
Definition connack_display (c : ConnackReturnCode) : string :=
  match c with
  | Accepted => "Accepted"
  | UnacceptableProtocolVersion => "Unacceptable Protocol Version"
  | IdentifierRejected => "Identifier Rejected"
  | ServerUnavailable => "Server Unavailable"
  | BadUsernameOrPassword => "Bad Username or Password"
  | NotAuthorized => "Not Authorized"
  end.

Record ConnackPacket := mkConnackPacket {
  ack_session_present : bool;
  ack_return_code : ConnackReturnCode;
}.

Record TopicSubscription := mkTopicSubscription { ts_topic : str; ts_qos : QoS }.

Record SubscribePacket := mkSubscribePacket {
  sub_packet_id : Z;
  sub_subscriptions : list TopicSubscription;
}.

Record SubackPacket := mkSubackPacket {
  suback_packet_id : Z;
  suback_return_codes : list SubackCode;
}.

Record UnsubscribePacket := mkUnsubscribePacket {
  unsub_packet_id : Z;
  unsub_topics : list str;
}.

Inductive Packet :=
  | Packet_Connect (c : ConnectPacket)
  | Packet_Connack (a : ConnackPacket)
  | Packet_Publish (p : PublishPacket)
  | Packet_Puback (id : Z)
  | Packet_Pubrec (id : Z)
  | Packet_Pubrel (id : Z)
  | Packet_Pubcomp (id : Z)
  | Packet_Subscribe (s : SubscribePacket)
  | Packet_Suback (s : SubackPacket)
  | Packet_Unsubscribe (u : UnsubscribePacket)
  | Packet_Unsuback (id : Z)
  | Packet_Pingreq
  | Packet_Pingresp
  | Packet_Disconnect.

#[global] Instance PublishPacket_eq_dec : EqDecision PublishPacket.
Proof. solve_decision. Defined.
#[global] Instance WillPacket_eq_dec : EqDecision WillPacket.
Proof. solve_decision. Defined.
#[global] Instance ConnectPacket_eq_dec : EqDecision ConnectPacket.
Proof. solve_decision. Defined.
#[global] Instance ConnackPacket_eq_dec : EqDecision ConnackPacket.
Proof. solve_decision. Defined.
#[global] Instance TopicSubscription_eq_dec : EqDecision TopicSubscription.
Proof. solve_decision. Defined.
#[global] Instance SubscribePacket_eq_dec : EqDecision SubscribePacket.
Proof. solve_decision. Defined.
#[global] Instance SubackPacket_eq_dec : EqDecision SubackPacket.
Proof. solve_decision. Defined.
#[global] Instance UnsubscribePacket_eq_dec : EqDecision UnsubscribePacket.
Proof. solve_decision. Defined.
#[global] Instance Packet_eq_dec : EqDecision Packet.
Proof. solve_decision. Defined.

(** [Packet::name]. *)
Definition packet_name (p : Packet) : string :=
  match p with
  | Packet_Connect _ => "CONNECT"
  | Packet_Connack _ => "CONNACK"
  | Packet_Publish _ => "PUBLISH"
  | Packet_Puback _ => "PUBACK"
  | Packet_Pubrec _ => "PUBREC"
  | Packet_Pubrel _ => "PUBREL"
  | Packet_Pubcomp _ => "PUBCOMP"
  | Packet_Subscribe _ => "SUBSCRIBE"
  | Packet_Suback _ => "SUBACK"
  | Packet_Unsubscribe _ => "UNSUBSCRIBE"
  | Packet_Unsuback _ => "UNSUBACK"
  | Packet_Pingreq => "PINGREQ"
  | Packet_Pingresp => "PINGRESP"
  | Packet_Disconnect => "DISCONNECT"
  end.

Inductive PacketType :=
  | PacketType_Connect
  | PacketType_Connack
  | PacketType_Publish
  | PacketType_Puback
  | PacketType_Pubrec
  | PacketType_Pubrel
  | PacketType_Pubcomp
  | PacketType_Subscribe
  | PacketType_Suback
  | PacketType_Unsubscribe
  | PacketType_Unsuback
  | PacketType_Pingreq
  | PacketType_Pingresp
  | PacketType_Disconnect.

#[global] Instance PacketType_eq_dec : EqDecision PacketType.
Proof. solve_decision. Defined.

(** The discriminants of [PacketType] ([as u8]). *)
Definition packet_type_as_u8 (t : PacketType) : Z :=
  match t with
  | PacketType_Connect => 1
  | PacketType_Connack => 2
  | PacketType_Publish => 3
  | PacketType_Puback => 4
  | PacketType_Pubrec => 5
  | PacketType_Pubrel => 6
  | PacketType_Pubcomp => 7
  | PacketType_Subscribe => 8
  | PacketType_Suback => 9
  | PacketType_Unsubscribe => 10
  | PacketType_Unsuback => 11
  | PacketType_Pingreq => 12
  | PacketType_Pingresp => 13
  | PacketType_Disconnect => 14
  end.

Definition packet_type_try_from (v : Z) : option PacketType :=
  match v with
  | 1 => Some PacketType_Connect
  | 2 => Some PacketType_Connack
  | 3 => Some PacketType_Publish
  | 4 => Some PacketType_Puback
  | 5 => Some PacketType_Pubrec
  | 6 => Some PacketType_Pubrel
  | 7 => Some PacketType_Pubcomp
  | 8 => Some PacketType_Subscribe
  | 9 => Some PacketType_Suback
  | 10 => Some PacketType_Unsubscribe
  | 11 => Some PacketType_Unsuback
  | 12 => Some PacketType_Pingreq
  | 13 => Some PacketType_Pingresp
  | 14 => Some PacketType_Disconnect
  | _ => None
  end.

(** [bitflags! FixedHeaderFlags]: the named bits, and the operations the codec
    uses.  [from_bits] refuses a value with a bit no flag names,
    [from_bits_truncate] clears such bits, [contains] asks for every bit. *)
Definition FixedHeaderFlags_Retain : Z := 1.
Definition FixedHeaderFlags_QoS : Z := 6.
Definition FixedHeaderFlags_Dup : Z := 8.
Definition FixedHeaderFlags_all : Z :=
  Z.lor FixedHeaderFlags_Retain (Z.lor FixedHeaderFlags_QoS FixedHeaderFlags_Dup).

Definition ConnectFlags_Username : Z := 128.
Definition ConnectFlags_Password : Z := 64.
Definition ConnectFlags_WillRetain : Z := 32.
Definition ConnectFlags_WillQoSMask : Z := 24.
Definition ConnectFlags_WillFlag : Z := 4.
Definition ConnectFlags_CleanSession : Z := 2.
Definition ConnectFlags_Reserved : Z := 1.
Definition ConnectFlags_all : Z :=
  Z.lor ConnectFlags_Username (Z.lor ConnectFlags_Password
    (Z.lor ConnectFlags_WillRetain (Z.lor ConnectFlags_WillQoSMask
      (Z.lor ConnectFlags_WillFlag (Z.lor ConnectFlags_CleanSession
        ConnectFlags_Reserved))))).

Definition flags_from_bits (all bits : Z) : option Z :=
  if Z.land bits (Z.lnot all) =? 0 then Some bits else None.
Definition flags_from_bits_truncate (all bits : Z) : Z := Z.land bits all.
Definition flags_contains (flags f : Z) : bool := Z.land flags f =? f.

(** ** error.rs *)

(** The errors of [std::io] the codec meets: [read_exact] on a stream that ends
    early, and any other failure of the transport. *)
Inductive IoError := IoUnexpectedEof | IoOther.

Inductive TimeoutKind := Timeout_Connack | Timeout_ConnectReceive | Timeout_Ack.

Inductive Violation :=
  | ExpectedConnack
  | ExpectedConnect
  | ConnectionRefused (c : ConnackReturnCode)
  | UnexpectedPacket (expected got : string)
  | InvalidProtocolName
  | UnsupportedProtocolLevel (level : Z)
  | EmptyTopic
  | TopicTooLong
  | WildcardInPublishTopic
  | HashWildcardNotTerminal
  | WildcardMixedWithLiteral
  | SessionAlreadyBound
  | PacketTooLarge (len max : Z).

Inductive CodecError :=
  | UnexpectedEof
  | InvalidPacketType (b : Z)
  | MalformedLength
  | InvalidUtf8
  | PayloadTooLong (len max : Z)
  | QosInvalid (b : Z)
  | ReservedFlagSet
  | MissingPacketId
  | ZeroPacketId
  | CodecTopicTooLong (len max : Z)
  | BodyTooLong (len max : Z).

Inductive MqttError :=
  | Io (e : IoError)
  | ChannelClosed
  | AckTimeout
  | Timeout (k : TimeoutKind)
  | Configuration (m : string)
  | NotConnected (m : string)
  | Protocol (v : Violation)
  | Codec (c : CodecError)
  | Unsupported (m : string).

#[global] Instance IoError_eq_dec : EqDecision IoError.
Proof. solve_decision. Defined.
#[global] Instance TimeoutKind_eq_dec : EqDecision TimeoutKind.
Proof. solve_decision. Defined.
#[global] Instance Violation_eq_dec : EqDecision Violation.
Proof. solve_decision. Defined.
#[global] Instance CodecError_eq_dec : EqDecision CodecError.
Proof. solve_decision. Defined.
#[global] Instance MqttError_eq_dec : EqDecision MqttError.
Proof. solve_decision. Defined.

Abbreviation mresult := (outcome MqttError).

(** The [From] conversions of [?], and [Error::source]. *)
Definition from_io (e : IoError) : MqttError := Io e.
Definition from_codec (e : CodecError) : MqttError := Codec e.
Definition from_violation (v : Violation) : MqttError := Protocol v.

Definition error_source (e : MqttError) : option IoError :=
  match e with Io e => Some e | _ => None end.

(** ** broker.rs: [incoming_from_packet], used by every protocol module *)
Definition incoming_from_packet (p : PublishPacket) : IncomingPublish :=
  mkIncomingPublish (pub_topic p) (pub_payload p) (pub_qos p) (pub_retain p)
    (pub_dup p) (pub_packet_id p).

(** ** What the Rust types guarantee *)

Definition str_ok (s : str) : Prop := bytes_ok s ∧ utf8_valid s = true.

Definition opt_ok {A} (P : A → Prop) (o : option A) : Prop :=
  match o with Some a => P a | None => True end.

Definition will_ok (w : WillPacket) : Prop :=
  str_ok (will_topic w) ∧ bytes_ok (will_payload w).

Definition publish_ok (p : PublishPacket) : Prop :=
  str_ok (pub_topic p) ∧ bytes_ok (pub_payload p) ∧ opt_ok u16_ok (pub_packet_id p).

Definition connect_ok (c : ConnectPacket) : Prop :=
  str_ok (conn_client_id c) ∧ u16_ok (conn_keep_alive c) ∧
  opt_ok str_ok (conn_username c) ∧ opt_ok bytes_ok (conn_password c) ∧
  opt_ok will_ok (conn_will c).

Definition packet_ok (p : Packet) : Prop :=
  match p with
  | Packet_Connect c => connect_ok c
  | Packet_Connack _ => True
  | Packet_Publish p => publish_ok p
  | Packet_Puback id | Packet_Pubrec id | Packet_Pubrel id | Packet_Pubcomp id
  | Packet_Unsuback id => u16_ok id
  | Packet_Subscribe s =>
      u16_ok (sub_packet_id s) ∧ Forall (λ t, str_ok (ts_topic t)) (sub_subscriptions s)
  | Packet_Suback s => u16_ok (suback_packet_id s)
  | Packet_Unsubscribe u => u16_ok (unsub_packet_id u) ∧ Forall str_ok (unsub_topics u)
  | Packet_Pingreq | Packet_Pingresp | Packet_Disconnect => True
  end.

#[global] Instance str_ok_dec s : Decision (str_ok s).
Proof. unfold str_ok; apply _. Defined.

(** ** Wire codes of the enums *)

Lemma qos_from_as_u8 q : qos_from_u8 (qos_as_u8 q) = Some q.
Proof. by destruct q. Qed.

Lemma qos_from_u8_Some v q : qos_from_u8 v = Some q → v = qos_as_u8 q.
Proof. unfold qos_from_u8. intros H. repeat case_match; simplify_eq; done. Qed.

Lemma suback_from_as_u8 c : suback_from_u8 (suback_as_u8 c) = Some c.
Proof. by destruct c as [[]|]. Qed.

Lemma connack_try_from_as_u8 c : connack_try_from (connack_as_u8 c) = Some c.
Proof. by destruct c. Qed.

Lemma packet_type_try_from_as_u8 t :
  packet_type_try_from (packet_type_as_u8 t) = Some t.
Proof. by destruct t. Qed.

Lemma packet_type_try_from_Some v t :
  packet_type_try_from v = Some t → v = packet_type_as_u8 t.
Proof.
  unfold packet_type_try_from. intros H. repeat case_match; simplify_eq; done.
Qed.

Lemma qos_min_spec a b : qos_as_u8 (qos_min a b) = Z.min (qos_as_u8 a) (qos_as_u8 b).
Proof. by destruct a, b. Qed.
