(* ===== verification/Safety.v ===== *)
(** [src/src/safety.rs]: the wire-layer resource limits.  A limit that was not
    set takes its default in the getter. *)

From S2P Require Import Prelude.
From S2P Require Import Types.

Definition SPEC_MAX_PACKET_SIZE : Z := MQTT_SPEC_MAX_PACKET_SIZE.
Definition DEFAULT_MAX_PACKET_SIZE : Z := 1024 * 1024.
Definition DEFAULT_MAX_KEEP_ALIVE : Z := 3600.

Record MqttSafety := mkMqttSafety {
  sf_max_packet_size : option Z;
  sf_max_keep_alive : option Z;
  sf_allow_disabled_keep_alive : option bool;
}.

(** [MqttSafety::new] (the derived [Default]). *)
Definition safety_new : MqttSafety := mkMqttSafety None None None.

Definition max_packet_size (s : MqttSafety) : Z :=
  default DEFAULT_MAX_PACKET_SIZE (sf_max_packet_size s).

Definition with_max_packet_size (s : MqttSafety) (n : Z) : MqttSafety :=
  mkMqttSafety (Some (Z.min n SPEC_MAX_PACKET_SIZE)) (sf_max_keep_alive s)
    (sf_allow_disabled_keep_alive s).

Definition max_keep_alive (s : MqttSafety) : Z :=
  default DEFAULT_MAX_KEEP_ALIVE (sf_max_keep_alive s).

Definition with_max_keep_alive (s : MqttSafety) (secs : Z) : MqttSafety :=
  mkMqttSafety (sf_max_packet_size s) (Some secs) (sf_allow_disabled_keep_alive s).

Definition allows_disabled_keep_alive (s : MqttSafety) : bool :=
  default false (sf_allow_disabled_keep_alive s).

Definition allow_disabled_keep_alive (s : MqttSafety) : MqttSafety :=
  mkMqttSafety (sf_max_packet_size s) (sf_max_keep_alive s) (Some true).

(** The fields are private: a value of the type comes from [new] and the
    setters, whose arguments are a [usize] and a [u16]. *)
Inductive safety_built : MqttSafety → Prop :=
  | built_new : safety_built safety_new
  | built_packet_size s n :
      safety_built s → 0 ≤ n ≤ u64_max → safety_built (with_max_packet_size s n)
  | built_keep_alive s secs :
      safety_built s → u16_ok secs → safety_built (with_max_keep_alive s secs)
  | built_allow s :
      safety_built s → safety_built (allow_disabled_keep_alive s).

Lemma safety_built_bounds s :
  safety_built s →
  0 ≤ max_packet_size s ≤ SPEC_MAX_PACKET_SIZE ∧ u16_ok (max_keep_alive s).
Proof.
  induction 1 as [|s n Hs IH Hn|s n Hs IH Hn|s Hs IH];
    unfold max_packet_size, max_keep_alive, u16_ok in *; cbn in *;
    unfold id, DEFAULT_MAX_PACKET_SIZE, DEFAULT_MAX_KEEP_ALIVE,
      SPEC_MAX_PACKET_SIZE, MQTT_SPEC_MAX_PACKET_SIZE in *; lia.
Qed.
