(* ===== verification/Wire.v ===== *)
(** The transport as the codec sees it: an [AsyncRead] that yields the bytes
    the peer sent until it closes, and an [AsyncWrite] that accepts bytes until
    the transport fails.  The reader also records the buffers the reading code
    allocates ([vec![0u8; n]]), which is what the packet-size cap is about. *)

From S2P Require Import Prelude.
From S2P Require Import Types.

(** ** Reading *)

Record reader := mkReader {
  rd_input : bytes;      (* what the peer will have sent when it closes *)
  rd_allocs : list Z;    (* sizes of the heap buffers allocated so far *)
}.

Definition rd (A : Type) : Type := reader → mresult A * reader.

#[global] Instance rd_ret : MRet rd := λ A a r, (Ok a, r).
#[global] Instance rd_bind : MBind rd := λ A B k m r,
  match m r with
  | (Ok a, r') => k a r'
  | (Err e, r') => (Err e, r')
  | (Panic, r') => (Panic, r')
  | (Loop, r') => (Loop, r')
  end.

Definition rd_lift {A} (m : mresult A) : rd A := λ r, (m, r).

(** [AsyncReadExt::read_exact]: fills the buffer, or consumes what is left and
    fails with [UnexpectedEof]. *)
Definition read_exact (n : Z) : rd bytes := λ r,
  if n <=? len (rd_input r)
  then (Ok (take (Z.to_nat n) (rd_input r)),
        mkReader (drop (Z.to_nat n) (rd_input r)) (rd_allocs r))
  else (Err (Io IoUnexpectedEof), mkReader [] (rd_allocs r)).

(** [vec![0u8; n]]. *)
Definition alloc (n : Z) : rd unit := λ r,
  (Ok tt, mkReader (rd_input r) (rd_allocs r ++ [n])).

(** ** Writing *)

Record writer := mkWriter {
  wr_out : bytes;        (* bytes delivered to the transport *)
  wr_room : option Z;    (* how many more it accepts before failing; None: any *)
}.

(** [AsyncWriteExt::write_all]: delivers the whole buffer, or a prefix of it and
    an I/O error. *)
Definition write_all (b : bytes) (w : writer) : mresult unit * writer :=
  match wr_room w with
  | None => (Ok tt, mkWriter (wr_out w ++ b) None)
  | Some n =>
      if len b <=? n
      then (Ok tt, mkWriter (wr_out w ++ b) (Some (n - len b)))
      else (Err (Io IoOther), mkWriter (wr_out w ++ take (Z.to_nat n) b) (Some 0))
  end.

Lemma read_exact_app n pre post allocs :
  len pre = n →
  read_exact n (mkReader (pre ++ post) allocs) = (Ok pre, mkReader post allocs).
Proof.
  intros <-. unfold read_exact. cbn [rd_input rd_allocs].
  rewrite len_app. pose proof (len_nonneg post).
  rewrite (proj2 (Z.leb_le _ _)) by lia.
  unfold len. rewrite Nat2Z.id, take_app_length, drop_app_length. done.
Qed.

Lemma read_exact_one b post allocs :
  read_exact 1 (mkReader (b :: post) allocs) = (Ok [b], mkReader post allocs).
Proof. by apply (read_exact_app 1 [b] post allocs). Qed.

(** Writing two buffers is writing their concatenation. *)
Lemma write_all_app a b w :
  opt_ok (λ n, 0 ≤ n) (wr_room w) →
  write_all (a ++ b) w =
    match write_all a w with
    | (Ok _, w) => write_all b w
    | r => r
    end.
Proof.
  intros Hroom. unfold write_all. pose proof (len_nonneg a). pose proof (len_nonneg b).
  destruct (wr_room w) as [n|]; cbn in *; [|by rewrite <- app_assoc].
  rewrite len_app.
  destruct (Z.leb_spec (len a) n); cbn.
  - destruct (Z.leb_spec (len a + len b) n), (Z.leb_spec (len b) (n - len a)); try lia.
    + rewrite app_assoc. do 3 f_equal. lia.
    + rewrite <- app_assoc. do 3 f_equal.
      rewrite take_app_ge by (unfold len in *; lia).
      do 2 f_equal. unfold len. lia.
  - destruct (Z.leb_spec (len a + len b) n); [lia|].
    rewrite take_app_le by (unfold len in *; lia). done.
Qed.

(** What [write_all] leaves behind: the whole buffer or a prefix of it. *)
Lemma write_all_out b w r w' :
  opt_ok (λ n, 0 ≤ n) (wr_room w) → write_all b w = (r, w') →
  opt_ok (λ n, 0 ≤ n) (wr_room w') ∧
  (r = Ok tt ∧ wr_out w' = wr_out w ++ b ∨
   r = Err (Io IoOther) ∧ ∃ n, wr_out w' = wr_out w ++ take n b).
Proof.
  unfold write_all. intros Hroom. destruct (wr_room w) as [n|]; cbn in *.
  - destruct (Z.leb_spec (len b) n); intros [= <- <-]; cbn; (split; [lia|]); eauto.
  - intros [= <- <-]. cbn. auto.
Qed.
