(* ===== verification/Varint.v ===== *)
(** [src/src/codec/varint.rs]: the variable-byte-integer remaining length
    (spec 2.2.3), read from a stream, decoded from a slice, and encoded. *)

From S2P Require Import Prelude.
From S2P Require Import Types.
From S2P Require Import Wire.

(** [for i in 0..4] with its state; the code after the loop is
    [unreachable!()]. *)
Fixpoint read_rl_loop (iters : nat) (i result multiplier : Z) : rd Z :=
  match iters with
  | O => rd_lift Panic
  | S iters =>
      buf ← read_exact 1;
      byte ← rd_lift (index buf 0);
      let result := result + Z.land byte 0x7F * multiplier in
      let multiplier := multiplier * 128 in
      if Z.land byte 0x80 =? 0 then mret result
      else if i =? 3 then rd_lift (Err (Codec MalformedLength))
      else read_rl_loop iters (i + 1) result multiplier
  end.

Definition read_remaining_length : rd Z := read_rl_loop 4 0 0 1.

(** [for (i, &byte) in data.iter().enumerate()]. *)
Fixpoint decode_rl_loop (data : bytes) (i result multiplier : Z) :
    mresult (option (Z * Z)) :=
  match data with
  | [] => Ok None
  | byte :: data =>
      let result := result + Z.land byte 0x7F * multiplier in
      let multiplier := multiplier * 128 in
      if Z.land byte 0x80 =? 0 then Ok (Some (result, i + 1))
      else if 3 <=? i then Err (Codec MalformedLength)
      else decode_rl_loop data (i + 1) result multiplier
  end.

Definition decode_remaining_length_from_slice (data : bytes) :
    mresult (option (Z * Z)) :=
  decode_rl_loop data 0 0 1.

(** The [loop] of [encode_remaining_length].  A [usize] has 64 bits, so ten
    groups of seven are enough (see [encode_rl_step]). *)
Fixpoint encode_rl_loop (fuel : nat) (value : Z) : bytes :=
  match fuel with
  | O => []
  | S fuel =>
      let byte := as_u8 (value mod 128) in
      let value := value / 128 in
      let byte := if 0 <? value then Z.lor byte 0x80 else byte in
      byte :: (if value =? 0 then [] else encode_rl_loop fuel value)
  end.

Definition encode_remaining_length (value : Z) : bytes := encode_rl_loop 10 value.

(** ** Seven-bit groups *)

Lemma low_group_bits x :
  0 ≤ x < 128 → Z.land x 0x7F = x ∧ Z.land x 0x80 = 0.
Proof.
  intros Hx.
  pose proof (range_check (λ x, (Z.land x 0x7F =? x) && (Z.land x 0x80 =? 0))
    128 eq_refl x Hx) as H. cbv beta in H. zify_bool. done.
Qed.

Lemma high_group_bits x :
  0 ≤ x < 128 →
  Z.land (Z.lor x 0x80) 0x7F = x ∧ Z.land (Z.lor x 0x80) 0x80 ≠ 0 ∧
  byte_ok (Z.lor x 0x80).
Proof.
  intros Hx.
  pose proof (range_check (λ x, (Z.land (Z.lor x 0x80) 0x7F =? x)
     && negb (Z.land (Z.lor x 0x80) 0x80 =? 0)
     && (0 <=? Z.lor x 0x80) && (Z.lor x 0x80 <? 256))
    128 eq_refl x Hx) as H. cbv beta in H.
  zify_bool. unfold byte_ok. repeat split; try done.
  by apply Z.eqb_neq, negb_true_iff.
Qed.

Lemma land_7F_range b : 0 ≤ Z.land b 0x7F < 128.
Proof.
  change 0x7F with (Z.ones 7). rewrite Z.land_ones by lia.
  apply Z.mod_pos_bound. lia.
Qed.

(** ** Encoding *)

(** More fuel than groups makes no difference. *)
Lemma encode_rl_loop_fuel f g v :
  0 ≤ v < 128 ^ Z.of_nat f → 0 ≤ v < 128 ^ Z.of_nat g →
  (0 < f)%nat → (0 < g)%nat →
  encode_rl_loop f v = encode_rl_loop g v.
Proof.
  revert g v. induction f as [|f IH]; intros [|g] v Hf Hg Hf0 Hg0; try lia.
  cbn [encode_rl_loop]. f_equal.
  destruct (v / 128 =? 0) eqn:E; [done|]. zify_bool.
  rewrite Nat2Z.inj_succ, Z.pow_succ_r in Hf, Hg by lia.
  assert (0 ≤ v / 128) by (apply Z.div_pos; lia).
  assert (v / 128 < 128 ^ Z.of_nat f) by (apply Z.div_lt_upper_bound; lia).
  assert (v / 128 < 128 ^ Z.of_nat g) by (apply Z.div_lt_upper_bound; lia).
  apply IH; try lia.
  - destruct f; [cbn in *; lia | lia].
  - destruct g; [cbn in *; lia | lia].
Qed.

(** The equation of the encoder on every [usize]: the fuel never runs out. *)
Lemma encode_rl_step v :
  0 ≤ v ≤ u64_max →
  encode_remaining_length v =
    if v <? 128 then [v]
    else Z.lor (v mod 128) 0x80 :: encode_remaining_length (v / 128).
Proof.
  unfold u64_max, encode_remaining_length. intros Hv.
  assert (Hm : 0 ≤ v mod 128 < 128) by (apply Z.mod_pos_bound; lia).
  change (encode_rl_loop 10 v) with
    ((if 0 <? v / 128 then Z.lor (as_u8 (v mod 128)) 0x80 else as_u8 (v mod 128)) ::
     (if v / 128 =? 0 then [] else encode_rl_loop 9 (v / 128))).
  rewrite as_u8_small by (unfold byte_ok; lia).
  destruct (Z.ltb_spec v 128) as [Hlt|Hge].
  - rewrite Z.div_small, Z.mod_small by lia. done.
  - assert (1 ≤ v / 128) by (apply Z.div_le_lower_bound; lia).
    assert (v / 128 < 128 ^ 9) by (apply Z.div_lt_upper_bound; lia).
    rewrite (proj2 (Z.ltb_lt _ _)) by lia.
    rewrite (proj2 (Z.eqb_neq _ _)) by lia.
    f_equal. apply encode_rl_loop_fuel; lia.
Qed.

Lemma encode_rl_bytes_ok v : 0 ≤ v ≤ u64_max → bytes_ok (encode_remaining_length v).
Proof.
  intros Hv. unfold encode_remaining_length.
  assert (Hn : 0 ≤ v) by lia. clear Hv. revert v Hn. generalize 10%nat as f.
  induction f as [|f IH]; intros v Hn; [constructor|]. cbn [encode_rl_loop].
  assert (Hm : 0 ≤ v mod 128 < 128) by (apply Z.mod_pos_bound; lia).
  rewrite as_u8_small by (unfold byte_ok; lia).
  constructor.
  - case_match; [apply high_group_bits; lia | unfold byte_ok; lia].
  - case_match; [constructor|]. apply IH, Z.div_pos; lia.
Qed.

(** How many bytes the length takes. *)
Lemma encode_rl_length v :
  0 ≤ v ≤ MQTT_SPEC_MAX_PACKET_SIZE →
  len (encode_remaining_length v) =
    if v <? 128 then 1 else if v <? 16384 then 2
    else if v <? 2097152 then 3 else 4.
Proof.
  unfold MQTT_SPEC_MAX_PACKET_SIZE. intros Hv.
  assert (Hu : ∀ d, 0 < d → 0 ≤ v / d ≤ u64_max).
  { intros d Hd. unfold u64_max. split; [apply Z.div_pos; lia|].
    apply Z.le_trans with v; [apply Z.div_le_upper_bound; nia | lia]. }
  rewrite encode_rl_step by (unfold u64_max; lia).
  destruct (Z.ltb_spec v 128); [done|]. rewrite len_cons.
  rewrite encode_rl_step by (apply Hu; lia).
  destruct (Z.ltb_spec v 16384).
  { rewrite (proj2 (Z.ltb_lt _ _)); [done|]. apply Z.div_lt_upper_bound; lia. }
  rewrite (proj2 (Z.ltb_ge _ _)) by (apply Z.div_le_lower_bound; lia).
  rewrite len_cons, Z.div_div by lia.
  rewrite encode_rl_step by (apply Hu; lia).
  destruct (Z.ltb_spec v 2097152).
  { rewrite (proj2 (Z.ltb_lt _ _)); [done|]. apply Z.div_lt_upper_bound; lia. }
  rewrite (proj2 (Z.ltb_ge _ _)) by (apply Z.div_le_lower_bound; lia).
  rewrite len_cons, Z.div_div by lia.
  rewrite encode_rl_step by (apply Hu; lia).
  rewrite (proj2 (Z.ltb_lt _ _)); [done|]. apply Z.div_lt_upper_bound; lia.
Qed.

(** ** Decoding *)

(** The state of both decoding loops at index [i]: [result + v * 128^i] is the
    value read when the remaining groups spell [v]. *)
Lemma decode_rl_loop_encode i v r rest :
  0 ≤ i ≤ 3 → 0 ≤ v < 128 ^ (4 - i) →
  decode_rl_loop (encode_remaining_length v ++ rest) i r (128 ^ i) =
    Ok (Some (r + v * 128 ^ i, i + len (encode_remaining_length v))).
Proof.
  intros Hi. remember (Z.to_nat (4 - i)) as n eqn:Hn.
  revert i v r Hi Hn. induction n as [|n IH]; intros i v r Hi Hn Hv; [lia|].
  assert (Hu : 0 ≤ v ≤ u64_max).
  { unfold u64_max. assert (128 ^ (4 - i) ≤ 128 ^ 4) by (apply Z.pow_le_mono_r; lia).
    lia. }
  rewrite (encode_rl_step v) by done.
  assert (Hm : 0 ≤ v mod 128 < 128) by (apply Z.mod_pos_bound; lia).
  destruct (Z.ltb_spec v 128) as [Hlt|Hge]; cbn [app decode_rl_loop].
  - destruct (low_group_bits v) as [-> ->]; [lia|]. rewrite Z.eqb_refl. done.
  - destruct (high_group_bits (v mod 128)) as (-> & Hc & _); [lia|].
    rewrite (proj2 (Z.eqb_neq _ _)) by done.
    assert (i ≠ 3) by (intros ->; cbn in Hv; lia).
    rewrite (proj2 (Z.leb_gt _ _)) by lia.
    replace (128 ^ i * 128) with (128 ^ (i + 1)) by (rewrite Z.pow_add_r; lia).
    rewrite IH; [| lia | lia |].
    + rewrite len_cons, Z.pow_add_r by lia. pose proof (Z.div_mod v 128).
      do 3 f_equal; [nia | lia].
    + split; [apply Z.div_pos; lia|]. apply Z.div_lt_upper_bound; [lia|].
      rewrite <- (Z.pow_succ_r 128) by lia.
      replace (Z.succ (4 - (i + 1))) with (4 - i) by lia. lia.
Qed.

Lemma decode_encode_rl v rest :
  0 ≤ v ≤ MQTT_SPEC_MAX_PACKET_SIZE →
  decode_remaining_length_from_slice (encode_remaining_length v ++ rest) =
    Ok (Some (v, len (encode_remaining_length v))).
Proof.
  intros Hv. unfold decode_remaining_length_from_slice.
  change 1 with (128 ^ 0) at 1.
  rewrite decode_rl_loop_encode by (unfold MQTT_SPEC_MAX_PACKET_SIZE in *; lia).
  do 3 f_equal; lia.
Qed.

(** A proper prefix of an encoded length asks for more bytes. *)
Lemma decode_rl_loop_prefix i v r k :
  0 ≤ i ≤ 3 → 0 ≤ v < 128 ^ (4 - i) →
  (k < length (encode_remaining_length v))%nat →
  decode_rl_loop (take k (encode_remaining_length v)) i r (128 ^ i) = Ok None.
Proof.
  intros Hi. remember (Z.to_nat (4 - i)) as n eqn:Hn.
  revert i v r k Hi Hn. induction n as [|n IH]; intros i v r k Hi Hn Hv Hk; [lia|].
  destruct k as [|k]; [done|].
  assert (Hu : 0 ≤ v ≤ u64_max).
  { unfold u64_max. assert (128 ^ (4 - i) ≤ 128 ^ 4) by (apply Z.pow_le_mono_r; lia).
    lia. }
  rewrite (encode_rl_step v) in Hk |- * by done.
  assert (Hm : 0 ≤ v mod 128 < 128) by (apply Z.mod_pos_bound; lia).
  destruct (Z.ltb_spec v 128) as [Hlt|Hge]; cbn [length take decode_rl_loop] in *; [lia|].
  destruct (high_group_bits (v mod 128)) as (-> & Hc & _); [lia|].
  rewrite (proj2 (Z.eqb_neq _ _)) by done.
  assert (i ≠ 3) by (intros ->; cbn in Hv; lia).
  rewrite (proj2 (Z.leb_gt _ _)) by lia.
  replace (128 ^ i * 128) with (128 ^ (i + 1)) by (rewrite Z.pow_add_r; lia).
  apply IH; try lia.
  split; [apply Z.div_pos; lia|]. apply Z.div_lt_upper_bound; [lia|].
  rewrite <- (Z.pow_succ_r 128) by lia.
  replace (Z.succ (4 - (i + 1))) with (4 - i) by lia. lia.
Qed.

Lemma decode_rl_prefix v k :
  0 ≤ v ≤ MQTT_SPEC_MAX_PACKET_SIZE →
  (k < length (encode_remaining_length v))%nat →
  decode_remaining_length_from_slice (take k (encode_remaining_length v)) = Ok None.
Proof.
  intros Hv Hk. unfold decode_remaining_length_from_slice. change 1 with (128 ^ 0).
  apply decode_rl_loop_prefix; unfold MQTT_SPEC_MAX_PACKET_SIZE in *; try lia; done.
Qed.

(** Whatever the input, the loop ends within four bytes and its value fits. *)
Lemma decode_rl_loop_bounds data i r :
  0 ≤ i ≤ 3 → 0 ≤ r < 128 ^ i →
  match decode_rl_loop data i r (128 ^ i) with
  | Ok (Some (n, k)) =>
      r ≤ n < 128 ^ 4 ∧ i < k ≤ 4 ∧ k ≤ i + len data
  | Ok None => i + len data < 4
  | Err e => e = Codec MalformedLength ∧ 4 ≤ i + len data
  | Panic | Loop => False
  end.
Proof.
  revert i r. induction data as [|b data IH]; intros i r Hi Hr; cbn [decode_rl_loop].
  { rewrite len_nil. lia. }
  pose proof (land_7F_range b) as Hb. pose proof (len_nonneg data).
  rewrite len_cons.
  assert (Hr' : r + Z.land b 0x7F * 128 ^ i < 128 ^ (i + 1))
    by (rewrite Z.pow_add_r by lia; nia).
  assert (Hp : 0 < 128 ^ i) by (apply Z.pow_pos_nonneg; lia).
  destruct (Z.land b 0x80 =? 0).
  - assert (128 ^ (i + 1) ≤ 128 ^ 4) by (apply Z.pow_le_mono_r; lia).
    repeat split; try lia; nia.
  - destruct (Z.leb_spec 3 i); [split; [done|lia]|].
    replace (128 ^ i * 128) with (128 ^ (i + 1)) by (rewrite Z.pow_add_r; lia).
    specialize (IH (i + 1) (r + Z.land b 0x7F * 128 ^ i) ltac:(lia) ltac:(nia)).
    destruct (decode_rl_loop _ _ _ _) as [[[n k]|]|e| |]; [nia | lia | | done..].
    destruct IH. split; [done | lia].
Qed.

Lemma decode_rl_bounds data :
  match decode_remaining_length_from_slice data with
  | Ok (Some (n, k)) =>
      0 ≤ n ≤ MQTT_SPEC_MAX_PACKET_SIZE ∧ 1 ≤ k ≤ 4 ∧ k ≤ len data
  | Ok None => len data < 4
  | Err e => e = Codec MalformedLength ∧ 4 ≤ len data
  | Panic | Loop => False
  end.
Proof.
  pose proof (decode_rl_loop_bounds data 0 0 ltac:(lia) ltac:(done)) as H.
  unfold decode_remaining_length_from_slice. change (128 ^ 0) with 1 in H.
  unfold MQTT_SPEC_MAX_PACKET_SIZE. change (128 ^ 4) with 268435456 in H.
  repeat case_match; try done; lia.
Qed.

(** The length field is refused exactly when its first four bytes all announce
    another one. *)
Lemma decode_rl_malformed data e :
  decode_remaining_length_from_slice data = Err e ↔
  e = Codec MalformedLength ∧
  ∃ b1 b2 b3 b4 rest, data = b1 :: b2 :: b3 :: b4 :: rest ∧
    Forall (λ b, Z.land b 0x80 ≠ 0) [b1; b2; b3; b4].
Proof.
  unfold decode_remaining_length_from_slice. split.
  - destruct data as [|b1 [|b2 [|b3 [|b4 rest]]]]; cbn; repeat case_match; try done.
    intros [= <-]. split; [done|]. exists b1, b2, b3, b4, rest. zify_bool.
    split; [done|]. by repeat constructor.
  - intros (-> & b1 & b2 & b3 & b4 & rest & -> & Hb). rewrite !Forall_cons in Hb.
    destruct Hb as (H1 & H2 & H3 & H4 & _). cbn [decode_rl_loop].
    by rewrite !(proj2 (Z.eqb_neq _ _)).
Qed.

Lemma decode_rl_loop_index data i r m n k :
  decode_rl_loop data i r m = Ok (Some (n, k)) → i < k.
Proof.
  revert i r m. induction data as [|b data IH]; intros i r m; cbn; [done|].
  repeat case_match; try done; [intros [= <- <-]; lia|]. intros H'%IH. lia.
Qed.

(** The stream reader is the slice decoder run on the bytes that will arrive:
    a length the slice decoder is still waiting for is an early end of the
    stream. *)
Lemma read_rl_loop_slice iters data allocs i r m :
  (0 < iters)%nat → i + Z.of_nat iters = 4 →
  read_rl_loop iters i r m (mkReader data allocs) =
    match decode_rl_loop data i r m with
    | Ok (Some (n, k)) => (Ok n, mkReader (drop (Z.to_nat (k - i)) data) allocs)
    | Ok None => (Err (Io IoUnexpectedEof), mkReader [] allocs)
    | Err e => (Err e, mkReader (drop iters data) allocs)
    | Panic => (Panic, mkReader [] allocs)
    | Loop => (Loop, mkReader [] allocs)
    end.
Proof.
  revert data i r m. induction iters as [|n IH]; intros data i r m Hpos Hi; [lia|].
  cbn [read_rl_loop]. destruct data as [|b data]; [done|].
  unfold mbind, rd_bind, mret, rd_ret.
  rewrite read_exact_one. change (rd_lift (index [b] 0)) with (rd_lift (Ok b)).
  cbn -[Z.land read_rl_loop].
  destruct (Z.land b 0x80 =? 0).
  { replace (i + 1 - i) with 1 by lia. done. }
  destruct (Z.leb_spec 3 i) as [H3|H3].
  - assert (n = 0%nat) as -> by lia. rewrite (proj2 (Z.eqb_eq _ _)) by lia. done.
  - rewrite (proj2 (Z.eqb_neq _ _)) by lia. rewrite IH by lia.
    destruct (decode_rl_loop _ _ _ _) as [[[v k]|]|e| |] eqn:Ek; try done.
    apply decode_rl_loop_index in Ek.
    replace (Z.to_nat (k - i)) with (S (Z.to_nat (k - (i + 1)))) by lia. done.
Qed.

Lemma read_rl_slice data allocs :
  read_remaining_length (mkReader data allocs) =
    match decode_remaining_length_from_slice data with
    | Ok (Some (n, k)) => (Ok n, mkReader (drop (Z.to_nat k) data) allocs)
    | Ok None => (Err (Io IoUnexpectedEof), mkReader [] allocs)
    | Err e => (Err e, mkReader (drop 4 data) allocs)
    | Panic => (Panic, mkReader [] allocs)
    | Loop => (Loop, mkReader [] allocs)
    end.
Proof.
  unfold read_remaining_length, decode_remaining_length_from_slice.
  rewrite read_rl_loop_slice by lia.
  repeat case_match; simplify_eq; try done. by rewrite Z.sub_0_r.
Qed.
