(* ===== verification/Primitives.v ===== *)
(** [src/src/codec/primitives.rs]: length-prefixed readers and writers.  The
    readers take the cursor and return the advanced one ([cursor: &mut usize]);
    they are described by what they do at a cursor that points into the body. *)

From S2P Require Import Prelude.
From S2P Require Import Utf8.
From S2P Require Import Types.

Definition read_u16 (body : bytes) (cursor : Z) : mresult (Z * Z) :=
  if len body <? cursor + 2 then Err (Codec UnexpectedEof)
  else
    hi ← index body cursor;
    lo ← index body (cursor + 1);
    Ok (from_be_bytes hi lo, cursor + 2).

Definition read_arc_str (body : bytes) (cursor : Z) : mresult (str * Z) :=
  '(n, cursor) ← read_u16 body cursor;
  if len body <? cursor + n then Err (Codec UnexpectedEof)
  else
    s ← slice body cursor (cursor + n);
    if utf8_valid s then Ok (s, cursor + n) else Err (Codec InvalidUtf8).

Definition read_bytes (body : bytes) (cursor : Z) : mresult (bytes * Z) :=
  '(n, cursor) ← read_u16 body cursor;
  if len body <? cursor + n then Err (Codec UnexpectedEof)
  else
    v ← slice body cursor (cursor + n);
    Ok (v, cursor + n).

Definition write_arc_str (out : bytes) (s : str) : bytes :=
  (out ++ to_be_bytes (as_u16 (len s))) ++ s.

Definition write_bytes (out : bytes) (b : bytes) : bytes :=
  (out ++ to_be_bytes (as_u16 (len b))) ++ b.

(** ** Reading at a cursor *)

(** The cursor [c] points into [body] and [s] is what is left to read. *)
Definition at_cursor (body : bytes) (c : Z) (s : bytes) : Prop :=
  0 ≤ c ≤ len body ∧ drop (Z.to_nat c) body = s.

Lemma at_cursor_start body : at_cursor body 0 body.
Proof. split; [pose proof (len_nonneg body); lia | done]. Qed.

Lemma at_cursor_len body c s : at_cursor body c s → len s = len body - c.
Proof. intros [Hc <-]. unfold len in *. rewrite length_drop. lia. Qed.

Lemma at_cursor_skip body c pre post :
  at_cursor body c (pre ++ post) → at_cursor body (c + len pre) post.
Proof.
  intros Hat. pose proof (at_cursor_len _ _ _ Hat) as Hl. destruct Hat as [Hc Hd].
  rewrite len_app in Hl. pose proof (len_nonneg pre). pose proof (len_nonneg post).
  split; [lia|]. rewrite Z2Nat.inj_add by lia.
  rewrite <- drop_drop, Hd. unfold len. rewrite Nat2Z.id. apply drop_app_length.
Qed.

Lemma at_cursor_index body c b s :
  at_cursor body c (b :: s) → index (E:=MqttError) body c = Ok b.
Proof.
  intros Hat. pose proof (at_cursor_len _ _ _ Hat) as Hl. destruct Hat as [Hc Hd].
  rewrite len_cons in Hl. pose proof (len_nonneg s).
  destruct (index_in (E:=MqttError) body c) as (b' & Hi & Hb); [lia|].
  rewrite <- (Nat.add_0_r (Z.to_nat c)), <- lookup_drop, Hd in Hb.
  injection Hb as <-. done.
Qed.

Lemma at_cursor_slice body c pre post n :
  at_cursor body c (pre ++ post) → len pre = n →
  slice (E:=MqttError) body c (c + n) = Ok pre.
Proof.
  intros Hat <-. pose proof (at_cursor_len _ _ _ Hat) as Hl. destruct Hat as [Hc Hd].
  rewrite len_app in Hl. pose proof (len_nonneg pre). pose proof (len_nonneg post).
  rewrite slice_in by lia. rewrite Hd.
  replace (Z.to_nat (c + len pre - c)) with (length pre) by (unfold len; lia).
  by rewrite take_app_length.
Qed.

(** ** What the readers return on the bytes the writers produce *)

Lemma read_u16_at body c v post :
  at_cursor body c (to_be_bytes v ++ post) → u16_ok v →
  read_u16 body c = Ok (v, c + 2) ∧ at_cursor body (c + 2) post.
Proof.
  intros Hat Hv. split; [|by apply (at_cursor_skip _ _ (to_be_bytes v))].
  pose proof (at_cursor_len _ _ _ Hat) as Hl.
  rewrite len_app, len_to_be_bytes in Hl. pose proof (len_nonneg post).
  unfold read_u16. rewrite (proj2 (Z.ltb_ge _ _)) by lia.
  cbn [to_be_bytes app] in Hat.
  rewrite (at_cursor_index _ _ _ _ Hat). cbn [mbind outcome_bind].
  apply (at_cursor_skip _ _ [_]) in Hat.
  change (len [as_u8 (v ≫ 8)]) with 1 in Hat.
  rewrite (at_cursor_index _ _ _ _ Hat). cbn [mbind outcome_bind].
  by rewrite from_to_be_bytes.
Qed.

Lemma read_arc_str_at body c s post :
  at_cursor body c (to_be_bytes (as_u16 (len s)) ++ s ++ post) →
  len s ≤ u16_max → utf8_valid s = true →
  read_arc_str body c = Ok (s, c + 2 + len s) ∧ at_cursor body (c + 2 + len s) post.
Proof.
  intros Hat Hs Hu. pose proof (len_nonneg s). pose proof (len_nonneg post).
  rewrite as_u16_small in Hat by (unfold u16_ok, u16_max in *; lia).
  apply read_u16_at in Hat as [Hr Hat]; [|unfold u16_ok, u16_max in *; lia].
  split; [|by apply at_cursor_skip].
  unfold read_arc_str. rewrite Hr. cbn [mbind outcome_bind].
  pose proof (at_cursor_len _ _ _ Hat) as Hl. rewrite len_app in Hl.
  rewrite (proj2 (Z.ltb_ge _ _)) by lia.
  rewrite (at_cursor_slice _ _ _ _ _ Hat eq_refl). cbn [mbind outcome_bind].
  by rewrite Hu.
Qed.

Lemma read_bytes_at body c b post :
  at_cursor body c (to_be_bytes (as_u16 (len b)) ++ b ++ post) →
  len b ≤ u16_max →
  read_bytes body c = Ok (b, c + 2 + len b) ∧ at_cursor body (c + 2 + len b) post.
Proof.
  intros Hat Hs. pose proof (len_nonneg b). pose proof (len_nonneg post).
  rewrite as_u16_small in Hat by (unfold u16_ok, u16_max in *; lia).
  apply read_u16_at in Hat as [Hr Hat]; [|unfold u16_ok, u16_max in *; lia].
  split; [|by apply at_cursor_skip].
  unfold read_bytes. rewrite Hr. cbn [mbind outcome_bind].
  pose proof (at_cursor_len _ _ _ Hat) as Hl. rewrite len_app in Hl.
  rewrite (proj2 (Z.ltb_ge _ _)) by lia.
  rewrite (at_cursor_slice _ _ _ _ _ Hat eq_refl). done.
Qed.

(** ** What the readers return on any bytes

    At a cursor inside the body a reader returns: a value and a cursor further
    on, still inside, or a codec error; it never panics. *)

Lemma index_byte_ok body i b :
  bytes_ok body → index (E:=MqttError) body i = Ok b → byte_ok b.
Proof.
  intros Hok Hi%index_Ok. unfold bytes_ok in Hok. rewrite Forall_lookup in Hok. eauto.
Qed.

Lemma slice_bytes_ok body i j s :
  bytes_ok body → slice (E:=MqttError) body i j = Ok s → bytes_ok s.
Proof.
  intros Hok. unfold slice. case_match; [|done]. intros [= <-].
  apply bytes_ok_take, bytes_ok_drop, Hok.
Qed.

Lemma read_u16_any body c :
  bytes_ok body → 0 ≤ c ≤ len body →
  match read_u16 body c with
  | Ok (v, c') => c' = c + 2 ∧ c' ≤ len body ∧ u16_ok v
  | Err e => e = Codec UnexpectedEof
  | Panic | Loop => False
  end.
Proof.
  intros Hok Hc. unfold read_u16. destruct (Z.ltb_spec (len body) (c + 2)); [done|].
  destruct (index_in (E:=MqttError) body c) as (hi & Hhi & _); [lia|].
  destruct (index_in (E:=MqttError) body (c + 1)) as (lo & Hlo & _); [lia|].
  rewrite Hhi, Hlo. cbn [mbind outcome_bind].
  split_and!; [done | lia |]. apply from_be_bytes_ok; eauto using index_byte_ok.
Qed.

Lemma read_arc_str_any body c :
  bytes_ok body → 0 ≤ c ≤ len body →
  match read_arc_str body c with
  | Ok (s, c') => c' = c + 2 + len s ∧ c' ≤ len body ∧ str_ok s ∧ len s ≤ u16_max
  | Err e => e = Codec UnexpectedEof ∨ e = Codec InvalidUtf8
  | Panic | Loop => False
  end.
Proof.
  intros Hok Hc. unfold read_arc_str. pose proof (read_u16_any body c Hok Hc) as Hr.
  destruct (read_u16 body c) as [[n c1]|e| |]; cbn [mbind outcome_bind]; try by auto.
  destruct Hr as (-> & Hle & Hn). unfold u16_ok in Hn.
  destruct (Z.ltb_spec (len body) (c + 2 + n)); [by auto|].
  pose proof (slice_in (E:=MqttError) body (c + 2) (c + 2 + n)) as Hs.
  rewrite Hs by lia. cbn [mbind outcome_bind].
  destruct (utf8_valid _) eqn:Hu; [|by auto].
  specialize (Hs ltac:(lia) ltac:(lia)).
  pose proof (slice_length _ _ _ _ Hs). pose proof (slice_bytes_ok _ _ _ _ Hok Hs).
  unfold u16_max, str_ok. split_and!; try done; lia.
Qed.

Lemma read_bytes_any body c :
  bytes_ok body → 0 ≤ c ≤ len body →
  match read_bytes body c with
  | Ok (b, c') => c' = c + 2 + len b ∧ c' ≤ len body ∧ bytes_ok b ∧ len b ≤ u16_max
  | Err e => e = Codec UnexpectedEof
  | Panic | Loop => False
  end.
Proof.
  intros Hok Hc. unfold read_bytes. pose proof (read_u16_any body c Hok Hc) as Hr.
  destruct (read_u16 body c) as [[n c1]|e| |]; cbn [mbind outcome_bind]; try by auto.
  destruct Hr as (-> & Hle & Hn). unfold u16_ok in Hn.
  destruct (Z.ltb_spec (len body) (c + 2 + n)); [by auto|].
  pose proof (slice_in (E:=MqttError) body (c + 2) (c + 2 + n)) as Hs.
  rewrite Hs by lia. cbn [mbind outcome_bind].
  specialize (Hs ltac:(lia) ltac:(lia)).
  pose proof (slice_length _ _ _ _ Hs). pose proof (slice_bytes_ok _ _ _ _ Hok Hs).
  unfold u16_max. split_and!; try done; lia.
Qed.

(** ** What the writers produce *)

Lemma write_arc_str_eq out s :
  write_arc_str out s = out ++ to_be_bytes (as_u16 (len s)) ++ s.
Proof. unfold write_arc_str. by rewrite app_assoc. Qed.

Lemma write_bytes_eq out b :
  write_bytes out b = out ++ to_be_bytes (as_u16 (len b)) ++ b.
Proof. unfold write_bytes. by rewrite app_assoc. Qed.
