(* ===== verification/Encode.v ===== *)
(** [src/src/codec/encode.rs]: packet encoders, [Packet] to wire bytes. *)

From S2P Require Import Prelude.
From S2P Require Import Types.
From S2P Require Import Varint.
From S2P Require Import Primitives.

(** The flags byte of CONNECT (the [flags |= ...] sequence). *)
Definition connect_flags (conn : ConnectPacket) : Z :=
  let flags := 0 in
  let flags :=
    if conn_clean_session conn then Z.lor flags ConnectFlags_CleanSession else flags in
  let flags :=
    match conn_will conn with
    | Some will =>
        let flags := Z.lor flags ConnectFlags_WillFlag in
        let flags := Z.lor flags
          (Z.land (as_u8 (qos_as_u8 (will_qos will) ≪ 3)) ConnectFlags_WillQoSMask) in
        if will_retain will then Z.lor flags ConnectFlags_WillRetain else flags
    | None => flags
    end in
  let flags :=
    match conn_username conn with
    | Some _ => Z.lor flags ConnectFlags_Username
    | None => flags
    end in
  match conn_password conn with
  | Some _ => Z.lor flags ConnectFlags_Password
  | None => flags
  end.

Definition connect_body (conn : ConnectPacket) : bytes :=
  let body := [] ++ [0x00; 0x04] ++ str_of "MQTT" in
  let body := body ++ [0x04] in
  let body := body ++ [connect_flags conn] in
  let body := body ++ to_be_bytes (conn_keep_alive conn) in
  let body := write_arc_str body (conn_client_id conn) in
  let body :=
    match conn_will conn with
    | Some will => write_bytes (write_arc_str body (will_topic will)) (will_payload will)
    | None => body
    end in
  let body :=
    match conn_username conn with
    | Some username => write_arc_str body username
    | None => body
    end in
  match conn_password conn with
  | Some password => write_bytes body password
  | None => body
  end.

Definition encode_connect (conn : ConnectPacket) : bytes :=
  let body := connect_body conn in
  [as_u8 (packet_type_as_u8 PacketType_Connect ≪ 4)]
    ++ encode_remaining_length (len body) ++ body.

Definition encode_connack (ack : ConnackPacket) : bytes :=
  [as_u8 (packet_type_as_u8 PacketType_Connack ≪ 4);
   0x02;
   if ack_session_present ack then 0x01 else 0x00;
   connack_as_u8 (ack_return_code ack)].

Definition validate_publish_for_encode (publish : PublishPacket) :
    outcome CodecError (option Z) :=
  let topic_length := len (pub_topic publish) in
  if u16_max <? topic_length then Err (CodecTopicTooLong topic_length u16_max)
  else if bool_decide (pub_qos publish = AtMostOnce) then Ok None
  else
    match pub_packet_id publish with
    | None => Err MissingPacketId
    | Some 0 => Err ZeroPacketId
    | Some packet_id => Ok (Some packet_id)
    end.

Definition pack_publish_flags (p : PublishPacket) : Z :=
  let flags := 0 in
  let flags := if pub_dup p then Z.lor flags FixedHeaderFlags_Dup else flags in
  let flags := if pub_retain p then Z.lor flags FixedHeaderFlags_Retain else flags in
  Z.lor flags (Z.land (as_u8 (qos_as_u8 (pub_qos p) ≪ 1)) FixedHeaderFlags_QoS).

Definition encode_publish (publish : PublishPacket) : outcome CodecError bytes :=
  packet_id ← validate_publish_for_encode publish;
  let topic_bytes := pub_topic publish in
  let body := to_be_bytes (as_u16 (len topic_bytes)) ++ topic_bytes in
  let body :=
    match packet_id with
    | Some packet_id => body ++ to_be_bytes packet_id
    | None => body
    end in
  let body := body ++ pub_payload publish in
  if MQTT_SPEC_MAX_PACKET_SIZE <? len body
  then Err (BodyTooLong (len body) MQTT_SPEC_MAX_PACKET_SIZE)
  else
    let flags := pack_publish_flags publish in
    Ok ([Z.lor (as_u8 (packet_type_as_u8 PacketType_Publish ≪ 4)) flags]
          ++ encode_remaining_length (len body) ++ body).

Definition subscribe_body (s : SubscribePacket) : bytes :=
  fold_left (λ body sub, write_arc_str body (ts_topic sub) ++ [qos_as_u8 (ts_qos sub)])
    (sub_subscriptions s) (to_be_bytes (sub_packet_id s)).

Definition encode_subscribe (s : SubscribePacket) : bytes :=
  let body := subscribe_body s in
  [Z.lor (as_u8 (packet_type_as_u8 PacketType_Subscribe ≪ 4)) 0x02]
    ++ encode_remaining_length (len body) ++ body.

Definition suback_body (s : SubackPacket) : bytes :=
  fold_left (λ body code, body ++ [suback_as_u8 code])
    (suback_return_codes s) (to_be_bytes (suback_packet_id s)).

Definition encode_suback (s : SubackPacket) : bytes :=
  let body := suback_body s in
  [as_u8 (packet_type_as_u8 PacketType_Suback ≪ 4)]
    ++ encode_remaining_length (len body) ++ body.

Definition unsubscribe_body (u : UnsubscribePacket) : bytes :=
  fold_left (λ body topic, write_arc_str body topic)
    (unsub_topics u) (to_be_bytes (unsub_packet_id u)).

Definition encode_unsubscribe (u : UnsubscribePacket) : bytes :=
  let body := unsubscribe_body u in
  [Z.lor (as_u8 (packet_type_as_u8 PacketType_Unsubscribe ≪ 4)) 0x02]
    ++ encode_remaining_length (len body) ++ body.
