(* ===== verification/Decode.v ===== *)
(** [src/src/codec/decode.rs]: packet-body parsers, wire bytes to [Packet].
    The loops of SUBSCRIBE and UNSUBSCRIBE advance the cursor by at least two
    bytes a turn, so the length of the body plus one is enough fuel; the lemmas
    [parse_*_any] show that [Loop] and [Panic] are never produced. *)

From S2P Require Import Prelude.
From S2P Require Import Utf8.
From S2P Require Import Types.
From S2P Require Import Primitives.

Definition require_empty_body (remaining : Z) : mresult unit :=
  if remaining =? 0 then Ok tt else Err (Codec (PayloadTooLong remaining 0)).

(** The optional parts of CONNECT: each is read when its flag is set. *)
Definition parse_connect_will (flags_byte connect_flags : Z) (body : bytes) (cursor : Z) :
    mresult (option WillPacket * Z) :=
  if flags_contains connect_flags ConnectFlags_WillFlag then
    '(topic, cursor) ← read_arc_str body cursor;
    '(payload, cursor) ← read_bytes body cursor;
    let will_qos_bits := Z.land flags_byte ConnectFlags_WillQoSMask ≫ 3 in
    qos ← ok_or (qos_from_u8 will_qos_bits) (Codec (QosInvalid will_qos_bits));
    let retain := flags_contains connect_flags ConnectFlags_WillRetain in
    Ok (Some (mkWillPacket topic payload qos retain), cursor)
  else Ok (None, cursor).

Definition parse_connect_username (connect_flags : Z) (body : bytes) (cursor : Z) :
    mresult (option str * Z) :=
  if flags_contains connect_flags ConnectFlags_Username then
    '(u, cursor) ← read_arc_str body cursor;
    Ok (Some u, cursor)
  else Ok (None, cursor).

Definition parse_connect_password (connect_flags : Z) (body : bytes) (cursor : Z) :
    mresult (option bytes * Z) :=
  if flags_contains connect_flags ConnectFlags_Password then
    '(p, cursor) ← read_bytes body cursor;
    Ok (Some p, cursor)
  else Ok (None, cursor).

Definition parse_connect (body : bytes) : mresult Packet :=
  if len body <? 10 then Err (Codec UnexpectedEof)
  else
    b0 ← index body 0;
    b1 ← index body 1;
    let proto_name_len := from_be_bytes b0 b1 in
    name ← slice body 2 6;
    if negb (proto_name_len =? 4) || negb (bool_decide (name = str_of "MQTT"))
    then Err (Protocol InvalidProtocolName)
    else
      level ← index body 6;
      if negb (level =? 0x04) then Err (Protocol (UnsupportedProtocolLevel level))
      else
        flags_byte ← index body 7;
        let connect_flags := flags_from_bits_truncate ConnectFlags_all flags_byte in
        k0 ← index body 8;
        k1 ← index body 9;
        let keep_alive := from_be_bytes k0 k1 in
        let cursor := 10 in
        '(client_id, cursor) ← read_arc_str body cursor;
        '(will, cursor) ← parse_connect_will flags_byte connect_flags body cursor;
        '(username, cursor) ← parse_connect_username connect_flags body cursor;
        '(password, cursor) ← parse_connect_password connect_flags body cursor;
        Ok (Packet_Connect (mkConnectPacket client_id
              (flags_contains connect_flags ConnectFlags_CleanSession)
              keep_alive username password will)).

Definition parse_connack (body : bytes) : mresult Packet :=
  if len body <? 2 then Err (Codec UnexpectedEof)
  else
    b0 ← index body 0;
    let session_present := negb (Z.land b0 0x01 =? 0) in
    b1 ← index body 1;
    return_code ← ok_or (connack_try_from b1) (Codec (InvalidPacketType b1));
    Ok (Packet_Connack (mkConnackPacket session_present return_code)).

Definition parse_publish (first : Z) (body : bytes) : mresult Packet :=
  if len body <? 2 then Err (Codec UnexpectedEof)
  else
    let raw_flags := Z.land first 0x0F in
    header_flags ← ok_or (flags_from_bits FixedHeaderFlags_all raw_flags)
                     (Codec ReservedFlagSet);
    let dup := flags_contains header_flags FixedHeaderFlags_Dup in
    let retain := flags_contains header_flags FixedHeaderFlags_Retain in
    let qos_bits := Z.land header_flags FixedHeaderFlags_QoS ≫ 1 in
    qos ← ok_or (qos_from_u8 qos_bits) (Codec (QosInvalid qos_bits));
    let cursor := 0 in
    '(topic, cursor) ← read_arc_str body cursor;
    '(packet_id, cursor) ←
      (if negb (bool_decide (qos = AtMostOnce)) then
         '(id, cursor) ← read_u16 body cursor;
         Ok (Some id, cursor)
       else Ok (None, cursor));
    payload ← slice_from body cursor;
    Ok (Packet_Publish (mkPublishPacket topic payload dup qos retain packet_id)).

Definition parse_ack_packet (first : Z) (packet_type : PacketType) (remaining : Z)
    (body : bytes) : mresult Packet :=
  if negb (remaining =? 2) then Err (Codec (PayloadTooLong remaining 2))
  else
    let flags := Z.land first 0x0F in
    let expected := if bool_decide (packet_type = PacketType_Pubrel) then 0x02 else 0x00 in
    if negb (flags =? expected) then Err (Codec ReservedFlagSet)
    else
      b0 ← index body 0;
      b1 ← index body 1;
      let id := from_be_bytes b0 b1 in
      Ok (match packet_type with
          | PacketType_Puback => Packet_Puback id
          | PacketType_Pubrec => Packet_Pubrec id
          | PacketType_Pubrel => Packet_Pubrel id
          | _ => Packet_Pubcomp id
          end).

Fixpoint parse_subscribe_loop (fuel : nat) (body : bytes) (cursor : Z)
    (subscriptions : list TopicSubscription) : mresult (list TopicSubscription) :=
  match fuel with
  | O => Loop
  | S fuel =>
      if cursor <? len body then
        '(topic, cursor) ← read_arc_str body cursor;
        if len body <=? cursor then Err (Codec UnexpectedEof)
        else
          qos_bits ← index body cursor;
          let cursor := cursor + 1 in
          qos ← ok_or (qos_from_u8 qos_bits) (Codec (QosInvalid qos_bits));
          parse_subscribe_loop fuel body cursor
            (subscriptions ++ [mkTopicSubscription topic qos])
      else Ok subscriptions
  end.

Definition parse_subscribe (body : bytes) : mresult Packet :=
  if len body <? 5 then Err (Codec UnexpectedEof)
  else
    let cursor := 0 in
    '(packet_id, cursor) ← read_u16 body cursor;
    subscriptions ← parse_subscribe_loop (S (length body)) body cursor [];
    Ok (Packet_Subscribe (mkSubscribePacket packet_id subscriptions)).

Definition parse_suback (body : bytes) : mresult Packet :=
  if len body <? 3 then Err (Codec UnexpectedEof)
  else
    b0 ← index body 0;
    b1 ← index body 1;
    let packet_id := from_be_bytes b0 b1 in
    rest ← slice_from body 2;
    return_codes ←
      mapM (λ b, ok_or (suback_from_u8 b) (Codec (InvalidPacketType b))) rest;
    Ok (Packet_Suback (mkSubackPacket packet_id return_codes)).

Fixpoint parse_unsubscribe_loop (fuel : nat) (body : bytes) (cursor : Z)
    (topics : list str) : mresult (list str) :=
  match fuel with
  | O => Loop
  | S fuel =>
      if cursor <? len body then
        '(topic, cursor) ← read_arc_str body cursor;
        parse_unsubscribe_loop fuel body cursor (topics ++ [topic])
      else Ok topics
  end.

Definition parse_unsubscribe (body : bytes) : mresult Packet :=
  if len body <? 4 then Err (Codec UnexpectedEof)
  else
    let cursor := 0 in
    '(packet_id, cursor) ← read_u16 body cursor;
    topics ← parse_unsubscribe_loop (S (length body)) body cursor [];
    Ok (Packet_Unsubscribe (mkUnsubscribePacket packet_id topics)).

Definition parse_unsuback (remaining : Z) (body : bytes) : mresult Packet :=
  if negb (remaining =? 2) then Err (Codec (PayloadTooLong remaining 2))
  else
    b0 ← index body 0;
    b1 ← index body 1;
    Ok (Packet_Unsuback (from_be_bytes b0 b1)).

Definition parse_packet (first : Z) (packet_type : PacketType) (remaining : Z)
    (body : bytes) : mresult Packet :=
  match packet_type with
  | PacketType_Connect => parse_connect body
  | PacketType_Connack => parse_connack body
  | PacketType_Publish => parse_publish first body
  | PacketType_Puback | PacketType_Pubrec | PacketType_Pubrel | PacketType_Pubcomp =>
      parse_ack_packet first packet_type remaining body
  | PacketType_Subscribe => parse_subscribe body
  | PacketType_Suback => parse_suback body
  | PacketType_Unsubscribe => parse_unsubscribe body
  | PacketType_Unsuback => parse_unsuback remaining body
  | PacketType_Pingreq => _ ← require_empty_body remaining; Ok Packet_Pingreq
  | PacketType_Pingresp => _ ← require_empty_body remaining; Ok Packet_Pingresp
  | PacketType_Disconnect => _ ← require_empty_body remaining; Ok Packet_Disconnect
  end.

(** ** What a received packet satisfies

    A field that was read from the wire fits its two-byte length prefix, the
    entry lists of SUBSCRIBE, SUBACK and UNSUBSCRIBE are not empty, a PUBLISH
    carries a packet id exactly above QoS 0, and the packet needs no more bytes
    than the body it came from. *)
Definition field_fits (s : bytes) : Prop := len s ≤ u16_max.
Definition field_size (s : bytes) : Z := 2 + len s.
Definition opt_size (o : option bytes) : Z :=
  match o with Some s => field_size s | None => 0 end.
Definition will_size (o : option WillPacket) : Z :=
  match o with
  | Some w => field_size (will_topic w) + field_size (will_payload w)
  | None => 0
  end.
Definition sum_size {A} (f : A → Z) (l : list A) : Z := foldr (λ a n, f a + n) 0 l.

Definition will_fits (w : WillPacket) : Prop :=
  field_fits (will_topic w) ∧ field_fits (will_payload w).

(** The length of the body of a packet. *)
Definition body_size (p : Packet) : Z :=
  match p with
  | Packet_Connect c =>
      10 + field_size (conn_client_id c) + will_size (conn_will c) +
      opt_size (conn_username c) + opt_size (conn_password c)
  | Packet_Publish p =>
      field_size (pub_topic p) + (if bool_decide (pub_qos p = AtMostOnce) then 0 else 2) +
      len (pub_payload p)
  | Packet_Connack _ | Packet_Puback _ | Packet_Pubrec _ | Packet_Pubrel _
  | Packet_Pubcomp _ | Packet_Unsuback _ => 2
  | Packet_Subscribe s =>
      2 + sum_size (λ t, field_size (ts_topic t) + 1) (sub_subscriptions s)
  | Packet_Suback s => 2 + len (suback_return_codes s)
  | Packet_Unsubscribe u => 2 + sum_size field_size (unsub_topics u)
  | Packet_Pingreq | Packet_Pingresp | Packet_Disconnect => 0
  end.

Definition fields_fit (p : Packet) : Prop :=
  match p with
  | Packet_Connect c =>
      field_fits (conn_client_id c) ∧ opt_ok will_fits (conn_will c) ∧
      opt_ok field_fits (conn_username c) ∧ opt_ok field_fits (conn_password c)
  | Packet_Publish p =>
      field_fits (pub_topic p) ∧ (pub_qos p ≠ AtMostOnce ↔ is_Some (pub_packet_id p))
  | Packet_Subscribe s =>
      sub_subscriptions s ≠ [] ∧
      Forall (λ t, field_fits (ts_topic t)) (sub_subscriptions s)
  | Packet_Suback s => suback_return_codes s ≠ []
  | Packet_Unsubscribe u => unsub_topics u ≠ [] ∧ Forall field_fits (unsub_topics u)
  | _ => True
  end.

(** A packet as a parser returns it for a body of [n] bytes. *)
Definition received (n : Z) (p : Packet) : Prop :=
  packet_ok p ∧ fields_fit p ∧ body_size p ≤ n.

(** The errors the parser of a packet type reports for a body of [n] bytes. *)
Definition field_error (e : MqttError) : Prop :=
  e = Codec UnexpectedEof ∨ e = Codec InvalidUtf8.

Definition body_error (t : PacketType) (n : Z) (e : MqttError) : Prop :=
  match t with
  | PacketType_Connect =>
      field_error e ∨ e = Codec (QosInvalid 3) ∨ e = Protocol InvalidProtocolName ∨
      ∃ level, level ≠ 4 ∧ e = Protocol (UnsupportedProtocolLevel level)
  | PacketType_Connack =>
      e = Codec UnexpectedEof ∨ ∃ b, 5 < b ∧ e = Codec (InvalidPacketType b)
  | PacketType_Publish => field_error e ∨ e = Codec (QosInvalid 3)
  | PacketType_Puback | PacketType_Pubrec | PacketType_Pubrel | PacketType_Pubcomp =>
      n ≠ 2 ∧ e = Codec (PayloadTooLong n 2) ∨ e = Codec ReservedFlagSet
  | PacketType_Subscribe => field_error e ∨ ∃ b, 2 < b ∧ e = Codec (QosInvalid b)
  | PacketType_Suback =>
      e = Codec UnexpectedEof ∨ ∃ b, 2 < b ∧ e = Codec (InvalidPacketType b)
  | PacketType_Unsubscribe => field_error e
  | PacketType_Unsuback => n ≠ 2 ∧ e = Codec (PayloadTooLong n 2)
  | PacketType_Pingreq | PacketType_Pingresp | PacketType_Disconnect =>
      n ≠ 0 ∧ e = Codec (PayloadTooLong n 0)
  end.

(** ** Total on every input

    [meets E P m]: [m] returns, with a value that satisfies [P] or an error that
    satisfies [E]. *)
Definition meets {A} (E : MqttError → Prop) (P : A → Prop) (m : mresult A) : Prop :=
  match m with Ok a => P a | Err e => E e | Panic | Loop => False end.

(** The same when the error does not matter. *)
Definition yields {A} (P : A → Prop) (m : mresult A) : Prop := meets (λ _, True) P m.

Lemma meets_mono {A} (E E' : MqttError → Prop) (P P' : A → Prop) m :
  meets E P m → (∀ e, E e → E' e) → (∀ a, P a → P' a) → meets E' P' m.
Proof. destruct m; cbn; auto. Qed.

Lemma meets_bind {A B} E (P : A → Prop) (Q : B → Prop) m (k : A → mresult B) :
  meets E P m → (∀ a, P a → meets E Q (k a)) → meets E Q (m ≫= k).
Proof. destruct m; cbn; auto. Qed.

Section calls.
Context (E : MqttError → Prop) (body : bytes).
Hypothesis Hok : bytes_ok body.

Lemma meets_index i :
  0 ≤ i < len body → meets E byte_ok (index body i).
Proof.
  intros Hi. destruct (index_in (E:=MqttError) body i Hi) as (b & Hb & _).
  rewrite Hb. cbn. eauto using index_byte_ok.
Qed.

Lemma meets_slice i j :
  0 ≤ i ≤ j → j ≤ len body →
  meets E (λ s, bytes_ok s ∧ len s = j - i) (slice body i j).
Proof.
  intros Hi Hj. destruct (slice body i j) eqn:Es; cbn.
  - eauto using slice_bytes_ok, slice_length.
  - by rewrite slice_in in Es by done.
  - by rewrite slice_in in Es by done.
  - by rewrite slice_in in Es by done.
Qed.

Lemma meets_ok_or {A} (P : A → Prop) o e :
  (o = None → E e) → (∀ a, o = Some a → P a) → meets E P (ok_or o e).
Proof. destruct o; cbn; auto. Qed.

Lemma meets_read_u16 c :
  0 ≤ c ≤ len body → E (Codec UnexpectedEof) →
  meets E (λ '(v, c'), u16_ok v ∧ c' = c + 2 ∧ c' ≤ len body) (read_u16 body c).
Proof.
  intros Hc HE. pose proof (read_u16_any body c Hok Hc) as H.
  destruct (read_u16 body c) as [[]|e| |]; cbn in *; [by destruct H as (-> & ? & ?) | by subst e | done..].
Qed.

Lemma meets_read_arc_str c :
  0 ≤ c ≤ len body → E (Codec UnexpectedEof) → E (Codec InvalidUtf8) →
  meets E (λ '(s, c'), str_ok s ∧ field_fits s ∧ c' = c + field_size s ∧ 0 ≤ len s ∧
    c' ≤ len body) (read_arc_str body c).
Proof.
  intros Hc H1 H2. pose proof (read_arc_str_any body c Hok Hc) as H.
  destruct (read_arc_str body c) as [[s c']|e| |]; cbn in *; try done;
    [|by destruct H as [-> | ->]].
  pose proof (len_nonneg s). unfold field_size. destruct H as (-> & ? & ? & ?).
  split_and!; auto; lia.
Qed.

Lemma meets_read_bytes c :
  0 ≤ c ≤ len body → E (Codec UnexpectedEof) →
  meets E (λ '(s, c'), bytes_ok s ∧ field_fits s ∧ c' = c + field_size s ∧ 0 ≤ len s ∧
    c' ≤ len body) (read_bytes body c).
Proof.
  intros Hc H1. pose proof (read_bytes_any body c Hok Hc) as H.
  destruct (read_bytes body c) as [[s c']|e| |]; cbn in *; try done; [|by subst e].
  pose proof (len_nonneg s). unfold field_size. destruct H as (-> & ? & ? & ?).
  split_and!; auto; lia.
Qed.
End calls.

(** One step through a parser: the property of the first call, then what is
    done with its result. *)
Ltac meets_error := cbn [body_error]; unfold field_error; auto 4.
Ltac meets_call :=
  lazymatch goal with
  | |- meets _ _ (index _ _) =>
      eapply meets_index; [assumption | unfold field_size in *; lia]
  | |- meets _ _ (slice _ _ _) =>
      eapply meets_slice; [assumption | unfold field_size in *; lia ..]
  | |- meets _ _ (read_u16 _ _) =>
      eapply meets_read_u16; [assumption | unfold field_size in *; lia | meets_error]
  | |- meets _ _ (read_arc_str _ _) =>
      eapply meets_read_arc_str;
        [assumption | unfold field_size in *; lia | meets_error | meets_error]
  | |- meets _ _ (read_bytes _ _) =>
      eapply meets_read_bytes; [assumption | unfold field_size in *; lia | meets_error]
  end.
Ltac meets_step :=
  cbv zeta beta;
  match goal with
  | |- meets _ _ (Err _) => hnf
  | |- meets _ _ (if ?b then _ else _) => destruct b eqn:?; zify_bool
  | |- meets _ _ (mbind _ _) =>
      eapply meets_bind; [meets_call |];
      cbv beta; try intros [? ?]; intros; destruct_and?
  end.

(** ** Bits *)

(** A two-bit QoS field has one illegal value. *)
Lemma qos_bits_illegal bits : 0 ≤ bits < 4 → qos_from_u8 bits = None → bits = 3.
Proof.
  intros Hb. assert (bits = 0 ∨ bits = 1 ∨ bits = 2 ∨ bits = 3) as Hc by lia.
  by destruct Hc as [->|[->|[->| ->]]].
Qed.

Lemma land_shiftr_range x m k n :
  0 ≤ m → m < n * 2 ^ k → 0 ≤ k → 0 ≤ Z.land x m ≫ k < n.
Proof.
  intros Hm Hn Hk.
  assert (0 ≤ Z.land x m) as H0 by (apply Z.land_nonneg; by right).
  assert (Z.land x m ≤ m) as H1.
  { rewrite Z.land_comm. apply Z.ldiff_le; [done|].
    apply Z.bits_inj'. intros i _. rewrite Z.ldiff_spec, !Z.land_spec, Z.bits_0.
    by destruct (Z.testbit m i), (Z.testbit x i). }
  rewrite Z.shiftr_div_pow2 by done. pose proof (Z.pow_pos_nonneg 2 k).
  split; [apply Z.div_pos; lia | apply Z.div_lt_upper_bound; lia].
Qed.

(** Every value of the four flag bits of PUBLISH names flags only. *)
Lemma publish_flags_known first :
  flags_from_bits FixedHeaderFlags_all (Z.land first 0x0F) = Some (Z.land first 0x0F).
Proof.
  unfold flags_from_bits. change FixedHeaderFlags_all with 0x0F.
  by rewrite <- Z.land_assoc, Z.land_0_r.
Qed.

(** ** The parsers *)

Lemma qos_from_u8_None v : 0 ≤ v → qos_from_u8 v = None → 2 < v.
Proof.
  intros Hv Hq. destruct (decide (v = 0 ∨ v = 1 ∨ v = 2)) as [[->|[->| ->]]|]; try done. lia.
Qed.

Lemma suback_from_u8_None v : 0 ≤ v → suback_from_u8 v = None → 2 < v.
Proof.
  intros Hv Hq. destruct (decide (v = 0 ∨ v = 1 ∨ v = 2)) as [[->|[->| ->]]|]; try done. lia.
Qed.

Lemma connack_try_from_None v : 0 ≤ v → connack_try_from v = None → 5 < v.
Proof.
  intros Hv Hq. destruct (decide (v = 0 ∨ v = 1 ∨ v = 2 ∨ v = 3 ∨ v = 4 ∨ v = 5))
    as [[->|[->|[->|[->|[->| ->]]]]]|]; try done. lia.
Qed.

Lemma sum_size_app {A} (f : A → Z) l a : sum_size f (l ++ [a]) = sum_size f l + f a.
Proof. unfold sum_size. rewrite foldr_app. cbn. induction l as [|b l IH]; cbn; lia. Qed.

Lemma parse_connack_any body :
  bytes_ok body →
  meets (body_error PacketType_Connack (len body)) (received (len body)) (parse_connack body).
Proof.
  intros Hok. unfold parse_connack. repeat meets_step; [by left|].
  eapply meets_bind with (P := λ _, True).
  - apply meets_ok_or; [|done]. intros Hn. right. unfold byte_ok in *.
    eexists. split; [|done]. apply connack_try_from_None; [lia | done].
  - intros code _. by repeat split.
Qed.

Lemma parse_unsuback_any body :
  bytes_ok body →
  meets (body_error PacketType_Unsuback (len body)) (received (len body))
    (parse_unsuback (len body) body).
Proof.
  intros Hok. unfold parse_unsuback. destruct (Z.eqb_spec (len body) 2); [|by split].
  cbn [negb]. repeat meets_step. split_and!; [by apply from_be_bytes_ok | done | cbn [body_size]; lia].
Qed.

Lemma parse_ack_packet_any first t body :
  bytes_ok body →
  t = PacketType_Puback ∨ t = PacketType_Pubrec ∨ t = PacketType_Pubrel ∨
    t = PacketType_Pubcomp →
  meets (body_error t (len body)) (received (len body))
    (parse_ack_packet first t (len body) body).
Proof.
  intros Hok Ht. unfold parse_ack_packet. destruct (Z.eqb_spec (len body) 2) as [Hl|Hl].
  2:{ destruct Ht as [->|[->|[->| ->]]]; by left. }
  cbn [negb]. repeat meets_step; [destruct Ht as [->|[->|[->| ->]]]; by right|].
  pose proof (from_be_bytes_ok a a0 ltac:(done) ltac:(done)) as Hid.
  destruct Ht as [->|[->|[->| ->]]]; (split_and!; [done | done | cbn [body_size]; lia]).
Qed.

Lemma parse_suback_any body :
  bytes_ok body →
  meets (body_error PacketType_Suback (len body)) (received (len body)) (parse_suback body).
Proof.
  intros Hok. unfold parse_suback, slice_from. repeat meets_step; [by left|].
  eapply meets_bind with (P := λ codes, len codes = len a1).
  - clear -H2. induction a1 as [|b rest IH]; [done|].
    apply Forall_cons in H2 as [Hb Hrest]. cbn [mapM].
    eapply meets_bind with (P := λ _, True).
    { apply meets_ok_or; [|done]. intros Hn. right. unfold byte_ok in Hb.
      eexists. split; [|done]. apply suback_from_u8_None; [lia | done]. }
    intros c _. eapply meets_bind; [by apply IH|]. intros codes Hc.
    change (len (c :: codes) = len (b :: rest)). rewrite !len_cons, Hc. done.
  - intros codes Hc. split_and!; [by apply from_be_bytes_ok | | cbn [body_size suback_return_codes]; lia].
    cbn. intros ->. change (len (@nil SubackCode)) with 0 in Hc. lia.
Qed.

Lemma parse_publish_any first body :
  bytes_ok body →
  meets (body_error PacketType_Publish (len body)) (received (len body))
    (parse_publish first body).
Proof.
  intros Hok. unfold parse_publish, slice_from. rewrite publish_flags_known.
  cbn [ok_or mbind outcome_bind]. meets_step; [left; by left|].
  set (bits := Z.land _ _ ≫ 1). cbv zeta.
  eapply meets_bind with (P := λ _, True).
  { apply meets_ok_or; [|done]. intros Hn. right. do 2 f_equal. apply qos_bits_illegal; [|done].
    apply land_shiftr_range; vm_compute; done. }
  intros q _. meets_step.
  eapply meets_bind with (P := λ '(id, c), opt_ok u16_ok id ∧
    (q ≠ AtMostOnce ↔ is_Some id) ∧
    c = z + (if bool_decide (q = AtMostOnce) then 0 else 2) ∧ c ≤ len body).
  { case_bool_decide as Hq; cbn [negb]; repeat meets_step; cbn; split_and!; auto; try lia.
    - split; [done|]. by intros [? ?].
    - by split. }
  intros [id c] (Hid & Hqi & Hc & Hl).
  eapply meets_bind; [apply meets_slice; [done | | lia]|].
  { unfold field_size in *. case_bool_decide; lia. }
  intros payload [Hp Hpl]. split_and!; [by split_and! | by split_and! |]. cbn.
  unfold field_size in *. lia.
Qed.

Lemma parse_subscribe_loop_any fuel body c subs :
  bytes_ok body → 2 ≤ c ≤ len body → len body - c < Z.of_nat fuel →
  Forall (λ t, str_ok (ts_topic t)) subs → Forall (λ t, field_fits (ts_topic t)) subs →
  2 + sum_size (λ t, field_size (ts_topic t) + 1) subs = c →
  (subs = [] → c < len body) →
  meets (body_error PacketType_Subscribe (len body))
    (λ l, l ≠ [] ∧ Forall (λ t, str_ok (ts_topic t)) l ∧
       Forall (λ t, field_fits (ts_topic t)) l ∧
       2 + sum_size (λ t, field_size (ts_topic t) + 1) l ≤ len body)
    (parse_subscribe_loop fuel body c subs).
Proof.
  revert c subs. induction fuel as [|fuel IH]; intros c subs Hok Hc Hf Hs Hfit Hsum Hne; [lia|].
  cbn [parse_subscribe_loop]. repeat meets_step.
  - by left; left.
  - eapply meets_bind with (P := λ _, True).
    { apply meets_ok_or; [|done]. intros Hn. right. unfold byte_ok in *.
      eexists. split; [|done]. apply qos_from_u8_None; [lia | done]. }
    intros q _. unfold field_size in *. apply IH; try done; try lia.
    + apply Forall_app. split; [done|]. by constructor.
    + apply Forall_app. split; [done|]. by constructor.
    + rewrite sum_size_app. cbn. lia.
    + by destruct subs.
  - split_and!; [|done | done | lia]. intros ->. specialize (Hne eq_refl). lia.
Qed.

Lemma parse_subscribe_any body :
  bytes_ok body →
  meets (body_error PacketType_Subscribe (len body)) (received (len body))
    (parse_subscribe body).
Proof.
  intros Hok. unfold parse_subscribe. repeat meets_step; [by left; left|].
  eapply meets_bind; [apply parse_subscribe_loop_any; try done; unfold len in *; lia|].
  intros subs (? & ? & ? & ?). by split_and!.
Qed.

Lemma parse_unsubscribe_loop_any fuel body c topics :
  bytes_ok body → 2 ≤ c ≤ len body → len body - c < Z.of_nat fuel →
  Forall str_ok topics → Forall field_fits topics → 2 + sum_size field_size topics = c →
  (topics = [] → c < len body) →
  meets (body_error PacketType_Unsubscribe (len body))
    (λ l, l ≠ [] ∧ Forall str_ok l ∧ Forall field_fits l ∧ 2 + sum_size field_size l ≤ len body)
    (parse_unsubscribe_loop fuel body c topics).
Proof.
  revert c topics. induction fuel as [|fuel IH]; intros c topics Hok Hc Hf Hs Hfit Hsum Hne; [lia|].
  cbn [parse_unsubscribe_loop]. repeat meets_step.
  - unfold field_size in *. apply IH; try done; try lia.
    + apply Forall_app. split; [done|]. by constructor.
    + apply Forall_app. split; [done|]. by constructor.
    + rewrite sum_size_app. lia.
    + by destruct topics.
  - split_and!; [|done | done | lia]. intros ->. specialize (Hne eq_refl). lia.
Qed.

Lemma parse_unsubscribe_any body :
  bytes_ok body →
  meets (body_error PacketType_Unsubscribe (len body)) (received (len body))
    (parse_unsubscribe body).
Proof.
  intros Hok. unfold parse_unsubscribe. repeat meets_step; [by left|].
  eapply meets_bind; [apply parse_unsubscribe_loop_any; try done; unfold len in *; lia|].
  intros topics (? & ? & ? & ?). by split_and!.
Qed.

(** The optional parts of CONNECT: what each returns, and where it leaves the
    cursor. *)
Section connect.
Context (body : bytes) (flags c : Z).
Hypothesis Hok : bytes_ok body.

Lemma parse_connect_will_any flags_byte :
  0 ≤ c ≤ len body →
  meets (body_error PacketType_Connect (len body))
    (λ '(w, c'), opt_ok will_ok w ∧ opt_ok will_fits w ∧ c' = c + will_size w ∧
    c ≤ c' ≤ len body) (parse_connect_will flags_byte flags body c).
Proof.
  intros Hc. unfold parse_connect_will. destruct (flags_contains _ _); [|cbn; split_and!; auto; lia].
  repeat meets_step. set (bits := _ ≫ 3).
  eapply meets_bind with (P := λ _, True).
  { apply meets_ok_or; [|done]. intros Hn. right; left. do 2 f_equal. apply qos_bits_illegal; [|done].
    apply land_shiftr_range; vm_compute; done. }
  intros q _. cbn. unfold will_ok, will_fits, field_size in *. cbn. split_and!; auto; lia.
Qed.

Lemma parse_connect_username_any :
  0 ≤ c ≤ len body →
  meets (body_error PacketType_Connect (len body))
    (λ '(u, c'), opt_ok str_ok u ∧ opt_ok field_fits u ∧ c' = c + opt_size u ∧
    c ≤ c' ≤ len body) (parse_connect_username flags body c).
Proof.
  intros Hc. unfold parse_connect_username. destruct (flags_contains _ _); repeat meets_step; cbn; unfold field_size in *;
    split_and!; auto; lia.
Qed.

Lemma parse_connect_password_any :
  0 ≤ c ≤ len body →
  meets (body_error PacketType_Connect (len body))
    (λ '(u, c'), opt_ok bytes_ok u ∧ opt_ok field_fits u ∧ c' = c + opt_size u ∧
    c ≤ c' ≤ len body) (parse_connect_password flags body c).
Proof.
  intros Hc. unfold parse_connect_password. destruct (flags_contains _ _); repeat meets_step; cbn; unfold field_size in *;
    split_and!; auto; lia.
Qed.
End connect.

Lemma parse_connect_any body :
  bytes_ok body →
  meets (body_error PacketType_Connect (len body)) (received (len body)) (parse_connect body).
Proof.
  intros Hok. unfold parse_connect. repeat meets_step;
    [by left; left | by right; right; left | |].
  { do 3 right. eexists. split; [|done]. by apply Z.eqb_neq, negb_true_iff. }
  eapply meets_bind; [apply parse_connect_will_any; [done | unfold field_size in *; lia]|].
  intros [w c1] (? & ? & ? & ?). cbv beta.
  eapply meets_bind; [apply parse_connect_username_any; [done | unfold field_size in *; lia]|].
  intros [u c2] (? & ? & ? & ?). cbv beta.
  eapply meets_bind; [apply parse_connect_password_any; [done | unfold field_size in *; lia]|].
  intros [p c3] (? & ? & ? & ?). split_and!.
  - unfold packet_ok, connect_ok. cbn. split_and!; auto using from_be_bytes_ok.
  - by split_and!.
  - cbn. lia.
Qed.

(** Every body parser returns: a well-typed packet that fits the body it was read
    from, or an error of its own. *)
Lemma parse_packet_any first t body :
  bytes_ok body →
  meets (body_error t (len body)) (received (len body)) (parse_packet first t (len body) body).
Proof.
  intros Hok. destruct t; cbn [parse_packet];
    auto 6 using parse_connect_any, parse_connack_any, parse_publish_any,
      parse_ack_packet_any, parse_subscribe_any, parse_suback_any,
      parse_unsubscribe_any, parse_unsuback_any.
  all: unfold require_empty_body; destruct (Z.eqb_spec (len body) 0) as [Hl|Hl];
    [|by split]; cbn; (split_and!; [done | done | cbn; lia]).
Qed.
