(* ===== verification/Codec.v ===== *)
(** [src/src/codec/mod.rs]: the framing layer.  [read_packet] reads one packet
    from a stream, [decode_packet_from_bytes] takes one from a buffer,
    [encode_packet], [write_packet] and [write_publish_packet] go the other
    way.  The lemmas describe each of them by the fixed header it meets; the
    theorems on whole packets are in [Roundtrip]. *)

From S2P Require Import Prelude.
From S2P Require Import Types.
From S2P Require Import Safety.
From S2P Require Import Wire.
From S2P Require Import Varint.
From S2P Require Import Primitives.
From S2P Require Import Encode.
From S2P Require Import Decode.

Definition read_packet (max_size : Z) : rd Packet :=
  header_byte ← read_exact 1;
  first ← rd_lift (index header_byte 0);
  let raw_type := first ≫ 4 in
  packet_type ← rd_lift (ok_or (packet_type_try_from raw_type)
                           (Codec (InvalidPacketType raw_type)));
  remaining ← read_remaining_length;
  if max_size <? remaining
  then rd_lift (Err (Protocol (PacketTooLarge remaining max_size)))
  else
    _ ← alloc remaining;
    body ← read_exact remaining;
    rd_lift (parse_packet first packet_type remaining body).

(** The buffer is returned as the call leaves it: [split_to] removes the packet
    before its body is parsed. *)
Definition decode_packet_from_bytes (buf : bytes) (max_size : Z) :
    mresult (option Packet) * bytes :=
  if len buf <? 2 then (Ok None, buf)
  else
    match index buf 0 with
    | Ok first =>
        let raw_type := first ≫ 4 in
        match packet_type_try_from raw_type with
        | None => (Err (Codec (InvalidPacketType raw_type)), buf)
        | Some packet_type =>
            match (tail ← slice_from buf 1; decode_remaining_length_from_slice tail) with
            | Ok None => (Ok None, buf)
            | Ok (Some (remaining, rl_bytes)) =>
                if max_size <? remaining
                then (Err (Protocol (PacketTooLarge remaining max_size)), buf)
                else
                  let header_len := 1 + rl_bytes in
                  let total := header_len + remaining in
                  if len buf <? total then (Ok None, buf)
                  else
                    let packet_bytes := take (Z.to_nat total) buf in
                    let buf := drop (Z.to_nat total) buf in
                    (body ← slice_from packet_bytes header_len;
                     packet ← parse_packet first packet_type remaining body;
                     Ok (Some packet), buf)
            | Err e => (Err e, buf)
            | Panic => (Panic, buf)
            | Loop => (Loop, buf)
            end
        end
    | Err e => (Err e, buf)
    | Panic => (Panic, buf)
    | Loop => (Loop, buf)
    end.

(** The four-byte packets that carry only a packet id, high byte first. *)
Definition encode_id_packet (b id : Z) : bytes :=
  [b; 0x02; as_u8 (id ≫ 8); as_u8 (Z.land id 0xFF)].

Definition encode_packet (packet : Packet) : outcome CodecError bytes :=
  match packet with
  | Packet_Connect connect => Ok (encode_connect connect)
  | Packet_Connack connack => Ok (encode_connack connack)
  | Packet_Publish publish => encode_publish publish
  | Packet_Puback id => Ok (encode_id_packet 0x40 id)
  | Packet_Pubrec id => Ok (encode_id_packet 0x50 id)
  | Packet_Pubrel id => Ok (encode_id_packet 0x62 id)
  | Packet_Pubcomp id => Ok (encode_id_packet 0x70 id)
  | Packet_Subscribe subscribe => Ok (encode_subscribe subscribe)
  | Packet_Suback suback => Ok (encode_suback suback)
  | Packet_Unsubscribe unsubscribe => Ok (encode_unsubscribe unsubscribe)
  | Packet_Unsuback id => Ok (encode_id_packet 0xB0 id)
  | Packet_Pingreq => Ok [0xC0; 0x00]
  | Packet_Pingresp => Ok [0xD0; 0x00]
  | Packet_Disconnect => Ok [0xE0; 0x00]
  end.

Definition write_packet (packet : Packet) (w : writer) : mresult unit * writer :=
  match map_err Codec (encode_packet packet) with
  | Ok buf => write_all buf w
  | Err e => (Err e, w)
  | Panic => (Panic, w)
  | Loop => (Loop, w)
  end.

Definition write_publish_packet (packet : PublishPacket) (w : writer) :
    mresult unit * writer :=
  match map_err Codec (validate_publish_for_encode packet) with
  | Ok packet_id =>
      let topic_bytes := pub_topic packet in
      let var_header_len := 2 + len topic_bytes in
      let var_header_len :=
        match packet_id with Some _ => var_header_len + 2 | None => var_header_len end in
      let body_len := var_header_len + len (pub_payload packet) in
      if MQTT_SPEC_MAX_PACKET_SIZE <? body_len
      then (Err (Codec (BodyTooLong body_len MQTT_SPEC_MAX_PACKET_SIZE)), w)
      else
        let flags := pack_publish_flags packet in
        let header := [Z.lor (as_u8 (packet_type_as_u8 PacketType_Publish ≪ 4)) flags] in
        let header := header ++ encode_remaining_length body_len in
        let header := header ++ to_be_bytes (as_u16 (len topic_bytes)) in
        let header := header ++ topic_bytes in
        let header :=
          match packet_id with
          | Some packet_id => header ++ to_be_bytes packet_id
          | None => header
          end in
        match write_all header w with
        | (Ok _, w) => write_all (pub_payload packet) w
        | r => r
        end
  | Err e => (Err e, w)
  | Panic => (Panic, w)
  | Loop => (Loop, w)
  end.

(** [impl Message for Packet]. *)
Definition message_encode (packet : Packet) (buf : bytes) : mresult unit * bytes :=
  match map_err Codec (encode_packet packet) with
  | Ok b => (Ok tt, buf ++ b)
  | Err e => (Err e, buf)
  | Panic => (Panic, buf)
  | Loop => (Loop, buf)
  end.

Definition message_decode (buf : bytes) : mresult (option Packet) * bytes :=
  decode_packet_from_bytes buf (max_packet_size safety_new).

(** ** Framing *)

(** A frame: the first byte, the remaining length and the body. *)
Definition frame (first : Z) (body : bytes) : bytes :=
  [first] ++ encode_remaining_length (len body) ++ body.

Definition lift_some {A} (m : mresult A) : mresult (option A) :=
  a ← m; Ok (Some a).

(** The buffered decoder on a buffer that starts with a complete frame parses
    the body and consumes the frame, whatever follows. *)
Lemma decode_frame first t body rest max_size :
  packet_type_try_from (first ≫ 4) = Some t →
  len body ≤ max_size → len body ≤ MQTT_SPEC_MAX_PACKET_SIZE →
  decode_packet_from_bytes (frame first body ++ rest) max_size =
    (lift_some (parse_packet first t (len body) body), rest).
Proof.
  intros Ht Hmax Hspec. pose proof (len_nonneg body). pose proof (len_nonneg rest).
  unfold frame. set (rl := encode_remaining_length (len body)).
  pose proof (decode_encode_rl (len body) (body ++ rest) ltac:(lia)) as Hd.
  fold rl in Hd.
  pose proof (decode_rl_bounds (rl ++ body ++ rest)) as Hb. rewrite Hd in Hb.
  assert (Hl : len (([first] ++ rl ++ body) ++ rest) = 1 + len rl + len body + len rest)
    by (autorewrite with mqtt_len; lia).
  unfold decode_packet_from_bytes. rewrite Hl.
  rewrite (proj2 (Z.ltb_ge _ _)) by lia.
  change (index (([first] ++ rl ++ body) ++ rest) 0) with (Ok (E:=MqttError) first).
  cbv beta iota zeta. rewrite Ht, slice_from_in by lia.
  change (drop (Z.to_nat 1) (([first] ++ rl ++ body) ++ rest))
    with ((rl ++ body) ++ rest).
  rewrite <- app_assoc. cbn [mbind outcome_bind]. rewrite Hd.
  rewrite !(proj2 (Z.ltb_ge _ _)) by lia.
  replace (Z.to_nat (1 + len rl + len body)) with (length ([first] ++ rl ++ body))
    by (unfold len; rewrite !length_app; cbn [length]; lia).
  rewrite take_app_length, drop_app_length. f_equal.
  rewrite slice_from_in by (autorewrite with mqtt_len; lia).
  replace (Z.to_nat (1 + len rl)) with (length ([first] ++ rl))
    by (unfold len; rewrite !length_app; cbn [length]; lia).
  by rewrite (app_assoc [first]), drop_app_length.
Qed.

(** A buffer that holds a proper prefix of a frame is left alone. *)
Lemma decode_frame_prefix first t body k max_size :
  packet_type_try_from (first ≫ 4) = Some t →
  len body ≤ max_size → len body ≤ MQTT_SPEC_MAX_PACKET_SIZE →
  (k < length (frame first body))%nat →
  decode_packet_from_bytes (take k (frame first body)) max_size =
    (Ok None, take k (frame first body)).
Proof.
  intros Ht Hmax Hspec Hk. set (pre := take k (frame first body)).
  assert (Hpre : length pre = k) by (unfold pre; rewrite length_take; lia).
  unfold decode_packet_from_bytes.
  destruct (Z.ltb_spec (len pre) 2) as [|Hlen]; [done|].
  unfold frame in *. set (rl := encode_remaining_length (len body)) in *.
  destruct k as [|k]; [unfold len in Hlen; lia|].
  assert (Htail : pre = first :: take k (rl ++ body)) by done.
  rewrite Htail at 1. change (index (first :: take k (rl ++ body)) 0) with (Ok (E:=MqttError) first).
  cbv beta iota zeta. rewrite Ht, slice_from_in by (unfold len in *; lia). cbn [mbind outcome_bind].
  rewrite Htail at 1. change (drop (Z.to_nat 1) (first :: take k (rl ++ body))) with (take k (rl ++ body)).
  pose proof (len_nonneg body).
  destruct (decide (k < length rl)%nat) as [Hlt|Hge].
  - rewrite take_app_le by lia. unfold rl at 1.
    rewrite decode_rl_prefix by (fold rl; lia). done.
  - rewrite take_app_ge by lia. unfold rl at 1.
    rewrite decode_encode_rl by lia. fold rl.
    rewrite (proj2 (Z.ltb_ge _ _)) by lia.
    rewrite (proj2 (Z.ltb_lt _ _)); [done|].
    unfold len. rewrite Hpre. cbn [app length] in Hk. rewrite length_app in Hk. lia.
Qed.

(** [read_packet] spelled out on the bytes of the stream. *)
Lemma read_packet_eq first tail allocs max_size :
  read_packet max_size (mkReader (first :: tail) allocs) =
    match packet_type_try_from (first ≫ 4) with
    | None => (Err (Codec (InvalidPacketType (first ≫ 4))), mkReader tail allocs)
    | Some t =>
        match decode_remaining_length_from_slice tail with
        | Ok (Some (n, k)) =>
            let rest := drop (Z.to_nat k) tail in
            if max_size <? n
            then (Err (Protocol (PacketTooLarge n max_size)), mkReader rest allocs)
            else if n <=? len rest
            then (parse_packet first t n (take (Z.to_nat n) rest),
                  mkReader (drop (Z.to_nat n) rest) (allocs ++ [n]))
            else (Err (Io IoUnexpectedEof), mkReader [] (allocs ++ [n]))
        | Ok None => (Err (Io IoUnexpectedEof), mkReader [] allocs)
        | Err e => (Err e, mkReader (drop 4 tail) allocs)
        | Panic => (Panic, mkReader [] allocs)
        | Loop => (Loop, mkReader [] allocs)
        end
    end.
Proof.
  unfold read_packet, mbind, rd_bind. rewrite read_exact_one.
  change (rd_lift (index [first] 0)) with (rd_lift (Ok first)).
  cbv beta iota zeta delta [rd_lift].
  destruct (packet_type_try_from (first ≫ 4)) as [t|]; [|done].
  cbv beta iota zeta delta [ok_or]. rewrite read_rl_slice.
  destruct (decode_remaining_length_from_slice tail) as [[[n k]|]|e| |]; try done.
  destruct (max_size <? n); [done|].
  unfold alloc, read_exact. cbn [rd_input rd_allocs].
  by destruct (n <=? len (drop (Z.to_nat k) tail)).
Qed.

(** [decode_packet_from_bytes] spelled out the same way. *)
Lemma decode_packet_eq first tail max_size :
  tail ≠ [] →
  decode_packet_from_bytes (first :: tail) max_size =
    match packet_type_try_from (first ≫ 4) with
    | None => (Err (Codec (InvalidPacketType (first ≫ 4))), first :: tail)
    | Some t =>
        match decode_remaining_length_from_slice tail with
        | Ok (Some (n, k)) =>
            let rest := drop (Z.to_nat k) tail in
            if max_size <? n
            then (Err (Protocol (PacketTooLarge n max_size)), first :: tail)
            else if n <=? len rest
            then (lift_some (parse_packet first t n (take (Z.to_nat n) rest)),
                  drop (Z.to_nat n) rest)
            else (Ok None, first :: tail)
        | Ok None => (Ok None, first :: tail)
        | Err e => (Err e, first :: tail)
        | Panic => (Panic, first :: tail)
        | Loop => (Loop, first :: tail)
        end
    end.
Proof.
  intros Htail. assert (1 ≤ len tail) by (destruct tail; [done|rewrite len_cons;
    pose proof (len_nonneg tail); lia]).
  unfold decode_packet_from_bytes. rewrite len_cons, (proj2 (Z.ltb_ge _ _)) by lia.
  change (index (first :: tail) 0) with (Ok (E:=MqttError) first).
  cbv beta iota zeta.
  destruct (packet_type_try_from (first ≫ 4)) as [t|]; [|done].
  rewrite slice_from_in by (rewrite len_cons; lia).
  change (drop (Z.to_nat 1) (first :: tail)) with tail. cbn [mbind outcome_bind].
  pose proof (decode_rl_bounds tail) as Hb.
  destruct (decode_remaining_length_from_slice tail) as [[[n k]|]|e| |]; try done.
  destruct Hb as (Hn & Hk & Hkl). destruct (max_size <? n); [done|].
  assert (Hr : len (drop (Z.to_nat k) tail) = len tail - k)
    by (unfold len in *; rewrite length_drop; lia).
  rewrite Hr. destruct (Z.leb_spec n (len tail - k)) as [Hle|Hgt].
  2: { by rewrite (proj2 (Z.ltb_lt _ _)) by lia. }
  rewrite (proj2 (Z.ltb_ge _ _)) by lia.
  replace (Z.to_nat (1 + k + n)) with (S (Z.to_nat k + Z.to_nat n)) by lia.
  cbn [take drop]. rewrite <- drop_drop. f_equal.
  rewrite slice_from_in.
  2: { rewrite len_cons. unfold len in *. rewrite length_take. lia. }
  replace (Z.to_nat (1 + k)) with (S (Z.to_nat k)) by lia.
  cbn [drop mbind outcome_bind]. rewrite skipn_firstn_comm.
  by replace (Z.to_nat k + Z.to_nat n - Z.to_nat k)%nat with (Z.to_nat n) by lia.
Qed.

(** The errors of the framing layer for a size cap, other than the end of the
    stream. *)
Definition wire_error (max_size : Z) (e : MqttError) : Prop :=
  (∃ b, e = Codec (InvalidPacketType b)) ∨ e = Codec MalformedLength ∨
  (∃ n, max_size < n ∧ e = Protocol (PacketTooLarge n max_size)) ∨
  (∃ t n, 0 ≤ n ≤ max_size ∧ body_error t n e).

(** The body of a whole frame of [n] bytes is parsed to a packet or an error of
    its type. *)
Lemma parse_body_any first t n max_size data :
  bytes_ok data → 0 ≤ n ≤ max_size → n ≤ MQTT_SPEC_MAX_PACKET_SIZE → n ≤ len data →
  meets (λ e, wire_error max_size e ∧ body_error t n e)
    (received (Z.min max_size MQTT_SPEC_MAX_PACKET_SIZE))
    (parse_packet first t n (take (Z.to_nat n) data)).
Proof.
  intros Hok Hn Hspec Hl. set (body := take _ _).
  assert (len body = n) as Hlen by (unfold body, len in *; rewrite length_take; lia).
  eapply meets_mono; [by rewrite <- Hlen; apply parse_packet_any, bytes_ok_take|..].
  - rewrite Hlen. intros e He. split; [do 3 right; by exists t, n | done].
  - intros p (? & ? & ?). rewrite Hlen in *. split_and!; [done | done | lia].
Qed.

(** The stream reader is total on bytes, and what it leaves are bytes. *)
Lemma read_packet_any data allocs max_size :
  bytes_ok data →
  meets (λ e, e = Io IoUnexpectedEof ∨ wire_error max_size e)
    (received (Z.min max_size MQTT_SPEC_MAX_PACKET_SIZE))
    (read_packet max_size (mkReader data allocs)).1 ∧
  bytes_ok (rd_input (read_packet max_size (mkReader data allocs)).2).
Proof.
  intros Hok. destruct data as [|first tl]; [split; [by left | constructor]|].
  apply Forall_cons in Hok as [_ Hok]. rewrite read_packet_eq.
  destruct (packet_type_try_from _) as [t|]; [|split; [right; left; eauto | done]].
  pose proof (decode_rl_bounds tl) as Hb.
  destruct (decode_remaining_length_from_slice _) as [[[n k]|]|e| |]; try done; cbn [fst snd].
  2: split; [by left | constructor].
  2: destruct Hb as [-> _]; split; [by right; right; left | by apply bytes_ok_drop].
  cbv zeta. destruct (Z.ltb_spec max_size n).
  { split; [right; do 2 right; left; eauto | by apply bytes_ok_drop]. }
  destruct (Z.leb_spec n (len (drop (Z.to_nat k) tl))) as [Hn|];
    [|split; [by left | constructor]]. cbn [fst snd rd_input].
  split; [|by repeat apply bytes_ok_drop].
  eapply meets_mono; [apply (parse_body_any _ _ _ max_size); [by apply bytes_ok_drop | lia..]| |done].
  intros e [He _]. by right.
Qed.

(** The buffered decoder likewise. *)
Lemma decode_packet_any buf max_size :
  bytes_ok buf →
  meets (wire_error max_size)
    (opt_ok (received (Z.min max_size MQTT_SPEC_MAX_PACKET_SIZE)))
    (decode_packet_from_bytes buf max_size).1.
Proof.
  intros Hok. destruct buf as [|first [|b tail]]; [exact I | exact I |].
  apply Forall_cons in Hok as [Hf Hok]. rewrite decode_packet_eq by done.
  destruct (packet_type_try_from _) as [t|]; [|left; eauto].
  pose proof (decode_rl_bounds (b :: tail)) as Hb.
  destruct (decode_remaining_length_from_slice _) as [[[n k]|]|e| |]; try done.
  2: destruct Hb as [-> _]; by right; left.
  cbv zeta. destruct (Z.ltb_spec max_size n); [right; right; left; eauto|].
  destruct (Z.leb_spec n (len (drop (Z.to_nat k) (b :: tail)))) as [Hn|]; [|exact I].
  cbn [fst]. eapply meets_bind; [|intros p Hp; exact Hp].
  eapply meets_mono; [apply (parse_body_any _ _ _ max_size); [by apply bytes_ok_drop | lia..]| |done].
  by intros e [He _].
Qed.

(** ** Theorems *)

(** C2: the decoder is total: on every buffer and for every cap it returns a
    packet, a request for more bytes or an error.  It never panics on an index
    or a slice and its loops end; a packet it returns is well typed (its strings
    are valid UTF-8, its ids and keep-alive are 16-bit), has no empty entry list,
    fits its length fields and is no larger than the cap. *)
Theorem decode_packet_total buf max_size :
  bytes_ok buf →
  yields (opt_ok (received (Z.min max_size MQTT_SPEC_MAX_PACKET_SIZE)))
    (decode_packet_from_bytes buf max_size).1.
Proof. intros Hok. eapply meets_mono; [by apply decode_packet_any | done | done]. Qed.

Lemma decode_packet_total_witness :
  yields (opt_ok (received (Z.min 100 MQTT_SPEC_MAX_PACKET_SIZE)))
    (decode_packet_from_bytes [0x82; 0x03; 0; 7; 9] 100).1.
Proof. apply decode_packet_total. repeat constructor; vm_compute; done. Defined.



(** A packet the stream reader returns is the one the buffered decoder finds at the
    front of the stream. *)
Lemma read_packet_decodes max_size rd p rd' :
  read_packet max_size rd = (Ok p, rd') →
  decode_packet_from_bytes (rd_input rd) max_size = (Ok (Some p), rd_input rd').
Proof.
  destruct rd as [[|first tl] allocs]; [done|]. rewrite read_packet_eq. cbn [rd_input].
  destruct (packet_type_try_from _) as [t|] eqn:Et; [|done]. destruct tl as [|b tl]; [done|].
  rewrite decode_packet_eq, Et by done.
  destruct (decode_remaining_length_from_slice _) as [[[n k]|]|e| |]; try done.
  cbv zeta. destruct (max_size <? n); [done|].
  destruct (n <=? len (drop (Z.to_nat k) (b :: tl))); [|done].
  intros [= Hp <-]. by rewrite Hp.
Qed.

Lemma read_packet_consumes max_size rd p rd' :
  read_packet max_size rd = (Ok p, rd') → (length (rd_input rd') < length (rd_input rd))%nat.
Proof.
  destruct rd as [[|first tl] allocs]; [done|]. rewrite read_packet_eq.
  destruct (packet_type_try_from _) as [t|]; [|done].
  destruct (decode_remaining_length_from_slice _) as [[[n k]|]|e| |]; try done.
  cbv zeta. destruct (max_size <? n); [done|].
  destruct (n <=? len (drop (Z.to_nat k) tl)); [|done].
  intros [= _ <-]. cbn [rd_input length]. rewrite !length_drop. lia.
Qed.

(** C36: the two decoders agree.  On the bytes of a whole stream the stream reader
    returns the packet the buffered decoder returns and leaves the same rest; an
    error of the buffered decoder is the error of the stream reader; and where
    the buffered decoder waits for bytes, the stream reader reports the end of
    the stream (or, on a single byte, an invalid packet type at once). *)
Theorem read_decode_agree data allocs max_size :
  let r := read_packet max_size (mkReader data allocs) in
  match decode_packet_from_bytes data max_size with
  | (Ok (Some p), rest) => r.1 = Ok p ∧ rd_input r.2 = rest
  | (Ok None, buf) =>
      buf = data ∧
      (r.1 = Err (Io IoUnexpectedEof) ∨
       ∃ b, data = [b] ∧ r.1 = Err (Codec (InvalidPacketType (b ≫ 4))))
  | (Err e, _) => r.1 = Err e
  | (Panic, _) => r.1 = Panic
  | (Loop, _) => r.1 = Loop
  end.
Proof.
  cbv zeta. destruct data as [|first [|b tl]].
  - split; [done|]. by left.
  - rewrite read_packet_eq. cbn [decode_packet_from_bytes].
    change (decode_packet_from_bytes [first] max_size)
      with (Ok (E:=MqttError) (@None Packet), [first]).
    split; [done|]. destruct (packet_type_try_from _); [by left | right; eauto].
  - rewrite read_packet_eq, decode_packet_eq by done.
    destruct (packet_type_try_from _) as [t|]; [|done].
    destruct (decode_remaining_length_from_slice _) as [[[n k]|]|e| |]; try done; [|by auto].
    cbv zeta. destruct (max_size <? n); [done|].
    destruct (n <=? len (drop (Z.to_nat k) (b :: tl))); [|by auto].
    by destruct (parse_packet _ _ _ _).
Qed.

(** The packet types are the nibbles 1 to 14. *)
Lemma packet_type_unknown first :
  byte_ok first → packet_type_try_from (first ≫ 4) = None ↔ first < 16 ∨ 240 ≤ first.
Proof.
  intros Hf. set (P := λ x, Bool.eqb (bool_decide (packet_type_try_from (x ≫ 4) = None))
    ((x <? 16) || (240 <=? x))).
  assert (P first = true) as Hr by (apply (range_check P 256); [vm_compute; reflexivity | done]).
  unfold P in Hr.
  apply Bool.eqb_prop in Hr. rewrite <- (bool_decide_eq_true (_ = None)), Hr, orb_true_iff.
  by rewrite Z.ltb_lt, Z.leb_le.
Qed.

(** A whole frame: when its body is refused. *)
Lemma decode_body_error first t tl max_size n k e buf :
  bytes_ok tl → decode_remaining_length_from_slice tl = Ok (Some (n, k)) → n ≤ max_size →
  (if n <=? len (drop (Z.to_nat k) tl)
   then (lift_some (parse_packet first t n (take (Z.to_nat n) (drop (Z.to_nat k) tl))),
         drop (Z.to_nat n) (drop (Z.to_nat k) tl))
   else (Ok None, first :: tl)) = (Err e, buf) ↔
  ∃ body, len body = n ∧ tl = take (Z.to_nat k) tl ++ body ++ buf ∧
    parse_packet first t n body = Err e ∧ body_error t n e.
Proof.
  intros Hok Hrl Hmax. pose proof (decode_rl_bounds tl) as Hb. rewrite Hrl in Hb.
  set (rest := drop (Z.to_nat k) tl).
  assert (bytes_ok rest) as Hrest by by apply bytes_ok_drop.
  split.
  - destruct (Z.leb_spec n (len rest)) as [Hn|]; [|done]. intros Heq.
    pose proof (parse_body_any first t n max_size rest Hrest ltac:(lia) ltac:(lia) Hn) as Hp.
    destruct (parse_packet _ _ _ _) eqn:E; try done. injection Heq as <- <-.
    exists (take (Z.to_nat n) rest). split_and!; [|by rewrite (take_drop (Z.to_nat n) rest); unfold rest; rewrite take_drop | done | apply Hp].
    unfold len in *. rewrite length_take. lia.
  - intros (body & Hl & Htl & Hp & _).
    assert (rest = body ++ buf) as ->.
    { unfold rest. rewrite Htl at 1. apply drop_app_length'.
      unfold len in *. rewrite length_take. lia. }
    assert (Z.to_nat n = length body) as Hn by (unfold len in Hl; lia).
    rewrite len_app, Hn. pose proof (len_nonneg buf).
    rewrite (proj2 (Z.leb_le _ _)), take_app_length, drop_app_length by lia. by rewrite Hp.
Qed.


