(* ===== verification/Roundtrip.v ===== *)
(** Encoding and decoding agree: what [encode_packet] emits for a packet,
    [parse_packet] and the framing layer read back, packet type by packet type
    and then for whole packets and streams of packets. *)

From S2P Require Import Prelude.
From S2P Require Import Utf8.
From S2P Require Import Types.
From S2P Require Import Safety.
From S2P Require Import Wire.
From S2P Require Import Varint.
From S2P Require Import Primitives.
From S2P Require Import Encode.
From S2P Require Import Decode.
From S2P Require Import Codec.

(** ** What can be encoded

    A field with a two-byte length prefix holds at most 65535 bytes, a body at
    most [MQTT_SPEC_MAX_PACKET_SIZE], and SUBSCRIBE, SUBACK and UNSUBSCRIBE
    carry at least one entry. *)
Definition encodable (p : Packet) : Prop :=
  match p with
  | Packet_Connect c =>
      field_fits (conn_client_id c) ∧
      opt_ok (λ w, field_fits (will_topic w) ∧ field_fits (will_payload w)) (conn_will c) ∧
      opt_ok field_fits (conn_username c) ∧ opt_ok field_fits (conn_password c)
  | Packet_Subscribe s =>
      sub_subscriptions s ≠ [] ∧
      Forall (λ t, field_fits (ts_topic t)) (sub_subscriptions s) ∧
      len (subscribe_body s) ≤ MQTT_SPEC_MAX_PACKET_SIZE
  | Packet_Suback s =>
      suback_return_codes s ≠ [] ∧ len (suback_body s) ≤ MQTT_SPEC_MAX_PACKET_SIZE
  | Packet_Unsubscribe u =>
      unsub_topics u ≠ [] ∧ Forall field_fits (unsub_topics u) ∧
      len (unsubscribe_body u) ≤ MQTT_SPEC_MAX_PACKET_SIZE
  | _ => True
  end.

(** What a packet looks like after the wire: a QoS 0 PUBLISH carries no packet
    id, every other field of every packet survives. *)
Definition wire_view (p : Packet) : Packet :=
  match p with
  | Packet_Publish p =>
      Packet_Publish (mkPublishPacket (pub_topic p) (pub_payload p) (pub_dup p)
        (pub_qos p) (pub_retain p)
        (if bool_decide (pub_qos p = AtMostOnce) then None else pub_packet_id p))
  | p => p
  end.

(** The remaining length a frame declares. *)
Definition declared_length (w : bytes) : Z :=
  match decode_remaining_length_from_slice (tail w) with
  | Ok (Some (n, _)) => n
  | _ => 0
  end.

(** ** Bodies as concatenations *)

Definition enc_field (s : bytes) : bytes := to_be_bytes (as_u16 (len s)) ++ s.
Arguments enc_field : simpl never.

Definition enc_will (w : option WillPacket) : bytes :=
  match w with
  | Some w => enc_field (will_topic w) ++ enc_field (will_payload w)
  | None => []
  end.

Definition enc_opt (o : option bytes) : bytes :=
  match o with Some s => enc_field s | None => [] end.

Lemma connect_body_eq c :
  connect_body c =
    [0x00; 0x04] ++ str_of "MQTT" ++ [0x04; connect_flags c] ++
    to_be_bytes (conn_keep_alive c) ++ enc_field (conn_client_id c) ++
    enc_will (conn_will c) ++ enc_opt (conn_username c) ++ enc_opt (conn_password c).
Proof.
  unfold connect_body, enc_will, enc_opt, enc_field.
  destruct (conn_will c), (conn_username c), (conn_password c);
    rewrite ?write_arc_str_eq, ?write_bytes_eq, ?write_arc_str_eq, <- ?app_assoc,
      ?app_nil_r; done.
Qed.

Definition enc_sub (t : TopicSubscription) : bytes :=
  enc_field (ts_topic t) ++ [qos_as_u8 (ts_qos t)].

Lemma fold_left_append {A} (f : A → bytes) (g : bytes → A → bytes) (l : list A) acc :
  (∀ body a, g body a = body ++ f a) →
  fold_left g l acc = acc ++ concat (map f l).
Proof.
  intros Hg. revert acc. induction l as [|a l IH]; intros acc; cbn; [by rewrite app_nil_r|].
  by rewrite IH, Hg, <- app_assoc.
Qed.

Lemma subscribe_body_eq s :
  subscribe_body s =
    to_be_bytes (sub_packet_id s) ++ concat (map enc_sub (sub_subscriptions s)).
Proof.
  apply fold_left_append. intros body t.
  unfold enc_sub, enc_field. by rewrite write_arc_str_eq, <- !app_assoc.
Qed.

Lemma unsubscribe_body_eq u :
  unsubscribe_body u =
    to_be_bytes (unsub_packet_id u) ++ concat (map enc_field (unsub_topics u)).
Proof. apply fold_left_append. intros body t. by rewrite write_arc_str_eq. Qed.

Lemma suback_body_eq s :
  suback_body s =
    to_be_bytes (suback_packet_id s) ++ map suback_as_u8 (suback_return_codes s).
Proof.
  unfold suback_body. rewrite (fold_left_append (λ c, [suback_as_u8 c])) by done. f_equal.
  induction (suback_return_codes s); cbn; [done|]. by f_equal.
Qed.

(** ** Parsing the bodies *)

Lemma connect_flags_spec c :
  let f := flags_from_bits_truncate ConnectFlags_all (connect_flags c) in
  flags_contains f ConnectFlags_CleanSession = conn_clean_session c ∧
  flags_contains f ConnectFlags_WillFlag = bool_decide (is_Some (conn_will c)) ∧
  flags_contains f ConnectFlags_Username = bool_decide (is_Some (conn_username c)) ∧
  flags_contains f ConnectFlags_Password = bool_decide (is_Some (conn_password c)) ∧
  (∀ w, conn_will c = Some w →
     flags_contains f ConnectFlags_WillRetain = will_retain w ∧
     Z.land (connect_flags c) ConnectFlags_WillQoSMask ≫ 3 = qos_as_u8 (will_qos w)).
Proof.
  destruct c as [cid clean ka [u|] [p|] [[wt wp [] []]|]], clean; cbn;
    split_and!; try done; intros w [= <-]; done.
Qed.

Lemma publish_flags_spec p :
  let first := Z.lor (as_u8 (packet_type_as_u8 PacketType_Publish ≪ 4))
                 (pack_publish_flags p) in
  let f := Z.land first 0x0F in
  packet_type_try_from (first ≫ 4) = Some PacketType_Publish ∧
  flags_from_bits FixedHeaderFlags_all f = Some f ∧
  flags_contains f FixedHeaderFlags_Dup = pub_dup p ∧
  flags_contains f FixedHeaderFlags_Retain = pub_retain p ∧
  Z.land f FixedHeaderFlags_QoS ≫ 1 = qos_as_u8 (pub_qos p).
Proof. by destruct p as [t pl [] [] [] id]. Qed.

Lemma parse_will_encoded c body cur post :
  opt_ok will_ok (conn_will c) →
  opt_ok (λ w, field_fits (will_topic w) ∧ field_fits (will_payload w)) (conn_will c) →
  at_cursor body cur (enc_will (conn_will c) ++ post) →
  ∃ cur', parse_connect_will (connect_flags c)
      (flags_from_bits_truncate ConnectFlags_all (connect_flags c)) body cur =
      Ok (conn_will c, cur') ∧ at_cursor body cur' post.
Proof.
  destruct (connect_flags_spec c) as (_ & Hw & _ & _ & Hq).
  unfold parse_connect_will. rewrite Hw. destruct (conn_will c) as [w|]; cbn.
  - destruct (Hq w eq_refl) as [-> ->]. unfold enc_field, will_ok, str_ok.
    rewrite <- !app_assoc. intros [[_ Hu] _] [Ft Fp] Hat.
    apply read_arc_str_at in Hat as [-> Hat]; [|done..].
    apply read_bytes_at in Hat as [Hr Hat]; [|done]. cbn. rewrite Hr. cbn.
    rewrite qos_from_as_u8. cbn. destruct w. eauto.
  - eauto.
Qed.

Lemma parse_username_encoded c body cur post :
  opt_ok str_ok (conn_username c) → opt_ok field_fits (conn_username c) →
  at_cursor body cur (enc_opt (conn_username c) ++ post) →
  ∃ cur', parse_connect_username
      (flags_from_bits_truncate ConnectFlags_all (connect_flags c)) body cur =
      Ok (conn_username c, cur') ∧ at_cursor body cur' post.
Proof.
  destruct (connect_flags_spec c) as (_ & _ & Hu & _).
  unfold parse_connect_username. rewrite Hu. destruct (conn_username c) as [u|]; cbn.
  - unfold enc_field, str_ok. rewrite <- app_assoc. intros [_ Hv] Hf Hat.
    apply read_arc_str_at in Hat as [-> Hat]; [|done..]. cbn. eauto.
  - eauto.
Qed.

Lemma parse_password_encoded c body cur post :
  opt_ok field_fits (conn_password c) →
  at_cursor body cur (enc_opt (conn_password c) ++ post) →
  ∃ cur', parse_connect_password
      (flags_from_bits_truncate ConnectFlags_all (connect_flags c)) body cur =
      Ok (conn_password c, cur') ∧ at_cursor body cur' post.
Proof.
  destruct (connect_flags_spec c) as (_ & _ & _ & Hp & _).
  unfold parse_connect_password. rewrite Hp. destruct (conn_password c) as [p|]; cbn.
  - unfold enc_field. rewrite <- app_assoc. intros Hf Hat.
    apply read_bytes_at in Hat as [-> Hat]; [|done..]. cbn. eauto.
  - eauto.
Qed.

Lemma parse_connect_encoded c :
  connect_ok c → encodable (Packet_Connect c) →
  parse_connect (connect_body c) = Ok (Packet_Connect c).
Proof.
  intros (Hcid & Hka & Hu & Hp & Hw) (Fcid & Fw & Fu & Fp).
  rewrite connect_body_eq. set (tl := enc_field _ ++ _).
  set (body := [0x00; 0x04] ++ _).
  assert (Hat : at_cursor body 10 tl).
  { split; [|done]. unfold body. autorewrite with mqtt_len. cbn [str_of].
    autorewrite with mqtt_len. pose proof (len_nonneg tl). lia. }
  assert (Hmq : at_cursor body 2 (str_of "MQTT" ++ [0x04; connect_flags c] ++
                   to_be_bytes (conn_keep_alive c) ++ tl)).
  { split; [|done]. destruct Hat; lia. }
  unfold parse_connect. rewrite (proj2 (Z.ltb_ge _ _)) by (destruct Hat; lia).
  change (index body 0) with (Ok (E:=MqttError) 0).
  change (index body 1) with (Ok (E:=MqttError) 4).
  change (index body 6) with (Ok (E:=MqttError) 4).
  change (index body 7) with (Ok (E:=MqttError) (connect_flags c)).
  change (index body 8) with (Ok (E:=MqttError) (as_u8 (conn_keep_alive c ≫ 8))).
  change (index body 9) with (Ok (E:=MqttError) (as_u8 (conn_keep_alive c))).
  cbn [mbind outcome_bind].
  rewrite (at_cursor_slice _ _ _ _ 4 Hmq eq_refl : slice body 2 6 = _).
  change (from_be_bytes 0 4 =? 4) with true. cbn [mbind outcome_bind].
  rewrite bool_decide_true by done. cbn [negb orb].
  change (4 =? 4) with true. cbn [negb]. cbv zeta.
  rewrite from_to_be_bytes by done. unfold tl in Hat.
  unfold enc_field in Hat. rewrite <- app_assoc in Hat. clearbody body.
  apply read_arc_str_at in Hat as [-> Hat]; [|apply Fcid | apply Hcid].
  cbn [mbind outcome_bind].
  apply parse_will_encoded in Hat as (c1 & -> & Hat); [|done..]. cbn [mbind outcome_bind].
  apply parse_username_encoded in Hat as (c2 & -> & Hat); [|done..]. cbn [mbind outcome_bind].
  rewrite <- (app_nil_r (enc_opt _)) in Hat.
  apply parse_password_encoded in Hat as (c3 & -> & Hat); [|done]. cbn [mbind outcome_bind].
  destruct (connect_flags_spec c) as [-> _]. by destruct c.
Qed.

(** The body [encode_publish] builds. *)
Definition publish_body (p : PublishPacket) (id : option Z) : bytes :=
  enc_field (pub_topic p) ++
  match id with Some id => to_be_bytes id | None => [] end ++ pub_payload p.

Lemma parse_publish_encoded p id :
  publish_ok p → field_fits (pub_topic p) →
  id = (if bool_decide (pub_qos p = AtMostOnce) then None else pub_packet_id p) →
  (pub_qos p ≠ AtMostOnce → is_Some id) →
  parse_publish (Z.lor (as_u8 (packet_type_as_u8 PacketType_Publish ≪ 4))
      (pack_publish_flags p)) (publish_body p id) =
    Ok (Packet_Publish (mkPublishPacket (pub_topic p) (pub_payload p) (pub_dup p)
          (pub_qos p) (pub_retain p) id)).
Proof.
  intros ([_ Hu] & _ & Hid) Hf Hq Hs. unfold publish_body, enc_field.
  destruct (publish_flags_spec p) as (_ & Hfl & Hdup & Hret & Hqos).
  set (first := Z.lor _ _) in *. cbv zeta in *.
  pose proof (len_nonneg (pub_topic p)). pose proof (len_nonneg (pub_payload p)).
  rewrite <- app_assoc. set (body := to_be_bytes _ ++ _).
  assert (Hl : 2 ≤ len body).
  { unfold body. rewrite len_app, len_to_be_bytes.
    match goal with |- context [2 + len ?l] => pose proof (len_nonneg l) end. lia. }
  unfold parse_publish. rewrite (proj2 (Z.ltb_ge _ _)) by lia.
  rewrite Hfl. cbn [ok_or mbind outcome_bind].
  rewrite Hqos, qos_from_as_u8, Hdup, Hret. cbn [ok_or mbind outcome_bind].
  pose proof (at_cursor_start body) as Hat. unfold body in Hat at 2.
  apply read_arc_str_at in Hat as [-> Hat]; [|done..]. cbn [mbind outcome_bind].
  case_bool_decide as Hq0; cbn [negb].
  - subst id. cbn [mbind outcome_bind app] in *. destruct Hat as [Hc Hd].
    rewrite slice_from_in, Hd by done. done.
  - destruct Hs as [v Hv]; [done|]. rewrite Hv in Hat |- *. rewrite <- Hq, Hv in Hid.
    apply read_u16_at in Hat as [-> [Hc Hd]]; [|done]. cbn [mbind outcome_bind].
    rewrite slice_from_in, Hd by done. done.
Qed.

Lemma parse_subscribe_loop_encoded subs fuel body cur acc :
  Forall (λ t, str_ok (ts_topic t)) subs →
  Forall (λ t, field_fits (ts_topic t)) subs →
  at_cursor body cur (concat (map enc_sub subs)) →
  (length subs < fuel)%nat →
  parse_subscribe_loop fuel body cur acc = Ok (acc ++ subs).
Proof.
  intros Hok Hf. revert fuel cur acc.
  induction Hf as [|[t q] subs Ht Hf IH]; intros [|fuel] cur acc Hat Hfuel;
    [cbn in Hfuel; lia | | cbn in Hfuel; lia |]; cbn [parse_subscribe_loop].
  - apply at_cursor_len in Hat. cbn [map concat] in Hat. rewrite (@len_nil Z) in Hat.
    rewrite (proj2 (Z.ltb_ge _ _)) by lia. by rewrite app_nil_r.
  - apply Forall_cons in Hok as [[_ Hu] Hok]. cbn [map concat] in Hat.
    unfold enc_sub at 1, enc_field in Hat. cbn [ts_topic ts_qos] in *.
    rewrite <- !app_assoc in Hat. pose proof (at_cursor_len _ _ _ Hat) as Hl.
    rewrite len_app, len_to_be_bytes in Hl.
    match type of Hl with context [2 + len ?l] => pose proof (len_nonneg l) end.
    rewrite (proj2 (Z.ltb_lt _ _)) by lia.
    apply read_arc_str_at in Hat as [-> Hat]; [|done..]. cbn [mbind outcome_bind].
    pose proof (at_cursor_len _ _ _ Hat) as Hl'. cbn [app] in Hat, Hl'.
    rewrite len_cons in Hl'.
    match type of Hl' with context [1 + len ?l] => pose proof (len_nonneg l) end.
    rewrite (proj2 (Z.leb_gt _ _)) by lia.
    rewrite (at_cursor_index _ _ _ _ Hat). cbn [mbind outcome_bind].
    rewrite qos_from_as_u8. cbn [ok_or mbind outcome_bind].
    apply (at_cursor_skip _ _ [_]) in Hat. cbn [length] in Hfuel.
    rewrite (IH Hok) by (done || lia). by rewrite <- app_assoc.
Qed.

Lemma length_le_concat {A} (f : A → bytes) l :
  (∀ a, 1 ≤ len (f a)) → (length l ≤ length (concat (map f l)))%nat.
Proof.
  intros Hf. induction l as [|a l IH]; cbn [map concat length]; [lia|].
  rewrite length_app. specialize (Hf a). unfold len in Hf. lia.
Qed.

Lemma enc_sub_len t : 3 ≤ len (enc_sub t).
Proof.
  unfold enc_sub, enc_field. autorewrite with mqtt_len.
  pose proof (len_nonneg (ts_topic t)). lia.
Qed.

Lemma enc_field_len s : 2 ≤ len (enc_field s).
Proof. unfold enc_field. autorewrite with mqtt_len. pose proof (len_nonneg s). lia. Qed.

Lemma parse_subscribe_encoded s :
  packet_ok (Packet_Subscribe s) → encodable (Packet_Subscribe s) →
  parse_subscribe (subscribe_body s) = Ok (Packet_Subscribe s).
Proof.
  intros [Hid Hok] (Hne & Hf & _). rewrite subscribe_body_eq.
  set (body := to_be_bytes _ ++ _).
  assert (5 ≤ len body).
  { unfold body. destruct (sub_subscriptions s) as [|t l]; [done|]. cbn [map concat].
    autorewrite with mqtt_len. pose proof (enc_sub_len t).
    pose proof (len_nonneg (concat (map enc_sub l))). lia. }
  unfold parse_subscribe. rewrite (proj2 (Z.ltb_ge _ _)) by lia.
  pose proof (at_cursor_start body) as Hat. unfold body in Hat at 2.
  apply read_u16_at in Hat as [-> Hat]; [|done]. cbn [mbind outcome_bind].
  rewrite (parse_subscribe_loop_encoded (sub_subscriptions s)); try done; [by destruct s|].
  unfold body. rewrite length_app.
  pose proof (length_le_concat enc_sub (sub_subscriptions s)
    (λ t, Z.le_trans 1 3 _ ltac:(lia) (enc_sub_len t))). lia.
Qed.

Lemma parse_unsubscribe_loop_encoded topics fuel body cur acc :
  Forall str_ok topics → Forall field_fits topics →
  at_cursor body cur (concat (map enc_field topics)) →
  (length topics < fuel)%nat →
  parse_unsubscribe_loop fuel body cur acc = Ok (acc ++ topics).
Proof.
  intros Hok Hf. revert fuel cur acc.
  induction Hf as [|t topics Ht Hf IH]; intros [|fuel] cur acc Hat Hfuel;
    [cbn in Hfuel; lia | | cbn in Hfuel; lia |]; cbn [parse_unsubscribe_loop].
  - apply at_cursor_len in Hat. cbn [map concat] in Hat. rewrite (@len_nil Z) in Hat.
    rewrite (proj2 (Z.ltb_ge _ _)) by lia. by rewrite app_nil_r.
  - apply Forall_cons in Hok as [[_ Hu] Hok]. cbn [map concat] in Hat.
    unfold enc_field at 1 in Hat. rewrite <- app_assoc in Hat.
    pose proof (at_cursor_len _ _ _ Hat) as Hl.
    rewrite len_app, len_to_be_bytes in Hl.
    match type of Hl with context [2 + len ?l] => pose proof (len_nonneg l) end.
    rewrite (proj2 (Z.ltb_lt _ _)) by lia.
    apply read_arc_str_at in Hat as [-> Hat]; [|done..]. cbn [mbind outcome_bind].
    cbn [length] in Hfuel.
    rewrite (IH Hok) by (done || lia). by rewrite <- app_assoc.
Qed.

Lemma parse_unsubscribe_encoded u :
  packet_ok (Packet_Unsubscribe u) → encodable (Packet_Unsubscribe u) →
  parse_unsubscribe (unsubscribe_body u) = Ok (Packet_Unsubscribe u).
Proof.
  intros [Hid Hok] (Hne & Hf & _). rewrite unsubscribe_body_eq.
  set (body := to_be_bytes _ ++ _).
  assert (4 ≤ len body).
  { unfold body. destruct (unsub_topics u) as [|t l]; [done|]. cbn [map concat].
    autorewrite with mqtt_len. pose proof (enc_field_len t).
    pose proof (len_nonneg (concat (map enc_field l))). lia. }
  unfold parse_unsubscribe. rewrite (proj2 (Z.ltb_ge _ _)) by lia.
  pose proof (at_cursor_start body) as Hat. unfold body in Hat at 2.
  apply read_u16_at in Hat as [-> Hat]; [|done]. cbn [mbind outcome_bind].
  rewrite (parse_unsubscribe_loop_encoded (unsub_topics u)); try done; [by destruct u|].
  unfold body. rewrite length_app.
  pose proof (length_le_concat enc_field (unsub_topics u)
    (λ t, Z.le_trans 1 2 _ ltac:(lia) (enc_field_len t))). lia.
Qed.

Lemma parse_suback_encoded s :
  packet_ok (Packet_Suback s) → encodable (Packet_Suback s) →
  parse_suback (suback_body s) = Ok (Packet_Suback s).
Proof.
  intros Hid (Hne & _). rewrite suback_body_eq.
  destruct s as [id codes]; cbn [suback_packet_id suback_return_codes packet_ok] in *.
  set (rest := map _ _). unfold parse_suback.
  assert (1 ≤ len rest).
  { unfold rest. destruct codes as [|c l]; [done|]. cbn [map]. rewrite len_cons.
    pose proof (len_nonneg (map suback_as_u8 l)). lia. }
  rewrite (proj2 (Z.ltb_ge _ _)) by (autorewrite with mqtt_len; lia).
  change (index (to_be_bytes id ++ rest) 0) with (Ok (E:=MqttError) (as_u8 (id ≫ 8))).
  change (index (to_be_bytes id ++ rest) 1) with (Ok (E:=MqttError) (as_u8 id)).
  cbn [mbind outcome_bind]. rewrite from_to_be_bytes by done.
  rewrite slice_from_in by (autorewrite with mqtt_len; lia).
  change (drop (Z.to_nat 2) (to_be_bytes id ++ rest)) with rest.
  cbn [mbind outcome_bind].
  replace (mapM _ rest) with (Ok (E:=MqttError) codes); [done|].
  unfold rest. clear. induction codes as [|c l IH]; [done|].
  cbn [map mapM]. rewrite suback_from_as_u8. cbn [ok_or mbind outcome_bind].
  by rewrite <- IH.
Qed.

(** ** Encoded packets are frames *)

Lemma id_packet_frame b id : encode_id_packet b id = frame b (to_be_bytes id).
Proof.
  unfold encode_id_packet, frame. change (len (to_be_bytes id)) with 2.
  change (encode_remaining_length 2) with [2]. unfold to_be_bytes.
  assert (Hl : as_u8 (Z.land id 0xFF) = as_u8 id).
  { unfold as_u8. change 0xFF with (Z.ones 8). rewrite Z.land_ones by lia.
    change (2 ^ 8) with 256. by rewrite Z.mod_mod by lia. }
  by rewrite Hl.
Qed.

(** The body length of a PUBLISH. *)
Definition publish_body_len (p : PublishPacket) : Z :=
  2 + len (pub_topic p)
  + (if bool_decide (pub_qos p = AtMostOnce) then 0 else 2) + len (pub_payload p).

(** The packets [encode_publish] accepts. *)
Definition publish_encodable (p : PublishPacket) : Prop :=
  field_fits (pub_topic p) ∧
  (pub_qos p ≠ AtMostOnce → ∃ id, pub_packet_id p = Some id ∧ id ≠ 0) ∧
  publish_body_len p ≤ MQTT_SPEC_MAX_PACKET_SIZE.

Definition publish_wire_id (p : PublishPacket) : option Z :=
  if bool_decide (pub_qos p = AtMostOnce) then None else pub_packet_id p.

Lemma validate_publish_Ok p id :
  validate_publish_for_encode p = Ok id ↔
  field_fits (pub_topic p) ∧
  (pub_qos p ≠ AtMostOnce → ∃ id, pub_packet_id p = Some id ∧ id ≠ 0) ∧
  id = publish_wire_id p.
Proof.
  unfold validate_publish_for_encode, publish_wire_id, field_fits.
  destruct (Z.ltb_spec u16_max (len (pub_topic p))).
  { split; [done|]. lia. }
  case_bool_decide as Hq.
  - split; [intros [= <-]; done | by intros (_ & _ & ->)].
  - destruct (pub_packet_id p) as [id'|].
    2: { split; [done|]. intros (_ & H' & _). by destruct (H' Hq) as (? & ? & _). }
    destruct (decide (id' = 0)) as [->|Hz].
    + split; [done|]. intros (_ & H' & _). by destruct (H' Hq) as (? & [= <-] & ?).
    + replace (match id' with 0 => _ | _ => _ end) with (Ok (E:=CodecError) (Some id'))
        by (by destruct id').
      split; [intros [= <-]; eauto | by intros (_ & _ & ->)].
Qed.

Lemma publish_body_len_eq p id :
  validate_publish_for_encode p = Ok id →
  len (publish_body p id) = publish_body_len p.
Proof.
  intros (_ & Hq & ->)%validate_publish_Ok.
  unfold publish_body, publish_body_len, publish_wire_id, enc_field.
  case_bool_decide; [|destruct Hq as (id & -> & _); [done|]];
    autorewrite with mqtt_len; lia.
Qed.

Lemma encode_publish_eq p :
  encode_publish p =
    id ← validate_publish_for_encode p;
    if MQTT_SPEC_MAX_PACKET_SIZE <? publish_body_len p
    then Err (BodyTooLong (publish_body_len p) MQTT_SPEC_MAX_PACKET_SIZE)
    else Ok (frame (Z.lor (as_u8 (packet_type_as_u8 PacketType_Publish ≪ 4))
               (pack_publish_flags p)) (publish_body p id)).
Proof.
  unfold encode_publish. destruct (validate_publish_for_encode p) as [id| | |] eqn:E;
    cbn [mbind outcome_bind]; try done.
  rewrite <- (publish_body_len_eq p id E). unfold publish_body, enc_field.
  destruct id; rewrite <- ?app_assoc; done.
Qed.

Lemma encode_publish_Ok p w :
  encode_publish p = Ok w ↔
  publish_encodable p ∧
  w = frame (Z.lor (as_u8 (packet_type_as_u8 PacketType_Publish ≪ 4))
        (pack_publish_flags p)) (publish_body p (publish_wire_id p)).
Proof.
  rewrite encode_publish_eq. unfold publish_encodable. split.
  - intros (id & Hv & Hw)%bind_Ok. pose proof (proj1 (validate_publish_Ok _ _) Hv) as Hs.
    destruct Hs as (Hf & Hq & ->).
    destruct (Z.ltb_spec MQTT_SPEC_MAX_PACKET_SIZE (publish_body_len p)); [done|].
    injection Hw as <-. naive_solver.
  - intros [(Hf & Hq & Hl) ->].
    rewrite (proj2 (validate_publish_Ok p (publish_wire_id p))) by done.
    cbn [mbind outcome_bind]. by rewrite (proj2 (Z.ltb_ge _ _)) by lia.
Qed.

(** [w] is one frame whose body parses to [p]. *)
Definition frames (w : bytes) (p : Packet) : Prop :=
  ∃ first t body,
    w = frame first body ∧ packet_type_try_from (first ≫ 4) = Some t ∧
    len body ≤ MQTT_SPEC_MAX_PACKET_SIZE ∧
    parse_packet first t (len body) body = Ok p.

Lemma connect_frames c :
  packet_ok (Packet_Connect c) → encodable (Packet_Connect c) →
  frames (encode_connect c) (Packet_Connect c).
Proof.
  intros Hok Henc. exists 0x10, PacketType_Connect, (connect_body c).
  split_and!; [done | done | | by apply parse_connect_encoded].
  destruct Henc as (F1 & F2 & F3 & F4). rewrite connect_body_eq.
  autorewrite with mqtt_len. unfold field_fits, u16_max, MQTT_SPEC_MAX_PACKET_SIZE in *.
  change (len (str_of "MQTT")) with 4. unfold enc_will, enc_opt, enc_field.
  destruct (conn_will c), (conn_username c), (conn_password c);
    cbn [opt_ok] in *; autorewrite with mqtt_len; lia.
Qed.

Lemma publish_frames p w :
  publish_ok p → encode_publish p = Ok w → frames w (wire_view (Packet_Publish p)).
Proof.
  intros Hok [(Hf & Hq & Hl) ->]%encode_publish_Ok.
  eexists _, PacketType_Publish, _. split_and!; [done | apply publish_flags_spec | |].
  - rewrite publish_body_len_eq; [done|]. by apply validate_publish_Ok.
  - cbn [parse_packet]. apply parse_publish_encoded; try done.
    intros Hq0. unfold publish_wire_id. rewrite bool_decide_false by done.
    destruct (Hq Hq0) as (id & -> & _). eauto.
Qed.

Lemma id_packet_frames b t (k : Z → Packet) id :
  u16_ok id → packet_type_try_from (b ≫ 4) = Some t →
  parse_packet b t 2 (to_be_bytes id) =
    Ok (k (from_be_bytes (as_u8 (id ≫ 8)) (as_u8 id))) →
  frames (encode_id_packet b id) (k id).
Proof.
  intros Hid Ht Hp. exists b, t, (to_be_bytes id).
  rewrite id_packet_frame. split_and!; [done | done | done |].
  by rewrite from_to_be_bytes in Hp.
Qed.

(** Every encoded packet is one frame, and its body parses back. *)
Lemma encode_packet_frames p w :
  packet_ok p → encodable p → encode_packet p = Ok w → frames w (wire_view p).
Proof.
  destruct p as [c|a|p|id|id|id|id|s|s|u|id| | |];
    cbn [encode_packet wire_view]; intros Hok Henc Hw;
    try (injection Hw as <-).
  - by apply connect_frames.
  - exists 0x20, PacketType_Connack,
      [if ack_session_present a then 1 else 0; connack_as_u8 (ack_return_code a)].
    split_and!; try done. by destruct a as [[] []].
  - by apply publish_frames.
  - by apply (id_packet_frames _ PacketType_Puback).
  - by apply (id_packet_frames _ PacketType_Pubrec).
  - by apply (id_packet_frames _ PacketType_Pubrel).
  - by apply (id_packet_frames _ PacketType_Pubcomp).
  - exists 0x82, PacketType_Subscribe, (subscribe_body s).
    split_and!; [done | done | apply Henc | by apply parse_subscribe_encoded].
  - exists 0x90, PacketType_Suback, (suback_body s).
    split_and!; [done | done | apply Henc | by apply parse_suback_encoded].
  - exists 0xA2, PacketType_Unsubscribe, (unsubscribe_body u).
    split_and!; [done | done | apply Henc | by apply parse_unsubscribe_encoded].
  - by apply (id_packet_frames _ PacketType_Unsuback).
  - by exists 0xC0, PacketType_Pingreq, [].
  - by exists 0xD0, PacketType_Pingresp, [].
  - by exists 0xE0, PacketType_Disconnect, [].
Qed.

Lemma declared_length_frame first body :
  len body ≤ MQTT_SPEC_MAX_PACKET_SIZE → declared_length (frame first body) = len body.
Proof.
  intros Hl. unfold declared_length, frame. cbn [app tail].
  rewrite decode_encode_rl; [done|]. pose proof (len_nonneg body). lia.
Qed.

Lemma frames_decode w p rest max_size :
  frames w p → declared_length w ≤ max_size →
  decode_packet_from_bytes (w ++ rest) max_size = (Ok (Some p), rest).
Proof.
  intros (first & t & body & -> & Ht & Hl & Hp) Hmax.
  rewrite declared_length_frame in Hmax by done.
  rewrite (decode_frame _ t) by done. by rewrite Hp.
Qed.

(** The stream reader and the buffered decoder agree on a complete packet. *)
Lemma decode_read_packet data p rest max_size allocs :
  decode_packet_from_bytes data max_size = (Ok (Some p), rest) →
  read_packet max_size (mkReader data allocs) =
    (Ok p, mkReader rest (allocs ++ [declared_length data])).
Proof.
  destruct data as [|first [|b tl]]; [done | done |]. set (t := b :: tl).
  rewrite decode_packet_eq by done. rewrite read_packet_eq.
  unfold declared_length. cbn [tail].
  destruct (packet_type_try_from _) as [ty|]; [|done].
  destruct (decode_remaining_length_from_slice t) as [[[n k]|]|e| |]; try done.
  cbv zeta. destruct (max_size <? n); [done|].
  destruct (n <=? len (drop (Z.to_nat k) t)); [|done].
  intros [= Hp <-]. destruct (parse_packet _ _ _ _); cbn in Hp; by simplify_eq.
Qed.

Lemma frames_read w p rest max_size allocs :
  frames w p → declared_length w ≤ max_size →
  read_packet max_size (mkReader (w ++ rest) allocs) =
    (Ok p, mkReader rest (allocs ++ [declared_length w])).
Proof.
  intros Hf Hmax. pose proof (frames_decode _ _ rest _ Hf Hmax) as Hd.
  rewrite (decode_read_packet _ _ _ _ _ Hd). do 4 f_equal.
  destruct Hf as (first & t & body & -> & Ht & Hl & Hp).
  unfold frame. cbn [app]. rewrite <- app_assoc.
  unfold declared_length. cbn [tail].
  pose proof (len_nonneg body). by rewrite !decode_encode_rl by lia.
Qed.

Lemma write_publish_packet_eq p w :
  opt_ok (λ n, 0 ≤ n) (wr_room w) →
  write_publish_packet p w = write_packet (Packet_Publish p) w.
Proof.
  intros Hroom. unfold write_publish_packet, write_packet.
  cbn [encode_packet]. rewrite encode_publish_eq.
  destruct (validate_publish_for_encode p) as [id|e| |] eqn:E;
    cbn [map_err mbind outcome_bind]; try done.
  assert (Hbl : match id with Some _ => 2 + len (pub_topic p) + 2
     | None => 2 + len (pub_topic p) end + len (pub_payload p) = publish_body_len p).
  { rewrite <- (publish_body_len_eq p id E). unfold publish_body, enc_field.
    destruct id; autorewrite with mqtt_len; lia. }
  cbv zeta. rewrite Hbl. destruct (_ <? publish_body_len p); [done|].
  unfold frame. rewrite (publish_body_len_eq p id E).
  rewrite <- write_all_app by done. cbn [map_err]. f_equal.
  unfold publish_body, enc_field. destruct id; by rewrite <- !app_assoc.
Qed.

(** ** Theorems *)

(** C1: round trip through the buffered decoder.  Every packet whose fields fit
    the wire format and that [encode_packet] accepts is decoded back from its
    bytes, whatever follows them in the buffer, as long as its declared length
    is within the cap; exactly its bytes are consumed. *)
Theorem encode_decode_roundtrip p w rest max_size :
  packet_ok p → encodable p → encode_packet p = Ok w →
  declared_length w ≤ max_size →
  decode_packet_from_bytes (w ++ rest) max_size = (Ok (Some (wire_view p)), rest).
Proof. intros. by apply frames_decode; [apply encode_packet_frames|]. Qed.

Definition sample_connect : Packet :=
  Packet_Connect (mkConnectPacket (str_of "cid") false 30 (Some (str_of "alice"))
    (Some (str_of "secret"))
    (Some (mkWillPacket (str_of "offline") (str_of "bye") AtLeastOnce true))).

Definition sample_publish : Packet :=
  Packet_Publish (mkPublishPacket (str_of "a/b") (str_of "x") false AtLeastOnce false
    (Some 42)).

Lemma sample_connect_ok : packet_ok sample_connect ∧ encodable sample_connect.
Proof.
  split; [|by repeat split].
  repeat split; try done; apply str_of_ok.
Qed.

Lemma sample_publish_ok : packet_ok sample_publish ∧ encodable sample_publish.
Proof. repeat split; try done; apply str_of_ok. Qed.

Lemma encode_decode_roundtrip_witness :
  ∃ w, encode_packet sample_connect = Ok w ∧
    decode_packet_from_bytes (w ++ [0xC0]) 1000 = (Ok (Some sample_connect), [0xC0]).
Proof.
  eexists. split; [vm_compute; reflexivity|].
  apply (encode_decode_roundtrip sample_connect _ [0xC0] 1000);
    [apply sample_connect_ok | apply sample_connect_ok | vm_compute; reflexivity |].
  vm_compute. discriminate.
Defined.

(** Reading [n] packets one after the other, as the session loops do. *)
Fixpoint read_packets (n : nat) (max_size : Z) : rd (list Packet) :=
  match n with
  | O => mret []
  | S n =>
      p ← read_packet max_size;
      ps ← read_packets n max_size;
      mret (p :: ps)
  end.

(** Packets written back to back are read back from the stream one by one,
    in order, and nothing of what follows is consumed. *)
Theorem read_packets_stream ps ws rest max_size allocs :
  Forall packet_ok ps → Forall encodable ps →
  mapM encode_packet ps = Ok ws →
  Forall (λ w, declared_length w ≤ max_size) ws →
  ∃ allocs', read_packets (length ps) max_size (mkReader (concat ws ++ rest) allocs) =
    (Ok (map wire_view ps), mkReader rest allocs').
Proof.
  intros Hok Henc. revert ws allocs.
  induction Hok as [|p ps Hp Hok IH]; intros ws allocs Hm Hmax.
  - injection Hm as <-. by exists allocs.
  - apply Forall_cons in Henc as [Ep Henc]. cbn [mapM] in Hm.
    apply bind_Ok in Hm as (w & Hw & Hm). apply bind_Ok in Hm as (ws' & Hws & Hm).
    injection Hm as <-. apply Forall_cons in Hmax as [Hmw Hmax].
    cbn [length read_packets concat]. rewrite <- app_assoc.
    unfold mbind at 1, rd_bind at 1.
    rewrite (frames_read w (wire_view p)) by (done || by apply encode_packet_frames).
    destruct (IH Henc ws' (allocs ++ [declared_length w]) Hws Hmax) as [allocs' Hr].
    unfold mbind, rd_bind. rewrite Hr. by exists allocs'.
Qed.

Lemma read_packets_stream_witness :
  ∃ ws allocs', mapM encode_packet [sample_connect; sample_publish] = Ok ws ∧
    read_packets 2 100 (mkReader (concat ws ++ []) []) =
      (Ok [sample_connect; sample_publish], mkReader [] allocs').
Proof.
  eexists.
  destruct (read_packets_stream [sample_connect; sample_publish] _ [] 100 []
    ltac:(repeat constructor; (apply sample_connect_ok || apply sample_publish_ok))
    ltac:(repeat constructor; (apply sample_connect_ok || apply sample_publish_ok))
    ltac:(vm_compute; reflexivity)
    ltac:(repeat constructor; vm_compute; discriminate)) as [allocs' H].
  exists allocs'. split; [vm_compute; reflexivity | exact H].
Defined.

(** A buffer that holds only a proper prefix of an encoded packet is left
    untouched and the decoder asks for more bytes. *)
Theorem decode_incomplete p w k max_size :
  packet_ok p → encodable p → encode_packet p = Ok w →
  declared_length w ≤ max_size → (k < length w)%nat →
  decode_packet_from_bytes (take k w) max_size = (Ok None, take k w).
Proof.
  intros Hok Henc Hw Hmax Hk.
  destruct (encode_packet_frames p w Hok Henc Hw) as (first & t & body & -> & Ht & Hl & _).
  rewrite declared_length_frame in Hmax by done. by apply (decode_frame_prefix _ t).
Qed.

Lemma decode_incomplete_witness :
  ∃ w, encode_packet sample_publish = Ok w ∧
    decode_packet_from_bytes (take 5 w) 1000 = (Ok None, take 5 w).
Proof.
  eexists. split; [vm_compute; reflexivity|].
  apply (decode_incomplete sample_publish);
    [apply sample_publish_ok | apply sample_publish_ok | vm_compute; reflexivity | |].
  - vm_compute. discriminate.
  - vm_compute. lia.
Defined.

(** C37: the two PUBLISH encoders agree.  [write_publish_packet], which streams the
    payload separately, leaves every writer (including one that fails half way)
    exactly as [write_packet] does, with the same result; a packet one refuses
    the other refuses with the same error and no byte written; and on a transport
    that takes every byte it succeeds exactly on the encodable packets. *)
Theorem write_publish_packet_agrees p w :
  opt_ok (λ n, 0 ≤ n) (wr_room w) →
  write_publish_packet p w = write_packet (Packet_Publish p) w ∧
  (∀ e, encode_publish p = Err e → write_publish_packet p w = (Err (Codec e), w)) ∧
  (wr_room w = None → (write_publish_packet p w).1 = Ok tt ↔ publish_encodable p).
Proof.
  intros Hw. rewrite write_publish_packet_eq by done. split_and!; [done | |].
  - intros e He. unfold write_packet. cbn [encode_packet]. by rewrite He.
  - intros Hr. unfold write_packet, write_all. cbn [encode_packet]. rewrite Hr. split.
    + destruct (encode_publish p) as [b| | |] eqn:E; try done.
      intros _. by apply encode_publish_Ok in E as [? _].
    + intros H. by erewrite (proj2 (encode_publish_Ok _ _)) by eauto.
Qed.

Lemma write_publish_packet_agrees_witness :
  write_publish_packet
    (mkPublishPacket (str_of "a/b") (str_of "x") false AtLeastOnce false (Some 42))
    (mkWriter [] (Some 7)) =
  write_packet sample_publish (mkWriter [] (Some 7)).
Proof.
  apply (write_publish_packet_agrees
    (mkPublishPacket (str_of "a/b") (str_of "x") false AtLeastOnce false (Some 42))
    (mkWriter [] (Some 7))). cbn. lia.
Defined.

(** The PUBLISH encoder accepts a packet exactly when its topic fits the
    two-byte length field, a packet of QoS 1 or 2 carries a packet id other than
    0, and the body fits the remaining-length field. *)
Theorem encode_publish_accepts p :
  is_ok (encode_packet (Packet_Publish p)) = true ↔ publish_encodable p.
Proof.
  cbn [encode_packet]. split.
  - intros H. destruct (encode_publish p) as [w| | |] eqn:E; try done.
    by apply encode_publish_Ok in E as [? _].
  - intros H. by erewrite (proj2 (encode_publish_Ok _ _)) by eauto.
Qed.

(** A CONNECT whose client id is one byte too long for its length field. *)
Definition oversized_connect : ConnectPacket :=
  mkConnectPacket (replicate (Z.to_nat 65536) 97) true 60 None None None.

(** Only PUBLISH guards its length fields.  [encode_packet] accepts a CONNECT
    with a 65536-byte client id, but the length it writes is truncated to 0, and
    the frame decodes to a CONNECT with an empty client id. *)
Theorem encode_connect_truncates :
  ∃ w, encode_packet (Packet_Connect oversized_connect) = Ok w ∧
    decode_packet_from_bytes w MQTT_SPEC_MAX_PACKET_SIZE =
      (Ok (Some (Packet_Connect (mkConnectPacket [] true 60 None None None))), []).
Proof. eexists. split; [reflexivity|]. vm_compute. reflexivity. Qed.

(** A SUBSCRIBE without filters is encoded, into a frame the decoder of the
    same crate refuses. *)
Theorem encode_empty_subscribe_refused id :
  ∃ w, encode_packet (Packet_Subscribe (mkSubscribePacket id [])) = Ok w ∧
    (decode_packet_from_bytes w MQTT_SPEC_MAX_PACKET_SIZE).1 = Err (Codec UnexpectedEof).
Proof.
  eexists. split; [reflexivity|].
  change (encode_subscribe _) with (frame 0x82 (to_be_bytes id)).
  rewrite <- (app_nil_r (frame _ _)).
  by rewrite (decode_frame _ PacketType_Subscribe) by done.
Qed.
