(* ===== verification/Reencode.v ===== *)
(** Packets that came from the wire go back to it: what the decoder of
    [src/src/codec/decode.rs] returns, the encoders of [src/src/codec/encode.rs]
    accept, in no more bytes, and the result decodes to the same packet. *)

From S2P Require Import Prelude.
From S2P Require Import Types.
From S2P Require Import Wire.
From S2P Require Import Varint.
From S2P Require Import Primitives.
From S2P Require Import Encode.
From S2P Require Import Decode.
From S2P Require Import Codec.
From S2P Require Import Roundtrip.

(** ** The size of an encoded body *)

Lemma len_enc_field s : len (enc_field s) = field_size s.
Proof. unfold enc_field, field_size. by autorewrite with mqtt_len. Qed.

Lemma len_concat_map {A} (f : A → bytes) (g : A → Z) l :
  (∀ a, len (f a) = g a) → len (concat (map f l)) = sum_size g l.
Proof.
  intros Hf. induction l as [|a l IH]; [done|]. cbn [map concat sum_size foldr].
  rewrite len_app, Hf, IH. done.
Qed.

Lemma connect_body_size c : len (connect_body c) = body_size (Packet_Connect c).
Proof.
  rewrite connect_body_eq. unfold enc_will, enc_opt. cbn [body_size].
  autorewrite with mqtt_len. rewrite !len_enc_field.
  destruct (conn_will c), (conn_username c), (conn_password c); cbn [will_size opt_size];
    rewrite ?len_app, ?len_enc_field; change (len (str_of "MQTT")) with 4;
    change (len (@nil Z)) with 0; lia.
Qed.

Lemma subscribe_body_size s : len (subscribe_body s) = body_size (Packet_Subscribe s).
Proof.
  rewrite subscribe_body_eq, len_app, len_to_be_bytes. cbn [body_size]. f_equal.
  apply len_concat_map. intros t. unfold enc_sub. rewrite len_app, len_enc_field. done.
Qed.

Lemma unsubscribe_body_size u : len (unsubscribe_body u) = body_size (Packet_Unsubscribe u).
Proof.
  rewrite unsubscribe_body_eq, len_app, len_to_be_bytes. cbn [body_size]. f_equal.
  apply len_concat_map, len_enc_field.
Qed.

Lemma suback_body_size s : len (suback_body s) = body_size (Packet_Suback s).
Proof.
  rewrite suback_body_eq, len_app, len_to_be_bytes. cbn [body_size]. f_equal.
  unfold len. by rewrite length_map.
Qed.

(** ** Received packets *)

(** The one thing the decoder accepts and the encoder refuses. *)
Definition zero_id (p : Packet) : Prop :=
  match p with Packet_Publish p => pub_packet_id p = Some 0 | _ => False end.

#[global] Instance zero_id_dec p : Decision (zero_id p).
Proof. destruct p; cbn; apply _. Defined.

Lemma received_mono n m p : received n p → n ≤ m → received m p.
Proof. intros (? & ? & ?) ?. split_and!; [done | done | lia]. Qed.

Lemma received_encodable p : received MQTT_SPEC_MAX_PACKET_SIZE p → encodable p.
Proof.
  intros (_ & Hf & Hs).
  destruct p; cbn [encodable fields_fit] in *; try done.
  - destruct Hf as [? ?]. by rewrite subscribe_body_size.
  - by rewrite suback_body_size.
  - destruct Hf as [? ?]. by rewrite unsubscribe_body_size.
Qed.

Lemma received_publish p :
  received MQTT_SPEC_MAX_PACKET_SIZE (Packet_Publish p) → pub_packet_id p ≠ Some 0 →
  publish_encodable p.
Proof.
  intros (_ & [Hf Hid] & Hs) Hz. split_and!; [done | | exact Hs].
  intros Hq. apply Hid in Hq as [id Hid']. exists id. split; [done|]. by intros ->.
Qed.

Lemma received_wire_view n p : received n p → wire_view p = p.
Proof.
  intros (_ & Hf & _). destruct p as [| |p| | | | | | | | | | |]; try done.
  destruct Hf as [_ Hid]. cbn. case_bool_decide as Hq; [|by destruct p].
  destruct p as [t b d q r [id|]]; cbn in *; [|done].
  exfalso. by apply Hid; [eexists|].
Qed.

(** A received packet can be encoded, into a frame of its body size. *)
Lemma received_encode p :
  received MQTT_SPEC_MAX_PACKET_SIZE p → ¬ zero_id p →
  ∃ w, encode_packet p = Ok w ∧ frames w p ∧ declared_length w = body_size p.
Proof.
  intros Hr Hz. pose proof (received_encodable p Hr) as He.
  assert (∃ first body, encode_packet p = Ok (frame first body) ∧ len body = body_size p)
    as (first & body & Hw & Hl).
  { destruct p as [c|a|p|id|id|id|id|s|s|u|id| | |]; cbn [encode_packet].
    - exists 0x10, (connect_body c). split; [done | apply connect_body_size].
    - by eexists 0x20, [_; _].
    - pose proof (received_publish p Hr Hz) as Hp.
      eexists _, (publish_body p (publish_wire_id p)).
      split; [by apply encode_publish_Ok|]. apply publish_body_len_eq, validate_publish_Ok.
      by destruct Hp as (? & ? & _).
    - eexists _, _. by rewrite id_packet_frame.
    - eexists _, _. by rewrite id_packet_frame.
    - eexists _, _. by rewrite id_packet_frame.
    - eexists _, _. by rewrite id_packet_frame.
    - exists 0x82, (subscribe_body s). split; [done | apply subscribe_body_size].
    - exists 0x90, (suback_body s). split; [done | apply suback_body_size].
    - exists 0xA2, (unsubscribe_body u). split; [done | apply unsubscribe_body_size].
    - eexists _, _. by rewrite id_packet_frame.
    - by exists 0xC0, [].
    - by exists 0xD0, [].
    - by exists 0xE0, []. }
  exists (frame first body). split; [done|]. split.
  - rewrite <- (received_wire_view _ _ Hr). by apply encode_packet_frames; [apply Hr|..].
  - rewrite declared_length_frame; [done|]. rewrite Hl. apply Hr.
Qed.

(** C25: decoding then encoding.  Every packet the decoder returns, other than a
    PUBLISH with packet id 0, is accepted by the encoder; its encoding is again
    within the cap, and decodes to the same packet. *)
Theorem decode_reencode data max_size p buf rest :
  bytes_ok data → decode_packet_from_bytes data max_size = (Ok (Some p), buf) →
  if decide (zero_id p) then is_ok (encode_packet p) = false
  else ∃ w, encode_packet p = Ok w ∧ declared_length w ≤ max_size ∧
    decode_packet_from_bytes (w ++ rest) max_size = (Ok (Some p), rest).
Proof.
  intros Hok Hd. pose proof (decode_packet_any data max_size Hok) as Hm. rewrite Hd in Hm.
  cbn in Hm. assert (received MQTT_SPEC_MAX_PACKET_SIZE p) as Hr
    by (eapply received_mono; [exact Hm | lia]).
  case_decide as Hz.
  - destruct p as [| |p| | | | | | | | | | |]; try done. cbn in Hz.
    destruct (encode_packet _) eqn:E; try done. cbn [encode_packet] in E.
    apply encode_publish_Ok in E as [(_ & Hid & _) _]. destruct Hr as (_ & [_ Hq] & _).
    destruct Hid as (id & Hid & Hne); [by apply Hq; rewrite Hz | congruence].
  - destruct (received_encode p Hr Hz) as (w & Hw & Hf & Hl).
    destruct Hm as (_ & _ & Hs). exists w. split_and!; [done | lia|].
    apply frames_decode; [done | lia].
Qed.

Lemma decode_reencode_witness :
  ∃ w, encode_packet (Packet_Publish (mkPublishPacket (str_of "a") [7] true AtLeastOnce false
      (Some 9))) = Ok w ∧ declared_length w ≤ 100 ∧
    decode_packet_from_bytes (w ++ [1]) 100 =
      (Ok (Some (Packet_Publish (mkPublishPacket (str_of "a") [7] true AtLeastOnce false
         (Some 9)))), [1]).
Proof.
  apply (decode_reencode [0x3A; 6; 0; 1; 97; 0; 9; 7] 100
    (Packet_Publish (mkPublishPacket (str_of "a") [7] true AtLeastOnce false (Some 9))) [] [1]);
    [repeat constructor; vm_compute; done | vm_compute; reflexivity].
Defined.
