(* ===== verification/Topic.v ===== *)
(** [src/src/topic.rs]: topic and filter parsing and validation.  A [str] is its
    bytes; ['/'], ['+'] and ['#'] are ASCII, so splitting and searching for them
    on characters and on bytes is the same. *)

From S2P Require Import Prelude.
From S2P Require Import Types.

Definition slash : Z := 47.
Definition plus_char : Z := 43.
Definition hash_char : Z := 35.

(** ** str methods *)

(** [str::split(c)]: at least one segment, the empty one for the empty string. *)
Fixpoint split (c : Z) (s : str) : list str :=
  match s with
  | [] => [[]]
  | b :: s =>
      if b =? c then [] :: split c s
      else match split c s with
           | seg :: segs => (b :: seg) :: segs
           | [] => [[b]]
           end
  end.

(** [[String]::join(c)]. *)
Fixpoint join (c : Z) (segs : list str) : str :=
  match segs with
  | [] => []
  | [seg] => seg
  | seg :: segs => seg ++ c :: join c segs
  end.

(** [str::contains(c)]. *)
Definition contains (s : str) (c : Z) : bool := existsb (Z.eqb c) s.

(** [hotaru_core::url::PathPattern], a type of another crate of which this one
    uses the constructors; the payload of [Regex] is opaque here. *)
Inductive PathPattern (R : Type) :=
  | Literal (s : str)
  | Any
  | Regex (r : R)
  | AnyPath.
Arguments Literal {R} s.
Arguments Any {R}.
Arguments Regex {R} r.
Arguments AnyPath {R}.

Definition MAX_TOPIC_LEN : Z := 65535.

Section topic.
Context {R : Type}.

(** The loop of [parse_subscribe_filter]. *)
Fixpoint parse_filter_loop (last_idx i : Z) (segments : list str)
    (patterns : list (PathPattern R)) : mresult (list (PathPattern R)) :=
  match segments with
  | [] => Ok patterns
  | seg :: segments =>
      if bool_decide (seg = [plus_char])
      then parse_filter_loop last_idx (i + 1) segments (patterns ++ [Any])
      else if bool_decide (seg = [hash_char])
      then
        if negb (i =? last_idx) then Err (Protocol HashWildcardNotTerminal)
        else parse_filter_loop last_idx (i + 1) segments (patterns ++ [AnyPath])
      else if contains seg plus_char || contains seg hash_char
      then Err (Protocol WildcardMixedWithLiteral)
      else parse_filter_loop last_idx (i + 1) segments (patterns ++ [Literal seg])
  end.

Definition parse_subscribe_filter (filter : str) : mresult (list (PathPattern R)) :=
  if bool_decide (filter = []) then Err (Protocol EmptyTopic)
  else if MAX_TOPIC_LEN <? len filter then Err (Protocol TopicTooLong)
  else
    let segments := split slash filter in
    let last_idx := len segments - 1 in
    parse_filter_loop last_idx 0 segments [].

Fixpoint parse_publish_loop (segments : list str) (patterns : list (PathPattern R)) :
    mresult (list (PathPattern R)) :=
  match segments with
  | [] => Ok patterns
  | seg :: segments =>
      if contains seg plus_char || contains seg hash_char
      then Err (Protocol WildcardInPublishTopic)
      else parse_publish_loop segments (patterns ++ [Literal seg])
  end.

Definition parse_publish_topic (topic : str) : mresult (list (PathPattern R)) :=
  if bool_decide (topic = []) then Err (Protocol EmptyTopic)
  else if MAX_TOPIC_LEN <? len topic then Err (Protocol TopicTooLong)
  else parse_publish_loop (split slash topic) [].

Definition pattern_to_wire (p : PathPattern R) : str :=
  match p with
  | Literal s => s
  | Any | Regex _ => [plus_char]
  | AnyPath => [hash_char]
  end.

Definition path_to_wire_filter (path : list (PathPattern R)) : str :=
  join slash (map pattern_to_wire path).
End topic.

Fixpoint validate_filter_loop (last_idx i : Z) (segments : list str) : mresult unit :=
  match segments with
  | [] => Ok tt
  | seg :: segments =>
      if bool_decide (seg = [plus_char])
      then validate_filter_loop last_idx (i + 1) segments
      else if bool_decide (seg = [hash_char])
      then
        if negb (i =? last_idx) then Err (Protocol HashWildcardNotTerminal)
        else validate_filter_loop last_idx (i + 1) segments
      else if contains seg plus_char || contains seg hash_char
      then Err (Protocol WildcardMixedWithLiteral)
      else validate_filter_loop last_idx (i + 1) segments
  end.

Definition validate_subscribe_filter (filter : str) : mresult unit :=
  if bool_decide (filter = []) then Err (Protocol EmptyTopic)
  else if MAX_TOPIC_LEN <? len filter then Err (Protocol TopicTooLong)
  else
    let segments := split slash filter in
    let last_idx := len segments - 1 in
    validate_filter_loop last_idx 0 segments.

Fixpoint validate_publish_loop (segments : list str) : mresult unit :=
  match segments with
  | [] => Ok tt
  | seg :: segments =>
      if contains seg plus_char || contains seg hash_char
      then Err (Protocol WildcardInPublishTopic)
      else validate_publish_loop segments
  end.

Definition validate_publish_topic (topic : str) : mresult unit :=
  if bool_decide (topic = []) then Err (Protocol EmptyTopic)
  else if MAX_TOPIC_LEN <? len topic then Err (Protocol TopicTooLong)
  else validate_publish_loop (split slash topic).

(** ** Splitting and joining *)

Lemma split_not_nil c s : split c s ≠ [].
Proof. destruct s; cbn; [done|]. repeat case_match; done. Qed.

Lemma join_split c s : join c (split c s) = s.
Proof.
  induction s as [|b s IH]; [done|]. cbn [split].
  destruct (Z.eqb_spec b c) as [->|Hb].
  - pose proof (split_not_nil c s). destruct (split c s) as [|seg segs]; [done|].
    by rewrite <- IH.
  - pose proof (split_not_nil c s). destruct (split c s) as [|seg segs]; [done|].
    rewrite <- IH. by destruct segs.
Qed.

Lemma split_no_sep c s : c ∉ s → split c s = [s].
Proof.
  induction s as [|b s IH]; [done|]. intros [Hb Hs]%not_elem_of_cons. cbn [split].
  rewrite (proj2 (Z.eqb_neq _ _)) by done. by rewrite (IH Hs).
Qed.

Lemma split_app_sep c s t : c ∉ s → split c (s ++ c :: t) = s :: split c t.
Proof.
  induction s as [|b s IH]; cbn [app split].
  - intros _. by rewrite Z.eqb_refl.
  - intros [Hb Hs]%not_elem_of_cons. rewrite (proj2 (Z.eqb_neq _ _)) by done.
    by rewrite (IH Hs).
Qed.

Lemma split_join c segs :
  segs ≠ [] → Forall (λ s, c ∉ s) segs → split c (join c segs) = segs.
Proof.
  intros Hne Hf. induction Hf as [|s segs Hs Hf IH]; [done|].
  destruct segs as [|s' segs]; [by apply split_no_sep|].
  change (join c (s :: s' :: segs)) with (s ++ c :: join c (s' :: segs)).
  rewrite split_app_sep by done. by rewrite IH.
Qed.

Lemma split_segments c s : Forall (λ seg, c ∉ seg) (split c s).
Proof.
  induction s as [|b s IH]; cbn [split].
  { constructor; [apply not_elem_of_nil|constructor]. }
  destruct (Z.eqb_spec b c) as [->|Hb]; [constructor; [apply not_elem_of_nil|done]|].
  pose proof (split_not_nil c s). destruct (split c s) as [|seg segs]; [done|].
  apply Forall_cons in IH as [Hs IH]. constructor; [|done].
  by apply not_elem_of_cons.
Qed.

(** The bytes of the segments are the bytes of the string, separators apart. *)
Lemma elem_of_split c s b : b ≠ c → (∃ seg, seg ∈ split c s ∧ b ∈ seg) ↔ b ∈ s.
Proof.
  intros Hb. induction s as [|a s IH]; cbn [split].
  { split; [|by intros ?%not_elem_of_nil].
    intros (seg & ->%list_elem_of_singleton & ?). done. }
  rewrite elem_of_cons, <- IH. destruct (Z.eqb_spec a c) as [->|Ha].
  - split.
    + intros (seg & [->|Hs]%elem_of_cons & Hin); [by apply not_elem_of_nil in Hin|]. eauto.
    + intros [?|(seg & ? & ?)]; [done|]. exists seg. split; [by right|done].
  - pose proof (split_not_nil c s). destruct (split c s) as [|seg segs]; [done|].
    split.
    + intros (g & [->|Hg]%elem_of_cons & Hin).
      * apply elem_of_cons in Hin as [->|Hin]; [by left|]. right. exists seg. split; [by left|done].
      * right. exists g. split; [by right|done].
    + intros [->|(g & [->|Hg]%elem_of_cons & Hin)].
      * exists (a :: seg). split; by left.
      * exists (a :: seg). split; [by left|by right].
      * exists g. split; [by right|done].
Qed.

Lemma contains_spec s c : contains s c = true ↔ c ∈ s.
Proof.
  unfold contains. rewrite existsb_exists. split.
  - intros (x & Hx & ->%Z.eqb_eq). by apply list_elem_of_In.
  - intros Hc. exists c. split; [by apply list_elem_of_In | apply Z.eqb_refl].
Qed.

(** ** The grammar *)

(** A segment without wildcard characters. *)
Definition plain_segment (seg : str) : bool :=
  negb (contains seg plus_char || contains seg hash_char).
Arguments plain_segment : simpl never.

(** [+] and wildcard-free segments anywhere, [#] at the end. *)
Fixpoint segments_ok (segs : list str) : bool :=
  match segs with
  | [] => true
  | seg :: segs =>
      (bool_decide (seg = [plus_char]) || plain_segment seg ||
       (bool_decide (seg = [hash_char]) && bool_decide (segs = []))) &&
      segments_ok segs
  end.

Definition valid_filter (f : str) : Prop :=
  f ≠ [] ∧ len f ≤ MAX_TOPIC_LEN ∧ segments_ok (split slash f) = true.

Section grammar.
Context {R : Type}.
Implicit Types ps : list (PathPattern R).

Definition segment_pattern (seg : str) : PathPattern R :=
  if bool_decide (seg = [plus_char]) then Any
  else if bool_decide (seg = [hash_char]) then AnyPath
  else Literal seg.

Lemma parse_filter_loop_Ok segs last_idx i acc ps :
  last_idx = i + len segs - 1 →
  parse_filter_loop last_idx i segs acc = Ok ps ↔
  segments_ok segs = true ∧ ps = acc ++ map segment_pattern segs.
Proof.
  revert i acc. induction segs as [|seg segs IH]; intros i acc Hl; cbn.
  { rewrite app_nil_r. split; [by intros [= <-] | by intros [_ ->]]. }
  rewrite len_cons in Hl. specialize (IH (i + 1)). unfold segment_pattern at 1.
  destruct (decide (seg = [plus_char])) as [->|Hp].
  { rewrite bool_decide_true by done. cbn. rewrite IH by lia. by rewrite <- app_assoc. }
  rewrite (bool_decide_false (seg = [plus_char])) by done.
  destruct (decide (seg = [hash_char])) as [->|Hh].
  - rewrite !(bool_decide_true ([hash_char] = [hash_char])) by done.
    destruct (decide (segs = [])) as [->|Hs].
    + rewrite (@len_nil str) in Hl. rewrite (proj2 (Z.eqb_eq i _)) by lia. cbn.
      split; [by intros [= <-] | by intros [_ ->]].
    + rewrite (proj2 (Z.eqb_neq _ _)).
      2: { destruct segs; [done|]. rewrite len_cons in Hl. pose proof (len_nonneg segs). lia. }
      rewrite (bool_decide_false (segs = [])) by done. cbn.
      split; [done | by intros [? _]].
  - rewrite !(bool_decide_false (seg = [hash_char])) by done. unfold plain_segment.
    destruct (contains seg plus_char || contains seg hash_char); cbn.
    { split; [done | by intros [? _]]. }
    rewrite IH by lia. by rewrite <- app_assoc.
Qed.

Lemma parse_subscribe_filter_Ok f ps :
  parse_subscribe_filter f = Ok ps ↔
  valid_filter f ∧ ps = map segment_pattern (split slash f).
Proof.
  unfold parse_subscribe_filter, valid_filter.
  case_bool_decide as Hf; [split; [done | by intros [[? _] _]]|].
  destruct (Z.ltb_spec MAX_TOPIC_LEN (len f)).
  { split; [done|]. intros [(_ & ? & _) _]. lia. }
  cbv zeta. rewrite parse_filter_loop_Ok by lia. tauto.
Qed.

Lemma validate_loop_parse segs last_idx i (acc : list (PathPattern R)) :
  validate_filter_loop last_idx i segs =
    _ ← parse_filter_loop last_idx i segs acc; Ok tt.
Proof.
  revert i acc. induction segs as [|seg segs IH]; intros i acc; cbn; [done|].
  repeat case_match; eauto.
Qed.

Lemma segment_pattern_wire seg : pattern_to_wire (segment_pattern seg) = seg.
Proof. unfold segment_pattern. by repeat (case_bool_decide; subst). Qed.
End grammar.

Lemma validate_publish_loop_parse {R} segs (acc : list (PathPattern R)) :
  validate_publish_loop segs = _ ← parse_publish_loop segs acc; Ok tt.
Proof.
  revert acc. induction segs as [|seg segs IH]; intros acc; cbn; [done|].
  repeat case_match; eauto.
Qed.

Lemma validate_publish_loop_Ok segs :
  validate_publish_loop segs = Ok tt ↔ Forall (λ seg, plain_segment seg = true) segs.
Proof.
  unfold plain_segment.
  induction segs as [|seg segs IH]; cbn; [split; [constructor|done]|].
  rewrite Forall_cons. destruct (contains seg plus_char || contains seg hash_char); cbn.
  - split; [done | by intros [? _]].
  - rewrite IH. tauto.
Qed.

Lemma validate_filter_Ok f :
  validate_subscribe_filter f = Ok tt ↔ valid_filter f.
Proof.
  assert (H : validate_subscribe_filter f =
    _ ← parse_subscribe_filter (R:=unit) f; Ok tt).
  { unfold validate_subscribe_filter, parse_subscribe_filter.
    repeat case_match; try done. apply validate_loop_parse. }
  rewrite H. destruct (parse_subscribe_filter f) as [ps| | |] eqn:E; cbn.
  - apply parse_subscribe_filter_Ok in E. tauto.
  - split; [done|]. intros Hv.
    by rewrite (proj2 (parse_subscribe_filter_Ok f _) (conj Hv eq_refl)) in E.
  - split; [done|]. intros Hv.
    by rewrite (proj2 (parse_subscribe_filter_Ok f _) (conj Hv eq_refl)) in E.
  - split; [done|]. intros Hv.
    by rewrite (proj2 (parse_subscribe_filter_Ok f _) (conj Hv eq_refl)) in E.
Qed.

(** ** Theorems *)

(** The fast validator of SUBSCRIBE filters is the parser with its result
    dropped: it accepts the same filters and gives the same error on the
    others, and both accept exactly the grammar ([+] or a wildcard-free segment
    anywhere, [#] only as the last segment). *)
Lemma validate_subscribe_filter_parse {R} f :
  validate_subscribe_filter f = (_ ← parse_subscribe_filter (R:=R) f; Ok tt) ∧
  (validate_subscribe_filter f = Ok tt ↔ valid_filter f).
Proof.
  split; [|apply validate_filter_Ok].
  unfold validate_subscribe_filter, parse_subscribe_filter.
  repeat case_match; try done. apply validate_loop_parse.
Qed.

(** A PUBLISH topic is accepted exactly when it is not empty, has at most
    65535 bytes and contains neither [+] nor [#]; the fast validator agrees with
    the parser on every topic, errors included. *)
Lemma validate_publish_topic_parse {R} t :
  validate_publish_topic t = (_ ← parse_publish_topic (R:=R) t; Ok tt) ∧
  (validate_publish_topic t = Ok tt ↔
   t ≠ [] ∧ len t ≤ MAX_TOPIC_LEN ∧ (plus_char ∉ t) ∧ (hash_char ∉ t)).
Proof.
  unfold validate_publish_topic, parse_publish_topic. split.
  { repeat case_match; try done. apply validate_publish_loop_parse. }
  case_bool_decide as Ht; [split; [done | by intros [? _]]|].
  destruct (Z.ltb_spec MAX_TOPIC_LEN (len t)).
  { split; [done|]. intros (_ & ? & _). lia. }
  rewrite validate_publish_loop_Ok, Forall_forall. unfold plain_segment.
  setoid_rewrite negb_true_iff. setoid_rewrite orb_false_iff.
  setoid_rewrite <- not_true_iff_false. setoid_rewrite contains_spec.
  rewrite <- (elem_of_split slash t plus_char), <- (elem_of_split slash t hash_char) by done.
  split.
  - intros H'. split_and!; [done | lia | |]; intros (seg & Hs & Hin);
      by apply (H' seg Hs) in Hin.
  - intros (_ & _ & Hp & Hh) seg Hs. split; intros ?; [apply Hp | apply Hh]; eauto.
Qed.

(** C39: the validators on the hot paths do what the parsers do.  For SUBSCRIBE filters
    and for PUBLISH topics alike, the validator that builds nothing accepts what the
    parser accepts and reports the same error on the rest; a filter is accepted
    exactly if it follows the grammar ([+] or a wildcard-free segment anywhere, [#]
    only as the last segment), a topic exactly if it is not empty, has at most 65535
    bytes and contains neither wildcard. *)
Theorem validators_parse {R} s :
  (validate_subscribe_filter s = (_ ← parse_subscribe_filter (R:=R) s; Ok tt) ∧
   (validate_subscribe_filter s = Ok tt ↔ valid_filter s)) ∧
  (validate_publish_topic s = (_ ← parse_publish_topic (R:=R) s; Ok tt) ∧
   (validate_publish_topic s = Ok tt ↔
    s ≠ [] ∧ len s ≤ MAX_TOPIC_LEN ∧ (plus_char ∉ s) ∧ (hash_char ∉ s))).
Proof. split; [apply validate_subscribe_filter_parse | apply validate_publish_topic_parse]. Qed.

(** Printing a parsed filter gives the filter back. *)
Lemma filter_parse_print {R} f (ps : list (PathPattern R)) :
  parse_subscribe_filter f = Ok ps → path_to_wire_filter ps = f.
Proof.
  intros [_ ->]%parse_subscribe_filter_Ok. unfold path_to_wire_filter.
  rewrite map_map. rewrite (map_ext _ id) by apply segment_pattern_wire.
  rewrite map_id. apply join_split.
Qed.

(** A path that stands for itself on the wire: literals without separators and
    wildcards, no regular expression, [AnyPath] only at the end. *)
Fixpoint wire_path {R} (ps : list (PathPattern R)) : bool :=
  match ps with
  | [] => true
  | Literal s :: ps => plain_segment s && negb (contains s slash) && wire_path ps
  | Any :: ps => wire_path ps
  | AnyPath :: ps => bool_decide (ps = nil)
  | Regex _ :: _ => false
  end.

Lemma wire_path_segments {R} (ps : list (PathPattern R)) :
  wire_path ps = true →
  segments_ok (map pattern_to_wire ps) = true ∧
  map (segment_pattern (R:=R)) (map pattern_to_wire ps) = ps ∧
  Forall (λ s, slash ∉ s) (map pattern_to_wire ps).
Proof.
  induction ps as [|p ps IH]; intros H; cbn in *; [by repeat split|].
  assert (Hw : ∀ c : Z, c ≠ slash → slash ∉ [c])
    by (intros c Hc ?%list_elem_of_singleton; congruence).
  destruct p as [s| |r|]; try done.
  - apply andb_true_iff in H as [[Hp Hs]%andb_true_iff H].
    destruct (IH H) as (H1 & H2 & H3).
    assert (Hne : s ≠ [plus_char] ∧ s ≠ [hash_char]) by (split; intros ->; done).
    destruct Hne as [Hne1 Hne2]. cbn [pattern_to_wire]. rewrite H1, Hp. unfold segment_pattern at 1.
    rewrite !(bool_decide_false (s = _)) by done. cbn. rewrite H2.
    split_and!; [done | done | constructor; [|done]].
    apply negb_true_iff in Hs. rewrite <- contains_spec. by rewrite Hs.
  - destruct (IH H) as (H1 & H2 & H3). rewrite H1, H2.
    split_and!; [done | done | constructor; [by apply Hw | done]].
  - apply bool_decide_eq_true in H as ->.
    split_and!; [done | done | constructor; [by apply Hw | done]].
Qed.

(** What the parser yields stands for itself. *)
Lemma segments_wire_path {R} segs :
  segments_ok segs = true → Forall (λ s, slash ∉ s) segs →
  wire_path (map (segment_pattern (R:=R)) segs) = true.
Proof.
  induction segs as [|seg segs IH]; [done|].
  intros [Hseg Hsegs]%andb_prop [Hs Hss]%Forall_cons. cbn [map]. unfold segment_pattern at 1.
  specialize (IH Hsegs Hss).
  destruct (decide (seg = [plus_char])) as [->|Hp]; [done|].
  rewrite bool_decide_false in Hseg |- * by done. cbn [orb] in Hseg.
  destruct (decide (seg = [hash_char])) as [->|Hh].
  - rewrite (bool_decide_true ([hash_char] = [hash_char])) in Hseg |- * by done.
    change (plain_segment [hash_char]) with false in Hseg. cbn in Hseg |- *.
    apply bool_decide_eq_true in Hseg as ->. done.
  - rewrite (bool_decide_false (seg = [hash_char])) in Hseg |- * by done.
    cbn [andb] in Hseg. rewrite orb_false_r in Hseg. cbn [wire_path]. rewrite Hseg, IH.
    destruct (contains seg slash) eqn:E; [|done]. by apply contains_spec in E.
Qed.

(** C40: filters and paths are two forms of the same thing.  The parser accepts a filter
    with a path exactly when that path stands for itself on the wire and prints to
    this filter, which is not empty and at most 65535 bytes long: printing a parsed
    filter gives the filter back, and parsing a printed path gives the path back. *)
Theorem filter_roundtrip {R} f (ps : list (PathPattern R)) :
  parse_subscribe_filter f = Ok ps ↔
  path_to_wire_filter ps = f ∧ wire_path ps = true ∧ ps ≠ [] ∧ f ≠ [] ∧ len f ≤ MAX_TOPIC_LEN.
Proof.
  split.
  - intros Hp. pose proof (filter_parse_print f ps Hp) as Hprint.
    apply parse_subscribe_filter_Ok in Hp as [(Hf & Hl & Hok) ->].
    split_and!; [done | | |done|done].
    + apply segments_wire_path; [done | apply split_segments].
    + intros Hn%fmap_nil_inv. by apply (split_not_nil slash f).
  - intros (<- & Hw & Hne & Hf & Hl). destruct (wire_path_segments ps Hw) as (H1 & H2 & H3).
    apply parse_subscribe_filter_Ok. unfold valid_filter, path_to_wire_filter in *.
    rewrite split_join by (done || by destruct ps). done.
Qed.

Example filter_roundtrip_sample :
  parse_subscribe_filter (R:=unit) (str_of "a/+//#") =
    Ok [Literal (str_of "a"); Any; Literal []; AnyPath].
Proof. vm_compute. reflexivity. Qed.
