(* ===== verification/Receiver.v ===== *)
(** The receiving half of QoS 2, as both roles have it: a publish is stashed under its
    packet id and handed on when its PUBREL arrives.

    [src/src/protocol/server.rs] hands publishes to its worker and
    [src/src/protocol/client.rs] hands them to its endpoints.  What they have in
    common is the [Receiver] interface; that a flow is handed on exactly once is
    proved from it. *)

From S2P Require Import Prelude.
From S2P Require Import Types.

(** [B] is what a publish is handed on as. *)
Class Receiver (B : Type) := {
  now : PublishPacket → B;              (* a QoS 0 or 1 publish, at once *)
  later : Z → IncomingPublish → B;      (* a stashed one, on its PUBREL *)
  item : Z → B → Prop;                  (* belongs to the QoS 2 flow of an id *)
  fits : Z → IncomingPublish → Prop;    (* what the stash holds under an id *)
  item_dec id b :: Decision (item id b);
  now_item id pb : pub_qos pb ≠ ExactlyOnce → ¬ item id (now pb);
  later_item id i st : fits i st → item id (later i st) → id = i;
  fits_new id pb :
    pub_qos pb = ExactlyOnce → pub_packet_id pb = Some id →
    fits id (incoming_from_packet pb) ∧ item id (later id (incoming_from_packet pb));
}.

(** A publish of the QoS 2 flow [id] on the wire. *)
Definition qos2_publish (id : Z) (p : Packet) : Prop :=
  ∃ pb, p = Packet_Publish pb ∧ pub_qos pb = ExactlyOnce ∧ pub_packet_id pb = Some id.

Section receiver.
Context `{Receiver B}.
Implicit Types stash : gmap Z IncomingPublish.

(** One packet: the stash after it, and what is handed on. *)
Definition receive_with (stash : gmap Z IncomingPublish) (p : Packet) :
    gmap Z IncomingPublish * list B :=
  match p with
  | Packet_Publish pb =>
      match pub_qos pb, pub_packet_id pb with
      | ExactlyOnce, Some id => (<[id := incoming_from_packet pb]> stash, [])
      | ExactlyOnce, None => (stash, [])
      | _, _ => (stash, [now pb])
      end
  | Packet_Pubrel id =>
      (delete id stash, match stash !! id with Some stored => [later id stored] | None => [] end)
  | _ => (stash, [])
  end.

Fixpoint receive_all (stash : gmap Z IncomingPublish) (ps : list Packet) :
    gmap Z IncomingPublish * list B :=
  match ps with
  | [] => (stash, [])
  | p :: ps =>
      let '(stash, out) := receive_with stash p in
      let '(stash, out') := receive_all stash ps in
      (stash, out ++ out')
  end.

Lemma receive_all_cons stash p ps :
  receive_all stash (p :: ps) =
    ((receive_all (receive_with stash p).1 ps).1,
     (receive_with stash p).2 ++ (receive_all (receive_with stash p).1 ps).2).
Proof.
  cbn [receive_all]. destruct (receive_with stash p) as [st out]. cbn [fst snd].
  by destruct (receive_all st ps).
Qed.

Lemma receive_all_app stash ps1 ps2 :
  receive_all stash (ps1 ++ ps2) =
    ((receive_all (receive_all stash ps1).1 ps2).1,
     (receive_all stash ps1).2 ++ (receive_all (receive_all stash ps1).1 ps2).2).
Proof.
  revert stash. induction ps1 as [|p ps1 IH]; intros stash; cbn [app].
  { cbn. by destruct (receive_all stash ps2). }
  rewrite !receive_all_cons, IH. cbn. by rewrite app_assoc.
Qed.

(** What the stash holds stays in its place. *)
Lemma receive_fits stash p : map_Forall fits stash → map_Forall fits (receive_with stash p).1.
Proof.
  intros Hst. destruct p as [k|a|pb|i|i|i|i|s|s|u|i| | |]; cbn; try done.
  - destruct (pub_qos pb) eqn:Hq, (pub_packet_id pb) as [i|] eqn:Hi; cbn; try done.
    apply map_Forall_insert_2; [|done]. by apply (fits_new i pb).
  - by apply map_Forall_delete.
Qed.

Lemma receive_items id stash p :
  map_Forall fits stash → p ≠ Packet_Pubrel id → filter (item id) (receive_with stash p).2 = [].
Proof.
  intros Hst Hp. destruct p as [k|a|pb|i|i|i|i|s|s|u|i| | |]; cbn; try done.
  - destruct (pub_qos pb) eqn:Hq, (pub_packet_id pb) as [i|]; cbn; try done;
      rewrite decide_False; try done; apply now_item; by rewrite Hq.
  - destruct (stash !! i) as [st|] eqn:Hi; [|done]. rewrite filter_cons, decide_False; [done|].
    intros Heq%later_item; [congruence|]. by apply Hst.
Qed.

Lemma receive_stash id stash p :
  ¬ qos2_publish id p → p ≠ Packet_Pubrel id → (receive_with stash p).1 !! id = stash !! id.
Proof.
  intros Hq Hp. destruct p as [k|a|pb|i|i|i|i|s|s|u|i| | |]; cbn; try done.
  - destruct (pub_qos pb) eqn:Hqos, (pub_packet_id pb) as [i|] eqn:Hi; cbn; try done.
    rewrite lookup_insert_ne; [done|]. intros ->. apply Hq. by exists pb.
  - by rewrite lookup_delete_ne by congruence.
Qed.

Lemma receive_all_fits stash ps : map_Forall fits stash → map_Forall fits (receive_all stash ps).1.
Proof.
  revert stash. induction ps as [|p ps IH]; intros stash Hst; [done|].
  rewrite receive_all_cons. by apply IH, receive_fits.
Qed.

Lemma receive_all_items id stash ps :
  map_Forall fits stash → Packet_Pubrel id ∉ ps → filter (item id) (receive_all stash ps).2 = [].
Proof.
  revert stash. induction ps as [|p ps IH]; intros stash Hst Hps; [done|].
  apply not_elem_of_cons in Hps as [Hp Hps]. rewrite receive_all_cons. cbn [snd].
  rewrite filter_app, receive_items, IH by auto using receive_fits. done.
Qed.

Lemma receive_all_stash id stash ps :
  Packet_Pubrel id ∉ ps → Forall (λ p, ¬ qos2_publish id p) ps →
  (receive_all stash ps).1 !! id = stash !! id.
Proof.
  revert stash. induction ps as [|p ps IH]; intros stash Hps Hq; [done|].
  apply not_elem_of_cons in Hps as [Hp Hps]. apply Forall_cons in Hq as [Hq Hqs].
  rewrite receive_all_cons. cbn [fst]. rewrite IH by done. by apply receive_stash.
Qed.

(** Without a new publish of the flow nothing more is released, however often
    PUBREL is repeated. *)
Lemma receive_all_released id stash ps :
  map_Forall fits stash → stash !! id = None → Forall (λ p, ¬ qos2_publish id p) ps →
  filter (item id) (receive_all stash ps).2 = [].
Proof.
  revert stash. induction ps as [|p ps IH]; intros stash Hst Hs Hq; [done|].
  apply Forall_cons in Hq as [Hq Hqs]. rewrite receive_all_cons. cbn [snd].
  assert (filter (item id) (receive_with stash p).2 = [] ∧ (receive_with stash p).1 !! id = None)
    as [Hf Hn].
  { destruct (decide (p = Packet_Pubrel id)) as [->|Hp].
    - cbn. rewrite Hs. split; [done | apply lookup_delete_eq].
    - split; [by apply receive_items | by rewrite receive_stash]. }
  rewrite filter_app, Hf, IH by auto using receive_fits. done.
Qed.

(** Exactly once per flow: the last PUBLISH before the PUBREL is handed on, once. *)
Lemma receive_exactly_once id stash pb ps0 ps1 ps2 :
  map_Forall fits stash → pub_qos pb = ExactlyOnce → pub_packet_id pb = Some id →
  Packet_Pubrel id ∉ ps0 ++ ps1 → Forall (λ p, ¬ qos2_publish id p) (ps1 ++ ps2) →
  filter (item id) (receive_all stash
    (ps0 ++ [Packet_Publish pb] ++ ps1 ++ [Packet_Pubrel id] ++ ps2)).2 =
    [later id (incoming_from_packet pb)].
Proof.
  intros Hst Hq Hid [Hr0 Hr1]%not_elem_of_app [Hp1 Hp2]%Forall_app.
  destruct (fits_new id pb Hq Hid) as [Hfits Hitem].
  rewrite !receive_all_app. cbn [snd fst].
  rewrite !filter_app, (receive_all_items id stash ps0) by done. cbn [app].
  pose proof (receive_all_fits stash ps0 Hst) as Hst1. set (st1 := (receive_all stash ps0).1) in *.
  assert (receive_all st1 [Packet_Publish pb] = (<[id := incoming_from_packet pb]> st1, []))
    as -> by (cbn; by rewrite Hq, Hid).
  cbn [fst snd]. set (st2 := <[id := _]> st1).
  assert (map_Forall fits st2) as Hst2 by by apply map_Forall_insert_2.
  rewrite (receive_all_items id st2 ps1) by done.
  pose proof (receive_all_fits st2 ps1 Hst2) as Hst3. set (st3 := (receive_all st2 ps1).1) in *.
  assert (st3 !! id = Some (incoming_from_packet pb)) as H3.
  { unfold st3. rewrite receive_all_stash by done. apply lookup_insert_eq. }
  assert (receive_all st3 [Packet_Pubrel id] =
    (delete id st3, [later id (incoming_from_packet pb)])) as -> by (cbn; by rewrite H3).
  cbn [fst snd]. rewrite (receive_all_released id _ ps2)
    by (done || apply lookup_delete_eq || by apply map_Forall_delete).
  by rewrite filter_cons, decide_True.
Qed.
End receiver.
