(* ===== verification/Session.v ===== *)
(** [src/src/session.rs]: the logical session: packet-id allocation, the ack
    slots of outbound flows, the inbound QoS 2 stash, the retransmit records and
    the one-time bind.

    The [oneshot] channels are cells of [ss_waiters], a waiter being the index
    of its cell: the receiving half sees [Waiting] until the sending half sends
    ([Delivered]) or is dropped ([SenderDropped]).  A slot of [pending_acks]
    owns the sending half of its waiter, so removing or overwriting a slot drops
    that sender.  The [DashMap]s are finite maps; each method below is one call,
    and the two lookups of the [wake_*] methods are separate definitions so that
    what happens between them can be discussed. *)

From S2P Require Import Prelude.
From S2P Require Import Types.

Inductive AckKind := Kind_Puback | Kind_Pubrec | Kind_Pubcomp.

#[global] Instance AckKind_eq_dec : EqDecision AckKind.
Proof. solve_decision. Defined.

(** What a waiter receives: a packet id, SUBACK codes, or the unit. *)
Inductive AckValue :=
  | Ack_id (id : Z)
  | Ack_codes (codes : list SubackCode)
  | Ack_unit.

Inductive oneshot :=
  | Waiting
  | Delivered (v : AckValue)
  | SenderDropped.

Inductive AckSlot :=
  | Slot_Puback (w : nat)
  | Slot_Pubrec (w : nat)
  | Slot_Pubcomp (w : nat)
  | Slot_Suback (w : nat)
  | Slot_Unsuback (w : nat).

#[global] Instance AckSlot_eq_dec : EqDecision AckSlot.
Proof. solve_decision. Defined.

Definition slot_waiter (slot : AckSlot) : nat :=
  match slot with
  | Slot_Puback w | Slot_Pubrec w | Slot_Pubcomp w | Slot_Suback w
  | Slot_Unsuback w => w
  end.

Record BindInfo := mkBindInfo { bind_client_id : str; bind_keep_alive : Z }.

Record MqttSession := mkSession {
  ss_pkt_counter : Z;
  ss_bind : option BindInfo;
  ss_qos2_recv : gmap Z IncomingPublish;
  ss_pending_acks : gmap Z AckSlot;
  ss_outbound_inflight : gmap Z PublishPacket;
  ss_waiters : list oneshot;
}.

Definition bind_new : option BindInfo := None.

Definition session_new : MqttSession := mkSession 0 bind_new ∅ ∅ ∅ [].

(** ** Field updates *)

Definition set_pending (s : MqttSession) (acks : gmap Z AckSlot) (ws : list oneshot) :
    MqttSession :=
  mkSession (ss_pkt_counter s) (ss_bind s) (ss_qos2_recv s) acks
    (ss_outbound_inflight s) ws.

Definition set_qos2 (s : MqttSession) (m : gmap Z IncomingPublish) : MqttSession :=
  mkSession (ss_pkt_counter s) (ss_bind s) m (ss_pending_acks s)
    (ss_outbound_inflight s) (ss_waiters s).

Definition set_inflight (s : MqttSession) (m : gmap Z PublishPacket) : MqttSession :=
  mkSession (ss_pkt_counter s) (ss_bind s) (ss_qos2_recv s) (ss_pending_acks s)
    m (ss_waiters s).

(** ** oneshot cells *)

(** Dropping the sending half: a waiter that was not served sees an error. *)
Definition drop_sender (w : nat) (ws : list oneshot) : list oneshot :=
  match ws !! w with
  | Some Waiting => <[w := SenderDropped]> ws
  | _ => ws
  end.

(** [Sender::send]: consumes the sender. *)
Definition send_oneshot (w : nat) (v : AckValue) (ws : list oneshot) : list oneshot :=
  match ws !! w with
  | Some Waiting => <[w := Delivered v]> ws
  | _ => ws
  end.

(** ** Packet ids *)

(** [fetch_add(1)] wraps at 16 bits and returns the old value. *)
Definition allocate_packet_id (s : MqttSession) : MqttSession * Z :=
  let old := ss_pkt_counter s in
  let id := as_u16 (old + 1) in
  (mkSession (as_u16 (old + 1)) (ss_bind s) (ss_qos2_recv s) (ss_pending_acks s)
     (ss_outbound_inflight s) (ss_waiters s),
   if id =? 0 then 1 else id).

(** ** Ack slots *)

(** [DashMap::insert] drops the value it replaces, and with it its sender. *)
Definition pending_insert (s : MqttSession) (id : Z) (slot : AckSlot) : MqttSession :=
  set_pending s (<[id := slot]> (ss_pending_acks s))
    (match ss_pending_acks s !! id with
     | Some old => drop_sender (slot_waiter old) (ss_waiters s)
     | None => ss_waiters s
     end).

(** [oneshot::channel()]: a fresh cell. *)
Definition oneshot_channel (s : MqttSession) : MqttSession * nat :=
  (set_pending s (ss_pending_acks s) (ss_waiters s ++ [Waiting]), length (ss_waiters s)).

Definition kind_slot (kind : AckKind) (w : nat) : AckSlot :=
  match kind with
  | Kind_Puback => Slot_Puback w
  | Kind_Pubrec => Slot_Pubrec w
  | Kind_Pubcomp => Slot_Pubcomp w
  end.

Definition park_publish_ack_waiter (s : MqttSession) (id : Z) (kind : AckKind) :
    MqttSession * nat :=
  let '(s, w) := oneshot_channel s in
  (pending_insert s id (kind_slot kind w), w).

Definition park_suback_waiter (s : MqttSession) (id : Z) : MqttSession * nat :=
  let '(s, w) := oneshot_channel s in
  (pending_insert s id (Slot_Suback w), w).

Definition park_unsuback_waiter (s : MqttSession) (id : Z) : MqttSession * nat :=
  let '(s, w) := oneshot_channel s in
  (pending_insert s id (Slot_Unsuback w), w).

(** Removing a slot without serving its waiter. *)
Definition cancel_ack_waiter (s : MqttSession) (id : Z) : MqttSession :=
  match ss_pending_acks s !! id with
  | Some old =>
      set_pending s (delete id (ss_pending_acks s))
        (drop_sender (slot_waiter old) (ss_waiters s))
  | None => s
  end.

(** The first lookup of [wake_ack_waiter]: the kind the slot waits for. *)
Definition slot_kind (slot : AckSlot) : option AckKind :=
  match slot with
  | Slot_Puback _ => Some Kind_Puback
  | Slot_Pubrec _ => Some Kind_Pubrec
  | Slot_Pubcomp _ => Some Kind_Pubcomp
  | Slot_Suback _ | Slot_Unsuback _ => None
  end.

Definition wake_ack_guard (s : MqttSession) (id : Z) (expected : AckKind) : bool :=
  match ss_pending_acks s !! id with
  | None => false
  | Some slot => bool_decide (slot_kind slot = Some expected)
  end.

(** Its second lookup: remove the slot and serve whoever is in it; a SUBACK or
    UNSUBACK slot is put back. *)
Definition wake_ack_commit (s : MqttSession) (id : Z) : MqttSession :=
  match ss_pending_acks s !! id with
  | None => s
  | Some slot =>
      match slot with
      | Slot_Puback w | Slot_Pubrec w | Slot_Pubcomp w =>
          set_pending s (delete id (ss_pending_acks s))
            (send_oneshot w (Ack_id id) (ss_waiters s))
      | other =>
          set_pending s (<[id := other]> (delete id (ss_pending_acks s))) (ss_waiters s)
      end
  end.

Definition wake_ack_waiter (s : MqttSession) (id : Z) (expected : AckKind) : MqttSession :=
  if wake_ack_guard s id expected then wake_ack_commit s id else s.

(** [wake_suback_waiter] and [wake_unsuback_waiter], in the same two lookups. *)
Definition wake_suback_guard (s : MqttSession) (id : Z) : bool :=
  match ss_pending_acks s !! id with
  | Some (Slot_Suback _) => true
  | _ => false
  end.

Definition wake_suback_commit (s : MqttSession) (id : Z) (codes : list SubackCode) :
    MqttSession :=
  match ss_pending_acks s !! id with
  | None => s
  | Some (Slot_Suback w) =>
      set_pending s (delete id (ss_pending_acks s))
        (send_oneshot w (Ack_codes codes) (ss_waiters s))
  | Some other =>
      set_pending s (<[id := other]> (delete id (ss_pending_acks s))) (ss_waiters s)
  end.

Definition wake_suback_waiter (s : MqttSession) (id : Z) (codes : list SubackCode) :
    MqttSession :=
  if wake_suback_guard s id then wake_suback_commit s id codes else s.

Definition wake_unsuback_guard (s : MqttSession) (id : Z) : bool :=
  match ss_pending_acks s !! id with
  | Some (Slot_Unsuback _) => true
  | _ => false
  end.

Definition wake_unsuback_commit (s : MqttSession) (id : Z) : MqttSession :=
  match ss_pending_acks s !! id with
  | None => s
  | Some (Slot_Unsuback w) =>
      set_pending s (delete id (ss_pending_acks s))
        (send_oneshot w Ack_unit (ss_waiters s))
  | Some other =>
      set_pending s (<[id := other]> (delete id (ss_pending_acks s))) (ss_waiters s)
  end.

Definition wake_unsuback_waiter (s : MqttSession) (id : Z) : MqttSession :=
  if wake_unsuback_guard s id then wake_unsuback_commit s id else s.

(** ** Retransmit records and the QoS 2 stash *)

Definition clear_outbound_inflight (s : MqttSession) (id : Z) : MqttSession :=
  set_inflight s (delete id (ss_outbound_inflight s)).

Definition track_outbound_inflight (s : MqttSession) (id : Z) (p : PublishPacket) :
    MqttSession :=
  set_inflight s (<[id := p]> (ss_outbound_inflight s)).

Definition has_outbound_inflight (s : MqttSession) (id : Z) : bool :=
  bool_decide (is_Some (ss_outbound_inflight s !! id)).

Definition stash_qos2_publish (s : MqttSession) (id : Z) (p : IncomingPublish) :
    MqttSession :=
  set_qos2 s (<[id := p]> (ss_qos2_recv s)).

Definition take_qos2_publish (s : MqttSession) (id : Z) :
    MqttSession * option IncomingPublish :=
  (set_qos2 s (delete id (ss_qos2_recv s)), ss_qos2_recv s !! id).

(** [abandon]: [clear] on the three maps; clearing [pending_acks] drops every
    sender in it. *)
Definition drop_slots (acks : gmap Z AckSlot) (ws : list oneshot) : list oneshot :=
  foldr (λ '(_, slot) ws, drop_sender (slot_waiter slot) ws) ws (map_to_list acks).

Definition abandon (s : MqttSession) : MqttSession :=
  mkSession (ss_pkt_counter s) (ss_bind s) ∅ ∅ ∅
    (drop_slots (ss_pending_acks s) (ss_waiters s)).

(** ** The one-time bind ([OnceLockBindInfo]) *)

Definition bind_set (s : MqttSession) (info : BindInfo) : MqttSession * outcome BindInfo unit :=
  match ss_bind s with
  | None =>
      (mkSession (ss_pkt_counter s) (Some info) (ss_qos2_recv s) (ss_pending_acks s)
         (ss_outbound_inflight s) (ss_waiters s), Ok tt)
  | Some _ => (s, Err info)
  end.

Definition bind_get (s : MqttSession) : option BindInfo := ss_bind s.
Definition session_client_id (s : MqttSession) : option str := bind_client_id <$> ss_bind s.
Definition session_keep_alive (s : MqttSession) : option Z := bind_keep_alive <$> ss_bind s.

(** ** Invariant: every waiter is parked or resolved

    A cell is [Waiting] exactly when one slot of [pending_acks] owns its sender:
    no waiter is left behind without a sender, and no slot points at a waiter
    that was already served. *)
Record waits_ok (acks : gmap Z AckSlot) (ws : list oneshot) : Prop := {
  waits_parked id slot :
    acks !! id = Some slot → ws !! slot_waiter slot = Some Waiting;
  waits_unique id1 id2 slot1 slot2 :
    acks !! id1 = Some slot1 → acks !! id2 = Some slot2 →
    slot_waiter slot1 = slot_waiter slot2 → id1 = id2;
  waits_owned w :
    ws !! w = Some Waiting → ∃ id slot, acks !! id = Some slot ∧ slot_waiter slot = w;
}.

Definition session_inv (s : MqttSession) : Prop :=
  u16_ok (ss_pkt_counter s) ∧ waits_ok (ss_pending_acks s) (ss_waiters s).

Lemma waits_ok_empty ws : (∀ w, ws !! w ≠ Some Waiting) → waits_ok ∅ ws.
Proof. intros H. split; [set_solver | set_solver |]. intros w Hw. by apply H in Hw. Qed.

(** Removing a slot and resolving its waiter. *)
Lemma waits_ok_resolve acks ws id slot v :
  waits_ok acks ws → acks !! id = Some slot → v ≠ Waiting →
  waits_ok (delete id acks) (<[slot_waiter slot := v]> ws).
Proof.
  intros [H1 H2 H3] Hid Hv. split.
  - intros id' slot' [Hne Hs]%lookup_delete_Some.
    rewrite list_lookup_insert_ne; eauto.
  - intros ? ? ? ? [? ?]%lookup_delete_Some [? ?]%lookup_delete_Some. eauto.
  - intros w [(_ & Hx & _)|[Hne Hw]]%list_lookup_insert_Some; [done|].
    destruct (H3 w Hw) as (id' & slot' & Hs & Hw').
    exists id', slot'. split; [|done]. apply lookup_delete_Some. split; [|done].
    intros <-. congruence.
Qed.

Lemma drop_sender_waiting w ws :
  ws !! w = Some Waiting → drop_sender w ws = <[w := SenderDropped]> ws.
Proof. unfold drop_sender. by intros ->. Qed.

Lemma send_oneshot_waiting w v ws :
  ws !! w = Some Waiting → send_oneshot w v ws = <[w := Delivered v]> ws.
Proof. unfold send_oneshot. by intros ->. Qed.

Lemma waits_ok_drop acks ws id slot :
  waits_ok acks ws → acks !! id = Some slot →
  waits_ok (delete id acks) (drop_sender (slot_waiter slot) ws).
Proof.
  intros H Hid. rewrite drop_sender_waiting by eauto using waits_parked.
  by apply waits_ok_resolve.
Qed.

Lemma waits_ok_send acks ws id slot v :
  waits_ok acks ws → acks !! id = Some slot →
  waits_ok (delete id acks) (send_oneshot (slot_waiter slot) v ws).
Proof.
  intros H Hid. rewrite send_oneshot_waiting by eauto using waits_parked.
  by apply waits_ok_resolve.
Qed.

(** Parking a fresh waiter under a free id. *)
Lemma waits_ok_park acks ws id slot :
  waits_ok acks ws → acks !! id = None → slot_waiter slot = length ws →
  waits_ok (<[id := slot]> acks) (ws ++ [Waiting]).
Proof.
  intros [H1 H2 H3] Hid Hw. split.
  - intros id' slot' [[<- <-]|[Hne Hs]]%lookup_insert_Some.
    + by rewrite Hw, list_lookup_middle.
    + rewrite lookup_app_l; eauto using lookup_lt_Some.
  - assert (Hlt : ∀ i sl, acks !! i = Some sl → slot_waiter sl ≠ length ws).
    { intros i sl Hs He. apply H1, lookup_lt_Some in Hs. lia. }
    intros i1 i2 s1 s2 [[<- <-]|[? ?]]%lookup_insert_Some
      [[<- <-]|[? ?]]%lookup_insert_Some; try done; eauto; intros He.
    + exfalso. rewrite Hw in He. eapply Hlt; eauto using eq_sym.
    + exfalso. rewrite Hw in He. eapply Hlt; eauto.
  - intros w [Hws|[Hge Hws]]%lookup_app_Some.
    + destruct (H3 w Hws) as (i & sl & Hs & He). exists i, sl. split; [|done].
      rewrite lookup_insert_ne; [done|]. intros <-. congruence.
    + exists id, slot. rewrite lookup_insert_eq. split; [done|].
      apply list_lookup_singleton_Some in Hws as [? _]. lia.
Qed.

Lemma drop_sender_app w ws ws' :
  (w < length ws)%nat → drop_sender w (ws ++ ws') = drop_sender w ws ++ ws'.
Proof.
  intros Hw. unfold drop_sender. rewrite lookup_app_l by done.
  destruct (ws !! w) as [[]|]; try done. by rewrite insert_app_l.
Qed.

Lemma length_drop_sender w ws : length (drop_sender w ws) = length ws.
Proof. unfold drop_sender. repeat case_match; by rewrite ?length_insert. Qed.

(** Parking under an id that may be taken: the waiter it had is dropped. *)
Lemma park_inv s id slot :
  session_inv s → slot_waiter slot = length (ss_waiters s) →
  session_inv (pending_insert (oneshot_channel s).1 id slot).
Proof.
  intros [Hc Hw] Hs. split; [done|]. cbn.
  destruct (ss_pending_acks s !! id) as [old|] eqn:E.
  - pose proof (waits_parked _ _ Hw _ _ E) as Hp%lookup_lt_Some.
    rewrite drop_sender_app by done. rewrite <- insert_delete_eq.
    apply waits_ok_park; [by apply waits_ok_drop | apply lookup_delete_eq |].
    by rewrite length_drop_sender.
  - by apply waits_ok_park.
Qed.

Lemma drop_slots_waiting acks ws w :
  drop_slots acks ws !! w = Some Waiting →
  ws !! w = Some Waiting ∧ ∀ id slot, acks !! id = Some slot → slot_waiter slot ≠ w.
Proof.
  unfold drop_slots. setoid_rewrite <- elem_of_map_to_list.
  generalize (map_to_list acks) as l. intros l.
  induction l as [|[id slot] l IH]; cbn; [intros; split; [done | by intros ? ? ?%not_elem_of_nil]|].
  set (ws' := foldr _ ws l) in *. unfold drop_sender at 1. intros Hw.
  assert (Hw' : ws' !! w = Some Waiting ∧ slot_waiter slot ≠ w).
  { destruct (ws' !! slot_waiter slot) as [[]|] eqn:E.
    - apply list_lookup_insert_Some in Hw as [(_ & ? & _)|[? ?]]; done.
    - split; [done|]. intros <-. congruence.
    - split; [done|]. intros <-. congruence.
    - split; [done|]. intros <-. congruence. }
  destruct Hw' as [Hw' Hne]. destruct (IH Hw') as [? Hl]. split; [done|].
  intros id' slot' [[= -> ->]|Hin]%elem_of_cons; eauto.
Qed.

(** After [abandon] nobody waits any more. *)
Lemma abandon_resolves s w :
  waits_ok (ss_pending_acks s) (ss_waiters s) →
  ss_waiters (abandon s) !! w ≠ Some Waiting.
Proof.
  intros Hok Hw. cbn in Hw. apply drop_slots_waiting in Hw as [Hw Hn].
  destruct (waits_owned _ _ Hok w Hw) as (id & slot & Hs & He). by eapply Hn.
Qed.

(** ** Steps *)

(** The calls the rest of the crate makes on a session, in any order. *)
Inductive session_step : MqttSession → MqttSession → Prop :=
  | step_allocate s : session_step s (allocate_packet_id s).1
  | step_park_publish s id k : session_step s (park_publish_ack_waiter s id k).1
  | step_park_suback s id : session_step s (park_suback_waiter s id).1
  | step_park_unsuback s id : session_step s (park_unsuback_waiter s id).1
  | step_cancel s id : session_step s (cancel_ack_waiter s id)
  | step_wake_ack s id k : session_step s (wake_ack_waiter s id k)
  | step_wake_ack_commit s id : session_step s (wake_ack_commit s id)
  | step_wake_suback s id codes : session_step s (wake_suback_waiter s id codes)
  | step_wake_suback_commit s id codes : session_step s (wake_suback_commit s id codes)
  | step_wake_unsuback s id : session_step s (wake_unsuback_waiter s id)
  | step_wake_unsuback_commit s id : session_step s (wake_unsuback_commit s id)
  | step_clear s id : session_step s (clear_outbound_inflight s id)
  | step_track s id p : session_step s (track_outbound_inflight s id p)
  | step_stash s id p : session_step s (stash_qos2_publish s id p)
  | step_take s id : session_step s (take_qos2_publish s id).1
  | step_abandon s : session_step s (abandon s)
  | step_bind s info : session_step s (bind_set s info).1.

Lemma wake_ack_commit_inv s id : session_inv s → session_inv (wake_ack_commit s id).
Proof.
  intros [Hc Hw]. unfold wake_ack_commit.
  destruct (ss_pending_acks s !! id) as [slot|] eqn:E; [|done].
  split; [by destruct slot|].
  destruct slot; cbn; try (by eapply (waits_ok_send _ _ _ _ (Ack_id id) Hw E)).
  all: by rewrite insert_delete_id.
Qed.

Lemma wake_suback_commit_inv s id codes :
  session_inv s → session_inv (wake_suback_commit s id codes).
Proof.
  intros [Hc Hw]. unfold wake_suback_commit.
  destruct (ss_pending_acks s !! id) as [slot|] eqn:E; [|done].
  split; [by destruct slot|].
  destruct slot; cbn; try (by eapply (waits_ok_send _ _ _ _ (Ack_codes codes) Hw E)).
  all: by rewrite insert_delete_id.
Qed.

Lemma wake_unsuback_commit_inv s id :
  session_inv s → session_inv (wake_unsuback_commit s id).
Proof.
  intros [Hc Hw]. unfold wake_unsuback_commit.
  destruct (ss_pending_acks s !! id) as [slot|] eqn:E; [|done].
  split; [by destruct slot|].
  destruct slot; cbn; try (by eapply (waits_ok_send _ _ _ _ Ack_unit Hw E)).
  all: by rewrite insert_delete_id.
Qed.

Lemma session_step_inv s s' : session_step s s' → session_inv s → session_inv s'.
Proof.
  intros Hstep Hinv. pose proof Hinv as [Hc Hw]. destruct Hstep; cbn.
  - split; [apply as_u16_ok | done].
  - apply (park_inv s id); [done | by destruct k].
  - by apply (park_inv s id).
  - by apply (park_inv s id).
  - unfold cancel_ack_waiter. destruct (ss_pending_acks s !! id) eqn:E; [|done].
    split; [done | by apply waits_ok_drop].
  - unfold wake_ack_waiter. case_match; [by apply wake_ack_commit_inv | done].
  - by apply wake_ack_commit_inv.
  - unfold wake_suback_waiter. case_match; [by apply wake_suback_commit_inv | done].
  - by apply wake_suback_commit_inv.
  - unfold wake_unsuback_waiter. case_match; [by apply wake_unsuback_commit_inv | done].
  - by apply wake_unsuback_commit_inv.
  - done.
  - done.
  - done.
  - done.
  - split; [done|]. apply waits_ok_empty. intros w. by apply (abandon_resolves s).
  - by destruct s as [? []].
Qed.

Lemma session_reachable_inv s : rtc session_step session_new s → session_inv s.
Proof.
  intros H. assert (H0 : session_inv session_new) by (split; [done | by apply waits_ok_empty]).
  revert H0. induction H; eauto using session_step_inv.
Qed.

(** ** Sequences of allocations *)

Fixpoint allocate_n (n : nat) (s : MqttSession) : MqttSession * list Z :=
  match n with
  | O => (s, [])
  | S n =>
      let '(s, id) := allocate_packet_id s in
      let '(s, ids) := allocate_n n s in
      (s, id :: ids)
  end.

Definition nth_packet_id (counter : Z) (k : nat) : Z :=
  let id := as_u16 (counter + Z.of_nat k + 1) in if id =? 0 then 1 else id.

Lemma allocate_n_lookup n s k :
  (k < n)%nat →
  (allocate_n n s).2 !! k = Some (nth_packet_id (ss_pkt_counter s) k).
Proof.
  revert s k. induction n as [|n IH]; intros s k Hk; [lia|].
  cbn [allocate_n]. destruct (allocate_packet_id s) as [s' id] eqn:E.
  specialize (IH s'). destruct (allocate_n n s') as [s'' ids]. cbn [snd] in *.
  unfold allocate_packet_id in E. injection E as Hs' Hid.
  destruct k as [|k].
  - unfold nth_packet_id. rewrite Z.add_0_r, Hid. done.
  - transitivity (ids !! k); [done|]. rewrite (IH k) by lia. f_equal. rewrite <- Hs'. unfold nth_packet_id, as_u16. cbn.
    assert (Hm : ((ss_pkt_counter s + 1) mod 65536 + Z.of_nat k + 1) mod 65536 =
      (ss_pkt_counter s + Z.of_nat (S k) + 1) mod 65536).
    { rewrite <- Z.add_assoc, Zplus_mod_idemp_l. f_equal. lia. }
    by rewrite Hm.
Qed.

Lemma nth_packet_id_range c k : 1 ≤ nth_packet_id c k ≤ 65535.
Proof.
  unfold nth_packet_id. pose proof (as_u16_ok (c + Z.of_nat k + 1)) as H.
  unfold u16_ok in H. case_match; zify_bool; lia.
Qed.

(** ** Theorems *)

(** C35: in every reachable state of a session each waiter is accounted for: it is
    [Waiting] exactly when one slot of [pending_acks] holds its sender, and no
    two slots share a waiter.  No interleaving of the session's methods can
    strand a waiter or serve it twice. *)
Theorem session_waiters_accounted s :
  rtc session_step session_new s → session_inv s.
Proof. apply session_reachable_inv. Qed.

Lemma session_waiters_accounted_witness :
  session_inv (wake_ack_waiter (park_publish_ack_waiter session_new 7 Kind_Pubrec).1 7 Kind_Pubrec).
Proof.
  apply session_waiters_accounted.
  eapply rtc_l; [apply (step_park_publish _ 7 Kind_Pubrec)|].
  eapply rtc_l; [apply (step_wake_ack _ 7 Kind_Pubrec)|]. apply rtc_refl.
Defined.

(** [abandon] resolves every waiter of a reachable session and empties its
    tables: nobody keeps waiting, no stashed QoS 2 publish can be released and
    no retransmit record is left. *)
Theorem abandon_clears s :
  rtc session_step session_new s →
  (∀ w, ss_waiters (abandon s) !! w ≠ Some Waiting) ∧
  (∀ w v, ss_waiters s !! w = Some (Delivered v) →
     ss_waiters (abandon s) !! w = Some (Delivered v)) ∧
  (∀ id, (take_qos2_publish (abandon s) id).2 = None) ∧
  (∀ id, has_outbound_inflight (abandon s) id = false).
Proof.
  intros Hr%session_reachable_inv. split_and!.
  - intros w. apply abandon_resolves, Hr.
  - intros w v Hw. cbn. unfold drop_slots.
    induction (map_to_list (ss_pending_acks s)) as [|[id slot] l IH]; cbn; [done|].
    unfold drop_sender at 1. case_match; [|done]. case_match; try done.
    rewrite list_lookup_insert_ne; [done|]. intros <-. congruence.
  - done.
  - done.
Qed.

Lemma abandon_clears_witness :
  ss_waiters (abandon (park_suback_waiter session_new 3).1) !! 0%nat ≠ Some Waiting.
Proof.
  apply (abandon_clears (park_suback_waiter session_new 3).1).
  eapply rtc_l; [apply (step_park_suback _ 3)|]. apply rtc_refl.
Defined.

Lemma park_publish_cells s id k :
  session_inv s →
  let s1 := (park_publish_ack_waiter s id k).1 in
  let w := (park_publish_ack_waiter s id k).2 in
  ss_pending_acks s1 = <[id := kind_slot k w]> (ss_pending_acks s) ∧
  ss_waiters s1 !! w = Some Waiting.
Proof.
  intros Hinv. cbv zeta. split; [done|].
  assert (Hi : session_inv (park_publish_ack_waiter s id k).1)
    by (eapply session_step_inv; [constructor | done]).
  destruct Hi as [_ Hi].
  assert (He : ss_pending_acks (park_publish_ack_waiter s id k).1 !! id =
    Some (kind_slot k (park_publish_ack_waiter s id k).2)) by apply lookup_insert_eq.
  apply (waits_parked _ _ Hi) in He. by destruct k.
Qed.

(** An ack wakes the waiter parked for that kind of ack under that id, and
    only that one.  Parking and then waking with the same kind delivers the id
    and frees the slot; an ack of another kind, a SUBACK or an UNSUBACK leaves
    the session exactly as it was. *)
Theorem park_wake_roundtrip s id k :
  session_inv s →
  let '(s1, w) := park_publish_ack_waiter s id k in
  let s2 := wake_ack_waiter s1 id k in
  ss_waiters s2 !! w = Some (Delivered (Ack_id id)) ∧
  ss_pending_acks s2 = delete id (ss_pending_acks s) ∧
  (∀ w', w' ≠ w → ss_waiters s2 !! w' = ss_waiters s1 !! w') ∧
  (∀ k', k' ≠ k → wake_ack_waiter s1 id k' = s1) ∧
  (∀ codes, wake_suback_waiter s1 id codes = s1) ∧
  wake_unsuback_waiter s1 id = s1.
Proof.
  intros Hinv. destruct (park_publish_cells s id k Hinv) as [Hp Hw].
  destruct (park_publish_ack_waiter s id k) as [s1 w]. cbn [fst snd] in *.
  assert (Hl : ss_pending_acks s1 !! id = Some (kind_slot k w))
    by (rewrite Hp; apply lookup_insert_eq).
  assert (Hs : wake_ack_waiter s1 id k =
    set_pending s1 (delete id (ss_pending_acks s1))
      (<[w := Delivered (Ack_id id)]> (ss_waiters s1))).
  { unfold wake_ack_waiter, wake_ack_guard, wake_ack_commit. rewrite Hl.
    rewrite bool_decide_true by (by destruct k). rewrite <- send_oneshot_waiting by done.
    by destruct k. }
  cbv zeta. rewrite Hs. cbn. split_and!.
  - rewrite list_lookup_insert_eq; eauto using lookup_lt_Some.
  - by rewrite Hp, delete_insert_eq.
  - intros w' Hne. by rewrite list_lookup_insert_ne.
  - intros k' Hk. unfold wake_ack_waiter, wake_ack_guard. rewrite Hl.
    rewrite bool_decide_false; [done|]. destruct k, k'; done.
  - intros codes. unfold wake_suback_waiter, wake_suback_guard. rewrite Hl. by destruct k.
  - unfold wake_unsuback_waiter, wake_unsuback_guard. rewrite Hl. by destruct k.
Qed.

Lemma park_wake_roundtrip_witness :
  ss_waiters (wake_ack_waiter
    (park_publish_ack_waiter session_new 7 Kind_Pubcomp).1 7 Kind_Pubcomp) !! 0%nat =
  Some (Delivered (Ack_id 7)).
Proof.
  apply (park_wake_roundtrip session_new 7 Kind_Pubcomp).
  split; [vm_compute; split; congruence | apply waits_ok_empty; intros w; by destruct w].
Defined.

(** An allocated packet id is never 0, and two allocations fewer than 65535
    apart give different ids except around the wrap of the counter, where the
    id 1 that stands for 0 is followed by 1 itself. *)
Theorem allocate_distinct s n i j a b :
  u16_ok (ss_pkt_counter s) →
  (allocate_n n s).2 !! i = Some a → (allocate_n n s).2 !! j = Some b →
  (i < j)%nat → Z.of_nat j - Z.of_nat i < 65535 →
  1 ≤ a ≤ 65535 ∧
  (a = b → j = S i ∧ a = 1 ∧ as_u16 (ss_pkt_counter s + Z.of_nat i + 1) = 0).
Proof.
  intros Hc Ha Hb Hij Hd.
  assert (Hlen : ∀ k v, (allocate_n n s).2 !! k = Some v → (k < n)%nat).
  { intros k v Hk%lookup_lt_Some. enough (length (allocate_n n s).2 = n) by lia.
    clear. revert s. induction n as [|n IH]; intros s; [done|]. cbn [allocate_n].
    destruct (allocate_packet_id s) as [s' id]. specialize (IH s').
    destruct (allocate_n n s'). cbn in *. lia. }
  rewrite allocate_n_lookup in Ha by eauto. rewrite allocate_n_lookup in Hb by eauto.
  injection Ha as <-. injection Hb as <-. split; [apply nth_packet_id_range|].
  unfold nth_packet_id, as_u16, u16_ok in *.
  set (c := ss_pkt_counter s) in *. intros Hab.
  assert (Hj : (c + Z.of_nat j + 1) mod 65536 =
    ((c + Z.of_nat i + 1) mod 65536 + (Z.of_nat j - Z.of_nat i)) mod 65536).
  { rewrite Zplus_mod_idemp_l. f_equal. lia. }
  pose proof (Z.mod_pos_bound (c + Z.of_nat i + 1) 65536 ltac:(lia)) as Hi.
  rewrite Hj in Hab. clear Hj. set (x := (c + Z.of_nat i + 1) mod 65536) in *.
  set (d := Z.of_nat j - Z.of_nat i) in *.
  assert (Hd' : 0 < d < 65535) by (unfold d; lia).
  assert (Hx : (x + d) mod 65536 = x + d ∧ x + d < 65536 ∨
               (x + d) mod 65536 = x + d - 65536 ∧ 65536 ≤ x + d).
  { destruct (decide (x + d < 65536)).
    - left. split; [apply Z.mod_small; lia | done].
    - right. split; [|lia]. symmetry. apply (Zmod_unique _ _ 1); lia. }
  destruct (Z.eqb_spec x 0), (Z.eqb_spec ((x + d) mod 65536) 0); destruct Hx as [[Hx ?]|[Hx ?]];
    rewrite Hx in *; unfold d in *; lia.
Qed.

Lemma allocate_distinct_witness :
  1 ≤ 6 ≤ 65535 ∧
  (6 = 7 → 1%nat = S 0 ∧ 6 = 1 ∧ as_u16 (5 + Z.of_nat 0 + 1) = 0).
Proof.
  apply (allocate_distinct (mkSession 5 None ∅ ∅ ∅ []) 2 0 1 6 7);
    [vm_compute; split; congruence | reflexivity | reflexivity | lia | lia].
Defined.

(** At the wrap of the counter two consecutive allocations both return 1.  If
    both flows park a waiter, the second drops the sender of the first, whose
    caller sees a closed channel although no ack was ever due. *)
Theorem allocate_wrap_collision s k1 k2 :
  session_inv s → ss_pkt_counter s = u16_max →
  let '(s1, id1) := allocate_packet_id s in
  let '(s2, w1) := park_publish_ack_waiter s1 id1 k1 in
  let '(s3, id2) := allocate_packet_id s2 in
  let '(s4, w2) := park_publish_ack_waiter s3 id2 k2 in
  id1 = 1 ∧ id2 = 1 ∧
  ss_waiters s4 !! w1 = Some SenderDropped ∧ ss_waiters s4 !! w2 = Some Waiting.
Proof.
  intros Hinv Hc. unfold allocate_packet_id. rewrite Hc.
  change (as_u16 (u16_max + 1)) with 0. rewrite Z.eqb_refl.
  set (s1 := mkSession 0 _ _ _ _ _).
  assert (Hi1 : session_inv s1) by (destruct Hinv; by split).
  destruct (park_publish_cells s1 1 k1 Hi1) as [Hp1 Hw1].
  assert (Hi2 : session_inv (park_publish_ack_waiter s1 1 k1).1)
    by (eapply session_step_inv; [constructor | done]).
  assert (Hc2 : ss_pkt_counter (park_publish_ack_waiter s1 1 k1).1 = 0) by done.
  destruct (park_publish_ack_waiter s1 1 k1) as [s2 w1]. cbn [fst snd] in *.
  rewrite Hc2. change (as_u16 (0 + 1)) with 1. change (1 =? 0) with false.
  set (s3 := mkSession 1 _ _ _ _ _).
  assert (Hi3 : session_inv s3) by (destruct Hi2; by split).
  destruct (park_publish_cells s3 1 k2 Hi3) as [_ Hw2].
  unfold park_publish_ack_waiter in *. cbn [oneshot_channel] in *.
  split_and!; [done | done | | done]. cbn. rewrite Hp1, lookup_insert_eq.
  replace (slot_waiter (kind_slot k1 w1)) with w1 by (by destruct k1).
  pose proof (lookup_lt_Some _ _ _ Hw1) as Hlt.
  rewrite drop_sender_app, drop_sender_waiting by done.
  rewrite lookup_app_l by (by rewrite length_insert).
  by apply list_lookup_insert_eq.
Qed.

Lemma allocate_wrap_collision_witness :
  ss_waiters (park_publish_ack_waiter (allocate_packet_id (park_publish_ack_waiter
    (allocate_packet_id (mkSession 65535 None ∅ ∅ ∅ [])).1 1 Kind_Puback).1).1 1 Kind_Puback).1
    !! 0%nat = Some SenderDropped.
Proof.
  apply (allocate_wrap_collision (mkSession 65535 None ∅ ∅ ∅ []) Kind_Puback Kind_Puback);
    [|reflexivity].
  split; [vm_compute; split; congruence | apply waits_ok_empty; intros w; by destruct w].
Defined.

(** The guard of [wake_ack_waiter] and the removal are two lookups.  If the
    slot is replaced between them, the removal serves whatever publish waiter it
    finds: here a PUBREC was checked, but the waiter of a PUBACK is resolved as
    if its ack had arrived. *)
Theorem wake_ack_race :
  let '(s1, w1) := park_publish_ack_waiter session_new 1 Kind_Pubrec in
  wake_ack_guard s1 1 Kind_Pubrec = true ∧
  let '(s2, w2) := park_publish_ack_waiter s1 1 Kind_Puback in
  wake_ack_guard s2 1 Kind_Pubrec = false ∧
  ss_waiters (wake_ack_commit s2 1) !! w2 = Some (Delivered (Ack_id 1)).
Proof. by vm_compute. Qed.

(** An inbound QoS 2 publish is released once: the first PUBREL for its id
    takes it, a second one finds nothing, and ids never stashed release nothing
    and disturb nothing. *)
Theorem stash_take_once s id p :
  let '(s1, r1) := take_qos2_publish (stash_qos2_publish s id p) id in
  let '(s2, r2) := take_qos2_publish s1 id in
  r1 = Some p ∧ r2 = None ∧ s2 = s1 ∧
  (∀ id', id' ≠ id → (take_qos2_publish s1 id').2 = (take_qos2_publish s id').2).
Proof.
  unfold take_qos2_publish, stash_qos2_publish. cbn.
  rewrite lookup_insert_eq, delete_insert_eq, lookup_delete_eq.
  split_and!; try done.
  - unfold set_qos2. cbn. by rewrite delete_delete_eq.
  - intros id' Hne. by rewrite lookup_delete_ne.
Qed.
