(* ===== verification/Channel.v ===== *)
(** [src/src/channel.rs]: one MQTT connection.  An [MqttChannel] is a handle;
    all its clones share the state below.  The writer actor is a small state
    machine next to it: it waits in [tokio::select!] on its command queue and on
    the shutdown [Notify], or it is busy writing one command.

    [Notify::notify_waiters] wakes the tasks that are waiting at that moment and
    stores nothing for later, so a notification that arrives while the actor
    is writing is lost: [ch_actor] records whether the actor is waiting and, if
    so, whether it was notified.  When both branches of the [select!] are ready
    either may be taken, so [actor_step] is a relation.  The actor's final
    [writer.shutdown()] puts no byte of ours on the wire and is left out. *)

From S2P Require Import Prelude.
From S2P Require Import Types.
From S2P Require Import Wire.
From S2P Require Import Varint.
From S2P Require Import Encode.
From S2P Require Import Codec.
From S2P Require Import Roundtrip.
From S2P Require Import Session.

(** [hotaru_core::protocol::ProtocolRole] and [std::net::SocketAddr]. *)
Inductive ProtocolRole := Role_Server | Role_Client.
Record SocketAddr := mkSocketAddr { sock_ip : bytes; sock_port : Z }.

Inductive WriteCmd :=
  | Cmd_Packet (p : Packet)
  | Cmd_Publish (p : PublishPacket)
  | Cmd_Flush
  | Cmd_Shutdown.

Inductive actor_state :=
  | AtSelect (notified : bool)   (* in [select!], with a fresh [notified()] *)
  | Writing (cmd : WriteCmd)     (* inside the branch of [recv()] *)
  | Exited.                      (* returned: [cmd_rx] is dropped *)

Record MqttChannel := mkChannel {
  ch_connection_id : Z;
  ch_role : ProtocolRole;
  ch_local_addr : option SocketAddr;
  ch_remote_addr : option SocketAddr;
  ch_reader : option reader;       (* [None] once taken *)
  ch_queue : list WriteCmd;        (* between [cmd_tx] and [cmd_rx] *)
  ch_session : MqttSession;
  ch_open : bool;
  ch_actor : actor_state;
  ch_writer : writer;              (* owned by the actor *)
}.

(** [next_connection_id]: [fetch_add] on the global counter. *)
Definition next_connection_id (counter : Z) : Z * Z :=
  ((counter + 1) mod (u64_max + 1), counter).

(** [MqttChannel::new], the spawned actor included. *)
Definition channel_new (counter : Z) (rd : reader) (wr : writer)
    (local remote : option SocketAddr) (role : ProtocolRole) : Z * MqttChannel :=
  let '(counter, id) := next_connection_id counter in
  (counter, mkChannel id role local remote (Some rd) [] session_new true
              (AtSelect false) wr).

(** ** Field updates *)

Definition set_session (c : MqttChannel) (s : MqttSession) : MqttChannel :=
  mkChannel (ch_connection_id c) (ch_role c) (ch_local_addr c) (ch_remote_addr c)
    (ch_reader c) (ch_queue c) s (ch_open c) (ch_actor c) (ch_writer c).

Definition set_queue (c : MqttChannel) (q : list WriteCmd) : MqttChannel :=
  mkChannel (ch_connection_id c) (ch_role c) (ch_local_addr c) (ch_remote_addr c)
    (ch_reader c) q (ch_session c) (ch_open c) (ch_actor c) (ch_writer c).

Definition set_reader (c : MqttChannel) (r : option reader) : MqttChannel :=
  mkChannel (ch_connection_id c) (ch_role c) (ch_local_addr c) (ch_remote_addr c)
    r (ch_queue c) (ch_session c) (ch_open c) (ch_actor c) (ch_writer c).

Definition set_open_actor (c : MqttChannel) (open : bool) (a : actor_state) : MqttChannel :=
  mkChannel (ch_connection_id c) (ch_role c) (ch_local_addr c) (ch_remote_addr c)
    (ch_reader c) (ch_queue c) (ch_session c) open a (ch_writer c).

Definition set_writer (c : MqttChannel) (w : writer) : MqttChannel :=
  mkChannel (ch_connection_id c) (ch_role c) (ch_local_addr c) (ch_remote_addr c)
    (ch_reader c) (ch_queue c) (ch_session c) (ch_open c) (ch_actor c) w.

(** ** The handle *)

Definition is_open (c : MqttChannel) : bool := ch_open c.

(** [shutdown.notify_waiters()] as the actor sees it. *)
Definition notify_actor (a : actor_state) : actor_state :=
  match a with
  | AtSelect _ => AtSelect true
  | Writing cmd => Writing cmd
  | Exited => Exited
  end.

(** [Channel::close]. *)
Definition close (c : MqttChannel) : MqttChannel :=
  if negb (ch_open c) then c
  else
    let c := set_open_actor c false (ch_actor c) in
    let c := set_open_actor c false (notify_actor (ch_actor c)) in
    set_session c (abandon (ch_session c)).

Definition take_reader (c : MqttChannel) : MqttChannel * option reader :=
  (set_reader c None, ch_reader c).

(** [cmd_tx.send]: fails once the receiving half is gone. *)
Definition send_cmd (c : MqttChannel) (cmd : WriteCmd) : MqttChannel * mresult unit :=
  match ch_actor c with
  | Exited => (c, Err ChannelClosed)
  | _ => (set_queue c (ch_queue c ++ [cmd]), Ok tt)
  end.

Definition send_packet (c : MqttChannel) (p : Packet) : MqttChannel * mresult unit :=
  send_cmd c (Cmd_Packet p).

Definition send_publish_cmd (c : MqttChannel) (p : PublishPacket) :
    MqttChannel * mresult unit :=
  send_cmd c (Cmd_Publish p).

(** Accessors. *)
Definition session_of (c : MqttChannel) : MqttSession := ch_session c.
Definition connection_id (c : MqttChannel) : Z := ch_connection_id c.
Definition channel_role (c : MqttChannel) : ProtocolRole := ch_role c.
Definition local_addr (c : MqttChannel) : option SocketAddr := ch_local_addr c.
Definition remote_addr (c : MqttChannel) : option SocketAddr := ch_remote_addr c.

Definition channel_client_id (c : MqttChannel) : option str :=
  session_client_id (ch_session c).
Definition channel_keep_alive (c : MqttChannel) : option Z :=
  session_keep_alive (ch_session c).

(** ** The writer actor *)

(** Leaving the loop: [open.store(false)], and the receiving half is dropped
    with whatever is still queued. *)
Definition actor_exit (c : MqttChannel) : MqttChannel :=
  set_queue (set_open_actor c false Exited) [].

(** [recv()] completed: one command is taken off the queue.  [tx_dropped] says
    that every sending half is gone, in which case an empty queue gives [None]. *)
Definition actor_recv (tx_dropped : bool) (c : MqttChannel) : option MqttChannel :=
  match ch_actor c, ch_queue c with
  | AtSelect _, cmd :: q => Some (set_queue (set_open_actor c (ch_open c) (Writing cmd)) q)
  | AtSelect _, [] => if tx_dropped then Some (actor_exit c) else None
  | _, _ => None
  end.

(** The body of the [recv()] branch. *)
Definition actor_write (c : MqttChannel) : option MqttChannel :=
  match ch_actor c with
  | Writing (Cmd_Packet p) =>
      let '(r, w) := write_packet p (ch_writer c) in
      let c := set_writer c w in
      Some (if is_ok r then set_open_actor c (ch_open c) (AtSelect false) else actor_exit c)
  | Writing (Cmd_Publish p) =>
      let '(r, w) := write_publish_packet p (ch_writer c) in
      let c := set_writer c w in
      Some (if is_ok r then set_open_actor c (ch_open c) (AtSelect false) else actor_exit c)
  | Writing Cmd_Flush => Some (set_open_actor c (ch_open c) (AtSelect false))
  | Writing Cmd_Shutdown => Some (actor_exit c)
  | _ => None
  end.

(** The [notified()] branch. *)
Definition actor_shutdown (c : MqttChannel) : option MqttChannel :=
  match ch_actor c with
  | AtSelect true => Some (actor_exit c)
  | _ => None
  end.

Inductive actor_step : MqttChannel → MqttChannel → Prop :=
  | actor_step_recv d c c' : actor_recv d c = Some c' → actor_step c c'
  | actor_step_write c c' : actor_write c = Some c' → actor_step c c'
  | actor_step_shutdown c c' : actor_shutdown c = Some c' → actor_step c c'.

(** The writer does not touch the session or the reader. *)
Lemma actor_step_session ch ch' :
  actor_step ch ch' → ch_session ch' = ch_session ch ∧ ch_reader ch' = ch_reader ch.
Proof.
  destruct 1 as [d ch ch' Ha|ch ch' Ha|ch ch' Ha].
  - unfold actor_recv in Ha. repeat case_match; simplify_eq; done.
  - unfold actor_write in Ha. destruct (ch_actor ch) as [|[]|]; try done;
      repeat case_match; simplify_eq; done.
  - unfold actor_shutdown in Ha. repeat case_match; simplify_eq; done.
Qed.

(** The steps of one connection: the actor, and the other tasks that hold the
    channel (sends, close, session calls).  The label lists the commands the
    queue accepted in the step. *)
Inductive channel_step : list WriteCmd → MqttChannel → MqttChannel → Prop :=
  | channel_actor c c' : actor_step c c' → channel_step [] c c'
  | channel_send c cmd :
      (send_cmd c cmd).2 = Ok tt → channel_step [cmd] c (send_cmd c cmd).1
  | channel_send_refused c cmd :
      (send_cmd c cmd).2 ≠ Ok tt → channel_step [] c (send_cmd c cmd).1
  | channel_close c : channel_step [] c (close c)
  | channel_session c s :
      session_step (ch_session c) s → channel_step [] c (set_session c s)
  | channel_take_reader c : channel_step [] c (take_reader c).1.

Inductive channel_run : list WriteCmd → MqttChannel → MqttChannel → Prop :=
  | run_nil c : channel_run [] c c
  | run_step h l c c' c'' :
      channel_run h c c' → channel_step l c' c'' → channel_run (h ++ l) c c''.

(** ** What reaches the wire *)

(** The bytes a command puts on the wire. *)
Definition cmd_bytes (cmd : WriteCmd) : bytes :=
  match cmd with
  | Cmd_Packet p => match encode_packet p with Ok b => b | _ => [] end
  | Cmd_Publish p => match encode_packet (Packet_Publish p) with Ok b => b | _ => [] end
  | Cmd_Flush | Cmd_Shutdown => []
  end.

(** Accepted commands that are not on the wire yet. *)
Definition outstanding (c : MqttChannel) : list WriteCmd :=
  match ch_actor c with
  | AtSelect _ => ch_queue c
  | Writing cmd => cmd :: ch_queue c
  | Exited => []
  end.

(** [base] is what the writer held before, [h] the commands accepted since. *)
Definition wire_inv (base : bytes) (h : list WriteCmd) (c : MqttChannel) : Prop :=
  opt_ok (λ n, 0 ≤ n) (wr_room (ch_writer c)) ∧
  match ch_actor c with
  | Exited => wr_out (ch_writer c) `prefix_of` base ++ concat (map cmd_bytes h)
  | _ => wr_out (ch_writer c) ++ concat (map cmd_bytes (outstanding c)) =
           base ++ concat (map cmd_bytes h)
  end.

Lemma write_cmd_out p w r w' :
  opt_ok (λ n, 0 ≤ n) (wr_room w) → write_packet p w = (r, w') →
  opt_ok (λ n, 0 ≤ n) (wr_room w') ∧
  (is_ok r = true → wr_out w' = wr_out w ++ cmd_bytes (Cmd_Packet p)) ∧
  ∃ n, wr_out w' = wr_out w ++ take n (cmd_bytes (Cmd_Packet p)).
Proof.
  intros Hroom. unfold write_packet, cmd_bytes.
  destruct (encode_packet p) as [b|e| |]; cbn [map_err].
  2-4: intros [= <- <-]; split_and!; [done | done | exists 0%nat; by rewrite app_nil_r].
  intros [? [[-> H]|[-> [n H]]]]%write_all_out; [| |done]; split_and!; try done.
  - exists (length b). by rewrite firstn_all.
  - eauto.
Qed.

Lemma wire_inv_exit base h c c' cmd n :
  wire_inv base h c → ch_actor c = Writing cmd →
  opt_ok (λ n, 0 ≤ n) (wr_room (ch_writer c')) →
  wr_out (ch_writer c') = wr_out (ch_writer c) ++ take n (cmd_bytes cmd) →
  wire_inv base h (actor_exit c').
Proof.
  intros [_ Hw] Ha Hr Ho. rewrite Ha in Hw. unfold outstanding in Hw. rewrite Ha in Hw.
  split; [done|]. cbn. rewrite Ho, <- Hw. cbn [map concat]. rewrite <- (take_drop n (cmd_bytes cmd)) at 2.
  rewrite <- !app_assoc. apply prefix_app, prefix_app_r. done.
Qed.

Lemma wire_inv_written base h c c' cmd :
  wire_inv base h c → ch_actor c = Writing cmd →
  opt_ok (λ n, 0 ≤ n) (wr_room (ch_writer c')) → ch_queue c' = ch_queue c →
  wr_out (ch_writer c') = wr_out (ch_writer c) ++ cmd_bytes cmd →
  wire_inv base h (set_open_actor c' (ch_open c') (AtSelect false)).
Proof.
  intros [_ Hw] Ha Hr Hq Ho. rewrite Ha in Hw. unfold outstanding in Hw. rewrite Ha in Hw.
  split; [done|]. cbn. unfold outstanding. cbn. rewrite Ho, Hq, <- Hw. cbn.
  by rewrite <- app_assoc.
Qed.

Lemma actor_write_inv base h c c' :
  actor_write c = Some c' → wire_inv base h c → wire_inv base h c'.
Proof.
  unfold actor_write. destruct (ch_actor c) as [|cmd|] eqn:Ha; try done.
  intros Hc Hw. pose proof Hw as [Hroom _].
  assert (Hgo : ∀ p, cmd_bytes cmd = cmd_bytes (Cmd_Packet p) →
    (let '(r, w) := write_packet p (ch_writer c) in
     let c := set_writer c w in
     Some (if is_ok r then set_open_actor c (ch_open c) (AtSelect false)
           else actor_exit c)) = Some c' → wire_inv base h c').
  { intros p Hp. destruct (write_packet p (ch_writer c)) as [r w] eqn:E.
    destruct (write_cmd_out _ _ _ _ Hroom E) as (Hr & Hok & n & Hn).
    intros [= <-]. destruct (is_ok r).
    - apply (wire_inv_written base h c (set_writer c w) cmd); auto. cbn. rewrite Hp. auto.
    - apply (wire_inv_exit base h c (set_writer c w) cmd n); auto. cbn. by rewrite Hp. }
  destruct cmd as [p|p| |].
  - by apply (Hgo p).
  - rewrite write_publish_packet_eq in Hc by done. by apply (Hgo (Packet_Publish p)).
  - injection Hc as <-. apply (wire_inv_written base h c c Cmd_Flush); auto.
    by rewrite app_nil_r.
  - injection Hc as <-. apply (wire_inv_exit base h c c Cmd_Shutdown 0); auto.
    by rewrite app_nil_r.
Qed.

Lemma actor_exit_inv base h c b :
  wire_inv base h c → ch_actor c = AtSelect b → wire_inv base h (actor_exit c).
Proof.
  intros [Hr Hw] Ha. split; [done|]. cbn. rewrite Ha in Hw. rewrite <- Hw.
  by apply prefix_app_r.
Qed.

Lemma actor_step_inv base h c c' :
  actor_step c c' → wire_inv base h c → wire_inv base h c'.
Proof.
  intros [d c1 c2 H|c1 c2 H|c1 c2 H] Hw; [|by eapply actor_write_inv|].
  - unfold actor_recv in H. destruct (ch_actor c1) as [b| |] eqn:Ha; try done.
    destruct (ch_queue c1) as [|cmd q] eqn:Hq.
    + destruct d; [|done]. injection H as <-. by eapply actor_exit_inv.
    + injection H as <-. destruct Hw as [Hr Hw]. split; [done|].
      unfold outstanding in *. rewrite Ha, Hq in Hw. done.
  - unfold actor_shutdown in H. destruct (ch_actor c1) as [[]| |] eqn:Ha; try done.
    injection H as <-. by eapply actor_exit_inv.
Qed.

Lemma channel_step_inv base h l c c' :
  channel_step l c c' → wire_inv base h c → wire_inv base (h ++ l) c'.
Proof.
  intros Hs Hw. destruct Hs as [c c' Ha|c cmd Hs|c cmd Hs|c|c s Hs|c];
    rewrite ?app_nil_r; [by eapply actor_step_inv| | | |done|done].
  - unfold send_cmd in *. destruct Hw as [Hr Hw].
    destruct (ch_actor c) as [b|cmd'|] eqn:Ha; [| |done];
      (split; [done|]; cbn; rewrite Ha; unfold outstanding in *; cbn; rewrite Ha in *;
       cbn [map concat] in *; rewrite !map_app, !concat_app, (app_assoc base), <- Hw;
       by rewrite <- !app_assoc).
  - unfold send_cmd in *. by destruct (ch_actor c).
  - unfold close. destruct (ch_open c); cbn; [|done]. destruct Hw as [Hr Hw].
    split; [done|]. cbn. unfold outstanding in *. cbn. by destruct (ch_actor c).
Qed.

Lemma channel_run_inv base h c c' :
  channel_run h c c' → wire_inv base [] c → wire_inv base h c'.
Proof. intros Hr H0. induction Hr; eauto using channel_step_inv. Qed.

(** ** Theorems *)

(** C38: the writer actor is a FIFO.  After any interleaving of sends, closes and
    actor steps the bytes on the wire are a prefix of the encodings of the
    accepted commands in the order they were accepted; while the actor runs,
    what is missing from the wire is exactly the command being written and the
    queue.  The writer may fail at any byte. *)
Theorem writer_fifo counter rd wr local remote role h c :
  opt_ok (λ n, 0 ≤ n) (wr_room wr) →
  channel_run h (channel_new counter rd wr local remote role).2 c →
  wr_out (ch_writer c) `prefix_of` wr_out wr ++ concat (map cmd_bytes h) ∧
  (ch_actor c ≠ Exited →
     wr_out (ch_writer c) ++ concat (map cmd_bytes (outstanding c)) =
     wr_out wr ++ concat (map cmd_bytes h)).
Proof.
  intros Hroom Hr. apply (channel_run_inv (wr_out wr)) in Hr as [_ Hw].
  - destruct (ch_actor c); (split; [|done || by intros _]); try done;
      rewrite <- Hw; by apply prefix_app_r.
  - split; [done|]. cbn. by rewrite !app_nil_r.
Qed.

Definition demo_channel : MqttChannel :=
  (channel_new 1 (mkReader [] []) (mkWriter [] None) None None Role_Server).2.

Lemma writer_fifo_witness :
  let c := (send_packet demo_channel Packet_Pingresp).1 in
  wr_out (ch_writer c) `prefix_of` [] ++ concat (map cmd_bytes [Cmd_Packet Packet_Pingresp]).
Proof.
  apply (writer_fifo 1 (mkReader [] []) (mkWriter [] None) None None Role_Server).
  - exact I.
  - apply (run_step [] [Cmd_Packet Packet_Pingresp] _ demo_channel); [apply run_nil|].
    apply (channel_send demo_channel). reflexivity.
Defined.

(** [close] is idempotent, and closing an open channel resolves every waiter
    of its session. *)
Theorem close_resolves c :
  session_inv (ch_session c) →
  close (close c) = close c ∧ is_open (close c) = false ∧
  (is_open c = true → ∀ w, ss_waiters (ch_session (close c)) !! w ≠ Some Waiting).
Proof.
  intros [_ Hw]. unfold is_open, close. destruct (ch_open c) eqn:E; cbn.
  - split_and!; [done | done |]. intros _ w. by apply abandon_resolves.
  - split_and!; [by rewrite E | done | done].
Qed.

Lemma close_resolves_witness :
  close (close demo_channel) = close demo_channel.
Proof.
  apply (close_resolves demo_channel).
  split; [vm_compute; split; congruence | apply waits_ok_empty; intros w; by destruct w].
Defined.

(** Once the writer actor has left on its own (a write failed), [close] does
    nothing: the actor already cleared the [open] flag, so the session is not
    abandoned and a parked waiter stays parked. *)
Theorem close_after_writer_exit c :
  close (actor_exit c) = actor_exit c ∧
  ss_waiters (ch_session (close (actor_exit c))) = ss_waiters (ch_session c) ∧
  ss_pending_acks (ch_session (close (actor_exit c))) = ss_pending_acks (ch_session c).
Proof. done. Qed.

(** Closing does not drain the queue.  With a command queued and the actor
    waiting, the actor may take the shutdown branch and exit with nothing
    written. *)
Theorem close_may_drop_queue c b cmd q :
  is_open c = true → ch_actor c = AtSelect b → ch_queue c = cmd :: q →
  ∃ c', actor_step (close c) c' ∧ ch_actor c' = Exited ∧
    wr_out (ch_writer c') = wr_out (ch_writer c) ∧
    (∀ p, (send_packet c' p).2 = Err ChannelClosed).
Proof.
  intros Ho Ha Hq. exists (actor_exit (close c)). split_and!; try done.
  - apply actor_step_shutdown. unfold actor_shutdown, close.
    unfold is_open in Ho. rewrite Ho. cbn. by rewrite Ha.
  - unfold close. unfold is_open in Ho. by rewrite Ho.
Qed.

Lemma close_may_drop_queue_witness :
  ∃ c', actor_step (close (send_packet demo_channel Packet_Disconnect).1) c' ∧
    ch_actor c' = Exited ∧ wr_out (ch_writer c') = [] ∧
    (∀ p, (send_packet c' p).2 = Err ChannelClosed).
Proof.
  apply (close_may_drop_queue (send_packet demo_channel Packet_Disconnect).1 false
    (Cmd_Packet Packet_Disconnect) []); reflexivity.
Defined.

(** A close that happens while the actor is writing is not seen by the actor:
    when the write succeeds it is back in its loop, not notified, and it leaves
    only through another command, a write error or the end of the queue. *)
Theorem close_lost_while_writing c p w :
  is_open c = true → ch_actor c = Writing (Cmd_Packet p) →
  write_packet p (ch_writer c) = (Ok tt, w) →
  ∃ c', actor_write (close c) = Some c' ∧ ch_actor c' = AtSelect false ∧
    actor_shutdown c' = None.
Proof.
  unfold is_open. intros Ho Ha Hw. unfold actor_write, close. rewrite Ho. cbn.
  rewrite Ha. cbn. rewrite Hw. cbn. eauto.
Qed.

Lemma close_lost_while_writing_witness :
  ∃ c', actor_write (close (set_open_actor demo_channel true
      (Writing (Cmd_Packet Packet_Pingresp)))) = Some c' ∧
    ch_actor c' = AtSelect false ∧ actor_shutdown c' = None.
Proof.
  apply (close_lost_while_writing _ Packet_Pingresp (mkWriter [0xD0; 0x00] None)); reflexivity.
Defined.
