(* ===== verification/Subscriptions.v ===== *)
(** The subscription tree of [src/src/broker.rs]: [SubscriptionTree] and
    [filter_matches].  The tree maps a filter to the clients subscribed with it
    and their QoS.

    A [DashMap] is iterated in an order that nothing promises: [DashMapIter] is
    what this crate relies on, that an iteration yields every entry once.  The
    theorems hold for every such iteration. *)

From S2P Require Import Prelude.
From S2P Require Import Types.
From S2P Require Import Topic.

Class DashMapIter : Type := {
  dm_iter : ∀ {V : Type}, gmap str V → list (str * V);
  dm_iter_perm : ∀ {V : Type} (m : gmap str V), dm_iter m ≡ₚ map_to_list m;
}.

#[export] Instance canonical_iter : DashMapIter | 100 := {|
  dm_iter := λ V m, map_to_list m;
  dm_iter_perm := λ V m, reflexivity (map_to_list m);
|}.

Abbreviation tree := (gmap str (gmap str QoS)).

(** ** filter_matches

    The [while f < filter_segs.len()] loop with its two cursors.  Every turn
    advances [f], so the number of segments plus one is enough fuel. *)
Fixpoint filter_matches_loop (fuel : nat) (filter_segs topic_segs : list str)
    (t f : nat) : option bool :=
  match fuel with
  | O => None
  | S fuel =>
      match filter_segs !! f with
      | None => Some (bool_decide (t = length topic_segs))
      | Some seg =>
          if bool_decide (seg = [hash_char]) then Some true
          else if bool_decide (seg = [plus_char]) then
            if bool_decide (length topic_segs ≤ t)%nat then Some false
            else filter_matches_loop fuel filter_segs topic_segs (S t) (S f)
          else
            match topic_segs !! t with
            | None => Some false
            | Some topic_seg =>
                if negb (bool_decide (seg = topic_seg)) then Some false
                else filter_matches_loop fuel filter_segs topic_segs (S t) (S f)
            end
      end
  end.

Definition filter_matches (filter : str) (topic_segs : list str) : bool :=
  let filter_segs := split slash filter in
  default false
    (filter_matches_loop (S (length filter_segs)) filter_segs topic_segs 0 0).
Arguments filter_matches : simpl never.

(** ** SubscriptionTree *)

Definition tree_new : tree := ∅.

Definition tree_subscribe (subs : tree) (client_id filter : str) (qos : QoS) : tree :=
  let set := default ∅ (subs !! filter) in
  <[filter := <[client_id := qos]> set]> subs.

Definition tree_unsubscribe (subs : tree) (client_id filter : str) : tree :=
  match subs !! filter with
  | Some set => <[filter := delete client_id set]> subs
  | None => subs
  end.

Definition tree_remove_client (subs : tree) (client_id : str) : tree :=
  delete client_id <$> subs.

Definition matching `{DashMapIter} (subs : tree) (topic : str) : list (str * QoS) :=
  let topic_segs := split slash topic in
  concat (map (λ '(filter, set),
    if filter_matches filter topic_segs then dm_iter set else [])
    (dm_iter subs)).

(** ** The matching relation (MQTT 3.1.1, 4.7)

    A filter, as its parsed patterns, matches the segments of a topic: [+]
    stands for one segment, [#] for the rest, including nothing. *)
Inductive pattern_matches {R} : list (PathPattern R) → list str → Prop :=
  | pm_end : pattern_matches [] []
  | pm_any ps seg segs :
      pattern_matches ps segs → pattern_matches (Any :: ps) (seg :: segs)
  | pm_literal seg ps segs :
      pattern_matches ps segs → pattern_matches (Literal seg :: ps) (seg :: segs)
  | pm_any_path ps segs : pattern_matches (AnyPath :: ps) segs.

(** The loop from cursors [t] and [f] compares what is left of both lists. *)
Lemma filter_matches_loop_spec {R} fuel fsegs tsegs t f :
  (length fsegs < fuel + f)%nat → (f ≤ length fsegs)%nat → (t ≤ length tsegs)%nat →
  ∃ b, filter_matches_loop fuel fsegs tsegs t f = Some b ∧
    (b = true ↔ pattern_matches (R:=R) (map segment_pattern (drop f fsegs)) (drop t tsegs)).
Proof.
  revert t f. induction fuel as [|fuel IH]; intros t f Hf Hfl Ht;
    cbn [filter_matches_loop].
  { exfalso. lia. }
  destruct (fsegs !! f) as [seg|] eqn:E.
  - pose proof (lookup_lt_Some _ _ _ E).
    rewrite (drop_S _ _ _ E). cbn [map]. unfold segment_pattern at 1.
    destruct (decide (seg = [hash_char])) as [->|Hh].
    { exists true. rewrite bool_decide_true by done.
      rewrite bool_decide_false by done. split; [done|]. split; [constructor|done]. }
    rewrite (bool_decide_false (seg = [hash_char])) by done.
    destruct (decide (seg = [plus_char])) as [->|Hp].
    + rewrite bool_decide_true by done. case_bool_decide as Hl.
      * exists false. split; [done|]. rewrite (drop_ge tsegs) by done.
        split; [done|]. inversion 1.
      * destruct (lookup_lt_is_Some_2 tsegs t) as [ts Hts]; [lia|].
        destruct (IH (S t) (S f)) as (b & Hb & Hm); [lia | lia | lia |].
        exists b. split; [done|]. rewrite Hm, (drop_S _ _ _ Hts).
        split; [by constructor | by inversion 1].
    + rewrite (bool_decide_false (seg = [plus_char])) by done.
      destruct (tsegs !! t) as [ts|] eqn:Hts.
      * rewrite (drop_S _ _ _ Hts). case_bool_decide as He; cbn [negb].
        -- subst ts. apply lookup_lt_Some in Hts.
           destruct (IH (S t) (S f)) as (b & Hb & Hm); [lia | lia | lia |].
           exists b. split; [done|]. rewrite Hm.
           split; [by constructor | by inversion 1].
        -- exists false. split; [done|]. split; [done|]. by inversion 1.
      * exists false. split; [done|]. rewrite (drop_ge tsegs) by (by apply lookup_ge_None).
        split; [done|]. inversion 1.
  - exists (bool_decide (t = length tsegs)). split; [done|].
    apply lookup_ge_None in E. rewrite (drop_ge fsegs) by done. rewrite bool_decide_eq_true.
    split.
    + intros ->. rewrite drop_ge by done. constructor.
    + intros Hm. destruct (drop t tsegs) eqn:Ed; [|by inversion Hm].
      apply (f_equal length) in Ed. rewrite length_drop in Ed. cbn in Ed. lia.
Qed.

Lemma filter_matches_spec {R} filter tsegs :
  filter_matches filter tsegs = true ↔
  pattern_matches (R:=R) (map segment_pattern (split slash filter)) tsegs.
Proof.
  unfold filter_matches.
  destruct (filter_matches_loop_spec (R:=R) (S (length (split slash filter)))
    (split slash filter) tsegs 0 0) as (b & Hb & Hm); [lia | lia | lia |].
  rewrite Hb. cbn. by rewrite Hm, !drop_0.
Qed.

(** ** Lookups in the tree *)

(** The QoS a client subscribed a filter with. *)
Definition sub_of (subs : tree) (filter client_id : str) : option QoS :=
  subs !! filter ≫= λ set, set !! client_id.

Lemma sub_of_subscribe subs c f q f' c' :
  sub_of (tree_subscribe subs c f q) f' c' =
    if decide (f' = f ∧ c' = c) then Some q else sub_of subs f' c'.
Proof.
  unfold sub_of, tree_subscribe.
  destruct (decide (f' = f)) as [->|Hf].
  - rewrite lookup_insert_eq. cbn. destruct (decide (c' = c)) as [->|Hc].
    + by rewrite lookup_insert_eq, decide_True.
    + rewrite lookup_insert_ne, decide_False by (done || intros [? ?]; congruence).
      destruct (subs !! f); [done | apply lookup_empty].
  - by rewrite lookup_insert_ne, decide_False by (done || intros [? ?]; congruence).
Qed.

Lemma sub_of_unsubscribe subs c f f' c' :
  sub_of (tree_unsubscribe subs c f) f' c' =
    if decide (f' = f ∧ c' = c) then None else sub_of subs f' c'.
Proof.
  unfold sub_of, tree_unsubscribe. destruct (subs !! f) as [set|] eqn:E.
  - destruct (decide (f' = f)) as [->|Hf].
    + rewrite lookup_insert_eq, E. cbn. destruct (decide (c' = c)) as [->|Hc].
      * by rewrite lookup_delete_eq, decide_True.
      * by rewrite lookup_delete_ne, decide_False by (done || intros [? ?]; congruence).
    + by rewrite lookup_insert_ne, decide_False by (done || intros [? ?]; congruence).
  - case_decide as H; [|done]. destruct H as [-> ->]. by rewrite E.
Qed.

Lemma sub_of_remove_client subs c f' c' :
  sub_of (tree_remove_client subs c) f' c' =
    if decide (c' = c) then None else sub_of subs f' c'.
Proof.
  unfold sub_of, tree_remove_client. rewrite lookup_fmap.
  destruct (subs !! f') as [set|]; cbn; [|by case_decide].
  destruct (decide (c' = c)) as [->|Hc].
  - apply lookup_delete_eq.
  - by apply lookup_delete_ne.
Qed.

(** ** matching *)

Section matching.
Context `{DashMapIter}.

Lemma elem_of_matching subs topic c q :
  (c, q) ∈ matching subs topic ↔
  ∃ f, sub_of subs f c = Some q ∧ filter_matches f (split slash topic) = true.
Proof.
  unfold matching, sub_of. rewrite list_elem_of_In, in_concat.
  setoid_rewrite in_map_iff. setoid_rewrite <- list_elem_of_In.
  setoid_rewrite dm_iter_perm. split.
  - intros (l & ([f set] & <- & Hf%elem_of_map_to_list) & Hin).
    destruct (filter_matches f _) eqn:E; [|by apply not_elem_of_nil in Hin].
    rewrite dm_iter_perm in Hin. apply elem_of_map_to_list in Hin.
    exists f. by rewrite Hf.
  - intros (f & Hs & Hm). destruct (subs !! f) as [set|] eqn:E; [|done]. cbn in Hs.
    exists (dm_iter set). split.
    + exists (f, set). rewrite Hm. split; [done|]. by apply elem_of_map_to_list.
    + rewrite dm_iter_perm. by apply elem_of_map_to_list.
Qed.

(** The subscriptions of one client that match, in the order [matching]
    yields them. *)
Definition client_matching (subs : tree) (topic c : str) : list QoS :=
  map snd (filter (λ cq, cq.1 = c) (matching subs topic)).
End matching.

(** One entry for every filter of the client that matches the topic. *)
Definition client_filters (subs : tree) (topic c : str) : list QoS :=
  omap (λ '(f, set), if filter_matches f (split slash topic) then (set : gmap str QoS) !! c else None)
    (map_to_list subs).

Lemma filter_key_list (set : gmap str QoS) c :
  map snd (filter (λ cq : str * QoS, cq.1 = c) (map_to_list set)) ≡ₚ
  match set !! c with Some q => [q] | None => [] end.
Proof.
  induction set as [|i q m Hi IH] using map_ind.
  { rewrite map_to_list_empty. done. }
  rewrite map_to_list_insert by done. rewrite filter_cons. cbn [fst].
  destruct (decide (i = c)) as [->|Hne].
  - rewrite lookup_insert_eq. cbn. rewrite Hi in IH.
    apply Permutation_nil_r in IH. by rewrite IH.
  - by rewrite lookup_insert_ne.
Qed.

Lemma client_matching_perm `{DashMapIter} subs topic c :
  client_matching subs topic c ≡ₚ client_filters subs topic c.
Proof.
  unfold client_matching, client_filters, matching. rewrite dm_iter_perm.
  induction (map_to_list subs) as [|[f set] l IH]; cbn; [done|].
  rewrite filter_app, map_app, IH.
  destruct (filter_matches f (split slash topic)); [|done].
  rewrite dm_iter_perm, filter_key_list. by destruct (set !! c).
Qed.

(** ** Theorems *)

(** C34: the broker's hand-written matcher implements the matching relation on the
    patterns the filter parser produces, for every filter the parser accepts and
    every topic; its loop ends within the number of filter segments. *)
Theorem filter_matches_correct {R} f (ps : list (PathPattern R)) topic :
  parse_subscribe_filter f = Ok ps →
  filter_matches_loop (S (length (split slash f))) (split slash f) (split slash topic) 0 0 =
    Some (filter_matches f (split slash topic)) ∧
  (filter_matches f (split slash topic) = true ↔
   pattern_matches ps (split slash topic)).
Proof.
  intros [_ ->]%parse_subscribe_filter_Ok. split; [|apply filter_matches_spec].
  unfold filter_matches.
  destruct (filter_matches_loop_spec (R:=R) (S (length (split slash f)))
    (split slash f) (split slash topic) 0 0) as (b & -> & _); [lia | lia | lia | done].
Qed.

Lemma filter_matches_correct_witness :
  filter_matches (str_of "a/+/#") (split slash (str_of "a/b")) = true ↔
  pattern_matches (R:=unit) [Literal (str_of "a"); Any; AnyPath] (split slash (str_of "a/b")).
Proof.
  apply (filter_matches_correct (str_of "a/+/#")
    [Literal (str_of "a"); Any; AnyPath] (str_of "a/b")). vm_compute. reflexivity.
Defined.

(** Topics that start with [$] get no special treatment: a filter that starts
    with a wildcard matches them. *)
Theorem filter_matches_dollar rest :
  filter_matches [hash_char] (split slash (str_of "$SYS" ++ rest)) = true.
Proof.
  apply (filter_matches_spec (R:=unit)). constructor.
Qed.
