(* ===== verification/Broker.v ===== *)
(** [src/src/broker.rs]: sessions, subscriptions and fanout.

    A [World] holds the connections, shared by everyone who has a clone of the
    channel, and the broker's tables.  A session entry refers to its channel by
    connection id, so what the broker does to a subscriber's channel is what its
    own tasks see.  Each method is one atomic step here; the interleaving of two
    [register_session] calls is treated at the end. *)

From S2P Require Import Prelude.
From S2P Require Import Types.
From S2P Require Import Safety.
From S2P Require Import Wire.
From S2P Require Import Topic.
From S2P Require Import Session.
From S2P Require Import Channel.
From S2P Require Import Subscriptions.

(** ** Authentication *)

Record AuthResult := mkAuthResult {
  auth_accepted : bool;
  auth_return_code : ConnackReturnCode;
}.

Definition auth_accept : AuthResult := mkAuthResult true Accepted.
Definition auth_reject (code : ConnackReturnCode) : AuthResult := mkAuthResult false code.

(** [trait Authenticator]. *)
Definition Authenticator : Type := ConnectPacket → option SocketAddr → AuthResult.

Definition AcceptAllAuthenticator : Authenticator := λ _ _, auth_accept.
Definition DenyAllAuthenticator : Authenticator := λ _ _, auth_reject NotAuthorized.

(** ** State *)

Record SubscriberEntry := mkEntry {
  se_channel : Z;                 (* connection id of the channel clone *)
  se_filters : gmap str QoS;
  se_will : option WillMessage;
  se_clean_session : bool;
}.

Record Broker := mkBroker {
  br_sessions : gmap str SubscriberEntry;
  br_subscriptions : tree;
  br_authenticator : Authenticator;
  br_safety : MqttSafety;
}.

Definition broker_build (auth : Authenticator) (safety : MqttSafety) : Broker :=
  mkBroker ∅ tree_new auth safety.
Definition broker_new : Broker := broker_build DenyAllAuthenticator safety_new.
Definition broker_default : Broker := broker_new.
Definition broker_accept_all : Broker := broker_build AcceptAllAuthenticator safety_new.
Definition broker_with_authenticator (auth : Authenticator) : Broker :=
  broker_build auth safety_new.
Definition broker_with_safety (safety : MqttSafety) : Broker :=
  broker_build DenyAllAuthenticator safety.
Definition broker_accept_all_with_safety (safety : MqttSafety) : Broker :=
  broker_build AcceptAllAuthenticator safety.
Definition broker_with_authenticator_and_safety (auth : Authenticator)
    (safety : MqttSafety) : Broker :=
  broker_build auth safety.

Definition session_count (b : Broker) : nat := size (br_sessions b).

Definition authenticate (b : Broker) (connect : ConnectPacket)
    (remote_addr : option SocketAddr) : AuthResult :=
  br_authenticator b connect remote_addr.

Record World := mkWorld {
  w_channels : gmap Z MqttChannel;
  w_broker : Broker;
}.

Definition w_sessions (w : World) : gmap str SubscriberEntry := br_sessions (w_broker w).
Definition w_subs (w : World) : tree := br_subscriptions (w_broker w).

Definition set_sessions (w : World) (m : gmap str SubscriberEntry) : World :=
  mkWorld (w_channels w)
    (mkBroker m (w_subs w) (br_authenticator (w_broker w)) (br_safety (w_broker w))).

Definition set_subs (w : World) (t : tree) : World :=
  mkWorld (w_channels w)
    (mkBroker (w_sessions w) t (br_authenticator (w_broker w)) (br_safety (w_broker w))).

Definition set_channels (w : World) (m : gmap Z MqttChannel) : World :=
  mkWorld m (w_broker w).

Section broker.
Context `{DashMapIter}.

(** ** Publish fanout *)

(** The message a subscriber gets, and its channel after it was queued: the
    packet id is allocated from the subscriber's session and the publish is
    recorded there when the effective QoS is above 0. *)
Definition fanout_to (packet : PublishPacket) (sub_qos : QoS) (ch : MqttChannel) :
    MqttChannel :=
  let effective_qos := qos_min (pub_qos packet) sub_qos in
  let '(ch, packet_id) :=
    if negb (qos_leb effective_qos AtMostOnce) then
      let '(s, id) := allocate_packet_id (ch_session ch) in
      (set_session ch (track_outbound_inflight s id packet), Some id)
    else (ch, None) in
  let adjusted :=
    mkPublishPacket (pub_topic packet) (pub_payload packet) false effective_qos false
      packet_id in
  (send_publish_cmd ch adjusted).1.

(** One turn of the fanout loop. *)
Definition publish_step (source_client_id : str) (packet : PublishPacket) (w : World)
    (sub : str * QoS) : World :=
  let '(sub_id, sub_qos) := sub in
  if bool_decide (sub_id = source_client_id) then w
  else
    match w_sessions w !! sub_id with
    | None => w
    | Some entry =>
        match w_channels w !! se_channel entry with
        | None => w
        | Some ch =>
            set_channels w (<[se_channel entry := fanout_to packet sub_qos ch]> (w_channels w))
        end
    end.

Definition publish (w : World) (source_client_id : str) (packet : PublishPacket) : World :=
  foldl (publish_step source_client_id packet) w
    (matching (w_subs w) (pub_topic packet)).

Definition publish_will (w : World) (will : option WillMessage) : World :=
  match will with
  | None => w
  | Some will =>
      let will_packet :=
        mkPublishPacket (wm_topic will) (wm_payload will) false (wm_qos will)
          (wm_retain will) None in
      publish w [] will_packet
  end.

(** ** Session lifecycle *)

Definition close_channel (w : World) (id : Z) : World :=
  set_channels w (alter close id (w_channels w)).

(** The first half of [register_session], up to the insertion: take the earlier
    entry out, close its channel, publish its Will, wipe the subscriptions of a
    clean session. *)
Definition register_takeover (w : World) (client_id : str) (clean_session : bool) :
    World * bool :=
  let existing := w_sessions w !! client_id in
  let w := set_sessions w (delete client_id (w_sessions w)) in
  let session_present := negb clean_session && bool_decide (is_Some existing) in
  let w :=
    match existing with
    | Some prev => publish_will (close_channel w (se_channel prev)) (se_will prev)
    | None => w
    end in
  let w :=
    if clean_session then set_subs w (tree_remove_client (w_subs w) client_id) else w in
  (w, session_present).

Definition register_insert (w : World) (client_id : str) (channel : Z)
    (will : option WillMessage) (clean_session : bool) : World :=
  set_sessions w (<[client_id := mkEntry channel ∅ will clean_session]> (w_sessions w)).

Definition register_session (w : World) (client_id : str) (channel : Z)
    (will : option WillMessage) (clean_session : bool) : World * bool :=
  let '(w, session_present) := register_takeover w client_id clean_session in
  (register_insert w client_id channel will clean_session, session_present).

(** [sessions.remove_if]: the entry, if it is this connection's. *)
Definition take_session (w : World) (client_id : str) (connection_id : Z) :
    World * option SubscriberEntry :=
  match w_sessions w !! client_id with
  | Some entry =>
      if se_channel entry =? connection_id
      then (set_sessions w (delete client_id (w_sessions w)), Some entry)
      else (w, None)
  | None => (w, None)
  end.

Definition unregister_session (w : World) (client_id : str) (connection_id : Z)
    (graceful : bool) : World :=
  let '(w, taken) := take_session w client_id connection_id in
  match taken with
  | None => w
  | Some entry =>
      let w := set_subs w (tree_remove_client (w_subs w) client_id) in
      if negb graceful then publish_will w (se_will entry) else w
  end.
End broker.

(** ** Subscription management *)

(** One turn of the loop of [subscribe]. *)
Definition subscribe_step (client_id : str) (acc : World * list SubackCode)
    (tf : TopicFilter) : World * list SubackCode :=
  let '(w, codes) := acc in
  match validate_subscribe_filter (tf_filter tf) with
  | Ok _ =>
      let w := set_sessions w (alter (λ e,
        mkEntry (se_channel e) (<[tf_filter tf := tf_qos tf]> (se_filters e)) (se_will e)
          (se_clean_session e)) client_id (w_sessions w)) in
      let w := set_subs w (tree_subscribe (w_subs w) client_id (tf_filter tf) (tf_qos tf)) in
      (w, codes ++ [Granted (tf_qos tf)])
  | _ => (w, codes ++ [Failure])
  end.

(** The entry of [client_id], provided it belongs to this connection. *)
Definition owned_entry (w : World) (client_id : str) (connection_id : Z) :
    option SubscriberEntry :=
  match w_sessions w !! client_id with
  | Some entry => if se_channel entry =? connection_id then Some entry else None
  | None => None
  end.

Definition subscribe (w : World) (client_id : str) (connection_id : Z)
    (filters : list TopicFilter) : World * list SubackCode :=
  match owned_entry w client_id connection_id with
  | None => (w, map (λ _, Failure) filters)
  | Some _ => foldl (subscribe_step client_id) (w, []) filters
  end.

Definition unsubscribe_step (client_id : str) (w : World) (topic : str) : World :=
  let w := set_sessions w (alter (λ e,
    mkEntry (se_channel e) (delete topic (se_filters e)) (se_will e)
      (se_clean_session e)) client_id (w_sessions w)) in
  set_subs w (tree_unsubscribe (w_subs w) client_id topic).

Definition unsubscribe (w : World) (client_id : str) (connection_id : Z)
    (topics : list str) : World :=
  match owned_entry w client_id connection_id with
  | None => w
  | Some _ => foldl (unsubscribe_step client_id) w topics
  end.

(** ** Reachable broker states

    [n] is the global connection counter.  Connections are accepted, their
    tasks run, and the broker's methods are called, in any order.  A connection
    registers a channel that no session uses yet: [handle_server] registers the
    channel it was just given. *)
Inductive broker_step `{DashMapIter} : Z * World → Z * World → Prop :=
  | step_accept n w rd wr la ra role n' ch :
      n < u64_max → channel_new n rd wr la ra role = (n', ch) →
      broker_step (n, w)
        (n', set_channels w (<[ch_connection_id ch := ch]> (w_channels w)))
  | step_channel n w id ch l ch' :
      w_channels w !! id = Some ch → channel_step l ch ch' →
      broker_step (n, w) (n, set_channels w (<[id := ch']> (w_channels w)))
  | step_register n w c id will clean :
      is_Some (w_channels w !! id) →
      map_Forall (λ _ e, se_channel e ≠ id) (w_sessions w) →
      broker_step (n, w) (n, (register_session w c id will clean).1)
  | step_unregister n w c id graceful :
      broker_step (n, w) (n, unregister_session w c id graceful)
  | step_subscribe n w c id filters :
      broker_step (n, w) (n, (subscribe w c id filters).1)
  | step_unsubscribe n w c id topics :
      broker_step (n, w) (n, unsubscribe w c id topics)
  | step_publish n w c p :
      broker_step (n, w) (n, publish w c p).

Record broker_inv (w : World) : Prop := {
  inv_subscriber f c q :
    sub_of (w_subs w) f c = Some q → is_Some (w_sessions w !! c);
  inv_filters c e f q :
    w_sessions w !! c = Some e → se_filters e !! f = Some q →
    sub_of (w_subs w) f c = Some q;
  inv_valid f c q :
    sub_of (w_subs w) f c = Some q → validate_subscribe_filter f = Ok tt;
  inv_channel c e :
    w_sessions w !! c = Some e → is_Some (w_channels w !! se_channel e);
  inv_distinct c1 c2 e1 e2 :
    w_sessions w !! c1 = Some e1 → w_sessions w !! c2 = Some e2 →
    se_channel e1 = se_channel e2 → c1 = c2;
}.

(** Every channel is filed under its own connection id, below the counter. *)
Definition ids_inv (n : Z) (w : World) : Prop :=
  0 ≤ n ∧
  ∀ id ch, w_channels w !! id = Some ch → ch_connection_id ch = id ∧ 0 ≤ id < n.

(** ** Lemmas: one message to one channel *)

(** What a subscriber with subscription QoS [q] is sent for [p]. *)
Definition delivery (p : PublishPacket) (q : QoS) (m : PublishPacket) : Prop :=
  pub_topic m = pub_topic p ∧ pub_payload m = pub_payload p ∧
  pub_qos m = qos_min (pub_qos p) q ∧ pub_dup m = false ∧ pub_retain m = false ∧
  match pub_packet_id m with
  | None => pub_qos m = AtMostOnce
  | Some id => pub_qos m ≠ AtMostOnce ∧ 1 ≤ id ≤ u16_max
  end.

Lemma allocate_packet_id_range s : 1 ≤ (allocate_packet_id s).2 ≤ u16_max.
Proof.
  cbn. pose proof (as_u16_ok (ss_pkt_counter s + 1)) as Hr. unfold u16_ok, u16_max in *.
  destruct (Z.eqb_spec (as_u16 (ss_pkt_counter s + 1)) 0); lia.
Qed.

(** One copy is one command on the subscriber's channel; of its session, the
    packet id counter and the retransmit record of a copy above QoS 0 change. *)
Lemma fanout_to_send p q ch :
  ∃ m s, fanout_to p q ch = (send_cmd (set_session ch s) (Cmd_Publish m)).1 ∧
    delivery p q m ∧
    s = match pub_packet_id m with
        | Some id => track_outbound_inflight (allocate_packet_id (ch_session ch)).1 id p
        | None => ch_session ch
        end ∧
    (∀ id, pub_packet_id m = Some id → id = (allocate_packet_id (ch_session ch)).2).
Proof.
  unfold fanout_to, delivery, send_publish_cmd.
  destruct (negb (qos_leb (qos_min (pub_qos p) q) AtMostOnce)) eqn:E.
  - pose proof (allocate_packet_id_range (ch_session ch)) as Hr.
    destruct (allocate_packet_id (ch_session ch)) as [s id].
    eexists (mkPublishPacket _ _ _ _ _ _), _. split; [reflexivity|]. cbn in *.
    split_and!; try done; try lia; [|by intros ? [= <-]]. intros H. by rewrite H in E.
  - eexists (mkPublishPacket _ _ _ _ _ _), (ch_session ch).
    split; [by destruct ch|]. cbn. split_and!; try done. by destruct (qos_min (pub_qos p) q).
Qed.

Lemma send_cmd_actor ch cmd : ch_actor (send_cmd ch cmd).1 = ch_actor ch.
Proof. unfold send_cmd. by destruct (ch_actor ch) eqn:E. Qed.

Lemma send_cmd_id ch cmd : ch_connection_id (send_cmd ch cmd).1 = ch_connection_id ch.
Proof. unfold send_cmd. by destruct (ch_actor ch). Qed.

Lemma fanout_to_actor p q ch : ch_actor (fanout_to p q ch) = ch_actor ch.
Proof. destruct (fanout_to_send p q ch) as (m & s & -> & _). by rewrite send_cmd_actor. Qed.

Lemma fanout_to_id p q ch :
  ch_connection_id (fanout_to p q ch) = ch_connection_id ch.
Proof. destruct (fanout_to_send p q ch) as (m & s & -> & _). by rewrite send_cmd_id. Qed.

Lemma fanout_to_queue p q ch :
  ch_actor ch ≠ Exited →
  ∃ m, delivery p q m ∧ ch_queue (fanout_to p q ch) = ch_queue ch ++ [Cmd_Publish m].
Proof.
  intros Ha. destruct (fanout_to_send p q ch) as (m & s & -> & Hm & _). exists m.
  split; [done|]. unfold send_cmd. cbn. by destruct (ch_actor ch).
Qed.

Lemma fanout_all_queue p qs ch :
  ch_actor ch ≠ Exited →
  ∃ ms, Forall2 (delivery p) qs ms ∧
    ch_queue (foldl (λ ch q, fanout_to p q ch) ch qs) = ch_queue ch ++ map Cmd_Publish ms.
Proof.
  revert ch. induction qs as [|q qs IH]; intros ch Ha; cbn.
  { exists []. by rewrite app_nil_r. }
  destruct (fanout_to_queue p q ch Ha) as (m & Hm & Hq).
  destruct (IH (fanout_to p q ch)) as (ms & Hms & Hqs); [by rewrite fanout_to_actor|].
  exists (m :: ms). split; [by constructor|].
  by rewrite Hqs, Hq, <- app_assoc.
Qed.

Lemma fanout_all_actor p qs ch :
  ch_actor (foldl (λ ch q, fanout_to p q ch) ch qs) = ch_actor ch.
Proof.
  revert ch. induction qs as [|q qs IH]; intros ch; cbn; [done|].
  by rewrite IH, fanout_to_actor.
Qed.

(** ** Lemmas: the fanout loop *)

Section fanout.
Context `{DashMapIter}.

Lemma publish_step_broker src p w sub :
  w_broker (publish_step src p w sub) = w_broker w.
Proof. unfold publish_step. by repeat case_match. Qed.

Lemma fanout_loop_broker src p subs w :
  w_broker (foldl (publish_step src p) w subs) = w_broker w.
Proof.
  revert w. induction subs as [|sub subs IH]; intros w; cbn; [done|].
  by rewrite IH, publish_step_broker.
Qed.

Lemma publish_broker w src p : w_broker (publish w src p) = w_broker w.
Proof. apply fanout_loop_broker. Qed.

Lemma publish_sessions w src p : w_sessions (publish w src p) = w_sessions w.
Proof. unfold w_sessions. by rewrite publish_broker. Qed.

Lemma publish_subs w src p : w_subs (publish w src p) = w_subs w.
Proof. unfold w_subs. by rewrite publish_broker. Qed.

(** One channel during the loop: it takes the messages of the client that owns
    it, and no other. *)
Lemma fanout_loop_channel src p c e subs w ch :
  w_sessions w !! c = Some e → w_channels w !! se_channel e = Some ch → c ≠ src →
  (∀ c' e', w_sessions w !! c' = Some e' → se_channel e' = se_channel e → c' = c) →
  w_channels (foldl (publish_step src p) w subs) !! se_channel e =
    Some (foldl (λ ch q, fanout_to p q ch) ch
            (map snd (filter (λ cq : str * QoS, cq.1 = c) subs))).
Proof.
  revert w ch. induction subs as [|[c' q] subs IH]; intros w ch He Hch Hc Hd;
    [done|].
  rewrite filter_cons. cbn [fst foldl publish_step]. case_bool_decide as Hs.
  { rewrite decide_False by congruence. by apply IH. }
  destruct (decide (c' = c)) as [->|Hne].
  - rewrite He, Hch. cbn. apply IH; cbn; try done. by rewrite lookup_insert_eq.
  - destruct (w_sessions w !! c') as [e'|] eqn:He'; [|by apply IH].
    destruct (w_channels w !! se_channel e') as [ch'|] eqn:Hch'; [|by apply IH].
    apply IH; cbn; try done. rewrite lookup_insert_ne; [done|].
    intros Heq. by apply Hne, (Hd c' e').
Qed.

Lemma fanout_loop_frame src p subs w id :
  (∀ c e q, (c, q) ∈ subs → w_sessions w !! c = Some e → c ≠ src → se_channel e ≠ id) →
  w_channels (foldl (publish_step src p) w subs) !! id = w_channels w !! id.
Proof.
  revert w. induction subs as [|[c q] subs IH]; intros w Hid; cbn; [done|].
  rewrite IH.
  - case_bool_decide as Hs; [done|].
    destruct (w_sessions w !! c) as [e|] eqn:He; [|done].
    destruct (w_channels w !! se_channel e) eqn:Hch; [|done]. cbn.
    apply lookup_insert_ne. eapply Hid; [left | done | done].
  - intros c' e' q' Hin. unfold w_sessions.
    destruct (bool_decide (c = src)); [|repeat case_match; cbn];
      intros; eapply Hid; eauto using list_elem_of_further.
Qed.

(** A channel is left alone unless it belongs to a subscriber other than the
    publisher. *)
Lemma publish_frame w src p id :
  (∀ c e f q, w_sessions w !! c = Some e → se_channel e = id → c ≠ src →
     sub_of (w_subs w) f c = Some q →
     filter_matches f (split slash (pub_topic p)) = false) →
  w_channels (publish w src p) !! id = w_channels w !! id.
Proof.
  intros Hid. apply fanout_loop_frame. intros c e q Hin He Hc <-.
  apply elem_of_matching in Hin as (f & Hf & Hm).
  by rewrite (Hid c e f q) in Hm.
Qed.
End fanout.

(** ** Lemmas: the set of connections

    The broker's methods change channels in place: they neither add nor remove a
    connection. *)
Definition same_ids (w w' : World) : Prop :=
  ∀ id, ch_connection_id <$> w_channels w' !! id = ch_connection_id <$> w_channels w !! id.

#[global] Instance same_ids_preorder : PreOrder same_ids.
Proof.
  split; [by intros w id|]. intros w1 w2 w3 H12 H23 id. by rewrite H23, H12.
Qed.

Lemma same_ids_is_Some w w' id :
  same_ids w w' → is_Some (w_channels w !! id) → is_Some (w_channels w' !! id).
Proof.
  intros Hs [ch Hch]. specialize (Hs id). rewrite Hch in Hs.
  by destruct (w_channels w' !! id).
Qed.

Lemma same_ids_inv n w w' : same_ids w w' → ids_inv n w → ids_inv n w'.
Proof.
  intros Hs [Hn Hi]. split; [done|]. intros id ch Hch. specialize (Hs id).
  rewrite Hch in Hs. destruct (w_channels w !! id) as [ch0|] eqn:E; [|done].
  injection Hs as ->. by apply Hi.
Qed.

Lemma same_ids_insert w id ch ch' :
  w_channels w !! id = Some ch → ch_connection_id ch' = ch_connection_id ch →
  same_ids w (set_channels w (<[id := ch']> (w_channels w))).
Proof.
  intros Hch Hid id'. cbn. destruct (decide (id = id')) as [<-|Hne].
  - rewrite lookup_insert_eq, Hch. cbn. by rewrite Hid.
  - by rewrite lookup_insert_ne.
Qed.

Lemma close_id ch : ch_connection_id (close ch) = ch_connection_id ch.
Proof. unfold close. by destruct (negb _). Qed.

Lemma same_ids_close w id : same_ids w (close_channel w id).
Proof.
  intros id'. cbn. destruct (decide (id = id')) as [<-|Hne].
  - rewrite lookup_alter_eq, <- option_fmap_compose. apply option_fmap_ext, close_id.
  - by rewrite lookup_alter_ne.
Qed.

Lemma channel_step_id l ch ch' :
  channel_step l ch ch' → ch_connection_id ch' = ch_connection_id ch.
Proof.
  destruct 1 as [c c' Hs|c cmd _|c cmd _|c|c s _|c]; try done.
  - destruct Hs as [d c c' Hs|c c' Hs|c c' Hs]; unfold actor_recv, actor_write, actor_shutdown in Hs;
      repeat case_match; try done; injection Hs as <-; repeat case_match; done.
  - unfold send_cmd. by case_match.
  - unfold send_cmd. by case_match.
  - apply close_id.
Qed.

Section ids.
Context `{DashMapIter}.

Lemma publish_step_same_ids src p w sub : same_ids w (publish_step src p w sub).
Proof.
  destruct sub as [c q]. cbn. case_bool_decide; [done|].
  destruct (w_sessions w !! c) as [e|]; [|done].
  destruct (w_channels w !! se_channel e) eqn:Hch; [|done].
  eapply same_ids_insert; [done | apply fanout_to_id].
Qed.

Lemma same_ids_publish w src p : same_ids w (publish w src p).
Proof.
  unfold publish. generalize (matching (w_subs w) (pub_topic p)). intros subs. revert w.
  induction subs as [|sub subs IH]; intros w; [done|].
  cbn [foldl]. etrans; [apply publish_step_same_ids | apply IH].
Qed.

Lemma same_ids_publish_will w will : same_ids w (publish_will w will).
Proof. destruct will; [apply same_ids_publish | done]. Qed.

Lemma publish_will_broker w will : w_broker (publish_will w will) = w_broker w.
Proof. destruct will; [apply publish_broker | done]. Qed.

Lemma same_ids_takeover w c clean :
  same_ids w (register_takeover w c clean).1.
Proof.
  unfold register_takeover. cbn. set (w1 := match _ !! _ with Some _ => _ | None => _ end).
  assert (same_ids w w1) as Hw1; [|by destruct clean].
  unfold w1. destruct (w_sessions w !! c) as [prev|]; [|done].
  etrans; [|apply same_ids_publish_will]. apply (same_ids_close (set_sessions w _)).
Qed.

Lemma same_ids_register w c id will clean :
  same_ids w (register_session w c id will clean).1.
Proof. apply (same_ids_takeover w c clean). Qed.

Lemma same_ids_unregister w c id graceful :
  same_ids w (unregister_session w c id graceful).
Proof.
  unfold unregister_session, take_session. repeat case_match; simplify_eq; try done.
  etrans; [|apply same_ids_publish_will]. done.
Qed.
End ids.

Lemma subscribe_step_channels c acc tf :
  w_channels (subscribe_step c acc tf).1 = w_channels acc.1.
Proof. unfold subscribe_step. destruct acc as [w codes]. by case_match. Qed.

Lemma subscribe_channels w c id filters :
  w_channels (subscribe w c id filters).1 = w_channels w.
Proof.
  unfold subscribe. destruct (owned_entry w c id); [|done].
  change (w_channels w) with (w_channels (w, @nil SubackCode).1).
  generalize (w, @nil SubackCode). induction filters as [|tf l IH]; intros acc; cbn; [done|].
  by rewrite IH, subscribe_step_channels.
Qed.

Lemma unsubscribe_channels w c id topics :
  w_channels (unsubscribe w c id topics) = w_channels w.
Proof.
  unfold unsubscribe. destruct (owned_entry w c id); [|done].
  revert w. induction topics as [|f l IH]; intros w; cbn; [done|]. by rewrite IH.
Qed.

(** ** Lemmas: the broker's tables after each method *)

Section tables.
Context `{DashMapIter}.

Lemma register_sessions w c id will clean :
  w_sessions (register_session w c id will clean).1 =
    <[c := mkEntry id ∅ will clean]> (w_sessions w).
Proof.
  unfold register_session, register_takeover, register_insert. cbn.
  set (w1 := match _ !! _ with Some _ => _ | None => _ end).
  assert (w_sessions w1 = delete c (w_sessions w)) as Hw1.
  { unfold w1. destruct (w_sessions w !! c); [|done].
    unfold w_sessions at 1. by rewrite publish_will_broker. }
  clearbody w1. destruct clean; unfold w_sessions in *; cbn; unfold w_sessions; rewrite Hw1;
    apply insert_delete_eq.
Qed.

Lemma register_sub_of w c id will clean f c' :
  sub_of (w_subs (register_session w c id will clean).1) f c' =
    if clean && bool_decide (c' = c) then None else sub_of (w_subs w) f c'.
Proof.
  unfold register_session, register_takeover, register_insert. cbn.
  set (w1 := match _ !! _ with Some _ => _ | None => _ end).
  assert (w_subs w1 = w_subs w) as Hw1.
  { unfold w1, w_subs. destruct (w_sessions w !! c); [|done].
    by rewrite publish_will_broker. }
  destruct clean; cbn; rewrite Hw1; [|done].
  rewrite sub_of_remove_client. by repeat case_decide; case_bool_decide.
Qed.

Lemma unregister_owned w c e graceful :
  w_sessions w !! c = Some e →
  unregister_session w c (se_channel e) graceful =
    let w' := set_subs (set_sessions w (delete c (w_sessions w)))
                (tree_remove_client (w_subs w) c) in
    if graceful then w' else publish_will w' (se_will e).
Proof.
  intros He. unfold unregister_session, take_session. rewrite He, Z.eqb_refl.
  by destruct graceful.
Qed.

Lemma unregister_stale w c id graceful :
  owned_entry w c id = None → unregister_session w c id graceful = w.
Proof. unfold owned_entry, unregister_session, take_session. by repeat case_match. Qed.

Lemma owned_entry_Some w c id e :
  owned_entry w c id = Some e → w_sessions w !! c = Some e ∧ se_channel e = id.
Proof.
  unfold owned_entry. destruct (w_sessions w !! c) as [e'|]; [|done].
  destruct (Z.eqb_spec (se_channel e') id); [|done]. intros [= <-]. done.
Qed.
End tables.

(** ** Preservation of the invariant *)

Lemma broker_inv_channels w w' :
  w_broker w' = w_broker w → same_ids w w' → broker_inv w → broker_inv w'.
Proof.
  intros Hb Hs []. unfold w_sessions, w_subs in *.
  split; unfold w_sessions, w_subs; rewrite ?Hb; eauto using same_ids_is_Some.
Qed.

Section preservation.
Context `{DashMapIter}.

Lemma register_session_inv w c id will clean :
  is_Some (w_channels w !! id) → map_Forall (λ _ e, se_channel e ≠ id) (w_sessions w) →
  broker_inv w → broker_inv (register_session w c id will clean).1.
Proof.
  intros Hch Hfresh [Hsub Hfil Hval Hchan Hdist].
  split; setoid_rewrite register_sessions || setoid_rewrite register_sub_of;
    try setoid_rewrite register_sub_of.
  - intros f c' q. case_match; [done|]. intros Hq%Hsub.
    destruct (decide (c = c')) as [<-|]; [by rewrite lookup_insert_eq|].
    by rewrite lookup_insert_ne.
  - intros c' e f q. rewrite lookup_insert_Some.
    intros [[<- <-]|[Hne He]] Hf; [by cbn in Hf; rewrite lookup_empty in Hf|].
    rewrite bool_decide_false, andb_false_r by done. by eapply Hfil.
  - intros f c' q. case_match; [done|]. apply Hval.
  - intros c' e. rewrite lookup_insert_Some.
    intros [[<- <-]|[Hne He]]; (eapply same_ids_is_Some; [apply same_ids_register|]);
      [done | by eapply Hchan].
  - intros c1 c2 e1 e2. rewrite !lookup_insert_Some.
    intros [[<- <-]|[Hne1 H1]] [[<- <-]|[Hne2 H2]] Heq; cbn in *; [done | | | by eapply Hdist].
    + by destruct (Hfresh c2 e2).
    + by destruct (Hfresh c1 e1).
Qed.

Lemma unregister_session_inv w c id graceful :
  broker_inv w → broker_inv (unregister_session w c id graceful).
Proof.
  intros Hinv. destruct (owned_entry w c id) as [e|] eqn:Ho;
    [|by rewrite unregister_stale].
  apply owned_entry_Some in Ho as [He <-].
  rewrite unregister_owned by done. cbn.
  set (w' := set_subs _ _).
  assert (broker_inv w') as Hw'.
  2:{ destruct graceful; [done|].
      eapply broker_inv_channels; [apply publish_will_broker | apply same_ids_publish_will | done]. }
  destruct Hinv as [Hsub Hfil Hval Hchan Hdist]. unfold w'. split; cbn.
  - intros f c' q. rewrite sub_of_remove_client. case_decide as Hc; [done|].
    intros Hq%Hsub. by rewrite lookup_delete_ne.
  - intros c' e' f q [Hne He']%lookup_delete_Some Hf.
    rewrite sub_of_remove_client, decide_False by done. by eapply Hfil.
  - intros f c' q. rewrite sub_of_remove_client. case_decide; [done|]. apply Hval.
  - intros c' e' [_ He']%lookup_delete_Some. by eapply Hchan.
  - intros c1 c2 e1 e2 [_ H1]%lookup_delete_Some [_ H2]%lookup_delete_Some.
    by eapply Hdist.
Qed.
End preservation.

(** [subscribe] and [unsubscribe] change one entry, without its channel. *)
Definition with_filters (e : SubscriberEntry) (m : gmap str QoS) : SubscriberEntry :=
  mkEntry (se_channel e) m (se_will e) (se_clean_session e).

Lemma entry_update_inv w c e m t :
  w_sessions w !! c = Some e →
  (∀ f c' q, sub_of t f c' = Some q →
     sub_of (w_subs w) f c' = Some q ∨ (c' = c ∧ validate_subscribe_filter f = Ok tt)) →
  (∀ f q, m !! f = Some q → sub_of t f c = Some q) →
  (∀ f c', c' ≠ c → sub_of t f c' = sub_of (w_subs w) f c') →
  broker_inv w →
  broker_inv (set_subs (set_sessions w (<[c := with_filters e m]> (w_sessions w))) t).
Proof.
  intros He Ht Hm Hne [Hsub Hfil Hval Hchan Hdist]. split; cbn.
  - intros f c' q Hq. destruct (decide (c = c')) as [<-|]; [by rewrite lookup_insert_eq|].
    rewrite lookup_insert_ne by done. destruct (Ht _ _ _ Hq) as [Ho|[-> _]]; [|done].
    by eapply Hsub.
  - intros c' e' f q. rewrite lookup_insert_Some.
    intros [[<- <-]|[Hc He']] Hf; [by apply Hm|].
    rewrite Hne by done. by eapply Hfil.
  - intros f c' q Hq. destruct (Ht _ _ _ Hq) as [Ho|[_ Hv]]; [by eapply Hval | done].
  - intros c' e'. rewrite lookup_insert_Some.
    intros [[<- <-]|[Hc He']]; cbn; by eapply Hchan.
  - intros c1 c2 e1 e2. rewrite !lookup_insert_Some.
    intros [[<- <-]|[Hc1 H1]] [[<- <-]|[Hc2 H2]] Heq; cbn in *; [done|..];
      by eapply Hdist.
Qed.

Lemma alter_insert `{Countable K} {V} (g : V → V) (m : gmap K V) c e :
  m !! c = Some e → alter g c m = <[c := g e]> m.
Proof.
  intros He. apply map_eq. intros i. destruct (decide (c = i)) as [<-|].
  - by rewrite lookup_alter_eq, lookup_insert_eq, He.
  - by rewrite lookup_alter_ne, lookup_insert_ne.
Qed.

Lemma subscribe_step_inv c acc tf :
  is_Some (w_sessions acc.1 !! c) → broker_inv acc.1 →
  is_Some (w_sessions (subscribe_step c acc tf).1 !! c) ∧
  broker_inv (subscribe_step c acc tf).1.
Proof.
  intros [e He] Hinv. destruct acc as [w codes]. unfold subscribe_step. cbn in He, Hinv.
  destruct (validate_subscribe_filter (tf_filter tf)) as [[]| | |] eqn:Hv; cbn;
    try (split; [by eexists | done]).
  rewrite (alter_insert _ _ c e) by done. split; [by rewrite lookup_insert_eq|].
  apply (entry_update_inv w c e); [done | | | | done].
  - intros f c' q. rewrite sub_of_subscribe. case_decide as Hd; [|by left].
    destruct Hd as [-> ->]. by right.
  - intros f q. rewrite lookup_insert_Some, sub_of_subscribe. intros [[<- <-]|[Hne Hf]].
    + by rewrite decide_True.
    + rewrite decide_False by (intros [? ?]; congruence). by eapply inv_filters.
  - intros f c' Hc. rewrite sub_of_subscribe, decide_False by (intros [? ?]; congruence). done.
Qed.

Lemma subscribe_inv w c id filters :
  broker_inv w → broker_inv (subscribe w c id filters).1.
Proof.
  intros Hinv. unfold subscribe. destruct (owned_entry w c id) as [e|] eqn:Ho; [|done].
  apply owned_entry_Some in Ho as [He _].
  enough (∀ acc, is_Some (w_sessions acc.1 !! c) → broker_inv acc.1 →
    broker_inv (foldl (subscribe_step c) acc filters).1) as Hf
    by (apply Hf; [by eexists | done]).
  induction filters as [|tf l IH]; intros acc Hs Hi; cbn; [done|].
  destruct (subscribe_step_inv c acc tf Hs Hi). by apply IH.
Qed.

Lemma unsubscribe_step_inv c w topic :
  is_Some (w_sessions w !! c) → broker_inv w →
  is_Some (w_sessions (unsubscribe_step c w topic) !! c) ∧
  broker_inv (unsubscribe_step c w topic).
Proof.
  intros [e He] Hinv. unfold unsubscribe_step. cbn.
  rewrite (alter_insert _ _ c e) by done. split; [by rewrite lookup_insert_eq|].
  apply (entry_update_inv w c e); [done | | | | done].
  - intros f c' q. rewrite sub_of_unsubscribe. case_decide; [done|]. by left.
  - intros f q [Hne Hf]%lookup_delete_Some.
    rewrite sub_of_unsubscribe, decide_False by (intros [? ?]; congruence). by eapply inv_filters.
  - intros f c' Hc. rewrite sub_of_unsubscribe, decide_False by (intros [? ?]; congruence). done.
Qed.

Lemma unsubscribe_inv w c id topics :
  broker_inv w → broker_inv (unsubscribe w c id topics).
Proof.
  intros Hinv. unfold unsubscribe. destruct (owned_entry w c id) as [e|] eqn:Ho; [|done].
  apply owned_entry_Some in Ho as [He _]. assert (is_Some (w_sessions w !! c)) as Hs by eauto.
  clear e He. revert w Hinv Hs. induction topics as [|f l IH]; intros w Hinv Hs; cbn; [done|].
  destruct (unsubscribe_step_inv c w f Hs Hinv). by apply IH.
Qed.

(** The counter gives a new connection an id that no channel has. *)
Lemma ids_inv_accept n w rd wr la ra role n' ch :
  n < u64_max → channel_new n rd wr la ra role = (n', ch) → ids_inv n w →
  ids_inv n' (set_channels w (<[ch_connection_id ch := ch]> (w_channels w))).
Proof.
  intros Hn Hnew [Hn0 Hids]. unfold channel_new, next_connection_id in Hnew.
  injection Hnew as <- <-. unfold u64_max in *. cbn. rewrite Z.mod_small by lia.
  split; [lia|]. cbn. intros id ch. rewrite lookup_insert_Some.
  intros [[<- <-]|[_ Hch]]; [cbn; lia|]. apply Hids in Hch. lia.
Qed.

Lemma broker_step_inv `{DashMapIter} s s' :
  broker_step s s' →
  broker_inv s.2 ∧ ids_inv s.1 s.2 → broker_inv s'.2 ∧ ids_inv s'.1 s'.2.
Proof.
  destruct 1 as [n w rd wr la ra role n' ch Hn Hnew|n w id ch l ch' Hch Hs|
    n w c id will clean Hch Hfresh|n w c id g|n w c id fs|n w c id ts|n w c p];
    cbn; intros [Hinv Hids].
  - split; [|by eapply ids_inv_accept].
    destruct Hinv as [Hsub Hfil Hval Hchan Hdist]. split; cbn; try done.
    intros c e He. apply lookup_insert_is_Some'. right. by eapply Hchan.
  - assert (same_ids w (set_channels w (<[id := ch']> (w_channels w)))) as Hsame
      by (eapply same_ids_insert; eauto using channel_step_id).
    split; [by apply (broker_inv_channels w) | by eapply same_ids_inv].
  - split; [by apply register_session_inv|].
    eapply same_ids_inv; [apply same_ids_register | done].
  - split; [by apply unregister_session_inv|].
    eapply same_ids_inv; [apply same_ids_unregister | done].
  - split; [by apply subscribe_inv|]. unfold ids_inv. by rewrite subscribe_channels.
  - split; [by apply unsubscribe_inv|]. unfold ids_inv. by rewrite unsubscribe_channels.
  - split.
    + eapply broker_inv_channels; [apply publish_broker | apply same_ids_publish | done].
    + eapply same_ids_inv; [apply same_ids_publish | done].
Qed.

Definition world_new (b : Broker) : World := mkWorld ∅ b.

Lemma world_new_inv auth safety :
  broker_inv (world_new (broker_build auth safety)) ∧
  ids_inv 0 (world_new (broker_build auth safety)).
Proof.
  split; [|by split; [lia | intros id ch; cbn; rewrite lookup_empty]].
  split; unfold w_subs, w_sessions, sub_of, tree_new; cbn; intros *;
    rewrite ?lookup_empty; naive_solver.
Qed.

(** ** A broker with two connections

    Client [a] on connection 1, with a Will on [w]; client [b] on connection 2,
    subscribed to [t/+], to [#] and, by a filter that is refused, to nothing. *)
Definition demo_connect (s : Z * World) : Z * World :=
  let '(n, ch) := channel_new s.1 (mkReader [] []) (mkWriter [] None) None None Role_Server in
  (n, set_channels s.2 (<[ch_connection_id ch := ch]> (w_channels s.2))).

Definition demo_will : WillMessage :=
  mkWillMessage (str_of "w") (str_of "gone") AtLeastOnce true.

Definition demo_filters : list TopicFilter :=
  [mkTopicFilter (str_of "t/+") AtMostOnce; mkTopicFilter (str_of "#") ExactlyOnce;
   mkTopicFilter (str_of "#/t") ExactlyOnce].

Definition demo_0 : Z * World := demo_connect (demo_connect (1, world_new broker_accept_all)).
Definition demo_1 : World :=
  (register_session demo_0.2 (str_of "a") 1 (Some demo_will) true).1.
Definition demo_2 : World := (register_session demo_1 (str_of "b") 2 None false).1.
Definition demo : World := (subscribe demo_2 (str_of "b") 2 demo_filters).1.

Definition demo_publish : PublishPacket :=
  mkPublishPacket (str_of "t/1") (str_of "on") true AtLeastOnce true (Some 9).

Lemma demo_reachable : rtc broker_step (1, world_new broker_accept_all) (3, demo).
Proof.
  apply rtc_l with (demo_connect (1, world_new broker_accept_all)).
  { eapply step_accept; [vm_compute; reflexivity | reflexivity]. }
  apply rtc_l with demo_0.
  { change demo_0 with (demo_connect (demo_connect (1, world_new broker_accept_all))).
    eapply step_accept; [vm_compute; reflexivity | reflexivity]. }
  apply rtc_l with (3, demo_1).
  { apply step_register; [by eexists | intros c e He; by vm_compute in He]. }
  apply rtc_l with (3, demo_2).
  { apply step_register; [by eexists|].
    apply map_Forall_insert_2; [done | intros c e He; by vm_compute in He]. }
  apply rtc_once. apply step_subscribe.
Qed.

Lemma reachable_inv `{DashMapIter} auth safety n w :
  rtc broker_step (1, world_new (broker_build auth safety)) (n, w) →
  broker_inv w ∧ ids_inv n w.
Proof.
  intros Hr. enough (broker_inv (n, w).2 ∧ ids_inv (n, w).1 (n, w).2) by done.
  revert Hr. apply (rtc_ind_r (λ s, broker_inv s.2 ∧ ids_inv s.1 s.2)).
  - destruct (world_new_inv auth safety) as [Hi _]. split; [done|]. cbn.
    split; [lia|]. intros id ch. cbn. by rewrite lookup_empty.
  - intros s s' _ Hs IH. by apply (broker_step_inv s s').
Qed.

Lemma demo_inv : broker_inv demo.
Proof. exact (proj1 (reachable_inv _ _ _ _ demo_reachable)). Qed.

(** ** Theorems *)

Section theorems.
Context `{DashMapIter}.

(** A message to one subscriber: one copy per matching subscription. *)
Lemma publish_copies w src p c e ch :
  w_sessions w !! c = Some e → w_channels w !! se_channel e = Some ch → c ≠ src →
  (∀ c' e', w_sessions w !! c' = Some e' → se_channel e' = se_channel e → c' = c) →
  ch_actor ch ≠ Exited →
  ∃ qs ms ch', w_channels (publish w src p) !! se_channel e = Some ch' ∧
    qs ≡ₚ client_filters (w_subs w) (pub_topic p) c ∧
    Forall2 (delivery p) qs ms ∧
    ch_queue ch' = ch_queue ch ++ map Cmd_Publish ms ∧
    ch_actor ch' = ch_actor ch.
Proof.
  intros He Hch Hc Hd Ha.
  destruct (fanout_all_queue p (client_matching (w_subs w) (pub_topic p) c) ch Ha)
    as (ms & Hms & Hq).
  eexists _, ms, _.
  split_and!; [by apply fanout_loop_channel | apply client_matching_perm | done | done |].
  apply fanout_all_actor.
Qed.

(** Every state the broker reaches, whatever connections are accepted, run and
    closed and whatever methods are called in between, satisfies the broker's
    invariant: only registered clients have subscriptions, an entry's own filter
    table agrees with the tree, every stored filter is valid, every session's
    channel exists, no two sessions share one, and connection ids are unique. *)
Theorem broker_reachable_inv auth safety n w :
  rtc broker_step (1, world_new (broker_build auth safety)) (n, w) →
  broker_inv w ∧ ids_inv n w.
Proof. apply reachable_inv. Qed.

(** C7: a PUBLISH is queued on the channel of every connected subscriber other
    than the publisher exactly once for each of its subscriptions that match,
    with the topic and payload of the original, the smaller of the two QoS
    levels, DUP and RETAIN cleared, and a packet id exactly if the QoS is above
    0. *)
Theorem publish_delivers w src p c e ch :
  broker_inv w → w_sessions w !! c = Some e → w_channels w !! se_channel e = Some ch →
  c ≠ src → ch_actor ch ≠ Exited →
  ∃ qs ms ch', w_channels (publish w src p) !! se_channel e = Some ch' ∧
    qs ≡ₚ client_filters (w_subs w) (pub_topic p) c ∧
    Forall2 (delivery p) qs ms ∧
    ch_queue ch' = ch_queue ch ++ map Cmd_Publish ms.
Proof.
  intros Hinv He Hch Hc Ha.
  destruct (publish_copies w src p c e ch) as (qs & ms & ch' & ? & ? & ? & ? & _);
    [done.. | | done | eauto 10].
  intros c' e' He' Heq. by eapply inv_distinct.
Qed.

(** A PUBLISH reaches nobody else: the tables stay as they are, and a channel
    that no matching subscriber other than the publisher owns is untouched, the
    publisher's own included. *)
Theorem publish_isolated w src p id :
  broker_inv w →
  w_broker (publish w src p) = w_broker w ∧
  ((∀ c e, w_sessions w !! c = Some e → se_channel e = id → c ≠ src →
      client_filters (w_subs w) (pub_topic p) c = []) →
   w_channels (publish w src p) !! id = w_channels w !! id).
Proof.
  intros Hinv. split; [apply publish_broker|]. intros Hid.
  apply publish_frame. intros c e f q He Hch Hc Hs. specialize (Hid c e He Hch Hc).
  destruct (filter_matches f (split slash (pub_topic p))) eqn:Hm; [exfalso|done].
  assert ((c, q) ∈ matching (w_subs w) (pub_topic p)) as Hin
    by (apply elem_of_matching; eauto).
  assert (q ∈ client_matching (w_subs w) (pub_topic p) c) as Hq.
  { unfold client_matching. apply list_elem_of_fmap. exists (c, q). split; [done|].
    by apply list_elem_of_filter. }
  rewrite client_matching_perm, Hid in Hq. by apply not_elem_of_nil in Hq.
Qed.

(** C11: a CONNECT with a client id that is already connected takes the session
    over: the earlier connection's channel is closed, the client id then names the
    new connection with its own Will and no filters, session-present is reported
    exactly for a non-clean session that replaces one, a clean session starts
    without subscriptions and a non-clean one keeps them, and no other client
    loses or gains any. *)
Theorem register_session_takeover w c id will clean w' present :
  broker_inv w → map_Forall (λ _ e, se_channel e ≠ id) (w_sessions w) →
  register_session w c id will clean = (w', present) →
  w_sessions w' = <[c := mkEntry id ∅ will clean]> (w_sessions w) ∧
  present = negb clean && bool_decide (is_Some (w_sessions w !! c)) ∧
  (∀ prev ch, w_sessions w !! c = Some prev → w_channels w !! se_channel prev = Some ch →
     w_channels w' !! se_channel prev = Some (close ch)) ∧
  (∀ f, sub_of (w_subs w') f c = if clean then None else sub_of (w_subs w) f c) ∧
  (∀ f c', c' ≠ c → sub_of (w_subs w') f c' = sub_of (w_subs w) f c').
Proof.
  intros Hinv Hfresh Hreg.
  assert (w' = (register_session w c id will clean).1) as -> by by rewrite Hreg.
  assert (present = (register_session w c id will clean).2) as -> by by rewrite Hreg.
  split_and!; [apply register_sessions | done | | |].
  - intros prev ch Hprev Hch. unfold register_session, register_takeover, register_insert.
    cbn. rewrite Hprev.
    set (w1 := close_channel _ _).
    assert (w_channels w1 !! se_channel prev = Some (close ch)) as Hw1.
    { unfold w1. cbn. by rewrite lookup_alter_eq, Hch. }
    assert (w_channels (publish_will w1 (se_will prev)) !! se_channel prev =
            Some (close ch)) as Hw2; [|by destruct clean].
    destruct (se_will prev) as [wm|]; [|done]. cbn.
    rewrite publish_frame; [done|]. change (w_sessions w1) with (delete c (w_sessions w)).
    intros c' e' f q [Hne He']%lookup_delete_Some Heq.
    by destruct Hne; eapply (inv_distinct w Hinv).
  - intros f. rewrite register_sub_of. by rewrite bool_decide_true, andb_true_r by done.
  - intros f c' Hc. rewrite register_sub_of. by rewrite bool_decide_false, andb_false_r by done.
Qed.


(** The teardown of the connection that owns the session forgets the client:
    no session, no subscription in the tree, whether or not the session was
    clean; the other clients keep theirs. *)
Theorem unregister_session_forgets w c e graceful w' :
  w_sessions w !! c = Some e →
  w' = unregister_session w c (se_channel e) graceful →
  w_sessions w' = delete c (w_sessions w) ∧
  (∀ f, sub_of (w_subs w') f c = None) ∧
  (∀ f c', c' ≠ c → sub_of (w_subs w') f c' = sub_of (w_subs w) f c').
Proof.
  intros He ->. rewrite unregister_owned by done. cbn. set (w1 := set_subs _ _).
  assert (w_broker (if graceful then w1 else publish_will w1 (se_will e)) = w_broker w1)
    as Hb by (destruct graceful; [done | apply publish_will_broker]).
  unfold w_sessions, w_subs in *. rewrite Hb. cbn. split_and!; [done | |].
  - intros f. by rewrite sub_of_remove_client, decide_True.
  - intros f c' Hc. by rewrite sub_of_remove_client, decide_False.
Qed.

(** The Will as the broker publishes it. *)
Definition will_packet (will : WillMessage) : PublishPacket :=
  mkPublishPacket (wm_topic will) (wm_payload will) false (wm_qos will) (wm_retain will)
    None.

Lemma client_filters_remove subs topic c c' :
  c' ≠ c →
  client_filters (tree_remove_client subs c) topic c' = client_filters subs topic c'.
Proof.
  intros Hc. unfold client_filters, tree_remove_client. rewrite map_to_list_fmap.
  induction (map_to_list subs) as [|[f set] l IH]; cbn; [done|].
  rewrite IH. by rewrite lookup_delete_ne.
Qed.

(** A connection that ends without DISCONNECT has its Will delivered: both its
    own teardown and a takeover by a newer connection queue the Will on the
    channel of every other connected client once per matching subscription. *)
Theorem will_delivered w c e will w' id new_will clean c' e' ch :
  broker_inv w → w_sessions w !! c = Some e → se_will e = Some will →
  w' = unregister_session w c (se_channel e) false ∨
    w' = (register_session w c id new_will clean).1 →
  c' ≠ c → c' ≠ [] → w_sessions w !! c' = Some e' →
  w_channels w !! se_channel e' = Some ch → ch_actor ch ≠ Exited →
  ∃ qs ms ch', w_channels w' !! se_channel e' = Some ch' ∧
    qs ≡ₚ client_filters (w_subs w) (wm_topic will) c' ∧
    Forall2 (delivery (will_packet will)) qs ms ∧
    ch_queue ch' = ch_queue ch ++ map Cmd_Publish ms.
Proof.
  intros Hinv He Hwill Hw Hne Hnil He' Hch Ha.
  assert (∀ c1 e1, delete c (w_sessions w) !! c1 = Some e1 →
    se_channel e1 = se_channel e' → c1 = c') as Hd.
  { intros c1 e1 [_ H1]%lookup_delete_Some Heq. by eapply inv_distinct. }
  assert (delete c (w_sessions w) !! c' = Some e') as He'' by by rewrite lookup_delete_ne.
  destruct Hw as [->| ->].
  - rewrite unregister_owned, Hwill by done. cbn.
    destruct (publish_copies (set_subs (set_sessions w (delete c (w_sessions w)))
      (tree_remove_client (w_subs w) c)) [] (will_packet will) c' e' ch)
      as (qs & ms & ch' & Hch' & Hqs & Hms & Hq & _); [done..|].
    exists qs, ms, ch'. split_and!; [done | | done | done].
    rewrite Hqs. cbn. by rewrite client_filters_remove.
  - unfold register_session, register_takeover, register_insert. cbn. rewrite He, Hwill. cbn.
    set (w1 := close_channel _ _).
    assert (w_channels w1 !! se_channel e' = Some ch) as Hch1.
    { unfold w1. cbn. rewrite lookup_alter_ne; [done|]. intros Heq.
      destruct Hne. by eapply (inv_distinct w Hinv). }
    destruct (publish_copies w1 [] (will_packet will) c' e' ch)
      as (qs & ms & ch' & Hch' & Hqs & Hms & Hq & _); [done..|].
    exists qs, ms, ch'. split_and!; [by destruct clean | done..].
Qed.
End theorems.

(** The QoS a SUBSCRIBE grants for [f]: that of its last acceptable entry. *)
Definition granted (filters : list TopicFilter) (f : str) : option QoS :=
  last (map tf_qos
    (filter (λ tf, tf_filter tf = f ∧ validate_subscribe_filter f = Ok tt) filters)).

Lemma granted_cons tf filters f :
  granted (tf :: filters) f =
    match granted filters f with
    | Some q => Some q
    | None => if decide (tf_filter tf = f ∧ validate_subscribe_filter f = Ok tt)
              then Some (tf_qos tf) else None
    end.
Proof.
  unfold granted. rewrite filter_cons. case_decide; [|by case_match].
  cbn [map]. by rewrite last_cons.
Qed.

Lemma subscribe_loop_spec c filters w codes w' codes' :
  foldl (subscribe_step c) (w, codes) filters = (w', codes') →
  codes' = codes ++ map (λ tf,
    if is_ok (validate_subscribe_filter (tf_filter tf)) then Granted (tf_qos tf)
    else Failure) filters ∧
  ∀ f c', sub_of (w_subs w') f c' =
    match (if decide (c' = c) then granted filters f else None) with
    | Some q => Some q
    | None => sub_of (w_subs w) f c'
    end.
Proof.
  revert w codes. induction filters as [|tf l IH]; intros w codes Hf; cbn [foldl] in Hf.
  { injection Hf as <- <-. cbn. rewrite app_nil_r. split; [done|]. intros. by case_decide. }
  destruct (subscribe_step c (w, codes) tf) as [w1 codes1] eqn:E1.
  apply IH in Hf as [-> Hsub]. clear IH. unfold subscribe_step in E1.
  destruct (validate_subscribe_filter (tf_filter tf)) as [[]|e| |] eqn:Hv;
    injection E1 as <- <-; cbn [map]; rewrite Hv, <- app_assoc; cbn [is_ok];
    (split; [done|]); intros f c'; rewrite Hsub; rewrite granted_cons;
    destruct (decide (c' = c)) as [->|Hc]; cbn; try done.
  1,2: rewrite ?sub_of_subscribe.
  2: by rewrite decide_False by (intros [? ?]; congruence).
  all: destruct (granted l f); [done|].
  1: destruct (decide (f = tf_filter tf)) as [->|Hne].
  1: by rewrite !decide_True.
  all: rewrite ?decide_False; try done; intros [? ?]; congruence.
Qed.

(** SUBSCRIBE on the connection that owns the session answers each filter in
    order, granting the requested QoS to the valid ones and failing the others,
    and afterwards the client is subscribed to exactly what it was plus the valid
    filters, a filter it repeats or held before taking the last QoS; other clients'
    subscriptions do not change. *)
Theorem subscribe_spec w c id e filters w' codes :
  owned_entry w c id = Some e → subscribe w c id filters = (w', codes) →
  codes = map (λ tf,
    if is_ok (validate_subscribe_filter (tf_filter tf)) then Granted (tf_qos tf)
    else Failure) filters ∧
  ∀ f c', sub_of (w_subs w') f c' =
    match (if decide (c' = c) then granted filters f else None) with
    | Some q => Some q
    | None => sub_of (w_subs w) f c'
    end.
Proof.
  intros Ho. unfold subscribe. rewrite Ho. apply (subscribe_loop_spec c filters w []).
Qed.

(** UNSUBSCRIBE on the connection that owns the session removes exactly the
    named filters of this client. *)
Theorem unsubscribe_spec w c id e topics f c' :
  owned_entry w c id = Some e →
  sub_of (w_subs (unsubscribe w c id topics)) f c' =
    if decide (c' = c ∧ f ∈ topics) then None else sub_of (w_subs w) f c'.
Proof.
  intros Ho. unfold unsubscribe. rewrite Ho. clear Ho. revert w.
  induction topics as [|t l IH]; intros w; cbn [foldl].
  { rewrite decide_False; [done|]. intros [_ Hf]. by apply not_elem_of_nil in Hf. }
  rewrite IH. unfold unsubscribe_step. cbn. rewrite sub_of_unsubscribe.
  destruct (decide (c' = c ∧ f ∈ l)) as [[-> Hl]|Hn].
  { rewrite decide_True; [done|]. split; [done | by right]. }
  destruct (decide (f = t ∧ c' = c)) as [[-> ->]|Hn2].
  { rewrite decide_True; [done|]. split; [done | by left]. }
  rewrite decide_False; [done|]. rewrite elem_of_cons. intros [-> [->|Hl]]; auto.
Qed.

(** [register_session] takes the earlier entry out and inserts its own in two
    steps.  When two connections of one client id both pass the first step before
    either inserts, the broker ends up serving the second only, and the first is
    never closed: its channel is as it was, and it no longer owns the session, so
    its later teardown publishes no Will. *)
Theorem register_race `{DashMapIter} w c id1 id2 will1 will2 clean1 clean2 :
  w_sessions w !! c = None → id1 ≠ id2 →
  let w1 := (register_takeover w c clean1).1 in
  let w2 := (register_takeover w1 c clean2).1 in
  let w3 := register_insert w2 c id1 will1 clean1 in
  let w4 := register_insert w3 c id2 will2 clean2 in
  w_channels w4 = w_channels w ∧
  owned_entry w4 c id2 = Some (mkEntry id2 ∅ will2 clean2) ∧
  owned_entry w4 c id1 = None ∧
  unregister_session w4 c id1 false = w4.
Proof.
  intros Hc Hne w1 w2 w3 w4.
  assert (w_sessions w1 = delete c (w_sessions w) ∧ w_channels w1 = w_channels w)
    as [Hs1 Hc1].
  { unfold w1, register_takeover. cbn. rewrite Hc. by destruct clean1. }
  assert (w_channels w2 = w_channels w) as Hc2.
  { clearbody w1. unfold w2, register_takeover. cbn. rewrite Hs1, lookup_delete_eq.
    by destruct clean2. }
  assert (owned_entry w4 c id1 = None) as Ho.
  { unfold owned_entry, w4. cbn. rewrite lookup_insert_eq. cbn.
    destruct (Z.eqb_spec id2 id1); congruence. }
  split_and!; [done | | done | by apply unregister_stale].
  unfold owned_entry, w4. cbn. rewrite lookup_insert_eq. cbn. by rewrite Z.eqb_refl.
Qed.

(** ** Witnesses *)

Definition demo_entry (c : string) : SubscriberEntry :=
  default (mkEntry 0 ∅ None false) (w_sessions demo !! str_of c).
Definition demo_ch (id : Z) : MqttChannel :=
  default (channel_new 0 (mkReader [] []) (mkWriter [] None) None None Role_Server).2
    (w_channels demo !! id).

Lemma broker_reachable_inv_witness : broker_inv demo ∧ ids_inv 3 demo.
Proof.
  apply (broker_reachable_inv AcceptAllAuthenticator safety_new), demo_reachable.
Defined.

Lemma publish_delivers_witness :
  ∃ qs ms ch', w_channels (publish demo (str_of "a") demo_publish) !! 2 = Some ch' ∧
    qs ≡ₚ client_filters (w_subs demo) (str_of "t/1") (str_of "b") ∧
    Forall2 (delivery demo_publish) qs ms ∧
    ch_queue ch' = [] ++ map Cmd_Publish ms.
Proof.
  apply (publish_delivers demo (str_of "a") demo_publish (str_of "b") (demo_entry "b")
    (demo_ch 2)); [apply demo_inv | reflexivity | reflexivity | discriminate | discriminate].
Defined.

(** Both of [b]'s valid subscriptions match [t/1]. *)
Example demo_copies :
  client_filters (w_subs demo) (str_of "t/1") (str_of "b") ≡ₚ [AtMostOnce; ExactlyOnce].
Proof. vm_compute. apply Permutation_swap || reflexivity. Qed.

Lemma publish_isolated_witness :
  w_channels (publish demo (str_of "b") demo_publish) !! 2 = w_channels demo !! 2.
Proof.
  apply (publish_isolated demo (str_of "b") demo_publish 2 demo_inv).
  intros c e He Hid Hc. destruct Hc.
  by eapply (inv_distinct demo demo_inv c (str_of "b") e (demo_entry "b")).
Defined.

Lemma register_session_takeover_witness :
  w_channels (register_session demo (str_of "b") 7 None true).1 !! 2 = Some (close (demo_ch 2)) ∧
  (register_session demo (str_of "b") 7 None false).2 = true.
Proof.
  assert (map_Forall (λ _ e, se_channel e ≠ 7) (w_sessions demo)) as Hf.
  { vm_compute w_sessions. apply (bool_decide_unpack _). vm_compute. exact I. }
  split.
  - apply (register_session_takeover demo (str_of "b") 7 None true
      (register_session demo (str_of "b") 7 None true).1 false)
      with (prev := demo_entry "b"); [apply demo_inv | exact Hf | reflexivity..].
  - apply (register_session_takeover demo (str_of "b") 7 None false
      (register_session demo (str_of "b") 7 None false).1 true);
      [apply demo_inv | exact Hf | reflexivity].
Defined.


Lemma unregister_session_forgets_witness :
  w_sessions (unregister_session demo (str_of "b") 2 true) =
    delete (str_of "b") (w_sessions demo).
Proof.
  apply (unregister_session_forgets demo (str_of "b") (demo_entry "b") true
    (unregister_session demo (str_of "b") 2 true)); reflexivity.
Defined.

Lemma will_delivered_witness :
  ∃ qs ms ch', w_channels (unregister_session demo (str_of "a") 1 false) !! 2 = Some ch' ∧
    qs ≡ₚ client_filters (w_subs demo) (str_of "w") (str_of "b") ∧
    Forall2 (delivery (will_packet demo_will)) qs ms ∧
    ch_queue ch' = [] ++ map Cmd_Publish ms.
Proof.
  apply (will_delivered demo (str_of "a") (demo_entry "a") demo_will
    (unregister_session demo (str_of "a") 1 false) 7 None true (str_of "b")
    (demo_entry "b") (demo_ch 2)); try reflexivity; try discriminate.
  - apply demo_inv.
  - left. reflexivity.
Defined.

Lemma subscribe_spec_witness :
  (subscribe demo_2 (str_of "b") 2 demo_filters).2 =
    [Granted AtMostOnce; Granted ExactlyOnce; Failure].
Proof.
  apply (subscribe_spec demo_2 (str_of "b") 2 (mkEntry 2 ∅ None false) demo_filters demo);
    vm_compute; reflexivity.
Defined.

Lemma unsubscribe_spec_witness :
  sub_of (w_subs (unsubscribe demo (str_of "b") 2 [str_of "#"])) (str_of "#") (str_of "b") =
    None.
Proof.
  apply (unsubscribe_spec demo (str_of "b") 2 (demo_entry "b") [str_of "#"] (str_of "#")
    (str_of "b")). reflexivity.
Defined.

Lemma register_race_witness :
  let w1 := (register_takeover demo_0.2 (str_of "c") true).1 in
  let w2 := (register_takeover w1 (str_of "c") true).1 in
  let w3 := register_insert w2 (str_of "c") 1 None true in
  let w4 := register_insert w3 (str_of "c") 2 None true in
  w_channels w4 = w_channels demo_0.2.
Proof.
  apply (register_race demo_0.2 (str_of "c") 1 2 None None true true);
    [reflexivity | discriminate].
Defined.
