(* ===== verification/PubSub.v ===== *)
(** The contract of [src/src/broker.rs], and that the broker keeps it.

    The code keeps a session table, a filter table per session and a tree from
    filters to clients.  What it promises needs one table: the connected clients,
    each with its connection, its Will and what it is subscribed to.  An operation
    maps the table to the next one, with an answer, a connection to close and the
    copies of a message that each client is due.

    [abs] reads that table off the broker's; [broker_refines_pubsub] is the
    simulation, for whole runs in which connections come, write and fail in between,
    and with what happens to every channel. *)

From S2P Require Import Prelude.
From S2P Require Import Types.
From S2P Require Import Safety.
From S2P Require Import Wire.
From S2P Require Import Topic.
From S2P Require Import Session.
From S2P Require Import Channel.
From S2P Require Import Subscriptions.
From S2P Require Import Broker.

(** ** The specification *)

Record Client := mkClient {
  cs_conn : Z;
  cs_will : option WillMessage;
  cs_subs : gmap str QoS;
}.

Abbreviation PubSub := (gmap str Client).

Inductive Op :=
  | Op_connect (c : str) (id : Z) (will : option WillMessage) (clean : bool)
  | Op_leave (c : str) (id : Z) (graceful : bool)
  | Op_subscribe (c : str) (id : Z) (filters : list TopicFilter)
  | Op_unsubscribe (c : str) (id : Z) (topics : list str)
  | Op_publish (source : str) (p : PublishPacket).

Inductive Answer :=
  | Session_present (b : bool)
  | Codes (l : list SubackCode)
  | Done.

(** The connection to close, and the message with the clients that are due copies,
    each copy with the QoS of the subscription it is for. *)
Record Outcome := mkOutcome {
  oc_close : option Z;
  oc_message : option (PublishPacket * gmap str (list QoS));
}.

Definition nothing : Outcome := mkOutcome None None.

(** The subscriptions that match a topic. *)
Definition matching_qos (subs : gmap str QoS) (topic : str) : list QoS :=
  map snd (filter (λ fq, filter_matches fq.1 (split slash topic) = true) (map_to_list subs)).

(** Everyone but the source is due a copy per matching subscription. *)
Definition audience (s : PubSub) (source : str) (p : PublishPacket) :
    gmap str (list QoS) :=
  (λ cl, matching_qos (cs_subs cl) (pub_topic p)) <$> delete source s.

Definition message (s : PubSub) (source : str) (p : PublishPacket) :
    option (PublishPacket * gmap str (list QoS)) :=
  Some (p, audience s source p).

Definition will_message (s : PubSub) (will : option WillMessage) :
    option (PublishPacket * gmap str (list QoS)) :=
  will ≫= λ will, message s [] (will_packet will).

(** The client, if it is connected by [id]. *)
Definition connected_by (s : PubSub) (c : str) (id : Z) : bool :=
  match s !! c with Some cl => cs_conn cl =? id | None => false end.

Definition with_subs (g : gmap str QoS → gmap str QoS) (cl : Client) : Client :=
  mkClient (cs_conn cl) (cs_will cl) (g (cs_subs cl)).

Definition filter_valid (tf : TopicFilter) : bool :=
  is_ok (validate_subscribe_filter (tf_filter tf)).

Definition add_filter (m : gmap str QoS) (tf : TopicFilter) : gmap str QoS :=
  if filter_valid tf then <[tf_filter tf := tf_qos tf]> m else m.

Definition spec_op (s : PubSub) (op : Op) : PubSub * Answer * Outcome :=
  match op with
  | Op_connect c id will clean =>
      let prev := s !! c in
      let kept := if clean then ∅ else default ∅ (cs_subs <$> prev) in
      (<[c := mkClient id will kept]> s,
       Session_present (negb clean && bool_decide (is_Some prev)),
       mkOutcome (cs_conn <$> prev) (prev ≫= λ cl, will_message (delete c s) (cs_will cl)))
  | Op_leave c id graceful =>
      if connected_by s c id then
        (delete c s, Done,
         mkOutcome None (if graceful then None
                         else s !! c ≫= λ cl, will_message (delete c s) (cs_will cl)))
      else (s, Done, nothing)
  | Op_subscribe c id filters =>
      if connected_by s c id then
        (alter (with_subs (λ m, foldl add_filter m filters)) c s,
         Codes (map (λ tf, if filter_valid tf then Granted (tf_qos tf) else Failure) filters),
         nothing)
      else (s, Codes (map (λ _, Failure) filters), nothing)
  | Op_unsubscribe c id topics =>
      if connected_by s c id then
        (alter (with_subs (λ m, foldl (λ m f, delete f m) m topics)) c s, Done, nothing)
      else (s, Done, nothing)
  | Op_publish source p => (s, Done, mkOutcome None (message s source p))
  end.

Definition spec_run (s : PubSub) (ops : list Op) : PubSub * list Answer :=
  foldl (λ '(s, answers) op, let '(s, a, _) := spec_op s op in (s, answers ++ [a]))
    (s, []) ops.

(** What a channel is like after copies of [p] for subscriptions [qs], in any order,
    were sent to it. *)
Definition got_copies (p : PublishPacket) (qs : list QoS) (ch ch' : MqttChannel) : Prop :=
  (qs = [] → ch' = ch) ∧ ch_actor ch' = ch_actor ch ∧
  (ch_actor ch ≠ Exited → ∃ qs' ms, qs' ≡ₚ qs ∧ Forall2 (delivery p) qs' ms ∧
     ch_queue ch' = ch_queue ch ++ map Cmd_Publish ms).

(** What the outcome [o] of an operation in state [s] does to the channel of [id]. *)
Definition channel_after (s : PubSub) (o : Outcome) (id : Z) (ch ch' : MqttChannel) : Prop :=
  if bool_decide (oc_close o = Some id) then ch' = close ch
  else
    match oc_message o with
    | None => ch' = ch
    | Some (p, due) =>
        (∀ c cl, s !! c = Some cl → cs_conn cl = id → got_copies p (default [] (due !! c)) ch ch') ∧
        (map_Forall (λ _ cl, cs_conn cl ≠ id) s → ch' = ch)
    end.

(** ** The broker's operations and runs *)

Section implementation.
Context `{DashMapIter}.

Definition broker_op (w : World) (op : Op) : World * Answer :=
  match op with
  | Op_connect c id will clean =>
      let '(w, present) := register_session w c id will clean in (w, Session_present present)
  | Op_leave c id graceful => (unregister_session w c id graceful, Done)
  | Op_subscribe c id filters => let '(w, codes) := subscribe w c id filters in (w, Codes codes)
  | Op_unsubscribe c id topics => (unsubscribe w c id topics, Done)
  | Op_publish source p => (publish w source p, Done)
  end.

(** A connection registers its own channel, once. *)
Definition op_ready (w : World) (op : Op) : Prop :=
  match op with
  | Op_connect _ id _ _ =>
      is_Some (w_channels w !! id) ∧ map_Forall (λ _ e, se_channel e ≠ id) (w_sessions w)
  | _ => True
  end.

(** A run of the broker, with the operations called and what they answered; in
    between connections are accepted and the channels' own tasks run. *)
Inductive broker_run (b : Broker) : list (Op * Answer) → Z * World → Prop :=
  | br_start : broker_run b [] (1, world_new b)
  | br_accept tr n w rd wr la ra role n' ch :
      broker_run b tr (n, w) → n < u64_max → channel_new n rd wr la ra role = (n', ch) →
      broker_run b tr (n', set_channels w (<[ch_connection_id ch := ch]> (w_channels w)))
  | br_channel tr n w id ch l ch' :
      broker_run b tr (n, w) → w_channels w !! id = Some ch → channel_step l ch ch' →
      broker_run b tr (n, set_channels w (<[id := ch']> (w_channels w)))
  | br_op tr n w op :
      broker_run b tr (n, w) → op_ready w op →
      broker_run b (tr ++ [(op, (broker_op w op).2)]) (n, (broker_op w op).1).
End implementation.

(** ** The abstraction *)

(** The filters of one client, out of the tree. *)
Definition client_subs (subs : tree) (c : str) : gmap str QoS :=
  omap (λ set : gmap str QoS, set !! c) subs.

Definition abs_entry (subs : tree) (c : str) (e : SubscriberEntry) : Client :=
  mkClient (se_channel e) (se_will e) (client_subs subs c).

Definition abs (w : World) : PubSub :=
  map_imap (λ c e, Some (abs_entry (w_subs w) c e)) (w_sessions w).

Lemma lookup_client_subs subs c f : client_subs subs c !! f = sub_of subs f c.
Proof. unfold client_subs, sub_of. apply lookup_omap. Qed.

Lemma lookup_abs w c : abs w !! c = abs_entry (w_subs w) c <$> w_sessions w !! c.
Proof. unfold abs. rewrite map_lookup_imap. by destruct (w_sessions w !! c). Qed.

Lemma abs_broker w w' : w_broker w' = w_broker w → abs w' = abs w.
Proof. intros Hb. unfold abs, w_subs, w_sessions. by rewrite Hb. Qed.

Lemma client_subs_ext subs subs' c :
  (∀ f, sub_of subs' f c = sub_of subs f c) → client_subs subs' c = client_subs subs c.
Proof. intros Hs. apply map_eq. intros f. by rewrite !lookup_client_subs. Qed.

Lemma matching_qos_client subs topic c :
  matching_qos (client_subs subs c) topic ≡ₚ client_filters subs topic c.
Proof.
  unfold matching_qos, client_subs, client_filters.
  induction subs as [|f set m Hf IH] using map_ind.
  { by rewrite omap_empty, !map_to_list_empty. }
  rewrite (map_to_list_insert m) by done. cbn.
  assert (omap (λ set : gmap str QoS, set !! c) m !! f = None) as Hn
    by (rewrite lookup_omap, Hf; done).
  destruct (set !! c) as [q|] eqn:E.
  - rewrite (omap_insert_Some _ _ _ _ q) by done. rewrite map_to_list_insert by done.
    rewrite filter_cons. cbn. case_decide as Hm.
    + rewrite Hm. cbn. by rewrite IH.
    + by destruct (filter_matches f (split slash topic)).
  - rewrite omap_insert_None, delete_id by done.
    rewrite IH. by destruct (filter_matches f (split slash topic)).
Qed.

Lemma connected_by_abs w c id :
  connected_by (abs w) c id = bool_decide (is_Some (owned_entry w c id)).
Proof.
  unfold connected_by, owned_entry. rewrite lookup_abs.
  destruct (w_sessions w !! c) as [e|]; [|done]. cbn. by destruct (se_channel e =? id).
Qed.

(** Taking a client out. *)
Lemma abs_delete w c t :
  (∀ f c', c' ≠ c → sub_of t f c' = sub_of (w_subs w) f c') →
  abs (set_subs (set_sessions w (delete c (w_sessions w))) t) = delete c (abs w).
Proof.
  intros Ht. apply map_eq. intros c'. rewrite lookup_abs. cbn.
  destruct (decide (c = c')) as [<-|Hne]; [by rewrite !lookup_delete_eq|].
  rewrite !lookup_delete_ne, lookup_abs by done. unfold abs_entry.
  rewrite (client_subs_ext (w_subs w)); [done|]. intros f. by apply Ht.
Qed.

(** Changing the subscriptions of a client. *)
Lemma abs_alter w c g h t :
  (∀ e, se_channel (h e) = se_channel e ∧ se_will (h e) = se_will e) →
  (∀ f c', c' ≠ c → sub_of t f c' = sub_of (w_subs w) f c') →
  client_subs t c = g (client_subs (w_subs w) c) →
  abs (set_subs (set_sessions w (alter h c (w_sessions w))) t) =
    alter (with_subs g) c (abs w).
Proof.
  intros Hh Hne Hc. apply map_eq. intros c'. rewrite lookup_abs. cbn.
  destruct (decide (c = c')) as [<-|Hx].
  - rewrite !lookup_alter_eq, lookup_abs. destruct (w_sessions w !! c) as [e|]; [|done].
    cbn. unfold abs_entry, with_subs. cbn. destruct (Hh e) as [-> ->]. by rewrite Hc.
  - rewrite !lookup_alter_ne, lookup_abs by done. unfold abs_entry.
    rewrite (client_subs_ext (w_subs w)); [done|]. intros f. by apply Hne.
Qed.

Lemma alter_compose_same {V} (g h : V → V) (c : str) (m : gmap str V) :
  alter g c (alter h c m) = alter (λ x, g (h x)) c m.
Proof.
  apply map_eq. intros c'. destruct (decide (c = c')) as [<-|].
  - rewrite !lookup_alter_eq. by destruct (m !! c).
  - by rewrite !lookup_alter_ne.
Qed.

Lemma alter_id_same {V} (c : str) (g : V → V) (m : gmap str V) : (∀ x, g x = x) → alter g c m = m.
Proof.
  intros Hg. apply map_eq. intros c'. destruct (decide (c = c')) as [<-|].
  - rewrite lookup_alter_eq. destruct (m !! c); cbn; by rewrite ?Hg.
  - by rewrite lookup_alter_ne.
Qed.

Lemma abs_subscribe_step c acc tf :
  abs (subscribe_step c acc tf).1 = alter (with_subs (λ m, add_filter m tf)) c (abs acc.1).
Proof.
  destruct acc as [w codes]. unfold subscribe_step, add_filter, filter_valid.
  destruct (validate_subscribe_filter (tf_filter tf)) as [[]| | |]; cbn [fst is_ok];
    [|by rewrite alter_id_same by (by intros [])..].
  apply abs_alter; [done | |].
  - intros f c' Hc. rewrite sub_of_subscribe, decide_False by (intros [? ?]; congruence). done.
  - apply map_eq. intros f. rewrite lookup_client_subs, sub_of_subscribe.
    destruct (decide (tf_filter tf = f)) as [<-|Hne].
    + by rewrite decide_True, lookup_insert_eq by done.
    + rewrite decide_False, lookup_insert_ne by (done || intros [? ?]; congruence).
      by rewrite lookup_client_subs.
Qed.

Lemma abs_subscribe_loop c filters acc :
  abs (foldl (subscribe_step c) acc filters).1 =
    alter (with_subs (λ m, foldl add_filter m filters)) c (abs acc.1).
Proof.
  revert acc. induction filters as [|tf l IH]; intros acc; cbn [foldl].
  { by rewrite alter_id_same by (by intros []). }
  by rewrite IH, abs_subscribe_step, alter_compose_same.
Qed.

Lemma abs_unsubscribe_loop c topics w :
  abs (foldl (unsubscribe_step c) w topics) =
    alter (with_subs (λ m, foldl (λ m f, delete f m) m topics)) c (abs w).
Proof.
  revert w. induction topics as [|t l IH]; intros w; cbn [foldl].
  { by rewrite alter_id_same by (by intros []). }
  rewrite IH. unfold unsubscribe_step.
  rewrite (abs_alter w c (λ m, delete t m)); [by rewrite alter_compose_same | done | |].
  - intros f c' Hc. rewrite sub_of_unsubscribe, decide_False by (intros [? ?]; congruence). done.
  - apply map_eq. intros f. rewrite lookup_client_subs, sub_of_unsubscribe.
    destruct (decide (t = f)) as [<-|Hne].
    + by rewrite decide_True, lookup_delete_eq by done.
    + rewrite decide_False, lookup_delete_ne by (done || intros [? ?]; congruence).
      by rewrite lookup_client_subs.
Qed.

(** ** One message *)

Section messages.
Context `{DashMapIter}.

Lemma fanout_all_received p qs qs0 ch :
  qs ≡ₚ qs0 → got_copies p qs0 ch (foldl (λ ch q, fanout_to p q ch) ch qs).
Proof.
  intros Hqs. split_and!; [|apply fanout_all_actor|].
  - intros ->. by apply Permutation_nil_r in Hqs as ->.
  - intros Ha. destruct (fanout_all_queue p qs ch Ha) as (ms & Hms & Hq). by exists qs, ms.
Qed.

(** [w0] is the state the operation found; [w] has maybe lost a session since. *)
Lemma message_after w0 w src p id ch :
  broker_inv w0 → w_sessions w ⊆ w_sessions w0 → w_channels w !! id = Some ch →
  ∃ ch', w_channels (publish w src p) !! id = Some ch' ∧
    (∀ c cl, abs w0 !! c = Some cl → cs_conn cl = id →
       got_copies p (default [] (audience (abs w) src p !! c)) ch ch') ∧
    (map_Forall (λ _ cl, cs_conn cl ≠ id) (abs w0) → ch' = ch).
Proof.
  intros Hinv Hsub Hch.
  assert (∀ c1 c2 e1 e2, w_sessions w !! c1 = Some e1 → w_sessions w0 !! c2 = Some e2 →
    se_channel e1 = se_channel e2 → c1 = c2) as Hd.
  { intros c1 c2 e1 e2 H1 H2. eapply (inv_distinct _ Hinv); [by eapply lookup_weaken | done]. }
  assert ((∀ c e, w_sessions w !! c = Some e → se_channel e = id → c = src) →
    w_channels (publish w src p) !! id = Some ch) as Hframe.
  { intros Hid. rewrite publish_frame; [done|]. intros c e f q He Hc Hne.
    by destruct Hne; eapply Hid. }
  destruct (decide (map_Exists (λ c e, se_channel e = id ∧ c ≠ src) (w_sessions w)))
    as [(c & e & He & <- & Hc)|Hno].
  - eexists. split; [apply fanout_loop_channel; eauto using lookup_weaken|]. split.
    + intros c' cl. rewrite lookup_abs. destruct (w_sessions w0 !! c') as [e'|] eqn:He'; [|done].
      intros [= <-]. cbn. intros Hid. destruct (Hd c c' e e' He He' (eq_sym Hid)).
      apply fanout_all_received. unfold audience.
      rewrite lookup_fmap, lookup_delete_ne, lookup_abs, He by done. cbn.
      rewrite matching_qos_client. apply client_matching_perm.
    + intros Hno. destruct (Hno c (abs_entry (w_subs w0) c e)); [|done].
      rewrite lookup_abs. by erewrite lookup_weaken.
  - assert (∀ c e, w_sessions w !! c = Some e → se_channel e = id → c = src) as Hsrc.
    { intros c e He Hid. destruct (decide (c = src)); [done|]. destruct Hno. by exists c, e. }
    exists ch. split_and!; [by apply Hframe | |done].
    intros c cl Hcl Hid. replace (audience (abs w) src p !! c) with (@None (list QoS)); [by split_and!; [..|exists [], []; rewrite app_nil_r]|].
    symmetry. unfold audience. rewrite lookup_fmap. destruct (decide (src = c)) as [->|Hne];
      [by rewrite lookup_delete_eq|].
    rewrite lookup_delete_ne, lookup_abs by done. destruct (w_sessions w !! c) as [e|] eqn:He; [|done].
    rewrite lookup_abs in Hcl. erewrite lookup_weaken in Hcl; [|done..].
    injection Hcl as <-. by destruct Hne; symmetry; eapply Hsrc.
Qed.

Lemma publish_after w src p id ch :
  broker_inv w → w_channels w !! id = Some ch →
  ∃ ch', w_channels (publish w src p) !! id = Some ch' ∧
    channel_after (abs w) (mkOutcome None (message (abs w) src p)) id ch ch'.
Proof.
  intros Hinv Hch. destruct (message_after w w src p id ch) as (ch' & H1 & H2); [done..|].
  exists ch'. split; [done|]. unfold channel_after. by rewrite bool_decide_false.
Qed.

Lemma will_after w0 w will id ch :
  broker_inv w0 → w_sessions w ⊆ w_sessions w0 → w_channels w !! id = Some ch →
  ∃ ch', w_channels (publish_will w will) !! id = Some ch' ∧
    channel_after (abs w0) (mkOutcome None (will_message (abs w) will)) id ch ch'.
Proof.
  intros Hinv Hsub Hch. unfold channel_after. rewrite bool_decide_false by done.
  destruct will as [will|]; [|by exists ch].
  by apply message_after.
Qed.

(** ** The operations *)

#[local] Arguments register_session : simpl never.

(** Every channel, and the table, after an operation. *)
Definition simulates (w w' : World) (s' : PubSub) (o : Outcome) : Prop :=
  abs w' = s' ∧
  ∀ id ch, w_channels w !! id = Some ch →
    ∃ ch', w_channels w' !! id = Some ch' ∧ channel_after (abs w) o id ch ch'.

Lemma simulates_nothing w w' s' :
  w_channels w' = w_channels w → abs w' = s' → simulates w w' s' nothing.
Proof. intros Hch Hs. split; [done|]. intros id ch. rewrite Hch. by exists ch. Qed.

Lemma simulates_leave w c e graceful :
  broker_inv w → w_sessions w !! c = Some e →
  simulates w (unregister_session w c (se_channel e) graceful) (delete c (abs w))
    (mkOutcome None (if graceful then None else will_message (delete c (abs w)) (se_will e))).
Proof.
  intros Hinv He. rewrite unregister_owned by done. cbn. set (w1 := set_subs _ _).
  assert (abs w1 = delete c (abs w)) as Hw1.
  { apply abs_delete. intros f c' Hc. by rewrite sub_of_remove_client, decide_False. }
  destruct graceful.
  { split; [done|]. intros id ch Hch. by exists ch. }
  rewrite <- Hw1. split; [apply abs_broker, publish_will_broker|].
  intros id ch Hch. apply will_after; [done | apply delete_subseteq | done].
Qed.

Lemma abs_register w c id will clean :
  abs (register_session w c id will clean).1 =
    <[c := mkClient id will (if clean then ∅ else client_subs (w_subs w) c)]> (abs w).
Proof.
  apply map_eq. intros c'. rewrite lookup_abs, register_sessions.
  destruct (decide (c = c')) as [<-|Hne].
  - rewrite !lookup_insert_eq. unfold abs_entry.
    cbn [fmap option_fmap option_map se_channel se_will]. do 2 f_equal.
    apply map_eq. intros f. rewrite lookup_client_subs, register_sub_of.
    rewrite bool_decide_true, andb_true_r by done.
    destruct clean; [by rewrite lookup_empty | by rewrite lookup_client_subs].
  - rewrite !lookup_insert_ne, lookup_abs by done. unfold abs_entry.
    rewrite (client_subs_ext (w_subs w)); [done|]. intros f.
    by rewrite register_sub_of, bool_decide_false, andb_false_r by done.
Qed.

Lemma register_channels_new w c id will clean :
  w_sessions w !! c = None →
  w_channels (register_session w c id will clean).1 = w_channels w.
Proof.
  intros Hc. unfold register_session, register_takeover. cbn. rewrite Hc. by destruct clean.
Qed.

Lemma register_channels_takeover w c e id will clean :
  w_sessions w !! c = Some e →
  w_channels (register_session w c id will clean).1 =
    w_channels (publish_will
      (close_channel (set_sessions w (delete c (w_sessions w))) (se_channel e)) (se_will e)).
Proof.
  intros Hc. unfold register_session, register_takeover. cbn. rewrite Hc. by destruct clean.
Qed.

Lemma unowned_subs_none w c :
  broker_inv w → w_sessions w !! c = None → client_subs (w_subs w) c = ∅.
Proof.
  intros Hinv Hc. apply map_empty. intros f. rewrite lookup_client_subs.
  destruct (sub_of (w_subs w) f c) as [q|] eqn:E; [|done].
  destruct (inv_subscriber _ Hinv f c q E). congruence.
Qed.

Lemma simulates_connect w c id will clean :
  broker_inv w →
  let '(s', _, o) := spec_op (abs w) (Op_connect c id will clean) in
  simulates w (register_session w c id will clean).1 s' o.
Proof.
  intros Hinv. cbn. rewrite lookup_abs. split.
  { rewrite abs_register. do 2 f_equal. destruct clean; [done|].
    destruct (w_sessions w !! c) eqn:Hc; [done|]. by apply unowned_subs_none. }
  intros id' ch Hch. destruct (w_sessions w !! c) as [e|] eqn:Hc; cbn.
  2:{ rewrite register_channels_new by done. by exists ch. }
  rewrite (register_channels_takeover w c e) by done.
  set (w1 := close_channel _ _).
  assert (abs w1 = delete c (abs w)) as Hw1 by by apply (abs_delete w c (w_subs w)).
  assert (w_sessions w1 ⊆ w_sessions w) as Hsub by apply delete_subseteq.
  unfold channel_after. cbn [oc_close oc_message]. case_bool_decide as Hid.
  - injection Hid as <-. exists (close ch). split; [|done].
    assert (w_channels w1 !! se_channel e = Some (close ch)) as Hcl.
    { unfold w1. cbn. by rewrite lookup_alter_eq, Hch. }
    destruct (se_will e) as [wm|]; [|done]. cbn.
    rewrite publish_frame; [done|]. change (w_sessions w1) with (delete c (w_sessions w)).
    intros c' e' f q [Hne He']%lookup_delete_Some Heq.
    by destruct Hne; eapply (inv_distinct w Hinv).
  - assert (w_channels w1 !! id' = Some ch) as Hcl.
    { unfold w1. cbn. rewrite lookup_alter_ne by congruence. done. }
    destruct (will_after w w1 (se_will e) id' ch Hinv Hsub Hcl) as (ch' & ? & Ha).
    exists ch'. split; [done|]. unfold channel_after in Ha.
    by rewrite bool_decide_false, Hw1 in Ha.
Qed.

Lemma op_simulates w op :
  broker_inv w →
  let '(s', a, o) := spec_op (abs w) op in
  (broker_op w op).2 = a ∧ simulates w (broker_op w op).1 s' o.
Proof.
  intros Hinv. destruct op as [c id will clean|c id g|c id fs|c id ts|src p].
  - pose proof (simulates_connect w c id will clean Hinv) as Hs.
    assert ((register_session w c id will clean).2 =
      negb clean && bool_decide (is_Some (w_sessions w !! c))) as Hp by reflexivity.
    cbn in *. destruct (register_session w c id will clean) as [w' present]. cbn in *.
    split; [|done]. rewrite lookup_abs, Hp. by destruct (w_sessions w !! c).
  - cbn. rewrite connected_by_abs. case_bool_decide as Ho.
    + destruct Ho as [e Ho]. apply owned_entry_Some in Ho as [He <-].
      rewrite lookup_abs, He. split; [done|]. by apply simulates_leave.
    + split; [done|]. apply eq_None_not_Some in Ho. rewrite unregister_stale by done.
      by apply simulates_nothing.
  - cbn. rewrite connected_by_abs. unfold subscribe.
    destruct (owned_entry w c id) as [e|] eqn:Ho; cbn; [|split; [done | by apply simulates_nothing]].
    pose proof (subscribe_channels w c id fs) as Hch.
    pose proof (abs_subscribe_loop c fs (w, [])) as Ha.
    unfold subscribe in Hch. rewrite Ho in Hch.
    destruct (foldl (subscribe_step c) (w, []) fs) as [w' codes] eqn:E.
    split; [|by apply simulates_nothing]. cbn. f_equal.
    by apply subscribe_loop_spec in E as [-> _].
  - cbn. rewrite connected_by_abs. unfold unsubscribe.
    pose proof (unsubscribe_channels w c id ts) as Hch. unfold unsubscribe in Hch.
    destruct (owned_entry w c id) as [e|] eqn:Ho; cbn; (split; [done|]);
      apply simulates_nothing; [done | apply abs_unsubscribe_loop | done | done].
  - split; [done|]. cbn. split; [apply abs_broker, publish_broker|].
    intros id ch Hch. by apply publish_after.
Qed.
End messages.

(** ** Runs *)

Section runs.
Context `{DashMapIter}.

Lemma broker_op_step n w op :
  op_ready w op → broker_step (n, w) (n, (broker_op w op).1).
Proof.
  destruct op as [c id will clean|c id g|c id fs|c id ts|src p]; cbn.
  - intros [? ?]. pose proof (step_register n w c id will clean) as Hs.
    cbn in Hs. by apply Hs.
  - intros _. apply step_unregister.
  - intros _. pose proof (step_subscribe n w c id fs) as Hs. by destruct (subscribe w c id fs).
  - intros _. apply step_unsubscribe.
  - intros _. apply step_publish.
Qed.

Lemma broker_run_steps b tr s : broker_run b tr s → rtc broker_step (1, world_new b) s.
Proof.
  induction 1; [done | eapply rtc_r; [done|]..].
  - by eapply step_accept.
  - by eapply step_channel.
  - by apply broker_op_step.
Qed.

Lemma broker_run_spec auth safety tr s :
  broker_run (broker_build auth safety) tr s →
  spec_run ∅ (map fst tr) = (abs s.2, map snd tr).
Proof.
  induction 1 as [|tr n w rd wr la ra role n' ch _ IH Hn Hnew|tr n w id ch l ch' _ IH Hch Hs|
    tr n w op Hr IH Hop]; [done | exact IH | exact IH |].
  apply broker_run_steps, reachable_inv in Hr as [Hinv _].
  unfold spec_run in *. rewrite !map_app, foldl_app, IH. cbn.
  pose proof (op_simulates w op Hinv) as Hsim.
  destruct (spec_op (abs w) op) as [[s' a] o]. destruct Hsim as [-> [-> _]]. done.
Qed.

(** C3: the broker implements publish/subscribe as one table of clients says it.  In
    every run, connections being accepted, written to and closed in between, the
    operations answered what the specification answers and left the table it gives,
    read off the session table and the subscription tree; and the next operation
    does to every channel what the specification has as its outcome: the connection
    it names is closed, each other client is sent exactly the copies it is due, and
    a channel of nobody's is left as it is. *)
Theorem broker_refines_pubsub auth safety tr n w op :
  broker_run (broker_build auth safety) tr (n, w) →
  spec_run ∅ (map fst tr) = (abs w, map snd tr) ∧
  let '(s', a, o) := spec_op (abs w) op in
  (broker_op w op).2 = a ∧ abs (broker_op w op).1 = s' ∧
  ∀ id ch, w_channels w !! id = Some ch →
    ∃ ch', w_channels (broker_op w op).1 !! id = Some ch' ∧
      channel_after (abs w) o id ch ch'.
Proof.
  intros Hr. split; [by apply (broker_run_spec auth safety tr (n, w))|].
  apply broker_run_steps, reachable_inv in Hr as [Hinv _].
  pose proof (op_simulates w op Hinv) as Hsim.
  by destruct (spec_op (abs w) op) as [[s' a] o], Hsim as [? [? ?]].
Qed.
End runs.

(** ** The two-connection broker of [Broker.v] *)

Definition demo_trace : list (Op * Answer) :=
  [(Op_connect (str_of "a") 1 (Some demo_will) true, Session_present false);
   (Op_connect (str_of "b") 2 None false, Session_present false);
   (Op_subscribe (str_of "b") 2 demo_filters,
    Codes [Granted AtMostOnce; Granted ExactlyOnce; Failure])].

Lemma demo_run : broker_run broker_accept_all demo_trace (3, demo).
Proof.
  apply (br_op _ (take 2 demo_trace) 3 demo_2 (Op_subscribe (str_of "b") 2 demo_filters)); [|done].
  apply (br_op _ (take 1 demo_trace) 3 demo_1 (Op_connect (str_of "b") 2 None false)).
  2:{ split; [by eexists|]. apply (bool_decide_eq_true_1 _). vm_compute. reflexivity. }
  apply (br_op _ [] 3 demo_0.2 (Op_connect (str_of "a") 1 (Some demo_will) true)).
  2:{ split; [by eexists|]. apply (bool_decide_eq_true_1 _). vm_compute. reflexivity. }
  apply (br_accept _ [] 2 (demo_connect (1, world_new broker_accept_all)).2
    (mkReader [] []) (mkWriter [] None) None None Role_Server); [|vm_compute; reflexivity..].
  apply (br_accept _ [] 1 (world_new broker_accept_all)
    (mkReader [] []) (mkWriter [] None) None None Role_Server); [|vm_compute; reflexivity..].
  constructor.
Qed.

Lemma broker_refines_pubsub_witness :
  spec_run ∅ (map fst demo_trace) = (abs demo, map snd demo_trace) ∧
  ∃ ch', w_channels (publish demo (str_of "a") demo_publish) !! 2 = Some ch' ∧
    channel_after (abs demo) (mkOutcome None (message (abs demo) (str_of "a") demo_publish)) 2
      (demo_ch 2) ch'.
Proof.
  destruct (broker_refines_pubsub AcceptAllAuthenticator safety_new demo_trace 3 demo
    (Op_publish (str_of "a") demo_publish) demo_run) as (H1 & _ & _ & H2).
  split; [exact H1|]. apply H2. reflexivity.
Defined.

(** What [b] is due for it: a copy for [t/+] and one for [#]. *)
Example demo_audience :
  audience (abs demo) (str_of "a") demo_publish !! str_of "b" ≫= (λ qs, Some (length qs)) =
    Some 2%nat.
Proof. vm_compute. reflexivity. Qed.
