(* ===== verification/Interleaving.v ===== *)
(** The broker's methods under concurrency: [src/src/broker.rs] at the grain of its
    table operations.

    The methods of [Broker] run on many tasks at once, and each is several
    operations on shared [DashMap]s; [Broker.v] takes every method as one step.
    Here a call is a list of actions, and the actions of all running calls
    interleave in any order.  Two things order them.  [subscribe] and
    [unsubscribe] hold a guard on the session entry they looked up, so nobody
    inserts or removes an entry of that client while one runs.  An iteration over
    a [DashMap] visits every entry that is there throughout: [remove_client] meets
    the filters present when it starts, and maybe others, and [matching] looks at
    one filter after the other, each as it is by then.

    The theorems say that a call that is not interrupted does what [Broker.v] says,
    which part of the invariant survives every interleaving, that running calls
    finish, and how a teardown can take the subscriptions of the session that
    replaced its own. *)

From S2P Require Import Prelude.
From S2P Require Import Types.
From S2P Require Import Safety.
From S2P Require Import Wire.
From S2P Require Import Topic.
From S2P Require Import Session.
From S2P Require Import Channel.
From S2P Require Import Subscriptions.
From S2P Require Import Broker.

(** ** Actions *)

Inductive Action :=
  | Do_close (id : Z)                                   (* [prev.channel.close()] *)
  | Do_publish (source : str) (p : PublishPacket)       (* [matching] begins *)
  | Do_collect (source : str) (p : PublishPacket) (fs : list str)
      (results : list (str * QoS))                      (* its filters left, and [results] *)
  | Do_fanout (source : str) (p : PublishPacket) (sub : str * QoS)  (* a turn of its loop *)
  | Do_remove_client (c : str)                          (* [remove_client] begins *)
  | Do_remove (c f : str)                               (* one entry of it *)
  | Do_insert (c : str) (e : SubscriberEntry)           (* [sessions.insert] *)
  | Do_subscribe (c : str) (id : Z) (tf : TopicFilter)  (* a turn, under the guard *)
  | Do_unsubscribe (c : str) (id : Z) (topic : str).

(** The guard a pending action holds: on the entry of a client, as seen by a
    connection. *)
Definition guard_of (a : Action) : option (str * Z) :=
  match a with
  | Do_subscribe c id _ | Do_unsubscribe c id _ => Some (c, id)
  | _ => None
  end.

(** No running call holds the entry of [c]. *)
Definition unguarded (acts : list Action) (c : str) : Prop :=
  ∀ a id, a ∈ acts → guard_of a ≠ Some (c, id).

(** The connection a pending action is going to register. *)
Definition registers (a : Action) : option Z :=
  match a with Do_insert _ e => Some (se_channel e) | _ => None end.

(** [publish_will]. *)
Definition will_actions (will : option WillMessage) : list Action :=
  match will with Some will => [Do_publish [] (will_packet will)] | None => [] end.

(** What [register_session] does after [sessions.remove] returned [existing]. *)
Definition register_rest (existing : option SubscriberEntry) (c : str) (id : Z)
    (will : option WillMessage) (clean : bool) : list Action :=
  match existing with
  | Some prev => Do_close (se_channel prev) :: will_actions (se_will prev)
  | None => []
  end ++
  (if clean then [Do_remove_client c] else []) ++ [Do_insert c (mkEntry id ∅ will clean)].

(** What [unregister_session] does after [remove_if] returned [taken]. *)
Definition unregister_rest (taken : option SubscriberEntry) (c : str) (graceful : bool) :
    list Action :=
  match taken with
  | Some e => Do_remove_client c :: (if negb graceful then will_actions (se_will e) else [])
  | None => []
  end.

Section steps.
Context `{DashMapIter}.

(** What the turn of [matching] at filter [f] pushes. *)
Definition collect_turn (subs : tree) (topic f : str) : list (str * QoS) :=
  match subs !! f with
  | Some set => if filter_matches f (split slash topic) then dm_iter set else []
  | None => []
  end.

(** One action, and what the call goes on with; [others] are the pending actions
    of the other calls. *)
Inductive act (others : list Action) (w : World) : Action → World → list Action → Prop :=
  | act_close id : act others w (Do_close id) (close_channel w id) []
  | act_publish src p fs :
      NoDup fs → (∀ f, is_Some (w_subs w !! f) → f ∈ fs) →
      act others w (Do_publish src p) w [Do_collect src p fs []]
  | act_collect src p f fs results :
      act others w (Do_collect src p (f :: fs) results) w
        [Do_collect src p fs (results ++ collect_turn (w_subs w) (pub_topic p) f)]
  | act_collected src p results :
      act others w (Do_collect src p [] results) w (map (Do_fanout src p) results)
  | act_fanout src p sub : act others w (Do_fanout src p sub) (publish_step src p w sub) []
  | act_remove_client c fs :
      (∀ f, is_Some (w_subs w !! f) → f ∈ fs) →
      act others w (Do_remove_client c) w (map (Do_remove c) fs)
  | act_remove c f :
      act others w (Do_remove c f) (set_subs w (tree_unsubscribe (w_subs w) c f)) []
  | act_insert c e :
      unguarded others c →
      act others w (Do_insert c e) (set_sessions w (<[c := e]> (w_sessions w))) []
  | act_subscribe c id tf :
      act others w (Do_subscribe c id tf) (subscribe_step c (w, []) tf).1 []
  | act_unsubscribe c id topic :
      act others w (Do_unsubscribe c id topic) (unsubscribe_step c w topic) [].

(** The broker with its running calls: the connection counter, the world and the
    rest of each call. *)
Record Calls := mkCalls { cl_next : Z; cl_world : World; cl_running : list (list Action) }.

(** A running call goes on, or returns. *)
Inductive call_step : Calls → Calls → Prop :=
  | call_act n w ts1 a rest ts2 w' more :
      act (rest ++ concat (ts1 ++ ts2)) w a w' more →
      call_step (mkCalls n w (ts1 ++ (a :: rest) :: ts2))
        (mkCalls n w' (ts1 ++ (more ++ rest) :: ts2))
  | call_return n w ts1 ts2 :
      call_step (mkCalls n w (ts1 ++ [] :: ts2)) (mkCalls n w (ts1 ++ ts2)).

Inductive micro_step : Calls → Calls → Prop :=
  | micro_accept n w ts rd wr la ra role n' ch :
      n < u64_max → channel_new n rd wr la ra role = (n', ch) →
      micro_step (mkCalls n w ts)
        (mkCalls n' (set_channels w (<[ch_connection_id ch := ch]> (w_channels w))) ts)
  | micro_channel n w ts id ch l ch' :
      w_channels w !! id = Some ch → channel_step l ch ch' →
      micro_step (mkCalls n w ts) (mkCalls n (set_channels w (<[id := ch']> (w_channels w))) ts)
  | micro_register n w ts c id will clean :
      is_Some (w_channels w !! id) →
      map_Forall (λ _ e, se_channel e ≠ id) (w_sessions w) →
      (∀ a, a ∈ concat ts → registers a ≠ Some id) → unguarded (concat ts) c →
      micro_step (mkCalls n w ts)
        (mkCalls n (set_sessions w (delete c (w_sessions w)))
           (register_rest (w_sessions w !! c) c id will clean :: ts))
  | micro_unregister n w ts c id graceful :
      unguarded (concat ts) c →
      micro_step (mkCalls n w ts)
        (mkCalls n (take_session w c id).1
           (unregister_rest (take_session w c id).2 c graceful :: ts))
  | micro_subscribe n w ts c id filters :
      is_Some (owned_entry w c id) →
      micro_step (mkCalls n w ts) (mkCalls n w (map (Do_subscribe c id) filters :: ts))
  | micro_unsubscribe n w ts c id topics :
      is_Some (owned_entry w c id) →
      micro_step (mkCalls n w ts) (mkCalls n w (map (Do_unsubscribe c id) topics :: ts))
  | micro_publish n w ts c p :
      micro_step (mkCalls n w ts) (mkCalls n w ([Do_publish c p] :: ts))
  | micro_call s s' : call_step s s' → micro_step s s'.
End steps.

(** ** What every interleaving keeps

    [acts] are all pending actions, in any order. *)

(** A subscription that has no session is on its way out, or its client is on its
    way back in. *)
Definition accounted (acts : list Action) (f c : str) : Prop :=
  (∃ e, Do_insert c e ∈ acts) ∨ Do_remove_client c ∈ acts ∨ Do_remove c f ∈ acts.

Record calls_inv (w : World) (acts : list Action) : Prop := {
  ci_subscriber f c q :
    sub_of (w_subs w) f c = Some q → is_Some (w_sessions w !! c) ∨ accounted acts f c;
  ci_valid f c q :
    sub_of (w_subs w) f c = Some q → validate_subscribe_filter f = Ok tt;
  ci_channel c e : w_sessions w !! c = Some e → is_Some (w_channels w !! se_channel e);
  ci_distinct c1 c2 e1 e2 :
    w_sessions w !! c1 = Some e1 → w_sessions w !! c2 = Some e2 →
    se_channel e1 = se_channel e2 → c1 = c2;
  ci_registers : NoDup (omap registers acts);
  ci_pending id c e :
    id ∈ omap registers acts →
    is_Some (w_channels w !! id) ∧ (w_sessions w !! c = Some e → se_channel e ≠ id);
  ci_guard a c id :
    a ∈ acts → guard_of a = Some (c, id) → is_Some (owned_entry w c id);
}.

#[global] Instance accounted_proper : Proper ((≡ₚ) ==> eq ==> eq ==> iff) accounted.
Proof. intros l1 l2 Hl f ? <- c ? <-. unfold accounted. by setoid_rewrite Hl. Qed.

#[global] Instance calls_inv_proper w : Proper ((≡ₚ) ==> iff) (calls_inv w).
Proof.
  assert (∀ l1 l2, l1 ≡ₚ l2 → calls_inv w l1 → calls_inv w l2) as Hgo.
  { intros l1 l2 Hl []. split; eauto; try by rewrite <- Hl.
    - intros f c q. rewrite <- Hl. eauto.
    - intros id c e. rewrite <- Hl. eauto.
    - intros a c id. rewrite <- Hl. eauto. }
  intros l1 l2 Hl. split; by apply Hgo.
Qed.

(** Changes that touch no table. *)
Lemma calls_inv_channels w w' acts :
  w_broker w' = w_broker w → same_ids w w' → calls_inv w acts → calls_inv w' acts.
Proof.
  intros Hb Hs []. unfold w_sessions, w_subs, owned_entry in *.
  split; unfold owned_entry, w_sessions, w_subs; rewrite ?Hb; eauto using same_ids_is_Some.
  intros id c e Hid. destruct (ci_pending0 id c e Hid). eauto using same_ids_is_Some.
Qed.

(** Actions may be forgotten that account for nothing. *)
Lemma calls_inv_weaken w acts acts' :
  (∀ f c, accounted acts f c → accounted acts' f c) →
  omap registers acts' = omap registers acts →
  (∀ a c id, a ∈ acts' → guard_of a = Some (c, id) → a ∈ acts ∨ is_Some (owned_entry w c id)) →
  calls_inv w acts → calls_inv w acts'.
Proof.
  intros Ha Hr Hg []. split; rewrite ?Hr; eauto.
  - intros f c q Hq. destruct (ci_subscriber0 _ _ _ Hq); eauto.
  - intros a c id Hin Hgu. destruct (Hg a c id Hin Hgu); eauto.
Qed.

Lemma omap_none {A B} (f : A → option B) l : (∀ a, a ∈ l → f a = None) → omap f l = [].
Proof.
  induction l as [|a l IH]; intros Hf; [done|]. cbn. rewrite (Hf a) by by left.
  apply IH. intros b Hb. apply Hf. by right.
Qed.

(** Actions of a new call that registers nothing and guards what it owns. *)
Lemma calls_inv_more w l acts :
  (∀ a, a ∈ l → registers a = None) →
  (∀ a c id, a ∈ l → guard_of a = Some (c, id) → is_Some (owned_entry w c id)) →
  calls_inv w acts → calls_inv w (l ++ acts).
Proof.
  intros Hr Hg. apply calls_inv_weaken.
  - unfold accounted. intros f c [(e & Hin)|[Hin|Hin]]; [left; exists e|right; left|right; right];
      apply elem_of_app; by right.
  - by rewrite omap_app, (omap_none _ l).
  - intros a c id [Hin|Hin]%elem_of_app; eauto.
Qed.

(** An action that is done and accounted for nothing. *)
Lemma calls_inv_done w a acts :
  (∀ c e, a ≠ Do_insert c e) → (∀ c, a ≠ Do_remove_client c) → (∀ c f, a ≠ Do_remove c f) →
  calls_inv w (a :: acts) → calls_inv w acts.
Proof.
  intros H1 H2 H3. apply calls_inv_weaken.
  - unfold accounted. intros f c. setoid_rewrite elem_of_cons.
    intros [(e & [Heq|Hin])|[[Heq|Hin]|[Heq|Hin]]]; eauto; symmetry in Heq;
      [by destruct (H1 c e) | by destruct (H2 c) | by destruct (H3 c f)].
  - destruct a; try done. by destruct (H1 c e).
  - intros b c id Hin _. left. by right.
Qed.

(** A change of one client's subscriptions and of its entry, without its channel. *)
Lemma calls_inv_client w c g t acts :
  (∀ e, se_channel (g e) = se_channel e) →
  (∀ f c', c' ≠ c → sub_of t f c' = sub_of (w_subs w) f c') →
  (∀ f q, sub_of t f c = Some q →
     validate_subscribe_filter f = Ok tt ∧
     (is_Some (w_sessions w !! c) ∨ is_Some (sub_of (w_subs w) f c))) →
  calls_inv w acts →
  calls_inv (set_subs (set_sessions w (alter g c (w_sessions w))) t) acts.
Proof.
  intros Hg Hne Hc [Hsub Hval Hch Hd Hr Hp Hgu].
  assert (∀ c' e', alter g c (w_sessions w) !! c' = Some e' →
    ∃ e, w_sessions w !! c' = Some e ∧ se_channel e' = se_channel e) as Halt.
  { intros c' e'. destruct (decide (c = c')) as [<-|].
    - rewrite lookup_alter_eq. destruct (w_sessions w !! c) as [e|]; [|done].
      intros [= <-]. eauto.
    - rewrite lookup_alter_ne by done. eauto. }
  assert (∀ c', is_Some (w_sessions w !! c') → is_Some (alter g c (w_sessions w) !! c')) as Hsome.
  { intros c'. destruct (decide (c = c')) as [<-|].
    - rewrite lookup_alter_eq. intros [e ->]. by eexists.
    - by rewrite lookup_alter_ne. }
  split; cbn.
  - intros f c' q Hq. destruct (decide (c' = c)) as [->|Hx].
    + destruct (Hc f q Hq) as [_ [Hs|[q' Hq']]]; [left; auto|].
      destruct (Hsub _ _ _ Hq') as [Hs|Ha]; [left; auto | by right].
    + rewrite Hne in Hq by done. destruct (Hsub _ _ _ Hq); [left; auto | by right].
  - intros f c' q Hq. destruct (decide (c' = c)) as [->|Hx]; [by eapply Hc|].
    rewrite Hne in Hq by done. by eapply Hval.
  - intros c' e' (e & He & ->)%Halt. by eapply Hch.
  - intros c1 c2 e1 e2 (e1' & H1 & ->)%Halt (e2' & H2 & ->)%Halt. by eapply Hd.
  - done.
  - intros id c' e' Hin. split; [by apply (Hp id c' e')|].
    intros (e & He & ->)%Halt. by apply (Hp id c' e Hin).
  - intros a c' id Hin Ha. destruct (Hgu a c' id Hin Ha) as [e Ho].
    apply owned_entry_Some in Ho as [He Hid]. unfold owned_entry. cbn.
    destruct (alter g c (w_sessions w) !! c') as [e'|] eqn:E.
    + destruct (Halt _ _ E) as (e0 & He0 & ->). simplify_eq. rewrite Z.eqb_refl. by eexists.
    + destruct (Hsome c') as [? ?]; [by eexists | congruence].
Qed.

Lemma alter_same {V} (m : gmap str V) c : alter (λ e, e) c m = m.
Proof.
  apply map_eq. intros i. destruct (decide (c = i)) as [<-|].
  - rewrite lookup_alter_eq. by destruct (m !! c).
  - by rewrite lookup_alter_ne.
Qed.

Section preservation.
Context `{DashMapIter}.

Lemma act_subscribe_inv w c id tf acts :
  calls_inv w (Do_subscribe c id tf :: acts) →
  calls_inv (subscribe_step c (w, []) tf).1 acts.
Proof.
  intros Hinv. pose proof (ci_guard _ _ Hinv _ c id ltac:(by left) eq_refl) as [e He].
  apply owned_entry_Some in He as [He _].
  apply calls_inv_done in Hinv; [|done..]. unfold subscribe_step.
  destruct (validate_subscribe_filter (tf_filter tf)) as [[]| | |] eqn:Hv; cbn; try done.
  apply (calls_inv_client w); [done | | |done].
  - intros f c' Hc. rewrite sub_of_subscribe, decide_False by (intros [? ?]; congruence). done.
  - intros f q. rewrite sub_of_subscribe. case_decide as Hx.
    + destruct Hx as [-> _]. intros _. split; [done|]. left. by eexists.
    + intros Hq. split; [by eapply ci_valid|]. right. by eexists.
Qed.

Lemma act_unsubscribe_inv w c id topic acts :
  calls_inv w (Do_unsubscribe c id topic :: acts) → calls_inv (unsubscribe_step c w topic) acts.
Proof.
  intros Hinv%calls_inv_done; [|done..]. unfold unsubscribe_step.
  apply (calls_inv_client w); [done | | |done].
  - intros f c' Hc. rewrite sub_of_unsubscribe, decide_False by (intros [? ?]; congruence). done.
  - intros f q. rewrite sub_of_unsubscribe. case_decide; [done|].
    intros Hq. split; [by eapply ci_valid|]. right. by eexists.
Qed.

Lemma act_remove_inv w c f acts :
  calls_inv w (Do_remove c f :: acts) →
  calls_inv (set_subs w (tree_unsubscribe (w_subs w) c f)) acts.
Proof.
  intros [Hsub Hval Hch Hd Hr Hp Hgu]. split; cbn; try done.
  - intros f' c' q. rewrite sub_of_unsubscribe. case_decide as Hx; [done|]. intros Hq.
    destruct (Hsub _ _ _ Hq) as [?|Ha]; [by left|]. right. unfold accounted in *.
    setoid_rewrite elem_of_cons in Ha.
    destruct Ha as [(e & [Heq|Hin])|[[Heq|Hin]|[Heq|Hin]]]; eauto; simplify_eq. by destruct Hx.
  - intros f' c' q. rewrite sub_of_unsubscribe. case_decide; [done|]. apply Hval.
  - intros a c' id Hin. apply Hgu. by right.
Qed.

Lemma act_remove_client_inv w c fs acts :
  (∀ f, is_Some (w_subs w !! f) → f ∈ fs) →
  calls_inv w (Do_remove_client c :: acts) → calls_inv w (map (Do_remove c) fs ++ acts).
Proof.
  intros Hfs [Hsub Hval Hch Hd Hr Hp Hgu].
  assert (omap registers (map (Do_remove c) fs ++ acts) = omap registers acts) as Hom.
  { rewrite omap_app, (omap_none _ (map _ _)); [done|]. by intros a (f & -> & _)%list_elem_of_fmap. }
  split; rewrite ?Hom; try done.
  - intros f c' q Hq. destruct (Hsub _ _ _ Hq) as [?|Ha]; [by left|]. right.
    unfold accounted in *. setoid_rewrite elem_of_cons in Ha. setoid_rewrite elem_of_app.
    destruct Ha as [(e & [Heq|Hin])|[[Heq|Hin]|[Heq|Hin]]]; simplify_eq; eauto 6.
    right; right; left. apply list_elem_of_fmap_2, Hfs. unfold sub_of in Hq.
    by destruct (w_subs w !! f).
  - intros a c' id [(f & -> & _)%list_elem_of_fmap|Hin]%elem_of_app; [done|]. apply Hgu. by right.
Qed.

Lemma act_insert_inv w c e acts :
  unguarded acts c → calls_inv w (Do_insert c e :: acts) →
  calls_inv (set_sessions w (<[c := e]> (w_sessions w))) acts.
Proof.
  intros Hun [Hsub Hval Hch Hd Hr Hp Hgu]. cbn in Hr, Hp. apply NoDup_cons in Hr as [Hnot Hr].
  assert (∀ c' e', w_sessions w !! c' = Some e' → se_channel e' ≠ se_channel e) as Hfresh.
  { intros c' e' He'. by apply (Hp (se_channel e) c' e'); [left|]. }
  split; cbn; try done.
  - intros f c' q Hq. destruct (decide (c = c')) as [<-|Hne].
    { left. by rewrite lookup_insert_eq. }
    rewrite lookup_insert_ne by done. destruct (Hsub _ _ _ Hq) as [?|Ha]; [by left|]. right.
    unfold accounted in *. setoid_rewrite elem_of_cons in Ha.
    destruct Ha as [(e' & [Heq|Hin])|[[Heq|Hin]|[Heq|Hin]]]; eauto; by simplify_eq.
  - intros c' e'. rewrite lookup_insert_Some. intros [[_ <-]|[_ He']]; [|by eapply Hch].
    by apply (Hp (se_channel e) c e); left.
  - intros c1 c2 e1 e2. rewrite !lookup_insert_Some.
    intros [[<- <-]|[Hn1 H1]] [[<- <-]|[Hn2 H2]] Heq; [done | | |by eapply Hd].
    + by destruct (Hfresh c2 e2 H2).
    + by destruct (Hfresh c1 e1 H1).
  - intros id c' e' Hid. split; [apply (Hp id c' e'); by right|].
    rewrite lookup_insert_Some. intros [[_ <-]|[_ He']].
    + intros <-. done.
    + by apply (Hp id c' e'); [right|].
  - intros a c' id Hin Ha. destruct (Hgu a c' id) as [e' He']; [by right | done|].
    unfold owned_entry in *. cbn. rewrite lookup_insert_ne; [by eexists|].
    intros <-. by destruct (Hun a id Hin).
Qed.

Lemma act_inv others w a w' more :
  act others w a w' more → calls_inv w (a :: others) → calls_inv w' (more ++ others).
Proof.
  destruct 1 as [id|src p fs Hnd Hfs|src p f fs res|src p res|src p sub|c fs Hfs|c f|c e Hun|
    c id tf|c id topic]; cbn [app]; intros Hinv.
  - apply calls_inv_done in Hinv; [|done..].
    by apply (calls_inv_channels w); [|apply same_ids_close|].
  - apply calls_inv_done in Hinv; [|done..].
    apply (calls_inv_more w [_]); [| |done];
      by intros a *; rewrite list_elem_of_singleton; intros ->.
  - apply calls_inv_done in Hinv; [|done..].
    apply (calls_inv_more w [_]); [| |done];
      by intros a *; rewrite list_elem_of_singleton; intros ->.
  - apply calls_inv_done in Hinv; [|done..].
    apply calls_inv_more; [| |done].
    + by intros a (sub & -> & _)%list_elem_of_fmap.
    + by intros a c id (sub & -> & _)%list_elem_of_fmap.
  - apply calls_inv_done in Hinv; [|done..].
    by apply (calls_inv_channels w);
      [apply publish_step_broker | apply publish_step_same_ids |].
  - by apply act_remove_client_inv.
  - by apply act_remove_inv.
  - by apply act_insert_inv.
  - by eapply act_subscribe_inv.
  - by eapply act_unsubscribe_inv.
Qed.
End preservation.

(** ** Reachable states *)

Definition calls_ok (s : Calls) : Prop :=
  calls_inv (cl_world s) (concat (cl_running s)) ∧ ids_inv (cl_next s) (cl_world s).

Lemma concat_pick {A} (ts1 ts2 : list (list A)) a rest :
  concat (ts1 ++ (a :: rest) :: ts2) ≡ₚ a :: rest ++ concat (ts1 ++ ts2).
Proof.
  rewrite !concat_app. cbn [concat]. rewrite Permutation_app_swap_app. done.
Qed.

Lemma concat_middle {A} (ts1 ts2 : list (list A)) more rest :
  concat (ts1 ++ (more ++ rest) :: ts2) ≡ₚ more ++ rest ++ concat (ts1 ++ ts2).
Proof.
  rewrite !concat_app. cbn [concat]. by rewrite Permutation_app_swap_app, <- !app_assoc.
Qed.

Section reachable.
Context `{DashMapIter}.

Lemma calls_inv_accept w n ch acts :
  calls_inv w acts → calls_inv (set_channels w (<[n := ch]> (w_channels w))) acts.
Proof.
  intros [Hsub Hval Hch Hd Hr Hp Hgu].
  assert (∀ id, is_Some (w_channels w !! id) → is_Some (<[n := ch]> (w_channels w) !! id)) as Hi.
  { intros id Hid. apply lookup_insert_is_Some'. by right. }
  split; cbn; try done; [eauto|].
  intros id c e Hid. destruct (Hp id c e Hid). eauto.
Qed.

(** Taking the entry of [c] out, with what is left to do. *)
Lemma calls_inv_take w c rest acts :
  (∀ f, accounted rest f c) → unguarded acts c → NoDup (omap registers rest) →
  Forall (λ a, guard_of a = None) rest →
  (∀ id, id ∈ omap registers rest → is_Some (w_channels w !! id) ∧
     (id ∉ omap registers acts) ∧ map_Forall (λ _ e, se_channel e ≠ id) (w_sessions w)) →
  calls_inv w acts →
  calls_inv (set_sessions w (delete c (w_sessions w))) (rest ++ acts).
Proof.
  intros Hacc Hun Hnd Hng Hnew [Hsub Hval Hch Hd Hr Hp Hgu]. split; cbn; try done.
  - intros f c' q Hq. destruct (decide (c = c')) as [<-|Hne].
    + right. unfold accounted in *. setoid_rewrite elem_of_app. destruct (Hacc f) as [(e & ?)|[?|?]]; eauto 6.
    + rewrite lookup_delete_ne by done. destruct (Hsub _ _ _ Hq) as [?|Ha]; [by left|]. right.
      unfold accounted in *. setoid_rewrite elem_of_app. destruct Ha as [(e & ?)|[?|?]]; eauto 6.
  - intros c' e [_ He]%lookup_delete_Some. by eapply Hch.
  - intros c1 c2 e1 e2 [_ H1]%lookup_delete_Some [_ H2]%lookup_delete_Some. by eapply Hd.
  - rewrite omap_app. apply NoDup_app. split_and!; [done | |done].
    intros id Hid. by apply (Hnew id Hid).
  - intros id c' e. rewrite omap_app, elem_of_app. intros [Hid|Hid].
    + destruct (Hnew id Hid) as (? & _ & Hf). split; [done|].
      intros [_ He]%lookup_delete_Some. by apply (Hf c' e).
    + destruct (Hp id c' e Hid) as [? Hf]. split; [done|].
      intros [_ He]%lookup_delete_Some. by apply Hf.
  - intros a c' id [Hin|Hin]%elem_of_app Ha.
    { rewrite Forall_forall in Hng. by rewrite (Hng a Hin) in Ha. }
    destruct (Hgu a c' id Hin Ha) as [e He]. unfold owned_entry in *. cbn.
    rewrite lookup_delete_ne; [by eexists|]. intros <-. by destruct (Hun a id Hin).
Qed.

Lemma register_rest_registers prev c id will clean :
  omap registers (register_rest prev c id will clean) = [id].
Proof. destruct prev as [[ch fs [wm|] cl]|], clean; done. Qed.

Lemma register_rest_guard prev c id will clean :
  Forall (λ a, guard_of a = None) (register_rest prev c id will clean).
Proof. destruct prev as [[ch fs [wm|] cl]|], clean; repeat constructor. Qed.

Lemma register_rest_accounted prev c id will clean f :
  accounted (register_rest prev c id will clean) f c.
Proof.
  left. exists (mkEntry id ∅ will clean). unfold register_rest.
  rewrite !elem_of_app. right; right. by left.
Qed.

Lemma register_take_inv w c id will clean acts :
  is_Some (w_channels w !! id) → map_Forall (λ _ e, se_channel e ≠ id) (w_sessions w) →
  (∀ a, a ∈ acts → registers a ≠ Some id) → unguarded acts c → calls_inv w acts →
  calls_inv (set_sessions w (delete c (w_sessions w)))
    (register_rest (w_sessions w !! c) c id will clean ++ acts).
Proof.
  intros Hch Hfresh Hnew Hun Hinv.
  apply calls_inv_take; auto using register_rest_accounted, register_rest_guard.
  - rewrite register_rest_registers. apply NoDup_singleton.
  - intros id'. rewrite register_rest_registers, list_elem_of_singleton. intros ->.
    split_and!; [done | |done]. rewrite list_elem_of_omap. intros (a & Hin & Ha).
    by destruct (Hnew a Hin).
Qed.

Lemma unregister_take_inv w c id graceful acts :
  unguarded acts c → calls_inv w acts →
  calls_inv (take_session w c id).1 (unregister_rest (take_session w c id).2 c graceful ++ acts).
Proof.
  intros Hun Hinv. unfold take_session.
  destruct (w_sessions w !! c) as [e|]; [|done].
  destruct (se_channel e =? id); [|done]. cbn [fst snd].
  apply calls_inv_take; try done.
  - intros f. right; left. by left.
  - destruct e as [? ? [wm|] ?], graceful; constructor.
  - destruct e as [? ? [wm|] ?], graceful; repeat constructor.
  - destruct e as [? ? [wm|] ?], graceful; cbn; intros ?; by rewrite elem_of_nil.
Qed.

Lemma act_same_ids others w a w' more : act others w a w' more → same_ids w w'.
Proof.
  destruct 1 as [id| | | |src p sub| | | |c id tf|]; try done.
  - apply same_ids_close.
  - apply publish_step_same_ids.
  - intros id'. by rewrite subscribe_step_channels.
Qed.

Lemma call_step_inv s s' : call_step s s' → calls_ok s → calls_ok s'.
Proof.
  destruct 1 as [n w ts1 a rest ts2 w' more Ha|n w ts1 ts2];
    unfold calls_ok; cbn [cl_next cl_world cl_running]; intros [Hinv Hids].
  - split; [|by eapply same_ids_inv; [eapply act_same_ids|]].
    rewrite concat_pick in Hinv. rewrite concat_middle. by eapply act_inv.
  - by rewrite !concat_app in *.
Qed.

Lemma micro_step_inv s s' : micro_step s s' → calls_ok s → calls_ok s'.
Proof.
  destruct 1 as [n w ts rd wr la ra role n' ch Hn Hnew|n w ts id ch l ch' Hch Hs|
    n w ts c id will clean Hch Hfresh Hreg Hun|n w ts c id g Hun|n w ts c id fs Ho|
    n w ts c id tps Ho|n w ts c p|s s' Hs]; [..|by apply call_step_inv];
    unfold calls_ok; cbn [cl_next cl_world cl_running]; intros [Hinv Hids].
  - split; [by apply calls_inv_accept | by eapply ids_inv_accept].
  - assert (same_ids w (set_channels w (<[id := ch']> (w_channels w)))) as Hsame
      by (eapply same_ids_insert; eauto using channel_step_id).
    split; [by apply (calls_inv_channels w) | by eapply same_ids_inv].
  - split; [by apply register_take_inv | done].
  - split; [by apply unregister_take_inv|]. unfold take_session. by repeat case_match.
  - split; [|done]. apply calls_inv_more; [| |done].
    + by intros a (tf & -> & _)%list_elem_of_fmap.
    + intros a c' id' (tf & -> & _)%list_elem_of_fmap. by intros [= -> ->].
  - split; [|done]. apply calls_inv_more; [| |done].
    + by intros a (tp & -> & _)%list_elem_of_fmap.
    + intros a c' id' (tp & -> & _)%list_elem_of_fmap. by intros [= -> ->].
  - split; [|done]. apply (calls_inv_more w [Do_publish c p]); [| |done];
      by intros a *; rewrite list_elem_of_singleton; intros ->.
Qed.

Lemma interleaved_ok auth safety s :
  rtc micro_step (mkCalls 1 (world_new (broker_build auth safety)) []) s → calls_ok s.
Proof.
  apply (rtc_ind_r calls_ok); [|intros s1 s2 _; apply micro_step_inv].
  destruct (world_new_inv auth safety) as [[Hsub _ Hval Hch Hd] _]. split.
  - split; cbn; try done; [constructor | |]; intros *; by rewrite elem_of_nil.
  - split; cbn; [lia|]. intros id ch. by rewrite lookup_empty.
Qed.
End reachable.

(** ** A call that is not interrupted

    [others] are the pending actions of the calls that wait meanwhile. *)

Inductive runs `{DashMapIter} (others : list Action) : World → list Action → World → Prop :=
  | runs_nil w : runs others w [] w
  | runs_cons w a rest w' more w'' :
      act (rest ++ others) w a w' more → runs others w' (more ++ rest) w'' →
      runs others w (a :: rest) w''.

Section alone.
Context `{DashMapIter}.
Implicit Types others : list Action.

Lemma runs_micro n ts w l w' :
  runs (concat ts) w l w' → rtc micro_step (mkCalls n w (l :: ts)) (mkCalls n w' ts).
Proof.
  induction 1 as [w|w a rest w' more w'' Ha _ IH].
  - apply rtc_once. apply micro_call. apply (call_return n w [] ts).
  - eapply rtc_l; [|apply IH]. apply micro_call. by apply (call_act n w [] a rest ts).
Qed.

(** Calls that guard nothing and turns of a loop compose. *)
Lemma runs_app others w l1 w' l2 w'' :
  Forall (λ a, guard_of a = None) l2 → runs others w l1 w' → runs others w' l2 w'' →
  runs others w (l1 ++ l2) w''.
Proof.
  intros Hl2 H1 H2. induction H1 as [|w a rest w1 more w2 Ha _ IH]; [done|].
  cbn. eapply runs_cons; [|rewrite app_assoc; by apply IH].
  destruct Ha as [| | | | | | |c e Hun| |]; try by constructor. constructor.
  intros a id. rewrite <- app_assoc, !elem_of_app. intros [Hin|[Hin|Hin]].
  - apply Hun. rewrite elem_of_app. by left.
  - rewrite Forall_forall in Hl2. by rewrite (Hl2 a Hin).
  - apply Hun. rewrite elem_of_app. by right.
Qed.

Lemma runs_loop {X} (mk : X → Action) (f : World → X → World) others l w :
  (∀ rest w x, act rest w (mk x) (f w x) []) → runs others w (map mk l) (foldl f w l).
Proof.
  intros Hf. revert w. induction l as [|x l IH]; intros w; cbn; [constructor|].
  eapply runs_cons; [apply Hf | apply IH].
Qed.

Lemma runs_collect others w src p fs results :
  runs others w [Do_collect src p fs results]
    (foldl (publish_step src p) w
       (results ++ concat (map (collect_turn (w_subs w) (pub_topic p)) fs))).
Proof.
  revert results. induction fs as [|f fs IH]; intros results.
  - eapply runs_cons; [constructor|]. rewrite !app_nil_r. apply runs_loop. constructor.
  - eapply runs_cons; [constructor|]. cbn [map concat]. rewrite (assoc_L app). apply IH.
Qed.

(** Nobody in between, the turns gather what [matching] returns. *)
Lemma collect_turns subs topic :
  concat (map (collect_turn subs topic) (map fst (dm_iter subs))) = matching subs topic.
Proof.
  unfold matching. f_equal. rewrite map_map. apply map_ext_in.
  intros [f set] Hin%list_elem_of_In. rewrite dm_iter_perm in Hin.
  apply elem_of_map_to_list in Hin. unfold collect_turn. cbn. by rewrite Hin.
Qed.

Lemma dm_iter_keys {V} (m : gmap str V) :
  NoDup (map fst (dm_iter m)) ∧ ∀ k, is_Some (m !! k) → k ∈ map fst (dm_iter m).
Proof.
  change (map fst (dm_iter m)) with ((dm_iter m).*1). split.
  - rewrite dm_iter_perm. apply NoDup_fst_map_to_list.
  - intros k [v Hv]. rewrite dm_iter_perm. apply list_elem_of_fmap. exists (k, v).
    split; [done|]. by apply elem_of_map_to_list.
Qed.

Lemma runs_publish others w src p : runs others w [Do_publish src p] (publish w src p).
Proof.
  destruct (dm_iter_keys (w_subs w)) as [Hnd Hfs].
  eapply runs_cons; [by apply (act_publish _ _ _ _ _ Hnd Hfs)|].
  unfold publish. rewrite <- collect_turns. apply (runs_collect others w src p _ []).
Qed.

Lemma runs_will others w will : runs others w (will_actions will) (publish_will w will).
Proof. destruct will; [apply runs_publish | constructor]. Qed.

Lemma remove_loop subs c fs :
  (∀ f, is_Some (subs !! f) → f ∈ fs) →
  foldl (λ t f, tree_unsubscribe t c f) subs fs = tree_remove_client subs c.
Proof.
  intros Hfs.
  enough (∀ fs t, (∀ f set, t !! f = Some set → f ∈ fs ∨ delete c set = set) →
    foldl (λ t f, tree_unsubscribe t c f) t fs = tree_remove_client t c) as Hgo.
  { apply Hgo. intros f set Hf. left. apply Hfs. by eexists. }
  clear. intros fs. induction fs as [|f fs IH]; intros t Ht; cbn.
  - apply map_eq. intros f. unfold tree_remove_client. rewrite lookup_fmap.
    destruct (t !! f) as [set|] eqn:E; [|done]. cbn.
    destruct (Ht f set E) as [?%elem_of_nil| ->]; done.
  - assert (tree_remove_client (tree_unsubscribe t c f) c = tree_remove_client t c) as Hr.
    { apply map_eq. intros f'. unfold tree_remove_client, tree_unsubscribe.
      rewrite !lookup_fmap. destruct (t !! f) as [set|] eqn:E; [|done].
      destruct (decide (f = f')) as [<-|]; [|by rewrite lookup_insert_ne].
      rewrite lookup_insert_eq, E. cbn. by rewrite delete_delete_eq. }
    rewrite <- Hr. apply IH. intros f' set. unfold tree_unsubscribe.
    destruct (t !! f) as [set0|] eqn:E.
    + destruct (decide (f = f')) as [<-|].
      * rewrite lookup_insert_eq. intros [= <-]. right. apply delete_delete_eq.
      * rewrite lookup_insert_ne by done. intros Hf'.
        destruct (Ht _ _ Hf') as [[-> | ?]%elem_of_cons|?]; [done | by left | by right].
    + intros Hf'. destruct (Ht _ _ Hf') as [[-> | ?]%elem_of_cons|?]; [congruence | by left | by right].
Qed.

Lemma set_subs_loop c fs w :
  foldl (λ w f, set_subs w (tree_unsubscribe (w_subs w) c f)) w fs =
    set_subs w (foldl (λ t f, tree_unsubscribe t c f) (w_subs w) fs).
Proof.
  revert w. induction fs as [|f fs IH]; intros w; cbn; [by destruct w as [? []]|].
  by rewrite IH.
Qed.

Lemma runs_remove_client others w c :
  runs others w [Do_remove_client c] (set_subs w (tree_remove_client (w_subs w) c)).
Proof.
  set (fs := map fst (dm_iter (w_subs w))).
  assert (∀ f, is_Some (w_subs w !! f) → f ∈ fs) as Hfs by apply dm_iter_keys.
  eapply (runs_cons others w _ _ w (map (Do_remove c) fs)); [by constructor|].
  rewrite app_nil_r, <- (remove_loop _ _ fs), <- set_subs_loop by done.
  apply runs_loop. constructor.
Qed.

(** The codes a SUBSCRIBE gathers do not matter to the tables. *)
Lemma subscribe_loop c filters acc :
  (foldl (subscribe_step c) acc filters).1 =
    foldl (λ w tf, (subscribe_step c (w, []) tf).1) acc.1 filters.
Proof.
  revert acc. induction filters as [|tf l IH]; intros acc; [done|]. cbn [foldl].
  rewrite IH. f_equal. destruct acc as [w codes]. unfold subscribe_step. by case_match.
Qed.

Lemma runs_register others w c id will clean :
  unguarded others c →
  runs others (set_sessions w (delete c (w_sessions w)))
    (register_rest (w_sessions w !! c) c id will clean)
    (register_session w c id will clean).1.
Proof.
  intros Hun. unfold register_session, register_takeover, register_insert, register_rest.
  cbn [fst].
  set (w1 := match w_sessions w !! c with
             | Some prev => publish_will (close_channel _ _) _ | None => _ end).
  apply (runs_app _ _ _ w1); [destruct clean; repeat constructor | |].
  { unfold w1. destruct (w_sessions w !! c) as [prev|]; [|constructor].
    eapply runs_cons; [constructor | apply runs_will]. }
  clearbody w1. set (w2 := if clean then set_subs _ _ else _).
  apply (runs_app _ _ _ w2); [repeat constructor | |].
  { unfold w2. destruct clean; [apply runs_remove_client | constructor]. }
  eapply runs_cons; [by constructor | constructor].
Qed.

Lemma runs_unregister others w c id graceful :
  runs others (take_session w c id).1 (unregister_rest (take_session w c id).2 c graceful)
    (unregister_session w c id graceful).
Proof.
  unfold unregister_session. destruct (take_session w c id) as [w1 [e|]]; [|constructor].
  cbn [fst snd unregister_rest].
  apply (runs_app _ _ [Do_remove_client c] (set_subs w1 (tree_remove_client (w_subs w1) c)));
    [|apply runs_remove_client|].
  - destruct graceful, (se_will e); repeat constructor.
  - destruct graceful; [constructor | apply runs_will].
Qed.

Lemma runs_subscribe others w c id filters :
  is_Some (owned_entry w c id) →
  runs others w (map (Do_subscribe c id) filters) (subscribe w c id filters).1.
Proof.
  intros [e He]. unfold subscribe. rewrite He, subscribe_loop. apply runs_loop. constructor.
Qed.

Lemma unguarded_nil c : unguarded (concat []) c.
Proof. by intros a id ?%elem_of_nil. Qed.

Lemma broker_step_micro s s' :
  broker_step s s' → rtc micro_step (mkCalls s.1 s.2 []) (mkCalls s'.1 s'.2 []).
Proof.
  destruct 1 as [n w rd wr la ra role n' ch Hn Hnew|n w id ch l ch' Hch Hs|
    n w c id will clean Hch Hfresh|n w c id g|n w c id fs|n w c id ts|n w c p]; cbn [fst snd].
  - apply rtc_once. by eapply micro_accept.
  - apply rtc_once. by eapply micro_channel.
  - eapply rtc_l; [|apply runs_micro, runs_register, unguarded_nil].
    apply micro_register; [done.. | by intros a ?%elem_of_nil | apply unguarded_nil].
  - eapply rtc_l; [apply micro_unregister, unguarded_nil | apply runs_micro, runs_unregister].
  - destruct (owned_entry w c id) as [e|] eqn:Ho; [|unfold subscribe; rewrite Ho; constructor].
    assert (is_Some (owned_entry w c id)) by by rewrite Ho.
    eapply rtc_l; [by apply (micro_subscribe n w [] c id fs) | by apply runs_micro, runs_subscribe].
  - unfold unsubscribe. destruct (owned_entry w c id) as [e|] eqn:Ho; [|constructor].
    eapply rtc_l; [apply (micro_unsubscribe n w [] c id ts); by rewrite Ho|].
    apply runs_micro, runs_loop. constructor.
  - eapply rtc_l; [apply micro_publish | apply runs_micro, runs_publish].
Qed.

Lemma steps_micro s s' :
  rtc broker_step s s' → rtc micro_step (mkCalls s.1 s.2 []) (mkCalls s'.1 s'.2 []).
Proof.
  induction 1 as [|s1 s2 s3 Hs _ IH]; [done|]. etrans; [by apply broker_step_micro | done].
Qed.
End alone.

(** ** Running calls finish *)

(** The loops an action has still to open, and everything that is left to do of
    those that are open. *)
Definition opens_loops (a : Action) : nat :=
  match a with
  | Do_publish _ _ => 2
  | Do_collect _ _ _ _ | Do_remove_client _ => 1
  | _ => 0
  end.

Definition turns (a : Action) : nat :=
  match a with Do_collect _ _ fs _ => S (length fs) | _ => 1 end.

Definition loops (s : Calls) : nat := list_sum (map opens_loops (concat (cl_running s))).
Definition pending (s : Calls) : nat :=
  list_sum (map turns (concat (cl_running s))) + length (cl_running s).

Definition fewer : Calls → Calls → Prop := λ s' s,
  (loops s' < loops s)%nat ∨ (loops s' = loops s ∧ (pending s' < pending s)%nat).

Lemma fewer_wf : well_founded fewer.
Proof.
  intros s. remember (loops s) as k eqn:Hk. revert s Hk.
  induction (lt_wf k) as [k _ IHk]. intros s Hk.
  remember (pending s) as m eqn:Hm. revert s Hk Hm.
  induction (lt_wf m) as [m _ IHm]. intros s -> ->. constructor. intros s' [Hl|[Hl Hp]].
  - by eapply IHk.
  - by eapply IHm.
Qed.

(** A call takes guards for all its turns or for none. *)
Definition call_shape (l : list Action) : Prop :=
  Forall (λ a, guard_of a = None) l ∨ Forall (λ a, is_Some (guard_of a)) l.

Section finish.
Context `{DashMapIter}.

Lemma act_shape others w a w' more rest :
  act others w a w' more → call_shape (a :: rest) → call_shape (more ++ rest).
Proof.
  intros Ha. assert (is_Some (guard_of a) → more = []) as Hg.
  { destruct Ha; cbn; try done; by intros [? ?]. }
  assert (Forall (λ b, guard_of b = None) more) as Hmore.
  { destruct Ha; try (by repeat constructor); by apply Forall_fmap, Forall_true. }
  intros [[H1 H2]%Forall_cons|[H1 H2]%Forall_cons].
  - left. by apply Forall_app.
  - right. by rewrite Hg.
Qed.

Lemma micro_step_shape s s' :
  micro_step s s' → Forall call_shape (cl_running s) → Forall call_shape (cl_running s').
Proof.
  destruct 1 as [| |n w ts c id will clean|n w ts c id g|n w ts c id fs Ho|
    n w ts c id tps Ho|n w ts c p|s s' [n w ts1 a rest ts2 w' more Ha|n w ts1 ts2]];
    cbn [cl_running]; intros Hs; try done; try (constructor; [|done]).
  - left. apply register_rest_guard.
  - left. unfold take_session. repeat case_match; cbn; [destruct g|..]; repeat constructor.
    destruct (se_will _); repeat constructor.
  - right. apply Forall_fmap, Forall_true. by eexists.
  - right. apply Forall_fmap, Forall_true. by eexists.
  - left. repeat constructor.
  - apply Forall_app in Hs as [? [? ?]%Forall_cons]. apply Forall_app. split; [done|].
    constructor; [by eapply act_shape | done].
  - apply Forall_app in Hs as [? [? ?]%Forall_cons]. by apply Forall_app.
Qed.

Lemma opens_loops_none {X} (mk : X → Action) l :
  (∀ x, opens_loops (mk x) = 0%nat) → list_sum (map opens_loops (map mk l)) = 0%nat.
Proof. intros Hx. induction l as [|x l IH]; cbn; [done|]. by rewrite Hx. Qed.

Lemma call_step_fewer s s' : call_step s s' → fewer s' s.
Proof.
  destruct 1 as [n w ts1 a rest ts2 w' more Ha|n w ts1 ts2]; unfold fewer, loops, pending; cbn.
  - rewrite !concat_app. cbn. rewrite !map_app, !list_sum_app. cbn.
    rewrite !map_app, !list_sum_app, !length_app.
    destruct Ha; cbn; rewrite ?opens_loops_none by done; lia.
  - rewrite !concat_app, !length_app. cbn. lia.
Qed.

(** The next action of a call whose client nobody else guards can be taken. *)
Lemma act_enabled others w a :
  (∀ c e, a = Do_insert c e → unguarded others c) → ∃ w' more, act others w a w' more.
Proof.
  intros Hun. destruct a; try by do 2 eexists; constructor.
  - destruct (dm_iter_keys (w_subs w)) as [Hnd Hfs]. do 2 eexists. by constructor.
  - destruct fs as [|f fs]; do 2 eexists; constructor.
  - exists w, (map (Do_remove c) (map fst (dm_iter (w_subs w)))). constructor.
    apply dm_iter_keys.
  - do 2 eexists. constructor. by eapply Hun.
Qed.

Lemma head_enabled n w ts1 a rest ts2 :
  (∀ c e, a = Do_insert c e → unguarded (rest ++ concat (ts1 ++ ts2)) c) →
  ∃ s', call_step (mkCalls n w (ts1 ++ (a :: rest) :: ts2)) s'.
Proof.
  intros Hun. destruct (act_enabled (rest ++ concat (ts1 ++ ts2)) w a Hun) as (w' & more & Ha).
  eexists. by apply call_act.
Qed.

(** A call that has returned, or holds the guard it needs. *)
Definition ready (l : list Action) : Prop :=
  match l with [] => True | a :: _ => is_Some (guard_of a) end.

#[local] Instance ready_dec l : Decision (ready l).
Proof. destruct l; apply _. Defined.

(** A call that waits for a guard waits for a call that waits for nothing. *)
Lemma call_progress s :
  Forall call_shape (cl_running s) → cl_running s ≠ [] → ∃ s', call_step s s'.
Proof.
  destruct s as [n w ts]. cbn. intros Hs Hne.
  destruct (decide (Exists ready ts)) as [He|He].
  - apply Exists_exists in He as ([|a l] & (ts1 & ts2 & ->)%list_elem_of_split & Hr).
    + eexists. apply call_return.
    + apply head_enabled. intros c e ->. by destruct Hr.
  - apply not_Exists_Forall in He; [|apply _].
    assert (Forall (λ a, guard_of a = None) (concat ts)) as Hnone.
    { apply Forall_concat, Forall_forall. intros l Hl. rewrite Forall_forall in Hs, He.
      destruct (Hs l Hl) as [?|Hall]; [done|]. destruct l as [|a l]; [constructor|].
      destruct (He _ Hl). by apply Forall_cons in Hall as [? _]. }
    destruct ts as [|[|a l] ts]; [done | by apply Forall_cons in He as [[] _]|].
    apply (head_enabled n w [] a l ts). intros c e -> b id Hin Hb.
    rewrite Forall_forall in Hnone. rewrite (Hnone b) in Hb; [done|]. cbn. by right.
Qed.

Lemma reachable_shape auth safety s :
  rtc micro_step (mkCalls 1 (world_new (broker_build auth safety)) []) s →
  Forall call_shape (cl_running s).
Proof.
  apply (rtc_ind_r (λ s, Forall call_shape (cl_running s))); [constructor|].
  intros s1 s2 _. apply micro_step_shape.
Qed.

Lemma calls_finish s :
  Forall call_shape (cl_running s) → ∃ s', rtc call_step s s' ∧ cl_running s' = [].
Proof.
  induction (fewer_wf s) as [s _ IH]. intros Hs.
  destruct (decide (cl_running s = [])) as [?|Hne]; [by exists s|].
  destruct (call_progress s Hs Hne) as [s1 H1].
  destruct (IH s1) as (s' & Hr & Hd); [by apply call_step_fewer | |].
  { eapply micro_step_shape; [by apply micro_call | done]. }
  exists s'. split; [by eapply rtc_l | done].
Qed.
End finish.

(** ** A PUBLISH among other calls *)

(** The publish an action works on. *)
Definition works_on (a : Action) : option (str * PublishPacket) :=
  match a with
  | Do_publish src p | Do_collect src p _ _ | Do_fanout src p _ => Some (src, p)
  | _ => None
  end.

(** Client [c] stays registered on connection [id] and subscribed to [f] with [q]. *)
Definition subscribed (f c : str) (q : QoS) (id : Z) (w : World) : Prop :=
  sub_of (w_subs w) f c = Some q ∧ is_Some (owned_entry w c id).

Section among.
Context `{DashMapIter}.
Context (f c src : str) (q : QoS) (id : Z) (p : PublishPacket).

Definition steady_step : Calls → Calls → Prop := λ s s',
  micro_step s s' ∧ subscribed f c q id (cl_world s').

(** The action that has still to bring the copy for [c]. *)
Definition owes (a : Action) : Prop :=
  works_on a = Some (src, p) ∧
  match a with
  | Do_collect _ _ fs results => f ∈ fs ∨ (c, q) ∈ results
  | Do_fanout _ _ sub => sub = (c, q)
  | _ => True
  end.

Hypothesis Hmatch : filter_matches f (split slash (pub_topic p)) = true.

Lemma collect_turn_elem w :
  subscribed f c q id w → (c, q) ∈ collect_turn (w_subs w) (pub_topic p) f.
Proof.
  intros [Hq _]. unfold collect_turn, sub_of in *. destruct (w_subs w !! f) as [set|]; [|done].
  cbn in Hq. rewrite Hmatch, dm_iter_perm. by apply elem_of_map_to_list.
Qed.

Lemma act_owes others w a w' more :
  act others w a w' more → subscribed f c q id w → owes a →
  Exists owes more ∨ w' = publish_step src p w (c, q).
Proof.
  intros Ha Hs [Hw Ho]. destruct Ha as [|src' p' fs Hnd Hfs|src' p' f' fs res|src' p' res|
    src' p' sub| | | | |]; cbn in Hw, Ho; try done; injection Hw as -> ->.
  - left. constructor. split; [done|]. left. apply Hfs. destruct Hs as [Hq _].
    unfold sub_of in Hq. by destruct (w_subs w !! f).
  - left. constructor. split; [done|]. rewrite elem_of_app.
    destruct Ho as [[<-|Hin]%elem_of_cons|Hin]; eauto using collect_turn_elem.
  - left. destruct Ho as [Hin%elem_of_nil|Hin]; [done|]. apply Exists_exists.
    exists (Do_fanout src p (c, q)). split; [by apply list_elem_of_fmap_2 | done].
  - right. by rewrite Ho.
Qed.

Lemma micro_step_owes s s' :
  micro_step s s' → subscribed f c q id (cl_world s) → Exists owes (concat (cl_running s)) →
  Exists owes (concat (cl_running s')) ∨
  cl_world s' = publish_step src p (cl_world s) (c, q).
Proof.
  destruct 1 as [| | | | | | |s s' [n w ts1 a rest ts2 w' more Ha|n w ts1 ts2]];
    cbn [cl_running cl_world concat]; intros Hs Ho;
    try (left; rewrite ?Exists_app; by eauto).
  - rewrite concat_middle, concat_pick in *. apply Exists_cons in Ho as [Ho|Ho].
    + destruct (act_owes _ _ _ _ _ Ha Hs Ho); [|by right]. left. apply Exists_app. by left.
    + left. apply Exists_app. by right.
  - left. rewrite concat_app in *. done.
Qed.

Lemma steady_owes s s' :
  rtc steady_step s s' → subscribed f c q id (cl_world s) →
  Exists owes (concat (cl_running s)) →
  Exists owes (concat (cl_running s')) ∨
  ∃ sa sb, rtc steady_step s sa ∧ steady_step sa sb ∧ rtc steady_step sb s' ∧
    subscribed f c q id (cl_world sa) ∧
    cl_world sb = publish_step src p (cl_world sa) (c, q).
Proof.
  induction 1 as [s|s s1 s' [Hm H1] Hr IH]; intros Hs Ho; [by left|].
  destruct (micro_step_owes s s1 Hm Hs Ho) as [Ho1|Hw].
  - destruct (IH H1 Ho1) as [?|(sa & sb & Ha & Hrest)]; [by left|]. right.
    exists sa, sb. split; [by eapply rtc_l | done].
  - right. by exists s, s1.
Qed.

(** Undisturbed, a publish changes no subscription. *)
Lemma act_works_on others w a w' more :
  act others w a w' more → is_Some (works_on a) →
  w_broker w' = w_broker w ∧ Forall (λ b, is_Some (works_on b)) more.
Proof.
  destruct 1; intros [x Hx]; cbn in Hx; try done.
  - split; [done|]. repeat constructor. by eexists.
  - split; [done|]. repeat constructor. by eexists.
  - split; [done|]. apply Forall_fmap, Forall_true. by eexists.
  - split; [apply publish_step_broker | constructor].
Qed.

Lemma runs_steady n ts w l w' :
  runs (concat ts) w l w' → Forall (λ a, is_Some (works_on a)) l → subscribed f c q id w →
  rtc steady_step (mkCalls n w (l :: ts)) (mkCalls n w' ts).
Proof.
  induction 1 as [w|w a rest w' more w'' Ha _ IH]; intros Hl Hs.
  - apply rtc_once. split; [|done]. apply micro_call. apply (call_return n w [] ts).
  - apply Forall_cons in Hl as [Hwa Hl]. destruct (act_works_on _ _ _ _ _ Ha Hwa) as [Hb Hmore].
    assert (subscribed f c q id w') as Hs'.
    { unfold subscribed, owned_entry, w_sessions, w_subs in *. by rewrite Hb. }
    eapply rtc_l; [|apply IH; [by apply Forall_app | done]].
    split; [|done]. apply micro_call. by apply (call_act n w [] a rest ts).
Qed.
End among.

(** ** Theorems *)

Section theorems.
Context `{DashMapIter}.

(** C8: the broker's methods may run at once and interleave at every table operation:
    in every reachable state a subscription belongs to a registered client, or to one
    whose call is still on its way to remove it or to insert its session; every filter
    in the tree is valid, every session's channel exists, no two sessions and no
    pending registration share one, and the guards held are on entries of their own
    connection.  Between calls, then, only registered clients have subscriptions. *)
Theorem interleaved_inv auth safety n w ts :
  rtc micro_step (mkCalls 1 (world_new (broker_build auth safety)) []) (mkCalls n w ts) →
  calls_inv w (concat ts) ∧ ids_inv n w ∧
  (ts = [] → ∀ f c q, sub_of (w_subs w) f c = Some q → is_Some (w_sessions w !! c)).
Proof.
  intros [Hinv Hids]%interleaved_ok. cbn in *. split_and!; [done..|].
  intros -> f c q Hq. destruct (ci_subscriber _ _ Hinv f c q Hq) as [?|Ha]; [done|].
  destruct Ha as [(e & Hin)|[Hin|Hin]]; by apply elem_of_nil in Hin.
Qed.


(** C26: the broker's methods neither deadlock nor run for ever: from every reachable
    state the running calls take only finitely many steps, whatever the order, and as
    long as a call is running one of them can take a step; a teardown that waits for
    the entry of its client waits for a SUBSCRIBE or UNSUBSCRIBE that waits for
    nothing.  So the running calls can always be completed. *)
Theorem running_calls_finish auth safety s :
  rtc micro_step (mkCalls 1 (world_new (broker_build auth safety)) []) s →
  sn call_step s ∧
  (∀ s', rtc call_step s s' → (∀ s'', ¬ call_step s' s'') → cl_running s' = []) ∧
  (∃ s', rtc call_step s s' ∧ cl_running s' = []).
Proof.
  intros Hs%reachable_shape. split_and!.
  - induction (fewer_wf s) as [s _ IH]. constructor. intros s' Hc.
    apply IH; [by apply call_step_fewer|].
    eapply micro_step_shape; [by apply micro_call | done].
  - intros s' Hr Hstuck. destruct (decide (cl_running s' = [])) as [|Hne]; [done|].
    assert (Forall call_shape (cl_running s')) as Hs'.
    { clear Hstuck Hne. induction Hr as [|s1 s2 s3 H1 _ IH]; [done|].
      apply IH. eapply micro_step_shape; [by apply micro_call | done]. }
    destruct (call_progress s' Hs' Hne) as [s'' Hc]. by destruct (Hstuck s'').
  - by apply calls_finish.
Qed.

(** C9: a PUBLISH that runs among other calls misses nobody who was there: when client
    [c] stays registered on connection [id] and subscribed to a matching filter while
    [publish] runs, whatever subscribes, registers, tears down and publishes in
    between, then once no running call works on [p] any more, one of the steps taken
    put a copy at the effective QoS at the end of [c]'s queue. *)
Theorem interleaved_publish_delivers f c src q id p n w ts s' :
  filter_matches f (split slash (pub_topic p)) = true → c ≠ src →
  subscribed f c q id w →
  rtc (steady_step f c q id) (mkCalls n w ([Do_publish src p] :: ts)) s' →
  (∀ a, a ∈ concat (cl_running s') → works_on a ≠ Some (src, p)) →
  ∃ sa sb, rtc (steady_step f c q id) (mkCalls n w ([Do_publish src p] :: ts)) sa ∧
    steady_step f c q id sa sb ∧ rtc (steady_step f c q id) sb s' ∧
    ∀ ch, w_channels (cl_world sa) !! id = Some ch → ch_actor ch ≠ Exited →
      ∃ ch' m, w_channels (cl_world sb) !! id = Some ch' ∧ delivery p q m ∧
        ch_queue ch' = ch_queue ch ++ [Cmd_Publish m].
Proof.
  intros Hm Hc Hs Hr Hdone.
  destruct (steady_owes f c src q id p Hm _ _ Hr Hs) as [Ho|(sa & sb & H1 & H2 & H3 & [_ Ho] & Hw)].
  { cbn. by constructor. }
  { exfalso. apply Exists_exists in Ho as (a & Hin & Ha & _). by destruct (Hdone a Hin). }
  exists sa, sb. split_and!; [done..|]. intros ch Hch Hact.
  destruct Ho as [e He]. apply owned_entry_Some in He as [He <-].
  destruct (fanout_to_queue p q ch Hact) as (m & Hd & Hq).
  exists (fanout_to p q ch), m. rewrite Hw. cbn.
  rewrite bool_decide_false, He, Hch by done. cbn. by rewrite lookup_insert_eq.
Qed.

(** [unregister_session] takes the entry of its own connection only, but then wipes
    the subscriptions of the client id: when the client reconnects and subscribes in
    between, the new session stays registered with the filter it was granted, while
    the tree has lost it, and no PUBLISH reaches it. *)
Theorem unregister_race n w c id1 id2 tf will clean :
  is_Some (owned_entry w c id1) → is_Some (w_channels w !! id2) →
  map_Forall (λ _ e, se_channel e ≠ id2) (w_sessions w) →
  validate_subscribe_filter (tf_filter tf) = Ok tt →
  ∃ w', rtc micro_step (mkCalls n w []) (mkCalls n w' []) ∧
    w_sessions w' !! c = Some (mkEntry id2 {[tf_filter tf := tf_qos tf]} will clean) ∧
    sub_of (w_subs w') (tf_filter tf) c = None ∧
    ∀ src p, w_channels (publish w' src p) !! id2 = w_channels w' !! id2.
Proof.
  intros [e He] Hch Hfresh Hv. apply owned_entry_Some in He as [He Hid].
  set (w1 := set_sessions w (delete c (w_sessions w))).
  set (w2 := (register_session w1 c id2 will clean).1).
  set (w3 := (subscribe w2 c id2 [tf]).1).
  set (w4 := set_subs w3 (tree_remove_client (w_subs w3) c)).
  assert (w_sessions w2 = <[c := mkEntry id2 ∅ will clean]> (w_sessions w1)) as Hw2
    by apply register_sessions.
  assert (owned_entry w2 c id2 = Some (mkEntry id2 ∅ will clean)) as Ho
    by (unfold owned_entry; rewrite Hw2, lookup_insert_eq; cbn; by rewrite Z.eqb_refl).
  assert (w_sessions w4 =
      <[c := mkEntry id2 {[tf_filter tf := tf_qos tf]} will clean]> (w_sessions w1)) as Hw4.
  { change (w_sessions w4) with (w_sessions w3). unfold w3, subscribe. rewrite Ho.
    clear w3 w4. clearbody w2. cbn. rewrite Hv. cbn.
    rewrite Hw2, (alter_insert _ _ c (mkEntry id2 ∅ will clean)) by apply lookup_insert_eq.
    by rewrite insert_insert_eq. }
  assert (∀ f, sub_of (w_subs w4) f c = None) as Hnone.
  { intros f. cbn. by rewrite sub_of_remove_client, decide_True. }
  exists w4. split_and!; [|by rewrite Hw4, lookup_insert_eq | done |].
  - assert (unguarded (concat [[Do_remove_client c]]) c) as Hun.
    { intros a id. cbn. rewrite list_elem_of_singleton. by intros ->. }
    eapply rtc_l.
    { apply (micro_unregister n w [] c id1 true). apply unguarded_nil. }
    unfold take_session. rewrite He, Hid, Z.eqb_refl. cbn [fst snd unregister_rest negb].
    eapply rtc_l.
    { apply (micro_register n w1 [[Do_remove_client c]] c id2 will clean); try done.
      - by apply map_Forall_delete.
      - intros a. cbn. rewrite list_elem_of_singleton. by intros ->. }
    etrans; [by apply runs_micro, runs_register|].
    eapply rtc_l; [apply (micro_subscribe n w2 _ c id2 [tf]); by rewrite Ho|].
    etrans; [apply runs_micro, runs_subscribe; by rewrite Ho|].
    apply (runs_micro n []), runs_remove_client.
  - intros src p. apply publish_frame. rewrite Hw4. intros c' e' f q.
    rewrite lookup_insert_Some. intros [[<- <-]|[_ He']] Hid' _.
    + by rewrite Hnone.
    + cbn in He'. apply lookup_delete_Some in He' as [_ He']. by destruct (Hfresh c' e').
Qed.
End theorems.

(** A client [b] that reconnects on connection 3 while the teardown of connection 2
    runs. *)
Definition demo_race : World := (demo_connect (3, demo)).2.

Lemma unregister_race_witness :
  ∃ w', rtc micro_step (mkCalls 4 demo_race []) (mkCalls 4 w' []) ∧
    w_sessions w' !! str_of "b" =
      Some (mkEntry 3 {[str_of "t" := AtLeastOnce]} None true) ∧
    sub_of (w_subs w') (str_of "t") (str_of "b") = None ∧
    ∀ src p, w_channels (publish w' src p) !! 3 = w_channels w' !! 3.
Proof.
  apply (unregister_race 4 demo_race (str_of "b") 2 3
    (mkTopicFilter (str_of "t") AtLeastOnce) None true).
  - vm_compute. by eexists.
  - by eexists.
  - apply (bool_decide_eq_true_1 _). vm_compute. reflexivity.
  - vm_compute. reflexivity.
Defined.


(** The same with a teardown under way: [b]'s entry is taken, its subscriptions are
    not yet removed. *)
Definition demo_torn : Calls :=
  mkCalls 3 (take_session demo (str_of "b") 2).1 [[Do_remove_client (str_of "b")]].

Lemma demo_torn_reachable :
  rtc micro_step (mkCalls 1 (world_new broker_accept_all) []) demo_torn.
Proof.
  eapply rtc_r; [apply (steps_micro _ _ demo_reachable)|].
  apply (micro_unregister 3 demo [] (str_of "b") 2 true), unguarded_nil.
Qed.

Lemma interleaved_inv_witness :
  calls_inv (cl_world demo_torn) [Do_remove_client (str_of "b")].
Proof.
  exact (proj1 (interleaved_inv _ _ _ _ _ demo_torn_reachable)).
Defined.

Lemma running_calls_finish_witness :
  ∃ s', rtc call_step demo_torn s' ∧ cl_running s' = [].
Proof.
  exact (proj2 (proj2 (running_calls_finish _ _ _ demo_torn_reachable))).
Defined.

(** [a] publishes while another call is about to return. *)
Lemma interleaved_publish_delivers_witness :
  let demo_steady := steady_step (str_of "#") (str_of "b") ExactlyOnce 2 in
  ∃ sa sb, rtc demo_steady (mkCalls 3 demo [[Do_publish (str_of "a") demo_publish]; []]) sa ∧
    demo_steady sa sb ∧
    rtc demo_steady sb (mkCalls 3 (publish demo (str_of "a") demo_publish) [[]]) ∧
    ∀ ch, w_channels (cl_world sa) !! 2 = Some ch → ch_actor ch ≠ Exited →
      ∃ ch' m, w_channels (cl_world sb) !! 2 = Some ch' ∧ delivery demo_publish ExactlyOnce m ∧
        ch_queue ch' = ch_queue ch ++ [Cmd_Publish m].
Proof.
  apply (interleaved_publish_delivers (str_of "#") (str_of "b") (str_of "a") ExactlyOnce 2
    demo_publish 3 demo [[]]).
  - vm_compute. reflexivity.
  - discriminate.
  - split; [vm_compute; reflexivity | vm_compute; by eexists].
  - apply runs_steady; [apply runs_publish | repeat constructor; by eexists |].
    split; [vm_compute; reflexivity | vm_compute; by eexists].
  - intros a. cbn. by rewrite elem_of_nil.
Defined.
