(* ===== verification/Context.v ===== *)
(** [src/src/context.rs]: [MqttContext], the value an endpoint chain or an
    outbound request carries.

    The channel is its connection id in the [World]; an endpoint is a node of the
    framework's URL tree, whose type and whose [match_seg_name_with_index] are
    parameters.  The framework's [Params] and [Locals], which this crate only
    initialises, are not part of the record. *)

From S2P Require Import Prelude.
From S2P Require Import Types.
From S2P Require Import Topic.
From S2P Require Import Session.
From S2P Require Import Channel.
From S2P Require Import Broker.

Section context.
Context {Node : Type}.
Context (match_seg_name_with_index : Node → str → option nat).

Record MqttContext := mkContext {
  ctx_request : MqttRequest;
  ctx_response : MqttResponse;
  ctx_incoming : option IncomingPublish;
  ctx_channel : option Z;
  ctx_fanout : bool;
  ctx_endpoint : option Node;
}.

Definition context_default : MqttContext :=
  mkContext (Request_Publish PublishRequest_default) (Published Sent) None None true None.

Definition install_channel (ctx : MqttContext) (ch : Z) : MqttContext :=
  mkContext (ctx_request ctx) (ctx_response ctx) (ctx_incoming ctx) (Some ch)
    (ctx_fanout ctx) (ctx_endpoint ctx).

Definition set_incoming (ctx : MqttContext) (p : IncomingPublish) : MqttContext :=
  mkContext (ctx_request ctx) (ctx_response ctx) (Some p) (ctx_channel ctx)
    (ctx_fanout ctx) (ctx_endpoint ctx).

Definition set_endpoint (ctx : MqttContext) (node : Node) : MqttContext :=
  mkContext (ctx_request ctx) (ctx_response ctx) (ctx_incoming ctx) (ctx_channel ctx)
    (ctx_fanout ctx) (Some node).

Definition should_fanout (ctx : MqttContext) : bool := ctx_fanout ctx.

Definition suppress_fanout (ctx : MqttContext) : MqttContext :=
  mkContext (ctx_request ctx) (ctx_response ctx) (ctx_incoming ctx) (ctx_channel ctx)
    false (ctx_endpoint ctx).

Definition ctx_topic (ctx : MqttContext) : option str := inc_topic <$> ctx_incoming ctx.
Definition ctx_payload (ctx : MqttContext) : option bytes := inc_payload <$> ctx_incoming ctx.

(** [param]: the segment of the topic an endpoint pattern captured under [name]. *)
Definition param (ctx : MqttContext) (name : str) : option str :=
  topic ← ctx_topic ctx;
  endpoint ← ctx_endpoint ctx;
  idx ← match_seg_name_with_index endpoint name;
  split slash topic !! idx.

Definition context_client_id (w : World) (ctx : MqttContext) : option str :=
  id ← ctx_channel ctx; ch ← w_channels w !! id; channel_client_id ch.

Definition handle_error (ctx : MqttContext) : MqttContext := suppress_fanout ctx.

Definition context_role (w : World) (ctx : MqttContext) : ProtocolRole :=
  match ctx_channel ctx ≫= λ id, w_channels w !! id with
  | Some ch => ch_role ch
  | None => Role_Client
  end.

Definition inject_request (ctx : MqttContext) (req : MqttRequest) : MqttContext :=
  mkContext req (ctx_response ctx) (ctx_incoming ctx) (ctx_channel ctx) (ctx_fanout ctx)
    (ctx_endpoint ctx).

Definition set_response (ctx : MqttContext) (resp : MqttResponse) : MqttContext :=
  mkContext (ctx_request ctx) resp (ctx_incoming ctx) (ctx_channel ctx) (ctx_fanout ctx)
    (ctx_endpoint ctx).

Definition into_response (ctx : MqttContext) : MqttResponse := ctx_response ctx.
End context.

Arguments MqttContext : clear implicits.
