(* ===== verification/Send.v ===== *)
(** [src/src/protocol/send.rs]: the outbound send path of both roles.

    A send is an [async] function that suspends at [timeout(.., receiver)].  A
    [SendFlow] is where it stands: suspended on the receiver of a waiter, or
    returned.  Running it to its first suspension, resuming it when its waiter
    was resolved and the expiry of its timer are the three functions below; what
    the rest of the program does to the session in between is [flow_step]. *)

From S2P Require Import Prelude.
From S2P Require Import Types.
From S2P Require Import Session.
From S2P Require Import Channel.
From S2P Require Import Broker.
From S2P Require Import Context.

Inductive SendFlow :=
  | Await_puback (id : Z) (w : nat)
  | Await_pubrec (id : Z) (w : nat)
  | Await_pubcomp (id : Z) (w : nat)
  | Await_suback (id : Z) (w : nat)
  | Await_unsuback (id : Z) (w : nat)
  | Returned (r : mresult MqttResponse).

(** The [?] after a send: go on, or return the error. *)
Definition after_send (sent : MqttChannel * mresult unit) (next : SendFlow) :
    MqttChannel * SendFlow :=
  match sent with
  | (ch, Ok _) => (ch, next)
  | (ch, Err e) => (ch, Returned (Err e))
  | (ch, Panic) => (ch, Returned Panic)
  | (ch, Loop) => (ch, Returned Loop)
  end.

(** ** Up to the first suspension *)

Definition send_publish (ch : MqttChannel) (req : PublishRequest) :
    MqttChannel * SendFlow :=
  let '(ch, packet_id) :=
    if negb (bool_decide (req_qos req = AtMostOnce)) then
      let '(s, id) := allocate_packet_id (ch_session ch) in (set_session ch s, Some id)
    else (ch, None) in
  let packet :=
    mkPublishPacket (req_topic req) (req_payload req) false (req_qos req) (req_retain req)
      packet_id in
  match req_qos req with
  | AtMostOnce =>
      after_send (send_publish_cmd ch packet) (Returned (Ok (Published Sent)))
  | AtLeastOnce =>
      match packet_id with
      | None => (ch, Returned Panic)
      | Some id =>
          let '(s, w) := park_publish_ack_waiter (ch_session ch) id Kind_Puback in
          after_send (send_publish_cmd (set_session ch s) packet) (Await_puback id w)
      end
  | ExactlyOnce =>
      match packet_id with
      | None => (ch, Returned Panic)
      | Some id =>
          let '(s, w) := park_publish_ack_waiter (ch_session ch) id Kind_Pubrec in
          after_send (send_publish_cmd (set_session ch s) packet) (Await_pubrec id w)
      end
  end.

Definition send_subscribe (ch : MqttChannel) (filters : list TopicFilter) :
    MqttChannel * SendFlow :=
  let '(s, id) := allocate_packet_id (ch_session ch) in
  let '(s, w) := park_suback_waiter s id in
  let subs := map (λ f, mkTopicSubscription (tf_filter f) (tf_qos f)) filters in
  after_send
    (send_packet (set_session ch s) (Packet_Subscribe (mkSubscribePacket id subs)))
    (Await_suback id w).

Definition send_unsubscribe (ch : MqttChannel) (topics : list str) :
    MqttChannel * SendFlow :=
  let '(s, id) := allocate_packet_id (ch_session ch) in
  let '(s, w) := park_unsuback_waiter s id in
  after_send
    (send_packet (set_session ch s) (Packet_Unsubscribe (mkUnsubscribePacket id topics)))
    (Await_unsuback id w).

Definition send_request (ch : MqttChannel) (req : MqttRequest) : MqttChannel * SendFlow :=
  match req with
  | Request_Publish r => send_publish ch r
  | Request_Subscribe filters => send_subscribe ch filters
  | Request_Unsubscribe topics => send_unsubscribe ch topics
  end.

(** [send_impl]: the request is moved out of the context, run, and its response
    stored. *)
Definition send_impl_begin {Node} (w : World) (ctx : MqttContext Node) :
    World * MqttContext Node * SendFlow :=
  match ctx_channel ctx with
  | None => (w, ctx, Returned (Err (NotConnected "no channel installed in ctx")))
  | Some id =>
      match w_channels w !! id with
      | None => (w, ctx, Returned Panic)   (* a held channel exists *)
      | Some ch =>
          let '(ch, flow) := send_request ch (ctx_request ctx) in
          (set_channels w (<[id := ch]> (w_channels w)),
           inject_request ctx (Request_Publish PublishRequest_default), flow)
      end
  end.

Definition send_impl_end {Node} (ctx : MqttContext Node) (r : mresult MqttResponse) :
    mresult (MqttContext Node) :=
  response ← r; Ok (set_response ctx response).

(** ** Resuming *)

Definition flow_waiter (flow : SendFlow) : option (Z * nat) :=
  match flow with
  | Await_puback id w | Await_pubrec id w | Await_pubcomp id w | Await_suback id w
  | Await_unsuback id w => Some (id, w)
  | Returned _ => None
  end.

(** The receiver resolved: the rest of the function, up to its next
    suspension. *)
Definition send_resolved (ch : MqttChannel) (flow : SendFlow) (v : AckValue) :
    MqttChannel * SendFlow :=
  match flow, v with
  | Await_puback _ _, Ack_id id => (ch, Returned (Ok (Published (Acknowledged id))))
  | Await_pubrec id _, Ack_id _ =>
      let '(s, w) := park_publish_ack_waiter (ch_session ch) id Kind_Pubcomp in
      (set_session ch s, Await_pubcomp id w)
  | Await_pubcomp _ _, Ack_id id => (ch, Returned (Ok (Published (Completed id))))
  | Await_suback _ _, Ack_codes codes => (ch, Returned (Ok (Subscribed codes)))
  | Await_unsuback _ _, Ack_unit => (ch, Returned (Ok Unsubscribed))
  | _, _ => (ch, flow)
  end.

Definition send_poll (st : MqttChannel * SendFlow) : MqttChannel * SendFlow :=
  let '(ch, flow) := st in
  match flow_waiter flow with
  | None => (ch, flow)
  | Some (_, w) =>
      match ss_waiters (ch_session ch) !! w with
      | Some (Delivered v) => send_resolved ch flow v
      | Some SenderDropped => (ch, Returned (Err ChannelClosed))
      | Some Waiting | None => (ch, flow)
      end
  end.

(** [DEFAULT_ACK_TIMEOUT] expired: a receiver that is ready by then still wins. *)
Definition send_timeout (st : MqttChannel * SendFlow) : MqttChannel * SendFlow :=
  let '(ch, flow) := st in
  match flow_waiter flow with
  | None => (ch, flow)
  | Some (id, w) =>
      match ss_waiters (ch_session ch) !! w with
      | Some Waiting =>
          (set_session ch (cancel_ack_waiter (ch_session ch) id),
           Returned (Err (Timeout Timeout_Ack)))
      | _ => send_poll (ch, flow)
      end
  end.

(** ** What happens to the session meanwhile *)

(** An inbound ack, as the dispatchers of both roles settle it. *)
Definition settle (s : MqttSession) (p : Packet) : MqttSession :=
  match p with
  | Packet_Puback id => clear_outbound_inflight (wake_ack_waiter s id Kind_Puback) id
  | Packet_Pubrec id => wake_ack_waiter s id Kind_Pubrec
  | Packet_Pubcomp id => clear_outbound_inflight (wake_ack_waiter s id Kind_Pubcomp) id
  | Packet_Suback a => wake_suback_waiter s (suback_packet_id a) (suback_return_codes a)
  | Packet_Unsuback id => wake_unsuback_waiter s id
  | _ => s
  end.

(** Everything else the program does to a session. *)
Inductive other_step : MqttSession → MqttSession → Prop :=
  | other_allocate s : other_step s (allocate_packet_id s).1
  | other_park_publish s id k : other_step s (park_publish_ack_waiter s id k).1
  | other_park_suback s id : other_step s (park_suback_waiter s id).1
  | other_park_unsuback s id : other_step s (park_unsuback_waiter s id).1
  | other_cancel s id : other_step s (cancel_ack_waiter s id)
  | other_clear s id : other_step s (clear_outbound_inflight s id)
  | other_track s id p : other_step s (track_outbound_inflight s id p)
  | other_stash s id p : other_step s (stash_qos2_publish s id p)
  | other_take s id : other_step s (take_qos2_publish s id).1
  | other_abandon s : other_step s (abandon s)
  | other_bind s info : other_step s (bind_set s info).1.

(** A send together with its connection: its own steps, and those of the other
    tasks.  The label lists the packets that were dispatched in the step. *)
Inductive flow_step : list Packet →
    MqttChannel * SendFlow → MqttChannel * SendFlow → Prop :=
  | flow_inbound ch flow p :
      flow_step [p] (ch, flow) (set_session ch (settle (ch_session ch) p), flow)
  | flow_other ch flow s :
      other_step (ch_session ch) s → flow_step [] (ch, flow) (set_session ch s, flow)
  | flow_channel ch flow ch' :
      ch_session ch' = ch_session ch → flow_step [] (ch, flow) (ch', flow)
  | flow_poll st : flow_step [] st (send_poll st)
  | flow_timeout st : flow_step [] st (send_timeout st).

Inductive flow_run (st : MqttChannel * SendFlow) :
    list Packet → MqttChannel * SendFlow → Prop :=
  | flow_run_nil : flow_run st [] st
  | flow_run_step t l st1 st2 :
      flow_run st t st1 → flow_step l st1 st2 → flow_run st (t ++ l) st2.

(** ** A parked waiter is served only by its own ack *)

(** [slot] of packet [id] is answered by packet [a], which delivers [v]. *)
Definition answers (slot : AckSlot) (id : Z) (a : Packet) (v : AckValue) : Prop :=
  match slot with
  | Slot_Puback _ => a = Packet_Puback id ∧ v = Ack_id id
  | Slot_Pubrec _ => a = Packet_Pubrec id ∧ v = Ack_id id
  | Slot_Pubcomp _ => a = Packet_Pubcomp id ∧ v = Ack_id id
  | Slot_Suback _ =>
      ∃ codes, a = Packet_Suback (mkSubackPacket id codes) ∧ v = Ack_codes codes
  | Slot_Unsuback _ => a = Packet_Unsuback id ∧ v = Ack_unit
  end.

(** After the packets [pre] and then [t], the cell of [slot] is still in the hands
    of that slot, and if it was served its ack is in [t] after [pre]. *)
Record parked (pre t : list Packet) (id : Z) (slot : AckSlot) (s : MqttSession) : Prop := {
  parked_cell : (slot_waiter slot < length (ss_waiters s))%nat;
  parked_slot id' slot' :
    ss_pending_acks s !! id' = Some slot' → slot_waiter slot' = slot_waiter slot →
    id' = id ∧ slot' = slot;
  parked_pre : pre `sublist_of` t;
  parked_served v :
    ss_waiters s !! slot_waiter slot = Some (Delivered v) →
    ∃ a, answers slot id a v ∧ pre ++ [a] `sublist_of` t;
}.

Lemma drop_sender_delivered w w' ws v :
  drop_sender w ws !! w' = Some (Delivered v) → ws !! w' = Some (Delivered v).
Proof.
  unfold drop_sender. destruct (ws !! w) as [[]|] eqn:E; try done.
  intros [(_ & ? & _)|[_ H]]%list_lookup_insert_Some; [done | done].
Qed.

Lemma drop_slots_delivered acks ws w v :
  drop_slots acks ws !! w = Some (Delivered v) → ws !! w = Some (Delivered v).
Proof.
  unfold drop_slots. induction (map_to_list acks) as [|[id slot] l IH]; cbn; [done|].
  intros H%drop_sender_delivered. by apply IH.
Qed.

Lemma length_drop_slots acks ws : length (drop_slots acks ws) = length ws.
Proof.
  unfold drop_slots. induction (map_to_list acks) as [|[id slot] l IH]; cbn; [done|].
  by rewrite length_drop_sender.
Qed.

(** Parking another waiter. *)
Lemma parked_pending_insert pre t id slot s id' slot' :
  parked pre t id slot s → slot_waiter slot' = length (ss_waiters s) →
  parked pre t id slot (pending_insert (oneshot_channel s).1 id' slot').
Proof.
  intros [Hc Hs Hp Hv] Hw. unfold pending_insert, oneshot_channel. cbn. split; cbn.
  - destruct (ss_pending_acks s !! id'); rewrite ?length_drop_sender, length_app; lia.
  - intros id1 slot1. rewrite lookup_insert_Some.
    intros [[-> ->]|[Hne H1]] Heq; [|by apply Hs]. lia.
  - done.
  - intros v Hl. apply Hv.
    assert ((ss_waiters s ++ [Waiting]) !! slot_waiter slot = Some (Delivered v)) as Hl'.
    { destruct (ss_pending_acks s !! id'); [by eapply drop_sender_delivered | done]. }
    by rewrite lookup_app_l in Hl' by done.
Qed.

Lemma parked_other pre t id slot s s' :
  parked pre t id slot s → other_step s s' → parked pre t id slot s'.
Proof.
  intros Hpk Hstep. pose proof Hpk as [Hc Hs Hp Hv]. destruct Hstep; try (by split).
  - by apply (parked_pending_insert _ _ _ _ s); [|destruct k].
  - by apply (parked_pending_insert _ _ _ _ s).
  - by apply (parked_pending_insert _ _ _ _ s).
  - unfold cancel_ack_waiter. destruct (ss_pending_acks s !! id0); [|done].
    split; cbn; [by rewrite length_drop_sender | | done |].
    + intros id1 slot1 [_ H1]%lookup_delete_Some. by apply Hs.
    + intros v Hl%drop_sender_delivered. by apply Hv.
  - split; cbn; [by rewrite length_drop_slots | | done |].
    + intros id1 slot1. by rewrite lookup_empty.
    + intros v Hl%drop_slots_delivered. by apply Hv.
  - unfold bind_set. destruct (ss_bind s); by split.
Qed.

Lemma parked_mono pre t t' id slot s :
  parked pre t id slot s → t `sublist_of` t' → parked pre t' id slot s.
Proof.
  intros [Hc Hs Hp Hv] Ht. split; [done | done | by etrans |].
  intros v (a & Ha & Hsub)%Hv. exists a. split; [done | by etrans].
Qed.

(** A slot is taken out and its waiter served with packet [p]. *)
Lemma parked_wake pre t id slot s id' slot' v p :
  parked pre t id slot s → ss_pending_acks s !! id' = Some slot' →
  answers slot' id' p v →
  parked pre (t ++ [p]) id slot
    (set_pending s (delete id' (ss_pending_acks s))
       (send_oneshot (slot_waiter slot') v (ss_waiters s))).
Proof.
  intros Hpk Hid Ha. pose proof Hpk as [Hc Hs Hp Hv]. split; cbn.
  - unfold send_oneshot. repeat case_match; rewrite ?length_insert; done.
  - intros id1 slot1 [_ H1]%lookup_delete_Some. by apply Hs.
  - by apply sublist_inserts_r.
  - intros v0 Hl. unfold send_oneshot in Hl.
    assert (ss_waiters s !! slot_waiter slot = Some (Delivered v0) →
      ∃ a, answers slot id a v0 ∧ pre ++ [a] `sublist_of` t ++ [p]) as Hold.
    { intros (a & Ha' & Hsub)%Hv. exists a. split; [done|]. by apply sublist_inserts_r. }
    destruct (ss_waiters s !! slot_waiter slot') as [[]|] eqn:E; try by apply Hold.
    apply list_lookup_insert_Some in Hl as [(Heq & [= <-] & _)|[_ Hl]]; [|by apply Hold].
    destruct (Hs id' slot' Hid Heq) as [-> ->].
    exists p. split; [done|]. by apply sublist_app.
Qed.

Lemma parked_settle pre t id slot s p :
  parked pre t id slot s → parked pre (t ++ [p]) id slot (settle s p).
Proof.
  intros Hpk.
  assert (parked pre (t ++ [p]) id slot s) as Hsame
    by (eapply parked_mono; [done | by apply sublist_inserts_r]).
  assert (∀ id' k q, (∀ w, answers (kind_slot k w) id' p (Ack_id id')) → q = wake_ack_waiter s id' k →
    parked pre (t ++ [p]) id slot q) as Hwake.
  { intros id' k q Ha ->. unfold wake_ack_waiter, wake_ack_guard, wake_ack_commit.
    destruct (ss_pending_acks s !! id') as [slot'|] eqn:E; [|done].
    case_bool_decide as Hk; [|done].
    destruct slot' as [w|w|w|w|w]; cbn in Hk; try done; injection Hk as <-;
      by apply (parked_wake _ _ _ _ _ _ _ _ _ Hpk E), (Ha w). }
  assert (∀ q id', parked pre (t ++ [p]) id slot q →
    parked pre (t ++ [p]) id slot (clear_outbound_inflight q id')) as Hclear
    by (by intros q id' [? ? ? ?]).
  destruct p; cbn [settle]; try done.
  - apply Hclear. by eapply (Hwake id0 Kind_Puback).
  - by eapply (Hwake id0 Kind_Pubrec).
  - apply Hclear. by eapply (Hwake id0 Kind_Pubcomp).
  - unfold wake_suback_waiter, wake_suback_guard, wake_suback_commit. destruct s0 as [id' codes].
    destruct (ss_pending_acks s !! id') as [[]|] eqn:E; cbn; rewrite E; try done.
    apply (parked_wake _ _ _ _ _ _ _ _ _ Hpk E). by exists codes.
  - unfold wake_unsuback_waiter, wake_unsuback_guard, wake_unsuback_commit.
    destruct (ss_pending_acks s !! id0) as [[]|] eqn:E; try done.
    by apply (parked_wake _ _ _ _ _ _ _ _ _ Hpk E).
Qed.

Lemma parked_fresh pre t id slot s :
  session_inv s → slot_waiter slot = length (ss_waiters s) → pre `sublist_of` t →
  parked pre t id slot (pending_insert (oneshot_channel s).1 id slot).
Proof.
  intros [_ [Hw _ _]] Hslot Hp. unfold pending_insert, oneshot_channel. cbn. split; cbn.
  - destruct (ss_pending_acks s !! id); rewrite ?length_drop_sender, length_app; cbn; lia.
  - intros id1 slot1. rewrite lookup_insert_Some.
    intros [[-> ->]|[Hne H1]] Heq; [done|].
    apply Hw, lookup_lt_Some in H1. lia.
  - done.
  - intros v Hl.
    assert ((ss_waiters s ++ [Waiting]) !! slot_waiter slot = Some (Delivered v)) as Hl'.
    { destruct (ss_pending_acks s !! id); [by eapply drop_sender_delivered | done]. }
    rewrite Hslot, lookup_app_r, Nat.sub_diag in Hl' by done. done.
Qed.

Lemma other_step_session s s' : other_step s s' → session_step s s'.
Proof. destruct 1; constructor. Qed.

Lemma settle_session s p : rtc session_step s (settle s p).
Proof.
  destruct p; cbn [settle]; try done;
    try (eapply rtc_l; [|apply rtc_once]; constructor); apply rtc_once; constructor.
Qed.

Lemma session_inv_rtc s s' : rtc session_step s s' → session_inv s → session_inv s'.
Proof. induction 1; eauto using session_step_inv. Qed.

(** ** The invariant of a send *)

(** A response is accounted for by the acks dispatched since the send began; [id]
    is the packet id it allocated. *)
Definition explained (req : MqttRequest) (id : Z) (t : list Packet)
    (resp : MqttResponse) : Prop :=
  match req with
  | Request_Publish r =>
      match req_qos r with
      | AtMostOnce => resp = Published Sent
      | AtLeastOnce => resp = Published (Acknowledged id) ∧ [Packet_Puback id] `sublist_of` t
      | ExactlyOnce =>
          resp = Published (Completed id) ∧
          [Packet_Pubrec id; Packet_Pubcomp id] `sublist_of` t
      end
  | Request_Subscribe _ =>
      ∃ codes, resp = Subscribed codes ∧
        [Packet_Suback (mkSubackPacket id codes)] `sublist_of` t
  | Request_Unsubscribe _ =>
      resp = Unsubscribed ∧ [Packet_Unsuback id] `sublist_of` t
  end.

(** What a response will be accounted for by, given the acks still to come. *)
Definition flow_inv (req : MqttRequest) (id : Z) (t : list Packet)
    (st : MqttChannel * SendFlow) : Prop :=
  session_inv (ch_session st.1) ∧
  let waits pre slot resp :=
    parked pre t id slot (ch_session st.1) ∧
    ∀ a v t', answers slot id a v → pre ++ [a] `sublist_of` t' →
      explained req id t' (resp v) in
  match st.2 with
  | Await_puback id' w =>
      id' = id ∧ waits [] (Slot_Puback w) (λ _, Published (Acknowledged id))
  | Await_pubrec id' w =>
      id' = id ∧ parked [] t id (Slot_Pubrec w) (ch_session st.1) ∧
      ∃ r, req = Request_Publish r ∧ req_qos r = ExactlyOnce
  | Await_pubcomp id' w =>
      id' = id ∧ waits [Packet_Pubrec id] (Slot_Pubcomp w) (λ _, Published (Completed id))
  | Await_suback id' w =>
      id' = id ∧ waits [] (Slot_Suback w)
        (λ v, match v with Ack_codes codes => Subscribed codes | _ => Unsubscribed end)
  | Await_unsuback id' w => id' = id ∧ waits [] (Slot_Unsuback w) (λ _, Unsubscribed)
  | Returned (Ok resp) => explained req id t resp
  | Returned (Err _) => True
  | Returned _ => False
  end.

Lemma explained_mono req id t t' resp :
  explained req id t resp → t `sublist_of` t' → explained req id t' resp.
Proof.
  intros He Ht. destruct req as [r| |]; cbn in *; [destruct (req_qos r)|..]; [done|..].
  1,2,4: destruct He as [-> He]; split; [done | by etrans].
  destruct He as (codes & -> & He). exists codes. split; [done | by etrans].
Qed.

Lemma flow_inv_after_send req id t ch cmd next :
  flow_inv req id t (ch, next) → flow_inv req id t (after_send (send_cmd ch cmd) next).
Proof.
  intros Hinv. unfold send_cmd. destruct (ch_actor ch); cbn; try exact Hinv.
  destruct Hinv as [Hs _]. by split.
Qed.

Lemma flow_inv_start ch req :
  session_inv (ch_session ch) →
  flow_inv req (allocate_packet_id (ch_session ch)).2 [] (send_request ch req).
Proof.
  intros Hs.
  pose proof (session_step_inv _ _ (step_allocate (ch_session ch)) Hs) as Hs0.
  destruct req as [r|fs|ts]; cbn [send_request];
    unfold send_publish, send_subscribe, send_unsubscribe, send_publish_cmd, send_packet.
  - destruct (req_qos r) eqn:Hq; cbn -[allocate_packet_id];
      [|destruct (allocate_packet_id (ch_session ch)) as [s0 id] eqn:E; cbn in *..];
      apply flow_inv_after_send; split; cbn; try done.
    + by rewrite Hq.
    + apply (park_inv s0 id); done.
    + split; [done|]. split; [by apply parked_fresh|]. intros a v t' [-> ->] Ht. by rewrite Hq.
    + apply (park_inv s0 id); done.
    + split; [done|]. split; [by apply parked_fresh | by exists r].
  - destruct (allocate_packet_id (ch_session ch)) as [s0 id] eqn:E; cbn in *.
    apply flow_inv_after_send. split; cbn; [by apply (park_inv s0 id)|].
    split; [done|]. split; [by apply parked_fresh|].
    intros a v t' (codes & -> & ->) Ht. by exists codes.
  - destruct (allocate_packet_id (ch_session ch)) as [s0 id] eqn:E; cbn in *.
    apply flow_inv_after_send. split; cbn; [by apply (park_inv s0 id)|].
    split; [done|]. split; [by apply parked_fresh|]. by intros a v t' [-> ->] Ht.
Qed.

Lemma flow_inv_poll req id t st :
  flow_inv req id t st → flow_inv req id t (send_poll st).
Proof.
  intros Hinv. destruct st as [ch flow]. unfold send_poll.
  destruct (flow_waiter flow) as [[id' w]|] eqn:Ef; [|done].
  destruct (ss_waiters (ch_session ch) !! w) as [[|v|]|] eqn:Ew; try done.
  2:{ destruct Hinv as [Hs _]. by split. }
  destruct Hinv as [Hs Hinv]. destruct flow as [i u|i u|i u|i u|i u|]; cbn in Ef, Hinv;
    try injection Ef as -> ->; try done; destruct Hinv as [-> [Hp Hr]];
    destruct (parked_served _ _ _ _ _ Hp v Ew) as (a & Ha & Ht);
    pose proof Ha as Ha'; cbn in Ha'; try destruct Ha' as (codes & -> & ->);
    try destruct Ha' as [-> ->]; cbn; split; cbn; try done.
  all: try by eapply Hr.
  - by apply (park_inv (ch_session ch) id).
  - split; [done|]. split; [by apply parked_fresh|].
    destruct Hr as (r & -> & Hq). intros a v t' [-> ->] Ht'. cbn. by rewrite Hq.
  - exact (Hr _ (Ack_codes codes) t Ha Ht).
Qed.

Lemma flow_inv_timeout req id t st :
  flow_inv req id t st → flow_inv req id t (send_timeout st).
Proof.
  intros Hinv. destruct st as [ch flow]. pose proof (flow_inv_poll _ _ _ _ Hinv) as Hp.
  unfold send_timeout. destruct (flow_waiter flow) as [[id' w]|]; [|done].
  destruct (ss_waiters (ch_session ch) !! w) as [[]|]; try done.
  destruct Hinv as [Hs _]. split; [|done].
  apply (session_step_inv _ _ (step_cancel _ id') Hs).
Qed.

(** The invariant only looks at the session, which may take any step that keeps
    the waiter parked. *)
Lemma flow_inv_session req id t t' ch ch' flow :
  t `sublist_of` t' → session_inv (ch_session ch') →
  (∀ pre slot, parked pre t id slot (ch_session ch) → parked pre t' id slot (ch_session ch')) →
  flow_inv req id t (ch, flow) → flow_inv req id t' (ch', flow).
Proof.
  intros Ht Hs Hp [_ Hf]. split; [done|]. cbn [fst snd] in *.
  destruct flow as [i u|i u|i u|i u|i u|[]]; cbv zeta in *; try done;
    try (destruct Hf as [-> [Hpk Hr]]; split; [done|]; split; [by apply Hp | done]).
  by eapply explained_mono.
Qed.

Lemma flow_step_inv req id t l st st' :
  flow_step l st st' → flow_inv req id t st → flow_inv req id (t ++ l) st'.
Proof.
  intros Hstep Hinv.
  destruct Hstep as [ch flow p|ch flow s Hs|ch flow ch' Hs|st|st]; rewrite ?app_nil_r;
    [| | | by apply flow_inv_poll | by apply flow_inv_timeout].
  all: pose proof Hinv as [Hsi _]; eapply (flow_inv_session _ _ t); try exact Hinv;
    cbn [ch_session set_session fst] in *.
  - by apply sublist_inserts_r.
  - eapply session_inv_rtc; [apply settle_session | done].
  - intros pre slot. apply parked_settle.
  - done.
  - eauto using session_step_inv, other_step_session.
  - intros pre slot Hp. by eapply parked_other.
  - done.
  - by rewrite Hs.
  - by rewrite Hs.
Qed.

Lemma flow_run_extends req id st t0 t st' :
  flow_run st t st' → flow_inv req id t0 st → flow_inv req id (t0 ++ t) st'.
Proof.
  induction 1; intros Hinv; [by rewrite app_nil_r|]. rewrite app_assoc. eauto using flow_step_inv.
Qed.

Lemma flow_run_inv req id st t st' :
  flow_run st t st' → flow_inv req id [] st → flow_inv req id t st'.
Proof. apply flow_run_extends. Qed.

Lemma flow_inv_parked req id t ch flow id' w :
  flow_inv req id t (ch, flow) → flow_waiter flow = Some (id', w) →
  id' = id ∧ ∃ pre slot, slot_waiter slot = w ∧ parked pre t id slot (ch_session ch).
Proof.
  intros [_ Hf] Hw. destruct flow; cbn in Hw; try done; injection Hw as -> ->;
    destruct Hf as [-> [Hp _]]; (split; [done|]); eexists _, _; (split; [|exact Hp]); done.
Qed.

(** Right after it was resumed, a send that is still suspended waits on a cell
    that nobody has resolved. *)
Lemma send_poll_waiting req id t st id' w :
  flow_inv req id t st → flow_waiter (send_poll st).2 = Some (id', w) →
  id' = id ∧ ss_waiters (ch_session (send_poll st).1) !! w = Some Waiting.
Proof.
  intros Hinv Hw. destruct st as [ch flow]. unfold send_poll in *.
  destruct (flow_waiter flow) as [[i u]|] eqn:Ef; [|by cbn in Hw; rewrite Ef in Hw].
  destruct (flow_inv_parked _ _ _ _ _ _ _ Hinv Ef) as (-> & pre & slot & <- & Hp).
  destruct (lookup_lt_is_Some_2 _ _ (parked_cell _ _ _ _ _ Hp)) as [cell Hcell].
  rewrite Hcell in *. destruct cell as [|v|]; cbn [snd fst] in *; [| |done].
  { rewrite Ef in Hw. injection Hw as <- <-. done. }
  pose proof Hinv as [Hs Hf].
  destruct flow as [i u|i u|i u|i u|i u|]; cbn in Ef, Hf; try done;
    injection Ef as -> ->; destruct Hf as [_ [Hpk _]];
    destruct (parked_served _ _ _ _ _ Hpk v Hcell) as (a & Ha & _); cbn in Ha;
    try destruct Ha as (codes & -> & ->); try destruct Ha as [-> ->]; cbn in Hw; try done.
  injection Hw as <- <-. split; [done|].
  apply (park_publish_cells (ch_session ch) id Kind_Pubcomp Hs).
Qed.

Lemma send_poll_not_timeout st :
  (send_poll st).2 = Returned (Err (Timeout Timeout_Ack)) →
  st.2 = Returned (Err (Timeout Timeout_Ack)).
Proof.
  destruct st as [ch flow]. unfold send_poll, send_resolved.
  repeat case_match; cbn; done.
Qed.

(** One resumption and one expiry finish a send. *)
Lemma flow_inv_returns req id t st :
  flow_inv req id t st →
  ∃ ch' r, send_timeout (send_poll st) = (ch', Returned r) ∧ returns r = true ∧
    (r = Err (Timeout Timeout_Ack) →
       st.2 = Returned r ∨ ss_pending_acks (ch_session ch') !! id = None).
Proof.
  intros Hinv.
  pose proof (λ i w, send_poll_waiting _ _ _ _ i w Hinv) as Hpw. pose proof (send_poll_not_timeout st) as Hnt.
  destruct (flow_inv_poll _ _ _ _ Hinv) as [_ Hf].
  destruct (send_poll st) as [ch1 flow1]. cbn [fst snd] in *. unfold send_timeout.
  destruct (flow_waiter flow1) as [[i w]|] eqn:Ef.
  - destruct (Hpw i w eq_refl) as [-> Hcell].
    rewrite Hcell. eexists _, _. split; [done|]. split; [done|]. intros _. right. cbn.
    unfold cancel_ack_waiter.
    destruct (ss_pending_acks (ch_session ch1) !! _) eqn:E; [apply lookup_delete_eq | done].
  - destruct flow1 as [| | | | |r]; try done. exists ch1, r. split; [done|].
    split; [by destruct r|]. intros ->. left. by apply Hnt.
Qed.

(** ** Theorems *)

(** A send reports success only for what the peer acknowledged.  Whatever is
    dispatched, closed, cancelled or sent on the connection meanwhile, a QoS 1
    publish is reported acknowledged only after a PUBACK with its packet id, a
    QoS 2 publish completed only after a PUBREC and then a PUBCOMP with it, a
    subscription granted only with the codes of the SUBACK for it; and a send
    never panics. *)
Theorem send_ok_explained ch req t ch' r :
  session_inv (ch_session ch) →
  flow_run (send_request ch req) t (ch', Returned r) →
  returns r = true ∧
  ∀ resp, r = Ok resp → explained req (allocate_packet_id (ch_session ch)).2 t resp.
Proof.
  intros Hs Hrun. pose proof (flow_run_inv _ _ _ _ _ Hrun (flow_inv_start ch req Hs)) as [_ Hf].
  cbn in Hf. by destruct r; split; try done; intros ? [= <-].
Qed.

(** A send always returns: at any point of any run, one resumption and one
    expiry of the ack timer (two timers at most for the whole of a QoS 2 publish)
    finish it, and a timeout leaves no slot behind under its id. *)
Theorem send_returns ch req t st :
  session_inv (ch_session ch) → flow_run (send_request ch req) t st →
  ∃ ch' r, send_timeout (send_poll st) = (ch', Returned r) ∧ returns r = true ∧
    (r = Err (Timeout Timeout_Ack) →
       st.2 = Returned r ∨
       ss_pending_acks (ch_session ch') !! (allocate_packet_id (ch_session ch)).2 = None).
Proof.
  intros Hs Hrun. by eapply flow_inv_returns, flow_run_inv, flow_inv_start.
Qed.

(** The dispatch of one inbound packet, as the send sees it. *)
Definition inbound (st : MqttChannel * SendFlow) (p : Packet) : MqttChannel * SendFlow :=
  (set_session st.1 (settle (ch_session st.1) p), st.2).

Lemma wake_parked s id k w :
  session_inv s → ss_pending_acks s !! id = Some (kind_slot k w) →
  let s' := wake_ack_waiter s id k in
  session_inv s' ∧ ss_pending_acks s' !! id = None ∧
  ss_waiters s' !! w = Some (Delivered (Ack_id id)).
Proof.
  intros Hinv Hid. cbv zeta. split; [apply (session_step_inv s); [constructor | done]|].
  pose proof (waits_parked _ _ (proj2 Hinv) id _ Hid) as Hcell.
  unfold wake_ack_waiter, wake_ack_guard, wake_ack_commit. rewrite Hid.
  destruct k; cbn [kind_slot slot_kind slot_waiter] in *;
    rewrite bool_decide_true by done; cbn; (split; [apply lookup_delete_eq|]);
    unfold send_oneshot; rewrite Hcell, list_lookup_insert_eq; eauto using lookup_lt_Some.
Qed.

Lemma send_publish_qos2 ch r :
  session_inv (ch_session ch) → ch_actor ch ≠ Exited → req_qos r = ExactlyOnce →
  let id := (allocate_packet_id (ch_session ch)).2 in
  ∃ ch1 w, send_request ch (Request_Publish r) = (ch1, Await_pubrec id w) ∧
    session_inv (ch_session ch1) ∧
    ss_pending_acks (ch_session ch1) !! id = Some (Slot_Pubrec w) ∧
    ch_queue ch1 = ch_queue ch ++ [Cmd_Publish (mkPublishPacket (req_topic r) (req_payload r)
      false ExactlyOnce (req_retain r) (Some id))].
Proof.
  intros Hs Ha Hq. cbn [send_request]. unfold send_publish. rewrite Hq.
  rewrite bool_decide_false by done. cbn -[allocate_packet_id].
  pose proof (session_step_inv _ _ (step_allocate (ch_session ch)) Hs) as Hs0.
  destruct (allocate_packet_id (ch_session ch)) as [s0 id]. cbn in *.
  unfold send_publish_cmd, send_cmd. cbn.
  destruct (ch_actor ch); [| |done]; eexists _, (length (ss_waiters s0));
    (split; [reflexivity|]); (split_and!; [by apply (park_inv s0 id) | apply lookup_insert_eq | done]).
Qed.

(** A QoS 2 send whose PUBREC has arrived is resumed: it waits for PUBCOMP. *)
Lemma send_poll_pubrec ch id w :
  session_inv (ch_session ch) →
  ss_waiters (ch_session ch) !! w = Some (Delivered (Ack_id id)) →
  ∃ ch' w', send_poll (ch, Await_pubrec id w) = (ch', Await_pubcomp id w') ∧
    session_inv (ch_session ch') ∧
    ss_pending_acks (ch_session ch') !! id = Some (Slot_Pubcomp w') ∧
    ss_waiters (ch_session ch') !! w' = Some Waiting.
Proof.
  intros Hs Hw. unfold send_poll. cbn [flow_waiter]. rewrite Hw.
  eexists _, _. split; [reflexivity|]. cbn.
  destruct (park_publish_cells (ch_session ch) id Kind_Pubcomp Hs) as [_ Hc].
  split; [by apply (park_inv (ch_session ch) id)|]. split; [apply lookup_insert_eq | exact Hc].
Qed.

Lemma send_qos2_completes ch1 id w :
  session_inv (ch_session ch1) →
  ss_pending_acks (ch_session ch1) !! id = Some (Slot_Pubrec w) →
  let st := inbound (ch1, Await_pubrec id w) (Packet_Pubrec id) in
  (send_poll (inbound (send_poll st) (Packet_Pubcomp id))).2 =
    Returned (Ok (Published (Completed id))).
Proof.
  intros Hs1 Hid. destruct (wake_parked _ id Kind_Pubrec w Hs1 Hid) as (Hs2 & _ & Hcell).
  cbv zeta. change (inbound (ch1, Await_pubrec id w) (Packet_Pubrec id)) with
    (set_session ch1 (wake_ack_waiter (ch_session ch1) id Kind_Pubrec), Await_pubrec id w).
  destruct (send_poll_pubrec (set_session ch1 (wake_ack_waiter (ch_session ch1) id Kind_Pubrec))
    id w Hs2 Hcell) as (ch3 & w3 & -> & Hs3 & Hid3 & _).
  destruct (wake_parked _ id Kind_Pubcomp w3 Hs3 Hid3) as (_ & _ & Hcell3).
  unfold inbound, send_poll. cbn [fst snd flow_waiter settle ch_session set_session
    clear_outbound_inflight set_inflight ss_waiters]. by rewrite Hcell3.
Qed.

(** A QoS 2 publish on a live connection completes when the PUBREC resumes it
    and the PUBCOMP arrives after that.  If the PUBCOMP is dispatched before the
    resumed send has parked its second waiter, nobody is woken: the handshake is
    complete on the wire, and the send fails with an ack timeout. *)
Theorem send_qos2_pubcomp_race ch r :
  session_inv (ch_session ch) → ch_actor ch ≠ Exited → req_qos r = ExactlyOnce →
  let id := (allocate_packet_id (ch_session ch)).2 in
  let st := inbound (send_request ch (Request_Publish r)) (Packet_Pubrec id) in
  (send_poll (inbound (send_poll st) (Packet_Pubcomp id))).2 =
    Returned (Ok (Published (Completed id))) ∧
  (send_timeout (send_poll (inbound st (Packet_Pubcomp id)))).2 =
    Returned (Err (Timeout Timeout_Ack)).
Proof.
  intros Hs Ha Hq id st.
  destruct (send_publish_qos2 ch r Hs Ha Hq) as (ch1 & w & Hst & Hs1 & Hid & _). fold id in Hst, Hid.
  destruct (wake_parked _ id Kind_Pubrec w Hs1 Hid) as (Hs2 & Hnone & Hcell).
  unfold st. rewrite Hst. split; [by apply send_qos2_completes|].
  change (inbound (ch1, Await_pubrec id w) (Packet_Pubrec id)) with
    (set_session ch1 (wake_ack_waiter (ch_session ch1) id Kind_Pubrec), Await_pubrec id w).
  set (s2 := wake_ack_waiter _ _ _) in *.
  assert (settle s2 (Packet_Pubcomp id) = clear_outbound_inflight s2 id) as Hset.
  { cbn [settle]. unfold wake_ack_waiter, wake_ack_guard. by rewrite Hnone. }
  unfold inbound. cbn [fst snd ch_session set_session]. rewrite Hset.
  destruct (send_poll_pubrec (set_session (set_session ch1 s2)
    (clear_outbound_inflight s2 id)) id w) as (ch3 & w3 & -> & _ & _ & Hw3);
    [by destruct Hs2 | done |].
  unfold send_timeout. cbn [flow_waiter]. by rewrite Hw3.
Qed.

(** ** Witnesses *)

Definition demo_request (q : QoS) : MqttRequest :=
  Request_Publish (mkPublishRequest (str_of "t") (str_of "on") q false).

Lemma demo_channel_session : session_inv (ch_session demo_channel).
Proof.
  split; [vm_compute; split; congruence | apply waits_ok_empty; intros w; by destruct w].
Qed.

(** A QoS 1 send, a PUBACK for another id, then the PUBACK for its own. *)
Definition demo_flow : MqttChannel * SendFlow :=
  send_poll (inbound (inbound (send_request demo_channel (demo_request AtLeastOnce))
    (Packet_Puback 7)) (Packet_Puback 1)).

Lemma demo_flow_run :
  flow_run (send_request demo_channel (demo_request AtLeastOnce))
    [Packet_Puback 7; Packet_Puback 1] demo_flow.
Proof.
  apply (flow_run_step _ [Packet_Puback 7; Packet_Puback 1] []
    (inbound (inbound (send_request demo_channel (demo_request AtLeastOnce))
      (Packet_Puback 7)) (Packet_Puback 1))); [|apply flow_poll].
  apply (flow_run_step _ [Packet_Puback 7] [Packet_Puback 1] (inbound
    (send_request demo_channel (demo_request AtLeastOnce)) (Packet_Puback 7)));
    [|constructor].
  apply (flow_run_step _ [] [Packet_Puback 7]
    (send_request demo_channel (demo_request AtLeastOnce))); constructor.
Qed.

Lemma send_ok_explained_witness :
  explained (demo_request AtLeastOnce) 1 [Packet_Puback 7; Packet_Puback 1]
    (Published (Acknowledged 1)).
Proof.
  apply (send_ok_explained demo_channel (demo_request AtLeastOnce)
    [Packet_Puback 7; Packet_Puback 1] demo_flow.1 (Ok (Published (Acknowledged 1))));
    [apply demo_channel_session | exact demo_flow_run | reflexivity].
Defined.

Lemma send_returns_witness :
  ∃ ch' r, send_timeout (send_poll demo_flow) = (ch', Returned r) ∧ returns r = true.
Proof.
  destruct (send_returns demo_channel (demo_request AtLeastOnce)
    [Packet_Puback 7; Packet_Puback 1] demo_flow demo_channel_session demo_flow_run)
    as (ch' & r & H1 & H2 & _).
  exists ch', r. exact (conj H1 H2).
Defined.

Lemma send_qos2_pubcomp_race_witness :
  (send_timeout (send_poll (inbound (inbound
    (send_request demo_channel (demo_request ExactlyOnce)) (Packet_Pubrec 1))
    (Packet_Pubcomp 1)))).2 = Returned (Err (Timeout Timeout_Ack)).
Proof.
  apply (send_qos2_pubcomp_race demo_channel
    (mkPublishRequest (str_of "t") (str_of "on") ExactlyOnce false));
    [apply demo_channel_session | discriminate | reflexivity].
Defined.
