(* ===== verification/Protocol.v ===== *)
(** [src/src/protocol/mod.rs]: the protocol value, how channels are opened and
    acquired, and what both roles do with an inbound PUBLISH before any user
    code runs.  [handle] itself, which picks the role and closes the channel, is
    at the end of [Client.v]. *)

From S2P Require Import Prelude.
From S2P Require Import Types.
From S2P Require Import Wire.
From S2P Require Import Session.
From S2P Require Import Channel.
From S2P Require Import Broker.

(** ** MqttProtocol

    The channel slot is shared by the clones of a client-mode protocol value; it
    holds the connection id of the channel that was stored first.  [slot] is its
    content, [None] while unset. *)
Record MqttProtocol := mkProtocol {
  mp_role : ProtocolRole;
  mp_session_channel : option (option Z);
}.

Definition protocol_server : MqttProtocol := mkProtocol Role_Server None.
Definition protocol_client : MqttProtocol := mkProtocol Role_Client (Some None).

(** In milliseconds. *)
Definition CONNECT_RECEIVE_TIMEOUT : Z := 10 * 1000.
Definition DEFAULT_ACK_TIMEOUT : Z := 30 * 1000.

Definition protocol_name : string := "mqtt".
Definition protocol_role (p : MqttProtocol) : ProtocolRole := mp_role p.
Definition default_connection_timeout : option Z := None.

(** [detect]: is the packet type of the first byte CONNECT? *)
Definition detect (initial_bytes : bytes) : bool :=
  match head initial_bytes with
  | Some b => b ≫ 4 =? 1
  | None => false
  end.

(** [OnceLock::set]. *)
Definition once_set (slot : option Z) (v : Z) : option Z :=
  match slot with Some v' => Some v' | None => Some v end.

Definition open_channel (p : MqttProtocol) (n : Z) (w : World) (rd : reader) (wr : writer)
    (local remote : option SocketAddr) : MqttProtocol * Z * World * Z :=
  let '(n, ch) := channel_new n rd wr local remote (mp_role p) in
  let id := ch_connection_id ch in
  let p :=
    match mp_session_channel p with
    | Some slot => mkProtocol (mp_role p) (Some (once_set slot id))
    | None => p
    end in
  (p, n, set_channels w (<[id := ch]> (w_channels w)), id).

Definition acquire_channel (p : MqttProtocol) : mresult Z :=
  slot ← ok_or (mp_session_channel p)
           (Configuration "acquire_channel called on Server-mode MqttProtocol");
  ok_or slot (NotConnected "call client.run_wire(wire) to establish session first").

(** ** Own channel

    A task that holds a channel runs [f] on it.  A held channel exists, so the
    other case does not arise. *)
Definition on_channel {A} (w : World) (id : Z)
    (f : MqttChannel → MqttChannel * mresult A) : World * mresult A :=
  match w_channels w !! id with
  | Some ch =>
      let '(ch', r) := f ch in (set_channels w (<[id := ch']> (w_channels w)), r)
  | None => (w, Panic)
  end.

(** A call on the session of the channel. *)
Definition with_session (g : MqttSession → MqttSession) (ch : MqttChannel) :
    MqttChannel * mresult unit :=
  (set_session ch (g (ch_session ch)), Ok tt).

(** ** ack_inbound_publish_pre_chain *)
Definition ack_inbound_publish_pre_chain (publish : PublishPacket) (ch : MqttChannel) :
    MqttChannel * mresult unit :=
  match pub_qos publish with
  | AtMostOnce => (ch, Ok tt)
  | AtLeastOnce =>
      match pub_packet_id publish with
      | Some id => send_packet ch (Packet_Puback id)
      | None => (ch, Ok tt)
      end
  | ExactlyOnce =>
      match pub_packet_id publish with
      | Some id =>
          let ch := set_session ch (stash_qos2_publish (ch_session ch) id
                      (incoming_from_packet publish)) in
          send_packet ch (Packet_Pubrec id)
      | None => (ch, Ok tt)
      end
  end.

(** ** Lemmas *)

(** The first connection of a client-mode protocol stays the one that is
    acquired. *)
Lemma once_set_first slot v v' : once_set (once_set slot v) v' = once_set slot v.
Proof. by destruct slot. Qed.

Lemma send_packet_live ch p :
  ch_actor ch ≠ Exited →
  send_packet ch p = (set_queue ch (ch_queue ch ++ [Cmd_Packet p]), Ok tt).
Proof. intros Ha. unfold send_packet, send_cmd. by destruct (ch_actor ch). Qed.

Lemma on_channel_Some {A} w id ch (f : MqttChannel → MqttChannel * mresult A) :
  w_channels w !! id = Some ch →
  on_channel w id f = (set_channels w (<[id := (f ch).1]> (w_channels w)), (f ch).2).
Proof. intros Hch. unfold on_channel. rewrite Hch. by destruct (f ch). Qed.

Lemma on_channel_broker {A} w id (f : MqttChannel → MqttChannel * mresult A) :
  w_broker (on_channel w id f).1 = w_broker w.
Proof. unfold on_channel. destruct (w_channels w !! id) as [ch|]; [by destruct (f ch) | done]. Qed.
