(* ===== verification/Server.v ===== *)
(** [src/src/protocol/server.rs]: the broker's side of a connection: CONNECT
    admission, the read loop with its keep-alive deadline, the dispatch of
    inbound packets, the chain worker and the teardown.

    [handle_server] runs over the [World].  What its timers and its [select!]
    decide is given as events; between two of its own steps the rest of the
    program may change the world.  The URL tree and the endpoints behind it are
    framework and user code: [walk] lists the nodes a topic's cursor yields, and
    [node_run] is what running one gives, [None] for an error. *)

From stdpp Require Import pretty.
From S2P Require Import Prelude.
From S2P Require Import Types.
From S2P Require Import Safety.
From S2P Require Import Wire.
From S2P Require Import Decode.
From S2P Require Import Codec.
From S2P Require Import Receiver.
From S2P Require Import Session.
From S2P Require Import Channel.
From S2P Require Import Subscriptions.
From S2P Require Import Broker.
From S2P Require Import Context.
From S2P Require Import Send.
From S2P Require Import Protocol.

(** ** Keep-alive *)

(** In milliseconds; the product is a [u64]. *)
Definition server_read_deadline (keep_alive : Z) : option Z :=
  if keep_alive =? 0 then None else Some (keep_alive * 1500).

Inductive ReadOutcome :=
  | Read_Packet (p : Packet)
  | Read_Failed (e : MqttError)
  | Read_DeadlineElapsed.

(** [elapsed]: the timer fires before the read is done.  The dropped read may have
    consumed bytes, but the loop ends then and the reader is not used again.
    [None] stands for a read that panics, which [read_packet_before_total]
    excludes. *)
Definition read_packet_before (rd : reader) (max_size : Z) (deadline : option Z)
    (elapsed : bool) : option ReadOutcome * reader :=
  match deadline, elapsed with
  | Some _, true => (Some Read_DeadlineElapsed, rd)
  | _, _ =>
      let '(r, rd) := read_packet max_size rd in
      (match r with
       | Ok packet => Some (Read_Packet packet)
       | Err error => Some (Read_Failed error)
       | Panic | Loop => None
       end, rd)
  end.

(** ** The connection *)

(** The locals of [handle_server] once the session is registered; [sc_worker]
    says that the chain worker still receives, [sc_at_select] that the open flag
    was tested and the loop waits in its [select!]. *)
Record ServerConn := mkServerConn {
  sc_channel : Z;
  sc_client_id : str;
  sc_max_packet_size : Z;
  sc_read_deadline : option Z;
  sc_reader : reader;
  sc_work : list PublishPacket;
  sc_worker : bool;
  sc_at_select : bool;
}.

Definition set_work (c : ServerConn) (work : list PublishPacket) : ServerConn :=
  mkServerConn (sc_channel c) (sc_client_id c) (sc_max_packet_size c) (sc_read_deadline c)
    (sc_reader c) work (sc_worker c) (sc_at_select c).

(** Leaves the [select!] with the reader [rd]. *)
Definition set_conn_reader (c : ServerConn) (rd : reader) : ServerConn :=
  mkServerConn (sc_channel c) (sc_client_id c) (sc_max_packet_size c) (sc_read_deadline c)
    rd (sc_work c) (sc_worker c) false.

Definition enter_select (c : ServerConn) : ServerConn :=
  mkServerConn (sc_channel c) (sc_client_id c) (sc_max_packet_size c) (sc_read_deadline c)
    (sc_reader c) (sc_work c) (sc_worker c) true.

Definition drop_worker (c : ServerConn) : ServerConn :=
  mkServerConn (sc_channel c) (sc_client_id c) (sc_max_packet_size c) (sc_read_deadline c)
    (sc_reader c) [] false (sc_at_select c).

Section server.
Context `{DashMapIter}.
Context {Node : Type} (walk : str → list Node).
Context (node_run : Node → MqttContext Node → option (MqttContext Node)).

(** ** Admission *)

Definition keep_alive_refused (safety : MqttSafety) (keep_alive : Z) : bool :=
  if keep_alive =? 0 then negb (allows_disabled_keep_alive safety)
  else max_keep_alive safety <? keep_alive.

Definition connack (session_present : bool) (return_code : ConnackReturnCode) : Packet :=
  Packet_Connack (mkConnackPacket session_present return_code).

(** The client id of the session: the declared one, or one made from the
    connection id. *)
Definition assigned_client_id (connect : ConnectPacket) (connection_id : Z) : str :=
  if bool_decide (conn_client_id connect = [])
  then str_of "hotaru-auto-" ++ str_of (pretty connection_id)
  else conn_client_id connect.

Definition will_of (connect : ConnectPacket) : option WillMessage :=
  (λ w, mkWillMessage (will_topic w) (will_payload w) (will_qos w) (will_retain w))
    <$> conn_will connect.

(** From the CONNECT to the start of the loop. *)
(** Policy, authentication and the registration of the session; what is left to send is
    the accepting CONNACK. *)
Definition admit_register (w : World) (id : Z) (rd : reader) (connect : ConnectPacket) :
    World * mresult (ServerConn * bool) :=
  let safety := br_safety (w_broker w) in
  if keep_alive_refused safety (conn_keep_alive connect) then
    let '(w, _) := on_channel w id (λ ch, send_packet ch (connack false ServerUnavailable)) in
    (w, Err (Protocol (ConnectionRefused ServerUnavailable)))
  else
    let auth := authenticate (w_broker w) connect
                  (w_channels w !! id ≫= ch_remote_addr) in
    if negb (auth_accepted auth) then
      let '(w, _) := on_channel w id
        (λ ch, send_packet ch (connack false (auth_return_code auth))) in
      (w, Err (Protocol (ConnectionRefused (auth_return_code auth))))
    else
      let client_id := assigned_client_id connect id in
      let '(w, session_present) :=
        register_session w client_id id (will_of connect) (conn_clean_session connect) in
      let '(w, _) := on_channel w id (with_session (λ s,
        (bind_set s (mkBindInfo client_id (conn_keep_alive connect))).1)) in
      (w, Ok (mkServerConn id client_id (max_packet_size safety)
                (server_read_deadline (conn_keep_alive connect)) rd [] true false,
              session_present)).

(** The accepting CONNACK; if it cannot be queued the session goes again. *)
Definition admit_connack (w : World) (c : ServerConn) (session_present : bool) :
    World * mresult ServerConn :=
  let '(w, r) := on_channel w (sc_channel c)
    (λ ch, send_packet ch (connack session_present Accepted)) in
  match r with
  | Ok _ => (w, Ok c)
  | Err e => (unregister_session w (sc_client_id c) (sc_channel c) false, Err e)
  | Panic => (w, Panic)
  | Loop => (w, Loop)
  end.

Definition then_connack (res : World * mresult (ServerConn * bool)) : World * mresult ServerConn :=
  match res with
  | (w, Ok (c, session_present)) => admit_connack w c session_present
  | (w, Err e) => (w, Err e)
  | (w, Panic) => (w, Panic)
  | (w, Loop) => (w, Loop)
  end.

Definition admit_connect (w : World) (id : Z) (rd : reader) (connect : ConnectPacket) :
    World * mresult ServerConn :=
  then_connack (admit_register w id rd connect).

(** [has_broker]: a broker is registered in the runtime; [timed_out]: the timer
    of the CONNECT read fires first. *)
Definition admit_begin (has_broker timed_out : bool) (w : World) (id : Z) :
    World * mresult (ServerConn * bool) :=
  if negb has_broker then (w, Err (Configuration "Broker not registered"))
  else
    let '(w, taken) := on_channel w id (λ ch,
      let '(ch, r) := take_reader ch in
      (ch, ok_or r (Configuration "reader already taken"))) in
    match taken with
    | Ok rd =>
        if timed_out then (w, Err (Timeout Timeout_ConnectReceive))
        else
          match read_packet (max_packet_size (br_safety (w_broker w))) rd with
          | (Ok (Packet_Connect connect), rd) => admit_register w id rd connect
          | (Ok _, _) => (w, Err (Protocol ExpectedConnect))
          | (Err e, _) => (w, Err e)
          | (Panic, _) => (w, Panic)
          | (Loop, _) => (w, Loop)
          end
    | Err e => (w, Err e)
    | Panic => (w, Panic)
    | Loop => (w, Loop)
    end.

Definition admit_peer (has_broker timed_out : bool) (w : World) (id : Z) :
    World * mresult ServerConn :=
  then_connack (admit_begin has_broker timed_out w id).

(** ** Dispatch *)

(** [publish_work_queue.send]. *)
Definition send_work (c : ServerConn) (publish : PublishPacket) :
    ServerConn * mresult unit :=
  if sc_worker c then (set_work c (sc_work c ++ [publish]), Ok tt)
  else (c, Err ChannelClosed).

(** Runs [f] on the own channel and then, unless it failed, [k]. *)
Definition then_channel (w : World) (c : ServerConn)
    (f : MqttChannel → MqttChannel * mresult unit)
    (k : World → World * ServerConn * mresult unit) : World * ServerConn * mresult unit :=
  let '(w, r) := on_channel w (sc_channel c) f in
  match r with Ok _ => k w | _ => (w, c, r) end.

(** A stored QoS 2 publish on its way to the worker. *)
Definition released_publish (packet_id : Z) (stored : IncomingPublish) : PublishPacket :=
  mkPublishPacket (inc_topic stored) (inc_payload stored) false (inc_qos stored)
    (inc_retain stored) (Some packet_id).

Definition dispatch_server_inbound (w : World) (c : ServerConn) (packet : Packet) :
    World * ServerConn * mresult unit :=
  match packet with
  | Packet_Publish publish =>
      then_channel w c (ack_inbound_publish_pre_chain publish) (λ w,
        if bool_decide (pub_qos publish = ExactlyOnce) then (w, c, Ok tt)
        else let '(c, r) := send_work c publish in (w, c, r))
  | Packet_Subscribe s =>
      let filters := map (λ ts, mkTopicFilter (ts_topic ts) (ts_qos ts)) (sub_subscriptions s) in
      let '(w, codes) := subscribe w (sc_client_id c) (sc_channel c) filters in
      then_channel w c (λ ch, send_packet ch
        (Packet_Suback (mkSubackPacket (sub_packet_id s) codes))) (λ w, (w, c, Ok tt))
  | Packet_Unsubscribe u =>
      let w := unsubscribe w (sc_client_id c) (sc_channel c) (unsub_topics u) in
      then_channel w c (λ ch, send_packet ch (Packet_Unsuback (unsub_packet_id u)))
        (λ w, (w, c, Ok tt))
  | Packet_Pingreq =>
      then_channel w c (λ ch, send_packet ch Packet_Pingresp) (λ w, (w, c, Ok tt))
  | Packet_Puback id =>
      then_channel w c (with_session (λ s,
        clear_outbound_inflight (wake_ack_waiter s id Kind_Puback) id)) (λ w, (w, c, Ok tt))
  | Packet_Pubrec id =>
      then_channel w c (with_session (λ s, wake_ack_waiter s id Kind_Pubrec)) (λ w,
        then_channel w c (λ ch, send_packet ch (Packet_Pubrel id)) (λ w, (w, c, Ok tt)))
  | Packet_Pubcomp id =>
      then_channel w c (with_session (λ s,
        clear_outbound_inflight (wake_ack_waiter s id Kind_Pubcomp) id)) (λ w, (w, c, Ok tt))
  | Packet_Pubrel id =>
      let '(w, taken) := on_channel w (sc_channel c) (λ ch,
        let '(s, stored) := take_qos2_publish (ch_session ch) id in
        (set_session ch s, Ok stored)) in
      let '(c, sent) :=
        match taken with
        | Ok (Some stored) => send_work c (released_publish id stored)
        | Ok None => (c, Ok tt)
        | Err e => (c, Err e)
        | Panic => (c, Panic)
        | Loop => (c, Loop)
        end in
      match sent with
      | Ok _ =>
          then_channel w c (λ ch, send_packet ch (Packet_Pubcomp id)) (λ w, (w, c, Ok tt))
      | _ => (w, c, sent)
      end
  | Packet_Connect _ => (w, c, Err (Protocol SessionAlreadyBound))
  | _ => (w, c, Ok tt)
  end.

(** ** Endpoint chains and the worker *)

(** One turn of the loop over the matching nodes: the packet so far and whether
    it is still to be fanned out. *)
Definition chain_turn (id : Z) (st : PublishPacket * bool) (node : Node) :
    PublishPacket * bool :=
  let '(current, fanout) := st in
  let ctx := set_endpoint (install_channel
    (set_incoming context_default (incoming_from_packet current)) id) node in
  match node_run node ctx with
  | Some out =>
      let fanout := if negb (should_fanout out) then false else fanout in
      match ctx_incoming out with
      | Some inc =>
          (mkPublishPacket (inc_topic inc) (inc_payload inc) (pub_dup current) (inc_qos inc)
             (inc_retain inc) (pub_packet_id current), fanout)
      | None => (current, fanout)
      end
  | None => (current, false)
  end.

Definition run_server_chain_then_decide_fanout (id : Z) (publish : PublishPacket) :
    option PublishPacket :=
  let '(current, fanout) := foldl (chain_turn id) (publish, true) (walk (pub_topic publish)) in
  if fanout then Some current else None.

(** One turn of [run_publish_chain_worker]. *)
Definition worker_turn (id : Z) (client_id : str) (w : World) (p : PublishPacket) : World :=
  match run_server_chain_then_decide_fanout id p with
  | Some packet => publish w client_id packet
  | None => w
  end.

(** The worker takes the next publish off its queue. *)
Definition run_publish_chain_worker (w : World) (c : ServerConn) : option (World * ServerConn) :=
  match sc_work c with
  | p :: work => Some (worker_turn (sc_channel c) (sc_client_id c) w p, set_work c work)
  | [] => None
  end.

(** ** The loop and the teardown *)

Inductive LoopEvent :=
  | Ev_Test                         (* the head of the loop: [is_open] *)
  | Ev_Read (elapsed : bool)        (* the read branch, by packet or by deadline *)
  | Ev_Shutdown                     (* [shutdown.notified()] *)
  | Ev_Worker                       (* the worker task takes a turn *)
  | Ev_WorkerGone                   (* user code panicked in the worker task *)
  | Ev_Env (f : World → World).     (* other tasks *)

(** How the loop ended: by [break], with the [graceful] flag and
    [terminal_error], or by a panic. *)
Inductive loop_exit :=
  | Broke (graceful : bool) (terminal_error : option MqttError)
  | Panicked.

(** What one read outcome does to the loop. *)
Definition loop_read (w : World) (c : ServerConn) (outcome : ReadOutcome) :
    World * ServerConn * option loop_exit :=
  match outcome with
  | Read_DeadlineElapsed => (w, c, Some (Broke false None))
  | Read_Failed (Io _) => (w, c, Some (Broke false None))
  | Read_Failed error => (w, c, Some (Broke false (Some error)))
  | Read_Packet Packet_Disconnect => (w, c, Some (Broke true None))
  | Read_Packet inbound =>
      match dispatch_server_inbound w c inbound with
      | (w, c, Ok _) => (w, c, None)
      | (w, c, Err error) => (w, c, Some (Broke false (Some error)))
      | (w, c, _) => (w, c, Some Panicked)
      end
  end.

Definition channel_is_open (w : World) (id : Z) : bool :=
  match w_channels w !! id with Some ch => is_open ch | None => false end.

(** One event of the running connection; the events of the [select!] only happen
    in it. *)
Definition loop_turn (w : World) (c : ServerConn) (ev : LoopEvent) :
    World * ServerConn * option loop_exit :=
  match ev with
  | Ev_Env f => (f w, c, None)
  | Ev_WorkerGone => (w, drop_worker c, None)
  | Ev_Worker =>
      match run_publish_chain_worker w c with
      | Some (w, c) => (w, c, None)
      | None => (w, c, None)
      end
  | Ev_Test =>
      if negb (channel_is_open w (sc_channel c)) then (w, c, Some (Broke false None))
      else (w, enter_select c, None)
  | Ev_Shutdown =>
      if sc_at_select c then (w, c, Some (Broke false None)) else (w, c, None)
  | Ev_Read elapsed =>
      if sc_at_select c then
        match read_packet_before (sc_reader c) (sc_max_packet_size c) (sc_read_deadline c)
                elapsed with
        | (Some outcome, rd) => loop_read w (set_conn_reader c rd) outcome
        | (None, rd) => (w, set_conn_reader c rd, Some Panicked)
        end
      else (w, c, None)
  end.

Fixpoint serve_loop (w : World) (c : ServerConn) (evs : list LoopEvent) :
    World * ServerConn * option loop_exit :=
  match evs with
  | [] => (w, c, None)
  | ev :: evs =>
      match loop_turn w c ev with
      | (w, c, Some exit) => (w, c, Some exit)
      | (w, c, None) => serve_loop w c evs
      end
  end.

(** The worker empties its queue; [gaps] is what other tasks do in between. *)
Fixpoint drain (gaps : list (World → World)) (c : ServerConn) (w : World)
    (work : list PublishPacket) : World :=
  let w := hd id gaps w in
  match work with
  | [] => w
  | p :: work =>
      drain (tl gaps) c (worker_turn (sc_channel c) (sc_client_id c) w p) work
  end.

(** After the loop: close, let the worker finish, unregister. *)
Definition server_teardown (gaps : list (World → World)) (w : World) (c : ServerConn)
    (graceful : bool) (terminal_error : option MqttError) : World * mresult unit :=
  let w := close_channel w (sc_channel c) in
  let w := drain gaps c w (sc_work c) in
  let w := unregister_session w (sc_client_id c) (sc_channel c) graceful in
  (w, match terminal_error with Some e => Err e | None => Ok tt end).

(** [handle_server]: [None] while the events do not end it.  [ProtocolFlow::Close]
    is the only value it returns. *)
Definition handle_server (has_broker timed_out : bool) (w : World) (id : Z)
    (evs : list LoopEvent) (gaps : list (World → World)) : option (World * mresult unit) :=
  match admit_peer has_broker timed_out w id with
  | (w, Ok c) =>
      match serve_loop w c evs with
      | (w, c, Some (Broke graceful terminal_error)) =>
          Some (server_teardown gaps w c graceful terminal_error)
      | (w, _, Some Panicked) => Some (w, Panic)
      | (_, _, None) => None
      end
  | (w, Err e) => Some (w, Err e)
  | (w, Panic) => Some (w, Panic)
  | (w, Loop) => Some (w, Loop)
  end.
End server.

(** ** Dispatch on a live connection *)

(** What the server answers to a packet; [codes] are those of a SUBSCRIBE. *)
Definition replies (codes : list SubackCode) (p : Packet) : list Packet :=
  match p with
  | Packet_Publish pb =>
      match pub_qos pb, pub_packet_id pb with
      | AtLeastOnce, Some id => [Packet_Puback id]
      | ExactlyOnce, Some id => [Packet_Pubrec id]
      | _, _ => []
      end
  | Packet_Subscribe s => [Packet_Suback (mkSubackPacket (sub_packet_id s) codes)]
  | Packet_Unsubscribe u => [Packet_Unsuback (unsub_packet_id u)]
  | Packet_Pingreq => [Packet_Pingresp]
  | Packet_Pubrec id => [Packet_Pubrel id]
  | Packet_Pubrel id => [Packet_Pubcomp id]
  | _ => []
  end.

Definition subscribe_codes (w : World) (c : ServerConn) (p : Packet) : list SubackCode :=
  match p with
  | Packet_Subscribe s =>
      (subscribe w (sc_client_id c) (sc_channel c)
         (map (λ ts, mkTopicFilter (ts_topic ts) (ts_qos ts)) (sub_subscriptions s))).2
  | _ => []
  end.

(** The server as a receiver: publishes on their way to the worker. *)
Definition qos2_item (id : Z) (pb : PublishPacket) : Prop :=
  pub_qos pb = ExactlyOnce ∧ pub_packet_id pb = Some id.

#[global] Instance qos2_item_dec id pb : Decision (qos2_item id pb).
Proof. unfold qos2_item. apply _. Defined.

#[global] Program Instance server_receiver : Receiver PublishPacket := {|
  now pb := pb;
  later := released_publish;
  item := qos2_item;
  fits _ _ := True;
  item_dec := qos2_item_dec;
|}.
Next Obligation. intros id pb Hq [? _]. done. Qed.
Next Obligation. intros id i st _ [_ [= ->]]. done. Qed.
Next Obligation. intros id pb Hq Hid. done. Qed.

(** The abstract receiver: the QoS 2 stash, and the publishes it hands on. *)
Definition receive (stash : gmap Z IncomingPublish) (p : Packet) :
    gmap Z IncomingPublish * list PublishPacket := receive_with stash p.

(** The waiter side of a session. *)
Definition acks_of (s : MqttSession) :
    gmap Z AckSlot * list oneshot * gmap Z PublishPacket :=
  (ss_pending_acks s, ss_waiters s, ss_outbound_inflight s).

(** How the server settles an ack: as the send path expects it, except that SUBACK
    and UNSUBACK, which no peer of a server sends, are ignored. *)
Definition server_settle (s : MqttSession) (p : Packet) : MqttSession :=
  match p with
  | Packet_Suback _ | Packet_Unsuback _ => s
  | _ => settle s p
  end.

(** A connection whose writer and worker run. *)
Definition live (w : World) (c : ServerConn) (ch : MqttChannel) : Prop :=
  w_channels w !! sc_channel c = Some ch ∧ ch_actor ch ≠ Exited ∧ sc_worker c = true.

Definition is_connect (p : Packet) : bool :=
  match p with Packet_Connect _ => true | _ => false end.

(** The broker's tables after a packet: SUBSCRIBE and UNSUBSCRIBE change them. *)
Definition tables_after (w : World) (c : ServerConn) (p : Packet) : World :=
  match p with
  | Packet_Subscribe s =>
      (subscribe w (sc_client_id c) (sc_channel c)
         (map (λ ts, mkTopicFilter (ts_topic ts) (ts_qos ts)) (sub_subscriptions s))).1
  | Packet_Unsubscribe u => unsubscribe w (sc_client_id c) (sc_channel c) (unsub_topics u)
  | _ => w
  end.

(** The effect of one dispatch: the result, the replies queued, the stash, the
    acks settled, the work handed on, and that other connections are left alone. *)
Record dispatched (w : World) (c : ServerConn) (ch : MqttChannel) (p : Packet)
    (w' : World) (c' : ServerConn) (ch' : MqttChannel) : Prop := {
  dp_live : live w' c' ch';
  dp_queue : ch_queue ch' =
    ch_queue ch ++ map Cmd_Packet (replies (subscribe_codes w c p) p);
  dp_stash : ss_qos2_recv (ch_session ch') = (receive (ss_qos2_recv (ch_session ch)) p).1;
  dp_acks : acks_of (ch_session ch') = acks_of (server_settle (ch_session ch) p);
  dp_conn : c' = set_work c (sc_work c ++ (receive (ss_qos2_recv (ch_session ch)) p).2);
  dp_frame : w_channels w' = <[sc_channel c := ch']> (w_channels w);
  dp_tables : w_broker w' = w_broker (tables_after w c p);
  dp_open : ch_open ch' = ch_open ch;
}.

Lemma set_work_same c : set_work c (sc_work c ++ []) = c.
Proof. destruct c. unfold set_work. cbn. by rewrite app_nil_r. Qed.

Lemma wake_ack_stash s id k : ss_qos2_recv (wake_ack_waiter s id k) = ss_qos2_recv s.
Proof.
  unfold wake_ack_waiter, wake_ack_commit. destruct (wake_ack_guard s id k); [|done].
  by repeat case_match.
Qed.

Lemma then_channel_Ok w c ch f k :
  w_channels w !! sc_channel c = Some ch → (f ch).2 = Ok tt →
  then_channel w c f k = k (set_channels w (<[sc_channel c := (f ch).1]> (w_channels w))).
Proof. intros Hch Hf. unfold then_channel. by rewrite (on_channel_Some _ _ ch), Hf. Qed.

(** A dispatch that is one call on the own channel, after the tables went from [w]
    to [w0]. *)
Lemma dispatched_send w w0 c ch p s reply work :
  live w c ch → w_channels w0 = w_channels w → w_broker w0 = w_broker (tables_after w c p) →
  replies (subscribe_codes w c p) p = reply →
  receive (ss_qos2_recv (ch_session ch)) p = (ss_qos2_recv s, work) →
  acks_of s = acks_of (server_settle (ch_session ch) p) →
  dispatched w c ch p
    (set_channels w0 (<[sc_channel c := set_queue (set_session ch s)
       (ch_queue ch ++ map Cmd_Packet reply)]> (w_channels w0)))
    (set_work c (sc_work c ++ work))
    (set_queue (set_session ch s) (ch_queue ch ++ map Cmd_Packet reply)).
Proof.
  intros (Hch & Ha & Hw) Hw0 Hb Hr Hv Hk. split; cbn [ch_queue set_queue]; rewrite ?Hr, ?Hv; try done.
  - split_and!; cbn; [by rewrite lookup_insert_eq | done | done].
  - by rewrite Hw0.
Qed.

(** The same with nothing to send. *)
Lemma dispatched_quiet w c ch p s work :
  live w c ch → tables_after w c p = w → replies (subscribe_codes w c p) p = [] →
  receive (ss_qos2_recv (ch_session ch)) p = (ss_qos2_recv s, work) →
  acks_of s = acks_of (server_settle (ch_session ch) p) →
  dispatched w c ch p
    (set_channels w (<[sc_channel c := set_session ch s]> (w_channels w)))
    (set_work c (sc_work c ++ work)) (set_session ch s).
Proof.
  intros Hl Ht Hr Hv Hk.
  pose proof (dispatched_send w w c ch p s [] work Hl eq_refl (f_equal w_broker (eq_sym Ht))
    Hr Hv Hk) as H.
  cbn in H. rewrite app_nil_r in H. exact H.
Qed.

Lemma dispatched_noop w c ch p :
  live w c ch → tables_after w c p = w → replies (subscribe_codes w c p) p = [] →
  receive (ss_qos2_recv (ch_session ch)) p = (ss_qos2_recv (ch_session ch), []) →
  server_settle (ch_session ch) p = ch_session ch →
  dispatched w c ch p w c ch.
Proof.
  intros Hl Ht Hr Hv Hk. split; rewrite ?Ht, ?Hr, ?Hv, ?Hk; cbn; rewrite ?app_nil_r, ?set_work_same; try done.
  - by destruct c.
  - symmetry. apply insert_id, Hl.
Qed.

Lemma set_session_same ch : set_session ch (ch_session ch) = ch.
Proof. by destruct ch. Qed.

Lemma ack_inbound_live pb ch :
  ch_actor ch ≠ Exited →
  let s := match pub_qos pb, pub_packet_id pb with
           | ExactlyOnce, Some id =>
               stash_qos2_publish (ch_session ch) id (incoming_from_packet pb)
           | _, _ => ch_session ch
           end in
  ack_inbound_publish_pre_chain pb ch =
    (set_queue (set_session ch s)
       (ch_queue ch ++ map Cmd_Packet (replies [] (Packet_Publish pb))), Ok tt).
Proof.
  intros Ha. cbv zeta. unfold ack_inbound_publish_pre_chain, replies.
  destruct (pub_qos pb), (pub_packet_id pb) as [id|]; rewrite ?set_session_same;
    cbn [map]; rewrite ?app_nil_r; try (by destruct ch); by rewrite send_packet_live.
Qed.

Lemma dispatch_publish_live w c ch pb :
  live w c ch →
  ∃ w' c' ch', dispatch_server_inbound w c (Packet_Publish pb) = (w', c', Ok tt) ∧
    dispatched w c ch (Packet_Publish pb) w' c' ch'.
Proof.
  intros Hl. pose proof Hl as (Hch & Ha & Hw). cbn [dispatch_server_inbound].
  pose proof (ack_inbound_live pb ch Ha) as Hack. cbv zeta in Hack.
  rewrite (then_channel_Ok _ _ ch) by (done || by rewrite Hack). rewrite Hack. cbn [fst].
  case_bool_decide as Hq.
  - eexists _, (set_work c (sc_work c ++ [])), _. split; [by rewrite set_work_same|].
    apply dispatched_send; [done | done | done | done | |].
    all: unfold receive, receive_with; rewrite Hq; by destruct (pub_packet_id pb).
  - unfold send_work. rewrite Hw. eexists _, _, _. split; [done|].
    apply dispatched_send; [done | done | done | done | |].
    all: unfold receive, receive_with; by destruct (pub_qos pb), (pub_packet_id pb).
Qed.

Lemma dispatch_reply_live w w0 c ch p reply :
  live w c ch → w_channels w0 = w_channels w → w_broker w0 = w_broker (tables_after w c p) →
  replies (subscribe_codes w c p) p = [reply] →
  receive (ss_qos2_recv (ch_session ch)) p = (ss_qos2_recv (ch_session ch), []) →
  server_settle (ch_session ch) p = ch_session ch →
  ∃ w' c' ch', then_channel w0 c (λ ch, send_packet ch reply) (λ w, (w, c, Ok tt)) =
      (w', c', Ok tt) ∧ dispatched w c ch p w' c' ch'.
Proof.
  intros Hl Hw0 Hb Hr Hv Hk. pose proof Hl as (Hch & Ha & Hw).
  rewrite (then_channel_Ok _ _ ch) by (by rewrite ?Hw0, ?send_packet_live).
  eexists _, c, _. split; [done|]. rewrite send_packet_live by done. cbn [fst].
  pose proof (dispatched_send w w0 c ch p (ch_session ch) [reply] [] Hl Hw0 Hb Hr Hv) as Hd.
  rewrite set_session_same, set_work_same, Hk in Hd. by apply Hd.
Qed.

Lemma dispatch_session_live w c ch p g :
  live w c ch → tables_after w c p = w → replies (subscribe_codes w c p) p = [] →
  receive (ss_qos2_recv (ch_session ch)) p = (ss_qos2_recv (g (ch_session ch)), []) →
  acks_of (g (ch_session ch)) = acks_of (server_settle (ch_session ch) p) →
  ∃ w' c' ch', then_channel w c (with_session g) (λ w, (w, c, Ok tt)) = (w', c', Ok tt) ∧
    dispatched w c ch p w' c' ch'.
Proof.
  intros Hl Ht Hr Hv Hk. rewrite (then_channel_Ok _ _ ch) by (by destruct Hl).
  eexists _, c, _. split; [done|].
  pose proof (dispatched_quiet w c ch p (g (ch_session ch)) [] Hl Ht Hr Hv Hk) as Hd.
  by rewrite set_work_same in Hd.
Qed.

Lemma dispatch_pubrel_live w c ch id :
  live w c ch →
  ∃ w' c' ch', dispatch_server_inbound w c (Packet_Pubrel id) = (w', c', Ok tt) ∧
    dispatched w c ch (Packet_Pubrel id) w' c' ch'.
Proof.
  intros Hl. pose proof Hl as (Hch & Ha & Hw). cbn [dispatch_server_inbound].
  rewrite (on_channel_Some _ _ ch) by done. cbn [take_qos2_publish fst snd].
  set (ch1 := set_session ch _).
  assert (∀ work, receive (ss_qos2_recv (ch_session ch)) (Packet_Pubrel id) =
      (delete id (ss_qos2_recv (ch_session ch)), work) →
    ∃ w' c' ch', then_channel
        (set_channels w (<[sc_channel c:=ch1]> (w_channels w)))
        (set_work c (sc_work c ++ work)) (λ ch, send_packet ch (Packet_Pubcomp id))
        (λ w, (w, set_work c (sc_work c ++ work), Ok tt)) = (w', c', Ok tt) ∧
      dispatched w c ch (Packet_Pubrel id) w' c' ch') as Hk.
  { intros work Hv. rewrite (then_channel_Ok _ _ ch1);
      [|by cbn; rewrite lookup_insert_eq | by rewrite send_packet_live].
    eexists _, _, _. split; [done|]. rewrite send_packet_live by done. cbn [fst].
    cbn [set_channels w_channels sc_channel set_work]. rewrite insert_insert_eq.
    by apply (dispatched_send w w c ch (Packet_Pubrel id) (take_qos2_publish (ch_session ch) id).1
      [Packet_Pubcomp id] work). }
  destruct (ss_qos2_recv (ch_session ch) !! id) as [stored|] eqn:E.
  - unfold send_work. rewrite Hw. apply Hk. cbn. by rewrite E.
  - specialize (Hk []). rewrite set_work_same in Hk. apply Hk. cbn. by rewrite E.
Qed.

Lemma dispatch_pubrec_live w c ch id :
  live w c ch →
  ∃ w' c' ch', dispatch_server_inbound w c (Packet_Pubrec id) = (w', c', Ok tt) ∧
    dispatched w c ch (Packet_Pubrec id) w' c' ch'.
Proof.
  intros Hl. pose proof Hl as (Hch & Ha & Hw). cbn [dispatch_server_inbound].
  rewrite (then_channel_Ok _ _ ch) by done. cbn [with_session fst].
  set (s1 := wake_ack_waiter _ _ _).
  rewrite (then_channel_Ok _ _ (set_session ch s1));
    [|by cbn; rewrite lookup_insert_eq | by rewrite send_packet_live].
  eexists _, c, _. split; [done|]. rewrite send_packet_live by done. cbn [fst].
  cbn [set_channels w_channels]. rewrite insert_insert_eq.
  pose proof (dispatched_send w w c ch (Packet_Pubrec id) s1 [Packet_Pubrel id] []
    Hl eq_refl eq_refl eq_refl) as Hd. rewrite set_work_same in Hd. apply Hd; [|done].
  unfold s1. by rewrite wake_ack_stash.
Qed.

Lemma dispatch_live w c ch p :
  live w c ch → is_connect p = false →
  ∃ w' c' ch', dispatch_server_inbound w c p = (w', c', Ok tt) ∧
    dispatched w c ch p w' c' ch'.
Proof.
  intros Hl Hc.
  destruct p as [k|a|pb|id|id|id|id|s|s|u|id| | |]; try done.
  all: try (eexists w, c, ch; split; [reflexivity | by apply dispatched_noop]).
  - by apply dispatch_publish_live.
  - cbn [dispatch_server_inbound]. apply dispatch_session_live; [done | done | done | | done].
    cbn. by rewrite wake_ack_stash.
  - by apply dispatch_pubrec_live.
  - by apply dispatch_pubrel_live.
  - cbn [dispatch_server_inbound]. apply dispatch_session_live; [done | done | done | | done].
    cbn. by rewrite wake_ack_stash.
  - cbn [dispatch_server_inbound].
    pose proof (subscribe_channels w (sc_client_id c) (sc_channel c)
      (map (λ ts, mkTopicFilter (ts_topic ts) (ts_qos ts)) (sub_subscriptions s))) as Hw0.
    destruct (subscribe _ _ _ _) as [w0 codes] eqn:E.
    apply dispatch_reply_live; [done | done | | | done | done]; cbn; by rewrite E.
  - cbn [dispatch_server_inbound].
    apply dispatch_reply_live; [done | apply unsubscribe_channels | done | done | done | done].
  - by apply dispatch_reply_live.
Qed.

(** ** Sequences of packets *)

(** The read loop on a sequence of inbound packets. *)
Fixpoint dispatch_all (w : World) (c : ServerConn) (ps : list Packet) :
    World * ServerConn * mresult unit :=
  match ps with
  | [] => (w, c, Ok tt)
  | p :: ps =>
      match dispatch_server_inbound w c p with
      | (w, c, Ok _) => dispatch_all w c ps
      | res => res
      end
  end.

Lemma set_work_app c l k :
  set_work (set_work c (sc_work c ++ l)) (sc_work (set_work c (sc_work c ++ l)) ++ k) =
  set_work c (sc_work c ++ l ++ k).
Proof. unfold set_work. cbn. by rewrite app_assoc. Qed.

(** The server's dispatch implements the abstract receiver. *)
Lemma dispatch_all_live w c ch ps :
  live w c ch → Forall (λ p, is_connect p = false) ps →
  ∃ w' ch', dispatch_all w c ps =
      (w', set_work c (sc_work c ++ (receive_all (ss_qos2_recv (ch_session ch)) ps).2), Ok tt) ∧
    live w' c ch' ∧
    ss_qos2_recv (ch_session ch') = (receive_all (ss_qos2_recv (ch_session ch)) ps).1.
Proof.
  revert w c ch. induction ps as [|p ps IH]; intros w c ch Hl Hps.
  { exists w, ch. cbn. by rewrite set_work_same. }
  apply Forall_cons in Hps as [Hp Hps]. cbn [dispatch_all]. rewrite receive_all_cons.
  destruct (dispatch_live w c ch p Hl Hp) as (w1 & c1 & ch1 & -> & [Hl1 _ Hs1 _ Hc1 _ _ _]).
  destruct (IH w1 c1 ch1 Hl1 Hps) as (w2 & ch2 & -> & Hl2 & Hs2).
  exists w2, ch2. rewrite Hs2, Hs1, Hc1.
  cbn [fst snd]. split; [by rewrite set_work_app|]. split; [|done]. by rewrite Hc1 in Hl2.
Qed.

(** ** Theorems: dispatch *)

(** C29: on a live connection the server answers every packet but a second CONNECT
    with exactly its reply, queued on its own channel in order: PUBACK, PUBREC,
    PUBREL, PUBCOMP, UNSUBACK with the packet's id, SUBACK with one code per
    filter, PINGRESP; it settles exactly the waiters the send path waits on; it
    hands QoS 0 and 1 publishes to the worker at once and a QoS 2 publish on its
    PUBREL; it touches no other channel, and changes the broker's tables for a
    SUBSCRIBE or an UNSUBSCRIBE only; and it keeps the connection open. *)
Theorem dispatch_replies w c ch p :
  live w c ch → is_connect p = false →
  ∃ w' c' ch', dispatch_server_inbound w c p = (w', c', Ok tt) ∧
    dispatched w c ch p w' c' ch'.
Proof. apply dispatch_live. Qed.

(** C13: a QoS 2 publish is handed on exactly once.  The peer may repeat the PUBLISH
    and the PUBREL of a flow and interleave any other traffic: between a PUBREL
    and the end of the flow, the worker gets one publish for it, with the content
    of the last PUBLISH before that PUBREL. *)
Theorem server_qos2_exactly_once w c ch id pb ps0 ps1 ps2 :
  live w c ch →
  let ps := ps0 ++ [Packet_Publish pb] ++ ps1 ++ [Packet_Pubrel id] ++ ps2 in
  Forall (λ p, is_connect p = false) ps →
  pub_qos pb = ExactlyOnce → pub_packet_id pb = Some id →
  Packet_Pubrel id ∉ ps0 ++ ps1 →
  Forall (λ p, ¬ qos2_publish id p) (ps1 ++ ps2) →
  ∃ w' c' work, dispatch_all w c ps = (w', c', Ok tt) ∧ sc_work c' = sc_work c ++ work ∧
    filter (qos2_item id) work = [released_publish id (incoming_from_packet pb)].
Proof.
  intros Hl ps Hps Hq Hid Hrel Hpub.
  destruct (dispatch_all_live w c ch ps Hl Hps) as (w' & ch' & -> & _ & _).
  eexists w', _, _. split; [done|]. split; [done|]. unfold ps.
  exact (receive_exactly_once id (ss_qos2_recv (ch_session ch)) pb ps0 ps1 ps2 (λ _ _ _, I) Hq Hid Hrel Hpub).
Qed.

(** ** Witnesses *)

(** The connection of client [a] of [demo]. *)
Definition demo_conn : ServerConn :=
  mkServerConn 1 (str_of "a") 1000 None (mkReader [] []) [] true true.

Lemma demo_live : live demo demo_conn (demo_ch 1).
Proof. split_and!; [vm_compute; reflexivity | vm_compute; discriminate | reflexivity]. Qed.

Lemma dispatch_replies_witness :
  ∃ w' c' ch', dispatch_server_inbound demo demo_conn Packet_Pingreq = (w', c', Ok tt) ∧
    dispatched demo demo_conn (demo_ch 1) Packet_Pingreq w' c' ch'.
Proof. apply (dispatch_replies demo demo_conn (demo_ch 1)); [apply demo_live | reflexivity]. Defined.

(** A QoS 2 publish, repeated with DUP, released by a PUBREL that is repeated
    too. *)
Definition demo_qos2 (dup : bool) : PublishPacket :=
  mkPublishPacket (str_of "t") (str_of "once") dup ExactlyOnce false (Some 5).

Lemma server_qos2_exactly_once_witness :
  ∃ w' c' work,
    dispatch_all demo demo_conn ([Packet_Publish (demo_qos2 false)] ++
      [Packet_Publish (demo_qos2 true)] ++ [Packet_Pingreq] ++ [Packet_Pubrel 5] ++
      [Packet_Pubrel 5; Packet_Pingreq]) = (w', c', Ok tt) ∧
    sc_work c' = sc_work demo_conn ++ work ∧
    filter (qos2_item 5) work =
      [released_publish 5 (incoming_from_packet (demo_qos2 true))].
Proof.
  apply (server_qos2_exactly_once demo demo_conn (demo_ch 1)); try reflexivity.
  - apply demo_live.
  - repeat constructor.
  - apply (bool_decide_unpack _). vm_compute. exact I.
  - repeat constructor; intros (pb & Heq & _); discriminate Heq.
Defined.
