(* ===== verification/ServerFlow.v ===== *)
(** The life of a server connection: theorems about [handle_server] of
    [src/src/protocol/server.rs], from the CONNECT to the end of the teardown. *)

From S2P Require Import Prelude.
From S2P Require Import Types.
From S2P Require Import Safety.
From S2P Require Import Wire.
From S2P Require Import Decode.
From S2P Require Import Codec.
From S2P Require Import Encode.
From S2P Require Import Roundtrip.
From S2P Require Import Topic.
From S2P Require Import Session.
From S2P Require Import Channel.
From S2P Require Import Subscriptions.
From S2P Require Import Broker.
From S2P Require Import Context.
From S2P Require Import Protocol.
From S2P Require Import Server.

(** ** Who owns which session *)

(** The owner of every session is the same in both worlds. *)
Definition same_owner (w w' : World) : Prop :=
  ∀ c, se_channel <$> w_sessions w' !! c = se_channel <$> w_sessions w !! c.

#[global] Instance same_owner_preorder : PreOrder same_owner.
Proof. split; [by intros w c|]. intros w1 w2 w3 H12 H23 c. by rewrite H23, H12. Qed.

Lemma owned_entry_None w c id :
  owned_entry w c id = None ↔ se_channel <$> w_sessions w !! c ≠ Some id.
Proof.
  unfold owned_entry. destruct (w_sessions w !! c) as [e|]; cbn; [|done].
  destruct (Z.eqb_spec (se_channel e) id); split; congruence.
Qed.

Lemma same_owner_None w w' c id :
  same_owner w w' → owned_entry w c id = None → owned_entry w' c id = None.
Proof. intros Hs. by rewrite !owned_entry_None, Hs. Qed.

Lemma same_owner_broker w w' : w_broker w' = w_broker w → same_owner w w'.
Proof. intros Hb c. unfold w_sessions. by rewrite Hb. Qed.

Lemma same_owner_alter w c g :
  (∀ e, se_channel (g e) = se_channel e) →
  same_owner w (set_sessions w (alter g c (w_sessions w))).
Proof.
  intros Hg c'. cbn. destruct (decide (c = c')) as [<-|].
  - rewrite lookup_alter_eq, <- option_fmap_compose. by apply option_fmap_ext.
  - by rewrite lookup_alter_ne.
Qed.

Lemma same_owner_subscribe w c id filters : same_owner w (subscribe w c id filters).1.
Proof.
  unfold subscribe. destruct (owned_entry w c id); [|done].
  change w with (w, @nil SubackCode).1 at 1. generalize (w, @nil SubackCode).
  induction filters as [|tf l IH]; intros [w0 codes]; cbn [foldl]; [done|].
  etrans; [|apply IH]. unfold subscribe_step. cbn [fst].
  destruct (validate_subscribe_filter (tf_filter tf)); cbn [fst]; try done.
  by apply (same_owner_alter w0).
Qed.

Lemma same_owner_unsubscribe w c id topics : same_owner w (unsubscribe w c id topics).
Proof.
  unfold unsubscribe. destruct (owned_entry w c id); [|done].
  revert w. induction topics as [|f l IH]; intros w; cbn [foldl]; [done|].
  etrans; [|apply IH]. by apply (same_owner_alter w).
Qed.

(** ** Dispatch keeps the connection intact *)

(** The result of a step of connection [c]: the owners, the channel and what the
    connection is stay, and nothing panicked. *)
Definition conn_safe (w : World) (c : ServerConn)
    (res : World * ServerConn * mresult unit) : Prop :=
  let '(w', c', r) := res in
  same_owner w w' ∧ is_Some (w_channels w' !! sc_channel c) ∧
  sc_channel c' = sc_channel c ∧ sc_client_id c' = sc_client_id c ∧
  sc_reader c' = sc_reader c ∧ sc_read_deadline c' = sc_read_deadline c ∧ returns r = true.

Lemma conn_safe_trans w0 w c res : same_owner w0 w → conn_safe w c res → conn_safe w0 c res.
Proof.
  destruct res as [[w' c'] r]. intros Hs (Ho & Hrest). split; [by etrans | done].
Qed.

Lemma send_packet_returns ch p : returns (send_packet ch p).2 = true.
Proof. unfold send_packet, send_cmd. by destruct (ch_actor ch). Qed.

Lemma then_channel_safe w c f k :
  is_Some (w_channels w !! sc_channel c) → (∀ ch, returns (f ch).2 = true) →
  (∀ w', same_owner w w' → is_Some (w_channels w' !! sc_channel c) → conn_safe w' c (k w')) →
  conn_safe w c (then_channel w c f k).
Proof.
  intros [ch Hch] Hf Hk. unfold then_channel. rewrite (on_channel_Some _ _ ch) by done.
  set (w' := set_channels w _).
  assert (same_owner w w') as Ho by (by apply same_owner_broker).
  assert (is_Some (w_channels w' !! sc_channel c)) as Hw' by (cbn; by rewrite lookup_insert_eq).
  specialize (Hf ch). destruct (f ch).2; try done.
  by eapply conn_safe_trans; [|apply Hk].
Qed.

Lemma conn_safe_done w c :
  is_Some (w_channels w !! sc_channel c) → conn_safe w c (w, c, Ok tt).
Proof. by repeat split. Qed.

Lemma ack_inbound_returns pb ch : returns (ack_inbound_publish_pre_chain pb ch).2 = true.
Proof.
  unfold ack_inbound_publish_pre_chain.
  destruct (pub_qos pb), (pub_packet_id pb); try done; apply send_packet_returns.
Qed.

Lemma send_work_safe w c pb :
  is_Some (w_channels w !! sc_channel c) →
  conn_safe w c (let '(c', r) := send_work c pb in (w, c', r)).
Proof. intros Hw. unfold send_work. destruct (sc_worker c); by repeat split. Qed.

Lemma dispatch_pubrel_safe w c id :
  is_Some (w_channels w !! sc_channel c) →
  conn_safe w c (dispatch_server_inbound w c (Packet_Pubrel id)).
Proof.
  intros Hw. pose proof Hw as [ch Hch]. cbn [dispatch_server_inbound].
  rewrite (on_channel_Some _ _ ch) by done. cbn [take_qos2_publish fst snd].
  set (w1 := set_channels w _).
  assert (is_Some (w_channels w1 !! sc_channel c)) as Hw1 by (cbn; by rewrite lookup_insert_eq).
  assert (same_owner w w1) as Ho by (by apply same_owner_broker).
  apply (conn_safe_trans _ w1); [done|].
  destruct (ss_qos2_recv (ch_session ch) !! id) as [stored|].
  - unfold send_work. destruct (sc_worker c); [|by repeat split].
    apply (then_channel_safe w1 (set_work c _)); [done | by intros; apply send_packet_returns|].
    intros w2 _ Hw2. by apply conn_safe_done.
  - apply then_channel_safe; [done | by intros; apply send_packet_returns|].
    intros w2 _ Hw2. by apply conn_safe_done.
Qed.

Lemma dispatch_safe w c p :
  is_Some (w_channels w !! sc_channel c) → conn_safe w c (dispatch_server_inbound w c p).
Proof.
  intros Hw. destruct p as [k|a|pb|id|id|id|id|s|s|u|id| | |];
    try (by apply conn_safe_done); try (by apply dispatch_pubrel_safe);
    cbn [dispatch_server_inbound]; try (by repeat split).
  - apply then_channel_safe; [done | intros; apply ack_inbound_returns|].
    intros w' _ Hw'. case_bool_decide; [by apply conn_safe_done | by apply send_work_safe].
  - apply then_channel_safe; [done | done|]. intros w' _ Hw'. by apply conn_safe_done.
  - apply then_channel_safe; [done | done|]. intros w' _ Hw'.
    apply then_channel_safe; [done | intros; apply send_packet_returns|].
    intros w2 _ Hw2. by apply conn_safe_done.
  - apply then_channel_safe; [done | done|]. intros w' _ Hw'. by apply conn_safe_done.
  - set (fs := map _ _). pose proof (same_owner_subscribe w (sc_client_id c) (sc_channel c) fs) as Ho.
    pose proof (subscribe_channels w (sc_client_id c) (sc_channel c) fs) as Hc.
    destruct (subscribe _ _ _ fs) as [w0 codes]. cbn [fst] in *.
    apply (conn_safe_trans _ w0); [done|].
    apply then_channel_safe; [by rewrite Hc | intros; apply send_packet_returns|].
    intros w' _ Hw'. by apply conn_safe_done.
  - apply (conn_safe_trans _ (unsubscribe w (sc_client_id c) (sc_channel c) (unsub_topics u)));
      [apply same_owner_unsubscribe|].
    apply then_channel_safe; [by rewrite unsubscribe_channels | intros; apply send_packet_returns|].
    intros w' _ Hw'. by apply conn_safe_done.
  - apply then_channel_safe; [done | intros; apply send_packet_returns|].
    intros w' _ Hw'. by apply conn_safe_done.
Qed.

(** ** The loop *)

(** What other tasks may do while connection [id] runs: anything that keeps its
    channel and does not make it the owner of a session. *)
Definition quiet_env (id : Z) (f : World → World) : Prop :=
  ∀ w, (is_Some (w_channels w !! id) → is_Some (w_channels (f w) !! id)) ∧
    ∀ c, owned_entry w c id = None → owned_entry (f w) c id = None.

Definition quiet_event (id : Z) (ev : LoopEvent) : Prop :=
  match ev with Ev_Env f => quiet_env id f | _ => True end.

(** A running connection owns at most the session of its client id, and its
    channel exists. *)
Definition owns_only (w : World) (id : Z) (client_id : str) : Prop :=
  is_Some (w_channels w !! id) ∧ ∀ c, c ≠ client_id → owned_entry w c id = None.

Definition conn_inv (w : World) (c : ServerConn) : Prop :=
  owns_only w (sc_channel c) (sc_client_id c) ∧ bytes_ok (rd_input (sc_reader c)).

(** What never changes about a connection. *)
Definition same_conn (c c' : ServerConn) : Prop :=
  sc_channel c' = sc_channel c ∧ sc_client_id c' = sc_client_id c ∧
  sc_read_deadline c' = sc_read_deadline c.

Lemma owns_only_env w id cid f : quiet_env id f → owns_only w id cid → owns_only (f w) id cid.
Proof. intros Hf [Hw Ho]. destruct (Hf w) as [H1 H2]. split; auto. Qed.

Lemma owns_only_same w w' id cid :
  same_owner w w' → is_Some (w_channels w' !! id) → owns_only w id cid → owns_only w' id cid.
Proof. intros Hs Hw' [_ Ho]. split; [done|]. eauto using same_owner_None. Qed.

Lemma read_packet_before_total rd max_size deadline elapsed :
  bytes_ok (rd_input rd) →
  is_Some (read_packet_before rd max_size deadline elapsed).1 ∧
  bytes_ok (rd_input (read_packet_before rd max_size deadline elapsed).2).
Proof.
  intros Hok. destruct rd as [data allocs].
  destruct (read_packet_any data allocs max_size Hok) as [Hy Hr].
  unfold read_packet_before. destruct deadline as [d|], elapsed; [done|..];
    destruct (read_packet max_size (mkReader data allocs)) as [[] rd']; done.
Qed.

Section flow.
Context `{DashMapIter}.
Context {Node : Type} (walk : str → list Node).
Context (node_run : Node → MqttContext Node → option (MqttContext Node)).

Lemma worker_turn_owner id cid w p : same_owner w (worker_turn walk node_run id cid w p).
Proof.
  unfold worker_turn. destruct (run_server_chain_then_decide_fanout _ _ _ _); [|done].
  apply same_owner_broker, publish_broker.
Qed.

Lemma worker_turn_ids id cid w p : same_ids w (worker_turn walk node_run id cid w p).
Proof.
  unfold worker_turn. destruct (run_server_chain_then_decide_fanout _ _ _ _); [|done].
  apply same_ids_publish.
Qed.

Lemma worker_turn_owns id cid cid' w p :
  owns_only w id cid' → owns_only (worker_turn walk node_run id cid w p) id cid'.
Proof.
  intros Ho. eapply owns_only_same; [apply worker_turn_owner | | done].
  eapply same_ids_is_Some; [apply worker_turn_ids | apply Ho].
Qed.

(** A turn keeps the invariant and never ends in a panic. *)
Lemma loop_turn_inv w c ev w' c' exit :
  quiet_event (sc_channel c) ev → conn_inv w c → loop_turn walk node_run w c ev = (w', c', exit) →
  conn_inv w' c' ∧ same_conn c c' ∧ exit ≠ Some Panicked.
Proof.
  intros Hev [Ho Hrd] Ht. destruct ev as [|elapsed| | | |f]; cbn in Ht.
  - destruct (negb _); by injection Ht as <- <- <-.
  - destruct (sc_at_select c); [|by injection Ht as <- <- <-].
    destruct (read_packet_before_total (sc_reader c) (sc_max_packet_size c)
      (sc_read_deadline c) elapsed Hrd) as [[outcome Hout] Hrd'].
    destruct (read_packet_before _ _ _ _) as [o rd']. cbn in Hout, Hrd'. subst o.
    set (c1 := set_conn_reader c rd') in *.
    assert (conn_inv w c1) as H1 by done.
    assert (∀ p, match dispatch_server_inbound w c1 p with
        | (w, c, Ok _) => (w, c, None)
        | (w, c, Err error) => (w, c, Some (Broke false (Some error)))
        | (w, c, _) => (w, c, Some Panicked)
        end = (w', c', exit) →
      conn_inv w' c' ∧ same_conn c c' ∧ exit ≠ Some Panicked) as Hdisp.
    { intros p Hp. pose proof (dispatch_safe w c1 p (proj1 Ho)) as Hs.
      destruct (dispatch_server_inbound w c1 p) as [[w2 c2] r].
      destruct Hs as (Hso & Hch & Hid & Hcid & Hr & Hdl & Hret).
      destruct r; try done; injection Hp as <- <- <-; split_and!; try done.
      all: split; [rewrite Hid, Hcid; by apply (owns_only_same w) | by rewrite Hr]. }
    destruct outcome as [p|e|]; cbn in Ht; [| |by injection Ht as <- <- <-].
    + destruct p; try (by eapply Hdisp). by injection Ht as <- <- <-.
    + destruct e; by injection Ht as <- <- <-.
  - destruct (sc_at_select c); by injection Ht as <- <- <-.
  - unfold run_publish_chain_worker in Ht. destruct (sc_work c) as [|p work];
      injection Ht as <- <- <-; [done|].
    split; [|done]. split; [|done]. by apply worker_turn_owns.
  - by injection Ht as <- <- <-.
  - injection Ht as <- <- <-. split; [|done]. split; [|done]. by apply owns_only_env.
Qed.

Lemma serve_loop_inv evs w c w' c' exit :
  Forall (quiet_event (sc_channel c)) evs → conn_inv w c →
  serve_loop walk node_run w c evs = (w', c', exit) →
  conn_inv w' c' ∧ same_conn c c' ∧ exit ≠ Some Panicked.
Proof.
  revert w c. induction evs as [|ev evs IH]; intros w c Hev Hinv Hs; cbn in Hs.
  { by injection Hs as <- <- <-. }
  apply Forall_cons in Hev as [Hev Hevs].
  destruct (loop_turn walk node_run w c ev) as [[w1 c1] e1] eqn:E.
  destruct (loop_turn_inv _ _ _ _ _ _ Hev Hinv E) as (Hinv1 & (Hid1 & Hcid1 & Hdl1) & He1).
  destruct e1 as [ex|]; [by injection Hs as <- <- <-|].
  destruct (IH w1 c1) as (? & (? & ? & ?) & ?); [by rewrite Hid1 | done | done |].
  split; [done|]. split; [|done]. unfold same_conn. split_and!; congruence.
Qed.

Lemma drain_owns gaps c w work id cid :
  sc_channel c = id → Forall (quiet_env id) gaps → owns_only w id cid →
  owns_only (drain walk node_run gaps c w work) id cid.
Proof.
  intros Hid. revert gaps w. induction work as [|p work IH]; intros gaps w Hg Ho; cbn.
  - destruct gaps as [|f gaps]; cbn; [done|]. apply Forall_cons in Hg as [Hf _].
    by apply owns_only_env.
  - destruct gaps as [|f gaps]; cbn.
    + apply IH; [done|]. rewrite Hid. by apply worker_turn_owns.
    + apply Forall_cons in Hg as [Hf Hg]. apply IH; [done|].
      rewrite Hid. by apply worker_turn_owns, owns_only_env.
Qed.

Lemma unregister_not_owned w id cid graceful :
  owns_only w id cid → ∀ c, owned_entry (unregister_session w cid id graceful) c id = None.
Proof.
  intros [_ Ho] c. destruct (owned_entry w cid id) as [e|] eqn:E.
  2:{ rewrite unregister_stale by done. destruct (decide (c = cid)) as [->|]; auto. }
  apply owned_entry_Some in E as [He <-]. rewrite unregister_owned by done. cbn.
  set (w1 := set_subs _ _).
  assert (owned_entry w1 c (se_channel e) = None) as H1.
  { apply owned_entry_None. cbn. destruct (decide (c = cid)) as [->|Hc].
    - by rewrite lookup_delete_eq.
    - rewrite lookup_delete_ne by done. by apply owned_entry_None, Ho. }
  destruct graceful; [done|]. eapply same_owner_None; [|exact H1].
  apply same_owner_broker, publish_will_broker.
Qed.

Lemma on_channel_owns {A} w id cid (f : MqttChannel → MqttChannel * mresult A) :
  owns_only w id cid → owns_only (on_channel w id f).1 id cid.
Proof.
  intros Ho. pose proof Ho as [[ch Hch] _].
  eapply owns_only_same; [apply same_owner_broker, on_channel_broker | | done].
  rewrite (on_channel_Some _ _ ch) by done. cbn. by rewrite lookup_insert_eq.
Qed.

(** What (the first part of) admission leaves behind, given that the connection owned
    nothing; under a policy that does not allow to disable keep-alive, an admitted
    connection has a read deadline. *)
Definition admission_ok {A} (conn : A → ServerConn) (safety : MqttSafety) (id : Z)
    (res : World * mresult A) : Prop :=
  match res with
  | (w', Ok a) =>
      sc_channel (conn a) = id ∧ conn_inv w' (conn a) ∧
      (allows_disabled_keep_alive safety = false → is_Some (sc_read_deadline (conn a)))
  | (w', Err _) => is_Some (w_channels w' !! id) ∧ ∀ c, owned_entry w' c id = None
  | _ => False
  end.

Lemma owns_nothing w id cid :
  is_Some (w_channels w !! id) → (∀ c, owned_entry w c id = None) → owns_only w id cid.
Proof. by split. Qed.

Lemma admit_register_ok w id rd connect :
  is_Some (w_channels w !! id) → (∀ c, owned_entry w c id = None) → bytes_ok (rd_input rd) →
  admission_ok fst (br_safety (w_broker w)) id (admit_register w id rd connect).
Proof.
  intros Hw Hno Hrd. unfold admit_register.
  assert (∀ p, is_Some (w_channels (on_channel w id (λ ch, send_packet ch p)).1 !! id) ∧
    ∀ c, owned_entry (on_channel w id (λ ch, send_packet ch p)).1 c id = None) as Hrefuse.
  { intros p. split.
    - apply (on_channel_owns w id [] (λ ch, send_packet ch p)). by apply owns_nothing.
    - intros c. eapply same_owner_None; [apply same_owner_broker, on_channel_broker | apply Hno]. }
  destruct (keep_alive_refused _ _) eqn:Hka.
  { specialize (Hrefuse (connack false ServerUnavailable)).
    by destruct (on_channel _ _ _). }
  destruct (negb (auth_accepted _)).
  { set (code := auth_return_code _). specialize (Hrefuse (connack false code)).
    by destruct (on_channel _ _ _). }
  set (cid := assigned_client_id connect id).
  pose proof (same_ids_register w cid id (will_of connect) (conn_clean_session connect)) as Hids.
  pose proof (register_sessions w cid id (will_of connect) (conn_clean_session connect)) as Hse.
  destruct (register_session _ _ _ _ _) as [w1 present]. cbn [fst] in *.
  assert (owns_only w1 id cid) as Ho1.
  { split; [by eapply same_ids_is_Some|]. intros c Hc. apply owned_entry_None.
    rewrite Hse, lookup_insert_ne by done. by apply owned_entry_None. }
  set (f := with_session _). pose proof (on_channel_owns w1 id cid f Ho1) as Ho2.
  destruct (on_channel w1 id f) as [w2 r2]. cbn [fst] in Ho2. cbn.
  split; [done|]. split; [done|]. intros Hdis. unfold keep_alive_refused in Hka.
  unfold server_read_deadline. destruct (conn_keep_alive connect =? 0); [|done].
  by rewrite Hdis in Hka.
Qed.

Lemma admit_connack_ok safety w c present :
  conn_inv w c → (allows_disabled_keep_alive safety = false → is_Some (sc_read_deadline c)) →
  admission_ok (λ c, c) safety (sc_channel c) (admit_connack w c present).
Proof.
  intros [Ho Hrd] Hdl. unfold admit_connack.
  set (g := λ ch, send_packet ch _).
  pose proof (on_channel_owns w (sc_channel c) (sc_client_id c) g Ho) as Ho3.
  pose proof Ho as [[ch Hch] _].
  assert (returns (on_channel w (sc_channel c) g).2 = true) as Hret.
  { rewrite (on_channel_Some _ _ ch) by done. apply send_packet_returns. }
  destruct (on_channel w (sc_channel c) g) as [w3 r3]. cbn [fst snd] in *.
  destruct r3; try done. split; [|by apply unregister_not_owned].
  eapply same_ids_is_Some; [apply same_ids_unregister | apply Ho3].
Qed.

Lemma then_connack_ok safety id res :
  admission_ok fst safety id res → admission_ok (λ c, c) safety id (then_connack res).
Proof.
  destruct res as [w' [[c present]|e| |]]; try done. intros (<- & Hinv & Hdl).
  by apply admit_connack_ok.
Qed.

Lemma begin_ok has_broker timed_out w id ch :
  w_channels w !! id = Some ch → (∀ c, owned_entry w c id = None) →
  (∀ rd, ch_reader ch = Some rd → bytes_ok (rd_input rd)) →
  admission_ok fst (br_safety (w_broker w)) id (admit_begin has_broker timed_out w id).
Proof.
  intros Hch Hno Hrd. unfold admit_begin.
  destruct has_broker; [|split; [by eexists | done]]. cbn [negb].
  rewrite (on_channel_Some _ _ ch) by done. cbn [take_reader fst snd].
  set (w1 := set_channels w _).
  assert (∀ c, owned_entry w1 c id = None) as Hno1 by done.
  assert (is_Some (w_channels w1 !! id)) as Hw1 by (cbn; by rewrite lookup_insert_eq).
  destruct (ch_reader ch) as [[data allocs]|]; cbn [ok_or]; [|done].
  destruct timed_out; [done|]. specialize (Hrd _ eq_refl). cbn in Hrd.
  destruct (read_packet_any data allocs (max_packet_size (br_safety (w_broker w1))) Hrd)
    as [Hy Hr].
  destruct (read_packet _ (mkReader data allocs)) as [[p| | |] rd']; try done.
  destruct p; try done. by apply (admit_register_ok w1).
Qed.

Lemma admit_ok has_broker timed_out w id ch :
  w_channels w !! id = Some ch → (∀ c, owned_entry w c id = None) →
  (∀ rd, ch_reader ch = Some rd → bytes_ok (rd_input rd)) →
  admission_ok (λ c, c) (br_safety (w_broker w)) id (admit_peer has_broker timed_out w id).
Proof. intros. by eapply then_connack_ok, begin_ok. Qed.

Lemma handle_server_ends has_broker timed_out w id ch evs gaps w' r :
  w_channels w !! id = Some ch → (∀ c, owned_entry w c id = None) →
  (∀ rd, ch_reader ch = Some rd → bytes_ok (rd_input rd)) →
  Forall (quiet_event id) evs → Forall (quiet_env id) gaps →
  handle_server walk node_run has_broker timed_out w id evs gaps = Some (w', r) →
  returns r = true ∧ is_Some (w_channels w' !! id) ∧ ∀ c, owned_entry w' c id = None.
Proof.
  intros Hch Hno Hrd Hevs Hgaps Hh. unfold handle_server in Hh.
  pose proof (admit_ok has_broker timed_out w id ch Hch Hno Hrd) as Ha.
  destruct (admit_peer has_broker timed_out w id) as [w1 [c|e| |]]; cbn in Ha; try done;
    [|by injection Hh as <- <-].
  destruct Ha as (<- & Hinv & _).
  destruct (serve_loop walk node_run w1 c evs) as [[w2 c2] exit] eqn:E.
  destruct (serve_loop_inv _ _ _ _ _ _ Hevs Hinv E) as ([Ho _] & (Hid & Hcid & _) & Hex).
  destruct exit as [[graceful terminal|]|]; try done. injection Hh as <- <-.
  split; [by destruct terminal|]. rewrite <- Hid.
  set (w3 := drain _ _ _ _ _ _).
  assert (owns_only w3 (sc_channel c2) (sc_client_id c2)) as Ho3.
  { apply drain_owns; [done | by rewrite Hid |]. eapply owns_only_same; [| |exact Ho].
    - by apply same_owner_broker.
    - eapply same_ids_is_Some; [apply same_ids_close | apply Ho]. }
  split; [|by apply unregister_not_owned].
  eapply same_ids_is_Some; [apply same_ids_unregister | apply Ho3].
Qed.

(** ** Theorems *)

(** A connection leaves nothing behind.  However [handle_server] ends (refused,
    malformed CONNECT, read error, keep-alive deadline, protocol violation,
    shutdown, DISCONNECT), and whatever other tasks do meanwhile, it returns
    without a panic and no session is registered for the connection any more. *)
Theorem handle_server_releases has_broker timed_out w id ch evs gaps w' r :
  w_channels w !! id = Some ch → (∀ c, owned_entry w c id = None) →
  (∀ rd, ch_reader ch = Some rd → bytes_ok (rd_input rd)) →
  Forall (quiet_event id) evs → Forall (quiet_env id) gaps →
  handle_server walk node_run has_broker timed_out w id evs gaps = Some (w', r) →
  returns r = true ∧ ∀ c, owned_entry w' c id = None.
Proof.
  intros Hch Hno Hrd Hevs Hgaps Hh.
  by destruct (handle_server_ends _ _ _ _ _ _ _ _ _ Hch Hno Hrd Hevs Hgaps Hh) as (? & _ & ?).
Qed.

Lemma serve_loop_app w c evs1 evs2 :
  serve_loop walk node_run w c (evs1 ++ evs2) =
    match serve_loop walk node_run w c evs1 with
    | (w', c', None) => serve_loop walk node_run w' c' evs2
    | res => res
    end.
Proof.
  revert w c. induction evs1 as [|ev evs1 IH]; intros w c; cbn; [done|].
  destruct (loop_turn walk node_run w c ev) as [[w1 c1] [ex|]]; [done | apply IH].
Qed.

(** C28: a silent peer does not keep a connection.  Under a policy that does not
    allow to disable keep-alive (the default), and whatever the connection has done
    before, the first deadline that elapses ends [handle_server]. *)
Theorem silent_peer_dropped has_broker timed_out w id ch evs gaps :
  w_channels w !! id = Some ch → (∀ c, owned_entry w c id = None) →
  (∀ rd, ch_reader ch = Some rd → bytes_ok (rd_input rd)) →
  Forall (quiet_event id) evs →
  allows_disabled_keep_alive (br_safety (w_broker w)) = false →
  ∃ w' r, handle_server walk node_run has_broker timed_out w id
    (evs ++ [Ev_Test; Ev_Read true]) gaps = Some (w', r).
Proof.
  intros Hch Hno Hrd Hevs Hdis. unfold handle_server.
  pose proof (admit_ok has_broker timed_out w id ch Hch Hno Hrd) as Ha.
  destruct (admit_peer has_broker timed_out w id) as [w1 [c|e| |]]; cbn in Ha; try done;
    [|by eexists _, _].
  destruct Ha as (<- & Hinv & Hdl). destruct (Hdl Hdis) as [d Hd].
  rewrite serve_loop_app.
  destruct (serve_loop walk node_run w1 c evs) as [[w2 c2] exit] eqn:E.
  destruct (serve_loop_inv _ _ _ _ _ _ Hevs Hinv E) as (_ & (_ & _ & Hdl2) & Hex).
  destruct exit as [[graceful terminal|]|]; try done; [by eexists _, _|].
  cbn. destruct (negb _); [by eexists _, _|]. cbn. rewrite Hdl2, Hd. cbn. by eexists _, _.
Qed.

(** The copies of [p] that a client gets for its subscriptions. *)
Definition copies (subs : tree) (c : str) (p : PublishPacket) (ms : list PublishPacket) : Prop :=
  ∃ qs, qs ≡ₚ client_filters subs (pub_topic p) c ∧ Forall2 (delivery p) qs ms.

(** The worker's backlog, as a subscriber receives it. *)
Lemma drain_copies c w work c' e' ch' :
  w_sessions w !! c' = Some e' → w_channels w !! se_channel e' = Some ch' →
  c' ≠ sc_client_id c → ch_actor ch' ≠ Exited →
  (∀ c1 e1, w_sessions w !! c1 = Some e1 → se_channel e1 = se_channel e' → c1 = c') →
  let w' := drain walk node_run [] c w work in
  w_broker w' = w_broker w ∧
  ∃ groups ch'', w_channels w' !! se_channel e' = Some ch'' ∧
    Forall2 (copies (w_subs w) c')
      (omap (run_server_chain_then_decide_fanout walk node_run (sc_channel c)) work) groups ∧
    ch_queue ch'' = ch_queue ch' ++ map Cmd_Publish (concat groups) ∧
    ch_actor ch'' = ch_actor ch'.
Proof.
  revert w ch'. induction work as [|p work IH]; intros w ch' He Hch Hc Ha Hd; cbn.
  { split; [done|]. exists [], ch'. cbn. by rewrite app_nil_r. }
  unfold worker_turn.
  destruct (run_server_chain_then_decide_fanout walk node_run (sc_channel c) p) as [pk|]; cbn.
  2:{ by apply IH. }
  destruct (publish_copies w (sc_client_id c) pk c' e' ch' He Hch Hc Hd Ha)
    as (qs & ms & ch1 & Hch1 & Hqs & Hms & Hq1 & Ha1).
  destruct (IH (publish w (sc_client_id c) pk) ch1) as [Hb (groups & ch2 & Hch2 & Hg & Hq2 & Ha2)];
    [by rewrite publish_sessions | done | done | by rewrite Ha1 | by rewrite publish_sessions|].
  split; [by rewrite Hb, publish_broker|]. exists (ms :: groups), ch2.
  rewrite publish_subs in Hg. split_and!; [done | | |congruence].
  - constructor; [|done]. by exists qs.
  - by rewrite Hq2, Hq1, <- app_assoc, concat_cons, map_app.
Qed.

(** The end of a session as another client sees it: nothing after a DISCONNECT,
    the Will otherwise. *)
Lemma unregister_wills w c e graceful c' e' ch' :
  w_sessions w !! c = Some e → c' ≠ c → c' ≠ [] → w_sessions w !! c' = Some e' →
  w_channels w !! se_channel e' = Some ch' → ch_actor ch' ≠ Exited →
  (∀ c1 e1, w_sessions w !! c1 = Some e1 → se_channel e1 = se_channel e' → c1 = c') →
  ∃ wills ch'',
    w_channels (unregister_session w c (se_channel e) graceful) !! se_channel e' = Some ch'' ∧
    ch_queue ch'' = ch_queue ch' ++ map Cmd_Publish wills ∧
    match se_will e with
    | Some will => if graceful then wills = []
                   else copies (w_subs w) c' (will_packet will) wills
    | None => wills = []
    end.
Proof.
  intros He Hc Hnil He' Hch' Ha Hd. rewrite unregister_owned by done. cbn.
  set (w1 := set_subs _ _).
  destruct (se_will e) as [will|]; [|exists [], ch'; cbn; rewrite app_nil_r; by destruct graceful].
  destruct graceful; [exists [], ch'; cbn; by rewrite app_nil_r|]. cbn.
  destruct (publish_copies w1 [] (will_packet will) c' e' ch')
    as (qs & ms & ch3 & Hch3 & Hqs & Hms & Hq3 & _); [| done | done | | done |].
  - cbn. by rewrite lookup_delete_ne.
  - cbn. intros c1 e1 [_ H1]%lookup_delete_Some. by apply Hd.
  - exists ms, ch3. split_and!; [done | done |]. exists qs. split; [|done].
    rewrite Hqs. cbn. by rewrite client_filters_remove.
Qed.


(** The connection's own channel is not touched by its registration. *)
Lemma register_own_channel w c id will clean :
  map_Forall (λ _ e, se_channel e ≠ id) (w_sessions w) →
  w_channels (register_session w c id will clean).1 !! id = w_channels w !! id.
Proof.
  intros Hfresh. unfold register_session, register_takeover, register_insert. cbn.
  set (w1 := match _ !! _ with Some _ => _ | None => _ end).
  assert (w_channels w1 !! id = w_channels w !! id) as Hw1; [|by destruct clean].
  unfold w1. destruct (w_sessions w !! c) as [prev|] eqn:Hp; [|done].
  set (w2 := close_channel _ _).
  assert (w_channels w2 !! id = w_channels w !! id) as Hw2.
  { unfold w2. cbn. apply lookup_alter_ne. by eapply Hfresh. }
  rewrite <- Hw2. destruct (se_will prev) as [will'|]; [|done]. apply publish_frame.
  change (w_sessions w2) with (delete c (w_sessions w)).
  intros c' e' f q [_ He']%lookup_delete_Some Heq. by destruct (Hfresh c' e').
Qed.

Lemma on_channel_send w id ch p :
  w_channels w !! id = Some ch → ch_actor ch ≠ Exited →
  on_channel w id (λ ch, send_packet ch p) =
    (set_channels w (<[id := set_queue ch (ch_queue ch ++ [Cmd_Packet p])]> (w_channels w)),
     Ok tt).
Proof. intros Hch Ha. by rewrite (on_channel_Some _ _ ch), send_packet_live. Qed.

(** A CONNECT turned away with [code]: the peer is told, and the broker keeps no
    trace of it. *)
Definition turned_away (w w' : World) (ch ch' : MqttChannel) (r : mresult ServerConn)
    (code : ConnackReturnCode) : Prop :=
  r = Err (Protocol (ConnectionRefused code)) ∧ w_broker w' = w_broker w ∧
  ch_queue ch' = ch_queue ch ++ [Cmd_Packet (connack false code)].

Lemma admit_connect_gate w id rd connect ch :
  w_channels w !! id = Some ch → ch_actor ch ≠ Exited →
  map_Forall (λ _ e, se_channel e ≠ id) (w_sessions w) →
  let auth := authenticate (w_broker w) connect (ch_remote_addr ch) in
  let cid := assigned_client_id connect id in
  let clean := conn_clean_session connect in
  ∃ w' r ch', admit_connect w id rd connect = (w', r) ∧ w_channels w' !! id = Some ch' ∧
    if keep_alive_refused (br_safety (w_broker w)) (conn_keep_alive connect)
    then turned_away w w' ch ch' r ServerUnavailable
    else if negb (auth_accepted auth) then turned_away w w' ch ch' r (auth_return_code auth)
    else
      r = Ok (mkServerConn id cid (max_packet_size (br_safety (w_broker w)))
                (server_read_deadline (conn_keep_alive connect)) rd [] true false) ∧
      w_sessions w' = <[cid := mkEntry id ∅ (will_of connect) clean]> (w_sessions w) ∧
      ch_queue ch' = ch_queue ch ++ [Cmd_Packet (connack
        (negb clean && bool_decide (is_Some (w_sessions w !! cid))) Accepted)].
Proof.
  intros Hch Ha Hfresh auth cid clean. unfold admit_connect, admit_register.
  rewrite !(on_channel_send w id ch) by done. rewrite Hch. cbn [mbind option_bind].
  fold auth. destruct (keep_alive_refused _ _).
  { eexists _, _, _. split; [done|]. cbn. split; [apply lookup_insert_eq | done]. }
  destruct (auth_accepted auth); cbn [negb].
  2:{ eexists _, _, _. split; [done|]. cbn. split; [apply lookup_insert_eq | done]. }
  fold cid clean.
  pose proof (register_own_channel w cid id (will_of connect) clean Hfresh) as Hown.
  pose proof (register_sessions w cid id (will_of connect) clean) as Hse.
  assert ((register_session w cid id (will_of connect) clean).2 =
    negb clean && bool_decide (is_Some (w_sessions w !! cid))) as Hpr by done.
  destruct (register_session w cid id (will_of connect) clean) as [w1 present].
  cbn [fst snd] in Hown, Hse, Hpr. rewrite Hch in Hown.
  rewrite (on_channel_Some _ _ ch) by done. cbn [with_session fst snd].
  set (ch1 := set_session ch _). set (w2 := set_channels w1 _).
  assert (w_channels w2 !! id = Some ch1) as Hch1 by (unfold w2; cbn; by rewrite lookup_insert_eq).
  unfold then_connack, admit_connack. cbn [sc_channel].
  rewrite (on_channel_send w2 id ch1) by done.
  eexists _, _, _. split; [done|]. cbn. split; [apply lookup_insert_eq|].
  split; [done|]. split; [done|]. by rewrite Hpr.
Qed.

End flow.

(** ** Witnesses

    A third connection joins [demo]: its peer sends a CONNECT and a DISCONNECT. *)

Definition demo_input : bytes :=
  match encode_packet sample_connect with Ok b => b | _ => [] end ++ [0xE0; 0x00].

Definition demo_3 : MqttChannel :=
  (channel_new 3 (mkReader demo_input []) (mkWriter [] None) None None Role_Server).2.

Definition demo_joined : World := set_channels demo (<[3 := demo_3]> (w_channels demo)).

Definition no_nodes (topic : str) : list unit := [].
Definition no_run (n : unit) (ctx : MqttContext unit) : option (MqttContext unit) := None.

Definition demo_served : option (World * mresult unit) :=
  handle_server no_nodes no_run true false demo_joined 3 [Ev_Test; Ev_Read false] [].

Lemma demo_joined_fresh : map_Forall (λ _ e, se_channel e ≠ 3) (w_sessions demo_joined).
Proof. apply (bool_decide_unpack _). vm_compute. exact I. Qed.

Lemma demo_joined_owns_nothing c : owned_entry demo_joined c 3 = None.
Proof.
  apply owned_entry_None. destruct (w_sessions demo_joined !! c) as [e|] eqn:He; [|done].
  cbn. intros [= Heq]. by apply (demo_joined_fresh c e).
Qed.

Lemma handle_server_releases_witness :
  ∃ w', demo_served = Some (w', Ok tt) ∧ ∀ c, owned_entry w' c 3 = None.
Proof.
  exists (default (demo, Panic) demo_served).1.
  assert (demo_served = Some ((default (demo, Panic) demo_served).1, Ok tt)) as Hs
    by (vm_compute; reflexivity).
  split; [exact Hs|].
  apply (handle_server_releases no_nodes no_run true false demo_joined 3 demo_3
    [Ev_Test; Ev_Read false] [] _ (Ok tt)); [reflexivity | apply demo_joined_owns_nothing
    | | repeat constructor | constructor | exact Hs].
  intros rd [= <-]. apply (bool_decide_unpack _). vm_compute. exact I.
Defined.

Lemma silent_peer_dropped_witness :
  ∃ w' r, handle_server no_nodes no_run true false demo_joined 3 ([] ++ [Ev_Test; Ev_Read true]) []
    = Some (w', r).
Proof.
  apply (silent_peer_dropped no_nodes no_run true false demo_joined 3 demo_3 [] []);
    [reflexivity | apply demo_joined_owns_nothing | | constructor | reflexivity].
  intros rd [= <-]. apply (bool_decide_unpack _). vm_compute. exact I.
Defined.


Definition demo_connect_packet (keep_alive : Z) : ConnectPacket :=
  mkConnectPacket [] true keep_alive None None None.


(** An empty client id is replaced by one made from the connection id. *)
Example demo_assigned :
  sc_client_id <$> (match (admit_connect demo_joined 3 (mkReader [] []) (demo_connect_packet 60)).2
    with Ok c => Some c | _ => None end) = Some (str_of "hotaru-auto-3").
Proof. vm_compute. reflexivity. Qed.
