(* ===== verification/Client.v ===== *)
(** [src/src/client.rs] and [src/src/protocol/client.rs]: the configuration of a
    client session, the connect handshake, the read loop with its ping timer and
    the dispatch of inbound packets to endpoints; and [handle] of
    [src/src/protocol/mod.rs], which runs a connection in either role.

    The tasks the client spawns for endpoints run user code: the model records
    which tasks are spawned, with which context, in which order. *)

From S2P Require Import Prelude.
From S2P Require Import Types.
From S2P Require Import Safety.
From S2P Require Import Wire.
From S2P Require Import Varint.
From S2P Require Import Encode.
From S2P Require Import Decode.
From S2P Require Import Codec.
From S2P Require Import Roundtrip.
From S2P Require Import Topic.
From S2P Require Import Receiver.
From S2P Require Import Session.
From S2P Require Import Channel.
From S2P Require Import Subscriptions.
From S2P Require Import Broker.
From S2P Require Import Context.
From S2P Require Import Send.
From S2P Require Import Protocol.
From S2P Require Import Server.

(** ** MqttClientConfig

    [Handler] stands for the user's [DefaultInboundHandler]. *)
Section config.
Context {Handler : Type}.

Record MqttClientConfig := mkClientConfig {
  cfg_client_id : str;
  cfg_clean_session : bool;
  cfg_keep_alive_secs : Z;
  cfg_connect_timeout : Z;                    (* milliseconds *)
  cfg_credentials : option Credentials;
  cfg_initial_subscriptions : list TopicFilter;
  cfg_will : option WillMessage;
  cfg_default_inbound : option Handler;
  cfg_safety : MqttSafety;
}.

Definition config_new (client_id : str) : MqttClientConfig :=
  mkClientConfig client_id true 60 (30 * 1000) None [] None None safety_new.

Definition config_with_safety (c : MqttClientConfig) (safety : MqttSafety) : MqttClientConfig :=
  mkClientConfig (cfg_client_id c) (cfg_clean_session c) (cfg_keep_alive_secs c)
    (cfg_connect_timeout c) (cfg_credentials c) (cfg_initial_subscriptions c) (cfg_will c)
    (cfg_default_inbound c) safety.

Definition config_clean_session (c : MqttClientConfig) (value : bool) : MqttClientConfig :=
  mkClientConfig (cfg_client_id c) value (cfg_keep_alive_secs c)
    (cfg_connect_timeout c) (cfg_credentials c) (cfg_initial_subscriptions c) (cfg_will c)
    (cfg_default_inbound c) (cfg_safety c).

Definition config_keep_alive (c : MqttClientConfig) (secs : Z) : MqttClientConfig :=
  mkClientConfig (cfg_client_id c) (cfg_clean_session c) secs
    (cfg_connect_timeout c) (cfg_credentials c) (cfg_initial_subscriptions c) (cfg_will c)
    (cfg_default_inbound c) (cfg_safety c).

Definition config_connect_timeout (c : MqttClientConfig) (t : Z) : MqttClientConfig :=
  mkClientConfig (cfg_client_id c) (cfg_clean_session c) (cfg_keep_alive_secs c)
    t (cfg_credentials c) (cfg_initial_subscriptions c) (cfg_will c)
    (cfg_default_inbound c) (cfg_safety c).

Definition config_with_credentials (c : MqttClientConfig) (username : str) (password : bytes) :
    MqttClientConfig :=
  mkClientConfig (cfg_client_id c) (cfg_clean_session c) (cfg_keep_alive_secs c)
    (cfg_connect_timeout c) (Some (Credentials_new username password))
    (cfg_initial_subscriptions c) (cfg_will c) (cfg_default_inbound c) (cfg_safety c).

Definition config_with_initial_subscribe (c : MqttClientConfig) (filter : str) (qos : QoS) :
    MqttClientConfig :=
  mkClientConfig (cfg_client_id c) (cfg_clean_session c) (cfg_keep_alive_secs c)
    (cfg_connect_timeout c) (cfg_credentials c)
    (cfg_initial_subscriptions c ++ [TopicFilter_new filter qos]) (cfg_will c)
    (cfg_default_inbound c) (cfg_safety c).

Definition config_with_will (c : MqttClientConfig) (will : WillMessage) : MqttClientConfig :=
  mkClientConfig (cfg_client_id c) (cfg_clean_session c) (cfg_keep_alive_secs c)
    (cfg_connect_timeout c) (cfg_credentials c) (cfg_initial_subscriptions c) (Some will)
    (cfg_default_inbound c) (cfg_safety c).

Definition config_with_default_inbound (c : MqttClientConfig) (handler : Handler) :
    MqttClientConfig :=
  mkClientConfig (cfg_client_id c) (cfg_clean_session c) (cfg_keep_alive_secs c)
    (cfg_connect_timeout c) (cfg_credentials c) (cfg_initial_subscriptions c) (cfg_will c)
    (Some handler) (cfg_safety c).

Definition build_connect (config : MqttClientConfig) : ConnectPacket :=
  mkConnectPacket (cfg_client_id config) (cfg_clean_session config)
    (cfg_keep_alive_secs config)
    (cred_username <$> cfg_credentials config)
    (cred_password <$> cfg_credentials config)
    ((λ w, mkWillPacket (wm_topic w) (wm_payload w) (wm_qos w) (wm_retain w)) <$>
       cfg_will config).
End config.
Arguments MqttClientConfig : clear implicits.

(** In milliseconds. *)
Definition client_ping_interval (keep_alive : Z) : option Z :=
  if keep_alive =? 0 then None else Some (keep_alive * 1000).

(** [tick_or_never]: can the ping branch of the [select!] complete? *)
Definition tick_or_never (timer : option Z) : bool :=
  match timer with Some _ => true | None => false end.

Section client.
Context {Handler Node : Type} (walk : str → list Node).

(** ** Endpoint dispatch *)

Inductive ClientTask :=
  | Task_endpoint (node : Node) (ctx : MqttContext Node)   (* [node.run(ctx)] *)
  | Task_default (handler : Handler) (incoming : IncomingPublish).

(** The context of a spawned endpoint. *)
Definition endpoint_context (id : Z) (incoming : IncomingPublish) (node : Node) :
    MqttContext Node :=
  set_endpoint (install_channel (set_incoming context_default incoming) id) node.

(** The loop of [dispatch_incoming_to_endpoints_owned]: the tasks spawned, and
    [matched]. *)
Definition spawn_matches (id : Z) (incoming : IncomingPublish) (nodes : list Node) :
    list ClientTask * bool :=
  foldl (λ '(tasks, _) node,
    (tasks ++ [Task_endpoint node (endpoint_context id incoming node)], true))
    ([], false) nodes.

Definition dispatch_incoming_to_endpoints_owned (id : Z) (incoming : IncomingPublish)
    (default_handler : option Handler) : list ClientTask :=
  let '(tasks, matched) := spawn_matches id incoming (walk (inc_topic incoming)) in
  match matched, default_handler with
  | false, Some handler => tasks ++ [Task_default handler incoming]
  | _, _ => tasks
  end.

Definition dispatch_inbound_to_endpoints (id : Z) (publish : PublishPacket)
    (default_handler : option Handler) : list ClientTask :=
  let '(tasks, matched) :=
    spawn_matches id (incoming_from_packet publish) (walk (pub_topic publish)) in
  match matched, default_handler with
  | false, Some handler => tasks ++ [Task_default handler (incoming_from_packet publish)]
  | _, _ => tasks
  end.

(** ** Inbound dispatch: the tasks spawned, and whether the loop is to end *)

Definition client_then (w : World) (id : Z) (f : MqttChannel → MqttChannel * mresult unit)
    (tasks : list ClientTask) : World * list ClientTask * mresult bool :=
  let '(w, r) := on_channel w id f in (w, tasks, _ ← r; Ok false).

Definition dispatch_client_inbound (w : World) (id : Z) (config : MqttClientConfig Handler)
    (packet : Packet) : World * list ClientTask * mresult bool :=
  match packet with
  | Packet_Publish publish =>
      let '(w, r) := on_channel w id (ack_inbound_publish_pre_chain publish) in
      match r with
      | Ok _ =>
          if bool_decide (pub_qos publish = ExactlyOnce) then (w, [], Ok false)
          else (w, dispatch_inbound_to_endpoints id publish (cfg_default_inbound config),
                Ok false)
      | Err e => (w, [], Err e)
      | Panic => (w, [], Panic)
      | Loop => (w, [], Loop)
      end
  | Packet_Puback pid =>
      client_then w id (with_session (λ s,
        clear_outbound_inflight (wake_ack_waiter s pid Kind_Puback) pid)) []
  | Packet_Pubrec pid =>
      let '(w, _) := on_channel w id (with_session (λ s, wake_ack_waiter s pid Kind_Pubrec)) in
      client_then w id (λ ch, send_packet ch (Packet_Pubrel pid)) []
  | Packet_Pubcomp pid =>
      client_then w id (with_session (λ s,
        clear_outbound_inflight (wake_ack_waiter s pid Kind_Pubcomp) pid)) []
  | Packet_Pubrel pid =>
      let '(w, taken) := on_channel w id (λ ch,
        let '(s, stored) := take_qos2_publish (ch_session ch) pid in
        (set_session ch s, Ok stored)) in
      let tasks :=
        match taken with
        | Ok (Some publish) =>
            dispatch_incoming_to_endpoints_owned id publish (cfg_default_inbound config)
        | _ => []
        end in
      client_then w id (λ ch, send_packet ch (Packet_Pubcomp pid)) tasks
  | Packet_Suback a =>
      client_then w id (with_session (λ s,
        wake_suback_waiter s (suback_packet_id a) (suback_return_codes a))) []
  | Packet_Unsuback pid => client_then w id (with_session (λ s, wake_unsuback_waiter s pid)) []
  | Packet_Pingresp => (w, [], Ok false)
  | Packet_Disconnect => (w, [], Ok true)
  | _ => (w, [], Ok false)
  end.

(** ** The handshake *)

Record ClientConn := mkClientConn {
  cc_channel : Z;
  cc_config : MqttClientConfig Handler;
  cc_reader : reader;
  cc_tasks : list ClientTask;       (* spawned so far *)
  cc_at_select : bool;
}.

(** From the configuration to the start of the loop; [timed_out]: the timer of the
    CONNACK read fires first. *)
Definition client_connect (config : option (MqttClientConfig Handler)) (timed_out : bool)
    (w : World) (id : Z) : World * mresult ClientConn :=
  match config with
  | None => (w, Err (Configuration "MqttClientConfig not registered in runtime statics"))
  | Some config =>
      let '(w, taken) := on_channel w id (λ ch,
        let '(ch, r) := take_reader ch in
        (ch, ok_or r (Configuration "reader already taken"))) in
      match taken with
      | Ok rd =>
          let '(w, sent) :=
            on_channel w id (λ ch, send_packet ch (Packet_Connect (build_connect config))) in
          match sent with
          | Ok _ =>
              if timed_out then (w, Err (Timeout Timeout_Connack))
              else
                match read_packet (max_packet_size (cfg_safety config)) rd with
                | (Ok (Packet_Connack ack), rd) =>
                    if negb (bool_decide (ack_return_code ack = Accepted))
                    then (w, Err (Protocol (ConnectionRefused (ack_return_code ack))))
                    else
                      let '(w, _) := on_channel w id (with_session (λ s,
                        (bind_set s (mkBindInfo (cfg_client_id config)
                           (cfg_keep_alive_secs config))).1)) in
                      let conn := mkClientConn id config rd [] false in
                      match cfg_initial_subscriptions config with
                      | [] => (w, Ok conn)
                      | filters =>
                          let '(w, r) := on_channel w id (λ ch,
                            let '(s, pkt_id) := allocate_packet_id (ch_session ch) in
                            send_packet (set_session ch s)
                              (Packet_Subscribe (mkSubscribePacket pkt_id
                                 (map (λ tf, mkTopicSubscription (tf_filter tf) (tf_qos tf))
                                    filters)))) in
                          (w, _ ← r; Ok conn)
                      end
                | (Ok _, _) => (w, Err (Protocol ExpectedConnack))
                | (Err e, _) => (w, Err e)
                | (Panic, _) => (w, Panic)
                | (Loop, _) => (w, Loop)
                end
          | Err e => (w, Err e)
          | Panic => (w, Panic)
          | Loop => (w, Loop)
          end
      | Err e => (w, Err e)
      | Panic => (w, Panic)
      | Loop => (w, Loop)
      end
  end.

(** ** The loop

    When the ping branch of the [select!] wins, the future of [read_packet] is
    dropped.  The bytes it had consumed so far, its header and what [read_exact]
    had copied, are gone: a tick carries how many those were. *)

Inductive ClientEvent :=
  | Cev_Test                        (* the head of the loop: [is_open] *)
  | Cev_Read                        (* a packet, or a read error *)
  | Cev_Tick (lost : nat)           (* [tick_or_never] *)
  | Cev_Shutdown
  | Cev_Env (f : World → World).

(** How the loop ended: [break], or [return Err]. *)
Inductive client_exit :=
  | Client_break
  | Client_return (e : MqttError)
  | Client_panic.

Definition client_advance (c : ClientConn) (rd : reader) (tasks : list ClientTask) : ClientConn :=
  mkClientConn (cc_channel c) (cc_config c) rd (cc_tasks c ++ tasks) false.

Definition client_at_select (c : ClientConn) (b : bool) : ClientConn :=
  mkClientConn (cc_channel c) (cc_config c) (cc_reader c) (cc_tasks c) b.

(** The reader after a read was dropped that had consumed [lost] bytes: fewer than
    the whole read would have. *)
Definition cancel_read (max_size : Z) (rd : reader) (lost : nat) : option reader :=
  let '(_, rd') := read_packet max_size rd in
  if bool_decide (lost = 0%nat ∨ lost < length (rd_input rd) - length (rd_input rd'))%nat
  then Some (mkReader (drop lost (rd_input rd)) (rd_allocs rd))
  else None.

Definition client_turn (w : World) (c : ClientConn) (ev : ClientEvent) :
    World * ClientConn * option client_exit :=
  match ev with
  | Cev_Env f => (f w, c, None)
  | Cev_Test =>
      if negb (channel_is_open w (cc_channel c)) then (w, c, Some Client_break)
      else (w, client_at_select c true, None)
  | Cev_Shutdown => if cc_at_select c then (w, c, Some Client_break) else (w, c, None)
  | Cev_Tick lost =>
      match cc_at_select c,
            tick_or_never (client_ping_interval (cfg_keep_alive_secs (cc_config c))),
            cancel_read (max_packet_size (cfg_safety (cc_config c))) (cc_reader c) lost with
      | true, true, Some rd =>
          let c := client_advance c rd [] in
          let '(w, r) := on_channel w (cc_channel c) (λ ch, send_packet ch Packet_Pingreq) in
          if is_ok r then (w, c, None) else (w, c, Some Client_break)
      | _, _, _ => (w, c, None)
      end
  | Cev_Read =>
      if cc_at_select c then
        match read_packet (max_packet_size (cfg_safety (cc_config c))) (cc_reader c) with
        | (Ok p, rd) =>
            match dispatch_client_inbound w (cc_channel c) (cc_config c) p with
            | (w, tasks, Ok true) => (w, client_advance c rd tasks, Some Client_break)
            | (w, tasks, Ok false) => (w, client_advance c rd tasks, None)
            | (w, tasks, Err e) => (w, client_advance c rd tasks, Some (Client_return e))
            | (w, tasks, _) => (w, client_advance c rd tasks, Some Client_panic)
            end
        | (Err (Io _), rd) => (w, client_advance c rd [], Some Client_break)
        | (Err e, rd) => (w, client_advance c rd [], Some (Client_return e))
        | (_, rd) => (w, client_advance c rd [], Some Client_panic)
        end
      else (w, c, None)
  end.

Fixpoint client_loop (w : World) (c : ClientConn) (evs : list ClientEvent) :
    World * ClientConn * option client_exit :=
  match evs with
  | [] => (w, c, None)
  | ev :: evs =>
      match client_turn w c ev with
      | (w, c, Some exit) => (w, c, Some exit)
      | (w, c, None) => client_loop w c evs
      end
  end.

(** [handle_client]: [None] while the events do not end it. *)
Definition handle_client (config : option (MqttClientConfig Handler)) (timed_out : bool)
    (w : World) (id : Z) (evs : list ClientEvent) :
    option (World * list ClientTask * mresult unit) :=
  match client_connect config timed_out w id with
  | (w, Ok c) =>
      match client_loop w c evs with
      | (w, c, Some Client_break) =>
          let '(w, _) := on_channel w id (λ ch, send_packet ch Packet_Disconnect) in
          Some (w, cc_tasks c, Ok tt)
      | (w, c, Some (Client_return e)) => Some (w, cc_tasks c, Err e)
      | (w, c, Some Client_panic) => Some (w, cc_tasks c, Panic)
      | (_, _, None) => None
      end
  | (w, Err e) => Some (w, [], Err e)
  | (w, Panic) => Some (w, [], Panic)
  | (w, Loop) => Some (w, [], Loop)
  end.
End client.

(** ** handle (protocol/mod.rs)

    One connection in the role of its channel; the channel is closed in the end,
    whatever happened. *)
Definition handle `{DashMapIter} {Handler Node} (walk : str → list Node)
    (node_run : Node → MqttContext Node → option (MqttContext Node))
    (has_broker : bool) (config : option (MqttClientConfig Handler)) (timed_out : bool)
    (w : World) (id : Z) (server_evs : list LoopEvent) (gaps : list (World → World))
    (client_evs : list ClientEvent) : option (World * mresult unit) :=
  ch ← w_channels w !! id;
  match ch_role ch with
  | Role_Server =>
      '(w, r) ← handle_server walk node_run has_broker timed_out w id server_evs gaps;
      Some (close_channel w id, r)
  | Role_Client =>
      '(w, _, r) ← handle_client walk config timed_out w id client_evs;
      Some (close_channel w id, r)
  end.

(** ** Lemmas *)

(** The client as a receiver: publishes on their way to the endpoints. *)
Definition due_item (id : Z) (i : IncomingPublish) : Prop :=
  inc_qos i = ExactlyOnce ∧ inc_packet_id i = Some id.

#[global] Instance due_item_dec id i : Decision (due_item id i).
Proof. unfold due_item. apply _. Defined.

#[global] Program Instance client_receiver : Receiver IncomingPublish := {|
  now := incoming_from_packet;
  later _ st := st;
  item := due_item;
  fits := due_item;
  item_dec := due_item_dec;
|}.
Next Obligation. intros id pb Hq [? _]. done. Qed.
Next Obligation. intros id i st [_ Hi] [_ Hid]. congruence. Qed.
Next Obligation. intros id pb Hq Hid. done. Qed.

Section dispatch.
Context {Handler Node : Type} (walk : str → list Node).

Lemma spawn_matches_eq id incoming (nodes : list Node) :
  spawn_matches (Handler:=Handler) id incoming nodes =
    (map (λ node, Task_endpoint node (endpoint_context id incoming node)) nodes,
     negb (bool_decide (nodes = []))).
Proof.
  unfold spawn_matches. rewrite <- (app_nil_l (map _ nodes)).
  assert (∀ acc b, foldl (λ '(tasks, _) node,
      (tasks ++ [Task_endpoint node (endpoint_context id incoming node)], true)) (acc, b) nodes =
    (acc ++ map (λ node, Task_endpoint (Handler:=Handler) node (endpoint_context id incoming node))
       nodes, b || negb (bool_decide (nodes = [])))) as Hf; [|by rewrite Hf].
  induction nodes as [|node nodes IH]; intros acc b; cbn [foldl map].
  - by rewrite app_nil_r, orb_false_r.
  - rewrite IH, <- app_assoc. cbn. f_equal. by destruct b.
Qed.

(** The tasks for one received publish: one per matching endpoint, or the default
    handler when nothing matches. *)
Definition client_tasks (id : Z) (config : MqttClientConfig Handler)
    (incoming : IncomingPublish) : list (ClientTask (Handler:=Handler) (Node:=Node)) :=
  match walk (inc_topic incoming), cfg_default_inbound config with
  | [], Some handler => [Task_default handler incoming]
  | nodes, _ => map (λ node, Task_endpoint node (endpoint_context id incoming node)) nodes
  end.

Lemma dispatch_owned_eq id config incoming :
  dispatch_incoming_to_endpoints_owned walk id incoming (cfg_default_inbound config) =
  client_tasks id config incoming.
Proof.
  unfold dispatch_incoming_to_endpoints_owned, client_tasks. rewrite spawn_matches_eq.
  by destruct (walk (inc_topic incoming)), (cfg_default_inbound config).
Qed.

Lemma dispatch_inbound_eq id config publish :
  dispatch_inbound_to_endpoints walk id publish (cfg_default_inbound config) =
  client_tasks id config (incoming_from_packet publish).
Proof. apply dispatch_owned_eq. Qed.

(** What the client does with a packet: the reply, and the publishes it
    dispatches. *)
Definition client_replies (p : Packet) : list Packet :=
  match p with
  | Packet_Publish _ | Packet_Pubrec _ | Packet_Pubrel _ => replies [] p
  | _ => []
  end.

Definition client_receive (stash : gmap Z IncomingPublish) (p : Packet) :
    gmap Z IncomingPublish * list IncomingPublish := receive_with stash p.

(** The effect of one dispatch on the client's channel. *)
Record client_dispatched (ch : MqttChannel) (p : Packet) (ch' : MqttChannel) : Prop := {
  cd_queue : ch_queue ch' = ch_queue ch ++ map Cmd_Packet (client_replies p);
  cd_stash : ss_qos2_recv (ch_session ch') = (client_receive (ss_qos2_recv (ch_session ch)) p).1;
  cd_acks : acks_of (ch_session ch') = acks_of (settle (ch_session ch) p);
  cd_actor : ch_actor ch' = ch_actor ch;
  cd_open : ch_open ch' = ch_open ch;
}.

Lemma wake_suback_stash s id codes : ss_qos2_recv (wake_suback_waiter s id codes) = ss_qos2_recv s.
Proof.
  unfold wake_suback_waiter, wake_suback_commit. destruct (wake_suback_guard s id); [|done].
  by repeat case_match.
Qed.

Lemma wake_unsuback_stash s id : ss_qos2_recv (wake_unsuback_waiter s id) = ss_qos2_recv s.
Proof.
  unfold wake_unsuback_waiter, wake_unsuback_commit. destruct (wake_unsuback_guard s id); [|done].
  by repeat case_match.
Qed.

Lemma client_session_live w id ch p g tasks :
  w_channels w !! id = Some ch → client_replies p = [] →
  ss_qos2_recv (g (ch_session ch)) = (client_receive (ss_qos2_recv (ch_session ch)) p).1 →
  acks_of (g (ch_session ch)) = acks_of (settle (ch_session ch) p) →
  ∃ w' ch', client_then (Handler:=Handler) (Node:=Node) w id (with_session g) tasks =
      (w', tasks, Ok false) ∧
    w_broker w' = w_broker w ∧ w_channels w' = <[id := ch']> (w_channels w) ∧
    client_dispatched ch p ch'.
Proof.
  intros Hch Hr Hs Ha. unfold client_then. rewrite (on_channel_Some _ _ ch) by done.
  eexists _, _. split; [reflexivity|]. split; [done|]. split; [done|].
  split; cbn; rewrite ?Hr; [by rewrite app_nil_r | done..].
Qed.

Lemma client_noop w id ch p :
  w_channels w !! id = Some ch → client_replies p = [] →
  (client_receive (ss_qos2_recv (ch_session ch)) p).1 = ss_qos2_recv (ch_session ch) →
  settle (ch_session ch) p = ch_session ch →
  w_broker w = w_broker w ∧ w_channels w = <[id := ch]> (w_channels w) ∧
  client_dispatched ch p ch.
Proof.
  intros Hch Hr Hs Ha. split; [done|]. split; [symmetry; by apply insert_id|].
  split; rewrite ?Hr, ?Hs, ?Ha; cbn; [by rewrite app_nil_r | done..].
Qed.

Lemma client_send_live w id ch s reply tasks :
  w_channels w !! id = Some (set_session ch s) → ch_actor ch ≠ Exited →
  client_then (Handler:=Handler) (Node:=Node) w id (λ ch, send_packet ch reply) tasks =
    (set_channels w (<[id := set_queue (set_session ch s) (ch_queue ch ++ [Cmd_Packet reply])]>
       (w_channels w)), tasks, Ok false).
Proof.
  intros Hch Ha. unfold client_then. rewrite (on_channel_Some _ _ (set_session ch s)) by done.
  by rewrite send_packet_live.
Qed.

Lemma client_publish_live w id ch config pb :
  w_channels w !! id = Some ch → ch_actor ch ≠ Exited →
  ∃ w' ch', dispatch_client_inbound walk w id config (Packet_Publish pb) =
      (w', concat (map (client_tasks id config)
        (client_receive (ss_qos2_recv (ch_session ch)) (Packet_Publish pb)).2), Ok false) ∧
    w_broker w' = w_broker w ∧ w_channels w' = <[id := ch']> (w_channels w) ∧
    client_dispatched ch (Packet_Publish pb) ch'.
Proof.
  intros Hch Ha. cbn [dispatch_client_inbound].
  rewrite (on_channel_Some _ _ ch) by done.
  pose proof (ack_inbound_live pb ch Ha) as Hack. cbv zeta in Hack. rewrite Hack. cbn [fst snd].
  rewrite dispatch_inbound_eq. set (ch1 := set_queue _ _).
  exists (set_channels w (<[id := ch1]> (w_channels w))), ch1. split.
  { unfold client_receive, receive_with. case_bool_decide as Hq.
    - rewrite Hq. by destruct (pub_packet_id pb).
    - destruct (pub_qos pb), (pub_packet_id pb); try done; cbn; by rewrite app_nil_r. }
  split; [done|]. split; [done|]. unfold ch1.
  split; cbn; [done | | |done..]; by destruct (pub_qos pb), (pub_packet_id pb).
Qed.

Lemma client_pubrel_live w id ch config pid :
  w_channels w !! id = Some ch → ch_actor ch ≠ Exited →
  ∃ w' ch', dispatch_client_inbound walk w id config (Packet_Pubrel pid) =
      (w', concat (map (client_tasks id config)
        (client_receive (ss_qos2_recv (ch_session ch)) (Packet_Pubrel pid)).2), Ok false) ∧
    w_broker w' = w_broker w ∧ w_channels w' = <[id := ch']> (w_channels w) ∧
    client_dispatched ch (Packet_Pubrel pid) ch'.
Proof.
  intros Hch Ha. cbn [dispatch_client_inbound].
  rewrite (on_channel_Some _ _ ch) by done. cbn [take_qos2_publish fst snd].
  set (s1 := set_qos2 _ _).
  rewrite (client_send_live _ id ch s1) by (done || by cbn; rewrite lookup_insert_eq).
  cbn [w_channels set_channels]. rewrite insert_insert_eq. eexists _, _. split.
  { f_equal. f_equal. cbn. destruct (ss_qos2_recv (ch_session ch) !! pid) as [st|]; [|done].
    cbn. by rewrite dispatch_owned_eq, app_nil_r. }
  split; [done|]. split; [done|]. by split.
Qed.

Lemma client_pubrec_live w id ch (config : MqttClientConfig Handler) pid :
  w_channels w !! id = Some ch → ch_actor ch ≠ Exited →
  ∃ w' ch', dispatch_client_inbound walk w id config (Packet_Pubrec pid) = (w', [], Ok false) ∧
    w_broker w' = w_broker w ∧ w_channels w' = <[id := ch']> (w_channels w) ∧
    client_dispatched ch (Packet_Pubrec pid) ch'.
Proof.
  intros Hch Ha. cbn [dispatch_client_inbound].
  rewrite (on_channel_Some _ _ ch) by done. cbn [with_session fst snd].
  set (s1 := wake_ack_waiter _ _ _).
  rewrite (client_send_live _ id ch s1) by (done || by cbn; rewrite lookup_insert_eq).
  cbn [w_channels set_channels]. rewrite insert_insert_eq. eexists _, _. split; [done|].
  split; [done|]. split; [done|]. split; cbn; [done | apply wake_ack_stash | done..].
Qed.

Lemma client_dispatch_live w id ch config p :
  w_channels w !! id = Some ch → ch_actor ch ≠ Exited →
  ∃ w' ch', dispatch_client_inbound walk w id config p =
      (w', concat (map (client_tasks id config)
        (client_receive (ss_qos2_recv (ch_session ch)) p).2),
       Ok (bool_decide (p = Packet_Disconnect))) ∧
    w_broker w' = w_broker w ∧ w_channels w' = <[id := ch']> (w_channels w) ∧
    client_dispatched ch p ch'.
Proof.
  intros Hch Ha.
  destruct p as [k|a|pb|i|i|i|i|s|a|u|i| | |]; rewrite ?(bool_decide_false (_ = Packet_Disconnect)) by done;
    try (exists w, ch; split; [reflexivity | by apply client_noop]).
  - by apply client_publish_live.
  - apply client_session_live; [done | done | apply wake_ack_stash | done].
  - by apply client_pubrec_live.
  - by apply client_pubrel_live.
  - apply client_session_live; [done | done | apply wake_ack_stash | done].
  - apply client_session_live; [done | done | apply wake_suback_stash | done].
  - apply client_session_live; [done | done | apply wake_unsuback_stash | done].
Qed.

(** C33: on a live connection the client answers every packet with exactly its
    reply, settles exactly the waiters the send path waits on, and spawns, for
    each publish that is due (QoS 0 and 1 at once, QoS 2 on its PUBREL), one task
    per matching endpoint, or the default handler when there is none; only a
    DISCONNECT ends its loop. *)
Theorem client_dispatch_effect w id ch config p :
  w_channels w !! id = Some ch → ch_actor ch ≠ Exited →
  ∃ w' ch', dispatch_client_inbound walk w id config p =
      (w', concat (map (client_tasks id config)
        (client_receive (ss_qos2_recv (ch_session ch)) p).2),
       Ok (bool_decide (p = Packet_Disconnect))) ∧
    w_broker w' = w_broker w ∧ w_channels w' = <[id := ch']> (w_channels w) ∧
    client_dispatched ch p ch'.
Proof. apply client_dispatch_live. Qed.

(** ** Sequences of packets *)

(** The read loop on a sequence of inbound packets, up to a DISCONNECT. *)
Fixpoint client_dispatch_all (w : World) (id : Z) (config : MqttClientConfig Handler)
    (ps : list Packet) : World * list (ClientTask (Handler:=Handler) (Node:=Node)) * mresult bool :=
  match ps with
  | [] => (w, [], Ok false)
  | p :: ps =>
      match dispatch_client_inbound walk w id config p with
      | (w, tasks, Ok false) =>
          let '(w, tasks', r) := client_dispatch_all w id config ps in (w, tasks ++ tasks', r)
      | res => res
      end
  end.

(** The client's dispatch implements the abstract receiver. *)
Lemma client_dispatch_all_live w id ch config ps :
  w_channels w !! id = Some ch → ch_actor ch ≠ Exited → Packet_Disconnect ∉ ps →
  ∃ w', client_dispatch_all w id config ps =
    (w', concat (map (client_tasks id config)
       (receive_all (ss_qos2_recv (ch_session ch)) ps).2), Ok false).
Proof.
  revert w ch. induction ps as [|p ps IH]; intros w ch Hch Ha Hps; [by exists w|].
  apply not_elem_of_cons in Hps as [Hp Hps]. cbn [client_dispatch_all]. rewrite receive_all_cons.
  destruct (client_dispatch_live w id ch config p Hch Ha)
    as (w1 & ch1 & -> & _ & Hch1 & [_ Hst _ Hact _]). rewrite bool_decide_false by done.
  destruct (IH w1 ch1) as [w2 ->]; [by rewrite Hch1, lookup_insert_eq | by rewrite Hact | done|].
  exists w2. cbn [snd]. by rewrite Hst, map_app, concat_app.
Qed.

(** C14: a QoS 2 publish reaches the endpoints exactly once.  The server may repeat the
    PUBLISH and the PUBREL of a flow and interleave any other traffic: between a
    PUBREL and the end of the flow, the client spawns the tasks of one publish of
    the flow, the last one before that PUBREL. *)
Theorem client_qos2_exactly_once w id ch config pid pb ps0 ps1 ps2 :
  w_channels w !! id = Some ch → ch_actor ch ≠ Exited →
  map_Forall due_item (ss_qos2_recv (ch_session ch)) →
  let ps := ps0 ++ [Packet_Publish pb] ++ ps1 ++ [Packet_Pubrel pid] ++ ps2 in
  Packet_Disconnect ∉ ps → pub_qos pb = ExactlyOnce → pub_packet_id pb = Some pid →
  Packet_Pubrel pid ∉ ps0 ++ ps1 → Forall (λ p, ¬ qos2_publish pid p) (ps1 ++ ps2) →
  ∃ w' due, client_dispatch_all w id config ps =
      (w', concat (map (client_tasks id config) due), Ok false) ∧
    filter (due_item pid) due = [incoming_from_packet pb].
Proof.
  intros Hch Ha Hst ps Hps Hq Hid Hrel Hpub.
  destruct (client_dispatch_all_live w id ch config ps Hch Ha Hps) as [w' ->].
  eexists w', _. split; [done|]. unfold ps.
  exact (receive_exactly_once pid (ss_qos2_recv (ch_session ch)) pb ps0 ps1 ps2
    Hst Hq Hid Hrel Hpub).
Qed.
End dispatch.

(** ** Theorems *)

(** The keep-alive of both sides fit.  Either side has a timer exactly when the
    declared keep-alive is not 0; the server's deadline is exactly one and a half
    ping intervals, computed without rounding and far from overflow, so a client
    that pings on schedule is never late. *)
Theorem keep_alive_grace keep_alive :
  u16_ok keep_alive →
  match client_ping_interval keep_alive, server_read_deadline keep_alive with
  | None, None => keep_alive = 0
  | Some ping, Some deadline =>
      keep_alive ≠ 0 ∧ 2 * deadline = 3 * ping ∧ ping < deadline ∧
      0 < deadline ≤ 98302500 ∧ deadline ≤ u64_max
  | _, _ => False
  end.
Proof.
  unfold u16_ok, client_ping_interval, server_read_deadline, u64_max.
  destruct (Z.eqb_spec keep_alive 0); lia.
Qed.

Lemma keep_alive_grace_witness :
  client_ping_interval 1 = Some 1000 ∧ server_read_deadline 1 = Some 1500 ∧
  (1 ≠ 0 ∧ 2 * 1500 = 3 * 1000 ∧ 1000 < 1500 ∧ 0 < 1500 ≤ 98302500 ∧ 1500 ≤ u64_max).
Proof.
  split; [reflexivity|]. split; [reflexivity|].
  apply (keep_alive_grace 1). vm_compute. split; congruence.
Defined.

(** What a client is configured with is what the server admits.  The bytes of
    the client's CONNECT, read by the server's stream reader, give back a CONNECT
    with the configured client id, session flag, keep-alive, credentials and Will,
    and leave what follows on the stream. *)
Theorem client_connect_reaches_server {Handler} (config : MqttClientConfig Handler) b rest
    max_size allocs :
  packet_ok (Packet_Connect (build_connect config)) →
  encodable (Packet_Connect (build_connect config)) →
  encode_packet (Packet_Connect (build_connect config)) = Ok b →
  declared_length b ≤ max_size →
  ∃ connect allocs', read_packet max_size (mkReader (b ++ rest) allocs) =
      (Ok (Packet_Connect connect), mkReader rest allocs') ∧
    conn_client_id connect = cfg_client_id config ∧
    conn_clean_session connect = cfg_clean_session config ∧
    conn_keep_alive connect = cfg_keep_alive_secs config ∧
    will_of connect = cfg_will config ∧
    conn_username connect = cred_username <$> cfg_credentials config ∧
    conn_password connect = cred_password <$> cfg_credentials config.
Proof.
  intros Hok Henc Hb Hmax.
  pose proof (encode_packet_frames _ _ Hok Henc Hb) as Hf.
  rewrite (frames_read _ _ rest max_size allocs Hf Hmax). cbn [wire_view].
  eexists _, _. split; [reflexivity|]. split_and!; try done.
  unfold will_of, build_connect. cbn. rewrite <- option_fmap_compose.
  destruct (cfg_will config) as [[]|]; done.
Qed.

(** A PUBLISH frame ends with its payload. *)
Lemma publish_frame_payload p f :
  encode_packet (Packet_Publish p) = Ok f → ∃ pre, f = pre ++ pub_payload p.
Proof.
  cbn [encode_packet]. intros [_ ->]%encode_publish_Ok. unfold frame.
  generalize (encode_remaining_length (len (publish_body p (publish_wire_id p)))). intros rl.
  unfold publish_body. rewrite !app_assoc. by eexists.
Qed.

Lemma frames_not_nil b p : frames b p → b ≠ [].
Proof. intros (first & t & body & -> & _). done. Qed.

(** The ping timer can break the client's stream.  When it fires in the middle
    of a packet, the dropped read has already consumed part of it, and the loop
    reads on from there: with a PUBLISH whose payload holds the bytes of another
    packet, the client takes that packet for one the server sent. *)
Theorem client_tick_desync {Handler Node} w (c : ClientConn (Handler:=Handler) (Node:=Node))
    (walk : str → list Node) ch pb f q b rest allocs :
  let max_size := max_packet_size (cfg_safety (cc_config c)) in
  cc_at_select c = true → cfg_keep_alive_secs (cc_config c) ≠ 0 →
  w_channels w !! cc_channel c = Some ch → ch_actor ch ≠ Exited →
  packet_ok q → encodable q → encode_packet q = Ok b → declared_length b ≤ max_size →
  packet_ok (Packet_Publish pb) → pub_payload pb = b →
  encode_packet (Packet_Publish pb) = Ok f → declared_length f ≤ max_size →
  cc_reader c = mkReader (f ++ rest) allocs →
  (read_packet max_size (cc_reader c)).1 = Ok (wire_view (Packet_Publish pb)) ∧
  ∃ lost w' c', client_turn walk w c (Cev_Tick lost) = (w', c', None) ∧
    (read_packet max_size (cc_reader c')).1 = Ok (wire_view q).
Proof.
  intros max_size Hsel Hka Hch Ha Hqok Hqenc Hb Hbmax Hpok Hpay Hf Hfmax Hrd.
  pose proof (encode_packet_frames _ _ Hpok I Hf) as Hff.
  pose proof (encode_packet_frames _ _ Hqok Hqenc Hb) as Hbf.
  pose proof (frames_read _ _ rest max_size allocs Hff Hfmax) as Hread.
  destruct (publish_frame_payload pb f Hf) as [pre Hpre]. rewrite Hpay in Hpre.
  rewrite Hrd, Hread. split; [done|]. exists (length pre).
  assert (cancel_read max_size (mkReader (f ++ rest) allocs) (length pre) =
    Some (mkReader (b ++ rest) allocs)) as Hcancel.
  { unfold cancel_read. rewrite Hread. cbn [rd_input rd_allocs]. rewrite bool_decide_true.
    - by rewrite Hpre, <- app_assoc, drop_app_length.
    - right. apply frames_not_nil in Hbf. rewrite Hpre, !length_app.
      destruct b; [done|]. cbn. lia. }
  cbn [client_turn]. unfold client_ping_interval. fold max_size.
  rewrite Hsel, (proj2 (Z.eqb_neq _ _)), Hrd, Hcancel by done.
  cbn [client_advance cc_channel]. rewrite (on_channel_Some _ _ ch), send_packet_live by done.
  eexists _, _. split; [reflexivity|]. cbn [cc_reader client_advance].
  by rewrite (frames_read _ _ rest max_size allocs Hbf Hbmax).
Qed.

(** [handle] leaves the channel closed, in either role and on every path. *)
Lemma handle_closes `{DashMapIter} {Handler Node} (walk : str → list Node) node_run has_broker
    (config : option (MqttClientConfig Handler)) timed_out w id sevs gaps cevs w' r ch' :
  handle walk node_run has_broker config timed_out w id sevs gaps cevs = Some (w', r) →
  w_channels w' !! id = Some ch' → is_open ch' = false.
Proof.
  unfold handle. intros Hh Hch'.
  assert (∃ w0, w' = close_channel w0 id) as [w0 ->].
  { destruct (w_channels w !! id) as [ch|]; [|done]. cbn in Hh. destruct (ch_role ch).
    - destruct (handle_server _ _ _ _ _ _ _ _) as [[w1 r1]|]; [|done].
      injection Hh as <- <-. by eexists.
    - destruct (handle_client _ _ _ _ _ _) as [[[w1 ts] r1]|]; [|done].
      injection Hh as <- <-. by eexists. }
  cbn in Hch'. rewrite lookup_alter_eq in Hch'.
  destruct (w_channels w0 !! id) as [ch0|]; [|done]. injection Hch' as <-.
  unfold close. by destruct (ch_open ch0) eqn:E.
Qed.

(** ** Witnesses *)

Definition demo_config : MqttClientConfig unit :=
  config_with_will (config_with_credentials (config_new (str_of "cid"))
    (str_of "alice") (str_of "secret"))
    (mkWillMessage (str_of "offline") (str_of "bye") AtLeastOnce true).

Definition one_node (topic : str) : list unit := [tt].

Lemma client_dispatch_effect_witness :
  ∃ w' ch', dispatch_client_inbound one_node demo 1 demo_config
      (Packet_Publish (mkPublishPacket (str_of "t") [] false AtLeastOnce false (Some 4))) =
      (w', concat (map (client_tasks one_node 1 demo_config)
        [mkIncomingPublish (str_of "t") [] AtLeastOnce false false (Some 4)]), Ok false) ∧
    w_broker w' = w_broker demo ∧ w_channels w' = <[1 := ch']> (w_channels demo) ∧
    client_dispatched (demo_ch 1)
      (Packet_Publish (mkPublishPacket (str_of "t") [] false AtLeastOnce false (Some 4))) ch'.
Proof.
  apply (client_dispatch_effect one_node demo 1 (demo_ch 1) demo_config
    (Packet_Publish (mkPublishPacket (str_of "t") [] false AtLeastOnce false (Some 4))));
    [vm_compute; reflexivity | vm_compute; discriminate].
Defined.

Lemma client_qos2_exactly_once_witness :
  ∃ w' due, client_dispatch_all one_node demo 1 demo_config
      ([Packet_Publish (demo_qos2 false)] ++ [Packet_Publish (demo_qos2 true)] ++
       [Packet_Pingresp] ++ [Packet_Pubrel 5] ++ [Packet_Pubrel 5; Packet_Pingresp]) =
      (w', concat (map (client_tasks one_node 1 demo_config) due), Ok false) ∧
    filter (due_item 5) due = [incoming_from_packet (demo_qos2 true)].
Proof.
  apply (client_qos2_exactly_once one_node demo 1 (demo_ch 1) demo_config 5 (demo_qos2 true)
    [Packet_Publish (demo_qos2 false)] [Packet_Pingresp] [Packet_Pubrel 5; Packet_Pingresp]).
  - vm_compute; reflexivity.
  - vm_compute; discriminate.
  - apply map_Forall_empty.
  - apply (bool_decide_unpack _). vm_compute. exact I.
  - reflexivity.
  - reflexivity.
  - apply (bool_decide_unpack _). vm_compute. exact I.
  - repeat constructor; intros (pb & Heq & _); discriminate Heq.
Defined.

Definition demo_connect_bytes : bytes :=
  match encode_packet (Packet_Connect (build_connect demo_config)) with
  | Ok b => b | _ => []
  end.

Lemma client_connect_reaches_server_witness :
  ∃ connect allocs', read_packet 1000 (mkReader (demo_connect_bytes ++ [0xC0; 0x00]) []) =
      (Ok (Packet_Connect connect), mkReader [0xC0; 0x00] allocs') ∧
    conn_client_id connect = str_of "cid".
Proof.
  destruct (client_connect_reaches_server demo_config demo_connect_bytes [0xC0; 0x00] 1000 [])
    as (connect & allocs' & H1 & H2 & _).
  - apply (bool_decide_unpack (packet_ok _)). vm_compute. exact I.
  - by repeat split.
  - vm_compute; reflexivity.
  - vm_compute; congruence.
  - exists connect, allocs'. exact (conj H1 H2).
Defined.

(** The payload of the publish is the two bytes of a DISCONNECT. *)
Definition demo_payload_publish : PublishPacket :=
  mkPublishPacket (str_of "t") [0xE0; 0x00] false AtMostOnce false None.

Definition demo_client : ClientConn (Handler:=unit) (Node:=unit) :=
  mkClientConn 1 demo_config (mkReader [0x30; 0x05; 0x00; 0x01; 0x74; 0xE0; 0x00] []) [] true.

Lemma client_tick_desync_witness :
  ∃ lost w' c', client_turn one_node demo demo_client (Cev_Tick lost) = (w', c', None) ∧
    (read_packet 1048576 (cc_reader c')).1 = Ok Packet_Disconnect.
Proof.
  apply (client_tick_desync demo demo_client one_node (demo_ch 1) demo_payload_publish
    [0x30; 0x05; 0x00; 0x01; 0x74; 0xE0; 0x00] Packet_Disconnect [0xE0; 0x00] [] []);
    try (vm_compute; reflexivity); try (vm_compute; discriminate); try exact I.
  split_and!; try (vm_compute; reflexivity); apply (bool_decide_unpack _); vm_compute; exact I.
Defined.
