(* ===== verification/ClientFlow.v ===== *)
(** The life of a connection in either role: theorems about [handle_client] of
    [src/src/protocol/client.rs] and [handle] of [src/src/protocol/mod.rs], from the
    handshake to the end, and what ends the read loops. *)

From S2P Require Import Prelude.
From S2P Require Import Types.
From S2P Require Import Safety.
From S2P Require Import Wire.
From S2P Require Import Decode.
From S2P Require Import Codec.
From S2P Require Import Session.
From S2P Require Import Channel.
From S2P Require Import Subscriptions.
From S2P Require Import Broker.
From S2P Require Import Context.
From S2P Require Import Send.
From S2P Require Import Protocol.
From S2P Require Import Server.
From S2P Require Import ServerFlow.
From S2P Require Import Client.

(** ** A client connection never panics *)

(** The connection's channel exists and it owns no session. *)
Definition unowned (w : World) (id : Z) : Prop :=
  is_Some (w_channels w !! id) ∧ ∀ c, owned_entry w c id = None.

Lemma unowned_on_channel {A} w id (f : MqttChannel → MqttChannel * mresult A) :
  unowned w id → unowned (on_channel w id f).1 id.
Proof.
  intros [Hw Hno]. split.
  - by apply (on_channel_owns w id []).
  - intros c. eapply same_owner_None; [apply same_owner_broker, on_channel_broker | apply Hno].
Qed.

Lemma unowned_env w id f : quiet_env id f → unowned w id → unowned (f w) id.
Proof. intros Hf [Hw Hno]. destruct (Hf w) as [H1 H2]. split; auto. Qed.

Lemma on_channel_returns {A} w id (f : MqttChannel → MqttChannel * mresult A) :
  is_Some (w_channels w !! id) → (∀ ch, returns (f ch).2 = true) →
  returns (on_channel w id f).2 = true.
Proof. intros [ch Hch] Hf. rewrite (on_channel_Some _ _ ch) by done. apply Hf. Qed.

(** An [on_channel] in front of [k]. *)
Lemma on_channel_case {A B} w id (f : MqttChannel → MqttChannel * mresult A)
    (k : World → mresult A → B) (Q : B → Prop) :
  unowned w id → (∀ ch, returns (f ch).2 = true) →
  (∀ w' r, unowned w' id → returns r = true → Q (k w' r)) →
  Q (let '(w', r) := on_channel w id f in k w' r).
Proof.
  intros Hw Hf Hk. pose proof (unowned_on_channel w id f Hw) as Hw'.
  pose proof (on_channel_returns w id f (proj1 Hw) Hf) as Hr.
  destruct (on_channel w id f) as [w' r]. by apply Hk.
Qed.

Section client.
Context {Handler Node : Type} (walk : str → list Node).
Implicit Types c : ClientConn (Handler:=Handler) (Node:=Node).

Definition client_safe (id : Z) (res : World * list (ClientTask (Handler:=Handler) (Node:=Node)) *
    mresult bool) : Prop :=
  unowned res.1.1 id ∧ returns res.2 = true.

Lemma client_then_safe w id f (tasks : list (ClientTask (Handler:=Handler) (Node:=Node))) :
  unowned w id → (∀ ch, returns (f ch).2 = true) → client_safe id (client_then w id f tasks).
Proof.
  intros Hw Hf. unfold client_then. apply (on_channel_case w id f); [done | done|].
  intros w' r Hw' Hr. split; [done|]. by destruct r.
Qed.

Lemma client_dispatch_safe w id (config : MqttClientConfig Handler) p :
  unowned w id → client_safe id (dispatch_client_inbound walk w id config p).
Proof.
  intros Hw. destruct p as [k|a|pb|i|i|i|i|s|a|u|i| | |]; cbn [dispatch_client_inbound];
    try (by split); try (apply client_then_safe; [done | done]).
  - apply (on_channel_case w id _ (λ w r, match r with
      | Ok _ => if bool_decide (pub_qos pb = ExactlyOnce) then (w, [], Ok false)
          else (w, dispatch_inbound_to_endpoints walk id pb (cfg_default_inbound config), Ok false)
      | Err e => (w, [], Err e) | Panic => (w, [], Panic) | Loop => (w, [], Loop) end));
      [done | apply ack_inbound_returns|].
    intros w' r Hw' Hr. destruct r; try done. by case_bool_decide.
  - apply (on_channel_case w id _ (λ w _, client_then w id _ _)); [done | done|].
    intros w' r Hw' _. apply client_then_safe; [done | intros ch; apply send_packet_returns].
  - apply (on_channel_case w id _ (λ w r, client_then w id _ (match r with
      | Ok (Some publish) =>
          dispatch_incoming_to_endpoints_owned walk id publish (cfg_default_inbound config)
      | _ => [] end))); [done | done|].
    intros w' r Hw' _. apply client_then_safe; [done | intros ch; apply send_packet_returns].
Qed.

(** The events other tasks cause leave the connection its channel. *)
Definition quiet_client (id : Z) (ev : ClientEvent) : Prop :=
  match ev with Cev_Env f => quiet_env id f | _ => True end.

Definition client_inv (w : World) (c : ClientConn (Handler:=Handler) (Node:=Node)) : Prop :=
  unowned w (cc_channel c) ∧ bytes_ok (rd_input (cc_reader c)).

Lemma read_packet_reader max_size rd r rd' :
  bytes_ok (rd_input rd) → read_packet max_size rd = (r, rd') →
  returns r = true ∧ bytes_ok (rd_input rd').
Proof.
  intros Hok Hr. destruct rd as [data allocs].
  destruct (read_packet_any data allocs max_size Hok) as [Hm Hok']. rewrite Hr in Hm, Hok'.
  split; [|done]. by destruct r.
Qed.

Lemma cancel_read_reader max_size rd lost rd' :
  bytes_ok (rd_input rd) → cancel_read max_size rd lost = Some rd' → bytes_ok (rd_input rd').
Proof.
  intros Hok. unfold cancel_read. destruct (read_packet max_size rd) as [r rd1].
  case_bool_decide; [|done]. intros [= <-]. by apply Forall_drop.
Qed.

Lemma client_turn_inv w c ev w' c' exit :
  quiet_client (cc_channel c) ev → client_inv w c → client_turn walk w c ev = (w', c', exit) →
  client_inv w' c' ∧ cc_channel c' = cc_channel c ∧ exit ≠ Some Client_panic.
Proof.
  intros Hev [Hw Hrd] Ht. destruct ev as [| |lost| |f]; cbn [client_turn] in Ht.
  - destruct (negb _); by injection Ht as <- <- <-.
  - destruct (cc_at_select c); [|by injection Ht as <- <- <-].
    destruct (read_packet _ (cc_reader c)) as [r rd'] eqn:E.
    destruct (read_packet_reader _ _ _ _ Hrd E) as [Hret Hrd'].
    destruct r as [p|e| |]; try done.
    + destruct (client_dispatch_safe w (cc_channel c) (cc_config c) p Hw) as [Hw1 Hr1].
      destruct (dispatch_client_inbound walk w _ _ p) as [[w1 tasks] [[]|e| |]];
        try done; by injection Ht as <- <- <-.
    + destruct e; by injection Ht as <- <- <-.
  - destruct (cc_at_select c); [|by injection Ht as <- <- <-].
    destruct (tick_or_never _); [|by injection Ht as <- <- <-].
    destruct (cancel_read _ _ _) as [rd'|] eqn:E; [|by injection Ht as <- <- <-].
    apply cancel_read_reader in E; [|done]. cbn [client_advance cc_channel] in Ht.
    pose proof (unowned_on_channel w (cc_channel c) (λ ch, send_packet ch Packet_Pingreq) Hw) as Hw1.
    destruct (on_channel w _ _) as [w1 r]. destruct (is_ok r); by injection Ht as <- <- <-.
  - destruct (cc_at_select c); by injection Ht as <- <- <-.
  - injection Ht as <- <- <-. split; [|done]. split; [by apply unowned_env | done].
Qed.

Lemma client_loop_inv evs w c w' c' exit :
  Forall (quiet_client (cc_channel c)) evs → client_inv w c →
  client_loop walk w c evs = (w', c', exit) →
  client_inv w' c' ∧ cc_channel c' = cc_channel c ∧ exit ≠ Some Client_panic.
Proof.
  revert w c. induction evs as [|ev evs IH]; intros w c Hev Hinv Hl; cbn in Hl.
  { by injection Hl as <- <- <-. }
  apply Forall_cons in Hev as [Hev Hevs].
  destruct (client_turn walk w c ev) as [[w1 c1] e1] eqn:E.
  destruct (client_turn_inv _ _ _ _ _ _ Hev Hinv E) as (Hinv1 & Hid1 & He1).
  destruct e1 as [ex|]; [by injection Hl as <- <- <-|].
  destruct (IH w1 c1) as (? & ? & ?); [by rewrite Hid1 | done | done|].
  split_and!; [done | congruence | done].
Qed.

(** What the handshake leaves behind. *)
Definition handshake_ok (id : Z) (res : World * mresult (ClientConn (Handler:=Handler) (Node:=Node))) :
    Prop :=
  unowned res.1 id ∧
  match res.2 with
  | Ok c => cc_channel c = id ∧ bytes_ok (rd_input (cc_reader c))
  | Err _ => True
  | Panic | Loop => False
  end.

Lemma client_connect_ok (config : option (MqttClientConfig Handler)) timed_out w id ch :
  w_channels w !! id = Some ch → (∀ cid, owned_entry w cid id = None) →
  (∀ rd, ch_reader ch = Some rd → bytes_ok (rd_input rd)) →
  handshake_ok id (client_connect config timed_out w id).
Proof.
  intros Hch Hno Hrd. assert (unowned w id) as Hw by (split; [by eexists | done]).
  unfold client_connect. destruct config as [config|]; [|done].
  rewrite (on_channel_Some _ _ ch) by done. cbn [take_reader fst snd].
  set (w1 := set_channels w _).
  assert (unowned w1 id) as Hw1 by (split; [cbn; by rewrite lookup_insert_eq | done]).
  destruct (ch_reader ch) as [rd|]; cbn [ok_or]; [|done].
  specialize (Hrd rd eq_refl).
  pose proof (unowned_on_channel w1 id
    (λ ch, send_packet ch (Packet_Connect (build_connect config))) Hw1) as Hw2.
  pose proof (on_channel_returns w1 id
    (λ ch, send_packet ch (Packet_Connect (build_connect config))) (proj1 Hw1)
    (λ ch, send_packet_returns ch _)) as Hr2.
  destruct (on_channel w1 id _) as [w2 [[]|e| |]]; try done. destruct timed_out; [done|].
  destruct (read_packet _ rd) as [r rd'] eqn:E.
  destruct (read_packet_reader _ _ _ _ Hrd E) as [Hret Hrd'].
  destruct r as [p| | |]; try done. destruct p as [|ack| | | | | | | | | | | |]; try done.
  case_bool_decide; cbn [negb]; [|done]. set (g := with_session _).
  pose proof (unowned_on_channel w2 id g Hw2) as Hw3.
  destruct (on_channel w2 id g) as [w3 r3].
  destruct (cfg_initial_subscriptions config) as [|f fs]; [done|].
  set (k := λ ch : MqttChannel, _).
  pose proof (unowned_on_channel w3 id k Hw3) as Hw4.
  pose proof (on_channel_returns w3 id k (proj1 Hw3)
    (λ ch, send_packet_returns (set_session ch _) _)) as Hr4.
  destruct (on_channel w3 id k) as [w4 [[]| | |]]; done.
Qed.

Lemma handle_client_ends (config : option (MqttClientConfig Handler)) timed_out w id ch evs
    w' tasks r :
  w_channels w !! id = Some ch → (∀ cid, owned_entry w cid id = None) →
  (∀ rd, ch_reader ch = Some rd → bytes_ok (rd_input rd)) →
  Forall (quiet_client id) evs →
  handle_client walk config timed_out w id evs = Some (w', tasks, r) →
  returns r = true ∧ unowned w' id.
Proof.
  intros Hch Hno Hrd Hevs Hh. unfold handle_client in Hh.
  destruct (client_connect_ok config timed_out w id ch Hch Hno Hrd) as [Hw1 Hc].
  destruct (client_connect config timed_out w id) as [w1 [c|e| |]]; cbn [fst snd] in *;
    try done; [|by injection Hh as <- <- <-].
  destruct Hc as [<- Hok].
  destruct (client_loop walk w1 c evs) as [[w2 c2] exit] eqn:E.
  destruct (client_loop_inv _ _ _ _ _ _ Hevs (conj Hw1 Hok) E) as ([Hw2 _] & Hid & Hex).
  rewrite Hid in Hw2. destruct exit as [[|e|]|]; try done; [|by injection Hh as <- <- <-].
  pose proof (unowned_on_channel w2 (cc_channel c) (λ ch, send_packet ch Packet_Disconnect) Hw2)
    as Hw3.
  destruct (on_channel w2 _ _) as [w3 r3]. by injection Hh as <- <- <-.
Qed.
End client.

(** ** Theorems *)

(** C16: a connection in either role ends cleanly.  Whatever the peer sends, whichever
    timers fire and whatever other tasks do meanwhile, when [handle] returns it has
    not panicked, its channel is closed, and no session is registered for the
    connection. *)
Theorem handle_ends `{DashMapIter} {Handler Node} (walk : str → list Node) node_run has_broker
    (config : option (MqttClientConfig Handler)) timed_out w id ch sevs gaps cevs w' r :
  w_channels w !! id = Some ch → (∀ c, owned_entry w c id = None) →
  (∀ rd, ch_reader ch = Some rd → bytes_ok (rd_input rd)) →
  Forall (quiet_event id) sevs → Forall (quiet_env id) gaps → Forall (quiet_client id) cevs →
  handle walk node_run has_broker config timed_out w id sevs gaps cevs = Some (w', r) →
  returns r = true ∧ (∀ c, owned_entry w' c id = None) ∧
  ∃ ch', w_channels w' !! id = Some ch' ∧ is_open ch' = false.
Proof.
  intros Hch Hno Hrd Hsevs Hgaps Hcevs Hh. pose proof Hh as Hclosed. unfold handle in Hh.
  rewrite Hch in Hh. cbn in Hh.
  assert (∃ w0, w' = close_channel w0 id ∧ returns r = true ∧ unowned w0 id)
    as (w0 & -> & Hr & [ch0 Hw0] & Hno0).
  { destruct (ch_role ch).
    - destruct (handle_server _ _ _ _ _ _ _ _) as [[w1 r1]|] eqn:E; [|done].
      injection Hh as <- <-. exists w1. split; [done|]. by eapply handle_server_ends.
    - destruct (handle_client _ _ _ _ _ _) as [[[w1 ts] r1]|] eqn:E; [|done].
      injection Hh as <- <-. exists w1. split; [done|]. by eapply handle_client_ends. }
  split; [done|]. split; [done|]. exists (close ch0).
  assert (w_channels (close_channel w0 id) !! id = Some (close ch0)) as Hc
    by (cbn; by rewrite lookup_alter_eq, Hw0).
  split; [done|]. by eapply handle_closes.
Qed.

(** How a turn of the server's loop that reads ends it. *)
Definition server_verdict (deadline : option Z) (elapsed : bool) (r : mresult Packet) :
    option loop_exit :=
  match deadline, elapsed, r with
  | Some _, true, _ => Some (Broke false None)
  | _, _, Err (Io _) => Some (Broke false None)
  | _, _, Err e => Some (Broke false (Some e))
  | _, _, Ok Packet_Disconnect => Some (Broke true None)
  | _, _, Ok (Packet_Connect _) => Some (Broke false (Some (Protocol SessionAlreadyBound)))
  | _, _, Ok _ => None
  | _, _, Panic | _, _, Loop => Some Panicked
  end.

(** One read of a live connection, before its effect on the world. *)
Lemma loop_turn_verdict `{DashMapIter} {Node} (walk : str → list Node) node_run w c ch elapsed :
  live w c ch → sc_at_select c = true → bytes_ok (rd_input (sc_reader c)) →
  let verdict := server_verdict (sc_read_deadline c) elapsed
    (read_packet (sc_max_packet_size c) (sc_reader c)).1 in
  ∃ w' c', loop_turn walk node_run w c (Ev_Read elapsed) = (w', c', verdict) ∧
    (is_Some verdict → w' = w ∧ sc_work c' = sc_work c).
Proof.
  intros Hl Hsel Hok. cbn [loop_turn]. rewrite Hsel. unfold read_packet_before.
  destruct (read_packet _ (sc_reader c)) as [r rd'] eqn:E.
  destruct (read_packet_reader _ _ _ _ Hok E) as [Hret _]. cbn [fst].
  assert (∃ w' c', loop_read w (set_conn_reader c rd')
      (match r with Ok p => Read_Packet p | Err e => Read_Failed e | _ => Read_DeadlineElapsed end) =
      (w', c', server_verdict None false r) ∧
    (is_Some (server_verdict None false r) → w' = w ∧ sc_work c' = sc_work c)) as Hread.
  { destruct r as [p|e| |]; try done; [|destruct e; by eexists _, _].
    destruct (is_connect p) eqn:Hp; [destruct p; try done; by eexists _, _|].
    destruct (dispatch_live w (set_conn_reader c rd') ch p) as (w' & c' & ch' & Hd & _); try done.
    unfold loop_read. rewrite Hd. destruct p; try done; eexists _, _; (split; [done|]);
      cbn; by intros [? ?]. }
  destruct (sc_read_deadline c), elapsed, r; try done; by eexists _, _.
Qed.


(** ** Witnesses *)

(** A peer that sends a second CONNECT. *)
Definition demo_twice : World :=
  set_channels demo (<[3 := (channel_new 3 (mkReader
    (take (length demo_input - 2) demo_input ++ take (length demo_input - 2) demo_input) [])
    (mkWriter [] None) None None Role_Server).2]> (w_channels demo)).

Definition demo_admitted : World * ServerConn :=
  match admit_peer true false demo_twice 3 with
  | (w, Ok c) => (w, enter_select c)
  | (w, _) => (w, demo_conn)
  end.


(** A client whose server refuses it. *)
Definition demo_refused : World :=
  set_channels demo (<[3 := (channel_new 3 (mkReader [0x20; 2; 0; 5] [])
    (mkWriter [] None) None None Role_Client).2]> (w_channels demo)).

Definition demo_handled : option (World * mresult unit) :=
  handle no_nodes no_run false (Some demo_config) false demo_refused 3 [] [] [].

Lemma demo_handled_eq :
  demo_handled = Some ((default (demo, Panic) demo_handled).1,
    Err (Protocol (ConnectionRefused NotAuthorized))).
Proof. vm_compute. reflexivity. Qed.

Lemma handle_ends_witness :
  ∃ ch', w_channels (default (demo, Panic) demo_handled).1 !! 3 = Some ch' ∧ is_open ch' = false.
Proof.
  apply (handle_ends no_nodes no_run false (Some demo_config) false demo_refused 3
    (default demo_3 (w_channels demo_refused !! 3)) [] [] [] _
    (Err (Protocol (ConnectionRefused NotAuthorized)))); [reflexivity | | | constructor | constructor | constructor |].
  - intros c. apply owned_entry_None.
    destruct (w_sessions demo_refused !! c) as [e|] eqn:He; [|done].
    cbn. intros [= Heq]. by apply (demo_joined_fresh c e).
  - intros rd Hrd. vm_compute in Hrd. injection Hrd as <-.
    apply (bool_decide_unpack _). vm_compute. exact I.
  - apply demo_handled_eq.
Defined.
