(* ===== verification/Typed.v ===== *)
(** What is on its way to the wire can be sent: a type invariant of the whole
    program.  The commands in the queues, the publishes stashed for their PUBREL,
    the publishes on their way through the worker and the registered Wills all
    satisfy what the encoders of [src/src/codec/encode.rs] ask for, because they
    were received or are answers.  So no packet of a peer can make a writer actor
    of [src/src/channel.rs] give up: it leaves for a transport error, a shutdown
    or the end of its queue only. *)

From S2P Require Import Prelude.
From S2P Require Import Utf8.
From S2P Require Import Types.
From S2P Require Import Safety.
From S2P Require Import Wire.
From S2P Require Import Encode.
From S2P Require Import Decode.
From S2P Require Import Codec.
From S2P Require Import Roundtrip.
From S2P Require Import Reencode.
From S2P Require Import Topic.
From S2P Require Import Session.
From S2P Require Import Channel.
From S2P Require Import Subscriptions.
From S2P Require Import Broker.
From S2P Require Import Context.
From S2P Require Import Protocol.
From S2P Require Import Server.
From S2P Require Import ServerFlow.
From S2P Require Import Client.

(** ** Messages *)

(** A message that fits a PUBLISH of this QoS or a lower one. *)
Definition relayable (topic payload : bytes) (qos : QoS) : Prop :=
  str_ok topic ∧ field_fits topic ∧ bytes_ok payload ∧
  field_size topic + (if bool_decide (qos = AtMostOnce) then 0 else 2) + len payload
    ≤ MQTT_SPEC_MAX_PACKET_SIZE.

Definition publish_relayable (p : PublishPacket) : Prop :=
  relayable (pub_topic p) (pub_payload p) (pub_qos p).
Definition incoming_relayable (i : IncomingPublish) : Prop :=
  relayable (inc_topic i) (inc_payload i) (inc_qos i).
Definition will_relayable (w : WillMessage) : Prop :=
  relayable (wm_topic w) (wm_payload w) (wm_qos w).

(** A packet the encoders accept and whose encoding the decoder reads back. *)
Definition sendable (p : Packet) : Prop :=
  packet_ok p ∧ encodable p ∧
  match p with Packet_Publish p => publish_encodable p | _ => True end.

Definition cmd_sendable (cmd : WriteCmd) : Prop :=
  match cmd with
  | Cmd_Packet p => sendable p
  | Cmd_Publish p => sendable (Packet_Publish p)
  | Cmd_Flush | Cmd_Shutdown => True
  end.

(** Bytes that are the encodings of such commands, and the front of them. *)
Definition sent_stream (b : bytes) : Prop :=
  ∃ cmds, Forall cmd_sendable cmds ∧ b = concat (map cmd_bytes cmds).
Definition tidy (b : bytes) : Prop := ∃ full, sent_stream full ∧ b `prefix_of` full.

(** What a writer has put on the wire: whole packets, the last one of which may be cut
    short once it has given up. *)
Definition wire_typed (a : actor_state) (wr : writer) : Prop :=
  opt_ok (λ n, 0 ≤ n) (wr_room wr) ∧
  match a with Exited => tidy (wr_out wr) | _ => sent_stream (wr_out wr) end.

Record outbound (ch : MqttChannel) : Prop := {
  ob_queue : Forall cmd_sendable (ch_queue ch);
  ob_writing cmd : ch_actor ch = Writing cmd → cmd_sendable cmd;
  ob_wire : wire_typed (ch_actor ch) (ch_writer ch);
}.

Record channel_typed (ch : MqttChannel) : Prop := {
  ct_out : outbound ch;
  ct_stash id i : ss_qos2_recv (ch_session ch) !! id = Some i → incoming_relayable i;
  ct_reader : opt_ok (λ rd, bytes_ok (rd_input rd)) (ch_reader ch);
}.

Record world_typed (w : World) : Prop := {
  wt_channel id ch : w_channels w !! id = Some ch → channel_typed ch;
  wt_will c e will :
    w_sessions w !! c = Some e → se_will e = Some will → will_relayable will;
}.

(** ** Encoding *)

Lemma sendable_encode p :
  sendable p → ∃ w, encode_packet p = Ok w ∧ frames w (wire_view p).
Proof.
  intros (Hok & He & Hp).
  assert (∃ w, encode_packet p = Ok w) as [w Hw].
  { destruct p; cbn [encode_packet]; eauto.
    eexists. by apply encode_publish_Ok. }
  exists w. split; [done|]. by apply encode_packet_frames.
Qed.

(** The packet id of a PUBLISH that is sent. *)
Definition id_fits (m : PublishPacket) : Prop :=
  match pub_packet_id m with
  | None => pub_qos m = AtMostOnce
  | Some id => pub_qos m ≠ AtMostOnce ∧ 1 ≤ id ≤ u16_max
  end.

Lemma relayable_sendable m : publish_relayable m → id_fits m → sendable (Packet_Publish m).
Proof.
  intros (Hs & Hf & Hb & Hl) Hid. unfold id_fits in Hid.
  unfold sendable, publish_encodable. cbn. unfold publish_ok. split_and!; try done.
  - destruct (pub_packet_id m); cbn; [|done]. unfold u16_ok, u16_max in *. lia.
  - intros Hne. destruct (pub_packet_id m) as [id|]; [|done]. exists id.
    split; [done|]. destruct Hid. lia.
Qed.

(** A copy of a relayable message can be sent, whatever the subscription. *)
Lemma delivery_sendable p q m :
  publish_relayable p → delivery p q m → sendable (Packet_Publish m).
Proof.
  intros (Hs & Hf & Hb & Hl) (Ht & Hp & Hq & _ & _ & Hid). apply relayable_sendable; [|done].
  unfold publish_relayable, relayable. rewrite Ht, Hp. split_and!; try done.
  rewrite Hq. destruct (pub_qos p), q; cbn [qos_min qos_leb] in *;
    repeat case_bool_decide; try done; lia.
Qed.

Lemma received_relayable p :
  received MQTT_SPEC_MAX_PACKET_SIZE (Packet_Publish p) → publish_relayable p.
Proof. intros ((Hs & Hb & _) & [Hf _] & Hl). by split_and!. Qed.

Lemma will_of_relayable connect will :
  packet_ok (Packet_Connect connect) → fields_fit (Packet_Connect connect) →
  will_of connect = Some will → will_relayable will.
Proof.
  intros (_ & _ & _ & _ & Hw) (_ & Hf & _). unfold will_of.
  destruct (conn_will connect) as [wp|]; [|done]. intros [= <-]. cbn in *.
  destruct Hw as [Hs Hb], Hf as [Ht Hp]. unfold will_relayable. cbn. split_and!; try done.
  unfold field_size, field_fits, u16_max, MQTT_SPEC_MAX_PACKET_SIZE in *. case_bool_decide; lia.
Qed.

(** ** Channels *)

Section channels.
Implicit Types ch : MqttChannel.

Lemma sent_stream_nil : sent_stream [].
Proof. by exists []. Qed.

Lemma sent_stream_snoc b cmd :
  sent_stream b → cmd_sendable cmd → sent_stream (b ++ cmd_bytes cmd).
Proof.
  intros (cmds & Hc & ->) Hcmd. exists (cmds ++ [cmd]). rewrite map_app, concat_app. cbn.
  rewrite app_nil_r. split; [|done]. apply Forall_app. split; [done | by constructor].
Qed.

Lemma sent_stream_tidy b : sent_stream b → tidy b.
Proof. intros Hb. by exists b. Qed.

Lemma wire_typed_tidy a wr : wire_typed a wr → tidy (wr_out wr).
Proof. intros [_ Hw]. destruct a; auto using sent_stream_tidy. Qed.

Lemma wire_typed_fresh a wr :
  opt_ok (λ n, 0 ≤ n) (wr_room wr) → wr_out wr = [] → a ≠ Exited → wire_typed a wr.
Proof. intros Hr Ho Ha. split; [done|]. rewrite Ho. destruct a; auto using sent_stream_nil. done. Qed.

Lemma send_cmd_outbound ch cmd :
  cmd_sendable cmd → outbound ch → outbound (send_cmd ch cmd).1.
Proof.
  intros Hc [Hq Hw Ho]. unfold send_cmd.
  destruct (ch_actor ch) eqn:E; split; cbn; rewrite ?E; try done;
    (apply Forall_app; split; [done | by constructor]).
Qed.

Lemma set_session_outbound ch s : outbound ch → outbound (set_session ch s).
Proof. intros [Hq Hw Ho]. by split. Qed.

Lemma close_outbound ch : outbound ch → outbound (close ch).
Proof.
  intros [Hq Hw Ho]. unfold close. destruct (ch_open ch); cbn; [|done].
  split; cbn; [done|..]; by destruct (ch_actor ch).
Qed.

Lemma channel_new_typed n rd wr la ra role :
  bytes_ok (rd_input rd) → opt_ok (λ n, 0 ≤ n) (wr_room wr) → wr_out wr = [] →
  channel_typed (channel_new n rd wr la ra role).2.
Proof.
  intros Hrd Hroom Hout. split; cbn; [|done | done]. split; cbn; [done | done|].
  by apply wire_typed_fresh.
Qed.

Lemma send_cmd_typed ch cmd :
  cmd_sendable cmd → channel_typed ch → channel_typed (send_cmd ch cmd).1.
Proof.
  intros Hc [Ho Hs Hr]. split; [by apply send_cmd_outbound|..]; unfold send_cmd;
    by destruct (ch_actor ch).
Qed.

(** A change of the session that keeps the stash. *)
Lemma set_session_typed ch s :
  ss_qos2_recv s = ss_qos2_recv (ch_session ch) → channel_typed ch →
  channel_typed (set_session ch s).
Proof.
  intros Hst [Ho Hs Hr]. split; [by apply set_session_outbound| |done]. cbn. by rewrite Hst.
Qed.

Lemma close_typed ch : channel_typed ch → channel_typed (close ch).
Proof.
  intros [Ho Hs Hr]. split; [by apply close_outbound|..]; unfold close;
    destruct (ch_open ch); cbn; done.
Qed.

Lemma fanout_to_typed p q ch :
  publish_relayable p → channel_typed ch → channel_typed (fanout_to p q ch).
Proof.
  intros Hp Hch. destruct (fanout_to_send p q ch) as (m & s & -> & Hm & -> & _).
  apply send_cmd_typed; [by eapply delivery_sendable|].
  apply set_session_typed; [|done]. by destruct (pub_packet_id m).
Qed.

(** The writer on a typed channel: a command is written whole, as one frame, and
    the actor goes on; unless the transport fails. *)
Lemma typed_write ch cmd :
  channel_typed ch → ch_actor ch = Writing cmd → cmd ≠ Cmd_Shutdown →
  wr_room (ch_writer ch) = None →
  ∃ ch', actor_write ch = Some ch' ∧ ch_actor ch' = AtSelect false ∧
    ch_queue ch' = ch_queue ch ∧ ch_open ch' = ch_open ch ∧
    wr_out (ch_writer ch') = wr_out (ch_writer ch) ++ cmd_bytes cmd.
Proof.
  intros Hch Ha Hne Hroom. pose proof (ob_writing _ (ct_out _ Hch) cmd Ha) as Hc.
  unfold actor_write. rewrite Ha.
  destruct cmd as [p|p| |]; [| |by eexists; rewrite app_nil_r|done]; cbn in Hc;
    destruct (sendable_encode _ Hc) as (b & Hb & _).
  2: rewrite write_publish_packet_eq by by rewrite Hroom.
  all: unfold write_packet, cmd_bytes; rewrite Hb; cbn; unfold write_all; rewrite Hroom; cbn; eauto 8.
Qed.
End channels.

(** ** The broker *)

Lemma world_typed_set_channel w id ch :
  channel_typed ch → world_typed w →
  world_typed (set_channels w (<[id := ch]> (w_channels w))).
Proof.
  intros Hch [Hc Hw]. split; [|done]. cbn. intros id' ch'.
  rewrite lookup_insert_Some. intros [[_ <-]|[_ Hl]]; [done | by eapply Hc].
Qed.

(** The Wills are those of the sessions, some of which may go. *)
Lemma world_typed_tables w w' :
  w_channels w' = w_channels w →
  (∀ c e, w_sessions w' !! c = Some e →
     ∃ c0 e0, w_sessions w !! c0 = Some e0 ∧ se_will e0 = se_will e) →
  world_typed w → world_typed w'.
Proof.
  intros Hch Hs [Hc Hw]. split; [by rewrite Hch|].
  intros c e will (c0 & e0 & H0 & Heq)%Hs. rewrite <- Heq. by eapply Hw.
Qed.

Lemma world_typed_delete w c :
  world_typed w → world_typed (set_sessions w (delete c (w_sessions w))).
Proof.
  apply world_typed_tables; [done|]. cbn. intros c' e [_ He]%lookup_delete_Some. eauto.
Qed.

Lemma world_typed_alter w c g :
  (∀ e, se_will (g e) = se_will e) → world_typed w →
  world_typed (set_sessions w (alter g c (w_sessions w))).
Proof.
  intros Hg. apply world_typed_tables; [done|]. cbn. intros c' e.
  destruct (decide (c = c')) as [<-|Hne].
  - rewrite lookup_alter_eq. destruct (w_sessions w !! c) as [e0|] eqn:E; [|done].
    intros [= <-]. exists c, e0. by rewrite Hg.
  - rewrite lookup_alter_ne by done. eauto.
Qed.

Lemma world_typed_subs w t : world_typed w → world_typed (set_subs w t).
Proof. apply world_typed_tables; [done|]. eauto. Qed.

Lemma close_channel_typed w id : world_typed w → world_typed (close_channel w id).
Proof.
  intros [Hc Hw]. split; [|done]. cbn. intros id' ch.
  destruct (decide (id = id')) as [<-|Hne]; [|rewrite lookup_alter_ne by done; apply Hc].
  rewrite lookup_alter_eq. destruct (w_channels w !! id) as [ch0|] eqn:E; [|done].
  intros [= <-]. by eapply close_typed, Hc.
Qed.

Create HintDb typed discriminated.
#[local] Hint Resolve world_typed_delete world_typed_subs close_channel_typed
  world_typed_set_channel : typed.

Section broker.
Context `{DashMapIter}.

Lemma publish_typed w src p :
  publish_relayable p → world_typed w → world_typed (publish w src p).
Proof.
  intros Hp. unfold publish. generalize (matching (w_subs w) (pub_topic p)). intros subs.
  revert w. induction subs as [|[c q] subs IH]; intros w Hw; cbn; [done|].
  apply IH. case_bool_decide; [done|].
  destruct (w_sessions w !! c) as [e|]; [|done].
  destruct (w_channels w !! se_channel e) as [ch|] eqn:Hch; [|done].
  apply world_typed_set_channel; [|done]. apply fanout_to_typed; [done|].
  by eapply wt_channel.
Qed.

Lemma publish_will_typed w will :
  opt_ok will_relayable will → world_typed w → world_typed (publish_will w will).
Proof. destruct will as [will|]; [|done]. intros Hw. by apply publish_typed. Qed.

Lemma register_typed w c id will clean :
  opt_ok will_relayable will → world_typed w →
  world_typed (register_session w c id will clean).1.
Proof.
  intros Hwill Hw. unfold register_session, register_takeover, register_insert. cbn.
  set (w1 := match _ !! _ with Some _ => _ | None => _ end).
  assert (world_typed w1) as Hw1.
  { unfold w1. destruct (w_sessions w !! c) as [prev|] eqn:E; auto with typed.
    apply publish_will_typed; auto with typed.
    destruct (se_will prev) eqn:Ew; [by eapply wt_will | done]. }
  clearbody w1.
  assert (world_typed (if clean then set_subs w1 (tree_remove_client (w_subs w1) c) else w1))
    as [Hc Hws] by (destruct clean; auto with typed).
  split; [done|]. cbn. intros c' e will'. rewrite lookup_insert_Some.
  intros [[_ <-]|[_ He]] Hwill'; [|by eapply Hws]. cbn in Hwill'. by rewrite Hwill' in Hwill.
Qed.

Lemma unregister_typed w c id graceful :
  world_typed w → world_typed (unregister_session w c id graceful).
Proof.
  intros Hw. destruct (owned_entry w c id) as [e|] eqn:Ho; [|by rewrite unregister_stale].
  apply owned_entry_Some in Ho as [He <-]. rewrite unregister_owned by done. cbv zeta.
  destruct graceful; [auto with typed|]. apply publish_will_typed; [|auto with typed].
  destruct (se_will e) eqn:Ew; [by eapply wt_will | done].
Qed.
End broker.

Lemma subscribe_typed w c id filters : world_typed w → world_typed (subscribe w c id filters).1.
Proof.
  unfold subscribe. destruct (owned_entry w c id); [|done].
  change w with (w, @nil SubackCode).1 at 1. generalize (w, @nil SubackCode).
  induction filters as [|tf l IH]; intros [w0 codes] Hw; cbn [foldl]; [done|].
  apply IH. unfold subscribe_step.
  destruct (validate_subscribe_filter (tf_filter tf)); cbn [fst] in *; try done.
  apply world_typed_subs. by apply (world_typed_alter w0).
Qed.

Lemma unsubscribe_typed w c id topics : world_typed w → world_typed (unsubscribe w c id topics).
Proof.
  unfold unsubscribe. destruct (owned_entry w c id); [|done].
  revert w. induction topics as [|f l IH]; intros w Hw; cbn [foldl]; [done|].
  apply IH. apply world_typed_subs. by apply (world_typed_alter w).
Qed.

(** ** The server's dispatch *)

Lemma on_channel_typed {A} w id (f : MqttChannel → MqttChannel * mresult A) :
  (∀ ch, channel_typed ch → channel_typed (f ch).1) → world_typed w →
  world_typed (on_channel w id f).1.
Proof.
  intros Hf Hw. destruct (w_channels w !! id) as [ch|] eqn:E.
  - rewrite (on_channel_Some _ _ ch) by done. apply world_typed_set_channel; [|done].
    by eapply Hf, wt_channel.
  - unfold on_channel. by rewrite E.
Qed.

Lemma send_packet_typed ch p : sendable p → channel_typed ch → channel_typed (send_packet ch p).1.
Proof. intros Hp. by apply (send_cmd_typed ch (Cmd_Packet p)). Qed.

Lemma ack_inbound_typed pb ch :
  received MQTT_SPEC_MAX_PACKET_SIZE (Packet_Publish pb) → channel_typed ch →
  channel_typed (ack_inbound_publish_pre_chain pb ch).1.
Proof.
  intros Hr Hch. pose proof (received_relayable pb Hr) as Hrel.
  destruct Hr as ((_ & _ & Hid) & _). unfold ack_inbound_publish_pre_chain.
  destruct (pub_qos pb) eqn:Hq, (pub_packet_id pb) as [id|]; try done.
  - by apply send_packet_typed.
  - apply send_packet_typed; [done|]. destruct Hch as [Ho Hs Hrd]. split; cbn; [by destruct Ho| |done].
    intros id' i. rewrite lookup_insert_Some. intros [[_ <-]|[_ Hi]]; [exact Hrel | by eapply Hs].
Qed.

(** What a connection holds besides the world: the work of its worker, and the
    bytes of its reader. *)
Definition conn_typed (c : ServerConn) : Prop :=
  Forall publish_relayable (sc_work c) ∧ bytes_ok (rd_input (sc_reader c)).

Definition turn_typed {A} (res : World * ServerConn * A) : Prop :=
  world_typed res.1.1 ∧ conn_typed res.1.2.

Lemma then_channel_typed w c f k :
  (∀ ch, channel_typed ch → channel_typed (f ch).1) → world_typed w → conn_typed c →
  (∀ w', world_typed w' → turn_typed (k w')) → turn_typed (then_channel w c f k).
Proof.
  intros Hf Hw Hc Hk. unfold then_channel.
  pose proof (on_channel_typed w (sc_channel c) f Hf Hw) as Hw'.
  destruct (on_channel w (sc_channel c) f) as [w' r]. destruct r; try done; by apply Hk.
Qed.

Lemma send_work_typed c pb : publish_relayable pb → conn_typed c → conn_typed (send_work c pb).1.
Proof.
  intros Hp [Hc Hrd]. unfold send_work. destruct (sc_worker c); [|done]. split; [|done].
  apply Forall_app. split; [done | by constructor].
Qed.

Lemma sum_size_ge {A} (f : A → Z) l : (∀ a, 1 ≤ f a) → len l ≤ sum_size f l.
Proof.
  intros Hf. induction l as [|a l IH]; [done|]. rewrite len_cons. cbn. specialize (Hf a).
  unfold sum_size in *. lia.
Qed.

Lemma subscribe_codes_length w c id filters :
  length (subscribe w c id filters).2 = length filters.
Proof.
  unfold subscribe. destruct (owned_entry w c id); [|by cbn; rewrite length_map].
  destruct (foldl _ _ _) as [w' codes] eqn:E. apply subscribe_loop_spec in E as [-> _].
  cbn [snd app]. by rewrite length_map.
Qed.

(** The SUBACK of a received SUBSCRIBE has a code, and no more than it had
    filters. *)
Lemma suback_sendable s codes :
  received MQTT_SPEC_MAX_PACKET_SIZE (Packet_Subscribe s) →
  length codes = length (sub_subscriptions s) →
  sendable (Packet_Suback (mkSubackPacket (sub_packet_id s) codes)).
Proof.
  intros ([Hid _] & [Hne _] & Hs) Hl. split_and!; [done | split | done].
  - cbn. intros ->. by destruct (sub_subscriptions s).
  - rewrite suback_body_size. cbn in *.
    pose proof (sum_size_ge (λ t, field_size (ts_topic t) + 1) (sub_subscriptions s)) as Hg.
    unfold len at 1. rewrite Hl. fold (len (sub_subscriptions s)).
    assert (∀ t, 1 ≤ field_size (ts_topic t) + 1) as H1.
    { intros t. unfold field_size. pose proof (len_nonneg (ts_topic t)). lia. }
    specialize (Hg H1). lia.
Qed.

Lemma released_relayable id i : incoming_relayable i → publish_relayable (released_publish id i).
Proof. done. Qed.

Lemma dispatch_pubrel_typed w c id :
  u16_ok id → world_typed w → conn_typed c →
  turn_typed (dispatch_server_inbound w c (Packet_Pubrel id)).
Proof.
  intros Hid Hw Hc. cbn [dispatch_server_inbound].
  destruct (w_channels w !! sc_channel c) as [ch|] eqn:E.
  2:{ unfold on_channel. by rewrite E. }
  rewrite (on_channel_Some _ _ ch) by done. cbn [take_qos2_publish fst snd].
  pose proof (wt_channel _ Hw _ _ E) as [Hco Hcs Hcr].
  set (w1 := set_channels w _).
  assert (world_typed w1) as Hw1.
  { apply world_typed_set_channel; [|done]. split; cbn; [by destruct Hco| |done].
    intros id' i [_ Hi]%lookup_delete_Some. by eapply Hcs. }
  assert (∀ c', conn_typed c' → turn_typed (then_channel w1 c'
    (λ ch, send_packet ch (Packet_Pubcomp id)) (λ w, (w, c', Ok tt)))) as Hk.
  { intros c' Hc'. apply then_channel_typed; [|done..]. intros. by apply send_packet_typed. }
  destruct (ss_qos2_recv (ch_session ch) !! id) as [stored|] eqn:Es; [|by apply Hk].
  pose proof (send_work_typed c (released_publish id stored) (Hcs _ _ Es) Hc) as Hc'.
  destruct (send_work c (released_publish id stored)) as [c' r]. destruct r; try done; by apply Hk.
Qed.

Lemma dispatch_typed w c p :
  received MQTT_SPEC_MAX_PACKET_SIZE p → world_typed w → conn_typed c →
  turn_typed (dispatch_server_inbound w c p).
Proof.
  intros Hr Hw Hc. pose proof Hr as (Hok & _).
  assert (∀ g, (∀ s, ss_qos2_recv (g s) = ss_qos2_recv s) →
    ∀ ch, channel_typed ch → channel_typed (with_session g ch).1) as Hses.
  { intros g Hg ch. apply set_session_typed, Hg. }
  destruct p as [k|a|pb|id|id|id|id|s|s|u|id| | |];
    try (by apply dispatch_pubrel_typed); cbn [dispatch_server_inbound]; try done.
  - apply then_channel_typed; [|done | done|]; [intros ch; by apply ack_inbound_typed|].
    intros w' Hw'. case_bool_decide; [done|].
    pose proof (send_work_typed c pb (received_relayable pb Hr) Hc) as Hc'.
    by destruct (send_work c pb).
  - apply then_channel_typed; [|done..]. apply Hses. intros s. cbn. by rewrite wake_ack_stash.
  - apply then_channel_typed; [|done | done|]; [apply Hses; intros s; by rewrite wake_ack_stash|].
    intros w' Hw'. apply then_channel_typed; [|done..]. intros. by apply send_packet_typed.
  - apply then_channel_typed; [|done..]. apply Hses. intros s. cbn. by rewrite wake_ack_stash.
  - set (fs := map _ _). pose proof (subscribe_typed w (sc_client_id c) (sc_channel c) fs Hw) as Hw0.
    pose proof (subscribe_codes_length w (sc_client_id c) (sc_channel c) fs) as Hl.
    destruct (subscribe _ _ _ fs) as [w0 codes]. cbn [fst snd] in *.
    apply then_channel_typed; [|done..]. intros. apply send_packet_typed; [|done].
    apply suback_sendable; [done|]. rewrite Hl. unfold fs. by rewrite length_map.
  - apply then_channel_typed; [|by apply unsubscribe_typed|done..].
    intros. apply send_packet_typed; [|done]. by destruct Hok.
  - apply then_channel_typed; [|done..]. intros. by apply send_packet_typed.
Qed.

(** ** The server's loop *)

(** What other tasks do keeps the world typed. *)
Definition typed_env (f : World → World) : Prop := ∀ w, world_typed w → world_typed (f w).
Definition typed_event (ev : LoopEvent) : Prop :=
  match ev with Ev_Env f => typed_env f | _ => True end.

Lemma received_cap max_size p :
  received (Z.min max_size MQTT_SPEC_MAX_PACKET_SIZE) p → received MQTT_SPEC_MAX_PACKET_SIZE p.
Proof. intros Hr. eapply received_mono; [exact Hr | lia]. Qed.

Lemma read_packet_before_typed rd max_size deadline elapsed p rd' :
  bytes_ok (rd_input rd) →
  read_packet_before rd max_size deadline elapsed = (Some (Read_Packet p), rd') →
  received MQTT_SPEC_MAX_PACKET_SIZE p.
Proof.
  intros Hok. destruct rd as [data allocs].
  destruct (read_packet_any data allocs max_size Hok) as [Hy _].
  unfold read_packet_before.
  destruct (read_packet max_size (mkReader data allocs)) as [[p'|e| |] rd1];
    cbn in Hy; destruct deadline, elapsed; try done; intros [= -> _];
    by apply (received_cap max_size).
Qed.

Section loop.
Context `{DashMapIter}.
Context {Node : Type} (walk : str → list Node).
Context (node_run : Node → MqttContext Node → option (MqttContext Node)).

(** User code that is given a message it could send leaves one it could send. *)
Hypothesis node_relays : ∀ node ctx out i i',
  node_run node ctx = Some out → ctx_incoming ctx = Some i → incoming_relayable i →
  ctx_incoming out = Some i' → incoming_relayable i'.

Lemma chain_relayable id p p' :
  publish_relayable p →
  run_server_chain_then_decide_fanout walk node_run id p = Some p' → publish_relayable p'.
Proof.
  intros Hp. unfold run_server_chain_then_decide_fanout.
  assert (∀ nodes st, publish_relayable st.1 →
    publish_relayable (foldl (chain_turn node_run id) st nodes).1) as Hf.
  { intros nodes. induction nodes as [|node nodes IH]; intros [cur fan] Hcur; cbn [foldl]; [done|].
    apply IH. unfold chain_turn. set (ctx := set_endpoint _ _).
    destruct (node_run node ctx) as [out|] eqn:E; [|done].
    destruct (ctx_incoming out) as [i|] eqn:Ei; [|done].
    by apply (node_relays node ctx out (incoming_from_packet cur) i). }
  specialize (Hf (walk (pub_topic p)) (p, true) Hp).
  destruct (foldl _ _ _) as [cur []]; [|done]. by intros [= <-].
Qed.

Lemma worker_turn_typed id cid w p :
  publish_relayable p → world_typed w → world_typed (worker_turn walk node_run id cid w p).
Proof.
  intros Hp Hw. unfold worker_turn.
  destruct (run_server_chain_then_decide_fanout _ _ _ _) as [p'|] eqn:E; [|done].
  apply publish_typed; [by eapply chain_relayable | done].
Qed.

Lemma loop_read_typed w c outcome :
  (∀ p, outcome = Read_Packet p → received MQTT_SPEC_MAX_PACKET_SIZE p) →
  world_typed w → conn_typed c → turn_typed (loop_read w c outcome).
Proof.
  intros Ho Hw Hc. destruct outcome as [p|e|]; [|by destruct e|done].
  pose proof (dispatch_typed w c p (Ho p eq_refl) Hw Hc) as Hd.
  destruct p; cbn [loop_read]; try done;
    destruct (dispatch_server_inbound w c _) as [[w' c'] []]; done.
Qed.

Lemma loop_turn_typed w c ev :
  typed_event ev → world_typed w → conn_typed c → turn_typed (loop_turn walk node_run w c ev).
Proof.
  intros Hev Hw [Hc Hrd]. destruct ev as [|elapsed| | | |f]; cbn [loop_turn].
  - by destruct (negb _).
  - destruct (sc_at_select c); [|done].
    destruct (read_packet_before_total (sc_reader c) (sc_max_packet_size c)
      (sc_read_deadline c) elapsed Hrd) as [[o Ho] Hrd'].
    destruct (read_packet_before _ _ _ _) as [out rd'] eqn:E. cbn in Ho, Hrd'. subst out.
    apply loop_read_typed; [|done|by split]. intros p ->.
    by apply (read_packet_before_typed _ _ _ _ _ _ Hrd E).
  - by destruct (sc_at_select c).
  - unfold run_publish_chain_worker. destruct (sc_work c) as [|p work] eqn:E.
    + split; [done|]. split; cbn; [by rewrite E | done].
    + apply Forall_cons in Hc as [Hp Hc]. split; cbn; [by apply worker_turn_typed | by split].
  - split; [done | by split].
  - split; [by apply Hev | by split].
Qed.

Lemma serve_loop_typed evs w c :
  Forall typed_event evs → world_typed w → conn_typed c →
  turn_typed (serve_loop walk node_run w c evs).
Proof.
  revert w c. induction evs as [|ev evs IH]; intros w c Hevs Hw Hc; cbn; [done|].
  apply Forall_cons in Hevs as [Hev Hevs].
  destruct (loop_turn_typed w c ev Hev Hw Hc) as [Hw1 Hc1].
  destruct (loop_turn walk node_run w c ev) as [[w1 c1] [ex|]]; [done | by apply IH].
Qed.

Lemma drain_typed gaps c w work :
  Forall typed_env gaps → Forall publish_relayable work → world_typed w →
  world_typed (drain walk node_run gaps c w work).
Proof.
  revert gaps w. induction work as [|p work IH]; intros gaps w Hg Hwork Hw; cbn.
  - destruct gaps as [|f gaps]; cbn; [done|]. apply Forall_cons in Hg as [Hf _]. by apply Hf.
  - apply Forall_cons in Hwork as [Hp Hwork]. apply IH; [by destruct Hg | done|].
    apply worker_turn_typed; [done|]. destruct Hg as [|f gaps Hf Hg]; [done | by apply Hf].
Qed.

Lemma connack_typed w id present code :
  world_typed w → world_typed (on_channel w id (λ ch, send_packet ch (connack present code))).1.
Proof. intros. apply on_channel_typed; [|done]. intros. by apply send_packet_typed. Qed.

Lemma admit_register_typed w id rd connect :
  packet_ok (Packet_Connect connect) → fields_fit (Packet_Connect connect) →
  bytes_ok (rd_input rd) → world_typed w →
  world_typed (admit_register w id rd connect).1 ∧
  ∀ c present, (admit_register w id rd connect).2 = Ok (c, present) → conn_typed c.
Proof.
  intros Hok Hfit Hrd Hw. unfold admit_register.
  destruct (keep_alive_refused _ _).
  { pose proof (connack_typed w id false ServerUnavailable Hw). by destruct (on_channel _ _ _). }
  destruct (negb (auth_accepted _)).
  { set (code := auth_return_code _). pose proof (connack_typed w id false code Hw).
    by destruct (on_channel _ _ _). }
  set (cid := assigned_client_id connect id).
  pose proof (register_typed w cid id (will_of connect) (conn_clean_session connect)) as Hreg.
  destruct (register_session _ _ _ _ _) as [w1 present]. cbn [fst] in Hreg.
  assert (world_typed w1) as Hw1.
  { apply Hreg; [|done]. destruct (will_of connect) eqn:E; [|done]. by eapply will_of_relayable. }
  set (f := with_session _).
  assert (world_typed (on_channel w1 id f).1) as Hw2.
  { apply on_channel_typed; [|done]. intros ch. apply set_session_typed. unfold bind_set.
    by destruct (ss_bind (ch_session ch)). }
  destruct (on_channel w1 id f) as [w2 r2]. split; [done|]. by intros c p [= <- <-].
Qed.

Lemma admit_connack_typed w c present :
  world_typed w → conn_typed c →
  world_typed (admit_connack w c present).1 ∧
  ∀ c', (admit_connack w c present).2 = Ok c' → conn_typed c'.
Proof.
  intros Hw Hc. unfold admit_connack.
  pose proof (connack_typed w (sc_channel c) present Accepted Hw) as Hw3.
  destruct (on_channel w (sc_channel c) _) as [w3 r3]. cbn [fst] in Hw3.
  destruct r3; cbn; split; try done; [by intros ? [= <-] | by apply unregister_typed].
Qed.

Lemma admit_begin_typed has_broker timed_out w id :
  world_typed w →
  world_typed (admit_begin has_broker timed_out w id).1 ∧
  ∀ c present, (admit_begin has_broker timed_out w id).2 = Ok (c, present) → conn_typed c.
Proof.
  intros Hw. unfold admit_begin. destruct has_broker; [|done]. cbn [negb].
  destruct (w_channels w !! id) as [ch|] eqn:Hch; [|by unfold on_channel; rewrite Hch].
  rewrite (on_channel_Some _ _ ch) by done. cbn [take_reader fst snd].
  pose proof (wt_channel _ Hw _ _ Hch) as [[Hq Hwr Ho] Hs Hr].
  assert (world_typed (set_channels w (<[id := set_reader ch None]> (w_channels w)))) as Hw1
    by (by apply world_typed_set_channel).
  destruct (ch_reader ch) as [[data allocs]|]; cbn [ok_or]; [|done].
  destruct timed_out; [done|].
  set (w1 := set_channels w _) in *. set (max := max_packet_size _).
  destruct (read_packet_any data allocs max Hr) as [Hy Hrd'].
  destruct (read_packet max (mkReader data allocs)) as [[p| | |] rd']; try done.
  destruct p; try done. cbn in Hy. by apply admit_register_typed; [apply Hy|apply Hy|..].
Qed.

Lemma admit_peer_typed has_broker timed_out w id :
  world_typed w →
  world_typed (admit_peer has_broker timed_out w id).1 ∧
  ∀ c, (admit_peer has_broker timed_out w id).2 = Ok c → conn_typed c.
Proof.
  intros Hw. destruct (admit_begin_typed has_broker timed_out w id Hw) as [Hw1 Hc]. unfold admit_peer.
  destruct (admit_begin has_broker timed_out w id) as [w1 [[c present]|e| |]]; try done.
  by apply admit_connack_typed; [|eapply Hc].
Qed.
End loop.

(** ** The other tasks *)

(** The writer actors: a command reaches the wire whole, or the actor gives up. *)
Lemma write_typed ch cmd r wr :
  outbound ch → ch_actor ch = Writing cmd →
  (∃ p, cmd_bytes cmd = cmd_bytes (Cmd_Packet p) ∧ write_packet p (ch_writer ch) = (r, wr)) →
  wire_typed (if is_ok r then AtSelect false else Exited) wr.
Proof.
  intros [_ Hw [Hroom Ho]] Ha (p & Hp & Hwr). rewrite Ha in Ho.
  destruct (write_cmd_out _ _ _ _ Hroom Hwr) as (Hroom' & Hok & n & Hn). rewrite <- Hp in Hok, Hn.
  split; [done|]. destruct (is_ok r).
  - rewrite Hok by done. by apply sent_stream_snoc; [|apply Hw].
  - rewrite Hn. exists (wr_out (ch_writer ch) ++ cmd_bytes cmd).
    split; [by apply sent_stream_snoc; [|apply Hw] | apply prefix_app, prefix_take].
Qed.

Lemma actor_exit_outbound ch : outbound ch → outbound (actor_exit ch).
Proof.
  intros [Hq Hw Ho]. split; cbn; [done | done|]. split; [apply Ho | by eapply wire_typed_tidy].
Qed.

Lemma actor_write_outbound ch ch' : actor_write ch = Some ch' → outbound ch → outbound ch'.
Proof.
  intros Hs Hc. pose proof Hc as [Hq Hw Ho]. unfold actor_write in Hs.
  destruct (ch_actor ch) as [|cmd|] eqn:Ha; try done.
  assert (∀ r wr, (∃ p, cmd_bytes cmd = cmd_bytes (Cmd_Packet p) ∧
      write_packet p (ch_writer ch) = (r, wr)) →
    (let c := set_writer ch wr in if is_ok r then set_open_actor c (ch_open c) (AtSelect false)
     else actor_exit c) = ch' → outbound ch') as Hgo.
  { intros r wr Hp <-. pose proof (write_typed ch cmd r wr Hc Ha Hp) as Hwr.
    destruct (is_ok r); by split. }
  destruct cmd as [p|p| |].
  - destruct (write_packet p (ch_writer ch)) as [r wr] eqn:E. injection Hs as Hs. eauto.
  - rewrite write_publish_packet_eq in Hs by apply Ho.
    destruct (write_packet _ (ch_writer ch)) as [r wr] eqn:E. injection Hs as Hs. eauto.
  - injection Hs as <-. by split.
  - injection Hs as <-. by apply actor_exit_outbound.
Qed.

Lemma actor_step_outbound ch ch' : actor_step ch ch' → outbound ch → outbound ch'.
Proof.
  intros [d c c' Hs|c c' Hs|c c' Hs] Hc; [|by eapply actor_write_outbound|];
    unfold actor_recv, actor_shutdown in Hs.
  - destruct (ch_actor c) as [b| |] eqn:Ha; try done. pose proof Hc as [Hq Hw Ho].
    destruct (ch_queue c) as [|cmd q];
      [destruct d; [|done]; injection Hs as <-; by apply actor_exit_outbound|].
    injection Hs as <-. apply Forall_cons in Hq as [Hcmd Hq]. rewrite Ha in Ho.
    split; cbn; [done | by intros ? [= <-] | done].
  - destruct (ch_actor c) as [[]| |]; try done. injection Hs as <-. by apply actor_exit_outbound.
Qed.

Lemma actor_step_typed ch ch' : actor_step ch ch' → channel_typed ch → channel_typed ch'.
Proof.
  intros Hs [Ho Hst Hr]. destruct (actor_step_session _ _ Hs) as [Hs' Hr'].
  split; [by eapply actor_step_outbound | by rewrite Hs' | by rewrite Hr'].
Qed.

(** A client connection of the same process answers received packets. *)
Lemma client_dispatch_typed {Handler Node} (walk : str → list Node) w id
    (config : MqttClientConfig Handler) p :
  received MQTT_SPEC_MAX_PACKET_SIZE p → world_typed w →
  world_typed (dispatch_client_inbound walk w id config p).1.1.
Proof.
  intros Hr Hw. pose proof Hr as (Hok & _).
  assert (∀ w f tasks, (∀ ch, channel_typed ch → channel_typed (f ch).1) → world_typed w →
    world_typed (client_then (Handler:=Handler) (Node:=Node) w id f tasks).1.1) as Hthen.
  { intros w0 f tasks Hf Hw0. unfold client_then.
    pose proof (on_channel_typed w0 id f Hf Hw0) as Ht. by destruct (on_channel w0 id f). }
  assert (∀ g, (∀ s, ss_qos2_recv (g s) = ss_qos2_recv s) →
    ∀ ch, channel_typed ch → channel_typed (with_session g ch).1) as Hses.
  { intros g Hg ch. apply set_session_typed, Hg. }
  destruct p as [k|a|pb|pid|pid|pid|pid|s|s|u|pid| | |]; cbn [dispatch_client_inbound]; try done.
  - pose proof (on_channel_typed w id _ (λ ch, ack_inbound_typed pb ch Hr) Hw) as Ht.
    destruct (on_channel _ _ _) as [w' []]; try done. by case_bool_decide.
  - apply Hthen; [|done]. apply Hses. intros s. cbn. by rewrite wake_ack_stash.
  - set (f := with_session _).
    assert (world_typed (on_channel w id f).1) as Ht.
    { apply on_channel_typed; [|done]. apply Hses. intros s. by rewrite wake_ack_stash. }
    destruct (on_channel w id f) as [w' r]. apply Hthen; [|done]. intros. by apply send_packet_typed.
  - set (f := λ ch : MqttChannel, _).
    assert (world_typed (on_channel w id f).1) as Ht.
    { apply on_channel_typed; [|done]. intros ch [[Hq Hwr Ho] Hs Hrd]. split; cbn; [done| |done].
      intros id' i [_ Hi]%lookup_delete_Some. by eapply Hs. }
    destruct (on_channel w id f) as [w' r]. apply Hthen; [|done]. intros. by apply send_packet_typed.
  - apply Hthen; [|done]. apply Hses. intros s. cbn. by rewrite wake_ack_stash.
  - apply Hthen; [|done]. apply Hses. intros s0. by rewrite wake_suback_stash.
  - apply Hthen; [|done]. apply Hses. intros s. by rewrite wake_unsuback_stash.
Qed.

(** ** Theorems *)

Section theorems.
Context `{DashMapIter}.
Context {Node : Type} (walk : str → list Node).
Context (node_run : Node → MqttContext Node → option (MqttContext Node)).

(** No peer can make a writer give up.  Whatever bytes a peer sends, at every
    point of the life of its connection every queue of the program holds only
    packets that the encoders accept, and every stashed publish and registered Will
    can be relayed: a writer that is busy with a command writes all of it and goes
    on, unless the transport itself fails.  The endpoints have to leave messages
    that fit a PUBLISH, and other tasks to keep the same discipline. *)
Theorem server_output_typed has_broker timed_out w id evs gaps w' :
  (∀ node ctx out i i', node_run node ctx = Some out → ctx_incoming ctx = Some i →
     incoming_relayable i → ctx_incoming out = Some i' → incoming_relayable i') →
  world_typed w → Forall typed_event evs → Forall typed_env gaps →
  (∃ w0 c, admit_peer has_broker timed_out w id = (w0, Ok c) ∧
     w' = (serve_loop walk node_run w0 c evs).1.1) ∨
  (∃ r, handle_server walk node_run has_broker timed_out w id evs gaps = Some (w', r)) →
  world_typed w' ∧
  ∀ id' ch cmd, w_channels w' !! id' = Some ch → ch_actor ch = Writing cmd →
    cmd ≠ Cmd_Shutdown → wr_room (ch_writer ch) = None →
    ∃ ch', actor_write ch = Some ch' ∧ ch_actor ch' = AtSelect false ∧
      ch_queue ch' = ch_queue ch ∧ ch_open ch' = ch_open ch ∧
      wr_out (ch_writer ch') = wr_out (ch_writer ch) ++ cmd_bytes cmd.
Proof.
  intros Hnode Hw Hevs Hgaps Hrun.
  enough (world_typed w') as Hw'.
  { split; [done|]. intros id' ch cmd Hch. by apply typed_write, (wt_channel w' Hw' id'). }
  destruct (admit_peer_typed has_broker timed_out w id Hw) as [Hw0 Hc0].
  destruct Hrun as [(w0 & c & Ha & ->)|[r Hh]].
  - rewrite Ha in *. by apply serve_loop_typed; [..|apply Hc0].
  - unfold handle_server in Hh.
    destruct (admit_peer has_broker timed_out w id) as [w0 [c| | |]]; cbn [fst snd] in *;
      try (by injection Hh as <- _).
    destruct (serve_loop_typed walk node_run Hnode evs w0 c Hevs Hw0 (Hc0 c eq_refl)) as [Hw1 [Hk _]].
    destruct (serve_loop walk node_run w0 c evs) as [[w1 c1] [[g t|]|]]; try done;
      injection Hh as <- _; [|done].
    apply unregister_typed, drain_typed; auto using close_channel_typed.
Qed.
End theorems.

Lemma demo_joined_typed : world_typed demo_joined.
Proof.
  assert (∀ n rd, bytes_ok (rd_input rd) →
    channel_typed (channel_new n rd (mkWriter [] None) None None Role_Server).2) as Hnew.
  { intros. by apply channel_new_typed. }
  apply world_typed_set_channel.
  { apply Hnew. apply (bool_decide_unpack _). vm_compute. exact I. }
  apply subscribe_typed, register_typed; [done|]. apply register_typed.
  { split_and!; [|vm_compute; discriminate | apply str_of_ok | vm_compute; discriminate].
    split; [apply str_of_ok | reflexivity]. }
  apply world_typed_set_channel; [by apply Hnew; constructor|].
  apply world_typed_set_channel; [by apply Hnew; constructor|].
  split; cbn; intros; by rewrite lookup_empty in *.
Qed.

(** One endpoint that is run for every topic and leaves the message alone. *)
Definition one_node (topic : str) : list unit := [tt].
Definition keep_run (n : unit) (ctx : MqttContext unit) : option (MqttContext unit) := Some ctx.

Definition demo_relayed : option (World * mresult unit) :=
  handle_server one_node keep_run true false demo_joined 3 [Ev_Test; Ev_Read false] [].

Lemma server_output_typed_witness :
  ∃ w', demo_relayed = Some (w', Ok tt) ∧ world_typed w'.
Proof.
  exists (default (demo, Panic) demo_relayed).1.
  assert (demo_relayed = Some ((default (demo, Panic) demo_relayed).1, Ok tt)) as Hs
    by (vm_compute; reflexivity).
  split; [exact Hs|].
  apply (server_output_typed one_node keep_run true false demo_joined 3
    [Ev_Test; Ev_Read false] []).
  - intros node ctx out i i' [= <-] Hi Hr Hi'. rewrite Hi in Hi'. injection Hi' as <-. exact Hr.
  - apply demo_joined_typed.
  - repeat constructor.
  - constructor.
  - right. exists (Ok tt). exact Hs.
Defined.
