(* ===== verification/System.v ===== *)
(** The whole server: any number of connections over one broker.

    [src/src/protocol/server.rs] runs one [handle_server] per connection, each with
    a chain worker and a writer actor, all on one broker.  [Server.v] has one of
    them with an environment that is assumed to behave; here the others are the
    environment.  A [System] is the connection counter, the world and how far each
    connection has come; its steps are those of [handle_server], of the workers, of
    the writers, and of application code that uses a channel it was given or
    publishes through its handle of the broker.  Every step
    of a connection is a step of [broker_step] that names its own id only, and the
    invariants follow for every number of peers, whatever bytes they send and in
    whatever order the tasks run.

    A turn of a loop is one step; the finer interleaving of the broker's own methods
    is that of [Interleaving.v]. *)

From S2P Require Import Prelude.
From S2P Require Import Types.
From S2P Require Import Safety.
From S2P Require Import Wire.
From S2P Require Import Decode.
From S2P Require Import Codec.
From S2P Require Import Roundtrip.
From S2P Require Import Reencode.
From S2P Require Import Topic.
From S2P Require Import Session.
From S2P Require Import Channel.
From S2P Require Import Subscriptions.
From S2P Require Import Broker.
From S2P Require Import Context.
From S2P Require Import Send.
From S2P Require Import Protocol.
From S2P Require Import Server.
From S2P Require Import ServerFlow.
From S2P Require Import Typed.

(** ** The system *)

(** How far [handle_server] has come with a connection. *)
Inductive Phase :=
  | Arriving                                     (* before the CONNECT *)
  | Registered (c : ServerConn) (session_present : bool) (* in the table; no CONNACK yet *)
  | Serving (c : ServerConn)                    (* in the loop *)
  | Draining (c : ServerConn) (graceful : bool) (* closed; the worker empties its queue *)
  | Finished.

Record System := mkSystem {
  sy_next : Z;
  sy_world : World;
  sy_conns : gmap Z Phase;
}.

Definition system_new (b : Broker) : System := mkSystem 1 (world_new b) ∅.

(** After [admit_begin]: the CONNACK is sent by another step, so that the other tasks
    may run in between. *)
Definition registered (r : mresult (ServerConn * bool)) : Phase :=
  match r with Ok (c, session_present) => Registered c session_present | _ => Finished end.

(** After [admit_connack]. *)
Definition admitted (r : mresult ServerConn) : Phase :=
  match r with Ok c => Serving c | _ => Finished end.

(** After a turn of the loop: a [break] closes the channel. *)
Definition turned (w : World) (c : ServerConn) (exit : option loop_exit) : World * Phase :=
  match exit with
  | None => (w, Serving c)
  | Some (Broke graceful _) => (close_channel w (sc_channel c), Draining c graceful)
  | Some Panicked => (w, Finished)
  end.

(** The events of the connection's own tasks, when they can happen: the open flag is
    looked at between two [select!]s, and [notified()] completes only once somebody
    has closed the channel. *)
Definition own_event (w : World) (c : ServerConn) (ev : LoopEvent) : Prop :=
  match ev with
  | Ev_Env _ => False
  | Ev_Test => sc_at_select c = false
  | Ev_Shutdown => channel_is_open w (sc_channel c) = false
  | _ => True
  end.

(** What endpoint code does with a channel: it sends packets that can be sent, uses
    the session's waiters, and closes. *)
Inductive user_step : MqttChannel → MqttChannel → Prop :=
  | user_send ch cmd : cmd_sendable cmd → user_step ch (send_cmd ch cmd).1
  | user_session ch s :
      session_step (ch_session ch) s → ss_qos2_recv s = ss_qos2_recv (ch_session ch) →
      user_step ch (set_session ch s)
  | user_close ch : user_step ch (close ch).

Section system.
Context `{DashMapIter}.
Context {Node : Type} (walk : str → list Node).
Context (node_run : Node → MqttContext Node → option (MqttContext Node)).

Inductive system_step : System → System → Prop :=
  | sys_accept n w conns rd wr la ra n' ch :
      n < u64_max → bytes_ok (rd_input rd) → opt_ok (λ k, 0 ≤ k) (wr_room wr) → wr_out wr = [] →
      channel_new n rd wr la ra Role_Server = (n', ch) →
      system_step (mkSystem n w conns)
        (mkSystem n' (set_channels w (<[n := ch]> (w_channels w))) (<[n := Arriving]> conns))
  | sys_register n w conns id has_broker timed_out w' r :
      conns !! id = Some Arriving → admit_begin has_broker timed_out w id = (w', r) →
      system_step (mkSystem n w conns) (mkSystem n w' (<[id := registered r]> conns))
  | sys_connack n w conns id c session_present w' r :
      conns !! id = Some (Registered c session_present) →
      admit_connack w c session_present = (w', r) →
      system_step (mkSystem n w conns) (mkSystem n w' (<[id := admitted r]> conns))
  | sys_turn n w conns id c ev w1 c1 exit w' ph :
      conns !! id = Some (Serving c) → own_event w c ev →
      loop_turn walk node_run w c ev = (w1, c1, exit) → turned w1 c1 exit = (w', ph) →
      system_step (mkSystem n w conns) (mkSystem n w' (<[id := ph]> conns))
  | sys_drain n w conns id c graceful w' c' :
      conns !! id = Some (Draining c graceful) →
      run_publish_chain_worker walk node_run w c = Some (w', c') →
      system_step (mkSystem n w conns) (mkSystem n w' (<[id := Draining c' graceful]> conns))
  | sys_drain_gone n w conns id c graceful :
      conns !! id = Some (Draining c graceful) →
      system_step (mkSystem n w conns)
        (mkSystem n w (<[id := Draining (drop_worker c) graceful]> conns))
  | sys_unregister n w conns id c graceful :
      conns !! id = Some (Draining c graceful) → sc_work c = [] →
      system_step (mkSystem n w conns)
        (mkSystem n (unregister_session w (sc_client_id c) (sc_channel c) graceful)
           (<[id := Finished]> conns))
  | sys_channel n w conns id ch ch' :
      w_channels w !! id = Some ch → actor_step ch ch' ∨ user_step ch ch' →
      system_step (mkSystem n w conns)
        (mkSystem n (set_channels w (<[id := ch']> (w_channels w))) conns)
  | sys_publish n w conns source p :
      publish_relayable p →
      system_step (mkSystem n w conns) (mkSystem n (publish w source p) conns).
End system.

(** ** Steps of one connection

    What the tasks of connection [id] do to the world. *)
Inductive conn_step `{DashMapIter} (id : Z) : World → World → Prop :=
  | conn_channel w id' ch l ch' :
      w_channels w !! id' = Some ch → channel_step l ch ch' →
      conn_step id w (set_channels w (<[id' := ch']> (w_channels w)))
  | conn_register w c will clean :
      is_Some (w_channels w !! id) →
      map_Forall (λ _ e, se_channel e ≠ id) (w_sessions w) →
      conn_step id w (register_session w c id will clean).1
  | conn_unregister w c graceful : conn_step id w (unregister_session w c id graceful)
  | conn_subscribe w c filters : conn_step id w (subscribe w c id filters).1
  | conn_unsubscribe w c topics : conn_step id w (unsubscribe w c id topics)
  | conn_publish w c p : conn_step id w (publish w c p).

(** Several steps of a channel. *)
Definition channel_moves : MqttChannel → MqttChannel → Prop :=
  rtc (λ ch ch', ∃ l, channel_step l ch ch').

Lemma send_cmd_moves ch cmd : channel_moves ch (send_cmd ch cmd).1.
Proof.
  apply rtc_once. destruct (decide ((send_cmd ch cmd).2 = Ok tt)).
  - exists [cmd]. by apply channel_send.
  - exists []. by apply channel_send_refused.
Qed.

Lemma session_moves ch s : rtc session_step (ch_session ch) s → channel_moves ch (set_session ch s).
Proof.
  intros Hs. remember (ch_session ch) as s0 eqn:E. revert ch E.
  induction Hs as [s|s s1 s2 H1 _ IH]; intros ch ->.
  { rewrite set_session_same. constructor. }
  eapply rtc_l; [exists []; by apply channel_session|].
  by apply (IH (set_session ch s1)).
Qed.

Lemma user_step_moves ch ch' : user_step ch ch' → channel_moves ch ch'.
Proof.
  destruct 1.
  - apply send_cmd_moves.
  - by apply session_moves, rtc_once.
  - apply rtc_once. exists []. apply channel_close.
Qed.

Lemma ack_inbound_moves pb ch : channel_moves ch (ack_inbound_publish_pre_chain pb ch).1.
Proof.
  unfold ack_inbound_publish_pre_chain.
  destruct (pub_qos pb), (pub_packet_id pb) as [id|]; try constructor.
  - apply send_cmd_moves.
  - etrans; [|apply send_cmd_moves]. apply session_moves, rtc_once. constructor.
Qed.

Section conn_steps.
Context `{DashMapIter}.
Context {Node : Type} (walk : str → list Node).
Context (node_run : Node → MqttContext Node → option (MqttContext Node)).
Implicit Types (w : World) (cn : ServerConn).

Lemma channel_moves_conn id id' w ch ch' :
  w_channels w !! id' = Some ch → channel_moves ch ch' →
  rtc (conn_step id) w (set_channels w (<[id' := ch']> (w_channels w))).
Proof.
  intros Hch Hm. revert w Hch. induction Hm as [ch|ch ch1 ch' [l Hs] _ IH]; intros w Hch.
  { rewrite insert_id by done. by destruct w. }
  eapply rtc_l; [by eapply conn_channel|].
  specialize (IH (set_channels w (<[id' := ch1]> (w_channels w)))). cbn in IH.
  rewrite lookup_insert_eq, insert_insert_eq in IH. by apply IH.
Qed.

Lemma on_channel_conn {A} id w (f : MqttChannel → MqttChannel * mresult A) :
  (∀ ch, channel_moves ch (f ch).1) → rtc (conn_step id) w (on_channel w id f).1.
Proof.
  intros Hf. unfold on_channel. destruct (w_channels w !! id) as [ch|] eqn:E; [|constructor].
  specialize (Hf ch). destruct (f ch) as [ch' r]. by eapply channel_moves_conn.
Qed.

Lemma with_session_moves g ch :
  rtc session_step (ch_session ch) (g (ch_session ch)) → channel_moves ch (with_session g ch).1.
Proof. apply session_moves. Qed.

(** The world part of a turn. *)
Definition turns_conn {A} (id : Z) (w : World) (res : World * ServerConn * A) : Prop :=
  rtc (conn_step id) w res.1.1.

Lemma then_channel_conn w cn f k :
  (∀ ch, channel_moves ch (f ch).1) → (∀ w', turns_conn (sc_channel cn) w' (k w')) →
  turns_conn (sc_channel cn) w (then_channel w cn f k).
Proof.
  intros Hf Hk. unfold then_channel. pose proof (on_channel_conn (sc_channel cn) w f Hf) as Hs.
  destruct (on_channel w (sc_channel cn) f) as [w' r]. cbn [fst] in Hs.
  destruct r; [|exact Hs..]. unfold turns_conn. etrans; [exact Hs | apply Hk].
Qed.

Lemma send_work_channel cn pb : sc_channel (send_work cn pb).1 = sc_channel cn.
Proof. unfold send_work. by destruct (sc_worker cn). Qed.

Lemma dispatch_conn w cn p :
  turns_conn (sc_channel cn) w (dispatch_server_inbound w cn p).
Proof.
  assert (∀ w' (r : mresult unit), turns_conn (sc_channel cn) w' (w', cn, r)) as Hdone
    by (intros; constructor).
  destruct p as [k|a|pb|pid|pid|pid|pid|s|s|u|pid| | |]; cbn [dispatch_server_inbound];
    try apply Hdone.
  - apply then_channel_conn; [apply ack_inbound_moves|]. intros w'. case_bool_decide; [done|].
    destruct (send_work cn pb) as [c' r]. constructor.
  - apply then_channel_conn; [|done]. intros ch. apply with_session_moves.
    eapply rtc_l; [|apply rtc_once]; constructor.
  - apply then_channel_conn; [|].
    { intros ch. apply with_session_moves, rtc_once. constructor. }
    intros w'. apply then_channel_conn; [|done]. intros ch. apply send_cmd_moves.
  - set (f := λ ch, _).
    assert (rtc (conn_step (sc_channel cn)) w (on_channel w (sc_channel cn) f).1) as Hs.
    { apply on_channel_conn. intros ch. apply session_moves, rtc_once. apply (step_take (ch_session ch)). }
    destruct (on_channel w (sc_channel cn) f) as [w1 taken]. cbn [fst] in Hs.
    set (x := match taken with Ok _ => _ | _ => _ end).
    assert (sc_channel x.1 = sc_channel cn) as Hx.
    { unfold x. destruct taken as [[st|]| | |]; [apply send_work_channel|done..]. }
    destruct x as [c' sent]. cbn [fst] in Hx. destruct sent; [|exact Hs..].
    unfold turns_conn. etrans; [exact Hs|]. rewrite <- Hx.
    apply then_channel_conn; [|intros; constructor]. intros ch. apply send_cmd_moves.
  - apply then_channel_conn; [|done]. intros ch. apply with_session_moves.
    eapply rtc_l; [|apply rtc_once]; constructor.
  - set (fs := map _ _). pose proof (conn_subscribe (sc_channel cn) w (sc_client_id cn) fs) as Hs.
    destruct (subscribe _ _ _ fs) as [w0 codes]. cbn [fst] in Hs.
    unfold turns_conn. eapply rtc_l; [exact Hs|].
    apply then_channel_conn; [|intros; constructor]. intros ch. apply send_cmd_moves.
  - unfold turns_conn. eapply rtc_l; [apply conn_unsubscribe|].
    apply then_channel_conn; [|intros; constructor]. intros ch. apply send_cmd_moves.
  - apply then_channel_conn; [|done]. intros ch. apply send_cmd_moves.
Qed.

Lemma worker_turn_conn id cid w p :
  rtc (conn_step id) w (worker_turn walk node_run id cid w p).
Proof.
  unfold worker_turn. destruct (run_server_chain_then_decide_fanout _ _ _ _); [|constructor].
  apply rtc_once. constructor.
Qed.

Lemma loop_turn_conn w cn ev :
  own_event w cn ev → turns_conn (sc_channel cn) w (loop_turn walk node_run w cn ev).
Proof.
  assert (∀ w c (x : option loop_exit), turns_conn (sc_channel cn) w (w, c, x)) as Hdone
    by (intros; constructor).
  intros Hev. destruct ev as [|elapsed| | | |f]; cbn [loop_turn]; try done.
  - destruct (negb _); apply Hdone.
  - destruct (sc_at_select cn); [|apply Hdone].
    destruct (read_packet_before _ _ _ _) as [[o|] rd]; [|apply Hdone].
    destruct o as [p|e|]; [|destruct e; apply Hdone | apply Hdone].
    pose proof (dispatch_conn w (set_conn_reader cn rd) p) as Hd. unfold turns_conn in *.
    destruct p; cbn [loop_read]; try exact Hd; try constructor;
      destruct (dispatch_server_inbound w _ _) as [[w' c'] []]; exact Hd.
  - destruct (sc_at_select cn); apply Hdone.
  - unfold run_publish_chain_worker. destruct (sc_work cn) as [|p work]; [apply Hdone|].
    apply worker_turn_conn.
Qed.

(** A connection that owns no session is free to register. *)
Lemma owns_none_fresh w id :
  (∀ c, owned_entry w c id = None) → map_Forall (λ _ e, se_channel e ≠ id) (w_sessions w).
Proof.
  intros Hno c e He Hid. specialize (Hno c). apply owned_entry_None in Hno.
  rewrite He in Hno. cbn in Hno. congruence.
Qed.

Lemma connack_conn w id p : rtc (conn_step id) w (on_channel w id (λ ch, send_packet ch p)).1.
Proof. apply on_channel_conn. intros ch. apply send_cmd_moves. Qed.

Lemma admit_register_conn w id rd connect :
  is_Some (w_channels w !! id) → (∀ c, owned_entry w c id = None) →
  rtc (conn_step id) w (admit_register w id rd connect).1.
Proof.
  intros Hch Hno. unfold admit_register. destruct (keep_alive_refused _ _).
  { pose proof (connack_conn w id (connack false ServerUnavailable)). by destruct (on_channel _ _ _). }
  destruct (negb (auth_accepted _)).
  { set (code := auth_return_code _). pose proof (connack_conn w id (connack false code)).
    by destruct (on_channel _ _ _). }
  set (cid := assigned_client_id connect id).
  pose proof (conn_register id w cid (will_of connect) (conn_clean_session connect) Hch
    (owns_none_fresh w id Hno)) as Hreg.
  destruct (register_session _ _ _ _ _) as [w1 present]. cbn [fst] in Hreg.
  set (f := with_session _).
  assert (rtc (conn_step id) w1 (on_channel w1 id f).1) as H2.
  { apply on_channel_conn. intros ch. apply with_session_moves, rtc_once. constructor. }
  destruct (on_channel w1 id f) as [w2 r2]. by eapply rtc_l.
Qed.

Lemma admit_begin_conn has_broker timed_out w id :
  is_Some (w_channels w !! id) → (∀ c, owned_entry w c id = None) →
  rtc (conn_step id) w (admit_begin has_broker timed_out w id).1.
Proof.
  intros [ch Hch] Hno. unfold admit_begin. destruct has_broker; [|constructor]. cbn [negb].
  rewrite (on_channel_Some _ _ ch) by done. cbn [take_reader fst snd].
  set (w1 := set_channels w _).
  assert (rtc (conn_step id) w w1) as H1.
  { eapply channel_moves_conn; [exact Hch|]. apply rtc_once. exists []. apply channel_take_reader. }
  destruct (ch_reader ch) as [rd|]; cbn [ok_or]; [|exact H1]. destruct timed_out; [exact H1|].
  destruct (read_packet _ rd) as [[p| | |] rd']; try exact H1. destruct p; try exact H1.
  etrans; [exact H1|]. apply admit_register_conn; [cbn; by rewrite lookup_insert_eq | exact Hno].
Qed.

Lemma admit_connack_conn w c present :
  rtc (conn_step (sc_channel c)) w (admit_connack w c present).1.
Proof.
  unfold admit_connack. pose proof (connack_conn w (sc_channel c) (connack present Accepted)) as H1.
  destruct (on_channel w (sc_channel c) _) as [w1 r]. cbn [fst] in H1.
  destruct r; cbn [fst]; try exact H1. eapply rtc_r; [exact H1 | constructor].
Qed.
End conn_steps.

(** ** What the others do to a connection *)

Definition closed (w : World) (id : Z) : Prop :=
  ∀ ch, w_channels w !! id = Some ch → ch_open ch = false.

Definition reader_ok (w : World) (id : Z) : Prop :=
  ∀ ch rd, w_channels w !! id = Some ch → ch_reader ch = Some rd → bytes_ok (rd_input rd).

(** The session is the connection's own, or the connection is closed. *)
Definition held (w : World) (c : str) (id : Z) : Prop :=
  is_Some (owned_entry w c id) ∨ closed w id.

(** No channel is opened again or gets a new reader. *)
Definition winds_down (w w' : World) : Prop :=
  ∀ id ch', w_channels w' !! id = Some ch' →
    ∃ ch, w_channels w !! id = Some ch ∧ (ch_open ch = false → ch_open ch' = false) ∧
      (ch_reader ch' = ch_reader ch ∨ ch_reader ch' = None).

#[global] Instance winds_down_preorder : PreOrder winds_down.
Proof.
  split; [intros w id ch Hch; eauto|]. intros w1 w2 w3 H12 H23 id ch3 H3.
  destruct (H23 id ch3 H3) as (ch2 & H2 & Ho2 & Hr2).
  destruct (H12 id ch2 H2) as (ch1 & H1 & Ho1 & Hr1). exists ch1. split_and!; [done | auto|].
  destruct Hr2 as [->|]; auto.
Qed.

Lemma winds_down_closed w w' id : winds_down w w' → closed w id → closed w' id.
Proof. intros Hw Hc ch' (ch & Hch & Ho & _)%Hw. by apply Ho, Hc. Qed.

Lemma winds_down_reader w w' id : winds_down w w' → reader_ok w id → reader_ok w' id.
Proof.
  intros Hw Hr ch' rd Hch' Hrd. destruct (Hw _ _ Hch') as (ch & Hch & _ & [Heq|Heq]).
  - apply (Hr ch); [done | congruence].
  - congruence.
Qed.

Lemma winds_down_insert w id ch ch' :
  w_channels w !! id = Some ch → (ch_open ch = false → ch_open ch' = false) →
  (ch_reader ch' = ch_reader ch ∨ ch_reader ch' = None) →
  winds_down w (set_channels w (<[id := ch']> (w_channels w))).
Proof.
  intros Hch Ho Hr id' ch0. cbn. rewrite lookup_insert_Some.
  intros [[<- <-]|[_ H0]]; eauto.
Qed.

Lemma channel_step_winds l ch ch' :
  channel_step l ch ch' →
  (ch_open ch = false → ch_open ch' = false) ∧
  (ch_reader ch' = ch_reader ch ∨ ch_reader ch' = None).
Proof.
  destruct 1 as [c c' Hs|c cmd _|c cmd _|c|c s _|c]; try by auto.
  - destruct Hs as [d c c' Hs|c c' Hs|c c' Hs]; unfold actor_recv, actor_write, actor_shutdown in Hs;
      repeat case_match; try done; injection Hs as <-; repeat case_match; auto.
  - unfold send_cmd. case_match; auto.
  - unfold send_cmd. case_match; auto.
  - unfold close. destruct (ch_open c) eqn:E; cbn; rewrite ?E; auto.
Qed.

Lemma fanout_to_winds p q ch :
  ch_open (fanout_to p q ch) = ch_open ch ∧ ch_reader (fanout_to p q ch) = ch_reader ch.
Proof.
  destruct (fanout_to_send p q ch) as (m & s & -> & _). unfold send_cmd. cbn. by case_match.
Qed.

Lemma winds_down_close w id : winds_down w (close_channel w id).
Proof.
  intros id' ch'. cbn. destruct (decide (id = id')) as [<-|Hne].
  - rewrite lookup_alter_eq. destruct (w_channels w !! id) as [ch|] eqn:E; [|done].
    intros [= <-]. exists ch. split; [done|]. unfold close. destruct (ch_open ch) eqn:Eo; cbn; auto.
  - rewrite lookup_alter_ne by done. eauto.
Qed.

Section frames.
Context `{DashMapIter}.
Implicit Types w : World.

Lemma winds_down_publish w src p : winds_down w (publish w src p).
Proof.
  unfold publish. generalize (matching (w_subs w) (pub_topic p)). intros subs. revert w.
  induction subs as [|[c q] subs IH]; intros w; [done|].
  cbn [foldl]. etrans; [|apply IH]. cbn. case_bool_decide; [done|].
  destruct (w_sessions w !! c) as [e|]; [|done].
  destruct (w_channels w !! se_channel e) as [ch|] eqn:Hch; [|done].
  destruct (fanout_to_winds p q ch) as [Ho Hr].
  eapply winds_down_insert; [done | by rewrite Ho | by left].
Qed.

Lemma winds_down_will w will : winds_down w (publish_will w will).
Proof. destruct will; [apply winds_down_publish | done]. Qed.

(** A takeover closes the connection that had the session. *)
Lemma register_winds w c id will clean :
  winds_down w (register_session w c id will clean).1 ∧
  ∀ e, w_sessions w !! c = Some e → closed (register_session w c id will clean).1 (se_channel e).
Proof.
  unfold register_session, register_takeover, register_insert. cbn.
  set (w1 := match _ !! _ with Some _ => _ | None => _ end).
  enough (winds_down w w1 ∧ ∀ e, w_sessions w !! c = Some e → closed w1 (se_channel e)) as Hw1
    by (by destruct clean).
  unfold w1. destruct (w_sessions w !! c) as [prev|];
    [|split; [intros ? ch ?; exists ch; auto | done]].
  set (w2 := close_channel _ _).
  assert (winds_down w w2) as H2 by apply (winds_down_close (set_sessions w _)).
  pose proof (winds_down_will w2 (se_will prev)) as H3.
  split; [by etrans|]. intros e [= <-]. eapply winds_down_closed; [exact H3|].
  intros ch. unfold w2. cbn. rewrite lookup_alter_eq.
  destruct (w_channels w !! se_channel prev) as [ch0|]; [|done]. intros [= <-].
  unfold close. destruct (ch_open ch0) eqn:E; [done | exact E].
Qed.

#[local] Arguments register_session : simpl never.

(** The connection that has the session of [c]. *)
Definition owner (w : World) (c : str) : option Z := se_channel <$> w_sessions w !! c.

Lemma owned_owner w c id : is_Some (owned_entry w c id) ↔ owner w c = Some id.
Proof.
  unfold owner. destruct (owned_entry w c id) as [e|] eqn:E.
  - apply owned_entry_Some in E as [-> <-]. split; [done | by eexists].
  - apply owned_entry_None in E. split; [by intros [? ?] | done].
Qed.

Lemma unregister_owner w c id graceful c' :
  owner (unregister_session w c id graceful) c' =
    if decide (c' = c ∧ owner w c = Some id) then None else owner w c'.
Proof.
  destruct (owned_entry w c id) as [e|] eqn:Ho.
  - assert (owner w c = Some id) as Hw by (apply owned_owner; by rewrite Ho).
    apply owned_entry_Some in Ho as [He <-]. rewrite unregister_owned by done. cbn.
    set (w1 := set_subs _ _).
    assert (w_broker (if graceful then w1 else publish_will w1 (se_will e)) = w_broker w1) as Hb
      by (destruct graceful; [done | apply publish_will_broker]).
    unfold owner, w_sessions at 1. rewrite Hb. cbn. destruct (decide (c' = c)) as [->|Hne].
    + by rewrite lookup_delete_eq, decide_True.
    + rewrite lookup_delete_ne, decide_False by (done || by intros [? _]). done.
  - rewrite unregister_stale by done. rewrite decide_False; [done|].
    intros [-> Hw]. apply owned_owner in Hw as [? ?]. congruence.
Qed.

Lemma conn_step_winds id w w' : conn_step id w w' → winds_down w w'.
Proof.
  destruct 1.
  - edestruct channel_step_winds; [done|]. by eapply winds_down_insert.
  - apply register_winds.
  - unfold unregister_session, take_session. repeat case_match; simplify_eq; try done.
    + etrans; [|apply winds_down_will]. intros ? ch ?. exists ch. auto.
    + intros ? ch ?. exists ch. auto.
  - intros id' ch. rewrite subscribe_channels. eauto.
  - intros id' ch. rewrite unsubscribe_channels. eauto.
  - apply winds_down_publish.
Qed.

Lemma conn_step_ids id w w' : conn_step id w w' → same_ids w w'.
Proof.
  destruct 1.
  - eapply same_ids_insert; [done | by eapply channel_step_id].
  - apply same_ids_register.
  - apply same_ids_unregister.
  - intros id'. by rewrite subscribe_channels.
  - intros id'. by rewrite unsubscribe_channels.
  - apply same_ids_publish.
Qed.

(** Another connection cannot give a session to [id'], and takes one from it only by
    closing it. *)
Lemma conn_step_owner id w w' c id' :
  conn_step id w w' → id' ≠ id →
  (owner w' c = Some id' → owner w c = Some id') ∧
  (owner w c = Some id' → owner w' c = Some id' ∨ closed w' id').
Proof.
  intros Hs Hne.
  assert (same_owner w w' →
    (owner w' c = Some id' → owner w c = Some id') ∧
    (owner w c = Some id' → owner w' c = Some id' ∨ closed w' id')) as Hsame.
  { intros Ho. unfold owner. rewrite Ho. auto. }
  destruct Hs as [w i ch l ch' Hch Hs|w c0 will clean Hch Hfr|w c0 g|w c0 fs|w c0 ts|w c0 p].
  - by apply Hsame, same_owner_broker.
  - destruct (register_winds w c0 id will clean) as [_ Hcl]. unfold owner. rewrite register_sessions.
    destruct (decide (c0 = c)) as [->|Hc].
    + rewrite lookup_insert_eq. cbn. split; [congruence|].
      destruct (w_sessions w !! c) as [e|]; [|done]. intros [= <-]. right. by apply Hcl.
    + rewrite lookup_insert_ne by done. auto.
  - rewrite unregister_owner. case_decide as Hd; [|auto]. destruct Hd as [-> Ho].
    rewrite Ho. split; congruence.
  - apply Hsame, same_owner_subscribe.
  - apply Hsame, same_owner_unsubscribe.
  - apply Hsame, same_owner_broker, publish_broker.
Qed.

(** ** The invariant *)

Definition owns_none (w : World) (id : Z) : Prop := ∀ c, owned_entry w c id = None.

Definition phase_ok (w : World) (id : Z) (ph : Phase) : Prop :=
  is_Some (w_channels w !! id) ∧
  match ph with
  | Arriving => owns_none w id ∧ reader_ok w id
  | Registered c _ | Serving c =>
      sc_channel c = id ∧ conn_inv w c ∧ held w (sc_client_id c) id
  | Draining c _ => sc_channel c = id ∧ conn_inv w c ∧ closed w id
  | Finished => owns_none w id
  end.

Record system_ok (s : System) : Prop := {
  so_broker : broker_inv (sy_world s);
  so_ids : ids_inv (sy_next s) (sy_world s);
  so_conns id : is_Some (w_channels (sy_world s) !! id) → is_Some (sy_conns s !! id);
  so_phase id ph : sy_conns s !! id = Some ph → phase_ok (sy_world s) id ph;
}.

Lemma owned_none_owner w c id : owned_entry w c id = None ↔ owner w c ≠ Some id.
Proof. apply owned_entry_None. Qed.

(** What keeps the phases of a connection intact. *)
Lemma phase_ok_frame w w' id ph :
  same_ids w w' → winds_down w w' →
  (∀ c, owner w' c = Some id → owner w c = Some id) →
  (∀ c, owner w c = Some id → owner w' c = Some id ∨ closed w' id) →
  phase_ok w id ph → phase_ok w' id ph.
Proof.
  intros Hids Hwd Hnew Hheld [Hch Hph].
  assert (∀ c, owned_entry w c id = None → owned_entry w' c id = None) as Hnone.
  { intros c. rewrite !owned_none_owner. auto. }
  split; [by eapply same_ids_is_Some|].
  assert (∀ c, sc_channel c = id → conn_inv w c → conn_inv w' c) as Hconn.
  { intros c <- [[_ Ho] Hrd]. split; [|done]. split; [by eapply same_ids_is_Some|]. auto. }
  assert (∀ c, held w c id → held w' c id) as Hhold.
  { intros c [Ho|Hc]; [|right; by eapply winds_down_closed].
    apply owned_owner, Hheld in Ho as [?|?]; [left; by apply owned_owner | by right]. }
  destruct ph as [|c p|c|c g|].
  - destruct Hph as [Hno Hrd]. split; [by intros c; apply Hnone | by eapply winds_down_reader].
  - destruct Hph as (Hid & Hinv & Hh). split_and!; auto.
  - destruct Hph as (Hid & Hinv & Hh). split_and!; auto.
  - destruct Hph as (Hid & Hinv & Hc). split_and!; [done | auto|]. by eapply winds_down_closed.
  - intros c. by apply Hnone.
Qed.

Lemma phase_ok_local w w' id ph :
  w_channels w' !! id = w_channels w !! id → w_broker w' = w_broker w →
  phase_ok w id ph → phase_ok w' id ph.
Proof.
  intros Hch Hb. unfold phase_ok, conn_inv, owns_only, held, closed, reader_ok, owns_none,
    owned_entry, w_sessions. rewrite Hb, Hch.
  destruct ph as [|c p|c|c g|]; try done; intros (Hs & <- & Hrest); by rewrite Hch.
Qed.

Lemma conn_step_phase id id' w w' ph :
  conn_step id w w' → id' ≠ id → phase_ok w id' ph → phase_ok w' id' ph.
Proof.
  intros Hs Hne. apply phase_ok_frame.
  - by eapply conn_step_ids.
  - by eapply conn_step_winds.
  - intros c. by apply (conn_step_owner id w w' c id').
  - intros c. by apply (conn_step_owner id w w' c id').
Qed.

Lemma conn_steps_phase id id' w w' ph :
  rtc (conn_step id) w w' → id' ≠ id → phase_ok w id' ph → phase_ok w' id' ph.
Proof. intros Hs Hne. induction Hs; [done|]. eauto using conn_step_phase. Qed.

Lemma conn_step_broker id n w w' : conn_step id w w' → broker_step (n, w) (n, w').
Proof. destruct 1; by econstructor. Qed.

Lemma conn_steps_inv id n w w' :
  rtc (conn_step id) w w' → broker_inv w ∧ ids_inv n w → broker_inv w' ∧ ids_inv n w'.
Proof.
  induction 1 as [|w w1 w' Hs _ IH]; [done|]. intros Hw. apply IH.
  by apply (broker_step_inv (n, w) (n, w1) (conn_step_broker id n w w1 Hs)).
Qed.

Lemma conn_steps_ids id w w' : rtc (conn_step id) w w' → same_ids w w'.
Proof. induction 1; [done|]. etrans; [by eapply conn_step_ids | done]. Qed.

(** A step of connection [id]: only its own phase has to be looked at. *)
Lemma conn_steps_ok n w conns id ph0 ph w' :
  system_ok (mkSystem n w conns) → conns !! id = Some ph0 → rtc (conn_step id) w w' →
  phase_ok w' id ph → system_ok (mkSystem n w' (<[id := ph]> conns)).
Proof.
  intros [Hb Hi Hc Hp] H0 Hs Hph. cbn in *.
  destruct (conn_steps_inv id n w w' Hs (conj Hb Hi)) as [Hb' Hi'].
  split; cbn; [done | done | |].
  - intros id' Hid'. apply lookup_insert_is_Some'.
    right. apply Hc. pose proof (conn_steps_ids id w w' Hs id') as Hsame.
    destruct Hid' as [ch' Hch']. rewrite Hch' in Hsame.
    by destruct (w_channels w !! id').
  - intros id' ph'. rewrite lookup_insert_Some. intros [[<- <-]|[Hne Hl]]; [done|].
    by eapply conn_steps_phase; [..|apply Hp].
Qed.
End frames.

(** ** Every step keeps it *)

Section preservation.
Context `{DashMapIter}.
Context {Node : Type} (walk : str → list Node).
Context (node_run : Node → MqttContext Node → option (MqttContext Node)).

Lemma admit_register_owner w id rd connect w' c present :
  admit_register w id rd connect = (w', Ok (c, present)) → owner w' (sc_client_id c) = Some id.
Proof.
  unfold admit_register. destruct (keep_alive_refused _ _); [by destruct (on_channel _ _ _)|].
  destruct (negb (auth_accepted _)).
  { set (code := auth_return_code _). by destruct (on_channel _ _ _). }
  set (cid := assigned_client_id connect id).
  pose proof (register_sessions w cid id (will_of connect) (conn_clean_session connect)) as Hse.
  destruct (register_session _ _ _ _ _) as [w1 present']. cbn [fst] in Hse.
  set (f := with_session _). pose proof (on_channel_broker w1 id f) as H2.
  destruct (on_channel w1 id f) as [w2 r2]. cbn [fst] in H2.
  intros [= <- <- _]. unfold owner, w_sessions in *. cbn. rewrite H2, Hse, lookup_insert_eq. done.
Qed.

Lemma admit_begin_owner has_broker timed_out w id w' c present :
  admit_begin has_broker timed_out w id = (w', Ok (c, present)) →
  owner w' (sc_client_id c) = Some id.
Proof.
  unfold admit_begin. destruct has_broker; [|done]. cbn [negb].
  destruct (on_channel w id _) as [w1 taken]. destruct taken as [rd| | |]; try done.
  destruct timed_out; [done|].
  destruct (read_packet _ rd) as [[p| | |] rd']; try done. destruct p; try done.
  apply admit_register_owner.
Qed.

Lemma loop_turn_owner w c ev :
  own_event w c ev → is_Some (w_channels w !! sc_channel c) →
  same_owner w (loop_turn walk node_run w c ev).1.1.
Proof.
  intros Hev Hw. destruct ev as [|elapsed| | | |f]; cbn [loop_turn]; try done.
  - by destruct (negb _).
  - destruct (sc_at_select c); [|done].
    destruct (read_packet_before _ _ _ _) as [[o|] rd]; [|done].
    destruct o as [p|e|]; [|by destruct e|done].
    pose proof (dispatch_safe w (set_conn_reader c rd) p Hw) as Hd.
    destruct p; cbn [loop_read]; try done;
      destruct (dispatch_server_inbound w _ _) as [[w' c'] []]; apply Hd.
  - by destruct (sc_at_select c).
  - unfold run_publish_chain_worker. destruct (sc_work c) as [|p work]; [done|].
    apply worker_turn_owner.
Qed.

Lemma own_event_quiet id w c ev : own_event w c ev → quiet_event id ev.
Proof. by destruct ev. Qed.

Lemma conn_inv_close w c : conn_inv w c → conn_inv (close_channel w (sc_channel c)) c.
Proof.
  intros [Ho Hrd]. split; [|done]. apply (owns_only_same w); [by apply same_owner_broker | |exact Ho].
  eapply same_ids_is_Some; [apply same_ids_close | apply Ho].
Qed.

Lemma close_channel_closed w id : closed (close_channel w id) id.
Proof.
  intros ch. cbn. rewrite lookup_alter_eq. destruct (w_channels w !! id) as [ch0|]; [|done].
  intros [= <-]. unfold close. destruct (ch_open ch0) eqn:E; [done | exact E].
Qed.

Lemma close_channel_conn id w : rtc (conn_step id) w (close_channel w id).
Proof.
  unfold close_channel. destruct (w_channels w !! id) as [ch|] eqn:E.
  - rewrite (alter_insert _ _ id ch) by done.
    eapply channel_moves_conn; [done|]. apply rtc_once. exists []. apply channel_close.
  - replace (alter close id (w_channels w)) with (w_channels w); [by destruct w|].
    apply map_eq. intros id'. destruct (decide (id = id')) as [<-|].
    + by rewrite lookup_alter_eq, E.
    + by rewrite lookup_alter_ne.
Qed.

(** A turn of a served connection, and the phase it leaves it in. *)
Lemma turn_phase w id c ev w1 c1 exit w' ph :
  phase_ok w id (Serving c) → own_event w c ev →
  loop_turn walk node_run w c ev = (w1, c1, exit) → turned w1 c1 exit = (w', ph) →
  rtc (conn_step id) w w' ∧ phase_ok w' id ph.
Proof.
  intros (Hch & <- & Hinv & Hh) Hev Ht Htd.
  pose proof (loop_turn_conn walk node_run w c ev Hev) as Hs. unfold turns_conn in Hs.
  pose proof (loop_turn_owner w c ev Hev Hch) as Ho.
  destruct (loop_turn_inv walk node_run w c ev w1 c1 exit (own_event_quiet _ w c ev Hev) Hinv Ht)
    as (Hinv1 & (Hid & Hcid & _) & Hnp).
  rewrite Ht in Hs, Ho. cbn [fst] in Hs, Ho.
  pose proof Hinv1 as [[Hch1 _] _]. rewrite Hid in Hch1.
  destruct exit as [[g t|]|]; [|done|]; injection Htd as <- <-.
  - split; [etrans; [exact Hs|]; rewrite Hid; apply close_channel_conn|].
    split; [rewrite Hid; eapply same_ids_is_Some; [apply same_ids_close | done]|].
    split_and!; [done | by apply conn_inv_close|]. rewrite Hid. apply close_channel_closed.
  - split; [done|]. split; [done|]. split_and!; [done | done|]. rewrite Hcid.
    destruct Hh as [Hh|Hh].
    + left. apply owned_owner. unfold owner. rewrite Ho. by apply owned_owner.
    + right. clear -Hs Hh. induction Hs as [|w w2 w3 H1 _ IH]; [done|].
      apply IH. eapply winds_down_closed; [by eapply conn_step_winds | done].
Qed.

Lemma register_phase has_broker timed_out w id w' r :
  phase_ok w id Arriving → admit_begin has_broker timed_out w id = (w', r) →
  rtc (conn_step id) w w' ∧ phase_ok w' id (registered r).
Proof.
  intros (Hch & Hno & Hrd) Ha.
  pose proof (admit_begin_conn has_broker timed_out w id Hch Hno) as Hs.
  rewrite Ha in Hs. cbn [fst] in Hs. split; [done|].
  destruct Hch as [ch Hch].
  pose proof (begin_ok has_broker timed_out w id ch Hch Hno (λ rd, Hrd ch rd Hch)) as Hok.
  rewrite Ha in Hok. destruct r as [[c present]|e| |]; cbn in Hok; [|by destruct Hok|done..].
  destruct Hok as (<- & Hinv & _). split; [apply Hinv|]. split_and!; [done..|].
  left. by eapply owned_owner, admit_begin_owner.
Qed.

Lemma connack_phase w id c present w' r :
  phase_ok w id (Registered c present) → admit_connack w c present = (w', r) →
  rtc (conn_step id) w w' ∧ phase_ok w' id (admitted r).
Proof.
  intros (Hch & <- & Hinv & Hh) Ha. pose proof (admit_connack_conn w c present) as Hs.
  rewrite Ha in Hs. cbn [fst] in Hs. split; [done|].
  pose proof (admit_connack_ok (mkMqttSafety None None (Some true)) w c present Hinv ltac:(done)) as Hok.
  rewrite Ha in Hok. destruct r as [c'|e| |]; cbn in Hok; [|by destruct Hok|done..].
  assert (c' = c ∧ w_broker w' = w_broker w) as [-> Hb].
  { unfold admit_connack in Ha. set (g := λ ch, send_packet ch _) in Ha.
    pose proof (on_channel_broker w (sc_channel c) g) as Hb.
    destruct (on_channel w (sc_channel c) g) as [w1 []]; try done. by injection Ha as <- <-. }
  destruct Hok as (_ & Hinv' & _). split; [apply Hinv'|]. split_and!; [done..|].
  destruct Hh as [Hh|Hh].
  - left. unfold owned_entry, w_sessions in *. by rewrite Hb.
  - right. clear -Hs Hh. induction Hs as [|w w2 w3 H1 _ IH]; [done|].
    apply IH. eapply winds_down_closed; [by eapply conn_step_winds | done].
Qed.

Lemma drain_phase w id c graceful w' c' :
  phase_ok w id (Draining c graceful) →
  run_publish_chain_worker walk node_run w c = Some (w', c') →
  rtc (conn_step id) w w' ∧ phase_ok w' id (Draining c' graceful).
Proof.
  intros (Hch & <- & [Ho Hrd] & Hcl) Hr. unfold run_publish_chain_worker in Hr.
  destruct (sc_work c) as [|p work]; [done|]. injection Hr as <- <-.
  pose proof (worker_turn_conn walk node_run (sc_channel c) (sc_client_id c) w p) as Hs.
  assert (winds_down w (worker_turn walk node_run (sc_channel c) (sc_client_id c) w p)) as Hwd.
  { unfold worker_turn. destruct (run_server_chain_then_decide_fanout _ _ _ _); [|done].
    apply winds_down_publish. }
  split; [done|]. split; [by eapply same_ids_is_Some; [apply worker_turn_ids|]|].
  split_and!; [done | |by eapply winds_down_closed]. split; [|done]. by apply worker_turn_owns.
Qed.

Lemma unregister_phase w id c graceful :
  phase_ok w id (Draining c graceful) →
  phase_ok (unregister_session w (sc_client_id c) (sc_channel c) graceful) id Finished.
Proof.
  intros (Hch & <- & [Ho _] & _). split.
  - by eapply same_ids_is_Some; [apply same_ids_unregister|].
  - intros c'. by apply unregister_not_owned.
Qed.

(** Channels move, the tables stay: no phase changes. *)
Lemma quiet_ok n w w' conns :
  system_ok (mkSystem n w conns) → same_ids w w' → winds_down w w' →
  w_broker w' = w_broker w → system_ok (mkSystem n w' conns).
Proof.
  intros [Hb Hi Hc Hp] Hids Hwd Hbr. cbn in *.
  assert (same_owner w w') as Ho by by apply same_owner_broker. split; cbn.
  - by eapply broker_inv_channels.
  - by eapply same_ids_inv.
  - intros id [ch' Hch']. apply Hc. destruct (Hwd id ch' Hch') as (ch & Hch & _). by eexists.
  - intros id ph Hph. apply (phase_ok_frame w); [done | done | | |by apply Hp];
      intros c; unfold owner; rewrite Ho; auto.
Qed.

Lemma channel_ok n w conns id ch ch' :
  system_ok (mkSystem n w conns) → w_channels w !! id = Some ch → channel_moves ch ch' →
  system_ok (mkSystem n (set_channels w (<[id := ch']> (w_channels w))) conns).
Proof.
  intros Hok Hch Hm.
  assert (rtc (conn_step id) w (set_channels w (<[id := ch']> (w_channels w)))) as Hs
    by (by eapply channel_moves_conn).
  apply (quiet_ok n w); [done | by eapply conn_steps_ids | |done].
  clear -Hs. induction Hs; [done|]. etrans; [by eapply conn_step_winds | done].
Qed.

Lemma accept_ok n w conns rd wr la ra n' ch :
  system_ok (mkSystem n w conns) → n < u64_max → bytes_ok (rd_input rd) →
  channel_new n rd wr la ra Role_Server = (n', ch) →
  system_ok (mkSystem n' (set_channels w (<[n := ch]> (w_channels w))) (<[n := Arriving]> conns)).
Proof.
  intros [Hb Hi Hc Hp] Hn Hrd Hnew. cbn in *.
  assert (ch_connection_id ch = n) as Hid by (by injection Hnew as _ <-).
  assert (ch_reader ch = Some rd) as Hrdr by (by injection Hnew as _ <-).
  assert (∀ id, is_Some (w_channels w !! id) → id ≠ n) as Hlt.
  { intros id [ch0 Hch0]. apply Hi in Hch0. lia. }
  destruct (broker_step_inv (n, w) _ (step_accept n w rd wr la ra Role_Server n' ch Hn Hnew))
    as [Hb' Hi']; [done|]. rewrite Hid in Hb', Hi'. split; cbn; [done | done | |].
  - intros id. rewrite !lookup_insert_is_Some'. intros [?|?]; auto.
  - intros id ph. rewrite lookup_insert_Some. intros [[<- <-]|[Hne Hph]].
    + split; [cbn; by rewrite lookup_insert_eq|]. split.
      * intros c. apply owned_none_owner. change (owner w c ≠ Some n). unfold owner.
        destruct (w_sessions w !! c) as [e|] eqn:He; [|done].
        intros [= Heq]. by apply (Hlt (se_channel e)); [eapply inv_channel|].
      * intros ch0 rd0. cbn. rewrite lookup_insert_eq. intros [= <-]. rewrite Hrdr. by intros [= <-].
    + apply (phase_ok_local w); [cbn; by rewrite lookup_insert_ne | done | by apply Hp].
Qed.

Lemma system_step_ok s s' : system_step walk node_run s s' → system_ok s → system_ok s'.
Proof.
  destruct 1 as [n w conns rd wr la ra n' ch Hn Hrd Hroom Hout Hnew|n w conns id hb t w' r Hid Ha|
    n w conns id c p w' r Hid Ha|
    n w conns id c ev w1 c1 ex w' ph Hid Hev Ht Htd|n w conns id c g w' c' Hid Hr|
    n w conns id c g Hid|n w conns id c g Hid Hwork|n w conns id ch ch' Hch Hs|
    n w conns src p Hp]; intros Hok.
  - by eapply accept_ok.
  - destruct (register_phase hb t w id w' r) as [Hs Hph]; [by apply Hok | done|].
    by eapply conn_steps_ok.
  - destruct (connack_phase w id c p w' r) as [Hs Hph]; [by apply Hok | done|].
    by eapply conn_steps_ok.
  - destruct (turn_phase w id c ev w1 c1 ex w' ph) as [Hs Hph]; [by apply Hok | done..|].
    by eapply conn_steps_ok.
  - destruct (drain_phase w id c g w' c') as [Hs Hph]; [by apply Hok | done|].
    by eapply conn_steps_ok.
  - eapply conn_steps_ok; [done | done | constructor |]. exact (so_phase _ Hok id _ Hid).
  - pose proof (so_phase _ Hok id _ Hid) as Hph. cbn in Hph.
    eapply conn_steps_ok; [done | done | |by eapply unregister_phase].
    destruct Hph as (_ & -> & _). apply rtc_once. constructor.
  - eapply channel_ok; [done..|]. destruct Hs as [Hs|Hs]; [|by apply user_step_moves].
    apply rtc_once. exists []. by constructor.
  - apply (quiet_ok n w); [done | apply same_ids_publish | apply winds_down_publish | apply publish_broker].
Qed.

Lemma system_new_ok auth safety : system_ok (system_new (broker_build auth safety)).
Proof.
  destruct (world_new_inv auth safety) as [Hb [_ Hi]]. split; cbn; [done | | |].
  - split; [lia|]. intros id ch Hch. apply Hi in Hch. lia.
  - intros id [ch Hch]. by rewrite lookup_empty in Hch.
  - intros id ph. by rewrite lookup_empty.
Qed.

Lemma system_reachable_ok auth safety s :
  rtc (system_step walk node_run) (system_new (broker_build auth safety)) s → system_ok s.
Proof.
  apply (rtc_ind_r system_ok); [apply system_new_ok|]. intros s1 s2 _. apply system_step_ok.
Qed.
End preservation.

(** ** What is on its way to the wire *)

Definition phase_typed (ph : Phase) : Prop :=
  match ph with
  | Registered c _ | Serving c | Draining c _ => conn_typed c
  | Arriving | Finished => True
  end.

Definition system_typed (s : System) : Prop :=
  world_typed (sy_world s) ∧ map_Forall (λ _ ph, phase_typed ph) (sy_conns s).

Section typed.
Context `{DashMapIter}.
Context {Node : Type} (walk : str → list Node).
Context (node_run : Node → MqttContext Node → option (MqttContext Node)).

Hypothesis node_relays : ∀ node ctx out i i',
  node_run node ctx = Some out → ctx_incoming ctx = Some i → incoming_relayable i →
  ctx_incoming out = Some i' → incoming_relayable i'.

Lemma user_step_typed ch ch' : user_step ch ch' → channel_typed ch → channel_typed ch'.
Proof.
  destruct 1; intros Hch; [by apply send_cmd_typed | by apply set_session_typed | by apply close_typed].
Qed.

Lemma turned_typed w c exit w' ph :
  turned w c exit = (w', ph) → world_typed w → conn_typed c → world_typed w' ∧ phase_typed ph.
Proof.
  intros Ht Hw Hc. destruct exit as [[g t|]|]; injection Ht as <- <-; try done.
  split; [by apply close_channel_typed | done].
Qed.

Lemma system_step_typed s s' : system_step walk node_run s s' → system_typed s → system_typed s'.
Proof.
  destruct 1 as [n w conns rd wr la ra n' ch Hn Hrd Hroom Hout Hnew|n w conns id hb t w' r Hid Ha|
    n w conns id c p w' r Hid Ha|
    n w conns id c ev w1 c1 ex w' ph Hid Hev Ht Htd|n w conns id c g w' c' Hid Hr|
    n w conns id c g Hid|n w conns id c g Hid Hwork|n w conns id ch ch' Hch Hs|
    n w conns src p Hp];
    intros [Hw Hc]; cbn in *; unfold system_typed; cbn.
  - split; [|by apply map_Forall_insert_2]. apply world_typed_set_channel; [|done].
    injection Hnew as _ <-. by apply (channel_new_typed n rd wr la ra Role_Server).
  - destruct (admit_begin_typed hb t w id Hw) as [Hw' Hr]. rewrite Ha in Hw', Hr.
    split; [done|]. apply map_Forall_insert_2; [|done]. destruct r as [[c p]| | |]; try done. by eapply Hr.
  - destruct (admit_connack_typed w c p Hw (Hc id _ Hid)) as [Hw' Hr]. rewrite Ha in Hw', Hr.
    split; [done|]. apply map_Forall_insert_2; [|done]. destruct r; try done. by apply Hr.
  - pose proof (Hc id _ Hid) as Hcn. cbn in Hcn.
    assert (typed_event ev) as Hte by by destruct ev.
    destruct (loop_turn_typed walk node_run node_relays w c ev Hte Hw Hcn) as [Hw1 Hc1].
    rewrite Ht in Hw1, Hc1. destruct (turned_typed _ _ _ _ _ Htd Hw1 Hc1) as [Hw' Hph].
    split; [done | by apply map_Forall_insert_2].
  - pose proof (Hc id _ Hid) as [Hwork Hrd]. unfold run_publish_chain_worker in Hr.
    destruct (sc_work c) as [|p work]; [done|]. injection Hr as <- <-.
    apply Forall_cons in Hwork as [Hp Hwork].
    split; [by apply worker_turn_typed | by apply map_Forall_insert_2].
  - pose proof (Hc id _ Hid) as [_ Hrd]. split; [done|]. apply map_Forall_insert_2; [|done].
    by split; [constructor|].
  - split; [by apply unregister_typed | by apply map_Forall_insert_2].
  - split; [|done]. apply world_typed_set_channel; [|done].
    pose proof (wt_channel _ Hw id ch Hch). destruct Hs; [by eapply actor_step_typed | by eapply user_step_typed].
  - split; [by apply publish_typed | done].
Qed.

Lemma system_reachable_typed auth safety s :
  rtc (system_step walk node_run) (system_new (broker_build auth safety)) s → system_typed s.
Proof.
  apply (rtc_ind_r system_typed); [|intros s1 s2 _; apply system_step_typed].
  split; [|by intros id ph Hph; cbn in Hph; rewrite lookup_empty in Hph].
  split; cbn; intros *; by rewrite lookup_empty.
Qed.
End typed.

(** ** Winding down *)

Section shutdown.
Context `{DashMapIter}.
Context {Node : Type} (walk : str → list Node).
Context (node_run : Node → MqttContext Node → option (MqttContext Node)).
Implicit Types conns : gmap Z Phase.

Abbreviation steps := (rtc (system_step walk node_run)).

(** The worker empties its queue, and the connection unregisters. *)
Lemma drain_finishes n w conns id c graceful :
  conns !! id = Some (Draining c graceful) →
  ∃ w', steps (mkSystem n w conns) (mkSystem n w' (<[id := Finished]> conns)).
Proof.
  remember (sc_work c) as work eqn:Hwork. revert c w conns Hwork.
  induction work as [|p work IH]; intros c w conns Hwork Hid.
  - eexists. apply rtc_once. by eapply sys_unregister.
  - destruct (IH (set_work c work) (worker_turn walk node_run (sc_channel c) (sc_client_id c) w p)
      (<[id := Draining (set_work c work) graceful]> conns)) as [w' Hs];
      [done | by rewrite lookup_insert_eq|].
    exists w'. rewrite insert_insert_eq in Hs. eapply rtc_l; [|exact Hs].
    eapply sys_drain; [done|]. unfold run_publish_chain_worker. by rewrite <- Hwork.
Qed.

(** A turn that reads and goes on has consumed something. *)
Lemma then_channel_reader w c f k :
  (∀ w', sc_reader (k w').1.2 = sc_reader c) → sc_reader (then_channel w c f k).1.2 = sc_reader c.
Proof.
  intros Hk. unfold then_channel. by destruct (on_channel w (sc_channel c) f) as [w' []]; [apply Hk|..].
Qed.

Lemma send_work_reader c pb : sc_reader (send_work c pb).1 = sc_reader c.
Proof. unfold send_work. by destruct (sc_worker c). Qed.

Lemma dispatch_reader w c p : sc_reader (dispatch_server_inbound w c p).1.2 = sc_reader c.
Proof.
  destruct p as [k|a|pb|pid|pid|pid|pid|s|s|u|pid| | |]; cbn [dispatch_server_inbound];
    try done; try (by apply then_channel_reader).
  - apply then_channel_reader. intros w'. case_bool_decide; [done|].
    pose proof (send_work_reader c pb) as Hr. by destruct (send_work c pb) as [c' r].
  - apply then_channel_reader. intros w'. by apply then_channel_reader.
  - destruct (on_channel w (sc_channel c) _) as [w1 taken].
    set (x := match taken with Ok _ => _ | _ => _ end).
    assert (sc_reader x.1 = sc_reader c) as Hx.
    { unfold x. destruct taken as [[st|]| | |]; [apply send_work_reader|done..]. }
    destruct x as [c' sent]. cbn [fst] in Hx. rewrite <- Hx.
    destruct sent; [by apply then_channel_reader | done..].
  - destruct (subscribe _ _ _ _) as [w0 codes]. by apply then_channel_reader.
Qed.

Lemma read_packet_before_waits rd max_size deadline :
  read_packet_before rd max_size deadline false = read_packet_before rd max_size None false.
Proof. by destruct deadline. Qed.

Lemma loop_turn_consumes w c w' c' :
  sc_at_select c = true → loop_turn walk node_run w c (Ev_Read false) = (w', c', None) →
  (length (rd_input (sc_reader c')) < length (rd_input (sc_reader c)))%nat.
Proof.
  intros Hsel Ht. cbn [loop_turn] in Ht.
  rewrite Hsel, (read_packet_before_waits _ _ (sc_read_deadline c)) in Ht.
  unfold read_packet_before in Ht. destruct (read_packet _ _) as [r rd] eqn:Er.
  destruct r as [p|e| |]; try done; [|by destruct e].
  apply read_packet_consumes in Er.
  pose proof (dispatch_reader w (set_conn_reader c rd) p) as Hd.
  destruct p; cbn [loop_read] in Ht; try done;
    destruct (dispatch_server_inbound w _ _) as [[w1 c1] []]; try done;
    injection Ht as _ <-; cbn in Hd; by rewrite Hd.
Qed.

(** A served connection whose peer has nothing more to say reads what is left, and ends
    at the end of the stream at the latest. *)
Lemma serving_finishes n w conns id c :
  conns !! id = Some (Serving c) →
  ∃ w', steps (mkSystem n w conns) (mkSystem n w' (<[id := Finished]> conns)).
Proof.
  remember (length (rd_input (sc_reader c))) as l eqn:Hl. revert c w conns Hl.
  induction l as [l IH] using (well_founded_induction Nat.lt_wf_0); intros c w conns -> Hid.
  assert (∀ w c conns ev w1 c1 exit, conns !! id = Some (Serving c) → own_event w c ev →
    loop_turn walk node_run w c ev = (w1, c1, Some exit) →
    ∃ w', steps (mkSystem n w conns) (mkSystem n w' (<[id := Finished]> conns))) as Hbroke.
  { intros w0 c0 conns0 ev w1 c1 [g t|] Hid0 Hev Ht.
    - destruct (drain_finishes n (close_channel w1 (sc_channel c1))
        (<[id := Draining c1 g]> conns0) id c1 g) as [w' Hs]; [by rewrite lookup_insert_eq|].
      exists w'. rewrite insert_insert_eq in Hs. eapply rtc_l; [|exact Hs]. by eapply sys_turn.
    - exists w1. apply rtc_once. by eapply sys_turn. }
  assert (∀ w c0 conns, sc_reader c0 = sc_reader c → sc_at_select c0 = true →
    conns !! id = Some (Serving c0) →
    ∃ w', steps (mkSystem n w conns) (mkSystem n w' (<[id := Finished]> conns))) as Hread.
  { intros w0 c0 conns0 Hrd Hsel Hid0.
    destruct (loop_turn walk node_run w0 c0 (Ev_Read false)) as [[w1 c1] [ex|]] eqn:Ht;
      [by eapply (Hbroke w0 c0 conns0 (Ev_Read false))|].
    pose proof (loop_turn_consumes _ _ _ _ Hsel Ht) as Hlt. rewrite Hrd in Hlt.
    destruct (IH _ Hlt c1 w1 (<[id := Serving c1]> conns0)) as [w' Hs];
      [done | by rewrite lookup_insert_eq|].
    exists w'. rewrite insert_insert_eq in Hs. eapply rtc_l; [|exact Hs].
    by eapply (sys_turn walk node_run n w0 conns0 id c0 (Ev_Read false)). }
  destruct (sc_at_select c) eqn:Hsel; [by eapply Hread|].
  destruct (loop_turn walk node_run w c Ev_Test) as [[w1 c1] [ex|]] eqn:Ht;
    [by eapply (Hbroke w c conns Ev_Test)|].
  pose proof Ht as Ht'. cbn in Ht'. destruct (negb _); [done|]. injection Ht' as <- <-.
  destruct (Hread w (enter_select c) (<[id := Serving (enter_select c)]> conns)) as [w' Hs];
    [done | done | by rewrite lookup_insert_eq|].
  exists w'. rewrite insert_insert_eq in Hs. eapply rtc_l; [|exact Hs].
  by eapply (sys_turn walk node_run n w conns id c Ev_Test).
Qed.

(** A peer whose CONNECT does not come in time is turned away. *)
Lemma admission_timeout w id : registered (admit_begin true true w id).2 = Finished.
Proof.
  unfold admit_begin. cbn [negb]. destruct (on_channel w id _) as [w1 taken]. by destruct taken.
Qed.

Lemma connection_finishes n w conns id ph :
  conns !! id = Some ph →
  ∃ w', steps (mkSystem n w conns) (mkSystem n w' (<[id := Finished]> conns)).
Proof.
  intros Hid. destruct ph as [|c p|c|c g|].
  - pose proof (admission_timeout w id) as Ha.
    destruct (admit_begin true true w id) as [w' r] eqn:E. cbn in Ha. exists w'.
    rewrite <- Ha. apply rtc_once. by eapply sys_register.
  - destruct (admit_connack w c p) as [w1 r] eqn:E.
    pose proof (sys_connack walk node_run n w conns id c p w1 r Hid E) as Hs.
    destruct r as [c1|e| |]; cbn [admitted] in Hs; try (eexists; by apply rtc_once).
    destruct (serving_finishes n w1 (<[id := Serving c1]> conns) id c1) as [w' Hf];
      [by rewrite lookup_insert_eq|].
    exists w'. rewrite insert_insert_eq in Hf. by eapply rtc_l.
  - by eapply serving_finishes.
  - by eapply drain_finishes.
  - exists w. rewrite insert_id by done. constructor.
Qed.

Lemma all_finish n w conns (ids : list Z) :
  ∃ w' conns', steps (mkSystem n w conns) (mkSystem n w' conns') ∧
    (∀ id, id ∈ ids → is_Some (conns !! id) → conns' !! id = Some Finished) ∧
    (∀ id, conns' !! id = Some Finished ∨ conns' !! id = conns !! id).
Proof.
  revert w conns. induction ids as [|id ids IH]; intros w conns.
  { exists w, conns. split_and!; [done | | auto]. by intros id ?%elem_of_nil. }
  destruct (conns !! id) as [ph|] eqn:Hid.
  - destruct (connection_finishes n w conns id ph Hid) as [w1 H1].
    destruct (IH w1 (<[id := Finished]> conns)) as (w' & conns' & Hs & Hin & Hrest).
    exists w', conns'. split_and!; [by etrans | |].
    + intros id' [->|Hid']%elem_of_cons Hsome.
      * destruct (Hrest id) as [?|Hr]; [done|]. by rewrite Hr, lookup_insert_eq.
      * apply Hin; [done|]. apply lookup_insert_is_Some'. by right.
    + intros id'. destruct (Hrest id') as [?|Hr]; [by left|].
      destruct (decide (id = id')) as [<-|Hne].
      * left. by rewrite Hr, lookup_insert_eq.
      * right. by rewrite Hr, lookup_insert_ne.
  - destruct (IH w conns) as (w' & conns' & Hs & Hin & Hrest).
    exists w', conns'. split_and!; [done | |done].
    intros id' [->|Hid']%elem_of_cons [ph Hph]; [congruence | eauto].
Qed.
End shutdown.

(** ** Theorems *)

Definition phase_conn (ph : Phase) : option ServerConn :=
  match ph with
  | Registered c _ | Serving c | Draining c _ => Some c
  | Arriving | Finished => None
  end.

(** The connection has been admitted and has not been told to go. *)
Definition phase_live (ph : Phase) : option ServerConn :=
  match ph with Registered c _ | Serving c => Some c | _ => None end.

Section theorems.
Context `{DashMapIter}.
Context {Node : Type} (walk : str → list Node).
Context (node_run : Node → MqttContext Node → option (MqttContext Node)).


Lemma system_quiescent auth safety s :
  rtc (system_step walk node_run) (system_new (broker_build auth safety)) s →
  map_Forall (λ _ ph, ph = Finished) (sy_conns s) →
  w_sessions (sy_world s) = ∅ ∧ ∀ f c, sub_of (w_subs (sy_world s)) f c = None.
Proof.
  intros Hr Hfin. pose proof (system_reachable_ok walk node_run auth safety s Hr) as [Hb Hi Hc Hp].
  assert (∀ c, w_sessions (sy_world s) !! c = None) as Hnone.
  { intros c. destruct (w_sessions (sy_world s) !! c) as [e|] eqn:He; [|done].
    destruct (Hc (se_channel e)) as [ph Hph]; [by eapply inv_channel|].
    pose proof (Hfin _ _ Hph) as ->. destruct (Hp _ _ Hph) as [_ Hno].
    specialize (Hno c). apply owned_entry_None in Hno. by rewrite He in Hno. }
  apply map_empty in Hnone. split; [done|].
  intros f c. destruct (sub_of _ f c) as [q|] eqn:E; [|done].
  destruct (inv_subscriber _ Hb f c q E) as [e He]. by rewrite Hnone, lookup_empty in He.
Qed.

(** C17: nothing can get stuck and nothing is left behind: from every state the server
    reaches, its connections can all be brought to an end, by the deadline of a
    CONNECT that does not come, the shutdown of the loops and the end of the
    workers' queues, without a new connection; and whenever all have ended, the
    session table is empty and the subscription tree names no client. *)
Theorem system_shuts_down auth safety s :
  rtc (system_step walk node_run) (system_new (broker_build auth safety)) s →
  (∃ s', rtc (system_step walk node_run) s s' ∧ sy_next s' = sy_next s ∧
     map_Forall (λ _ ph, ph = Finished) (sy_conns s')) ∧
  ∀ s', rtc (system_step walk node_run) s s' →
    map_Forall (λ _ ph, ph = Finished) (sy_conns s') →
    w_sessions (sy_world s') = ∅ ∧ ∀ f c, sub_of (w_subs (sy_world s')) f c = None.
Proof.
  intros Hr. split.
  - destruct s as [n w conns].
    destruct (all_finish walk node_run n w conns (map fst (map_to_list conns)))
      as (w' & conns' & Hs & Hin & Hrest).
    exists (mkSystem n w' conns'). split_and!; [done | done|]. cbn. intros id ph Hph.
    destruct (Hrest id) as [Hf|Hf]; [congruence|]. rewrite Hf in Hph.
    assert (conns' !! id = Some Finished) as Hfin; [|congruence].
    apply Hin; [|by eexists]. apply list_elem_of_fmap. exists (id, ph). split; [done|].
    by apply elem_of_map_to_list.
  - intros s' Hs. apply (system_quiescent auth safety). by etrans.
Qed.

(** C10: no peer can make a writer give up.  In every state the server reaches, whatever
    bytes its peers send, every queue holds only packets that the encoders accept,
    every wire carries encodings of such packets, and every stashed publish and
    registered Will can be relayed: a writer that is busy with a command writes all of
    it and goes on, unless the transport itself fails.  Application code has to publish
    and leave messages that fit a PUBLISH. *)
Theorem system_output_typed auth safety s :
  (∀ node ctx out i i', node_run node ctx = Some out → ctx_incoming ctx = Some i →
     incoming_relayable i → ctx_incoming out = Some i' → incoming_relayable i') →
  rtc (system_step walk node_run) (system_new (broker_build auth safety)) s →
  world_typed (sy_world s) ∧
  ∀ id ch cmd, w_channels (sy_world s) !! id = Some ch → ch_actor ch = Writing cmd →
    cmd ≠ Cmd_Shutdown → wr_room (ch_writer ch) = None →
    ∃ ch', actor_write ch = Some ch' ∧ ch_actor ch' = AtSelect false ∧
      ch_queue ch' = ch_queue ch ∧ ch_open ch' = ch_open ch ∧
      wr_out (ch_writer ch') = wr_out (ch_writer ch) ++ cmd_bytes cmd.
Proof.
  intros Hnode Hr. destruct (system_reachable_typed walk node_run Hnode auth safety s Hr) as [Hw _].
  split; [done|]. intros id ch cmd Hch. by apply typed_write, (wt_channel _ Hw id).
Qed.
End theorems.

(** Admission without anybody in between. *)
Lemma admission_steps `{DashMapIter} {Node} (walk : str → list Node) node_run
    n w conns id has_broker timed_out w' r :
  conns !! id = Some Arriving → admit_peer has_broker timed_out w id = (w', r) →
  rtc (system_step walk node_run) (mkSystem n w conns) (mkSystem n w' (<[id := admitted r]> conns)).
Proof.
  intros Hid Ha. unfold admit_peer in Ha.
  destruct (admit_begin has_broker timed_out w id) as [w1 r1] eqn:Eb.
  pose proof (sys_register walk node_run n w conns id has_broker timed_out w1 r1 Hid Eb) as H1.
  eapply rtc_l; [exact H1|]. destruct r1 as [[c p]|e| |]; cbn [then_connack registered] in *;
    [|by injection Ha as <- <-..].
  apply rtc_once. rewrite <- (insert_insert_eq conns id (admitted r) (Registered c p)).
  eapply sys_connack; [by rewrite lookup_insert_eq | done].
Qed.

(** ** A server with one peer

    It sends CONNECT and DISCONNECT; the server has admitted it. *)
Definition demo_peer : World :=
  set_channels (world_new broker_accept_all)
    (<[1 := (channel_new 1 (mkReader demo_input []) (mkWriter [] None) None None Role_Server).2]> ∅).

Definition demo_system : System :=
  mkSystem 2 (admit_peer true false demo_peer 1).1
    (<[1 := admitted (admit_peer true false demo_peer 1).2]> (<[1 := Arriving]> ∅)).

Lemma demo_system_reachable :
  rtc (system_step one_node keep_run) (system_new broker_accept_all) demo_system.
Proof.
  apply rtc_l with (mkSystem 2 demo_peer (<[1 := Arriving]> ∅)).
  - apply (sys_accept one_node keep_run 1 (world_new broker_accept_all) ∅ (mkReader demo_input [])
      (mkWriter [] None) None None); [done | | done | done | reflexivity].
    apply (bool_decide_unpack _). vm_compute. exact I.
  - apply (admission_steps _ _ 2 demo_peer _ 1 true false); [done|].
    by destruct (admit_peer true false demo_peer 1).
Qed.

(** The peer is served, under the client id it asked for. *)
Example demo_system_serves :
  (λ ph, sc_client_id <$> phase_conn ph) <$> sy_conns demo_system !! 1 =
    Some (Some (str_of "cid")).
Proof. vm_compute. reflexivity. Qed.


Lemma system_shuts_down_witness :
  ∃ s', rtc (system_step one_node keep_run) demo_system s' ∧
    sy_next s' = 2 ∧ map_Forall (λ _ ph, ph = Finished) (sy_conns s').
Proof.
  exact (proj1 (system_shuts_down one_node keep_run AcceptAllAuthenticator safety_new demo_system
    demo_system_reachable)).
Defined.

Lemma system_output_typed_witness : world_typed (sy_world demo_system).
Proof.
  apply (system_output_typed one_node keep_run AcceptAllAuthenticator safety_new demo_system).
  - intros node ctx out i i' [= <-] Hi Hr Hi'. rewrite Hi in Hi'. injection Hi' as <-. exact Hr.
  - apply demo_system_reachable.
Defined.
