(* ===== verification/Exec.v ===== *)
(** Running the server: a scheduler for [System.v].

    [System.v] leaves open which task runs next.  A script fixes it: each command is
    one step of one task, or the writer emptying its queue.  [run_steps] says that
    what a script computes is an execution of the server, so that everything proved
    about those holds of it; [Conformance.v] uses it to run the scenarios of the
    crate's own tests. *)

From S2P Require Import Prelude.
From S2P Require Import Types.
From S2P Require Import Safety.
From S2P Require Import Wire.
From S2P Require Import Codec.
From S2P Require Import Session.
From S2P Require Import Channel.
From S2P Require Import Subscriptions.
From S2P Require Import Broker.
From S2P Require Import Context.
From S2P Require Import Protocol.
From S2P Require Import Server.
From S2P Require Import ServerFlow.
From S2P Require Import Typed.
From S2P Require Import System.

Inductive Command :=
  | Accept (input : bytes)              (* a peer that sends these bytes *)
  | Connect (id : Z)                    (* [handle_server] up to its loop *)
  | Register (id : Z)                   (* the same, up to the CONNACK *)
  | Connack (id : Z)                    (* the CONNACK *)
  | Give_up (id : Z)                    (* the same, the CONNECT does not come *)
  | Turn (id : Z) (ev : LoopEvent)      (* a turn of the loop or of the worker *)
  | Drain (id : Z)                      (* the worker, after the loop *)
  | Unregister (id : Z)                 (* the end of [handle_server] *)
  | Flush (id : Z)                      (* the writer empties its queue *)
  | Stop (id : Z)                       (* the writer is told to shut down *)
  | Broadcast (source : str) (p : PublishPacket).   (* [broker.publish] *)

#[global] Instance own_event_dec w c ev : Decision (own_event w c ev).
Proof. destruct ev; cbn; apply _. Defined.

(** [recv()] and its branch, [fuel] times or until the queue is empty. *)
Fixpoint actor_flush (fuel : nat) (ch : MqttChannel) : MqttChannel :=
  match fuel with
  | O => ch
  | S fuel =>
      match actor_recv false ch with
      | Some ch1 => match actor_write ch1 with Some ch2 => actor_flush fuel ch2 | None => ch end
      | None => ch
      end
  end.

Section exec.
Context `{DashMapIter}.
Context {Node : Type} (walk : str → list Node).
Context (node_run : Node → MqttContext Node → option (MqttContext Node)).

Definition exec_connect (s : System) (id : Z) (timed_out : bool) : option System :=
  match sy_conns s !! id with
  | Some Arriving =>
      let '(w, r) := admit_peer true timed_out (sy_world s) id in
      Some (mkSystem (sy_next s) w (<[id := admitted r]> (sy_conns s)))
  | _ => None
  end.

Definition exec_channel (s : System) (id : Z) (f : MqttChannel → option MqttChannel) :
    option System :=
  ch ← w_channels (sy_world s) !! id;
  ch' ← f ch;
  Some (mkSystem (sy_next s)
    (set_channels (sy_world s) (<[id := ch']> (w_channels (sy_world s)))) (sy_conns s)).

Definition exec (s : System) (cmd : Command) : option System :=
  let n := sy_next s in
  let w := sy_world s in
  let conns := sy_conns s in
  match cmd with
  | Accept input =>
      if bool_decide (n < u64_max ∧ bytes_ok input) then
        let '(n', ch) := channel_new n (mkReader input []) (mkWriter [] None) None None Role_Server in
        Some (mkSystem n' (set_channels w (<[n := ch]> (w_channels w))) (<[n := Arriving]> conns))
      else None
  | Connect id => exec_connect s id false
  | Give_up id => exec_connect s id true
  | Register id =>
      match conns !! id with
      | Some Arriving =>
          let '(w', r) := admit_begin true false w id in
          Some (mkSystem n w' (<[id := registered r]> conns))
      | _ => None
      end
  | Connack id =>
      match conns !! id with
      | Some (Registered c session_present) =>
          let '(w', r) := admit_connack w c session_present in
          Some (mkSystem n w' (<[id := admitted r]> conns))
      | _ => None
      end
  | Turn id ev =>
      match conns !! id with
      | Some (Serving c) =>
          if bool_decide (own_event w c ev) then
            let '(w1, c1, exit) := loop_turn walk node_run w c ev in
            let '(w', ph) := turned w1 c1 exit in
            Some (mkSystem n w' (<[id := ph]> conns))
          else None
      | _ => None
      end
  | Drain id =>
      match conns !! id with
      | Some (Draining c graceful) =>
          match run_publish_chain_worker walk node_run w c with
          | Some (w', c') => Some (mkSystem n w' (<[id := Draining c' graceful]> conns))
          | None => None
          end
      | _ => None
      end
  | Unregister id =>
      match conns !! id with
      | Some (Draining c graceful) =>
          if bool_decide (sc_work c = []) then
            Some (mkSystem n (unregister_session w (sc_client_id c) (sc_channel c) graceful)
                    (<[id := Finished]> conns))
          else None
      | _ => None
      end
  | Flush id => exec_channel s id (λ ch, Some (actor_flush (length (ch_queue ch)) ch))
  | Stop id => exec_channel s id actor_shutdown
  | Broadcast source p =>
      if bool_decide (publish_relayable p) then Some (mkSystem n (publish w source p) conns)
      else None
  end.

Fixpoint run (s : System) (script : list Command) : option System :=
  match script with
  | [] => Some s
  | cmd :: script => s ← exec s cmd; run s script
  end.

(** ** Scripts are executions *)

Lemma channel_exec n w conns id ch ch' :
  w_channels w !! id = Some ch → rtc actor_step ch ch' →
  rtc (system_step walk node_run) (mkSystem n w conns)
    (mkSystem n (set_channels w (<[id := ch']> (w_channels w))) conns).
Proof.
  intros Hch Hs. revert w Hch. induction Hs as [ch|ch ch1 ch' H1 _ IH]; intros w Hch.
  { rewrite insert_id by done. by destruct w. }
  eapply rtc_l; [eapply sys_channel; [done | by left]|].
  specialize (IH (set_channels w (<[id := ch1]> (w_channels w)))). cbn in IH.
  rewrite lookup_insert_eq, insert_insert_eq in IH. by apply IH.
Qed.

Lemma actor_flush_steps fuel ch : rtc actor_step ch (actor_flush fuel ch).
Proof.
  revert ch. induction fuel as [|fuel IH]; intros ch; cbn; [done|].
  destruct (actor_recv false ch) as [ch1|] eqn:E1; [|done].
  destruct (actor_write ch1) as [ch2|] eqn:E2; [|done].
  eapply rtc_l; [by eapply actor_step_recv|]. eapply rtc_l; [by apply actor_step_write | apply IH].
Qed.

Lemma exec_channel_sound s id f s' :
  (∀ ch ch', f ch = Some ch' → rtc actor_step ch ch') →
  exec_channel s id f = Some s' → rtc (system_step walk node_run) s s'.
Proof.
  intros Hf He. unfold exec_channel in He. destruct s as [n w conns]. cbn in He.
  destruct (w_channels w !! id) as [ch|] eqn:E; [|done]. cbn in He.
  destruct (f ch) as [ch'|] eqn:Ef; [|done]. injection He as <-. eauto using channel_exec.
Qed.

Lemma exec_step s cmd s' : exec s cmd = Some s' → rtc (system_step walk node_run) s s'.
Proof.
  intros He. destruct s as [n w conns].
  destruct cmd as [input|id|id|id|id|id ev|id|id|id|id|src p];
    cbn [exec] in He; unfold exec_connect in He; cbn [sy_next sy_world sy_conns] in He.
  - case_bool_decide as Hok; [|done]. injection He as <-. apply rtc_once.
    destruct Hok as [Hn Hin]. by eapply (sys_accept _ _ n w conns (mkReader input []) (mkWriter [] None)).
  - destruct (conns !! id) as [[]|] eqn:E; try done.
    destruct (admit_peer true false w id) as [w' r] eqn:Ea. injection He as <-.
    by eapply admission_steps.
  - destruct (conns !! id) as [[]|] eqn:E; try done.
    destruct (admit_begin true false w id) as [w' r] eqn:Ea. injection He as <-.
    by eapply rtc_once, sys_register.
  - destruct (conns !! id) as [[|c p| | |]|] eqn:E; try done.
    destruct (admit_connack w c p) as [w' r] eqn:Ea. injection He as <-.
    by eapply rtc_once, sys_connack.
  - destruct (conns !! id) as [[]|] eqn:E; try done.
    destruct (admit_peer true true w id) as [w' r] eqn:Ea. injection He as <-.
    by eapply admission_steps.
  - destruct (conns !! id) as [[| |c| |]|] eqn:E; try done. case_bool_decide as Hev; [|done].
    destruct (loop_turn walk node_run w c ev) as [[w1 c1] ex] eqn:Et.
    destruct (turned w1 c1 ex) as [w' ph] eqn:Ed. injection He as <-.
    apply rtc_once. by eapply sys_turn.
  - destruct (conns !! id) as [[| | |c g|]|] eqn:E; try done.
    destruct (run_publish_chain_worker walk node_run w c) as [[w' c']|] eqn:Er; [|done].
    injection He as <-. apply rtc_once. by eapply sys_drain.
  - destruct (conns !! id) as [[| | |c g|]|] eqn:E; try done. case_bool_decide; [|done].
    injection He as <-. apply rtc_once. by eapply sys_unregister.
  - eapply exec_channel_sound; [|exact He]. intros ch ch' [= <-]. apply actor_flush_steps.
  - eapply exec_channel_sound; [|exact He]. intros ch ch' Hs. by apply rtc_once, actor_step_shutdown.
  - case_bool_decide; [|done]. injection He as <-. apply rtc_once. by eapply sys_publish.
Qed.

Lemma run_steps s script s' : run s script = Some s' → rtc (system_step walk node_run) s s'.
Proof.
  revert s. induction script as [|cmd script IH]; intros s Hr; cbn in Hr.
  { by injection Hr as <-. }
  destruct (exec s cmd) as [s1|] eqn:E; [|done]. etrans; [by eapply exec_step | by apply IH].
Qed.
End exec.
