(* ===== verification/EndToEnd.v ===== *)
(** Both ends of a connection together: what a client of
    [src/src/protocol/client.rs] sends through [src/src/protocol/send.rs], the
    server of [src/src/protocol/server.rs] and its broker do with it, and what
    reaches the other clients and comes back.

    The two ends share nothing but bytes: a packet leaves one as the frame its
    writer encodes, and enters the other through its stream reader. *)

From S2P Require Import Prelude.
From S2P Require Import Types.
From S2P Require Import Safety.
From S2P Require Import Wire.
From S2P Require Import Encode.
From S2P Require Import Decode.
From S2P Require Import Codec.
From S2P Require Import Roundtrip.
From S2P Require Import Reencode.
From S2P Require Import Session.
From S2P Require Import Channel.
From S2P Require Import Subscriptions.
From S2P Require Import Broker.
From S2P Require Import Context.
From S2P Require Import Send.
From S2P Require Import Protocol.
From S2P Require Import Server.
From S2P Require Import ServerFlow.
From S2P Require Import Client.
From S2P Require Import Typed.

(** ** The handshake *)

(** What the client still sends after its CONNECT was accepted. *)
Definition initial_subscribe {Handler} (config : MqttClientConfig Handler) (s : MqttSession) :
    list WriteCmd :=
  match cfg_initial_subscriptions config with
  | [] => []
  | filters =>
      [Cmd_Packet (Packet_Subscribe (mkSubscribePacket (allocate_packet_id s).2
         (map (λ tf, mkTopicSubscription (tf_filter tf) (tf_qos tf)) filters)))]
  end.

(** The client's side, once an accepting CONNACK can be read. *)
Lemma client_accepted {Handler Node} (config : MqttClientConfig Handler) w id ch rd ack rd' :
  w_channels w !! id = Some ch → ch_actor ch ≠ Exited → ss_bind (ch_session ch) = None →
  ch_reader ch = Some rd →
  read_packet (max_packet_size (cfg_safety config)) rd = (Ok (Packet_Connack ack), rd') →
  ack_return_code ack = Accepted →
  ∃ w' ch', client_connect (Node:=Node) (Some config) false w id =
      (w', Ok (mkClientConn id config rd' [] false)) ∧
    w_channels w' !! id = Some ch' ∧
    ss_bind (ch_session ch') =
      Some (mkBindInfo (cfg_client_id config) (cfg_keep_alive_secs config)) ∧
    ch_queue ch' = ch_queue ch ++ Cmd_Packet (Packet_Connect (build_connect config)) ::
      initial_subscribe config (ch_session ch).
Proof.
  intros Hch Ha Hbind Hrd Hread Hacc. unfold client_connect, initial_subscribe.
  rewrite (on_channel_Some _ _ ch) by done. cbn [take_reader fst snd].
  rewrite Hrd. cbn [ok_or].
  rewrite (on_channel_send _ id (set_reader ch None)) by (done || by cbn; rewrite lookup_insert_eq).
  rewrite Hread, bool_decide_true by done. cbn [negb].
  set (ch2 := set_queue _ _). set (w2 := set_channels _ _).
  assert (w_channels w2 !! id = Some ch2) as H2 by (cbn; by rewrite lookup_insert_eq).
  rewrite (on_channel_Some _ _ ch2) by done. cbn [with_session fst snd].
  set (ch3 := set_session ch2 _). set (w3 := set_channels w2 _).
  assert (w_channels w3 !! id = Some ch3) as H3 by (cbn; by rewrite lookup_insert_eq).
  assert (ch_session ch3 = (bind_set (ch_session ch)
    (mkBindInfo (cfg_client_id config) (cfg_keep_alive_secs config))).1) as Hs by done.
  unfold bind_set in Hs. rewrite Hbind in Hs. cbn [fst] in Hs.
  destruct (cfg_initial_subscriptions config) as [|f fs].
  { exists w3, ch3. split_and!; [done | done | by rewrite Hs | done]. }
  rewrite (on_channel_Some _ _ ch3) by done. rewrite Hs.
  cbn [allocate_packet_id]. rewrite send_packet_live by done. cbn [fst snd].
  eexists _, _. split; [reflexivity|]. cbn. split; [apply lookup_insert_eq|].
  split; [done|]. by rewrite <- app_assoc.
Qed.

(** A CONNACK always fits the wire. *)
Lemma connack_encode ack :
  ∃ f, encode_packet (Packet_Connack ack) = Ok f ∧ frames f (Packet_Connack ack) ∧
    declared_length f = 2.
Proof.
  destruct (received_encode (Packet_Connack ack)) as (f & Hf & Hfr & Hl);
    [|by intros []|by exists f].
  by split_and!.
Qed.

Section server.
Context `{DashMapIter}.

(** The server's side, once the CONNECT can be read. *)
Lemma server_admits w id ch rd connect rd' :
  w_channels w !! id = Some ch → ch_actor ch ≠ Exited → ch_reader ch = Some rd →
  map_Forall (λ _ e, se_channel e ≠ id) (w_sessions w) →
  read_packet (max_packet_size (br_safety (w_broker w))) rd = (Ok (Packet_Connect connect), rd') →
  keep_alive_refused (br_safety (w_broker w)) (conn_keep_alive connect) = false →
  auth_accepted (authenticate (w_broker w) connect (ch_remote_addr ch)) = true →
  let cid := assigned_client_id connect id in
  let clean := conn_clean_session connect in
  ∃ w' c ch', admit_peer true false w id = (w', Ok c) ∧
    sc_client_id c = cid ∧ sc_channel c = id ∧ sc_reader c = rd' ∧
    w_sessions w' = <[cid := mkEntry id ∅ (will_of connect) clean]> (w_sessions w) ∧
    w_channels w' !! id = Some ch' ∧
    ch_queue ch' = ch_queue ch ++ [Cmd_Packet (connack
      (negb clean && bool_decide (is_Some (w_sessions w !! cid))) Accepted)].
Proof.
  intros Hch Ha Hrd Hfresh Hread Hka Hauth cid clean. unfold admit_peer, admit_begin. cbn [negb].
  rewrite (on_channel_Some _ _ ch) by done. cbn [take_reader fst snd]. rewrite Hrd.
  cbn [ok_or]. set (w1 := set_channels w _).
  change (w_broker w1) with (w_broker w). rewrite Hread.
  fold (admit_connect w1 id rd' connect).
  destruct (admit_connect_gate w1 id rd' connect (set_reader ch None))
    as (w' & r & ch' & -> & Hch' & Hg); [by cbn; rewrite lookup_insert_eq | done | done|].
  change (w_broker w1) with (w_broker w) in Hg. cbn [ch_remote_addr set_reader] in Hg.
  rewrite Hka, Hauth in Hg. cbn [negb] in Hg. destruct Hg as (-> & Hs & Hq).
  by eexists w', _, ch'.
Qed.

(** C15: the handshake works end to end.  The bytes of a configured client's CONNECT,
    read by a server whose policy and authenticator accept it, give it a session
    under its client id with its Will and its session flag; the CONNACK the server
    queues can be encoded, and the client that reads its bytes is connected: it binds
    its session and goes on with its initial SUBSCRIBE, and both ends go on with
    exactly the bytes that follow. *)
Theorem connect_end_to_end {Handler Node} (config : MqttClientConfig Handler) b w id ch rest allocs :
  let connect := build_connect config in
  packet_ok (Packet_Connect connect) → encodable (Packet_Connect connect) →
  cfg_client_id config ≠ [] → encode_packet (Packet_Connect connect) = Ok b →
  w_channels w !! id = Some ch → ch_actor ch ≠ Exited →
  ch_reader ch = Some (mkReader (b ++ rest) allocs) →
  declared_length b ≤ max_packet_size (br_safety (w_broker w)) →
  map_Forall (λ _ e, se_channel e ≠ id) (w_sessions w) →
  keep_alive_refused (br_safety (w_broker w)) (cfg_keep_alive_secs config) = false →
  auth_accepted (authenticate (w_broker w) connect (ch_remote_addr ch)) = true →
  ∃ w' c ch' ack f,
    admit_peer true false w id = (w', Ok c) ∧
    sc_client_id c = cfg_client_id config ∧ rd_input (sc_reader c) = rest ∧
    w_sessions w' = <[cfg_client_id config :=
      mkEntry id ∅ (cfg_will config) (cfg_clean_session config)]> (w_sessions w) ∧
    w_channels w' !! id = Some ch' ∧
    ch_queue ch' = ch_queue ch ++ [Cmd_Packet (Packet_Connack ack)] ∧
    encode_packet (Packet_Connack ack) = Ok f ∧
    ∀ cw n cch crest callocs,
      w_channels cw !! n = Some cch → ch_actor cch ≠ Exited → ss_bind (ch_session cch) = None →
      ch_reader cch = Some (mkReader (f ++ crest) callocs) →
      2 ≤ max_packet_size (cfg_safety config) →
      ∃ cw' conn cch', client_connect (Node:=Node) (Some config) false cw n = (cw', Ok conn) ∧
        cc_config conn = config ∧ rd_input (cc_reader conn) = crest ∧
        w_channels cw' !! n = Some cch' ∧
        ss_bind (ch_session cch') =
          Some (mkBindInfo (cfg_client_id config) (cfg_keep_alive_secs config)) ∧
        ch_queue cch' = ch_queue cch ++ Cmd_Packet (Packet_Connect connect) ::
          initial_subscribe config (ch_session cch).
Proof.
  intros connect Hok Henc Hcid Hb Hch Ha Hrd Hmax Hfresh Hka Hauth.
  pose proof (encode_packet_frames _ _ Hok Henc Hb) as Hf.
  pose proof (frames_read _ _ rest _ allocs Hf Hmax) as Hread. cbn [wire_view] in Hread.
  destruct (server_admits w id ch _ connect _ Hch Ha Hrd Hfresh Hread Hka Hauth)
    as (w' & c & ch' & Hadm & Hc & _ & Hcr & Hs & Hch' & Hq).
  assert (assigned_client_id connect id = cfg_client_id config) as Hid
    by (unfold assigned_client_id; by rewrite bool_decide_false).
  assert (will_of connect = cfg_will config) as Hwill
    by (unfold will_of, connect, build_connect; cbn; by destruct (cfg_will config) as [[]|]).
  rewrite Hid in *. rewrite Hwill in Hs. unfold connack in Hq. set (ack := mkConnackPacket _ _) in Hq.
  destruct (connack_encode ack) as (f & Hfe & Hff & Hfl).
  exists w', c, ch', ack, f. split_and!; try done; [by rewrite Hcr|].
  intros cw n cch crest callocs Hcch Hca Hbind Hcrd Hcm.
  destruct (client_accepted (Node:=Node) config cw n cch _ ack _ Hcch Hca Hbind Hcrd
    (frames_read _ _ crest _ callocs Hff ltac:(by rewrite Hfl)) eq_refl)
    as (cw' & cch' & Hcc & Hcch' & Hcb & Hcq).
  by eexists cw', _, cch'.
Qed.
End server.

(** ** A publish *)

Definition request_relayable (req : PublishRequest) : Prop :=
  relayable (req_topic req) (req_payload req) (req_qos req).

(** The packet of a request. *)
Definition request_packet (req : PublishRequest) (s : MqttSession) : PublishPacket :=
  mkPublishPacket (req_topic req) (req_payload req) false (req_qos req) (req_retain req)
    (if bool_decide (req_qos req = AtMostOnce) then None else Some (allocate_packet_id s).2).

(** The publisher's side: the packet is queued; a QoS 0 send is done, a QoS 1 send is
    done with its PUBACK. *)
Lemma send_publish_live ch req :
  session_inv (ch_session ch) → ch_actor ch ≠ Exited → req_qos req ≠ ExactlyOnce →
  let m := request_packet req (ch_session ch) in
  ∃ ch1 flow, send_publish ch req = (ch1, flow) ∧
    ch_queue ch1 = ch_queue ch ++ [Cmd_Publish m] ∧
    match pub_packet_id m with
    | None => flow = Returned (Ok (Published Sent))
    | Some id => (send_poll (inbound (ch1, flow) (Packet_Puback id))).2 =
        Returned (Ok (Published (Acknowledged id)))
    end.
Proof.
  intros Hs Ha Hq m. unfold m, request_packet, send_publish.
  destruct (req_qos req) eqn:Hqos; [| |done].
  - rewrite !bool_decide_true by done. cbn [negb]. unfold send_publish_cmd, send_cmd.
    destruct (ch_actor ch); [| |done]; by eexists _, _.
  - rewrite !bool_decide_false by done. cbn [negb]. cbv zeta.
    pose proof (session_step_inv _ _ (step_allocate (ch_session ch)) Hs) as Hs0.
    destruct (allocate_packet_id (ch_session ch)) as [s0 id] eqn:Hal. cbn [fst snd pub_packet_id] in *.
    cbn [ch_session set_session]. unfold park_publish_ack_waiter, oneshot_channel. cbv zeta.
    set (s1 := pending_insert _ _ _). set (wt := length (ss_waiters s0)).
    assert (session_inv s1 ∧ ss_pending_acks s1 !! id = Some (Slot_Puback wt)) as [Hs1 Hid].
    { split; [by apply (park_inv s0 id) | apply lookup_insert_eq]. }
    destruct (wake_parked s1 id Kind_Puback wt Hs1 Hid) as (_ & _ & Hcell).
    unfold send_publish_cmd, send_cmd. cbn [ch_actor set_session].
    destruct (ch_actor ch); [| |done]; cbn [after_send]; eexists _, _;
      (split; [reflexivity|]); (split; [done|]); unfold inbound, send_poll;
      cbn [fst snd flow_waiter settle ch_session set_session set_queue clear_outbound_inflight
        set_inflight ss_waiters]; by rewrite Hcell.
Qed.

Lemma request_sendable req s :
  request_relayable req → sendable (Packet_Publish (request_packet req s)).
Proof.
  intros Hr. apply relayable_sendable; [done|]. unfold id_fits, request_packet.
  pose proof (allocate_packet_id_range s) as Hid. cbn [pub_packet_id pub_qos].
  by case_bool_decide.
Qed.

(** A packet with an id exactly above QoS 0 survives the wire as it is. *)
Lemma id_fits_view m : id_fits m → wire_view (Packet_Publish m) = Packet_Publish m.
Proof.
  unfold id_fits. destruct m as [t b d q r [id|]]; cbn; intros H.
  - destruct H as [Hq _]. by rewrite bool_decide_false.
  - by rewrite H.
Qed.

(** ** A subscriber receives it *)

(** The copy [m] of [p] for a subscription with QoS [q]: it is encoded into bytes
    that make a connected client that reads them hand the message to its
    endpoints. *)
Definition arrives (p : PublishPacket) (q : QoS) (m : PublishPacket) : Prop :=
  delivery p q m ∧
  ∃ fb, encode_packet (Packet_Publish m) = Ok fb ∧
    ∀ (Handler Node : Type) (walk : str → list Node)
      (c : ClientConn (Handler:=Handler) (Node:=Node)) w ch rest allocs,
      cc_at_select c = true → w_channels w !! cc_channel c = Some ch → ch_actor ch ≠ Exited →
      cc_reader c = mkReader (fb ++ rest) allocs →
      declared_length fb ≤ max_packet_size (cfg_safety (cc_config c)) →
      ∃ w' rd', rd_input rd' = rest ∧
        client_turn walk w c Cev_Read =
          (w', client_advance c rd' (client_tasks walk (cc_channel c) (cc_config c)
             (incoming_from_packet m)), None).

Lemma delivery_arrives p q m :
  publish_relayable p → pub_qos m ≠ ExactlyOnce → delivery p q m → arrives p q m.
Proof.
  intros Hp Hq Hd. pose proof Hd as (_ & _ & Hmq & _ & _ & Hid).
  destruct (sendable_encode _ (delivery_sendable p q m Hp Hd)) as (fb & Hfb & Hfr).
  rewrite (id_fits_view m Hid) in Hfr. split; [done|]. exists fb. split; [done|].
  intros Handler Node walk c w ch rest allocs Hsel Hch Ha Hrd Hmax.
  cbn [client_turn]. rewrite Hsel, Hrd, (frames_read _ _ rest _ allocs Hfr Hmax).
  destruct (client_publish_live walk w (cc_channel c) ch (cc_config c) m Hch Ha)
    as (w' & ch' & -> & _).
  assert ((client_receive (ss_qos2_recv (ch_session ch)) (Packet_Publish m)).2 =
    [incoming_from_packet m]) as ->.
  { cbn. by destruct (pub_qos m). }
  cbn [map concat]. rewrite app_nil_r. eexists w', _. split; [|reflexivity]. done.
Qed.

(** ** The server passes it on *)

Lemma read_packet_before_Ok rd max_size deadline p rd' :
  read_packet max_size rd = (Ok p, rd') →
  read_packet_before rd max_size deadline false = (Some (Read_Packet p), rd').
Proof. intros Hr. unfold read_packet_before. rewrite Hr. by destruct deadline. Qed.

Section relay.
Context `{DashMapIter}.
Context {Node : Type} (walk : str → list Node).
Context (node_run : Node → MqttContext Node → option (MqttContext Node)).

(** A connection at its [select!], its worker idle, that owns its session. *)
Record serving (w : World) (c : ServerConn) (ch : MqttChannel) : Prop := {
  sv_live : live w c ch;
  sv_select : sc_at_select c = true;
  sv_idle : sc_work c = [];
  sv_broker : broker_inv w;
  sv_owner : ∃ e, w_sessions w !! sc_client_id c = Some e ∧ se_channel e = sc_channel c;
}.

Lemma server_relays w c ch m b rest allocs :
  serving w c ch → pub_qos m ≠ ExactlyOnce →
  frames b (Packet_Publish m) → declared_length b ≤ sc_max_packet_size c →
  sc_reader c = mkReader (b ++ rest) allocs →
  run_server_chain_then_decide_fanout walk node_run (sc_channel c) m = Some m →
  ∃ w1 c1 ch1, serve_loop walk node_run w c [Ev_Read false; Ev_Worker] =
      (publish w1 (sc_client_id c) m, c1, None) ∧
    rd_input (sc_reader c1) = rest ∧ w_broker w1 = w_broker w ∧
    w_channels w1 = <[sc_channel c := ch1]> (w_channels w) ∧
    ch_queue ch1 = ch_queue ch ++ map Cmd_Packet (replies [] (Packet_Publish m)).
Proof.
  intros [Hl Hsel Hidle _ _] Hq Hf Hmax Hrd Hchain.
  pose proof (frames_read _ _ rest _ allocs Hf Hmax) as Hread.
  cbn [serve_loop loop_turn]. rewrite Hsel, Hrd, (read_packet_before_Ok _ _ _ _ _ Hread).
  set (c0 := set_conn_reader c _). cbn [loop_read].
  destruct (dispatch_publish_live w c0 ch m Hl) as (w1 & c1 & ch1 & -> & [_ Hqu _ _ Hc1 Hfr Htb _]).
  assert (sc_work c1 = [m]) as Hwork.
  { rewrite Hc1. cbn. rewrite Hidle. by destruct (pub_qos m), (pub_packet_id m). }
  unfold run_publish_chain_worker. rewrite Hwork. unfold worker_turn.
  rewrite Hc1. cbn [sc_channel sc_client_id set_work c0 set_conn_reader]. rewrite Hchain.
  by eexists w1, _, ch1.
Qed.

(** The message leaves the publisher's own channel alone and reaches the others. *)
Lemma relay_own w w1 cn ch ch1 m :
  serving w cn ch → w_broker w1 = w_broker w →
  w_channels w1 = <[sc_channel cn := ch1]> (w_channels w) →
  w_channels (publish w1 (sc_client_id cn) m) !! sc_channel cn = Some ch1.
Proof.
  intros [_ _ _ Hinv (e & He & Hid)] Hb1 Hch1.
  rewrite publish_frame; [by rewrite Hch1, lookup_insert_eq|]. unfold w_sessions. rewrite Hb1.
  intros c3 e3 f q He3 Heq Hne. destruct Hne. eapply (inv_distinct w Hinv); [done | done|]. congruence.
Qed.

Lemma relay_copies w w1 cn ch ch1 m c2 e2 ch2 :
  serving w cn ch → w_broker w1 = w_broker w →
  w_channels w1 = <[sc_channel cn := ch1]> (w_channels w) →
  c2 ≠ sc_client_id cn → w_sessions w !! c2 = Some e2 →
  w_channels w !! se_channel e2 = Some ch2 → ch_actor ch2 ≠ Exited →
  ∃ qs ms ch2', w_channels (publish w1 (sc_client_id cn) m) !! se_channel e2 = Some ch2' ∧
    ch_queue ch2' = ch_queue ch2 ++ map Cmd_Publish ms ∧
    qs ≡ₚ client_filters (w_subs w) (pub_topic m) c2 ∧ Forall2 (delivery m) qs ms.
Proof.
  intros [_ _ _ Hinv (e & He & Hid)] Hb1 Hch1 Hc2 He2 Hch2 Ha2.
  assert (w_sessions w1 = w_sessions w) as Hs1 by (unfold w_sessions; by rewrite Hb1).
  assert (∀ c3 e3, w_sessions w !! c3 = Some e3 → se_channel e3 = se_channel e2 → c3 = c2) as Hd
    by (intros c3 e3 H3 Heq; by eapply (inv_distinct w Hinv)).
  destruct (publish_copies w1 (sc_client_id cn) m c2 e2 ch2) as (qs & ms & ch2' & H1 & H2 & H3 & H4 & _);
    [by rewrite Hs1 | | done | by rewrite Hs1 | done|].
  { rewrite Hch1, lookup_insert_ne; [done|]. intros Heq. destruct Hc2. symmetry.
    apply (Hd _ e He). congruence. }
  unfold w_subs in *. rewrite Hb1 in H2. by exists qs, ms, ch2'.
Qed.

(** C5: a QoS 0 or QoS 1 publish works end to end.  A client's request is queued as a
    PUBLISH that can be encoded.  The server connection that reads its bytes, and
    whose endpoints pass the message on, hands it to every other connected client
    exactly once per matching subscription, in bytes that make that client hand the
    topic and payload to its own endpoints, at the lower of the two QoS levels; a QoS
    1 publisher is queued the PUBACK that completes its send, which a QoS 0 send does
    not wait for; and the server goes on with the bytes that follow. *)
Theorem publish_end_to_end pch req :
  session_inv (ch_session pch) → ch_actor pch ≠ Exited → req_qos req ≠ ExactlyOnce →
  request_relayable req →
  let m := request_packet req (ch_session pch) in
  ∃ pch1 flow b, send_publish pch req = (pch1, flow) ∧
    ch_queue pch1 = ch_queue pch ++ [Cmd_Publish m] ∧ encode_packet (Packet_Publish m) = Ok b ∧
    ∀ w c ch rest allocs,
      serving w c ch → declared_length b ≤ sc_max_packet_size c →
      sc_reader c = mkReader (b ++ rest) allocs →
      run_server_chain_then_decide_fanout walk node_run (sc_channel c) m = Some m →
      ∃ w' c' ch', serve_loop walk node_run w c [Ev_Read false; Ev_Worker] = (w', c', None) ∧
        rd_input (sc_reader c') = rest ∧ w_channels w' !! sc_channel c = Some ch' ∧
        match pub_packet_id m with
        | None => ch_queue ch' = ch_queue ch ∧ flow = Returned (Ok (Published Sent))
        | Some id => ch_queue ch' = ch_queue ch ++ [Cmd_Packet (Packet_Puback id)] ∧
            (send_poll (inbound (pch1, flow) (Packet_Puback id))).2 =
              Returned (Ok (Published (Acknowledged id)))
        end ∧
        ∀ c2 e2 ch2, c2 ≠ sc_client_id c → w_sessions w !! c2 = Some e2 →
          w_channels w !! se_channel e2 = Some ch2 → ch_actor ch2 ≠ Exited →
          ∃ qs ms ch2', w_channels w' !! se_channel e2 = Some ch2' ∧
            ch_queue ch2' = ch_queue ch2 ++ map Cmd_Publish ms ∧
            qs ≡ₚ client_filters (w_subs w) (req_topic req) c2 ∧ Forall2 (arrives m) qs ms.
Proof.
  intros Hs Ha Hq Hrel m.
  destruct (send_publish_live pch req Hs Ha Hq) as (pch1 & flow & Hsend & Hpq & Hflow).
  fold m in Hpq, Hflow.
  assert (id_fits m) as Hfits.
  { pose proof (allocate_packet_id_range (ch_session pch)) as Hid.
    unfold m, id_fits, request_packet. cbn [pub_packet_id pub_qos]. by case_bool_decide. }
  assert (publish_relayable m) as Hm by done.
  destruct (sendable_encode _ (relayable_sendable m Hm Hfits)) as (b & Hb & Hf).
  rewrite (id_fits_view m Hfits) in Hf. exists pch1, flow, b. split_and!; [done..|].
  intros w c ch rest allocs Hsv Hmax Hrd Hchain.
  destruct (server_relays w c ch m b rest allocs Hsv Hq Hf Hmax Hrd Hchain)
    as (w1 & c1 & ch1 & Hloop & Hrd1 & Hb1 & Hch1 & Hq1).
  exists (publish w1 (sc_client_id c) m), c1, ch1.
  split_and!; [done | done | by eapply relay_own | |].
  - rewrite Hq1. unfold id_fits in Hfits. unfold m in *. cbn [replies pub_qos pub_packet_id request_packet] in *.
    destruct (req_qos req) eqn:E; [| |done]; cbn in *; by rewrite ?app_nil_r.
  - intros c2 e2 ch2 Hc2 He2 Hch2 Ha2.
    destruct (relay_copies w w1 c ch ch1 m c2 e2 ch2) as (qs & ms & ch2' & H1 & H2 & H3 & H4); [done..|].
    exists qs, ms, ch2'. split_and!; try done.
    eapply Forall2_impl; [exact H4|]. intros q mm Hd. apply delivery_arrives; [done | |done].
    destruct Hd as (_ & _ & -> & _). unfold m in *. cbn. by destruct (req_qos req), q.
Qed.
End relay.

(** ** A publish that does not fit *)

Lemma oversized_write p w :
  u16_max < len (pub_topic p) → ∃ e, write_publish_packet p w = (Err e, w).
Proof.
  intros Ht. unfold write_publish_packet, validate_publish_for_encode.
  rewrite (proj2 (Z.ltb_lt _ _)) by done. by eexists.
Qed.

(** The send path is closed once the writer is gone. *)
Lemma send_request_exited ch req :
  ch_actor ch = Exited → (send_request ch req).2 = Returned (Err ChannelClosed).
Proof.
  intros Ha. destruct req as [r|fs|ts]; cbn [send_request].
  - unfold send_publish, send_publish_cmd, send_cmd.
    destruct (req_qos r); [rewrite bool_decide_true by done | rewrite bool_decide_false by done..];
      cbn; by rewrite Ha.
  - unfold send_subscribe, send_packet, send_cmd. cbn. by rewrite Ha.
  - unfold send_unsubscribe, send_packet, send_cmd. cbn. by rewrite Ha.
Qed.

(** The send path does not look at the topic.  A QoS 1 request whose topic does not
    fit its length field is accepted, and takes the connection down: the writer, on an
    intact transport, exits without having written a byte, the caller is told that no
    acknowledgement came in time, and every later request on the connection fails. *)
Theorem oversized_publish_stops_writer ch req n :
  session_inv (ch_session ch) → ch_actor ch = AtSelect n → ch_queue ch = [] →
  wr_room (ch_writer ch) = None → req_qos req = AtLeastOnce → u16_max < len (req_topic req) →
  ∃ ch1 id wt ch3, send_publish ch req = (ch1, Await_puback id wt) ∧
    rtc actor_step ch1 ch3 ∧ ch_open ch3 = false ∧
    wr_out (ch_writer ch3) = wr_out (ch_writer ch) ∧
    (send_timeout (send_poll (ch3, Await_puback id wt))).2 = Returned (Err (Timeout Timeout_Ack)) ∧
    ∀ req', (send_request ch3 req').2 = Returned (Err ChannelClosed).
Proof.
  intros Hs Ha Hq Hroom Hqos Ht. unfold send_publish. rewrite Hqos.
  rewrite bool_decide_false by done. cbn [negb].
  pose proof (session_step_inv _ _ (step_allocate (ch_session ch)) Hs) as Hs0.
  destruct (allocate_packet_id (ch_session ch)) as [s0 id]. cbn [fst snd ch_session set_session] in *.
  set (m := mkPublishPacket _ _ _ _ _ _).
  destruct (park_publish_cells s0 id Kind_Puback Hs0) as [_ Hcell].
  destruct (park_publish_ack_waiter s0 id Kind_Puback) as [s1 wt]. cbn [fst snd] in Hcell.
  unfold send_publish_cmd, send_cmd. cbn [ch_actor set_session ch_queue]. rewrite Ha, Hq.
  cbn [after_send app]. set (ch1 := set_queue _ _).
  set (ch2 := set_queue (set_open_actor ch1 (ch_open ch1) (Writing (Cmd_Publish m))) []).
  destruct (oversized_write m (ch_writer ch2) Ht) as [e He].
  exists ch1, id, wt, (actor_exit (set_writer ch2 (ch_writer ch2))). split_and!; [done | |done|done| |].
  - apply rtc_l with ch2; [|apply rtc_once].
    + apply (actor_step_recv false). unfold actor_recv. cbn [ch1 ch_actor set_queue set_session ch_queue].
      by rewrite Ha.
    + apply actor_step_write. unfold actor_write. cbn [ch2 ch_actor set_queue set_open_actor].
      fold ch2. by rewrite He.
  - unfold send_poll, send_timeout. cbn -[send_poll]. rewrite Hcell. cbn. by rewrite Hcell.
  - intros req'. by apply send_request_exited.
Qed.

(** ** Witnesses *)

(** Client [cid] of [demo_config] dials the broker of [demo]. *)
Definition demo_dial : World :=
  set_channels demo (<[3 := (channel_new 3 (mkReader (demo_connect_bytes ++ [0xC0; 0x00]) [])
    (mkWriter [] None) None None Role_Server).2]> (w_channels demo)).

Definition demo_dialer (f : bytes) : World :=
  set_channels (world_new broker_new) {[1 := (channel_new 1 (mkReader (f ++ []) [])
    (mkWriter [] None) None None Role_Client).2]}.

Lemma connect_end_to_end_witness :
  ∃ w' c f cw' conn, admit_peer true false demo_dial 3 = (w', Ok c) ∧
    sc_client_id c = str_of "cid" ∧ rd_input (sc_reader c) = [0xC0; 0x00] ∧
    client_connect (Node:=unit) (Some demo_config) false (demo_dialer f) 1 = (cw', Ok conn).
Proof.
  destruct (connect_end_to_end (Node:=unit) demo_config demo_connect_bytes demo_dial 3
    (default demo_3 (w_channels demo_dial !! 3)) [0xC0; 0x00] [])
    as (w' & c & ch' & ack & f & Ha & Hc & Hr & _ & _ & _ & _ & Hclient).
  - apply (bool_decide_unpack (packet_ok _)). vm_compute. exact I.
  - by repeat split.
  - discriminate.
  - vm_compute; reflexivity.
  - vm_compute; reflexivity.
  - vm_compute; discriminate.
  - vm_compute; reflexivity.
  - vm_compute; discriminate.
  - apply (bool_decide_unpack _). vm_compute. exact I.
  - vm_compute; reflexivity.
  - vm_compute; reflexivity.
  - destruct (Hclient (demo_dialer f) 1 (channel_new 1 (mkReader (f ++ []) [])
      (mkWriter [] None) None None Role_Client).2 [] [] eq_refl)
      as (cw' & conn & cch' & Hcc & _); [discriminate | reflexivity | reflexivity | |].
    + vm_compute; discriminate.
    + exists w', c, f, cw', conn. exact (conj Ha (conj Hc (conj Hr Hcc))).
Defined.

Definition demo_publish_request : PublishRequest :=
  mkPublishRequest (str_of "t/1") (str_of "on") AtLeastOnce false.

Definition demo_publisher (b : bytes) : ServerConn :=
  mkServerConn 1 (str_of "a") 1000 None (mkReader (b ++ []) []) [] true true.

Lemma demo_serving b : serving demo (demo_publisher b) (demo_ch 1).
Proof.
  split; [apply demo_live | done | done | apply demo_inv|].
  exists (demo_entry "a"). split; vm_compute; reflexivity.
Qed.

Lemma publish_end_to_end_witness :
  ∃ b w' c' qs ms ch2, serve_loop no_nodes no_run demo (demo_publisher b) [Ev_Read false; Ev_Worker] =
      (w', c', None) ∧
    w_channels w' !! 2 = Some ch2 ∧ ch_queue ch2 = [] ++ map Cmd_Publish ms ∧
    Forall2 (arrives (request_packet demo_publish_request (ch_session demo_channel))) qs ms.
Proof.
  destruct (publish_end_to_end no_nodes no_run demo_channel demo_publish_request)
    as (pch1 & flow & b & _ & _ & Hb & Hserver).
  - apply demo_channel_session.
  - discriminate.
  - discriminate.
  - apply (bool_decide_unpack (request_relayable _)). vm_compute. exact I.
  - destruct (Hserver demo (demo_publisher b) (demo_ch 1) [] [] (demo_serving b))
      as (w' & c' & ch' & Hl & _ & _ & _ & Hsub).
    + vm_compute in Hb. injection Hb as <-. vm_compute. discriminate.
    + reflexivity.
    + reflexivity.
    + destruct (Hsub (str_of "b") (demo_entry "b") (demo_ch 2))
        as (qs & ms & ch2 & H1 & H2 & _ & H3);
        [discriminate | vm_compute; reflexivity | vm_compute; reflexivity | discriminate|].
      exists b, w', c', qs, ms, ch2. exact (conj Hl (conj H1 (conj H2 H3))).
Defined.

Definition demo_oversized : PublishRequest :=
  mkPublishRequest (replicate (Z.to_nat 65536) 97) [] AtLeastOnce false.

Lemma oversized_publish_stops_writer_witness :
  ∃ ch1 id wt ch3, send_publish demo_channel demo_oversized = (ch1, Await_puback id wt) ∧
    rtc actor_step ch1 ch3 ∧ ch_open ch3 = false ∧
    wr_out (ch_writer ch3) = wr_out (ch_writer demo_channel) ∧
    (send_timeout (send_poll (ch3, Await_puback id wt))).2 = Returned (Err (Timeout Timeout_Ack)) ∧
    ∀ req', (send_request ch3 req').2 = Returned (Err ChannelClosed).
Proof.
  apply (oversized_publish_stops_writer demo_channel demo_oversized false);
    [apply demo_channel_session | reflexivity | reflexivity | reflexivity | reflexivity |].
  unfold demo_oversized, len, u16_max. cbn [req_topic]. rewrite length_replicate. lia.
Defined.
