(* ===== verification/ExactlyOnce.v ===== *)
(** A QoS 2 publish through both ends: the two handshakes of
    [src/src/protocol/send.rs], [src/src/protocol/server.rs] and
    [src/src/protocol/client.rs] put together.

    The publisher sends PUBLISH, is answered PUBREC, sends PUBREL and is answered
    PUBCOMP; the server hands the message on with the PUBREL, and a subscriber
    above QoS 1 goes through the same exchange with the server. *)

From S2P Require Import Prelude.
From S2P Require Import Types.
From S2P Require Import Safety.
From S2P Require Import Wire.
From S2P Require Import Encode.
From S2P Require Import Decode.
From S2P Require Import Codec.
From S2P Require Import Receiver.
From S2P Require Import Roundtrip.
From S2P Require Import Reencode.
From S2P Require Import Session.
From S2P Require Import Channel.
From S2P Require Import Subscriptions.
From S2P Require Import Broker.
From S2P Require Import Context.
From S2P Require Import Send.
From S2P Require Import Protocol.
From S2P Require Import Server.
From S2P Require Import ServerFlow.
From S2P Require Import Client.
From S2P Require Import Typed.
From S2P Require Import EndToEnd.

Lemma pubrel_encode id :
  1 ≤ id ≤ u16_max →
  ∃ f, encode_packet (Packet_Pubrel id) = Ok f ∧ frames f (Packet_Pubrel id) ∧
    declared_length f = 2.
Proof.
  intros Hid. destruct (received_encode (Packet_Pubrel id)) as (f & Hf & Hfr & Hl);
    [|by intros []|by exists f].
  split_and!; [|done | vm_compute; congruence]. cbn. unfold u16_ok, u16_max in *. lia.
Qed.

Definition qos2_answers (id : Z) : list WriteCmd :=
  [Cmd_Packet (Packet_Pubrec id); Cmd_Packet (Packet_Pubcomp id)].

(** ** The server with the publisher *)

Section server.
Context `{DashMapIter}.
Context {Node : Type} (walk : str → list Node).
Context (node_run : Node → MqttContext Node → option (MqttContext Node)).

Lemma server_relays_qos2 w c ch m id b rel rest allocs :
  let r := released_publish id (incoming_from_packet m) in
  serving w c ch → ch_open ch = true → pub_qos m = ExactlyOnce → pub_packet_id m = Some id →
  frames b (Packet_Publish m) → declared_length b ≤ sc_max_packet_size c →
  frames rel (Packet_Pubrel id) → declared_length rel ≤ sc_max_packet_size c →
  sc_reader c = mkReader (b ++ rel ++ rest) allocs →
  run_server_chain_then_decide_fanout walk node_run (sc_channel c) r = Some r →
  ∃ w1 c1 ch1,
    serve_loop walk node_run w c [Ev_Read false; Ev_Test; Ev_Read false; Ev_Worker] =
      (publish w1 (sc_client_id c) r, c1, None) ∧
    rd_input (sc_reader c1) = rest ∧ w_broker w1 = w_broker w ∧
    w_channels w1 = <[sc_channel c := ch1]> (w_channels w) ∧
    ch_queue ch1 = ch_queue ch ++ qos2_answers id ∧
    ss_qos2_recv (ch_session ch1) = delete id (ss_qos2_recv (ch_session ch)).
Proof.
  intros r [Hl Hsel Hidle _ _] Hopen Hq Hid Hf Hmax Hfr Hmaxr Hrd Hchain.
  pose proof (frames_read _ _ (rel ++ rest) _ allocs Hf Hmax) as Hread.
  cbn [serve_loop loop_turn]. rewrite Hsel, Hrd, (read_packet_before_Ok _ _ _ _ _ Hread).
  set (c0 := set_conn_reader c _). cbn [loop_read].
  destruct (dispatch_publish_live w c0 ch m Hl)
    as (w1 & c1 & ch1 & -> & [Hl1 Hq1 Hst1 _ Hc1 Hch1 Hb1 Ho1]).
  unfold receive, receive_with in Hst1, Hc1. cbn [replies] in Hq1.
  rewrite Hq, Hid in Hst1, Hc1, Hq1. cbn in Hst1, Hc1, Hq1. rewrite Hidle in Hc1. cbn in Hc1.
  assert (channel_is_open w1 (sc_channel c1) = true) as Hop1.
  { unfold channel_is_open, is_open. destruct Hl1 as (-> & _). congruence. }
  rewrite Hop1. cbn [negb].
  set (c2 := enter_select c1). assert (live w1 c2 ch1) as Hl2 by exact Hl1.
  pose proof (frames_read _ _ rest _ (allocs ++ [declared_length b]) Hfr Hmaxr) as Hread2.
  assert (sc_reader c2 = mkReader (rel ++ rest) (allocs ++ [declared_length b]) ∧
    sc_max_packet_size c2 = sc_max_packet_size c ∧ sc_at_select c2 = true) as (Hrd2 & Hmx2 & Hsel2)
    by (unfold c2; by rewrite Hc1).
  rewrite Hsel2, Hrd2, Hmx2, (read_packet_before_Ok _ _ _ _ _ Hread2).
  set (c3 := set_conn_reader c2 _). cbn [loop_read].
  destruct (dispatch_pubrel_live w1 c3 ch1 id Hl2)
    as (w4 & c4 & ch4 & -> & [_ Hq4 Hst4 _ Hc4 Hch4 Hb4 _]).
  unfold receive, receive_with in Hst4, Hc4. rewrite Hst1, lookup_insert_eq in Hst4, Hc4.
  assert (sc_work c4 = [r]) as Hwork.
  { rewrite Hc4. unfold c3, c2. by rewrite Hc1. }
  unfold run_publish_chain_worker. rewrite Hwork. unfold worker_turn.
  assert (sc_channel c4 = sc_channel c ∧ sc_client_id c4 = sc_client_id c) as [-> ->]
    by (rewrite Hc4; unfold c3, c2; by rewrite Hc1).
  rewrite Hchain. eexists w4, _, ch4. split; [reflexivity|]. split_and!.
  - by rewrite Hc4.
  - etrans; [exact Hb4 | exact Hb1].
  - rewrite Hch4, Hch1. unfold c3, c2. rewrite Hc1. apply insert_insert_eq.
  - rewrite Hq4, Hq1. cbn. by rewrite <- app_assoc.
  - rewrite Hst4. cbn. by rewrite delete_insert_eq.
Qed.
End server.

(** ** The subscriber *)

Section client.
Context {Handler Node : Type} (walk : str → list Node).

Lemma client_receives_qos2 (c : ClientConn (Handler:=Handler) (Node:=Node)) w ch m id fb rb
    rest allocs :
  cc_at_select c = true → w_channels w !! cc_channel c = Some ch → ch_actor ch ≠ Exited →
  ch_open ch = true → pub_qos m = ExactlyOnce → pub_packet_id m = Some id →
  frames fb (Packet_Publish m) → frames rb (Packet_Pubrel id) →
  cc_reader c = mkReader (fb ++ rb ++ rest) allocs →
  declared_length fb ≤ max_packet_size (cfg_safety (cc_config c)) →
  declared_length rb ≤ max_packet_size (cfg_safety (cc_config c)) →
  ∃ w' c' ch', client_loop walk w c [Cev_Read; Cev_Test; Cev_Read] = (w', c', None) ∧
    rd_input (cc_reader c') = rest ∧
    cc_tasks c' =
      cc_tasks c ++ client_tasks walk (cc_channel c) (cc_config c) (incoming_from_packet m) ∧
    w_channels w' !! cc_channel c = Some ch' ∧ ch_queue ch' = ch_queue ch ++ qos2_answers id.
Proof.
  intros Hsel Hch Ha Hopen Hq Hid Hf Hfr Hrd Hmax Hmaxr.
  cbn [client_loop client_turn]. rewrite Hsel, Hrd, (frames_read _ _ (rb ++ rest) _ allocs Hf Hmax).
  destruct (client_publish_live walk w (cc_channel c) ch (cc_config c) m Hch Ha)
    as (w1 & ch1 & -> & _ & Hch1 & [Hq1 Hst1 _ Ha1 Ho1]).
  unfold client_receive, receive_with in *. cbn [client_replies replies] in Hq1.
  rewrite Hq, Hid in *. cbn in Hst1, Hq1. cbn [snd map concat].
  assert (w_channels w1 !! cc_channel c = Some ch1) as Hl1 by (by rewrite Hch1, lookup_insert_eq).
  assert (channel_is_open w1 (cc_channel c) = true) as Hop1.
  { unfold channel_is_open, is_open. rewrite Hl1. congruence. }
  cbn [cc_channel client_advance]. rewrite Hop1. 
  cbn [negb client_advance client_at_select cc_at_select cc_reader cc_config cc_channel].
  rewrite (frames_read _ _ rest _ (allocs ++ [declared_length fb]) Hfr Hmaxr).
  destruct (client_pubrel_live walk w1 (cc_channel c) ch1 (cc_config c) id Hl1)
    as (w2 & ch2 & -> & _ & Hch2 & [Hq2 _ _ _ _]); [by rewrite Ha1|].
  unfold client_receive, receive_with. rewrite Hst1, lookup_insert_eq. cbn [snd map concat].
  eexists w2, _, ch2. split; [reflexivity|]. cbn. rewrite !app_nil_r. split_and!; [done | done | |].
  - by rewrite Hch2, lookup_insert_eq.
  - rewrite Hq2, Hq1. cbn. by rewrite <- app_assoc.
Qed.
End client.

(** ** Both *)

(** The copy [m] of [p] for a subscription with QoS [q], at the subscriber: below QoS
    2 its bytes are enough, at QoS 2 they are followed by those of the PUBREL with
    which the server answers the subscriber's PUBREC. *)
Definition reaches (p : PublishPacket) (q : QoS) (m : PublishPacket) : Prop :=
  if bool_decide (pub_qos m = ExactlyOnce) then
    delivery p q m ∧
    ∃ id fb rb, pub_packet_id m = Some id ∧
      encode_packet (Packet_Publish m) = Ok fb ∧ encode_packet (Packet_Pubrel id) = Ok rb ∧
      ∀ (Handler Node : Type) (walk : str → list Node)
        (c : ClientConn (Handler:=Handler) (Node:=Node)) w ch rest allocs,
        cc_at_select c = true → w_channels w !! cc_channel c = Some ch →
        ch_actor ch ≠ Exited → ch_open ch = true →
        cc_reader c = mkReader (fb ++ rb ++ rest) allocs →
        declared_length fb ≤ max_packet_size (cfg_safety (cc_config c)) →
        2 ≤ max_packet_size (cfg_safety (cc_config c)) →
        ∃ w' c' ch', client_loop walk w c [Cev_Read; Cev_Test; Cev_Read] = (w', c', None) ∧
          rd_input (cc_reader c') = rest ∧
          cc_tasks c' =
            cc_tasks c ++ client_tasks walk (cc_channel c) (cc_config c) (incoming_from_packet m) ∧
          w_channels w' !! cc_channel c = Some ch' ∧
          ch_queue ch' = ch_queue ch ++ qos2_answers id
  else arrives p q m.

Lemma delivery_reaches p q m : publish_relayable p → delivery p q m → reaches p q m.
Proof.
  intros Hp Hd. unfold reaches. case_bool_decide as Hq; [|by apply delivery_arrives].
  split; [done|]. pose proof Hd as (_ & _ & _ & _ & _ & Hid). pose proof Hid as Hfits.
  destruct (pub_packet_id m) as [id|] eqn:E; [|by rewrite Hq in Hid]. destruct Hid as [_ Hid].
  destruct (sendable_encode _ (delivery_sendable p q m Hp Hd)) as (fb & Hfb & Hfr).
  rewrite (id_fits_view m) in Hfr by (unfold id_fits; by rewrite E).
  destruct (pubrel_encode id Hid) as (rb & Hrb & Hrf & Hrl).
  exists id, fb, rb. split_and!; [done..|]. intros Handler Node walk c w ch rest allocs. intros.
  eapply client_receives_qos2; try done. by rewrite Hrl.
Qed.

Section relay.
Context `{DashMapIter}.
Context {Node : Type} (walk : str → list Node).
Context (node_run : Node → MqttContext Node → option (MqttContext Node)).

End relay.

(** ** Witness *)

Definition demo_qos2_request : PublishRequest :=
  mkPublishRequest (str_of "t/1") (str_of "on") ExactlyOnce false.

