(* ===== verification/ClientSystem.v ===== *)
(** The whole client: its loop, its writer, and any number of requests in flight.

    [src/src/protocol/client.rs] reads in one task what [src/src/protocol/send.rs]
    waits for in others: a request allocates a packet id, parks a waiter in the
    session, queues its packet and suspends; the loop dispatches the peer's packets,
    wakes the waiters, and in the end closes the channel.  [Client.v] has the loop
    and [Send.v] one request with an unspecified environment; here the two run
    together on one channel, with the writer actor and the application as the only
    other tasks.  A [ClientSystem] is the world, how far [handle] has come, and the
    requests made so far.

    Three components are no state of the program, they record its past: the packets
    the loop dispatched ([cs_log]), the bytes that dropped reads lost ([cs_lost]),
    and for each request the id it was given and the packets dispatched before
    it. *)

From S2P Require Import Prelude.
From S2P Require Import Types.
From S2P Require Import Safety.
From S2P Require Import Wire.
From S2P Require Import Decode.
From S2P Require Import Codec.
From S2P Require Import Session.
From S2P Require Import Channel.
From S2P Require Import Subscriptions.
From S2P Require Import Broker.
From S2P Require Import Context.
From S2P Require Import Send.
From S2P Require Import Protocol.
From S2P Require Import Server.
From S2P Require Import ServerFlow.
From S2P Require Import Client.
From S2P Require Import ClientFlow.
From S2P Require Import Typed.

(** ** The system *)

Record Call := mkCall {
  cl_request : MqttRequest;
  cl_id : Z;
  cl_since : nat;
  cl_flow : SendFlow;
}.

Definition set_flow (k : Call) (flow : SendFlow) : Call :=
  mkCall (cl_request k) (cl_id k) (cl_since k) flow.

(** What the application does with a channel beside its requests: it queues packets
    that can be sent, uses the session as the crate's own code does, and closes. *)
Inductive app_step : MqttChannel → MqttChannel → Prop :=
  | app_send ch cmd : cmd_sendable cmd → app_step ch (send_cmd ch cmd).1
  | app_session ch s : other_step (ch_session ch) s → app_step ch (set_session ch s)
  | app_close ch : app_step ch (close ch).

Section system.
Context {Handler Node : Type} (walk : str → list Node).
Context (config : option (MqttClientConfig Handler)) (id : Z).

(** How far [handle] has come. *)
Inductive ClientPhase :=
  | Dialling
  | Running (c : ClientConn (Handler:=Handler) (Node:=Node))
  | Ended (r : mresult unit).

Record ClientSystem := mkClientSystem {
  cs_world : World;
  cs_phase : ClientPhase;
  cs_calls : list Call;
  cs_log : list Packet;
  cs_lost : nat;
}.

(** [handle_client] returned [r]: [handle] closes the channel. *)
Definition client_left (w : World) (r : mresult unit) : World * ClientPhase :=
  (close_channel w id, Ended r).

(** After the handshake. *)
Definition client_dialled (w : World) (r : mresult ClientConn) : World * ClientPhase :=
  match r with
  | Ok c => (w, Running c)
  | Err e => client_left w (Err e)
  | Panic => client_left w Panic
  | Loop => client_left w Loop
  end.

(** After a turn of the loop. *)
Definition client_turned (w : World) (c : ClientConn) (exit : option client_exit) :
    World * ClientPhase :=
  match exit with
  | None => (w, Running c)
  | Some Client_break =>
      let '(w, _) := on_channel w id (λ ch, send_packet ch Packet_Disconnect) in
      client_left w (Ok tt)
  | Some (Client_return e) => client_left w (Err e)
  | Some Client_panic => client_left w Panic
  end.

(** What a turn reads, and what it loses. *)
Definition turn_reads (c : ClientConn (Handler:=Handler) (Node:=Node)) (ev : ClientEvent) :
    list Packet :=
  match ev with
  | Cev_Read =>
      if cc_at_select c then
        match read_packet (max_packet_size (cfg_safety (cc_config c))) (cc_reader c) with
        | (Ok p, _) => [p]
        | _ => []
        end
      else []
  | _ => []
  end.

Definition turn_loses (ev : ClientEvent) : nat :=
  match ev with Cev_Tick lost => lost | _ => 0 end.

(** The events of the loop, when they can happen: the open flag is looked at between
    two [select!]s, and [notified()] completes only once somebody has closed the
    channel. *)
Definition own_client_event (w : World) (c : ClientConn (Handler:=Handler) (Node:=Node))
    (ev : ClientEvent) : Prop :=
  match ev with
  | Cev_Env _ => False
  | Cev_Test => cc_at_select c = false
  | Cev_Shutdown => channel_is_open w (cc_channel c) = false
  | _ => True
  end.

Inductive client_step : ClientSystem → ClientSystem → Prop :=
  | client_dial w calls log lost timed_out w1 r w' ph :
      client_connect config timed_out w id = (w1, r) → client_dialled w1 r = (w', ph) →
      client_step (mkClientSystem w Dialling calls log lost)
        (mkClientSystem w' ph calls log lost)
  | client_runs w c calls log lost ev w1 c1 exit w' ph :
      own_client_event w c ev → client_turn walk w c ev = (w1, c1, exit) →
      client_turned w1 c1 exit = (w', ph) →
      client_step (mkClientSystem w (Running c) calls log lost)
        (mkClientSystem w' ph calls (log ++ turn_reads c ev) (lost + turn_loses ev))
  | client_call w ph calls log lost req ch ch' flow :
      w_channels w !! id = Some ch → send_request ch req = (ch', flow) →
      client_step (mkClientSystem w ph calls log lost)
        (mkClientSystem (set_channels w (<[id := ch']> (w_channels w))) ph
           (calls ++ [mkCall req (allocate_packet_id (ch_session ch)).2 (length log) flow])
           log lost)
  | client_resume w ph calls log lost i k resume ch ch' flow :
      resume = send_poll ∨ resume = send_timeout →
      calls !! i = Some k → w_channels w !! id = Some ch →
      resume (ch, cl_flow k) = (ch', flow) →
      client_step (mkClientSystem w ph calls log lost)
        (mkClientSystem (set_channels w (<[id := ch']> (w_channels w))) ph
           (<[i := set_flow k flow]> calls) log lost)
  | client_channel w ph calls log lost ch ch' :
      w_channels w !! id = Some ch → actor_step ch ch' ∨ app_step ch ch' →
      client_step (mkClientSystem w ph calls log lost)
        (mkClientSystem (set_channels w (<[id := ch']> (w_channels w))) ph calls log lost).

(** A fresh client channel on a connection whose peer sends [input]. *)
Definition client_opened (input : bytes) (s : ClientSystem) : Prop :=
  ∃ w n rd wr la ra, s = mkClientSystem w Dialling [] [] 0 ∧
    w_channels w !! id = Some (channel_new n rd wr la ra Role_Client).2 ∧
    rd_input rd = input ∧ bytes_ok input ∧
    opt_ok (λ k, 0 ≤ k) (wr_room wr) ∧ wr_out wr = [] ∧
    ∀ c, owned_entry w c id = None.

(** The packets at the front of a stream. *)
Inductive parsed (max_size : Z) (input : bytes) : list Packet → bytes → Prop :=
  | parsed_nil : parsed max_size input [] input
  | parsed_snoc ps rest p rest' :
      parsed max_size input ps rest →
      decode_packet_from_bytes rest max_size = (Ok (Some p), rest') →
      parsed max_size input (ps ++ [p]) rest'.
End system.
Arguments ClientSystem : clear implicits.

(** ** The other tasks, as a request sees them *)

(** While [ch] becomes [ch'] the packets [t] are dispatched, and nothing else happens
    that a suspended request could take for an answer. *)
Definition meanwhile (t : list Packet) (ch ch' : MqttChannel) : Prop :=
  ∀ flow, flow_run (ch, flow) t (ch', flow).

Lemma flow_run_trans st t st1 t' st2 :
  flow_run st t st1 → flow_run st1 t' st2 → flow_run st (t ++ t') st2.
Proof.
  intros H1 H2. induction H2 as [|t' l st2 st3 _ IH Hs]; [by rewrite app_nil_r|].
  rewrite app_assoc. by eapply flow_run_step.
Qed.

Lemma meanwhile_refl ch : meanwhile [] ch ch.
Proof. intros flow. constructor. Qed.

Lemma meanwhile_trans t t' ch ch1 ch' :
  meanwhile t ch ch1 → meanwhile t' ch1 ch' → meanwhile (t ++ t') ch ch'.
Proof. intros H1 H2 flow. by eapply flow_run_trans. Qed.

Lemma meanwhile_step l ch ch' :
  (∀ flow, flow_step l (ch, flow) (ch', flow)) → meanwhile l ch ch'.
Proof. intros Hs flow. apply (flow_run_step _ [] l (ch, flow)); [constructor | apply Hs]. Qed.

Lemma meanwhile_channel ch ch' : ch_session ch' = ch_session ch → meanwhile [] ch ch'.
Proof. intros Hs. apply meanwhile_step. intros flow. by constructor. Qed.

Lemma meanwhile_other ch s : other_step (ch_session ch) s → meanwhile [] ch (set_session ch s).
Proof. intros Hs. apply meanwhile_step. intros flow. by constructor. Qed.

Lemma meanwhile_settle ch p : meanwhile [p] ch (set_session ch (settle (ch_session ch) p)).
Proof. apply meanwhile_step. intros flow. constructor. Qed.

Create HintDb meanwhile.
#[export] Hint Resolve meanwhile_refl meanwhile_other meanwhile_settle : meanwhile.

Lemma send_cmd_session ch cmd : ch_session (send_cmd ch cmd).1 = ch_session ch.
Proof. unfold send_cmd. by destruct (ch_actor ch). Qed.

Lemma send_cmd_reader ch cmd : ch_reader (send_cmd ch cmd).1 = ch_reader ch.
Proof. unfold send_cmd. by destruct (ch_actor ch). Qed.

Lemma meanwhile_send ch cmd : meanwhile [] ch (send_cmd ch cmd).1.
Proof. apply meanwhile_channel, send_cmd_session. Qed.

Lemma meanwhile_close ch : meanwhile [] ch (close ch).
Proof.
  unfold close. destruct (ch_open ch); cbn [negb]; [|apply meanwhile_refl].
  apply (meanwhile_trans [] [] _ (set_open_actor ch false (notify_actor (ch_actor ch))));
    [by apply meanwhile_channel|].
  apply (meanwhile_other (set_open_actor ch false (notify_actor (ch_actor ch)))). constructor.
Qed.

Lemma close_reader ch : ch_reader (close ch) = ch_reader ch.
Proof. unfold close. by destruct (ch_open ch). Qed.

#[export] Hint Resolve meanwhile_send meanwhile_close : meanwhile.

Lemma channel_task_meanwhile ch ch' :
  actor_step ch ch' ∨ app_step ch ch' → meanwhile [] ch ch' ∧ ch_reader ch' = ch_reader ch.
Proof.
  intros [[Hs Hr]%actor_step_session|[]].
  - split; [by apply meanwhile_channel | done].
  - auto using send_cmd_reader with meanwhile.
  - auto with meanwhile.
  - auto using close_reader with meanwhile.
Qed.

(** *** A request beside another one *)

Lemma after_send_channel ch cmd next :
  (after_send (send_cmd ch cmd) next).1 = (send_cmd ch cmd).1.
Proof. unfold after_send. by destruct (send_cmd ch cmd) as [ch' []]. Qed.

(** A request allocates an id, parks a waiter under it, and queues its packet. *)
Lemma meanwhile_request ch s s' cmd next :
  other_step (ch_session ch) s → other_step s s' →
  let ch' := (after_send (send_cmd (set_session ch s') cmd) next).1 in
  meanwhile [] ch ch' ∧ ch_reader ch' = ch_reader ch.
Proof.
  intros H1 H2. cbv zeta. rewrite after_send_channel, send_cmd_reader. split; [|done].
  apply (meanwhile_trans [] [] _ (set_session ch s)); [by apply meanwhile_other|].
  apply (meanwhile_trans [] [] _ (set_session (set_session ch s) s'));
    [by apply meanwhile_other | apply meanwhile_send].
Qed.

Lemma send_request_meanwhile ch req :
  let ch' := (send_request ch req).1 in meanwhile [] ch ch' ∧ ch_reader ch' = ch_reader ch.
Proof.
  pose proof (other_allocate (ch_session ch)) as Ha.
  destruct req as [r|fs|ts]; cbn [send_request];
    unfold send_publish, send_subscribe, send_unsubscribe, send_publish_cmd, send_packet.
  - destruct (req_qos r); rewrite ?(bool_decide_true (_ = _)), ?(bool_decide_false (_ = _)) by done;
      cbn -[allocate_packet_id after_send send_cmd].
    { rewrite after_send_channel, send_cmd_reader. auto with meanwhile. }
    all: destruct (allocate_packet_id (ch_session ch)) as [s i]; apply (meanwhile_request ch s);
      [done | first [apply (other_park_publish s i Kind_Puback) |
                     apply (other_park_publish s i Kind_Pubrec)]].
  - destruct (allocate_packet_id (ch_session ch)) as [s i]; cbn -[after_send send_cmd].
    apply (meanwhile_request ch s); [done | apply (other_park_suback s i)].
  - destruct (allocate_packet_id (ch_session ch)) as [s i]; cbn -[after_send send_cmd].
    apply (meanwhile_request ch s); [done | apply (other_park_unsuback s i)].
Qed.

Lemma send_poll_meanwhile ch flow :
  let ch' := (send_poll (ch, flow)).1 in meanwhile [] ch ch' ∧ ch_reader ch' = ch_reader ch.
Proof.
  unfold send_poll, send_resolved. cbv zeta.
  destruct (flow_waiter flow) as [[i u]|]; [|by auto with meanwhile].
  destruct (ss_waiters (ch_session ch) !! u) as [[|[]|]|]; try (by auto with meanwhile);
    destruct flow as [|j v| | | |]; try (by auto with meanwhile).
  split; [|done]. apply meanwhile_other, (other_park_publish _ j Kind_Pubcomp).
Qed.

Lemma send_timeout_meanwhile ch flow :
  let ch' := (send_timeout (ch, flow)).1 in meanwhile [] ch ch' ∧ ch_reader ch' = ch_reader ch.
Proof.
  unfold send_timeout. pose proof (send_poll_meanwhile ch flow) as Hp.
  destruct (flow_waiter flow) as [[i u]|]; [|by auto with meanwhile].
  destruct (ss_waiters (ch_session ch) !! u) as [[]|]; try exact Hp.
  cbn. split; [|done]. apply meanwhile_other, other_cancel.
Qed.

Lemma resume_meanwhile resume ch flow ch' flow' :
  resume = send_poll ∨ resume = send_timeout → resume (ch, flow) = (ch', flow') →
  meanwhile [] ch ch' ∧ ch_reader ch' = ch_reader ch.
Proof.
  pose proof (send_poll_meanwhile ch flow) as Hp. pose proof (send_timeout_meanwhile ch flow) as Ht.
  intros [-> | ->] E; rewrite E in *; [exact Hp | exact Ht].
Qed.

(** *** The loop *)

(** The same of the world, for the channel [id]. *)
Definition world_meanwhile (id : Z) (t : list Packet) (w w' : World) : Prop :=
  (∀ ch, w_channels w !! id = Some ch → ∃ ch', w_channels w' !! id = Some ch' ∧ meanwhile t ch ch') ∧
  w_broker w' = w_broker w.

Lemma world_meanwhile_refl id w : world_meanwhile id [] w w.
Proof. split; [|done]. intros ch Hch. eauto with meanwhile. Qed.

Lemma world_meanwhile_trans id t t' w w1 w' :
  world_meanwhile id t w w1 → world_meanwhile id t' w1 w' → world_meanwhile id (t ++ t') w w'.
Proof.
  intros [H1 Hb1] [H2 Hb2]. split; [|congruence]. intros ch (ch1 & Hch1 & Hm1)%H1.
  destruct (H2 ch1 Hch1) as (ch' & Hch' & Hm2). eauto using meanwhile_trans.
Qed.

Lemma on_channel_meanwhile {A} id t w (f : MqttChannel → MqttChannel * mresult A) :
  (∀ ch, meanwhile t ch (f ch).1) → world_meanwhile id t w (on_channel w id f).1.
Proof.
  intros Hf. split; [|apply on_channel_broker]. intros ch Hch.
  rewrite (on_channel_Some _ _ ch) by done. cbn. rewrite lookup_insert_eq. eauto.
Qed.

Lemma insert_meanwhile id t w ch ch' :
  w_channels w !! id = Some ch → meanwhile t ch ch' →
  world_meanwhile id t w (set_channels w (<[id := ch']> (w_channels w))).
Proof.
  intros Hch Hm. split; [|done]. intros ch0 Hch0. cbn. rewrite lookup_insert_eq.
  exists ch'. split; [done|]. by simplify_eq.
Qed.

Lemma close_channel_meanwhile id w : world_meanwhile id [] w (close_channel w id).
Proof.
  split; [|done]. intros ch Hch. cbn. rewrite lookup_alter_eq, Hch. cbn.
  eauto with meanwhile.
Qed.

Create HintDb world.
#[export] Hint Resolve world_meanwhile_refl close_channel_meanwhile : world.

(** A packet that settles nothing. *)
Lemma meanwhile_inert p ch ch' :
  settle (ch_session ch) p = ch_session ch → meanwhile [] ch ch' → meanwhile [p] ch ch'.
Proof.
  intros Hs Hm. apply (meanwhile_trans [p] [] _ ch); [|done].
  pose proof (meanwhile_settle ch p) as Hp. by rewrite Hs, set_session_same in Hp.
Qed.

Lemma world_inert id p w w' :
  (∀ s, settle s p = s) → world_meanwhile id [] w w' → world_meanwhile id [p] w w'.
Proof.
  intros Hs [Hm Hb]. split; [|done]. intros ch (ch' & Hch' & Hm')%Hm.
  eauto using meanwhile_inert.
Qed.

Lemma ack_inbound_meanwhile pb ch : meanwhile [] ch (ack_inbound_publish_pre_chain pb ch).1.
Proof.
  unfold ack_inbound_publish_pre_chain, send_packet.
  destruct (pub_qos pb), (pub_packet_id pb) as [i|]; cbn; auto with meanwhile.
  eapply (meanwhile_trans [] []); [|apply meanwhile_send]. apply meanwhile_other, other_stash.
Qed.

Section system.
Context {Handler Node : Type} (walk : str → list Node).
Context (config : option (MqttClientConfig Handler)) (id : Z).

Lemma client_then_meanwhile w t f (tasks : list (ClientTask (Handler:=Handler) (Node:=Node))) :
  (∀ ch, meanwhile t ch (f ch).1) → world_meanwhile id t w (client_then w id f tasks).1.1.
Proof.
  intros Hf. unfold client_then. pose proof (on_channel_meanwhile id t w f Hf) as Hw.
  by destruct (on_channel w id f).
Qed.

Lemma dispatch_meanwhile w (cfg : MqttClientConfig Handler) p :
  world_meanwhile id [p] w (dispatch_client_inbound walk w id cfg p).1.1.
Proof.
  destruct p as [k|a|pb|i|i|i|i|s|a|u|i| | |]; cbn [dispatch_client_inbound];
    try (apply world_inert; [done | apply world_meanwhile_refl]);
    try (apply client_then_meanwhile; intros ch;
         apply (meanwhile_settle ch (Packet_Puback i)) ||
         apply (meanwhile_settle ch (Packet_Pubcomp i)) ||
         apply (meanwhile_settle ch (Packet_Suback a)) ||
         apply (meanwhile_settle ch (Packet_Unsuback i))).
  - apply world_inert; [done|].
    pose proof (on_channel_meanwhile id [] w _ (ack_inbound_meanwhile pb)) as Hw.
    destruct (on_channel w id _) as [w1 [| | |]]; [case_bool_decide|..]; exact Hw.
  - pose proof (on_channel_meanwhile id [Packet_Pubrec i] w
      (with_session (λ s, wake_ack_waiter s i Kind_Pubrec))
      (λ ch, meanwhile_settle ch (Packet_Pubrec i))) as Hw.
    destruct (on_channel w id _) as [w1 r1].
    apply (world_meanwhile_trans id [_] [] w w1); [exact Hw|].
    apply client_then_meanwhile. intros ch. apply meanwhile_send.
  - apply world_inert; [done|]. set (f := λ ch : MqttChannel, _).
    pose proof (on_channel_meanwhile id [] w f
      (λ ch, meanwhile_other ch _ (other_take (ch_session ch) i))) as Hw.
    destruct (on_channel w id f) as [w1 r1].
    apply (world_meanwhile_trans id [] [] w w1); [exact Hw|].
    apply client_then_meanwhile. intros ch. apply meanwhile_send.
Qed.

Lemma client_turn_meanwhile w (c c' : ClientConn (Handler:=Handler) (Node:=Node)) ev w' exit :
  cc_channel c = id → own_client_event w c ev → client_turn walk w c ev = (w', c', exit) →
  world_meanwhile id (turn_reads c ev) w w'.
Proof.
  intros Hid Hev Ht. destruct ev as [| |lost| |f]; cbn [client_turn turn_reads] in *;
    rewrite ?Hid in Ht.
  - destruct (negb _); injection Ht as <- _ _; auto with world.
  - destruct (cc_at_select c); [|injection Ht as <- _ _; auto with world].
    destruct (read_packet _ (cc_reader c)) as [[p|e| |] rd'];
      [|destruct e|..]; try (injection Ht as <- _ _; by auto with world).
    pose proof (dispatch_meanwhile w (cc_config c) p) as Hw.
    destruct (dispatch_client_inbound walk w _ _ p) as [[w1 tasks] [[]|e| |]];
      injection Ht as <- _ _; exact Hw.
  - destruct (cc_at_select c); [|injection Ht as <- _ _; by auto with world].
    destruct (tick_or_never _); [|injection Ht as <- _ _; by auto with world].
    destruct (cancel_read _ _ _) as [rd|]; [|injection Ht as <- _ _; by auto with world].
    cbn [client_advance cc_channel] in Ht. rewrite Hid in Ht.
    pose proof (on_channel_meanwhile id [] w (λ ch, send_packet ch Packet_Pingreq)
      (λ ch, meanwhile_send ch _)) as Hw.
    destruct (on_channel w id _) as [w1 r]. destruct (is_ok r); injection Ht as <- _ _; exact Hw.
  - destruct (cc_at_select c); injection Ht as <- _ _; auto with world.
  - done.
Qed.

Lemma client_connect_meanwhile timed_out w :
  world_meanwhile id [] w (client_connect (Node:=Node) config timed_out w id).1.
Proof.
  assert (∀ A w1 w2 (f : MqttChannel → MqttChannel * mresult A), world_meanwhile id [] w w1 →
    (∀ ch, meanwhile [] ch (f ch).1) → (on_channel w1 id f).1 = w2 → world_meanwhile id [] w w2)
    as Hnext.
  { intros A w1 w2 f Hw Hf <-. apply (world_meanwhile_trans id [] [] w w1);
      [done | by apply on_channel_meanwhile]. }
  assert (world_meanwhile id [] w w) as H0 by apply world_meanwhile_refl.
  unfold client_connect. destruct config as [cfg|]; [|done].
  destruct (on_channel w id _) as [w1 taken] eqn:E1. apply (f_equal fst) in E1.
  apply (Hnext _ _ w1) in E1; [|done | intros ch; by apply meanwhile_channel].
  destruct taken as [rd| | |]; try done.
  destruct (on_channel w1 id _) as [w2 sent] eqn:E2. apply (f_equal fst) in E2.
  apply (Hnext _ _ w2) in E2; [|done | intros ch; apply meanwhile_send].
  destruct sent; try done. destruct timed_out; [done|].
  destruct (read_packet _ rd) as [[p| | |] rd']; try done. destruct p; try done.
  destruct (negb _); [done|].
  destruct (on_channel w2 id _) as [w3 r3] eqn:E3. apply (f_equal fst) in E3.
  apply (Hnext _ _ w3) in E3; [|done | intros ch; apply meanwhile_other, other_bind].
  destruct (cfg_initial_subscriptions cfg) as [|f fs]; [done|].
  destruct (on_channel w3 id _) as [w4 r4] eqn:E4. apply (f_equal fst) in E4.
  apply (Hnext _ _ w4) in E4; [done | done |]. intros ch.
  pose proof (other_allocate (ch_session ch)) as Ha.
  destruct (allocate_packet_id (ch_session ch)) as [s i].
  eapply (meanwhile_trans [] []); [by apply meanwhile_other | apply meanwhile_send].
Qed.

(** ** The packets come off the wire *)

Definition client_max : Z :=
  match config with Some cfg => max_packet_size (cfg_safety cfg) | None => 0 end.

Lemma client_connect_reads timed_out w ch rd w' (c : ClientConn (Handler:=Handler) (Node:=Node)) :
  w_channels w !! id = Some ch → ch_reader ch = Some rd →
  client_connect config timed_out w id = (w', Ok c) →
  config = Some (cc_config c) ∧ cc_channel c = id ∧
  ∃ ack, parsed client_max (rd_input rd) [Packet_Connack ack] (rd_input (cc_reader c)).
Proof.
  intros Hch Hrd. unfold client_connect, client_max. destruct config as [cfg|]; [|done].
  rewrite (on_channel_Some _ _ ch) by done. cbn [take_reader fst snd]. rewrite Hrd. cbn [ok_or].
  destruct (on_channel _ id _) as [w2 [| | |]]; try done. destruct timed_out; [done|].
  destruct (read_packet _ rd) as [[p| | |] rd'] eqn:Er; try done.
  apply read_packet_decodes in Er. destruct p as [|ack| | | | | | | | | | | |]; try done.
  destruct (negb _); [done|]. destruct (on_channel w2 id _) as [w3 r3].
  pose proof (parsed_snoc _ _ [] _ _ _ (parsed_nil (max_packet_size (cfg_safety cfg)) (rd_input rd)) Er)
    as Hp.
  destruct (cfg_initial_subscriptions cfg) as [|f fs].
  { intros [= <- <-]. eauto. }
  destruct (on_channel w3 id _) as [w4 [| | |]]; try done. intros [= <- <-]. eauto.
Qed.

Lemma cancel_read_intact max_size rd rd' :
  cancel_read max_size rd 0 = Some rd' → rd_input rd' = rd_input rd.
Proof.
  unfold cancel_read. destruct (read_packet max_size rd) as [r rd1].
  case_bool_decide; [|done]. by intros [= <-].
Qed.

Lemma client_turn_config w (c c' : ClientConn (Handler:=Handler) (Node:=Node)) ev w' exit :
  client_turn walk w c ev = (w', c', exit) → cc_config c' = cc_config c.
Proof.
  intros Ht. destruct ev as [| |lost| |f]; cbn [client_turn] in Ht;
    repeat case_match; simplify_eq; done.
Qed.

Lemma client_turn_reads w (c c' : ClientConn (Handler:=Handler) (Node:=Node)) ev w' exit input ps :
  config = Some (cc_config c) → client_turn walk w c ev = (w', c', exit) → turn_loses ev = 0%nat →
  parsed client_max input ps (rd_input (cc_reader c)) →
  ∃ rest, parsed client_max input (ps ++ turn_reads c ev) rest ∧
    (exit = None → rest = rd_input (cc_reader c')).
Proof.
  unfold client_max. intros -> Ht Hl Hp.
  assert (ps ++ turn_reads c Cev_Test = ps) as Hnil by apply app_nil_r.
  destruct ev as [| |lost| |f]; cbn [client_turn turn_reads turn_loses] in *; rewrite ?Hnil.
  - exists (rd_input (cc_reader c)). split; [done|]. destruct (negb _); by injection Ht as _ <- <-.
  - destruct (cc_at_select c).
    2:{ rewrite Hnil. exists (rd_input (cc_reader c)). by injection Ht as _ <- <-. }
    destruct (read_packet _ (cc_reader c)) as [[p|e| |] rd'] eqn:Er; rewrite ?Hnil.
    + apply read_packet_decodes in Er. exists (rd_input rd'). split; [by eapply parsed_snoc|].
      destruct (dispatch_client_inbound walk w _ _ p) as [[w1 tasks] [[]|e| |]];
        by injection Ht as _ <- <-.
    + exists (rd_input (cc_reader c)). split; [done|]. destruct e; by injection Ht as _ <- <-.
    + exists (rd_input (cc_reader c)). split; [done|]. by injection Ht as _ <- <-.
    + exists (rd_input (cc_reader c)). split; [done|]. by injection Ht as _ <- <-.
  - subst lost. exists (rd_input (cc_reader c)). split; [done|]. intros ->.
    destruct (cc_at_select c); [|by injection Ht as _ <-].
    destruct (tick_or_never _); [|by injection Ht as _ <-].
    destruct (cancel_read _ _ _) as [rd|] eqn:Ec; [|by injection Ht as _ <-].
    apply cancel_read_intact in Ec. destruct (on_channel _ _ _) as [w1 r].
    destruct (is_ok r); injection Ht as _ <-; done.
  - exists (rd_input (cc_reader c)). split; [done|]. destruct (cc_at_select c); by injection Ht as _ <- <-.
  - exists (rd_input (cc_reader c)). split; [done|]. by injection Ht as _ <- <-.
Qed.

(** ** The invariant *)

(** A request stands where the packets dispatched since it was made have brought it. *)
Definition call_ok (ch : MqttChannel) (log : list Packet) (k : Call) : Prop :=
  (cl_since k ≤ length log)%nat ∧
  flow_inv (cl_request k) (cl_id k) (drop (cl_since k) log) (ch, cl_flow k).

Definition calls_ok (w : World) (calls : list Call) (log : list Packet) : Prop :=
  ∃ ch, w_channels w !! id = Some ch ∧ session_inv (ch_session ch) ∧ Forall (call_ok ch log) calls.

Lemma meanwhile_session t ch ch' :
  meanwhile t ch ch' → session_inv (ch_session ch) → session_inv (ch_session ch').
Proof.
  intros Hm Hs. set (req := Request_Unsubscribe []).
  destruct (flow_run_extends req 0 _ [] t _ (Hm (Returned (Err ChannelClosed)))) as [Hs' _]; [|done].
  by split.
Qed.

Lemma call_ok_meanwhile t ch ch' log k :
  meanwhile t ch ch' → call_ok ch log k → call_ok ch' (log ++ t) k.
Proof.
  intros Hm [Hl Hf]. split; [rewrite length_app; lia|].
  rewrite drop_app_le by done. by eapply flow_run_extends.
Qed.

Lemma calls_ok_meanwhile t w w' calls log :
  world_meanwhile id t w w' → calls_ok w calls log → calls_ok w' calls (log ++ t).
Proof.
  intros [Hm _] (ch & Hch & Hs & Hk). destruct (Hm ch Hch) as (ch' & Hch' & Hm').
  exists ch'. split; [done|]. split; [by eapply meanwhile_session|].
  eapply Forall_impl; [exact Hk|]. intros k. by apply call_ok_meanwhile.
Qed.

Lemma calls_ok_quiet w w' calls log :
  world_meanwhile id [] w w' → calls_ok w calls log → calls_ok w' calls log.
Proof. intros Hm Hk. rewrite <- (app_nil_r log). by eapply calls_ok_meanwhile. Qed.

Lemma calls_ok_call w calls log ch req ch' flow :
  w_channels w !! id = Some ch → send_request ch req = (ch', flow) → calls_ok w calls log →
  calls_ok (set_channels w (<[id := ch']> (w_channels w)))
    (calls ++ [mkCall req (allocate_packet_id (ch_session ch)).2 (length log) flow]) log.
Proof.
  intros Hch Hr (ch0 & Hch0 & Hs & Hk). simplify_eq.
  pose proof (send_request_meanwhile ch req) as Hm. cbv zeta in Hm. rewrite Hr in Hm.
  destruct Hm as [Hm _]. cbn [fst] in Hm.
  pose proof (flow_inv_start ch req Hs) as Hi. rewrite Hr in Hi.
  exists ch'. split; [by apply lookup_insert_eq|]. split; [by destruct Hi|].
  apply Forall_app. split; [|apply Forall_singleton; split; cbn; [done | by rewrite drop_all]].
  eapply Forall_impl; [exact Hk|]. intros k Hok. rewrite <- (app_nil_r log).
  by apply (call_ok_meanwhile [] ch).
Qed.

Lemma resume_inv resume req i t st :
  resume = send_poll ∨ resume = send_timeout → flow_inv req i t st → flow_inv req i t (resume st).
Proof. intros [-> | ->]; [apply flow_inv_poll | apply flow_inv_timeout]. Qed.

Lemma calls_ok_resume w calls log resume ch ch' i k flow :
  resume = send_poll ∨ resume = send_timeout → calls !! i = Some k →
  w_channels w !! id = Some ch → resume (ch, cl_flow k) = (ch', flow) → calls_ok w calls log →
  calls_ok (set_channels w (<[id := ch']> (w_channels w))) (<[i := set_flow k flow]> calls) log.
Proof.
  intros Hres Hi Hch Hr (ch0 & Hch0 & Hs & Hk). simplify_eq.
  destruct (resume_meanwhile _ _ _ _ _ Hres Hr) as [Hm _].
  exists ch'. split; [by apply lookup_insert_eq|]. split; [by eapply meanwhile_session|].
  apply Forall_insert.
  - eapply Forall_impl; [exact Hk|]. intros k' Hok. rewrite <- (app_nil_r log).
    by apply (call_ok_meanwhile [] ch).
  - destruct (Forall_lookup_1 _ _ _ _ Hk Hi) as [Hl Hf]. split; [done|].
    apply (resume_inv resume _ _ _ _ Hres) in Hf. by rewrite Hr in Hf.
Qed.

(** What the connection has read. *)
Definition log_parsed (input : bytes) (log : list Packet) (rest : bytes) : Prop :=
  ∃ ack, parsed client_max input (Packet_Connack ack :: log) rest.

Definition client_phase_ok (input : bytes) (s : ClientSystem Handler Node) : Prop :=
  match cs_phase s with
  | Dialling =>
      cs_log s = [] ∧
      ∃ ch rd, w_channels (cs_world s) !! id = Some ch ∧ ch_reader ch = Some rd ∧
        rd_input rd = input ∧ bytes_ok input
  | Running c =>
      config = Some (cc_config c) ∧ cc_channel c = id ∧ bytes_ok (rd_input (cc_reader c)) ∧
      (cs_lost s = 0%nat → log_parsed input (cs_log s) (rd_input (cc_reader c)))
  | Ended r =>
      returns r = true ∧
      (cs_lost s = 0%nat → cs_log s = [] ∨ ∃ rest, log_parsed input (cs_log s) rest)
  end.

Record client_ok (input : bytes) (s : ClientSystem Handler Node) : Prop := {
  co_calls : calls_ok (cs_world s) (cs_calls s) (cs_log s);
  co_owner c : owned_entry (cs_world s) c id = None;
  co_phase : client_phase_ok input s;
}.

Lemma client_left_ok input w calls log lost r :
  calls_ok w calls log → (∀ c, owned_entry w c id = None) → returns r = true →
  (lost = 0%nat → log = [] ∨ ∃ rest, log_parsed input log rest) →
  client_ok input (mkClientSystem (close_channel w id) (Ended r) calls log lost).
Proof.
  intros Hk Ho Hr Hl. split; cbn; [|done | done].
  eapply calls_ok_quiet; [apply close_channel_meanwhile | done].
Qed.

Lemma world_meanwhile_owner t w w' :
  world_meanwhile id t w w' → (∀ c, owned_entry w c id = None) → ∀ c, owned_entry w' c id = None.
Proof. intros [_ Hb] Ho c. eapply same_owner_None; [by apply same_owner_broker | apply Ho]. Qed.

Lemma calls_ok_unowned w calls log :
  calls_ok w calls log → (∀ c, owned_entry w c id = None) → unowned w id.
Proof. intros (ch & Hch & _) Ho. split; [by eexists | done]. Qed.

Lemma client_dial_ok input w calls log lost timed_out w1 r w' ph :
  client_connect config timed_out w id = (w1, r) → client_dialled id w1 r = (w', ph) →
  client_ok input (mkClientSystem w Dialling calls log lost) →
  client_ok input (mkClientSystem w' ph calls log lost).
Proof.
  intros Hc Hd [Hk Ho (Hlog & ch & rd & Hch & Hrd & Hin & Hok)]. cbn in *.
  pose proof (client_connect_meanwhile timed_out w) as Hm.
  destruct (client_connect_ok (Node:=Node) config timed_out w id ch Hch Ho) as [_ Hres].
  { intros rd' Hrd'. simplify_eq. done. }
  rewrite Hc in Hm, Hres. cbn [fst snd] in *.
  pose proof (calls_ok_quiet _ _ _ _ Hm Hk) as Hk1.
  pose proof (world_meanwhile_owner _ _ _ Hm Ho) as Ho1.
  destruct r as [c|e| |]; try done; cbn in Hd.
  - injection Hd as <- <-. destruct Hres as [Hid Hbytes].
    destruct (client_connect_reads timed_out w ch rd w1 c Hch Hrd Hc) as (Hcfg & _ & Hp).
    subst log input. by split.
  - injection Hd as <- <-. apply client_left_ok; [done | done | done | by left].
Qed.

Lemma client_runs_ok input w c calls log lost ev w1 c1 exit w' ph :
  own_client_event w c ev → client_turn walk w c ev = (w1, c1, exit) →
  client_turned id w1 c1 exit = (w', ph) →
  client_ok input (mkClientSystem w (Running c) calls log lost) →
  client_ok input (mkClientSystem w' ph calls (log ++ turn_reads c ev) (lost + turn_loses ev)).
Proof.
  intros Hev Ht Hd [Hk Ho (Hcfg & Hid & Hbytes & Hp)]. cbn in *.
  pose proof (client_turn_meanwhile w c c1 ev w1 exit Hid Hev Ht) as Hm.
  destruct (client_turn_inv walk w c ev w1 c1 exit) as ([_ Hb1] & Hid1 & Hex);
    [by destruct ev | | done|].
  { split; [rewrite Hid; by eapply calls_ok_unowned | done]. }
  pose proof (client_turn_config w c c1 ev w1 exit Ht) as Hcfg1.
  assert ((lost + turn_loses ev = 0)%nat → ∃ rest, log_parsed input (log ++ turn_reads c ev) rest ∧
    (exit = None → rest = rd_input (cc_reader c1))) as Hread.
  { intros Hl. destruct Hp as [ack Hp]; [lia|].
    destruct (client_turn_reads w c c1 ev w1 exit input (Packet_Connack ack :: log) Hcfg Ht)
      as (rest & Hrest & Hn); [lia | done|]. exists rest. split; [by exists ack | done]. }
  pose proof (calls_ok_meanwhile _ _ _ _ _ Hm Hk) as Hk1.
  pose proof (world_meanwhile_owner _ _ _ Hm Ho) as Ho1.
  assert ((lost + turn_loses ev = 0)%nat → log ++ turn_reads c ev = [] ∨
    ∃ rest, log_parsed input (log ++ turn_reads c ev) rest) as Hend.
  { intros (rest & Hrest & _)%Hread. eauto. }
  destruct exit as [[|e|]|]; try done; cbn in Hd.
  - pose proof (on_channel_meanwhile id [] w1 (λ ch, send_packet ch Packet_Disconnect)
      (λ ch, meanwhile_send ch _)) as Hm2.
    destruct (on_channel w1 id _) as [w2 r2]. injection Hd as <- <-.
    apply client_left_ok; [by eapply calls_ok_quiet | by eapply world_meanwhile_owner | done | done].
  - injection Hd as <- <-. by apply client_left_ok.
  - injection Hd as <- <-. split; [done | done|]. cbn. split_and!; [congruence | congruence | done|].
    intros (rest & Hrest & Hn)%Hread. by rewrite <- Hn.
Qed.

Lemma client_channel_ok input w ph calls calls' log lost ch ch' :
  w_channels w !! id = Some ch → ch_reader ch' = ch_reader ch →
  calls_ok (set_channels w (<[id := ch']> (w_channels w))) calls' log →
  client_ok input (mkClientSystem w ph calls log lost) →
  client_ok input (mkClientSystem (set_channels w (<[id := ch']> (w_channels w))) ph calls' log lost).
Proof.
  intros Hch Hrd Hk' [_ Ho Hp]. split; [done | done|].
  destruct ph; cbn in *; try done. destruct Hp as (Hlog & ch0 & rd & Hch0 & Hrd0 & Hin). simplify_eq.
  split; [done|]. exists ch', rd. split; [apply lookup_insert_eq|]. split; [congruence | done].
Qed.

Lemma client_step_ok input s s' :
  client_step walk config id s s' → client_ok input s → client_ok input s'.
Proof.
  intros Hs Hok. pose proof (co_calls _ _ Hok) as Hk. destruct Hs as
    [w calls log lost timed_out w1 r w' ph Hc Hd
    |w c calls log lost ev w1 c1 exit w' ph Hev Ht Hd
    |w ph calls log lost req ch ch' flow Hch Hr
    |w ph calls log lost i k resume ch ch' flow Hres Hi Hch Hr
    |w ph calls log lost ch ch' Hch Ha]; cbn [cs_world cs_calls cs_log] in Hk.
  - by eapply client_dial_ok.
  - by eapply client_runs_ok.
  - pose proof (send_request_meanwhile ch req) as [_ Hrd]. rewrite Hr in Hrd.
    eapply client_channel_ok; [done | done | by apply calls_ok_call | done].
  - destruct (resume_meanwhile _ _ _ _ _ Hres Hr) as [_ Hrd].
    eapply client_channel_ok; [done | done | by eapply calls_ok_resume | done].
  - destruct (channel_task_meanwhile _ _ Ha) as [Hm Hrd].
    eapply client_channel_ok; [done | done | | done].
    eapply calls_ok_quiet; [by apply (insert_meanwhile id [] w ch) | done].
Qed.

Lemma client_run_ok input s s' :
  rtc (client_step walk config id) s s' → client_ok input s → client_ok input s'.
Proof. induction 1; eauto using client_step_ok. Qed.

Lemma client_opened_ok input s : client_opened id input s → client_ok input s.
Proof.
  intros (w & n & rd & wr & la & ra & -> & Hch & Hin & Hok & _ & _ & Ho). split; cbn; [|done|].
  - eexists. split; [exact Hch|]. split; [by apply session_reachable_inv | constructor].
  - split; [done|]. by eexists _, rd.
Qed.

Lemma client_reachable_ok input s0 s :
  client_opened id input s0 → rtc (client_step walk config id) s0 s → client_ok input s.
Proof. intros H0 Hr. apply (client_run_ok input _ _ Hr). by apply client_opened_ok. Qed.

(** ** How it ends *)

Lemma on_channel_open {A} w (f : MqttChannel → MqttChannel * mresult A) :
  (∀ ch, ch_open (f ch).1 = ch_open ch) →
  channel_is_open (on_channel w id f).1 id = channel_is_open w id.
Proof.
  intros Hf. unfold channel_is_open, is_open. unfold on_channel.
  destruct (w_channels w !! id) as [ch|] eqn:E; [|cbn; by rewrite E].
  specialize (Hf ch). destruct (f ch) as [ch' r]. cbn. by rewrite lookup_insert_eq.
Qed.

Lemma send_cmd_open ch cmd : ch_open (send_cmd ch cmd).1 = ch_open ch.
Proof. unfold send_cmd. by destruct (ch_actor ch). Qed.

Lemma client_then_open w f (tasks : list (ClientTask (Handler:=Handler) (Node:=Node))) :
  (∀ ch, ch_open (f ch).1 = ch_open ch) →
  channel_is_open (client_then w id f tasks).1.1 id = channel_is_open w id.
Proof.
  intros Hf. unfold client_then. rewrite <- (on_channel_open w f Hf). by destruct (on_channel w id f).
Qed.

Lemma dispatch_open w (cfg : MqttClientConfig Handler) p :
  channel_is_open (dispatch_client_inbound walk w id cfg p).1.1 id = channel_is_open w id.
Proof.
  destruct p as [k|a|pb|i|i|i|i|s|a|u|i| | |]; cbn [dispatch_client_inbound]; try done;
    try (by apply client_then_open).
  - rewrite <- (on_channel_open w (ack_inbound_publish_pre_chain pb)).
    + destruct (on_channel w id _) as [w1 [| | |]]; [case_bool_decide|..]; done.
    + intros ch. unfold ack_inbound_publish_pre_chain, send_packet.
      destruct (pub_qos pb), (pub_packet_id pb); rewrite ?send_cmd_open; done.
  - rewrite <- (on_channel_open w (with_session (λ s, wake_ack_waiter s i Kind_Pubrec))) by done.
    destruct (on_channel w id _) as [w1 r1]. apply client_then_open. intros ch. apply send_cmd_open.
  - set (f := λ ch : MqttChannel, _). rewrite <- (on_channel_open w f) by done.
    destruct (on_channel w id f) as [w1 r1]. apply client_then_open. intros ch. apply send_cmd_open.
Qed.

Lemma client_turn_open w (c c' : ClientConn (Handler:=Handler) (Node:=Node)) ev w' exit :
  cc_channel c = id → own_client_event w c ev → client_turn walk w c ev = (w', c', exit) →
  channel_is_open w' id = channel_is_open w id.
Proof.
  intros Hid Hev Ht. destruct ev as [| |lost| |f]; cbn [client_turn] in *; rewrite ?Hid in Ht.
  - destruct (negb _); by injection Ht as <- _ _.
  - destruct (cc_at_select c); [|by injection Ht as <- _ _].
    destruct (read_packet _ (cc_reader c)) as [[p|e| |] rd'];
      [|destruct e|..]; try (by injection Ht as <- _ _).
    pose proof (dispatch_open w (cc_config c) p) as Hw.
    destruct (dispatch_client_inbound walk w _ _ p) as [[w1 tasks] [[]|e| |]];
      injection Ht as <- _ _; exact Hw.
  - destruct (cc_at_select c); [|by injection Ht as <- _ _].
    destruct (tick_or_never _); [|by injection Ht as <- _ _].
    destruct (cancel_read _ _ _) as [rd|]; [|by injection Ht as <- _ _].
    cbn [client_advance cc_channel] in Ht. rewrite Hid in Ht.
    pose proof (on_channel_open w (λ ch, send_packet ch Packet_Pingreq)
      (λ ch, send_cmd_open ch _)) as Hw.
    destruct (on_channel w id _) as [w1 r]. destruct (is_ok r); injection Ht as <- _ _; exact Hw.
  - destruct (cc_at_select c); by injection Ht as <- _ _.
  - done.
Qed.

(** Closing an open channel leaves nobody waiting. *)
Lemma close_channel_resolves w :
  channel_is_open w id = true → (∀ ch, w_channels w !! id = Some ch → session_inv (ch_session ch)) →
  ∃ ch, w_channels (close_channel w id) !! id = Some ch ∧ is_open ch = false ∧
    ∀ u, ss_waiters (ch_session ch) !! u ≠ Some Waiting.
Proof.
  unfold channel_is_open. intros Hop Hs. cbn. rewrite lookup_alter_eq.
  destruct (w_channels w !! id) as [ch|]; [|done]. destruct (Hs ch eq_refl) as [_ Hw].
  exists (close ch). split; [done|]. unfold close, is_open in *. rewrite Hop. split; [done|].
  intros u. by apply abandon_resolves.
Qed.

(** With nobody waiting, a resumed request returns, or it was a QoS 2 publish that
    its PUBREC had already woken. *)
Definition poll_outcome (req : MqttRequest) (pid : Z) (t : list Packet) (flow : SendFlow)
    (st : MqttChannel * SendFlow) : Prop :=
  match st.2 with
  | Returned r =>
      returns r = true ∧ (∀ resp, r = Ok resp → explained req pid t resp) ∧
      (∀ e, r = Err e → flow = Returned (Err e) ∨ e = ChannelClosed)
  | _ =>
      (∃ u, flow = Await_pubrec pid u) ∧ [Packet_Pubrec pid] `sublist_of` t ∧
      (send_timeout st).2 = Returned (Err (Timeout Timeout_Ack))
  end.

Lemma send_poll_outcome req pid t ch flow :
  flow_inv req pid t (ch, flow) → (∀ u, ss_waiters (ch_session ch) !! u ≠ Some Waiting) →
  poll_outcome req pid t flow (send_poll (ch, flow)).
Proof.
  intros Hinv Hw. pose proof (flow_inv_poll _ _ _ _ Hinv) as Hp.
  pose proof (λ i u, send_poll_waiting _ _ _ _ i u Hinv) as Hwait.
  unfold send_poll in *. destruct (flow_waiter flow) as [[i u]|] eqn:Ef.
  2:{ destruct flow as [| | | | |r]; try done. destruct Hinv as [_ Hf].
      split_and!; [by destruct r | by intros ? -> | intros e ->; by left]. }
  destruct (flow_inv_parked _ _ _ _ _ _ _ Hinv Ef) as (-> & pre & slot & <- & Hpk).
  destruct (lookup_lt_is_Some_2 _ _ (parked_cell _ _ _ _ _ Hpk)) as [cell Hcell].
  rewrite Hcell in *. destruct cell as [|v|].
  { by apply Hw in Hcell. }
  2:{ split_and!; [done | done|]. intros e [= <-]. by right. }
  unfold poll_outcome. pose proof Hinv as [_ Hf].
  destruct flow as [j x|j x|j x|j x|j x|]; cbn in Ef; try done; injection Ef as -> ->;
    destruct Hf as [_ [Hpk' _]];
    destruct (parked_served _ _ _ _ _ Hpk' v Hcell) as (a & Ha & Ht); pose proof Ha as Ha';
    cbn in Ha'; try destruct Ha' as (codes & -> & ->); try destruct Ha' as [-> ->];
    cbn in Hp, Hwait |- *;
    try (destruct Hp as [_ Hp]; split_and!; [done | by intros ? [= <-] | done]).
  destruct (Hwait pid _ eq_refl) as [_ Hc]. rewrite Hc. split_and!; [by eexists | done | done].
Qed.

(** ** Requests can always be finished *)

Lemma request_finishes input w ph calls log lost i k :
  client_ok input (mkClientSystem w ph calls log lost) → calls !! i = Some k →
  ∃ w' r, returns r = true ∧
    rtc (client_step walk config id) (mkClientSystem w ph calls log lost)
      (mkClientSystem w' ph (<[i := set_flow k (Returned r)]> calls) log lost).
Proof.
  intros Hok Hi. destruct (co_calls _ _ Hok) as (ch & Hch & _ & Hk). cbn in *.
  destruct (Forall_lookup_1 _ _ _ _ Hk Hi) as [_ Hf].
  destruct (flow_inv_returns _ _ _ _ Hf) as (ch2 & r & Hr & Hret & _).
  destruct (send_poll (ch, cl_flow k)) as [ch1 flow1] eqn:E1.
  eexists _, r. split; [done|]. eapply rtc_l; [by eapply client_resume; [left | ..]|].
  apply rtc_once. set (w1 := set_channels w _).
  rewrite <- (list_insert_insert_eq calls i (set_flow k (Returned r)) (set_flow k flow1)).
  eapply (client_resume _ _ _ w1 ph _ log lost i (set_flow k flow1) send_timeout ch1 ch2);
    [by right | | by apply lookup_insert_eq | done].
  apply list_lookup_insert_eq. by eapply lookup_lt_Some.
Qed.

Definition finished (k : Call) : Prop := ∃ r, cl_flow k = Returned r ∧ returns r = true.

Lemma requests_finish input w ph calls log lost n :
  client_ok input (mkClientSystem w ph calls log lost) → (n ≤ length calls)%nat →
  ∃ w' calls', rtc (client_step walk config id) (mkClientSystem w ph calls log lost)
      (mkClientSystem w' ph calls' log lost) ∧
    map cl_request calls' = map cl_request calls ∧ Forall finished (take n calls').
Proof.
  intros Hok. induction n as [|n IH]; intros Hn; [by exists w, calls|].
  destruct IH as (w1 & calls1 & Hr1 & Hreq & Hfin); [lia|].
  pose proof (client_run_ok input _ _ Hr1 Hok) as Hok1.
  assert (n < length calls1)%nat as Hlt.
  { rewrite <- (length_map cl_request calls1), Hreq, length_map. lia. }
  destruct (lookup_lt_is_Some_2 _ _ Hlt) as [k Hk].
  destruct (request_finishes input w1 ph calls1 log lost n k Hok1 Hk) as (w2 & r & Hret & Hr2).
  exists w2, (<[n := set_flow k (Returned r)]> calls1). split; [by etrans|]. split.
  - rewrite <- Hreq, list_fmap_insert. apply list_insert_id. by rewrite list_lookup_fmap, Hk.
  - rewrite (take_S_r _ n (set_flow k (Returned r))), take_insert_ge by (done || by apply list_lookup_insert_eq).
    apply Forall_app. split; [done|]. apply Forall_singleton. by exists r.
Qed.

(** ** The connection can always be ended *)

Lemma client_dialled_timeout w w1 r w' ph :
  client_connect (Node:=Node) config true w id = (w1, r) → client_dialled id w1 r = (w', ph) →
  ∃ res, ph = Ended res.
Proof.
  intros Hc Hd. destruct r as [c|e| |]; try (injection Hd as <- <-; by eexists).
  unfold client_connect in Hc. by repeat case_match.
Qed.

Lemma client_turned_exit w (c : ClientConn (Handler:=Handler) (Node:=Node)) exit :
  ∃ w' r, client_turned id w c (Some exit) = (w', Ended r).
Proof. destruct exit; cbn; [destruct (on_channel w id _)|..]; by eexists _, _. Qed.

Lemma client_turn_consumes w (c c' : ClientConn (Handler:=Handler) (Node:=Node)) w' :
  cc_at_select c = true → client_turn walk w c Cev_Read = (w', c', None) →
  (length (rd_input (cc_reader c')) < length (rd_input (cc_reader c)))%nat.
Proof.
  intros Hsel Ht. cbn [client_turn] in Ht. rewrite Hsel in Ht.
  destruct (read_packet _ _) as [[p|e| |] rd] eqn:Er; [|destruct e|..]; try done.
  apply read_packet_consumes in Er.
  by destruct (dispatch_client_inbound walk w _ _ p) as [[w1 tasks] [[]|e| |]]; try done;
    injection Ht as _ <-.
Qed.

Lemma client_runs_intact w c calls log lost ev w1 c1 exit w' ph :
  own_client_event w c ev → turn_loses ev = 0%nat →
  client_turn walk w c ev = (w1, c1, exit) → client_turned id w1 c1 exit = (w', ph) →
  client_step walk config id (mkClientSystem w (Running c) calls log lost)
    (mkClientSystem w' ph calls (log ++ turn_reads c ev) lost).
Proof.
  intros Hev Hz Ht Hd. rewrite <- (Nat.add_0_r lost) at 2. rewrite <- Hz. by eapply client_runs.
Qed.

(** Whatever the peer had sent is read, and the end of the stream at the latest ends
    the loop. *)
Lemma loop_ends w c calls log lost :
  ∃ w' r log', rtc (client_step walk config id) (mkClientSystem w (Running c) calls log lost)
    (mkClientSystem w' (Ended r) calls log' lost) ∧ log `prefix_of` log'.
Proof.
  remember (length (rd_input (cc_reader c))) as l eqn:Hl. revert c w log Hl.
  induction l as [l IH] using (well_founded_induction Nat.lt_wf_0); intros c w log ->.
  assert (∀ c0, cc_reader c0 = cc_reader c → cc_at_select c0 = true → ∃ w' r log',
    rtc (client_step walk config id) (mkClientSystem w (Running c0) calls log lost)
      (mkClientSystem w' (Ended r) calls log' lost) ∧ log `prefix_of` log') as Hread.
  { intros c0 Hrd Hsel. destruct (client_turn walk w c0 Cev_Read) as [[w1 c1] [ex|]] eqn:Ht.
    - destruct (client_turned_exit w1 c1 ex) as (w' & r & Hd).
      eexists w', r, _. split; [|apply prefix_app_r, reflexivity].
      by eapply rtc_once, (client_runs_intact w c0 calls log lost Cev_Read).
    - pose proof (client_turn_consumes _ _ _ _ Hsel Ht) as Hlt. rewrite Hrd in Hlt.
      destruct (IH _ Hlt c1 w1 (log ++ turn_reads c0 Cev_Read) eq_refl) as (w' & r & log' & Hs & Hp).
      exists w', r, log'. split; [|etrans; [apply prefix_app_r, reflexivity | exact Hp]].
      eapply rtc_l; [|exact Hs]. by eapply (client_runs_intact w c0 calls log lost Cev_Read). }
  destruct (cc_at_select c) eqn:Hsel; [by apply Hread|].
  destruct (client_turn walk w c Cev_Test) as [[w1 c1] [ex|]] eqn:Ht.
  - destruct (client_turned_exit w1 c1 ex) as (w' & r & Hd).
    eexists w', r, _. split; [|apply prefix_app_r, reflexivity].
    by eapply rtc_once, (client_runs_intact w c calls log lost Cev_Test).
  - pose proof Ht as Ht'. cbn in Ht'. destruct (negb _); [done|]. injection Ht' as <- <-.
    destruct (Hread (client_at_select c true)) as (w' & r & log' & Hs & Hp); [done | done|].
    exists w', r, log'. split; [|done]. eapply rtc_l; [|exact Hs].
    pose proof (client_runs_intact w c calls log lost Cev_Test _ _ _ _ _ Hsel eq_refl Ht eq_refl)
      as H1.
    by rewrite app_nil_r in H1.
Qed.

Lemma connection_ends w ph calls log lost :
  ∃ w' r log', rtc (client_step walk config id) (mkClientSystem w ph calls log lost)
    (mkClientSystem w' (Ended r) calls log' lost) ∧ log `prefix_of` log'.
Proof.
  destruct ph as [|c|r]; [|apply loop_ends|by exists w, r, log].
  destruct (client_connect (Node:=Node) config true w id) as [w1 r] eqn:Hc.
  destruct (client_dialled id w1 r) as [w' ph] eqn:Hd.
  destruct (client_dialled_timeout _ _ _ _ _ Hc Hd) as [res ->].
  exists w', res, log. split; [|done]. by apply rtc_once, (client_dial _ _ _ _ _ _ _ true w1 r).
Qed.

(** The step that ends the loop closes the channel. *)
Lemma closes_open s c s' r input :
  client_ok input s → cs_phase s = Running c → channel_is_open (cs_world s) id = true →
  client_step walk config id s s' → cs_phase s' = Ended r →
  ∃ ch, w_channels (cs_world s') !! id = Some ch ∧ is_open ch = false ∧
    ∀ u, ss_waiters (ch_session ch) !! u ≠ Some Waiting.
Proof.
  intros Hok Hph Hop Hs Hend. destruct Hs as
    [|w c0 calls log lost ev w1 c1 exit w' ph Hev Ht Hd| | | ]; cbn in *; try congruence.
  injection Hph as ->. destruct (co_phase _ _ Hok) as (_ & Hid & _). cbn in Hid.
  pose proof (client_turn_open w c c1 ev w1 exit Hid Hev Ht) as Hop1.
  pose proof (client_turn_meanwhile w c c1 ev w1 exit Hid Hev Ht) as Hm.
  pose proof (calls_ok_meanwhile _ _ _ _ _ Hm (co_calls _ _ Hok)) as Hk1.
  assert (∀ w2, channel_is_open w2 id = true → calls_ok w2 calls (log ++ turn_reads c ev) →
    ∃ ch, w_channels (close_channel w2 id) !! id = Some ch ∧ is_open ch = false ∧
      ∀ u, ss_waiters (ch_session ch) !! u ≠ Some Waiting) as Hclose.
  { intros w2 Hop2 (ch & Hch & Hsi & _). apply close_channel_resolves; [done|]. intros. by simplify_eq. }
  rewrite Hop in Hop1. destruct exit as [[|e|]|]; cbn in Hd; [| | |congruence].
  - pose proof (on_channel_open w1 (λ ch, send_packet ch Packet_Disconnect)
      (λ ch, send_cmd_open ch _)) as Hop2.
    pose proof (on_channel_meanwhile id [] w1 (λ ch, send_packet ch Packet_Disconnect)
      (λ ch, meanwhile_send ch _)) as Hm2.
    destruct (on_channel w1 id _) as [w2 r2]. injection Hd as <- <-. cbn [fst] in *.
    apply Hclose; [congruence | by eapply calls_ok_quiet].
  - injection Hd as <- <-. by apply Hclose.
  - injection Hd as <- <-. by apply Hclose.
Qed.

(** ** Theorems *)

(** C18: a client reports what its peer said.  However the loop, the writer, the
    application and any number of requests interleave, and whatever bytes the
    peer sends, a request never panics, and it returns a response only for the acks
    of its own packet id among the packets the loop dispatched after it was made, in
    their order; [handle] never panics either.  Unless the ping timer dropped a read
    in the middle of a packet, those packets are what the peer's bytes decode to,
    behind the CONNACK. *)
Theorem client_sends_explained input s0 s :
  client_opened id input s0 → rtc (client_step walk config id) s0 s →
  (∀ k r, k ∈ cs_calls s → cl_flow k = Returned r →
     returns r = true ∧
     ∀ resp, r = Ok resp →
       explained (cl_request k) (cl_id k) (drop (cl_since k) (cs_log s)) resp) ∧
  (∀ r, cs_phase s = Ended r → returns r = true) ∧
  (cs_lost s = 0%nat → cs_log s = [] ∨ ∃ rest, log_parsed input (cs_log s) rest).
Proof.
  intros H0 Hr. destruct (client_reachable_ok input s0 s H0 Hr) as [(ch & _ & _ & Hk) _ Hp].
  split_and!.
  - intros k r Hin Hret. rewrite Forall_forall in Hk. destruct (Hk k Hin) as [_ [_ Hf]].
    rewrite Hret in Hf. cbn in Hf. by destruct r; split; try done; intros ? [= <-].
  - intros r Hph. unfold client_phase_ok in Hp. rewrite Hph in Hp. by destruct Hp.
  - intros Hl. unfold client_phase_ok in Hp. destruct (cs_phase s) as [|c|r].
    + left. by destruct Hp.
    + right. destruct Hp as (_ & _ & _ & Hp). eauto.
    + by apply Hp.
Qed.

(** C19: the end of a connection releases the requests on it.  When the loop ends while
    the channel is open, the channel is closed and every request in flight is
    resumed at once: it returns the response its ack had already brought, or that
    the channel is closed.  The one exception is a QoS 2 publish whose PUBREC was
    dispatched and which had not been resumed since: it goes on to wait for the
    PUBCOMP, on a session nobody serves any more, until its timer expires. *)
Theorem client_end_releases input s0 s c s' r :
  client_opened id input s0 → rtc (client_step walk config id) s0 s →
  cs_phase s = Running c → channel_is_open (cs_world s) id = true →
  client_step walk config id s s' → cs_phase s' = Ended r →
  ∃ ch, w_channels (cs_world s') !! id = Some ch ∧ is_open ch = false ∧
    ∀ k, k ∈ cs_calls s' →
      poll_outcome (cl_request k) (cl_id k) (drop (cl_since k) (cs_log s')) (cl_flow k)
        (send_poll (ch, cl_flow k)).
Proof.
  intros H0 Hr Hph Hop Hs Hend. pose proof (client_reachable_ok input s0 s H0 Hr) as Hok.
  pose proof (client_step_ok input s s' Hs Hok) as Hok'.
  destruct (closes_open s c s' r input Hok Hph Hop Hs Hend) as (ch & Hch & Hcl & Hw).
  exists ch. split; [done|]. split; [done|]. intros k Hin.
  destruct (co_calls _ _ Hok') as (ch' & Hch' & _ & Hk). simplify_eq.
  rewrite Forall_forall in Hk. destruct (Hk k Hin) as [_ Hf]. by apply send_poll_outcome.
Qed.

End system.
