(* ===== verification/ClientExec.v ===== *)
(** Running the client: a scheduler for [ClientSystem.v].

    As in [Exec.v], a script says which task runs next.  [client_script_reachable]
    says that what a script computes is a state the client reaches, so that the
    theorems of [ClientSystem.v] hold of it; they are applied here to two of them,
    and [Conformance.v] runs the scenarios of the crate's client tests. *)

From S2P Require Import Prelude.
From S2P Require Import Types.
From S2P Require Import Safety.
From S2P Require Import Wire.
From S2P Require Import Encode.
From S2P Require Import Codec.
From S2P Require Import Session.
From S2P Require Import Channel.
From S2P Require Import Subscriptions.
From S2P Require Import Broker.
From S2P Require Import Send.
From S2P Require Import Protocol.
From S2P Require Import Server.
From S2P Require Import Client.
From S2P Require Import ClientFlow.
From S2P Require Import Exec.
From S2P Require Import ClientSystem.

#[local] Open Scope string_scope.
#[local] Open Scope list_scope.

Inductive ClientCommand :=
  | Dial                                (* [handle_client] up to its loop *)
  | No_connack                          (* the same, the CONNACK does not come *)
  | Loop_turn (ev : ClientEvent)        (* a turn of the loop *)
  | Request (req : MqttRequest)         (* [send_impl] up to its first suspension *)
  | Resume (i : nat)                    (* request [i] is polled *)
  | Expire (i : nat)                    (* the ack timer of request [i] *)
  | Write_all                           (* the writer empties its queue *)
  | Track (pid : Z) (p : PublishPacket). (* [track_outbound_inflight] *)

#[global] Instance own_client_event_dec {Handler Node} w
    (c : ClientConn (Handler:=Handler) (Node:=Node)) ev : Decision (own_client_event w c ev).
Proof. destruct ev; cbn; apply _. Defined.

Section exec.
Context {Handler Node : Type} (walk : str → list Node).
Context (config : option (MqttClientConfig Handler)) (id : Z).

Definition put_channel (s : ClientSystem Handler Node) (ch : MqttChannel) (calls : list Call) :
    ClientSystem Handler Node :=
  mkClientSystem (set_channels (cs_world s) (<[id := ch]> (w_channels (cs_world s))))
    (cs_phase s) calls (cs_log s) (cs_lost s).

Definition exec_dial (s : ClientSystem Handler Node) (timed_out : bool) :
    option (ClientSystem Handler Node) :=
  match cs_phase s with
  | Dialling =>
      let '(w, r) := client_connect config timed_out (cs_world s) id in
      let '(w, ph) := client_dialled id w r in
      Some (mkClientSystem w ph (cs_calls s) (cs_log s) (cs_lost s))
  | _ => None
  end.

Definition exec_resume (s : ClientSystem Handler Node) (i : nat)
    (resume : MqttChannel * SendFlow → MqttChannel * SendFlow) : option (ClientSystem Handler Node) :=
  k ← cs_calls s !! i;
  ch ← w_channels (cs_world s) !! id;
  let '(ch, flow) := resume (ch, cl_flow k) in
  Some (put_channel s ch (<[i := set_flow k flow]> (cs_calls s))).

Definition client_exec (s : ClientSystem Handler Node) (cmd : ClientCommand) :
    option (ClientSystem Handler Node) :=
  match cmd with
  | Dial => exec_dial s false
  | No_connack => exec_dial s true
  | Loop_turn ev =>
      match cs_phase s with
      | Running c =>
          if bool_decide (own_client_event (cs_world s) c ev) then
            let '(w, c1, exit) := client_turn walk (cs_world s) c ev in
            let '(w, ph) := client_turned id w c1 exit in
            Some (mkClientSystem w ph (cs_calls s) (cs_log s ++ turn_reads c ev)
                    (cs_lost s + turn_loses ev))
          else None
      | _ => None
      end
  | Request req =>
      ch ← w_channels (cs_world s) !! id;
      let '(ch', flow) := send_request ch req in
      Some (put_channel s ch' (cs_calls s ++
        [mkCall req (allocate_packet_id (ch_session ch)).2 (length (cs_log s)) flow]))
  | Resume i => exec_resume s i send_poll
  | Expire i => exec_resume s i send_timeout
  | Write_all =>
      ch ← w_channels (cs_world s) !! id;
      Some (put_channel s (actor_flush (length (ch_queue ch)) ch) (cs_calls s))
  | Track pid p =>
      ch ← w_channels (cs_world s) !! id;
      Some (put_channel s (set_session ch (track_outbound_inflight (ch_session ch) pid p))
        (cs_calls s))
  end.

Fixpoint client_script (s : ClientSystem Handler Node) (script : list ClientCommand) :
    option (ClientSystem Handler Node) :=
  match script with
  | [] => Some s
  | cmd :: script => s ← client_exec s cmd; client_script s script
  end.

(** ** Scripts are executions *)

Lemma writer_exec w ph calls log lost ch ch' :
  w_channels w !! id = Some ch → rtc actor_step ch ch' →
  rtc (client_step walk config id) (mkClientSystem w ph calls log lost)
    (put_channel (mkClientSystem w ph calls log lost) ch' calls).
Proof.
  intros Hch Hs. revert w Hch. induction Hs as [ch|ch ch1 ch' H1 _ IH]; intros w Hch.
  { unfold put_channel. cbn. rewrite insert_id by done. by destruct w. }
  eapply rtc_l; [eapply client_channel; [done | by left]|].
  specialize (IH (set_channels w (<[id := ch1]> (w_channels w)))). unfold put_channel in *. cbn in *.
  rewrite lookup_insert_eq, insert_insert_eq in IH. by apply IH.
Qed.

Lemma exec_dial_sound s timed_out s' :
  exec_dial s timed_out = Some s' → client_step walk config id s s'.
Proof.
  destruct s as [w [] calls log lost]; cbn; try done.
  destruct (client_connect config timed_out w id) as [w1 r] eqn:Hc.
  destruct (client_dialled id w1 r) as [w' ph] eqn:Hd. intros [= <-]. by eapply client_dial.
Qed.

Lemma exec_resume_sound s i resume s' :
  resume = send_poll ∨ resume = send_timeout → exec_resume s i resume = Some s' →
  client_step walk config id s s'.
Proof.
  intros Hres. destruct s as [w ph calls log lost]. unfold exec_resume, put_channel. cbn.
  destruct (calls !! i) as [k|] eqn:Hk; [|done]. cbn.
  destruct (w_channels w !! id) as [ch|] eqn:Hch; [|done]. cbn.
  destruct (resume (ch, cl_flow k)) as [ch' flow] eqn:Hr. intros [= <-]. by eapply client_resume.
Qed.

Lemma loop_turn_sound s ev s' :
  client_exec s (Loop_turn ev) = Some s' → client_step walk config id s s'.
Proof.
  destruct s as [w [|c|] calls log lost]; cbn; try done. case_bool_decide as Hev; [|done].
  destruct (client_turn walk w c ev) as [[w1 c1] exit] eqn:Ht.
  destruct (client_turned id w1 c1 exit) as [w' ph] eqn:Hd. intros [= <-].
  by eapply client_runs.
Qed.

Lemma client_exec_sound s cmd s' :
  client_exec s cmd = Some s' → rtc (client_step walk config id) s s'.
Proof.
  destruct cmd as [| |ev|req|i|i| |pid p];
    [| |intros H; by eapply rtc_once, loop_turn_sound|..]; cbn [client_exec].
  - intros H. by eapply rtc_once, exec_dial_sound.
  - intros H. by eapply rtc_once, exec_dial_sound.
  - destruct s as [w ph calls log lost]. unfold put_channel. cbn [cs_world cs_calls cs_phase cs_log cs_lost].
    destruct (w_channels w !! id) as [ch|] eqn:Hch; [|done]. cbn [mbind option_bind].
    destruct (send_request ch req) as [ch' flow] eqn:Hr. intros [= <-]. by apply rtc_once, client_call.
  - intros H. eapply rtc_once, exec_resume_sound; [by left | done].
  - intros H. eapply rtc_once, exec_resume_sound; [by right | done].
  - destruct s as [w ph calls log lost]. cbn [cs_world cs_calls].
    destruct (w_channels w !! id) as [ch|] eqn:Hch; [|done]. cbn [mbind option_bind]. intros [= <-].
    eapply writer_exec; [done | apply actor_flush_steps].
  - destruct s as [w ph calls log lost]. unfold put_channel. cbn [cs_world cs_calls cs_phase cs_log cs_lost].
    destruct (w_channels w !! id) as [ch|] eqn:Hch; [|done]. cbn [mbind option_bind]. intros [= <-].
    eapply rtc_once, client_channel; [done|]. right. constructor. constructor.
Qed.

Lemma client_script_steps s script s' :
  client_script s script = Some s' → rtc (client_step walk config id) s s'.
Proof.
  revert s. induction script as [|cmd script IH]; intros s Hr; cbn in Hr; [by injection Hr as <-|].
  destruct (client_exec s cmd) as [s1|] eqn:E; [|done].
  etrans; [by eapply client_exec_sound | by apply IH].
Qed.
End exec.

(** A client that dials a peer which will send [input]. *)
Definition client_new {Handler Node} (input : bytes) : ClientSystem Handler Node :=
  mkClientSystem (set_channels (world_new broker_accept_all)
    {[1 := (channel_new 1 (mkReader input []) (mkWriter [] None) None None Role_Client).2]})
    Dialling [] [] 0.

Lemma client_new_opened {Handler Node} input :
  bytes_ok input → client_opened 1 input (client_new (Handler:=Handler) (Node:=Node) input).
Proof.
  intros Hok. eexists _, 1, (mkReader input []), (mkWriter [] None), None, None.
  split; [reflexivity|]. split_and!; [apply lookup_singleton_eq | done..].
Qed.

Lemma client_script_reachable {Handler Node} (walk : str → list Node)
    (config : option (MqttClientConfig Handler)) input script s :
  bytes_ok input → client_script walk config 1 (client_new input) script = Some s →
  client_opened 1 input (client_new (Handler:=Handler) (Node:=Node) input) ∧
  rtc (client_step walk config 1) (client_new input) s.
Proof. intros Hok Hs. split; [by apply client_new_opened | by eapply client_script_steps]. Qed.

(** ** Witnesses

    A client that publishes at QoS 1 to a peer that accepts the connection, and then
    acknowledges the publish or hangs up. *)

Definition demo_accepts : bytes := [0x20; 0x02; 0x00; 0x00].
Definition demo_answers : bytes := demo_accepts ++ [0x40; 0x02; 0x00; 0x01].

Definition demo_pending : list ClientCommand :=
  [Dial; Request (demo_request AtLeastOnce); Loop_turn Cev_Test].

Definition demo_run (input : bytes) (script : list ClientCommand) : ClientSystem unit unit :=
  default (client_new input)
    (client_script one_node (Some demo_config) 1 (client_new input) script).

Lemma demo_run_reachable input script :
  bool_decide (bytes_ok input ∧ is_Some (client_script one_node (Some demo_config) 1
    (client_new input) script)) = true →
  client_opened 1 input (client_new (Handler:=unit) (Node:=unit) input) ∧
  rtc (client_step one_node (Some demo_config) 1) (client_new input) (demo_run input script).
Proof.
  intros [Hok [s Hs]]%bool_decide_eq_true. unfold demo_run. rewrite Hs.
  by apply (client_script_reachable one_node (Some demo_config) input script).
Qed.

Definition demo_acked : ClientSystem unit unit :=
  demo_run demo_answers (demo_pending ++ [Loop_turn Cev_Read; Resume 0]).
Definition demo_waiting : ClientSystem unit unit := demo_run demo_accepts demo_pending.
Definition demo_hung_up : ClientSystem unit unit :=
  demo_run demo_accepts (demo_pending ++ [Loop_turn Cev_Read]).

Lemma client_sends_explained_witness :
  cs_log demo_acked = [Packet_Puback 1] ∧
  explained (demo_request AtLeastOnce) 1 [Packet_Puback 1] (Published (Acknowledged 1)).
Proof.
  destruct (demo_run_reachable demo_answers (demo_pending ++ [Loop_turn Cev_Read; Resume 0]))
    as [H0 Hr]; [vm_compute; reflexivity|].
  destruct (client_sends_explained one_node (Some demo_config) 1 demo_answers _ demo_acked H0 Hr)
    as [Hk _].
  split; [vm_compute; reflexivity|].
  destruct (Hk (mkCall (demo_request AtLeastOnce) 1 0 (Returned (Ok (Published (Acknowledged 1)))))
    (Ok (Published (Acknowledged 1)))) as [_ He]; [|done | by apply He].
  apply (list_elem_of_lookup_2 _ 0). vm_compute. reflexivity.
Defined.

Lemma client_end_releases_witness :
  ∃ ch, w_channels (cs_world demo_hung_up) !! 1 = Some ch ∧ is_open ch = false ∧
    poll_outcome (demo_request AtLeastOnce) 1 [] (Await_puback 1 0)
      (send_poll (ch, Await_puback 1 0)).
Proof.
  destruct (demo_run_reachable demo_accepts demo_pending) as [H0 Hr]; [vm_compute; reflexivity|].
  destruct (client_end_releases one_node (Some demo_config) 1 demo_accepts _ demo_waiting
    (mkClientConn 1 demo_config (mkReader [] [2]) [] true) demo_hung_up (Ok tt) H0 Hr)
    as (ch & Hch & Hcl & Hk).
  - vm_compute. reflexivity.
  - vm_compute. reflexivity.
  - apply (loop_turn_sound one_node (Some demo_config) 1 _ Cev_Read). vm_compute. reflexivity.
  - vm_compute. reflexivity.
  - exists ch. split; [exact Hch|]. split; [exact Hcl|].
    apply (Hk (mkCall (demo_request AtLeastOnce) 1 0 (Await_puback 1 0))).
    apply (list_elem_of_lookup_2 _ 0). vm_compute. reflexivity.
Defined.

