(* ===== verification/Interop.v ===== *)
(** Both ends of a connection understand each other.

    [System.v] has the server and [ClientSystem.v] the client, each against a peer that
    may send anything.  Here the peer is the other one: the bytes that a client in any
    of its states has put on the wire are what a server connection reads, and the other
    way round.  What either end has written is the front of a sequence of encoded
    packets ([tidy]); reading such a stream, in pieces cut anywhere, yields packets
    that were sent until it ends, and the only complaint it can give rise to is that a
    packet is larger than the reader allows.  So neither end ever gives up on the other
    because of the form of the bytes it gets.  It can because of their order: at the end
    of the file, a server puts a PUBLISH ahead of the CONNACK. *)

From S2P Require Import Prelude.
From S2P Require Import Utf8.
From S2P Require Import Types.
From S2P Require Import Safety.
From S2P Require Import Wire.
From S2P Require Import Varint.
From S2P Require Import Encode.
From S2P Require Import Decode.
From S2P Require Import Codec.
From S2P Require Import Roundtrip.
From S2P Require Import Reencode.
From S2P Require Import Session.
From S2P Require Import Channel.
From S2P Require Import Subscriptions.
From S2P Require Import Broker.
From S2P Require Import Context.
From S2P Require Import Send.
From S2P Require Import Protocol.
From S2P Require Import Server.
From S2P Require Import ServerFlow.
From S2P Require Import Client.
From S2P Require Import ClientFlow.
From S2P Require Import Typed.
From S2P Require Import System.
From S2P Require Import Exec.
From S2P Require Import ClientSystem.
From S2P Require Import ClientExec.

(** ** Reading a tidy stream *)

(** The complaints about the bytes of a tidy stream: it ended, or a packet is over the
    reader's limit. *)
Definition read_complaint (max_size : Z) (e : MqttError) : Prop :=
  e = Io IoUnexpectedEof ∨ ∃ n, max_size < n ∧ e = Protocol (PacketTooLarge n max_size).

(** A frame that is cut short. *)
Lemma read_cut_frame first t body k max_size allocs :
  packet_type_try_from (first ≫ 4) = Some t → len body ≤ MQTT_SPEC_MAX_PACKET_SIZE →
  (k < length (frame first body))%nat →
  ∃ e rd', read_packet max_size (mkReader (take k (frame first body)) allocs) = (Err e, rd') ∧
    read_complaint max_size e.
Proof.
  intros Ht Hl Hk. pose proof (len_nonneg body).
  destruct k as [|j]; [eexists _, _; split; [reflexivity | by left]|].
  unfold frame in *. cbn [app firstn]. rewrite read_packet_eq, Ht.
  set (rl := encode_remaining_length (len body)) in *. cbn [app length] in Hk.
  rewrite length_app in Hk. destruct (decide (j < length rl)%nat) as [Hj|Hj].
  - rewrite take_app_le by lia. unfold rl in *. rewrite decode_rl_prefix by (lia || done).
    eexists _, _. split; [reflexivity | by left].
  - rewrite take_app_ge by lia. unfold rl at 1. rewrite decode_encode_rl by lia. cbv zeta.
    fold rl. destruct (Z.ltb_spec max_size (len body)) as [Hm|Hm].
    { eexists _, _. split; [reflexivity | right; eauto]. }
    assert (Z.to_nat (len rl) = length rl) as -> by (unfold len; lia).
    rewrite drop_app_length. rewrite (proj2 (Z.leb_gt _ _)).
    2:{ unfold len. rewrite length_take. lia. }
    eexists _, _. split; [reflexivity | by left].
Qed.

(** A whole frame, with whatever follows it. *)
Lemma read_whole_frame w p rest max_size allocs :
  frames w p →
  (∃ allocs', read_packet max_size (mkReader (w ++ rest) allocs) = (Ok p, mkReader rest allocs')) ∨
  (∃ e rd', read_packet max_size (mkReader (w ++ rest) allocs) = (Err e, rd') ∧
     read_complaint max_size e).
Proof.
  intros Hf. destruct (decide (declared_length w ≤ max_size)) as [Hm|Hm].
  { left. rewrite (frames_read w p) by done. eauto. }
  right. destruct Hf as (first & t & body & -> & Ht & Hl & _). pose proof (len_nonneg body).
  rewrite declared_length_frame in Hm by done. unfold frame. cbn [app].
  rewrite read_packet_eq, Ht, <- app_assoc, decode_encode_rl by lia. cbv zeta.
  rewrite (proj2 (Z.ltb_lt _ _)) by lia. eexists _, _. split; [reflexivity|].
  right. exists (len body). split; [lia | done].
Qed.

Lemma prefix_app_split {A} (l k1 k2 : list A) :
  l `prefix_of` k1 ++ k2 →
  (∃ l', l = k1 ++ l' ∧ l' `prefix_of` k2) ∨ (l = take (length l) k1 ∧ (length l < length k1)%nat).
Proof.
  intros [m Hm]. destruct (decide (length l < length k1)%nat) as [Hl|Hl].
  - right. split; [|done]. pose proof (f_equal (take (length l)) Hm) as Ht.
    by rewrite take_app_le, take_app_length in Ht by lia.
  - left. exists (drop (length k1) l). split.
    + pose proof (f_equal (take (length k1)) Hm) as Ht.
      rewrite take_app_length, take_app_le in Ht by lia. rewrite Ht at 1. by rewrite take_drop.
    + exists m. pose proof (f_equal (drop (length k1)) Hm) as Hd.
      by rewrite drop_app_length, drop_app_le in Hd by lia.
Qed.

(** One read of a tidy stream: a packet that was sent, with a tidy rest; or one of the
    two complaints. *)
Lemma tidy_read b max_size allocs :
  tidy b →
  (∃ q rd', sendable q ∧ read_packet max_size (mkReader b allocs) = (Ok (wire_view q), rd') ∧
     tidy (rd_input rd')) ∨
  (∃ e rd', read_packet max_size (mkReader b allocs) = (Err e, rd') ∧ read_complaint max_size e).
Proof.
  intros (full & (cmds & Hc & ->) & Hp). revert b Hp.
  induction Hc as [|cmd cmds Hcmd Hc IH]; intros b Hp; cbn [map concat] in Hp.
  { apply prefix_nil_inv in Hp as ->. right. eexists _, _. split; [reflexivity | by left]. }
  assert (cmd_bytes cmd = [] ∨ ∃ q, sendable q ∧ frames (cmd_bytes cmd) (wire_view q))
    as [Hnil|(q & Hq & Hf)].
  { destruct cmd as [p|p| |]; [right|right|by left..]; cbn in Hcmd.
    - exists p. destruct (sendable_encode p Hcmd) as (w & Hw & Hf). cbn. by rewrite Hw.
    - exists (Packet_Publish p). destruct (sendable_encode _ Hcmd) as (w & Hw & Hf).
      unfold cmd_bytes. by rewrite Hw. }
  { rewrite Hnil in Hp. by apply IH. }
  apply prefix_app_split in Hp as [(b' & -> & Hp)|[Hb Hl]].
  - destruct (read_whole_frame _ _ b' max_size allocs Hf) as [[allocs' Hr]|He]; [|by right].
    left. eexists q, _. split; [done|]. split; [exact Hr|]. exists (concat (map cmd_bytes cmds)).
    split; [by exists cmds | done].
  - right. destruct Hf as (first & t & body & Hw & Ht & Hlen & _). rewrite Hw in *. rewrite Hb.
    by apply (read_cut_frame first t body).
Qed.

(** ** What a client writes *)

(** The packet of a request. *)
Definition packet_of_request (req : MqttRequest) (pid : Z) : Packet :=
  match req with
  | Request_Publish r =>
      Packet_Publish (mkPublishPacket (req_topic r) (req_payload r) false (req_qos r) (req_retain r)
        (if bool_decide (req_qos r = AtMostOnce) then None else Some pid))
  | Request_Subscribe filters =>
      Packet_Subscribe (mkSubscribePacket pid
        (map (λ f, mkTopicSubscription (tf_filter f) (tf_qos f)) filters))
  | Request_Unsubscribe topics => Packet_Unsubscribe (mkUnsubscribePacket pid topics)
  end.

(** It fits the wire format, whatever packet id it is given. *)
Definition request_sendable (req : MqttRequest) : Prop :=
  ∀ pid, 1 ≤ pid ≤ u16_max → sendable (packet_of_request req pid).

Definition config_sendable {Handler} (config : MqttClientConfig Handler) : Prop :=
  sendable (Packet_Connect (build_connect config)) ∧
  (cfg_initial_subscriptions config ≠ [] →
     request_sendable (Request_Subscribe (cfg_initial_subscriptions config))).

Lemma after_send_outbound ch cmd next :
  cmd_sendable cmd → outbound ch → outbound (after_send (send_cmd ch cmd) next).1.
Proof. intros. rewrite after_send_channel. by apply send_cmd_outbound. Qed.

Lemma send_request_outbound ch req :
  request_sendable req → outbound ch → outbound (send_request ch req).1.
Proof.
  intros Hreq Hch. pose proof (allocate_packet_id_range (ch_session ch)) as Hid.
  destruct (allocate_packet_id (ch_session ch)) as [s pid] eqn:E. specialize (Hreq pid Hid).
  destruct req as [r|fs|ts]; cbn [send_request packet_of_request] in *;
    unfold send_publish, send_subscribe, send_unsubscribe, send_publish_cmd, send_packet; rewrite ?E.
  - destruct (req_qos r) eqn:Hq; rewrite ?(bool_decide_true (_ = _)), ?(bool_decide_false (_ = _)) in Hreq |- * by done;
      cbn -[after_send send_cmd]; rewrite ?E; apply after_send_outbound;
      auto using set_session_outbound.
  - apply (after_send_outbound _ (Cmd_Packet _)); auto using set_session_outbound.
  - apply (after_send_outbound _ (Cmd_Packet _)); auto using set_session_outbound.
Qed.

(** Being resumed changes nothing but the session. *)
Lemma resume_outbound resume ch flow ch' flow' :
  resume = send_poll ∨ resume = send_timeout → resume (ch, flow) = (ch', flow') →
  outbound ch → outbound ch'.
Proof.
  assert (outbound ch → outbound (send_poll (ch, flow)).1) as Hp.
  { unfold send_poll, send_resolved. intros Hch. repeat case_match; cbn; try done;
      simplify_eq; by apply set_session_outbound. }
  intros [-> | ->] Hr Hch.
  - specialize (Hp Hch). by rewrite Hr in Hp.
  - unfold send_timeout in Hr. destruct (flow_waiter flow) as [[i u]|]; [|by injection Hr as <- <-].
    destruct (ss_waiters (ch_session ch) !! u) as [[]|];
      try (specialize (Hp Hch); by rewrite Hr in Hp). injection Hr as <- _. by apply set_session_outbound.
Qed.

Section client.
Context {Handler Node : Type} (walk : str → list Node).
Context (config : option (MqttClientConfig Handler)) (id : Z).
Implicit Types c : ClientConn (Handler:=Handler) (Node:=Node).

Definition world_out (w : World) : Prop := ∀ ch, w_channels w !! id = Some ch → outbound ch.

Lemma on_channel_out {A} w (f : MqttChannel → MqttChannel * mresult A) :
  (∀ ch, outbound ch → outbound (f ch).1) → world_out w → world_out (on_channel w id f).1.
Proof.
  intros Hf Hw. destruct (w_channels w !! id) as [ch0|] eqn:E.
  - rewrite (on_channel_Some _ _ ch0) by done. intros ch. cbn. rewrite lookup_insert_eq.
    intros [= <-]. by apply Hf, Hw.
  - unfold on_channel. by rewrite E.
Qed.

Lemma send_out w p : sendable p → world_out w →
  world_out (on_channel w id (λ ch, send_packet ch p)).1.
Proof. intros Hp. apply on_channel_out. intros ch. by apply (send_cmd_outbound ch (Cmd_Packet p)). Qed.

Lemma session_out w g : world_out w → world_out (on_channel w id (with_session g)).1.
Proof. apply on_channel_out. intros ch. apply set_session_outbound. Qed.

Lemma close_out w : world_out w → world_out (close_channel w id).
Proof.
  intros Hw ch. cbn. rewrite lookup_alter_eq. destruct (w_channels w !! id) as [ch0|] eqn:E; [|done].
  intros [= <-]. by apply close_outbound, Hw.
Qed.

Lemma insert_out w ch : outbound ch → world_out (set_channels w (<[id := ch]> (w_channels w))).
Proof. intros Hch ch'. cbn. rewrite lookup_insert_eq. by intros [= <-]. Qed.

Lemma client_then_out w f (tasks : list (ClientTask (Handler:=Handler) (Node:=Node))) :
  (∀ ch, outbound ch → outbound (f ch).1) → world_out w → world_out (client_then w id f tasks).1.1.
Proof.
  intros Hf Hw. unfold client_then. pose proof (on_channel_out w f Hf Hw) as Ho.
  by destruct (on_channel w id f).
Qed.

Lemma ack_inbound_outbound pb ch :
  packet_ok (Packet_Publish pb) → outbound ch → outbound (ack_inbound_publish_pre_chain pb ch).1.
Proof.
  intros (_ & _ & Hid) Hch. unfold ack_inbound_publish_pre_chain, send_packet.
  destruct (pub_qos pb), (pub_packet_id pb) as [i|]; try done; cbn in Hid;
    apply send_cmd_outbound; auto using set_session_outbound; by split_and!.
Qed.

Lemma dispatch_out w (cfg : MqttClientConfig Handler) p :
  packet_ok p → world_out w → world_out (dispatch_client_inbound walk w id cfg p).1.1.
Proof.
  intros Hp Hw.
  assert (∀ q ch, sendable q → outbound ch → outbound (send_packet ch q).1) as Hsend
    by (intros q ch Hq; by apply (send_cmd_outbound ch (Cmd_Packet q))).
  destruct p as [k|a|pb|i|i|i|i|s|a|u|i| | |]; cbn [dispatch_client_inbound]; try done;
    try (apply client_then_out; [intros ch; apply set_session_outbound | done]).
  - pose proof (on_channel_out w _ (λ ch, ack_inbound_outbound pb ch Hp) Hw) as Ho.
    destruct (on_channel w id _) as [w1 [| | |]]; [case_bool_decide|..]; exact Ho.
  - pose proof (session_out w (λ s, wake_ack_waiter s i Kind_Pubrec) Hw) as Ho.
    destruct (on_channel w id _) as [w1 r1]. apply client_then_out; [|done].
    intros ch. apply Hsend. by split_and!.
  - set (f := λ ch : MqttChannel, _).
    pose proof (on_channel_out w f (λ ch, set_session_outbound ch _) Hw) as Ho.
    destruct (on_channel w id f) as [w1 r1]. apply client_then_out; [|done].
    intros ch. apply Hsend. by split_and!.
Qed.

Lemma client_turn_out w c ev w' c' exit :
  cc_channel c = id → own_client_event w c ev → bytes_ok (rd_input (cc_reader c)) →
  client_turn walk w c ev = (w', c', exit) → world_out w → world_out w'.
Proof.
  intros Hid Hev Hrd Ht Hw. destruct ev as [| |lost| |f]; cbn [client_turn] in *; rewrite ?Hid in Ht.
  - destruct (negb _); by injection Ht as <- _ _.
  - destruct (cc_at_select c); [|by injection Ht as <- _ _].
    destruct (cc_reader c) as [data allocs] eqn:Er.
    destruct (read_packet_any data allocs (max_packet_size (cfg_safety (cc_config c))) Hrd) as [Hm _].
    destruct (read_packet _ _) as [[p|e| |] rd']; [|destruct e|..]; try (by injection Ht as <- _ _).
    pose proof (dispatch_out w (cc_config c) p (proj1 Hm) Hw) as Ho.
    destruct (dispatch_client_inbound walk w _ _ p) as [[w1 tasks] [[]|e| |]];
      injection Ht as <- _ _; exact Ho.
  - destruct (cc_at_select c); [|by injection Ht as <- _ _].
    destruct (tick_or_never _); [|by injection Ht as <- _ _].
    destruct (cancel_read _ _ _) as [rd|]; [|by injection Ht as <- _ _].
    cbn [client_advance cc_channel] in Ht. rewrite Hid in Ht.
    pose proof (send_out w Packet_Pingreq ltac:(by split_and!) Hw) as Ho.
    destruct (on_channel w id _) as [w1 r]. destruct (is_ok r); injection Ht as <- _ _; exact Ho.
  - destruct (cc_at_select c); by injection Ht as <- _ _.
  - done.
Qed.

Lemma client_turned_out w c exit w' ph :
  client_turned id w c exit = (w', ph) → world_out w → world_out w'.
Proof.
  intros Hd Hw. destruct exit as [[|e|]|]; cbn in Hd; [|by injection Hd as <- _; apply close_out..|by injection Hd as <- _].
  pose proof (send_out w Packet_Disconnect ltac:(by split_and!) Hw) as Ho.
  destruct (on_channel w id _) as [w1 r]. injection Hd as <- _. by apply close_out.
Qed.

Hypothesis config_ok : opt_ok config_sendable config.

Lemma client_connect_out timed_out w :
  world_out w → world_out (client_connect (Node:=Node) config timed_out w id).1.
Proof.
  intros Hw. unfold client_connect. destruct config as [cfg|]; [|done]. destruct config_ok as [Hc Hs].
  set (f := λ ch : MqttChannel, _).
  pose proof (on_channel_out w f ltac:(by intros ch [? ? ?]) Hw) as H1.
  destruct (on_channel w id f) as [w1 [rd| | |]]; try done. cbn [fst] in H1.
  pose proof (send_out w1 _ Hc H1) as H2. destruct (on_channel w1 id _) as [w2 [| | |]]; try done.
  destruct timed_out; [done|].
  destruct (read_packet _ rd) as [[p| | |] rd']; try done. destruct p; try done.
  destruct (negb _); [done|]. cbn [fst] in H2.
  set (g := with_session _).
  pose proof (on_channel_out w2 g (λ ch, set_session_outbound ch _) H2) as H3.
  destruct (on_channel w2 id g) as [w3 r3]. cbn [fst] in H3.
  destruct (cfg_initial_subscriptions cfg) as [|tf tfs] eqn:Esub; [done|].
  specialize (Hs ltac:(done)). set (k := λ ch : MqttChannel, _).
  assert (world_out (on_channel w3 id k).1) as H4.
  { apply on_channel_out; [|done]. intros ch Hch. unfold k.
    pose proof (allocate_packet_id_range (ch_session ch)) as Hid.
    destruct (allocate_packet_id (ch_session ch)) as [s pid].
    apply (send_cmd_outbound _ (Cmd_Packet _)); [by apply Hs | by apply set_session_outbound]. }
  by destruct (on_channel w3 id k) as [w4 [| | |]].
Qed.

(** The client's wire stays in order as long as its requests fit the wire format. *)
Lemma client_step_out input s s' :
  client_step walk config id s s' → client_ok config id input s →
  Forall request_sendable (map cl_request (cs_calls s')) →
  world_out (cs_world s) → world_out (cs_world s').
Proof.
  intros Hs Hok Hreq Hw. destruct Hs as
    [w calls log lost timed_out w1 r w' ph Hc Hd
    |w c calls log lost ev w1 c1 exit w' ph Hev Ht Hd
    |w ph calls log lost req ch ch' flow Hch Hr
    |w ph calls log lost i k resume ch ch' flow Hres Hi Hch Hr
    |w ph calls log lost ch ch' Hch Ha]; cbn [cs_world cs_calls] in *.
  - pose proof (client_connect_out timed_out w Hw) as H1. rewrite Hc in H1.
    destruct r; injection Hd as <- _; [done|by apply close_out..].
  - destruct (co_phase _ _ _ _ Hok) as (_ & Hid & Hrd & _). cbn in Hid, Hrd.
    eapply client_turned_out; [done|]. by eapply client_turn_out.
  - rewrite map_app in Hreq. apply Forall_app in Hreq as [_ Hreq].
    cbn in Hreq. rewrite Forall_singleton in Hreq.
    apply insert_out. pose proof (send_request_outbound ch req Hreq (Hw ch Hch)) as Ho.
    by rewrite Hr in Ho.
  - apply insert_out. eapply resume_outbound; [done | done | by apply Hw].
  - apply insert_out. specialize (Hw ch Hch).
    destruct Ha as [Ha|Ha]; [by eapply actor_step_outbound|]. destruct Ha;
      auto using send_cmd_outbound, set_session_outbound, close_outbound.
Qed.

Lemma client_step_requests s s' :
  client_step walk config id s s' →
  map cl_request (cs_calls s) `prefix_of` map cl_request (cs_calls s').
Proof.
  destruct 1 as [| |w ph calls log lost req ch ch' flow Hch Hr
    |w ph calls log lost i k resume ch ch' flow Hres Hi Hch Hr|]; cbn [cs_calls]; try done.
  - rewrite map_app. by apply prefix_app_r.
  - replace (map cl_request (<[i := set_flow k flow]> calls)) with (map cl_request calls); [done|].
    rewrite list_fmap_insert. symmetry. apply list_insert_id. by rewrite list_lookup_fmap, Hi.
Qed.

Lemma client_run_out input s s' :
  rtc (client_step walk config id) s s' → client_ok config id input s →
  Forall request_sendable (map cl_request (cs_calls s')) →
  world_out (cs_world s) → world_out (cs_world s').
Proof.
  intros Hr Hok. revert s' Hr.
  apply (rtc_ind_r (λ s', Forall request_sendable (map cl_request (cs_calls s')) →
    world_out (cs_world s) → world_out (cs_world s'))); [done|].
  intros s1 s2 Hr Hs IH Hreq Hw. apply (client_step_out input s1); [done | | done|].
  - by apply (client_run_ok walk config id input s).
  - apply IH; [|done]. destruct (client_step_requests s1 s2 Hs) as [l Hl].
    rewrite Hl in Hreq. by apply Forall_app in Hreq as [Hreq _].
Qed.
End client.

(** ** A server connection on a client's bytes *)

(** The errors of a connection whose peer sends a tidy stream. *)
Definition benign (e : MqttError) : Prop :=
  e = ChannelClosed ∨ (∃ m, e = Configuration m) ∨ (∃ k, e = Timeout k) ∨
  e = Protocol SessionAlreadyBound ∨ e = Protocol ExpectedConnect ∨ e = Protocol ExpectedConnack ∨
  (∃ code, e = Protocol (ConnectionRefused code)) ∨ ∃ max_size, read_complaint max_size e.

Definition benign_result {A} (r : mresult A) : Prop := ∀ e, r = Err e → benign e.

Lemma benign_Ok {A} (a : A) : benign_result (Ok a).
Proof. done. Qed.

Lemma benign_closed {A} : benign_result (A:=A) (Err ChannelClosed).
Proof. intros e [= <-]. by left. Qed.

Lemma benign_send ch p : benign_result (send_packet ch p).2.
Proof. unfold send_packet, send_cmd. destruct (ch_actor ch); apply benign_Ok || apply benign_closed. Qed.

Ltac benign_done := intros; first [apply benign_Ok | apply benign_closed | apply benign_send].

Lemma benign_on_channel {A} w id (f : MqttChannel → MqttChannel * mresult A) :
  (∀ ch, benign_result (f ch).2) → benign_result (on_channel w id f).2.
Proof.
  intros Hf. unfold on_channel. destruct (w_channels w !! id) as [ch|]; [|done].
  specialize (Hf ch). by destruct (f ch).
Qed.

Lemma benign_then w c f k :
  (∀ ch, benign_result (f ch).2) → (∀ w', benign_result (k w').2) →
  benign_result (then_channel w c f k).2.
Proof.
  intros Hf Hk. unfold then_channel. pose proof (benign_on_channel w (sc_channel c) f Hf) as Hr.
  destruct (on_channel w (sc_channel c) f) as [w' [| | |]]; [apply Hk | exact Hr | done | done].
Qed.

Lemma benign_work c p : benign_result (send_work c p).2.
Proof. unfold send_work. destruct (sc_worker c); apply benign_Ok || apply benign_closed. Qed.

Lemma benign_ack pb ch : benign_result (ack_inbound_publish_pre_chain pb ch).2.
Proof.
  unfold ack_inbound_publish_pre_chain.
  destruct (pub_qos pb), (pub_packet_id pb); benign_done.
Qed.

Lemma dispatch_benign w c p : benign_result (dispatch_server_inbound w c p).2.
Proof.
  destruct p as [k|a|pb|i|i|i|i|s|a|u|i| | |]; cbn [dispatch_server_inbound]; try done;
    try (by apply benign_then; benign_done).
  - intros e [= <-]. unfold benign. naive_solver.
  - apply benign_then; [apply benign_ack|]. intros w'. case_bool_decide; [done|].
    pose proof (benign_work c pb) as Hb. by destruct (send_work c pb).
  - apply benign_then; [done|]. intros w'. apply benign_then; benign_done.
  - set (f := λ ch : MqttChannel, _).
    pose proof (benign_on_channel w (sc_channel c) f (λ ch, benign_Ok _)) as Hf.
    destruct (on_channel w (sc_channel c) f) as [w1 taken].
    set (x := match taken with Ok _ => _ | _ => _ end).
    assert (benign_result x.2) as Hx.
    { unfold x. destruct taken as [[st|]|e| |]; try done; [apply benign_work|].
      intros e' [= <-]. by apply Hf. }
    destruct x as [c' sent]. destruct sent; try done. apply benign_then; benign_done.
  - destruct (subscribe _ _ _ _) as [w0 codes]. apply benign_then; benign_done.
Qed.

Section server.
Context `{DashMapIter}.
Context {Node : Type} (walk : str → list Node).
Context (node_run : Node → MqttContext Node → option (MqttContext Node)).

(** One turn on a tidy stream: what is left is tidy, and if the loop ends it is not
    because of the bytes. *)
Lemma loop_turn_tidy w c ev w' c' exit :
  tidy (rd_input (sc_reader c)) → loop_turn walk node_run w c ev = (w', c', exit) →
  (exit = None → tidy (rd_input (sc_reader c'))) ∧
  ∀ g e, exit = Some (Broke g (Some e)) → benign e.
Proof.
  intros Htidy Ht. destruct ev as [|elapsed| | | |f]; cbn [loop_turn] in Ht.
  - destruct (negb _); by injection Ht as <- <- <-.
  - destruct (sc_at_select c); [|by injection Ht as <- <- <-].
    destruct (read_packet_before _ _ _ _) as [o rd] eqn:Er.
    assert (o = Some Read_DeadlineElapsed ∨ (∃ q, o = Some (Read_Packet (wire_view q)) ∧
      tidy (rd_input rd)) ∨ ∃ e m, o = Some (Read_Failed e) ∧ read_complaint m e) as Ho.
    { destruct (sc_reader c) as [b allocs]. unfold read_packet_before in Er.
      destruct (tidy_read b (sc_max_packet_size c) allocs Htidy)
        as [(q & rd' & _ & Hq & Hrest)|(e & rd' & Hq & He)]; rewrite Hq in Er;
        destruct (sc_read_deadline c), elapsed; injection Er as <- <-; eauto 8. }
    destruct Ho as [->|[(q & -> & Hrest)|(e & m & -> & He)]].
    + by injection Ht as <- <- <-.
    + pose proof (dispatch_reader w (set_conn_reader c rd) (wire_view q)) as Hrd.
      pose proof (dispatch_benign w (set_conn_reader c rd) (wire_view q)) as Hb.
      destruct (wire_view q); cbn [loop_read] in Ht;
        try (destruct (dispatch_server_inbound w _ _) as [[w1 c1] []]);
        injection Ht as <- <- <-; cbn [fst snd set_conn_reader sc_reader] in *;
        (split; [by rewrite ?Hrd | intros g' e' [= _ <-]; by apply Hb]) || done.
    + assert (benign e) as Hben by (unfold benign; naive_solver).
      destruct e; injection Ht as <- <- <-; (split; [done | by intros ? ? [= _ <-]]).
  - destruct (sc_at_select c); by injection Ht as <- <- <-.
  - unfold run_publish_chain_worker in Ht. destruct (sc_work c); by injection Ht as <- <- <-.
  - by injection Ht as <- <- <-.
  - by injection Ht as <- <- <-.
Qed.

Lemma serve_loop_tidy evs w c w' c' g e :
  tidy (rd_input (sc_reader c)) →
  serve_loop walk node_run w c evs = (w', c', Some (Broke g (Some e))) → benign e.
Proof.
  revert w c. induction evs as [|ev evs IH]; intros w c Htidy Hs; cbn in Hs; [done|].
  destruct (loop_turn walk node_run w c ev) as [[w1 c1] exit] eqn:Ht.
  destruct (loop_turn_tidy _ _ _ _ _ _ Htidy Ht) as [Hgo Hend].
  destruct exit as [ex|]; [injection Hs as <- <- ->; by eapply Hend | by eapply IH; [apply Hgo|]].
Qed.

Lemma admit_connect_tidy w id rd connect :
  benign_result (admit_connect w id rd connect).2 ∧
  ∀ c, (admit_connect w id rd connect).2 = Ok c → sc_reader c = rd.
Proof.
  assert (∀ code, benign_result (A:=ServerConn) (Err (Protocol (ConnectionRefused code)))) as Href
    by (intros code e [= <-]; unfold benign; naive_solver).
  unfold admit_connect, admit_register. destruct (keep_alive_refused _ _).
  { destruct (on_channel _ _ _). split; [apply Href | done]. }
  destruct (negb _). { destruct (on_channel _ _ _). split; [apply Href | done]. }
  destruct (register_session _ _ _ _ _) as [w1 present]. destruct (on_channel w1 id _) as [w2 r2].
  unfold then_connack, admit_connack. cbn [sc_channel].
  pose proof (benign_on_channel w2 id (λ ch, send_packet ch (connack present Accepted))
    (λ ch, benign_send ch _)) as Hb.
  destruct (on_channel w2 id _) as [w3 [|e| |]]; cbn [snd] in *; try done.
  - split; [done|]. by intros c [= <-].
  - split; [|done]. intros e' [= <-]. by apply Hb.
Qed.

Lemma admit_peer_tidy has_broker timed_out w id ch rd :
  w_channels w !! id = Some ch → ch_reader ch = Some rd → tidy (rd_input rd) →
  benign_result (admit_peer has_broker timed_out w id).2 ∧
  ∀ c, (admit_peer has_broker timed_out w id).2 = Ok c → tidy (rd_input (sc_reader c)).
Proof.
  intros Hch Hrd Htidy.
  assert (∀ m, benign_result (A:=ServerConn) (Err (Configuration m))) as Hcfg
    by (intros m e [= <-]; unfold benign; naive_solver).
  unfold admit_peer, admit_begin. destruct has_broker; cbn [negb]; [|split; [apply Hcfg | done]].
  rewrite (on_channel_Some _ _ ch) by done. cbn [take_reader fst snd]. rewrite Hrd. cbn [ok_or].
  destruct timed_out. { split; [|done]. intros e [= <-]. unfold benign. naive_solver. }
  destruct rd as [b allocs]. set (w1 := set_channels w _).
  destruct (tidy_read b (max_packet_size (br_safety (w_broker w1))) allocs Htidy)
    as [(q & rd' & _ & Hq & Hrest)|(e & rd' & Hq & He)]; rewrite Hq.
  - destruct (wire_view q) as [connect| | | | | | | | | | | | |];
      try (split; [|done]; intros e [= <-]; unfold benign; naive_solver).
    fold (admit_connect w1 id rd' connect).
    destruct (admit_connect_tidy w1 id rd' connect) as [Hb Hc]. split; [done|].
    intros c Hok. by rewrite (Hc c Hok).
  - split; [|done]. intros e' [= <-]. unfold benign. naive_solver.
Qed.

Lemma handle_server_tidy has_broker timed_out w id ch rd evs gaps w' r :
  w_channels w !! id = Some ch → ch_reader ch = Some rd → tidy (rd_input rd) →
  handle_server walk node_run has_broker timed_out w id evs gaps = Some (w', r) → benign_result r.
Proof.
  intros Hch Hrd Htidy Hh. unfold handle_server in Hh.
  destruct (admit_peer_tidy has_broker timed_out w id ch rd Hch Hrd Htidy) as [Hb Hc].
  destruct (admit_peer has_broker timed_out w id) as [w0 [c|e| |]]; cbn [snd] in *;
    try (by injection Hh as _ <-).
  - destruct (serve_loop walk node_run w0 c evs) as [[w1 c1] [[g [e|]|]|]] eqn:Es; try done;
      injection Hh as _ <-; try done.
    intros e' [= <-]. eapply serve_loop_tidy; [by apply Hc | exact Es].
  - injection Hh as _ <-. intros e' [= <-]. by apply Hb.
Qed.
End server.

(** ** A client on a server's bytes *)

Lemma client_then_benign {Handler Node} w id f (tasks : list (ClientTask (Handler:=Handler) (Node:=Node))) :
  (∀ ch, benign_result (f ch).2) → benign_result (client_then w id f tasks).2.
Proof.
  intros Hf. unfold client_then. pose proof (benign_on_channel w id f Hf) as Hr.
  destruct (on_channel w id f) as [w' [|e| |]]; try done. intros e' [= <-]. by apply Hr.
Qed.

Lemma client_dispatch_benign {Handler Node} (walk : str → list Node) w id
    (cfg : MqttClientConfig Handler) p :
  benign_result (dispatch_client_inbound walk w id cfg p).2.
Proof.
  destruct p as [k|a|pb|i|i|i|i|s|a|u|i| | |]; cbn [dispatch_client_inbound]; try done;
    try (by apply client_then_benign; benign_done).
  - pose proof (benign_on_channel w id _ (benign_ack pb)) as Hb.
    destruct (on_channel w id _) as [w1 [|e| |]]; cbn in *; [by case_bool_decide| |done..].
    intros e' [= <-]. by apply Hb.
  - destruct (on_channel w id _) as [w1 r1]. apply client_then_benign; benign_done.
  - destruct (on_channel w id _) as [w1 r1]. apply client_then_benign; benign_done.
Qed.

Section client.
Context {Handler Node : Type} (walk : str → list Node).
Context (config : option (MqttClientConfig Handler)) (id : Z).

Lemma client_connect_tidy timed_out w ch rd :
  w_channels w !! id = Some ch → ch_reader ch = Some rd → tidy (rd_input rd) →
  benign_result (client_connect (Node:=Node) config timed_out w id).2 ∧
  ∀ c, (client_connect (Node:=Node) config timed_out w id).2 = Ok c → tidy (rd_input (cc_reader c)).
Proof.
  intros Hch Hrd Htidy. unfold client_connect.
  destruct config as [cfg|]; [|split; [|done]; intros e [= <-]; unfold benign; naive_solver].
  rewrite (on_channel_Some _ _ ch) by done. cbn [take_reader fst snd]. rewrite Hrd. cbn [ok_or].
  set (w1 := set_channels w _). pose proof (benign_on_channel w1 id
    (λ ch, send_packet ch (Packet_Connect (build_connect cfg))) (λ ch, benign_send ch _)) as Hb.
  destruct (on_channel w1 id _) as [w2 [|e| |]]; try done.
  2:{ split; [|done]. intros e' [= <-]. by apply Hb. }
  destruct timed_out; [split; [|done]; intros e [= <-]; unfold benign; naive_solver|].
  destruct rd as [b allocs].
  destruct (tidy_read b (max_packet_size (cfg_safety cfg)) allocs Htidy)
    as [(q & rd' & _ & Hq & Hrest)|(e & rd' & Hq & He)]; rewrite Hq.
  2:{ split; [|done]. intros e' [= <-]. unfold benign. naive_solver. }
  destruct (wire_view q) as [|ack| | | | | | | | | | | |];
    try (split; [|done]; intros e [= <-]; unfold benign; naive_solver).
  destruct (negb _); [split; [|done]; intros e [= <-]; unfold benign; naive_solver|].
  destruct (on_channel w2 id _) as [w3 r3].
  destruct (cfg_initial_subscriptions cfg) as [|tf tfs]; [split; [done|]; by intros c [= <-]|].
  set (k := λ ch : MqttChannel, _).
  assert (benign_result (on_channel w3 id k).2) as Hk by (apply benign_on_channel; intros; apply benign_send).
  destruct (on_channel w3 id k) as [w4 [|e| |]]; cbn in *; try done.
  - split; [done|]. by intros c [= <-].
  - split; [|done]. intros e' [= <-]. by apply Hk.
Qed.

Lemma client_turn_tidy w (c c' : ClientConn (Handler:=Handler) (Node:=Node)) ev w' exit :
  tidy (rd_input (cc_reader c)) → turn_loses ev = 0%nat → client_turn walk w c ev = (w', c', exit) →
  (exit = None → tidy (rd_input (cc_reader c'))) ∧ ∀ e, exit = Some (Client_return e) → benign e.
Proof.
  intros Htidy Hl Ht. destruct ev as [| |lost| |f]; cbn [client_turn turn_loses] in *.
  - destruct (negb _); by injection Ht as <- <- <-.
  - destruct (cc_at_select c); [|by injection Ht as <- <- <-].
    destruct (cc_reader c) as [b allocs].
    destruct (tidy_read b (max_packet_size (cfg_safety (cc_config c))) allocs Htidy)
      as [(q & rd' & _ & Hq & Hrest)|(e & rd' & Hq & He)]; rewrite Hq in Ht.
    + pose proof (client_dispatch_benign walk w (cc_channel c) (cc_config c) (wire_view q)) as Hb.
      destruct (dispatch_client_inbound walk w _ _ _) as [[w1 tasks] [[]|e| |]];
        injection Ht as <- <- <-; (split; [done|]); intros e' [= <-]. by apply Hb.
    + assert (benign e) as Hben by (unfold benign; naive_solver).
      destruct e; injection Ht as <- <- <-; (split; [done | by intros ? [= <-]]).
  - subst lost. destruct (cc_at_select c); [|by injection Ht as <- <- <-].
    destruct (tick_or_never _); [|by injection Ht as <- <- <-].
    destruct (cancel_read _ _ _) as [rd|] eqn:Ec; [|by injection Ht as <- <- <-].
    apply cancel_read_intact in Ec. rewrite <- Ec in Htidy. destruct (on_channel _ _ _) as [w1 r].
    destruct (is_ok r); by injection Ht as <- <- <-.
  - destruct (cc_at_select c); by injection Ht as <- <- <-.
  - by injection Ht as <- <- <-.
Qed.

(** What is left to read is tidy, and the end was not because of the bytes. *)
Definition phase_tidy (s : ClientSystem Handler Node) : Prop :=
  match cs_phase s with
  | Dialling => True
  | Running c => tidy (rd_input (cc_reader c))
  | Ended r => benign_result r
  end.

Lemma client_step_tidy input s s' :
  client_step walk config id s s' → client_ok config id input s → tidy input →
  (cs_lost s = 0%nat → phase_tidy s) → cs_lost s' = 0%nat → phase_tidy s'.
Proof.
  intros Hs Hok Hin Hph. destruct Hs as
    [w calls log lost timed_out w1 r w' ph Hc Hd
    |w c calls log lost ev w1 c1 exit w' ph Hev Ht Hd| | |]; cbn [cs_lost] in *; try done; intros Hl.
  - destruct (co_phase _ _ _ _ Hok) as (_ & ch & rd & Hch & Hrd & <- & _).
    destruct (client_connect_tidy timed_out w ch rd Hch Hrd Hin) as [Hb Hc'].
    rewrite Hc in Hb, Hc'. unfold phase_tidy. cbn [cs_phase].
    destruct r as [c|e| |]; injection Hd as _ <-; [by apply Hc' | | done | done].
    intros e' [= <-]. by apply Hb.
  - assert (lost = 0%nat ∧ turn_loses ev = 0%nat) as [-> Hz] by lia. specialize (Hph eq_refl).
    destruct (client_turn_tidy w c c1 ev w1 exit Hph Hz Ht) as [Hgo Hend]. unfold phase_tidy. cbn [cs_phase].
    destruct exit as [[|e|]|]; cbn in Hd.
    + destruct (on_channel w1 id _) as [w2 r2]. injection Hd as _ <-. done.
    + injection Hd as _ <-. intros e' [= <-]. by apply Hend.
    + injection Hd as _ <-. done.
    + injection Hd as _ <-. by apply Hgo.
Qed.

Lemma client_run_tidy input s0 s :
  client_opened id input s0 → rtc (client_step walk config id) s0 s → tidy input →
  cs_lost s = 0%nat → phase_tidy s.
Proof.
  intros H0 Hr Hin. pose proof (client_opened_ok config id input s0 H0) as Hok. revert s Hr.
  apply (rtc_ind_r (λ s, cs_lost s = 0%nat → phase_tidy s)).
  - intros _. by destruct H0 as (w & n & rd & wr & la & ra & -> & _).
  - intros s1 s2 Hr Hs IH. eapply client_step_tidy; [done | | done | done].
    by apply (client_run_ok walk config id input s0).
Qed.
End client.

(** ** Theorems *)

Lemma tidy_prefix b b' : b `prefix_of` b' → tidy b' → tidy b.
Proof. intros Hp (full & Hf & Hb). exists full. split; [done | by etrans]. Qed.

Lemma client_opened_out {Handler Node} id input (s : ClientSystem Handler Node) :
  client_opened id input s → world_out id (cs_world s).
Proof.
  intros (w & n & rd & wr & la & ra & -> & Hch & <- & Hok & Hroom & Hout & _) ch Hc.
  cbn [cs_world] in Hc. simplify_eq. by apply channel_new_typed.
Qed.

Section theorems.
Context `{DashMapIter}.
Context {Node : Type} (walk : str → list Node).
Context (node_run : Node → MqttContext Node → option (MqttContext Node)).
Context {Handler CNode : Type} (cwalk : str → list CNode).
Context (config : option (MqttClientConfig Handler)) (id : Z).


(** C22: a client understands the crate's server.  Take any connection of a server in any
    state it reaches, with any number of other peers that send any bytes at all, and a
    client that gets the bytes the server has written to that connection, or any part
    of them from the start.  If the client ends in an error, that error is not about the
    form of the bytes: nothing that other peers send comes through the server as a
    packet the client cannot parse.  The keep-alive ticks of the client are those that
    fall between packets; one that fires in the middle of a packet loses its front.
    Application code of the server has to publish messages that fit a PUBLISH. *)
Theorem client_understands_server auth safety s sid ch input t0 t :
  (∀ node ctx out i i', node_run node ctx = Some out → ctx_incoming ctx = Some i →
     incoming_relayable i → ctx_incoming out = Some i' → incoming_relayable i') →
  rtc (system_step walk node_run) (system_new (broker_build auth safety)) s →
  w_channels (sy_world s) !! sid = Some ch → input `prefix_of` wr_out (ch_writer ch) →
  client_opened id input t0 → rtc (client_step cwalk config id) t0 t → cs_lost t = 0%nat →
  ∀ e, cs_phase t = Ended (Err e) → benign e.
Proof.
  intros Hnode Hs Hch Hp H0 Ht Hl e He.
  destruct (system_reachable_typed walk node_run Hnode auth safety s Hs) as [Hw _].
  assert (tidy input) as Htidy.
  { eapply tidy_prefix; [exact Hp|]. by eapply wire_typed_tidy, ob_wire, ct_out, wt_channel. }
  pose proof (client_run_tidy cwalk config id input t0 t H0 Ht Htidy Hl) as Hph.
  unfold phase_tidy in Hph. rewrite He in Hph. by apply Hph.
Qed.
End theorems.

(** ** A client and a server of the crate

    The client of [ClientExec.v] connects and publishes at QoS 1; the line breaks inside
    its CONNECT.  The server of [System.v] answers another one; the line breaks inside
    the CONNACK. *)

Definition demo_spoken : ClientSystem unit unit :=
  demo_run demo_accepts [Dial; Request (demo_request AtLeastOnce); Write_all].

Definition demo_wire : bytes :=
  from_option (λ ch, wr_out (ch_writer ch)) [] (w_channels (cs_world demo_spoken) !! 1).

Definition demo_heard (n : nat) : World :=
  set_channels (world_new broker_accept_all)
    {[1 := (channel_new 1 (mkReader (take n demo_wire) []) (mkWriter [] None) None None Role_Server).2]}.

Definition demo_hear (n : nat) : option (World * mresult unit) :=
  handle_server no_nodes no_run true false (demo_heard n) 1
    [Ev_Test; Ev_Read false; Ev_Test; Ev_Read false] [].

(** All of it: the connection is served until the stream ends, and ends well. *)
Example demo_hears_all : snd <$> demo_hear 55 = Some (Ok tt).
Proof. vm_compute. reflexivity. Qed.

Lemma demo_config_sendable : config_sendable demo_config.
Proof.
  split; [|done]. split; [|split; [|done]]; repeat split; cbn -[field_fits];
    by apply (bool_decide_unpack _); vm_compute.
Qed.

Lemma demo_request_sendable q : request_sendable (demo_request q).
Proof.
  intros pid Hpid. assert (u16_ok pid) by (unfold u16_ok, u16_max in *; lia).
  destruct q; (split; [|split; [done|]]); unfold packet_of_request, demo_request;
    cbn [packet_ok req_topic req_payload req_qos req_retain]; case_bool_decide; try done; split_and!;
    cbn [pub_topic pub_payload pub_packet_id pub_qos opt_ok]; try done;
    try (by apply (bool_decide_unpack _); vm_compute);
    intros _; exists pid; (split; [done | lia]).
Qed.


Lemma client_understands_server_witness :
  cs_phase (demo_run (take 3 demo_accepts) [Dial]) = Ended (Err (Io IoUnexpectedEof)) ∧
  benign (Io IoUnexpectedEof).
Proof.
  destruct (demo_run_reachable (take 3 demo_accepts) [Dial]) as [H0 Hr]; [vm_compute; reflexivity|].
  set (s := default demo_system (run Typed.one_node keep_run demo_system [Flush 1])).
  assert (rtc (system_step Typed.one_node keep_run) (system_new broker_accept_all) s) as Hs.
  { etrans; [apply demo_system_reachable|]. apply (run_steps _ _ _ [Flush 1]).
    vm_compute. reflexivity. }
  split; [vm_compute; reflexivity|].
  destruct (w_channels (sy_world s) !! 1) as [ch|] eqn:Ech;
    [|exfalso; vm_compute in Ech; discriminate Ech].
  apply (client_understands_server Typed.one_node keep_run Client.one_node (Some demo_config) 1
    AcceptAllAuthenticator safety_new s 1 ch (take 3 demo_accepts)
    (client_new (take 3 demo_accepts)) (demo_run (take 3 demo_accepts) [Dial])).
  - intros node ctx out i i' [= <-] Hi Hr' Hi'. rewrite Hi in Hi'. injection Hi' as <-. exact Hr'.
  - exact Hs.
  - exact Ech.
  - replace (wr_out (ch_writer ch)) with demo_accepts; [apply prefix_take|].
    vm_compute in Ech. injection Ech as <-. reflexivity.
  - exact H0.
  - exact Hr.
  - vm_compute. reflexivity.
  - vm_compute. reflexivity.
Defined.

(** ** A PUBLISH can come before the CONNACK

    [handle_server] registers the session before it queues the CONNACK.  A peer that
    comes back with its client id and keeps its session still has the subscriptions of
    the connection it takes over: a message that another task publishes in between is
    queued for it first.  A client that is told something else than CONNACK gives up. *)

Definition wire_of (ps : list Packet) : bytes :=
  concat (map (λ p, match encode_packet p with Ok b => b | _ => [] end) ps).

Definition demo_returns : Packet :=
  Packet_Connect (mkConnectPacket (str_of "cid") false 60 None None None).

Definition demo_message : PublishPacket :=
  mkPublishPacket (str_of "t") (str_of "on") false AtMostOnce false None.

Definition demo_overtaken : option System :=
  run Typed.one_node keep_run (system_new broker_accept_all)
    [Accept (wire_of [demo_returns; Packet_Subscribe (mkSubscribePacket 1
       [mkTopicSubscription (str_of "t") AtMostOnce])]);
     Connect 1; Turn 1 Ev_Test; Turn 1 (Ev_Read false);
     Accept (wire_of [demo_returns]); Register 2;
     Broadcast (str_of "other") demo_message;
     Connack 2; Flush 2].

Lemma demo_overtaken_wire :
  (s ← demo_overtaken; ch ← w_channels (sy_world s) !! 2; Some (wr_out (ch_writer ch))) =
    Some [0x30; 0x05; 0x00; 0x01; 0x74; 0x6f; 0x6e; 0x20; 0x02; 0x01; 0x00].
Proof. vm_compute. reflexivity. Qed.

Theorem publish_overtakes_connack :
  ∃ s ch t,
    rtc (system_step Typed.one_node keep_run) (system_new broker_accept_all) s ∧
    w_channels (sy_world s) !! 2 = Some ch ∧
    wr_out (ch_writer ch) =
      cmd_bytes (Cmd_Publish demo_message) ++ cmd_bytes (Cmd_Packet (connack true Accepted)) ∧
    client_opened 1 (wr_out (ch_writer ch)) (client_new (Handler:=unit) (Node:=unit) (wr_out (ch_writer ch))) ∧
    rtc (client_step Client.one_node (Some demo_config) 1) (client_new (wr_out (ch_writer ch))) t ∧
    cs_phase t = Ended (Err (Protocol ExpectedConnack)).
Proof.
  pose proof demo_overtaken_wire as (s & Es & (ch & Ech & [= Hw])%bind_Some)%bind_Some.
  pose proof (run_steps _ _ _ _ _ Es) as Hs.
  exists s, ch, (demo_run (wr_out (ch_writer ch)) [Dial]). rewrite Hw.
  split; [exact Hs|]. split; [exact Ech|]. split; [vm_compute; reflexivity|].
  apply and_assoc. split; [apply demo_run_reachable|]; vm_compute; reflexivity.
Qed.
