(* ===== verification/Conformance.v ===== *)
(** The crate's own tests, run on the model.

    The unit tests of [src/src/*/test.rs] and the server scenarios of
    [src/tests/integration.rs], under the names they have there, with the values they
    assert.  The crate promises nothing about its tests that the theorems of the other
    files do not say in general; the examples say that the definitions they are about
    compute, on these inputs, what the code is known to compute.

    The integration tests talk to the server over TCP; here the peers' bytes go through
    the scripts of [Exec.v], which are executions of the server of [System.v].  The
    client tests of [src/tests/client.rs] drive a client against a scripted peer; they
    are scripts of [ClientExec.v], executions of the client of [ClientSystem.v].  Left
    out are the tests about other protocols on the same port and about timing
    alone. *)

From S2P Require Import Prelude.
From S2P Require Import Types.
From S2P Require Import Safety.
From S2P Require Import Wire.
From S2P Require Import Encode.
From S2P Require Import Codec.
From S2P Require Import Topic.
From S2P Require Import Session.
From S2P Require Import Channel.
From S2P Require Import Subscriptions.
From S2P Require Import Broker.
From S2P Require Import Context.
From S2P Require Import Protocol.
From S2P Require Import Server.
From S2P Require Import ServerFlow.
From S2P Require Import Client.
From S2P Require Import Typed.
From S2P Require Import System.
From S2P Require Import Exec.
From S2P Require Import Send.
From S2P Require Import ClientSystem.
From S2P Require Import ClientExec.

#[local] Open Scope string_scope.
#[local] Open Scope list_scope.

(** ** [broker/test.rs] *)

Definition matches (filter topic : string) : bool :=
  filter_matches (str_of filter) (split slash (str_of topic)).

Example filter_matches_literal : map (λ f, matches f "a/b/c") ["a/b/c"; "a/b/d"] = [true; false].
Proof. vm_compute. reflexivity. Qed.

Example filter_matches_plus :
  map (λ f, matches f "a/b/c") ["a/+/c"; "+/+/+"; "a/+/d"; "a/+"] = [true; true; false; false].
Proof. vm_compute. reflexivity. Qed.

Example filter_matches_hash :
  map (λ f, matches f "a/b/c") ["a/#"; "#"; "a/b/#"; "b/#"] = [true; true; true; false].
Proof. vm_compute. reflexivity. Qed.

Example filter_matches_partial : map (λ f, matches f "a/b") ["a/b/c"; "a/b"] = [false; true].
Proof. vm_compute. reflexivity. Qed.

(** ** [protocol/test.rs] *)

Example zero_means_no_deadline_on_either_side :
  server_read_deadline 0 = None ∧ client_ping_interval 0 = None.
Proof. done. Qed.

Example the_grace_is_exact_for_odd_values :
  map server_read_deadline [1; 3; 5] = [Some 1500; Some 4500; Some 7500].
Proof. done. Qed.

Example even_values_are_unchanged : map server_read_deadline [2; 60] = [Some 3000; Some 90000].
Proof. done. Qed.

Example the_wire_maximum_does_not_overflow :
  server_read_deadline u16_max = Some 98302500 ∧ 98302500 < u64_max.
Proof. done. Qed.

(** ** [safety/test.rs] *)

Example default_is_below_the_spec_ceiling :
  max_packet_size safety_new = 1024 * 1024 ∧ max_packet_size safety_new < SPEC_MAX_PACKET_SIZE.
Proof. done. Qed.

Example setter_clamps_to_the_wire_ceiling :
  max_packet_size (with_max_packet_size safety_new u64_max) = SPEC_MAX_PACKET_SIZE.
Proof. done. Qed.

Example setter_accepts_values_under_the_ceiling :
  max_packet_size (with_max_packet_size safety_new 4096) = 4096.
Proof. done. Qed.

Example keep_alive_defaults_to_an_hour_and_rejects_the_disabled_form :
  max_keep_alive safety_new = 3600 ∧ allows_disabled_keep_alive safety_new = false.
Proof. done. Qed.

Example keep_alive_ceiling_is_not_clamped :
  max_keep_alive (with_max_keep_alive safety_new u16_max) = u16_max.
Proof. done. Qed.

Example disabled_keep_alive_can_be_opted_into :
  allows_disabled_keep_alive (allow_disabled_keep_alive safety_new) = true ∧
  max_keep_alive (allow_disabled_keep_alive safety_new) = 3600.
Proof. done. Qed.

(** ** [topic/test.rs] *)

Definition parse_filter (s : string) : mresult (list (PathPattern unit)) :=
  parse_subscribe_filter (str_of s).
Definition lit (s : string) : PathPattern unit := Literal (str_of s).

Example subscribe_literal : parse_filter "sensors/temp" = Ok [lit "sensors"; lit "temp"].
Proof. vm_compute. reflexivity. Qed.

Example subscribe_plus :
  parse_filter "sensors/+/temp" = Ok [lit "sensors"; Any; lit "temp"].
Proof. vm_compute. reflexivity. Qed.

Example subscribe_hash : parse_filter "sensors/#" = Ok [lit "sensors"; AnyPath].
Proof. vm_compute. reflexivity. Qed.

Example subscribe_hash_only : parse_filter "#" = Ok [AnyPath].
Proof. vm_compute. reflexivity. Qed.

Example subscribe_rejects_hash_not_terminal :
  parse_filter "a/#/b" = Err (Protocol HashWildcardNotTerminal).
Proof. vm_compute. reflexivity. Qed.

Example subscribe_rejects_mixed_wildcard :
  parse_filter "a+b" = Err (Protocol WildcardMixedWithLiteral).
Proof. vm_compute. reflexivity. Qed.

Example publish_rejects_wildcards :
  parse_publish_topic (R:=unit) (str_of "a/+/b") = Err (Protocol WildcardInPublishTopic).
Proof. vm_compute. reflexivity. Qed.

Example publish_accepts_dollar_sys :
  (λ p, length p) <$> match parse_publish_topic (R:=unit) (str_of "$SYS/broker/clients") with
                      | Ok p => Some p | _ => None end = Some 3%nat.
Proof. vm_compute. reflexivity. Qed.

Example path_to_wire_round_trip :
  map (λ s, match parse_filter s with Ok p => path_to_wire_filter p | _ => [] end)
    ["sensors/+/temp"; "a/#"] = map str_of ["sensors/+/temp"; "a/#"].
Proof. vm_compute. reflexivity. Qed.

Example validate_fast_path :
  map (λ s, is_ok (validate_subscribe_filter (str_of s))) ["a/+/b"; "a/#/b"] = [true; false] ∧
  map (λ s, is_ok (validate_publish_topic (str_of s))) ["a/b/c"; "a/+"] = [true; false].
Proof. vm_compute. done. Qed.

(** ** [session/test.rs] *)

Definition test_publish (id : Z) : PublishPacket :=
  mkPublishPacket (str_of "t") (str_of "x") false AtLeastOnce false (Some id).
Definition test_incoming (id : Z) : IncomingPublish :=
  mkIncomingPublish (str_of "t") (str_of "x") ExactlyOnce false false (Some id).

(** What the receiver of a waiter sees. *)
Definition cell (s : MqttSession) (w : nat) : option oneshot := ss_waiters s !! w.

Example clearing_an_unknown_id_is_a_no_op :
  has_outbound_inflight
    (clear_outbound_inflight (track_outbound_inflight session_new 1 (test_publish 1)) 99) 1 = true.
Proof. vm_compute. reflexivity. Qed.

Example a_matching_ack_wakes_the_waiter :
  let '(s, w) := park_publish_ack_waiter session_new 7 Kind_Pubcomp in
  let s := wake_ack_waiter s 7 Kind_Pubcomp in
  cell s w = Some (Delivered (Ack_id 7)) ∧ ss_pending_acks s !! 7 = None.
Proof. vm_compute. done. Qed.

Example a_mismatched_ack_leaves_the_waiter_parked :
  let '(s, w) := park_publish_ack_waiter session_new 7 Kind_Pubcomp in
  let s1 := wake_ack_waiter s 7 Kind_Puback in
  let s2 := wake_ack_waiter s1 7 Kind_Pubcomp in
  is_Some (ss_pending_acks s1 !! 7) ∧ cell s1 w = Some Waiting ∧
  cell s2 w = Some (Delivered (Ack_id 7)).
Proof. vm_compute. split_and!; [by eexists | done..]. Qed.

Example waking_an_unparked_id_is_a_no_op : wake_ack_waiter session_new 99 Kind_Puback = session_new.
Proof. vm_compute. reflexivity. Qed.

Example parking_then_waking_delivers_the_suback_codes :
  let '(s, w) := park_suback_waiter session_new 7 in
  let s := wake_suback_waiter s 7 [Failure] in
  cell s w = Some (Delivered (Ack_codes [Failure])) ∧ ss_pending_acks s !! 7 = None.
Proof. vm_compute. done. Qed.

Example suback_wake_leaves_a_publish_slot_alone :
  let '(s, w) := park_publish_ack_waiter session_new 7 Kind_Pubcomp in
  let s1 := wake_unsuback_waiter (wake_suback_waiter s 7 []) 7 in
  let s2 := wake_ack_waiter s1 7 Kind_Pubcomp in
  is_Some (ss_pending_acks s1 !! 7) ∧ cell s1 w = Some Waiting ∧
  cell s2 w = Some (Delivered (Ack_id 7)).
Proof. vm_compute. split_and!; [by eexists | done..]. Qed.

Example cancelling_a_waiter_empties_the_slot :
  ss_pending_acks (cancel_ack_waiter (park_unsuback_waiter session_new 9).1 9) !! 9 = None.
Proof. vm_compute. reflexivity. Qed.

Example a_publish_ack_never_touches_a_subscribe_slot :
  let '(s, w) := park_unsuback_waiter session_new 7 in
  let s := foldl (λ s k, wake_ack_waiter s 7 k) s [Kind_Puback; Kind_Pubrec; Kind_Pubcomp] in
  is_Some (ss_pending_acks s !! 7) ∧ cell s w = Some Waiting.
Proof. vm_compute. split; [by eexists | done]. Qed.

Example a_stashed_qos2_publish_is_released_exactly_once :
  let s := stash_qos2_publish session_new 9 (test_incoming 9) in
  let '(s, first) := take_qos2_publish s 9 in
  first = Some (test_incoming 9) ∧ (take_qos2_publish s 9).2 = None.
Proof. vm_compute. done. Qed.

Example releasing_an_unknown_packet_id_yields_nothing :
  let s := stash_qos2_publish session_new 9 (test_incoming 9) in
  let '(s, other) := take_qos2_publish s 10 in
  other = None ∧ (take_qos2_publish s 9).2 = Some (test_incoming 9).
Proof. vm_compute. done. Qed.

Example an_outbound_inflight_record_spans_track_to_clear :
  let s := track_outbound_inflight session_new 3 (test_publish 3) in
  (has_outbound_inflight session_new 3, has_outbound_inflight s 3,
   has_outbound_inflight (clear_outbound_inflight s 3) 3) = (false, true, false).
Proof. vm_compute. reflexivity. Qed.

Example abandon_empties_the_qos2_stash :
  let s := abandon (track_outbound_inflight
    (stash_qos2_publish session_new 9 (test_incoming 9)) 3 (test_publish 3)) in
  (take_qos2_publish s 9).2 = None ∧ has_outbound_inflight s 3 = false.
Proof. vm_compute. done. Qed.

(** ** [codec/test.rs] *)

Definition enc (p : Packet) : bytes := match encode_packet p with Ok b => b | _ => [] end.
Definition dec (b : bytes) : mresult (option Packet) :=
  (decode_packet_from_bytes b MQTT_SPEC_MAX_PACKET_SIZE).1.

Definition message (topic payload : string) (qos : QoS) (id : option Z) : PublishPacket :=
  mkPublishPacket (str_of topic) (str_of payload) false qos false id.
Definition connect_as (client_id : string) (keep_alive : Z) (username : option string)
    (will : option WillPacket) : Packet :=
  Packet_Connect (mkConnectPacket (str_of client_id) true keep_alive (str_of <$> username)
    ((λ _, str_of "pw") <$> username) will).
Definition subscribe_to (id : Z) (subs : list (string * QoS)) : Packet :=
  Packet_Subscribe (mkSubscribePacket id
    (map (λ '(f, q), mkTopicSubscription (str_of f) q) subs)).

Example encode_decode_all :
  let ps :=
    [connect_as "cid" 60 None None;
     Packet_Connect (mkConnectPacket (str_of "cid") false 30 (Some (str_of "alice"))
       (Some (str_of "secret"))
       (Some (mkWillPacket (str_of "offline") (str_of "bye") AtLeastOnce true)));
     Packet_Publish (message "sensors/temp" "42" AtMostOnce None);
     Packet_Publish (message "a/b" "x" AtLeastOnce (Some 42));
     subscribe_to 7 [("a/+", AtLeastOnce); ("b/#", ExactlyOnce)];
     Packet_Unsubscribe (mkUnsubscribePacket 8 (map str_of ["a/+"; "b/#"]))] in
  map (λ p, dec (enc p)) ps = map (λ p, Ok (Some p)) ps.
Proof. vm_compute. reflexivity. Qed.

Example pingreq_pingresp_disconnect_unsuback :
  map enc [Packet_Pingreq; Packet_Pingresp; Packet_Disconnect; Packet_Unsuback 42] =
    [[0xC0; 0]; [0xD0; 0]; [0xE0; 0]; [0xB0; 2; 0; 0x2A]].
Proof. vm_compute. reflexivity. Qed.

Example both_encoders_refuse_a_qos1_publish_with_no_packet_id :
  let p := message "t" "x" AtLeastOnce None in
  encode_publish p = Err MissingPacketId ∧
  write_publish_packet p (mkWriter [] None) = (Err (Codec MissingPacketId), mkWriter [] None).
Proof. vm_compute. done. Qed.

Example packet_id_zero_is_refused_on_encode :
  encode_publish (message "t" "x" ExactlyOnce (Some 0)) = Err ZeroPacketId.
Proof. vm_compute. reflexivity. Qed.

Example an_oversized_topic_is_refused_not_truncated :
  encode_publish (mkPublishPacket (replicate (Z.to_nat 65536) 97) [] false AtMostOnce false None) =
    Err (CodecTopicTooLong 65536 u16_max).
Proof. vm_compute. reflexivity. Qed.

Example qos0_with_a_stray_packet_id_still_encodes_without_one :
  dec (enc (Packet_Publish (message "t" "x" AtMostOnce (Some 7)))) =
    Ok (Some (Packet_Publish (message "t" "x" AtMostOnce None))).
Proof. vm_compute. reflexivity. Qed.

Example oversize_declaration_is_refused_before_the_body_is_read :
  let b := [0x30; 0xFF; 0xFF; 0xFF; 0x7F] in
  decode_packet_from_bytes b 1024 = (Err (Protocol (PacketTooLarge 268435455 1024)), b) ∧
  (read_packet 1024 (mkReader b [])).1 = Err (Protocol (PacketTooLarge 268435455 1024)) ∧
  rd_allocs (read_packet 1024 (mkReader b [])).2 = [].
Proof. vm_compute. done. Qed.

Example packet_exactly_at_the_cap_is_accepted :
  let wire := enc (Packet_Publish (message "a" "hello" AtMostOnce None)) in
  is_ok (read_packet (len wire - 2) (mkReader wire [])).1 = true.
Proof. vm_compute. reflexivity. Qed.

Example partial_buffer_returns_none : decode_packet_from_bytes [0x10] 1000 = (Ok None, [0x10]).
Proof. vm_compute. reflexivity. Qed.

(** ** [tests/integration.rs] *)

Definition inputs (ps : list Packet) : bytes := concat (map enc ps).
Definition connect_packet (client_id : string) : Packet := connect_as client_id 60 None None.
Definition accepted : Packet := connack false Accepted.
Definition granted_ack (id : Z) (qs : list QoS) : Packet :=
  Packet_Suback (mkSubackPacket id (map Granted qs)).
Definition testament (topic payload : string) : option WillPacket :=
  Some (mkWillPacket (str_of topic) (str_of payload) AtMostOnce false).

(** A peer joins with a CONNECT and what it sends after it, [n] packets of which the
    server reads at once. *)
Definition reads (id : Z) (n : nat) : list Command :=
  concat (replicate n [Turn id Ev_Test; Turn id (Ev_Read false)]).
Definition joins (id : Z) (b : bytes) (n : nat) : list Command :=
  [Accept b; Connect id] ++ reads id n.
Definition worker (id : Z) : Command := Turn id Ev_Worker.

(** The script's run: the bytes that peer [id] has received, and the number of
    sessions. *)
Definition final (b : Broker) (script : list Command) : option System :=
  run no_nodes no_run (system_new b) script.
Definition receives (b : Broker) (script : list Command) (id : Z) : option bytes :=
  s ← final b (script ++ [Flush id]);
  ch ← w_channels (sy_world s) !! id;
  Some (wr_out (ch_writer ch)).
Definition sessions (b : Broker) (script : list Command) : option nat :=
  s ← final b script; Some (session_count (w_broker (sy_world s))).

Example connect_returns_connack :
  receives broker_accept_all (joins 1 (inputs [connect_packet "test-client-1"]) 0) 1 =
    Some (inputs [accepted]).
Proof. vm_compute. reflexivity. Qed.

Example subscribe_returns_suback :
  receives broker_accept_all
    (joins 1 (inputs [connect_packet "sub-client";
       subscribe_to 7 [("sensors/+/temp", AtLeastOnce)]]) 1) 1 =
    Some (inputs [accepted; granted_ack 7 [AtLeastOnce]]).
Proof. vm_compute. reflexivity. Qed.

(** A subscriber on connection 1 and a publisher on connection 2. *)
Definition pub_sub (filter : string) (q : QoS) (more : list Packet) (p : PublishPacket) :
    list Command :=
  joins 1 (inputs ([connect_packet "sub"; subscribe_to 1 [(filter, q)]] ++ more)) 1 ++
  joins 2 (inputs [connect_packet "pub"; Packet_Publish p]) 1 ++ [worker 2].

Example publish_q0_fanout_to_subscriber :
  let p := message "hello/world" "greetings" AtMostOnce None in
  receives broker_accept_all (pub_sub "hello/world" AtMostOnce [] p) 1 =
    Some (inputs [accepted; granted_ack 1 [AtMostOnce]; Packet_Publish p]).
Proof. vm_compute. reflexivity. Qed.

Example publish_q1_round_trip_with_puback :
  let p := message "q1/topic" "q1-payload" AtLeastOnce in
  let script := pub_sub "q1/topic" AtLeastOnce [Packet_Puback 1] (p (Some 42)) ++ reads 1 1 in
  receives broker_accept_all script 2 = Some (inputs [accepted; Packet_Puback 42]) ∧
  receives broker_accept_all script 1 =
    Some (inputs [accepted; granted_ack 1 [AtLeastOnce]; Packet_Publish (p (Some 1))]).
Proof. vm_compute. done. Qed.

Example wildcard_plus_matches :
  let p := message "a/b/c" "hit" AtMostOnce None in
  receives broker_accept_all (pub_sub "a/+/c" AtMostOnce [] p) 1 =
    Some (inputs [accepted; granted_ack 1 [AtMostOnce]; Packet_Publish p]).
Proof. vm_compute. reflexivity. Qed.

Example wildcard_hash_matches :
  let p := message "sensors/floor/3/temp" "deep" AtMostOnce None in
  receives broker_accept_all (pub_sub "sensors/#" AtMostOnce [] p) 1 =
    Some (inputs [accepted; granted_ack 1 [AtMostOnce]; Packet_Publish p]).
Proof. vm_compute. reflexivity. Qed.

Example unsubscribe_stops_delivery :
  receives broker_accept_all
    (joins 1 (inputs [connect_packet "unsub-test"; subscribe_to 1 [("u/topic", AtMostOnce)];
       Packet_Unsubscribe (mkUnsubscribePacket 2 [str_of "u/topic"])]) 2 ++
     joins 2 (inputs [connect_packet "u-pub";
       Packet_Publish (message "u/topic" "should not arrive" AtMostOnce None)]) 1 ++ [worker 2]) 1 =
    Some (inputs [accepted; granted_ack 1 [AtMostOnce]; Packet_Unsuback 2]).
Proof. vm_compute. reflexivity. Qed.

Example pingreq_returns_pingresp :
  receives broker_accept_all (joins 1 (inputs [connect_packet "pinger"; Packet_Pingreq]) 1) 1 =
    Some (inputs [accepted; Packet_Pingresp]).
Proof. vm_compute. reflexivity. Qed.

Example self_fanout_suppression :
  receives broker_accept_all
    (joins 1 (inputs [connect_packet "self"; subscribe_to 1 [("self/topic", AtMostOnce)];
       Packet_Publish (message "self/topic" "echo" AtMostOnce None)]) 2 ++ [worker 1]) 1 =
    Some (inputs [accepted; granted_ack 1 [AtMostOnce]]).
Proof. vm_compute. reflexivity. Qed.

Example publish_q2_full_handshake :
  let p := message "q2/topic" "q2-payload" ExactlyOnce in
  let script :=
    joins 1 (inputs [connect_packet "q2-sub"; subscribe_to 1 [("q2/topic", ExactlyOnce)];
      Packet_Pubrec 1; Packet_Pubcomp 1]) 1 ++
    joins 2 (inputs [connect_packet "q2-pub"; Packet_Publish (p (Some 99)); Packet_Pubrel 99]) 2 ++
    [worker 2] ++ reads 1 2 in
  receives broker_accept_all script 2 =
    Some (inputs [accepted; Packet_Pubrec 99; Packet_Pubcomp 99]) ∧
  receives broker_accept_all script 1 =
    Some (inputs [accepted; granted_ack 1 [ExactlyOnce]; Packet_Publish (p (Some 1));
      Packet_Pubrel 1]).
Proof. vm_compute. done. Qed.

Example fanout_to_multiple_subscribers :
  let p := message "broadcast/topic" "to all" AtMostOnce None in
  let sub id name := joins id (inputs [connect_packet name;
    subscribe_to 1 [("broadcast/topic", AtMostOnce)]]) 1 in
  let script := sub 1 "sub-0" ++ sub 2 "sub-1" ++ sub 3 "sub-2" ++
    joins 4 (inputs [connect_packet "broadcaster"; Packet_Publish p]) 1 ++ [worker 4] in
  map (receives broker_accept_all script) [1; 2; 3] =
    replicate 3 (Some (inputs [accepted; granted_ack 1 [AtMostOnce]; Packet_Publish p])).
Proof. vm_compute. reflexivity. Qed.

Example external_broker_publish_reaches_mqtt_subscriber :
  let p := message "aiot/event" "from-http" AtMostOnce None in
  receives broker_accept_all
    (joins 1 (inputs [connect_packet "aiot-sub"; subscribe_to 1 [("aiot/event", AtMostOnce)]]) 1 ++
     [Broadcast (str_of "http-bridge") p]) 1 =
    Some (inputs [accepted; granted_ack 1 [AtMostOnce]; Packet_Publish p]).
Proof. vm_compute. reflexivity. Qed.

(** A watcher on connection 1, a client with a Will on connection 2. *)
Definition watched (filter : string) (second : list Command) : list Command :=
  joins 1 (inputs [connect_packet "watcher"; subscribe_to 1 [(filter, AtMostOnce)]]) 1 ++ second.

(** The peer is gone: the next read finds the end of the stream. *)
Example will_message_fires_on_abrupt_disconnect :
  receives broker_accept_all (watched "lwt/topic"
    (joins 2 (inputs [connect_as "crash-client" 60 None (testament "lwt/topic" "gone")]) 1 ++
     [Unregister 2])) 1 =
    Some (inputs [accepted; granted_ack 1 [AtMostOnce];
      Packet_Publish (message "lwt/topic" "gone" AtMostOnce None)]).
Proof. vm_compute. reflexivity. Qed.

Definition oversize : bytes := [0x30; 0xFF; 0xFF; 0xFF; 0x7F].
Definition small_broker : Broker :=
  broker_accept_all_with_safety (with_max_packet_size safety_new 1024).

Example oversize_declaration_is_refused_before_authentication :
  let script := joins 1 [0x10; 0xFF; 0xFF; 0xFF; 0x7F] 0 in
  receives small_broker script 1 = Some [] ∧
  (s ← final small_broker script; sy_conns s !! 1) = Some Finished ∧
  sessions small_broker script = Some 0%nat.
Proof. vm_compute. done. Qed.

Example oversize_declaration_is_refused_after_connect :
  let script := joins 1 (inputs [connect_packet "oversize-after-connect"] ++ oversize) 1 in
  receives small_broker script 1 = Some (inputs [accepted]) ∧
  sessions small_broker (script ++ [Unregister 1]) = Some 0%nat.
Proof. vm_compute. done. Qed.

Example malformed_packet_after_connect_unregisters_the_session :
  let b := inputs [connect_packet "leaky"] ++ [0xF0; 0x00] in
  sessions broker_accept_all (joins 1 b 0) = Some 1%nat ∧
  sessions broker_accept_all (joins 1 b 1 ++ [Unregister 1]) = Some 0%nat.
Proof. vm_compute. done. Qed.

Example malformed_packet_after_connect_publishes_the_will :
  receives broker_accept_all (watched "gone/#"
    (joins 2 (inputs [connect_as "dies-badly" 60 None (testament "gone/dies-badly" "offline")] ++
       [0xF0; 0x00]) 1 ++ [Unregister 2])) 1 =
    Some (inputs [accepted; granted_ack 1 [AtMostOnce];
      Packet_Publish (message "gone/dies-badly" "offline" AtMostOnce None)]).
Proof. vm_compute. reflexivity. Qed.

(** A second connection with the client id of the first. *)
Definition twins (more : list Packet) : list Command :=
  joins 1 (inputs [connect_packet "twins"]) 0 ++
  joins 2 (inputs (connect_packet "twins" :: more)) 0.

Example takeover_closes_the_earlier_connection :
  (s ← final broker_accept_all (twins []); Some (map (channel_is_open (sy_world s)) [1; 2])) =
    Some [false; true].
Proof. vm_compute. reflexivity. Qed.

(** The first finds its channel closed at the head of its loop. *)
Example earlier_teardown_does_not_evict_the_live_session :
  let script := twins [subscribe_to 7 [("after/takeover", AtMostOnce)]] ++
    [Turn 1 Ev_Test; Unregister 1] in
  sessions broker_accept_all script = Some 1%nat ∧
  receives broker_accept_all (script ++ reads 2 1) 2 =
    Some (inputs [accepted; granted_ack 7 [AtMostOnce]]).
Proof. vm_compute. done. Qed.

Example takeover_publishes_the_earlier_connection_will :
  receives broker_accept_all (watched "gone/#"
    (joins 2 (inputs [connect_as "twins" 60 None (testament "gone/twins" "taken over")]) 0 ++
     joins 3 (inputs [connect_packet "twins"]) 0)) 1 =
    Some (inputs [accepted; granted_ack 1 [AtMostOnce];
      Packet_Publish (message "gone/twins" "taken over" AtMostOnce None)]).
Proof. vm_compute. reflexivity. Qed.

Example a_superseded_connection_id_cannot_touch_the_live_session :
  (s ← final broker_accept_all (joins 1 (inputs [connect_packet "twins"]) 0);
   Some (subscribe (sy_world s) (str_of "twins") u64_max
           [TopicFilter_new (str_of "stale/topic") AtMostOnce]).2) = Some [Failure].
Proof. vm_compute. reflexivity. Qed.

Example an_idle_connection_with_a_keep_alive_is_still_dropped :
  sessions broker_accept_all
    (joins 1 (inputs [connect_as "idle" 1 None None]) 0 ++
     [Turn 1 Ev_Test; Turn 1 (Ev_Read true); Unregister 1]) = Some 0%nat.
Proof. vm_compute. reflexivity. Qed.

Definition OnlyAlice : Authenticator := λ connect _,
  if bool_decide (conn_username connect = Some (str_of "alice")) then auth_accept
  else auth_reject NotAuthorized.
Definition broker_with_auth : Broker := broker_with_authenticator OnlyAlice.

Example a_refused_connect_gets_the_declared_code_and_no_session :
  let script := joins 1 (inputs [connect_packet "stranger"]) 0 in
  receives broker_with_auth script 1 = Some (inputs [connack false NotAuthorized]) ∧
  sessions broker_with_auth script = Some 0%nat.
Proof. vm_compute. done. Qed.

Example a_refused_connect_never_publishes_its_will :
  receives broker_with_auth
    (joins 1 (inputs [connect_as "watcher" 60 (Some "alice") None;
       subscribe_to 1 [("gone/#", AtMostOnce)]]) 1 ++
     joins 2 (inputs [connect_as "stranger" 60 None
       (testament "gone/stranger" "should never appear")]) 0) 1 =
    Some (inputs [accepted; granted_ack 1 [AtMostOnce]]).
Proof. vm_compute. reflexivity. Qed.

Example the_same_authenticator_still_accepts_valid_credentials :
  let script := joins 1 (inputs [connect_as "alice-client" 60 (Some "alice") None]) 0 in
  receives broker_with_auth script 1 = Some (inputs [accepted]) ∧
  sessions broker_with_auth script = Some 1%nat.
Proof. vm_compute. done. Qed.

(** The publish waits for the worker, the PINGREQ is answered meanwhile. *)
Example the_reader_answers_pings_while_a_chain_is_running :
  receives broker_accept_all
    (joins 1 (inputs [connect_packet "pinger"; Packet_Publish (message "slow/topic" "x" AtMostOnce None);
       Packet_Pingreq]) 2) 1 = Some (inputs [accepted; Packet_Pingresp]).
Proof. vm_compute. reflexivity. Qed.

Example publishes_keep_their_order_through_the_worker :
  let ps := map (λ s, Packet_Publish (message "ordered/seq" s AtMostOnce None))
    ["first"; "second"; "third"] in
  receives broker_accept_all (watched "ordered/#"
    (joins 2 (inputs (connect_packet "order-sender" :: ps)) 3 ++ [worker 2; worker 2; worker 2])) 1 =
    Some (inputs ([accepted; granted_ack 1 [AtMostOnce]] ++ ps)).
Proof. vm_compute. reflexivity. Qed.

(** The CONNACK code a CONNECT with this keep-alive gets, and the number of sessions
    then. *)
Definition verdict (b : Broker) (keep_alive : Z) (code : ConnackReturnCode) (n : nat) : Prop :=
  let script := joins 1 (inputs [connect_as "anyone" keep_alive None None]) 0 in
  receives b script 1 = Some (inputs [connack false code]) ∧ sessions b script = Some n.

Definition accept_all_with (safety : MqttSafety) : Broker :=
  broker_with_authenticator_and_safety AcceptAllAuthenticator safety.

Example an_unconfigured_broker_refuses_every_connect : verdict broker_new 60 NotAuthorized 0.
Proof. vm_compute. done. Qed.

Example a_disabled_keep_alive_is_refused_by_default : verdict broker_new 0 ServerUnavailable 0.
Proof. vm_compute. done. Qed.

Example default_agrees_with_new : verdict broker_default 60 NotAuthorized 0.
Proof. vm_compute. done. Qed.

Example accept_all_still_accepts : verdict broker_accept_all 60 Accepted 1.
Proof. vm_compute. done. Qed.

Example a_disabled_keep_alive_is_accepted_when_opted_into :
  verdict (accept_all_with (allow_disabled_keep_alive safety_new)) 0 Accepted 1.
Proof. vm_compute. done. Qed.

Example a_keep_alive_above_the_ceiling_is_refused_not_clamped :
  verdict (accept_all_with (with_max_keep_alive safety_new 120)) 121 ServerUnavailable 0.
Proof. vm_compute. done. Qed.

Example a_keep_alive_at_the_ceiling_is_accepted :
  verdict (accept_all_with (with_max_keep_alive safety_new 120)) 120 Accepted 1.
Proof. vm_compute. done. Qed.

Example with_safety_keeps_the_deny_all_default :
  verdict (broker_with_safety (with_max_packet_size safety_new 1024)) 60 NotAuthorized 0.
Proof. vm_compute. done. Qed.

(** The scenarios are executions of the server: what [System.v] proves of its
    reachable states holds where they end. *)
Lemma final_reachable auth safety script s :
  final (broker_build auth safety) script = Some s →
  rtc (system_step no_nodes no_run) (system_new (broker_build auth safety)) s.
Proof. apply run_steps. Qed.

(** ** [tests/client.rs] *)

Definition client_named (name : string) : MqttClientConfig unit := config_new (str_of name).

(** The script's run against a peer that sends the packets [ps], and the bytes the peer
    has received once the writer has caught up. *)
Definition client_final (config : MqttClientConfig unit) (ps : list Packet)
    (script : list ClientCommand) : option (ClientSystem unit unit) :=
  client_script no_nodes (Some config) 1 (client_new (inputs ps)) script.
Definition client_sends (config : MqttClientConfig unit) (ps : list Packet)
    (script : list ClientCommand) : option bytes :=
  s ← client_final config ps (script ++ [Write_all]);
  ch ← w_channels (cs_world s) !! 1;
  Some (wr_out (ch_writer ch)).
Definition client_phase (config : MqttClientConfig unit) (ps : list Packet)
    (script : list ClientCommand) : option ClientPhase :=
  cs_phase <$> client_final config ps script.
Definition responses (config : MqttClientConfig unit) (ps : list Packet)
    (script : list ClientCommand) : option (list SendFlow) :=
  (λ s, map cl_flow (cs_calls s)) <$> client_final config ps script.

Definition dialled (config : MqttClientConfig unit) : Packet := Packet_Connect (build_connect config).
Definition takes (n : nat) : list ClientCommand :=
  concat (replicate n [Loop_turn Cev_Test; Loop_turn Cev_Read]).
Definition tick : list ClientCommand := [Loop_turn Cev_Test; Loop_turn (Cev_Tick 0)].

(** The CONNECT the peer decodes. *)
Definition connect_seen (config : MqttClientConfig unit) : option Packet :=
  match client_sends config [] [No_connack] with
  | Some b => match dec b with Ok p => p | _ => None end
  | None => None
  end.

Example connect_carries_the_configured_fields :
  connect_seen (config_with_will (config_with_credentials (config_keep_alive (config_clean_session
      (client_named "cfg-client") false) 45) (str_of "user") (str_of "secret"))
      (mkWillMessage (str_of "gone/cfg-client") (str_of "bye") AtMostOnce true)) =
    Some (Packet_Connect (mkConnectPacket (str_of "cfg-client") false 45 (Some (str_of "user"))
      (Some (str_of "secret"))
      (Some (mkWillPacket (str_of "gone/cfg-client") (str_of "bye") AtMostOnce true)))).
Proof. vm_compute. reflexivity. Qed.

Example connect_omits_optional_fields_when_unset :
  connect_seen (client_named "bare") =
    Some (Packet_Connect (mkConnectPacket (str_of "bare") true 60 None None None)).
Proof. vm_compute. reflexivity. Qed.

Example a_refused_connack_ends_the_session :
  client_phase (client_named "refused") [connack false NotAuthorized] [Dial] =
    Some (Ended (Err (Protocol (ConnectionRefused NotAuthorized)))).
Proof. vm_compute. reflexivity. Qed.

Definition subscriber (name filter : string) : MqttClientConfig unit :=
  config_with_initial_subscribe (config_keep_alive (client_named name) 1) (str_of filter) AtLeastOnce.

Example initial_subscriptions_are_sent_and_the_loop_starts :
  let config := subscriber "subber" "sensors/+/temp" in
  client_sends config [accepted; granted_ack 1 [AtLeastOnce]] ([Dial] ++ takes 1 ++ tick) =
    Some (inputs [dialled config; subscribe_to 1 [("sensors/+/temp", AtLeastOnce)]; Packet_Pingreq]).
Proof. vm_compute. reflexivity. Qed.

Example a_missing_suback_does_not_stall_startup :
  let config := subscriber "unanswered" "a/b" in
  client_sends config [accepted] ([Dial] ++ tick) =
    Some (inputs [dialled config; subscribe_to 1 [("a/b", AtLeastOnce)]; Packet_Pingreq]).
Proof. vm_compute. reflexivity. Qed.

Example no_subscribe_is_sent_when_none_are_configured :
  let config := config_keep_alive (client_named "quiet") 1 in
  client_sends config [accepted] ([Dial] ++ tick) = Some (inputs [dialled config; Packet_Pingreq]).
Proof. vm_compute. reflexivity. Qed.

Example inbound_qos1_publish_is_acked :
  let config := client_named "q1" in
  client_sends config [accepted; Packet_Publish (message "t/1" "hello" AtLeastOnce (Some 21))]
    ([Dial] ++ takes 1) = Some (inputs [dialled config; Packet_Puback 21]).
Proof. vm_compute. reflexivity. Qed.

Example inbound_qos2_publish_completes_the_handshake :
  let config := client_named "q2" in
  client_sends config [accepted; Packet_Publish (message "t/2" "exactly once" ExactlyOnce (Some 33));
      Packet_Pubrel 33] ([Dial] ++ takes 2) =
    Some (inputs [dialled config; Packet_Pubrec 33; Packet_Pubcomp 33]).
Proof. vm_compute. reflexivity. Qed.

Example a_pubrec_is_answered_with_pubrel :
  let config := client_named "rec" in
  client_sends config [accepted; Packet_Pubrec 77] ([Dial] ++ takes 1) =
    Some (inputs [dialled config; Packet_Pubrel 77]).
Proof. vm_compute. reflexivity. Qed.

Example a_pingresp_is_absorbed :
  let config := config_keep_alive (client_named "ping") 1 in
  client_sends config [accepted; Packet_Pingresp] ([Dial] ++ tick ++ takes 1 ++ tick) =
    Some (inputs [dialled config; Packet_Pingreq; Packet_Pingreq]).
Proof. vm_compute. reflexivity. Qed.

Example a_broker_disconnect_ends_the_session :
  let config := config_keep_alive (client_named "bye") 1 in
  client_phase config [accepted; Packet_Disconnect] ([Dial] ++ takes 1) = Some (Ended (Ok tt)) ∧
  client_sends config [accepted; Packet_Disconnect] ([Dial] ++ takes 1) =
    Some (inputs [dialled config; Packet_Disconnect]).
Proof. vm_compute. done. Qed.

Definition outgoing (topic : string) (qos : QoS) : MqttRequest :=
  Request_Publish (mkPublishRequest (str_of topic) (str_of "payload") qos false).

Example a_qos0_publish_returns_without_waiting :
  let config := client_named "q0-out" in
  let script := [Dial; Request (outgoing "out/0" AtMostOnce)] in
  responses config [accepted] script = Some [Returned (Ok (Published Sent))] ∧
  client_sends config [accepted] script =
    Some (inputs [dialled config; Packet_Publish (message "out/0" "payload" AtMostOnce None)]).
Proof. vm_compute. done. Qed.

Example a_qos1_publish_resolves_when_the_puback_arrives :
  let config := client_named "q1-out" in
  let script := [Dial; Request (outgoing "out/1" AtLeastOnce)] ++ takes 1 ++ [Resume 0] in
  responses config [accepted; Packet_Puback 1] script =
    Some [Returned (Ok (Published (Acknowledged 1)))] ∧
  client_sends config [accepted; Packet_Puback 1] script =
    Some (inputs [dialled config; Packet_Publish (message "out/1" "payload" AtLeastOnce (Some 1))]).
Proof. vm_compute. done. Qed.

Example a_qos2_publish_walks_the_whole_handshake :
  let config := client_named "q2-out" in
  let peer := [accepted; Packet_Pubrec 1; Packet_Pubcomp 1] in
  let script := [Dial; Request (outgoing "out/2" ExactlyOnce)] ++ takes 1 ++ [Resume 0] ++
    takes 1 ++ [Resume 0] in
  responses config peer script = Some [Returned (Ok (Published (Completed 1)))] ∧
  client_sends config peer script =
    Some (inputs [dialled config; Packet_Publish (message "out/2" "payload" ExactlyOnce (Some 1));
      Packet_Pubrel 1]).
Proof. vm_compute. done. Qed.

Example subscribe_returns_the_granted_codes :
  let config := client_named "sub-out" in
  responses config [accepted; Packet_Suback (mkSubackPacket 1 [Granted AtLeastOnce; Failure])]
    ([Dial; Request (Request_Subscribe [mkTopicFilter (str_of "ok/topic") AtLeastOnce;
       mkTopicFilter (str_of "denied/topic") AtLeastOnce])] ++ takes 1 ++ [Resume 0]) =
    Some [Returned (Ok (Subscribed [Granted AtLeastOnce; Failure]))].
Proof. vm_compute. reflexivity. Qed.

Example unsubscribe_resolves_when_the_unsuback_arrives :
  responses (client_named "unsub-out") [accepted; Packet_Unsuback 1]
    ([Dial; Request (Request_Unsubscribe [str_of "drop/me"])] ++ takes 1 ++ [Resume 0]) =
    Some [Returned (Ok Unsubscribed)].
Proof. vm_compute. reflexivity. Qed.

Example concurrent_sends_get_their_own_acks :
  responses (client_named "two-out") [accepted; Packet_Puback 2; Packet_Puback 1]
    ([Dial; Request (outgoing "out/a" AtLeastOnce); Request (outgoing "out/b" AtLeastOnce)] ++
     takes 2 ++ [Resume 0; Resume 1]) =
    Some [Returned (Ok (Published (Acknowledged 1))); Returned (Ok (Published (Acknowledged 2)))].
Proof. vm_compute. reflexivity. Qed.

Example a_zero_keep_alive_client_never_pings :
  let config := config_keep_alive (client_named "silent") 0 in
  client_sends config [accepted] ([Dial] ++ tick ++ [Loop_turn (Cev_Tick 0)]) = Some (inputs [dialled config]).
Proof. vm_compute. reflexivity. Qed.

Example a_qos2_flow_keeps_its_inflight_record_until_pubcomp :
  let config := client_named "q2-inflight" in
  let peer := [accepted; Packet_Pubrec 1; Packet_Pubcomp 1] in
  let recorded script :=
    s ← client_final config peer script;
    ch ← w_channels (cs_world s) !! 1;
    Some (has_outbound_inflight (ch_session ch) 1) in
  let first := [Dial; Request (outgoing "out/q2-inflight" ExactlyOnce);
    Track 1 (message "seeded/for/this/test" "x" ExactlyOnce (Some 1))] ++ takes 1 ++ [Resume 0] in
  let rest := takes 1 ++ [Resume 0] in
  recorded first = Some true ∧ recorded (first ++ rest) = Some false ∧
  responses config peer (first ++ rest) = Some [Returned (Ok (Published (Completed 1)))].
Proof. vm_compute. done. Qed.
